(* ===== verification/_CoqProject ===== *)
-Q . S2P
Prelude.v
Errors.v
Nums.v
Rng.v
FaultMenu.v
Pressure.v
Ids.v
Json.v
Wire.v
Integrity.v
Core.v
Registry.v
Migrate.v
Outbox.v
Storage.v
SimStorage.v
Apply.v
Engine.v
EngineFacts.v
EngineSteps.v
Place.v
PushFacts.v
Ledger.v
Server.v
Schema.v
Database.v
Dedupe.v
Race.v
Fleet.v
Log.v
Watermark.v
Auth.v
Daemon.v
Startup.v
Replica.v
SimServer.v
SimServerFacts.v
SimReads.v
SimFeed.v
Deliveries.v
SimCommands.v
Invariants.v
InvariantFacts.v
Trace.v
World.v
Sweep.v
WorldDevices.v
WorldServer.v
WorldSteps.v
WorldCarry.v
WorldSound.v
WorldPhases.v
WorldClean.v
WorldRuns.v
WorldQuiet.v
WorldArrive.v
WorldQueues.v
WorldDrain.v
Concrete.v
EngineClaims.v
OutboxClaims.v
Exchange.v
ClientWitnesses.v
ProtocolClaims.v
DedupeClaims.v
FleetClaims.v
Sync.v
SyncClaims.v
LogClaims.v
WatermarkClaims.v
DaemonClaims.v
ServerWitnesses.v
StartupClaims.v
SchemaClaims.v
RngClaims.v
SimClaims.v
InvariantClaims.v
SweepClaims.v
WorldClaims.v
ArrivalClaims.v
