(* ===== verification/Prelude.v ===== *)
(** * credSync: a verification library (root file)

    credSync keeps a device's copy of server rows up to date over a bad network, and carries
    the user's commands the other way, without losing or repeating either. This library
    models the crates that do it, and the simulator that tries to break them, and proves what
    they promise one another.

    ** The program and where it is modelled

    The protocol (src/credsync-protocol) is the vocabulary: every value on the wire is built
    by a constructor that enforces its bounds.
    - Errors: limits.rs and error.rs. Nums: nums.rs. Ids: ids.rs. Json: canonical.rs and the
      documents of wire.rs. Wire: the messages of wire.rs and the bounded decoders of
      validated.rs. Integrity: integrity.rs, with the scope digest, a sum of row hashes
      modulo 2^128.

    The client (src/credsync-core) is a state machine with no I/O of its own: it talks to a
    database, a network, a clock, a random source and a compressor through five traits.
    - Core: types.rs, scope.rs, event.rs, effect.rs, error.rs, conflict.rs, wire.rs.
      Registry: registry.rs. Migrate: migrate.rs. Outbox: outbox.rs. Storage: the traits of
      traits.rs as classes, the operations of storage.rs, and the contract of a storage as the
      law class [StorageLaws]: a transaction that answers success took all its operations,
      one that answers failure took all or none. Apply: apply.rs. Engine: engine.rs, one
      definition per method, on the record [Engine]; a method returning a Result is a [step],
      whose state survives an error as a mutated receiver does.
    - SimStorage: the adapters of the simulator's fakes.rs; its database is proved to satisfy
      [StorageLaws], so every theorem about the client applies to it. EngineFacts, EngineSteps,
      Place, PushFacts and Ledger hold the lemmas about what each call does to the durable
      state: its digest, its position, its queue of commands and their outcomes.
    - A run of the client ([EngineSteps.client_step]) is any sequence of calls, with any result,
      and of restarts over the same storage. What the server may send it in the run, and with
      which registry the app may be reopened, is a parameter, the [Regime]: [anything], or
      [understood], only changes the app files under the scope and can read. A change it cannot
      read is quarantined; the digest then counts a row that is not stored, and stays off by as
      much ([EngineFacts.drift_of]) until the scope is rebuilt. What the engine trusts agrees
      with storage in any run ([client_step_coherent]); that the digest describes the rows, and
      what the sync theorems say, needs the changes, or the server's whole log
      ([Sync.log_understood]), to be understood.

    The server (src/credsync-server, src/credsyncd) owns the change log, the results of
    commands, the watermark and the blocklist, in Postgres.
    - Server: error.rs, pull.rs, version.rs. Database: the tables and the statements, with
      the faults a statement can meet (it fails, or it takes effect and its reply is lost).
      Schema: [db::migrate], its retry loop, lock and timeouts. Dedupe: dedupe.rs and host.rs.
      Log: the queries of db.rs. Watermark: the transactions, the advisory lock, the sequence
      and [safe_watermark] of db.rs. Auth: auth.rs and blocklist.rs. Daemon: the request path
      of credsyncd/src/lib.rs. Startup: its routes, and credsyncd/src/main.rs.
    - Place, Replica and Sync join the two sides. Place is where a device stands in a scope and
      what every call does to it; Replica composes the queries of Log with the byte budget of
      Server into the pages a device is served, and relates what it holds to the log; Sync is
      the world of one server and one device, its steps and its invariant; between asking and
      being answered the server commits and the device does other things.
    - Race and Watermark are step relations: several requests (or hosts and readers)
      interleave between their awaits over shared tables. A run of one request that nobody
      interrupts is proved to be the sequential definition ([Race.forward_runs]).

    The simulator (src/credsync-sim) runs two to four devices on the client's own engine
    against an in-memory server and a network that misbehaves, from one seed.
    - Rng: rng.rs, PCG-XSH-RR on 64-bit words with its rejection loop. FaultMenu: fault.rs.
      Pressure: pressure.rs. SimServer: server.rs, the log with what is visible of it, commits
      out of order, pulls and bootstraps under the commit-order guard, the host's dice, dedupe.
      Invariants: invariant.rs, the seven checkers, their memory and their messages. Trace:
      trace.rs. World: world.rs, one definition per method, every draw in the order of the
      source. Sweep: main.rs and lib.rs, one seed and a batch of them over workers.
    - SimServerFacts, SimReads, SimFeed and SimCommands prove the server: what a pull answers
      as a part of the log, what a device that takes it holds. InvariantFacts says what each
      checker accepts.
    - Deliveries, WorldDevices, WorldServer, WorldSteps, WorldCarry, WorldSound, WorldPhases,
      WorldClean and WorldRuns carry one invariant through a step of the world: each device
      stands at its cursor, the responses in flight to it can be taken in their order
      ([Deliveries.queue_ok]), its commands have each one place ([Ledger.ledger]), and the
      checkers remember the state they last saw. The devices' turns, the network and the
      deliveries are one lemma each, and [WorldRuns.world_step_ok] composes them.
    - WorldQuiet, WorldArrive, WorldQueues and WorldDrain are about a world whose faults are
      off: a turn ends with a push and a pull in flight, a batch that is in order is
      taken, an answer takes its commands out of the queue, and with nothing to push and
      nothing uncommitted the server never moves. What it may still write is bounded by the
      commands it has not answered ([WorldDrain.spent]).

    ** How the parts are put together

    Third-party code is a parameter: the JSON writer (class [Codec]), the two hashes
    ([Hashes]), the JWT decoder ([Jwt]), the host application ([Host]), the compressor.
    Theorems that need documented facts of them take law classes ([CodecArrays], [HashLaws]);
    Concrete gives each an instance, and every theorem with a hypothesis is applied to a
    concrete input in a witness beside it or in ClientWitnesses and ServerWitnesses.

    Widths are kept where they matter: the digest is a [Z] modulo 2^128, divergence counts
    saturate at 2^32, sequence numbers are bounded by [i64::MAX]. Strings are UTF-8 bytes.
    BTreeMap order is recovered with a sort where iteration order is visible.

    Fuel: [CommandId.parse_loop] takes the string's length, and [parse_loop_fuel] shows it is
    never exhausted; [Watermark.run_reader] takes seven, and [run_reader_done] shows a reader
    has finished by then; [Replica.drain] takes one pull more than there are rows, and
    [drain_from] shows that is enough; [Rng.until] takes 2^64 turns, the period of the generator;
    the steps of a run and of settling are the source's constants; [Race.run_alone] takes four
    moves, and [forward_runs] shows the session has ended; [Sync.pull_until] and
    [Sync.bootstrap_until] take one page more than there are changes missing, and
    [pull_until_ends] and [bootstrap_until_ends] show that is enough;
    [Exchange.push_until] takes one round more than there are commands to send, and
    [push_until_ends] shows that is enough.

    ** What the theorems show

    SyncClaims: a device that syncs with an honest server whose log it understands, over a network
    that loses answers or is late with them and a storage that fails or loses acknowledgements,
    is never told it has diverged and ends with the rows the server holds; pulling gets it there; and a scope
    that did diverge, whatever it held, is healed by rebuilding it, its history of divergences
    kept. EngineClaims: the digest a device holds describes the rows it holds, through any run of
    understood changes, failures, lost acknowledgements and restarts; a quarantined row breaks
    that, and how is proved exactly; a batch is applied exactly or not at all; a commit whose acknowledgement
    was lost is recovered; divergence is counted once per failure and the count survives a
    restart; a rebuild touches one scope; and a queued command leaves the outbox only by being
    answered, whatever the device is sent. OutboxClaims: answers are applied once, a losing draft
    is kept and no other, pushes fill up to
    the limits the server enforces and always make progress. ProtocolClaims: round trips,
    bounded decoding, the digest's algebra, migration plans. DedupeClaims: one command has one
    recorded outcome, in any race. LogClaims: paging delivers everything exactly once, and a
    bootstrap ends where a replay of the log would. WatermarkClaims: nothing appears under a
    watermark. DaemonClaims: only a granted, unblocked scope is served, and a refusal tells
    nothing; StartupClaims: and so does every route of a server that has started. FleetClaims:
    what a client is told of a command is what the host decided of it, unless an upgrade made
    it send the command with two bodies; a client that keeps pushing is answered; no client that
    keeps its version, be it the others' or not, is refused its own command, and one that
    upgrades can be. In these the clients may be sent any batches.

    WorldClaims: from any seed, under any distribution of the faults whose latencies end within
    a step, no checker ever finds a violation and every device holds exactly what the log says
    at its cursor; after settling, a run fails exactly when a device has not caught up; and
    with latencies longer than a step a device can be rewound. ArrivalClaims: once the faults stop,
    every pair of steps brings a device nearer to what the server shows and shortens its outbox,
    so a run whose devices are not too far behind passes. SimClaims: a device fed by the
    simulated server skips nothing, a quiet server is drained, a bootstrap is a replay, a push
    is answered once. InvariantClaims: the checkers are exact. SweepClaims: a batch over
    workers is the batch in order. RngClaims and SchemaClaims: draws are fair and loops end.

    Some theorems record where the program does less than its documentation says:
    [empty_batch_rewinds], [quarantined_row_diverges], [upgraded_retry_refused],
    [unresolved_asks_again], [responses_keep_order], [trailing_seed_runs_a_batch]; and some
    concrete runs show it happen: [slow_network_rewinds], [shared_connection_skips],
    [upgrade_dead_letters], [append_without_transaction_skips], [race_asks_twice],
    [deleted_row_still_counted], [sim_mutation_overwrites].

    ** What is not modelled

    The text of the SQL migrations; axum's dispatch and extractors and the async runtime;
    serde's generated field decoding; float formatting and the [hit_rate] gauge; the bindings;
    the threads of a batch, which are joined in order; accessors that only lend a reference.
    [ArrivalClaims.quiet_devices_arrive] counts one entry for a pair of steps, where a pull may
    hand over four: how many fit depends on the sizes the JSON writer gives;
    [ArrivalClaims.quiet_outboxes_drain] counts one command, which is all that an overloaded
    server need take of a push.
    [Sync.sync_step] lets one request of a scope be outstanding: an answer that a later one
    overtook is outside it, and so is another scope whose changes the app does not understand. *)

From Stdlib Require Export ZArith Lia Bool Ascii String.
From stdpp Require Export base tactics option list gmap strings sorting pretty.
From stdpp Require Import options.

#[global] Open Scope Z_scope.

(** ** Results: Rust's [Result<T, E>] *)

Inductive result (A E : Type) : Type :=
| Ok (a : A)
| Err (e : E).
Arguments Ok {A E} a.
Arguments Err {A E} e.

Definition res_bind {A B E} (m : result A E) (k : A → result B E) : result B E :=
  match m with Ok a => k a | Err e => Err e end.

Definition map_err {A E F} (f : E → F) (m : result A E) : result A F :=
  match m with Ok a => Ok a | Err e => Err (f e) end.

Definition ok_or {A E} (o : option A) (e : E) : result A E :=
  match o with Some a => Ok a | None => Err e end.

Definition unwrap_or {A E} (m : result A E) (d : A) : A :=
  match m with Ok a => a | Err _ => d end.

Definition is_ok {A E} (m : result A E) : bool :=
  match m with Ok _ => true | Err _ => false end.

Declare Scope cred_scope.
Delimit Scope cred_scope with cred.

(** [let? x := m in k] is Rust's [let x = m?; k] when the error types agree. *)
Notation "'let?' x := m 'in' k" := (res_bind m (λ x, k))
  (at level 10, x pattern, m at level 100, k at level 200,
   format "'[v' 'let?'  x  :=  m  'in' '/' k ']'") : cred_scope.
(** [try? m then k] is [m?; k] for a unit result. *)
Notation "'try?' m 'then' k" := (res_bind m (λ _, k))
  (at level 10, m at level 100, k at level 200) : cred_scope.
#[global] Open Scope cred_scope.

(** [iter().map(f).collect::<Result<Vec<_>, _>>()]: the first error wins. *)
Fixpoint res_mapM {A B E} (f : A → result B E) (l : list A) : result (list B) E :=
  match l with
  | [] => Ok []
  | x :: r => let? y := f x in let? ys := res_mapM f r in Ok (y :: ys)
  end.

(** [iter().try_for_each(f)]. *)
Fixpoint try_for_each {A E} (f : A → result () E) (l : list A) : result () E :=
  match l with
  | [] => Ok ()
  | x :: r => try? f x then try_for_each f r
  end.

(** [Option<Result>::transpose] after [Option::map]. *)
Definition opt_transpose {A B E} (f : A → result B E) (o : option A) : result (option B) E :=
  match o with
  | None => Ok None
  | Some a => let? b := f a in Ok (Some b)
  end.

(** ** State with errors: a [&mut self] method returning [Result]. The state survives an
    error, exactly as a mutated receiver does. *)

Definition step (S A E : Type) : Type := S → S * result A E.

Definition st_ret {S A E} (a : A) : step S A E := λ s, (s, Ok a).
Definition st_fail {S A E} (e : E) : step S A E := λ s, (s, Err e).
Definition st_bind {S A B E} (m : step S A E) (k : A → step S B E) : step S B E :=
  λ s, let '(s', r) := m s in match r with Ok a => k a s' | Err e => (s', Err e) end.
Definition st_lift {S A E} (r : result A E) : step S A E := λ s, (s, r).
Definition st_get {S E} : step S S E := λ s, (s, Ok s).
Definition st_modify {S E} (f : S → S) : step S () E := λ s, (f s, Ok ()).

Notation "'let!' x := m 'in' k" := (st_bind m (λ x, k))
  (at level 10, x pattern, m at level 100, k at level 200,
   format "'[v' 'let!'  x  :=  m  'in' '/' k ']'") : cred_scope.
Notation "'do!' m 'then' k" := (st_bind m (λ _, k))
  (at level 10, m at level 100, k at level 200) : cred_scope.

(** ** Machine integers *)

Definition u16_max : Z := 65535.
Definition u32_max : Z := 4294967295.
Definition u64_max : Z := 18446744073709551615.
Definition i64_max : Z := 9223372036854775807.
Definition i64_min : Z := -9223372036854775808.

Definition u128_mod : Z := 2 ^ 128.
Definition u128_wrapping_add (a b : Z) : Z := (a + b) mod u128_mod.
Definition u128_wrapping_sub (a b : Z) : Z := (a - b) mod u128_mod.

Definition u32_saturating_add (a b : Z) : Z := Z.min u32_max (a + b).
Definition u16_saturating_sub (a b : Z) : Z := Z.max 0 (a - b).
Definition i64_saturate (x : Z) : Z := Z.max i64_min (Z.min i64_max x).

(** ** Bytes and strings: a Rust [String] is its UTF-8 bytes; a byte is a [Z] in [0, 256). *)

Abbreviation bytes := (list Z).

Definition byte_of_ascii (c : ascii) : Z := Z.of_N (N_of_ascii c).
Definition ascii_of_byte (b : Z) : ascii := ascii_of_N (Z.to_N b).

Fixpoint as_bytes (s : string) : bytes :=
  match s with
  | EmptyString => []
  | String c r => byte_of_ascii c :: as_bytes r
  end.

Fixpoint from_bytes (l : bytes) : string :=
  match l with
  | [] => EmptyString
  | b :: r => String (ascii_of_byte b) (from_bytes r)
  end.

Definition is_byte (b : Z) : Prop := 0 ≤ b < 256.

(** [n] big-endian bytes of [v]: [u64::to_be_bytes] is [be_bytes 8]. *)
Fixpoint be_bytes (n : nat) (v : Z) : bytes :=
  match n with
  | O => []
  | S n' => (v / 256 ^ Z.of_nat n') mod 256 :: be_bytes n' v
  end.

(** [from_be_bytes]. *)
Definition from_be (l : bytes) : Z := fold_left (λ acc b, acc * 256 + b) l 0.

(** Decimal display of an unsigned integer, as [write!(f, "{n}")]. *)
Definition show (n : Z) : string := pretty n.

(** ** Ordered traversal of a map: [BTreeMap] iterates in key order. *)

Definition string_le (a b : string) : Prop := String.leb a b = true.
#[export] Instance string_le_dec : RelDecision string_le := λ a b, decide (String.leb a b = true).

Definition key_le {A} (key : A → string) (a b : A) : Prop := string_le (key a) (key b).
#[export] Instance key_le_dec {A} (key : A → string) : RelDecision (key_le key) :=
  λ a b, decide (String.leb (key a) (key b) = true).

Definition sort_by_key {A} (key : A → string) (l : list A) : list A := merge_sort (key_le key) l.

(** ** Proof automation *)

Create HintDb cred discriminated.
#[export] Hint Extern 5 (_ ≤ _) => lia : cred.
#[export] Hint Extern 5 (_ < _) => lia : cred.

(** Break a hypothesis [res_bind m k = Ok y] / [... = Err e] into its runs. *)
Ltac res_simpl :=
  repeat match goal with
  | H : res_bind ?m _ = _ |- _ => unfold res_bind in H at 1; destruct m eqn:?; simplify_eq/=
  | H : map_err _ ?m = _ |- _ => unfold map_err in H at 1; destruct m eqn:?; simplify_eq/=
  | H : ok_or ?m _ = _ |- _ => unfold ok_or in H at 1; destruct m eqn:?; simplify_eq/=
  | H : Ok _ = Ok _ |- _ => injection H as H; subst
  | H : Err _ = Err _ |- _ => injection H as H; subst
  | H : Ok _ = Err _ |- _ => discriminate H
  | H : Err _ = Ok _ |- _ => discriminate H
  end.

(** Case on every boolean test in the hypotheses and goal that [lia] understands. *)
Ltac ztests :=
  repeat match goal with
  | H : context [?a <? ?b] |- _ => destruct (Z.ltb_spec a b)
  | H : context [?a <=? ?b] |- _ => destruct (Z.leb_spec a b)
  | H : context [?a =? ?b] |- _ => destruct (Z.eqb_spec a b)
  | |- context [?a <? ?b] => destruct (Z.ltb_spec a b)
  | |- context [?a <=? ?b] => destruct (Z.leb_spec a b)
  | |- context [?a =? ?b] => destruct (Z.eqb_spec a b)
  end.

(** A closed equation both sides of which compute to the same value. *)
Ltac compute_now := vm_compute; reflexivity.

(** Case on the first blocked [match] in the goal. *)
Ltac cases := repeat (case_match; simplify_eq/=; try done).

(** ** Generic lemmas *)

Lemma res_mapM_ok {A B E} (f : A → result B E) l ys :
  res_mapM f l = Ok ys ↔ Forall2 (λ x y, f x = Ok y) l ys.
Proof.
  revert ys; induction l as [|x r IH]; intros ys; simpl.
  - split; [intros [= <-]; constructor | by inversion 1].
  - split.
    + intros H. res_simpl. constructor; [done|]. by apply IH.
    + inversion 1 as [|?? y' ys' Hy Hr]; subst. rewrite Hy; simpl.
      apply IH in Hr. by rewrite Hr.
Qed.

Lemma try_for_each_ok {A E} (f : A → result () E) l :
  try_for_each f l = Ok () ↔ Forall (λ x, f x = Ok ()) l.
Proof.
  induction l as [|x r IH]; simpl; [by split|].
  rewrite Forall_cons, <- IH. unfold res_bind.
  destruct (f x) as [[]|e]; split; naive_solver.
Qed.

Lemma list_filter_fmap {A B} (P : B → Prop) `{!∀ x, Decision (P x)} (f : A → B) (l : list A) :
  filter P (f <$> l) = f <$> filter (P ∘ f) l.
Proof.
  induction l as [|x l IH]; [done|]. cbn [fmap list_fmap]. rewrite !filter_cons. unfold compose at 1.
  destruct (decide (P (f x))); cbn [fmap list_fmap]; by rewrite <- ?IH.
Qed.

Lemma filter_all {A} (P : A → Prop) `{!∀ x, Decision (P x)} (l : list A) :
  Forall P l → filter P l = l.
Proof. induction 1; [done|]. by rewrite filter_cons_True by done; f_equal. Qed.

Lemma byte_of_ascii_range c : is_byte (byte_of_ascii c).
Proof. unfold is_byte, byte_of_ascii. pose proof (N_ascii_bounded c). lia. Qed.

Lemma ascii_byte_ascii c : ascii_of_byte (byte_of_ascii c) = c.
Proof. unfold ascii_of_byte, byte_of_ascii. by rewrite N2Z.id, ascii_N_embedding. Qed.

Lemma byte_ascii_byte b : is_byte b → byte_of_ascii (ascii_of_byte b) = b.
Proof.
  unfold is_byte, ascii_of_byte, byte_of_ascii. intros ?.
  rewrite N_ascii_embedding; lia.
Qed.

Lemma as_bytes_range s : Forall is_byte (as_bytes s).
Proof. induction s; simpl; constructor; auto using byte_of_ascii_range. Qed.

Lemma from_as_bytes s : from_bytes (as_bytes s) = s.
Proof. induction s; simpl; [done|]. by rewrite ascii_byte_ascii, IHs. Qed.

Lemma as_from_bytes l : Forall is_byte l → as_bytes (from_bytes l) = l.
Proof. induction 1; simpl; [done|]. by rewrite byte_ascii_byte, IHForall. Qed.

#[export] Instance as_bytes_inj : Inj (=) (=) as_bytes.
Proof. intros a b Hab. by rewrite <- (from_as_bytes a), Hab, from_as_bytes. Qed.

Lemma length_as_bytes s : length (as_bytes s) = String.length s.
Proof. induction s; simpl; auto. Qed.

Lemma length_be_bytes n v : length (be_bytes n v) = n.
Proof. induction n; simpl; auto. Qed.

Lemma be_bytes_range n v : Forall is_byte (be_bytes n v).
Proof.
  induction n; simpl; constructor; [|done].
  apply Z.mod_pos_bound. lia.
Qed.

Lemma from_be_app l1 l2 : from_be (l1 ++ l2) = from_be l1 * 256 ^ Z.of_nat (length l2) + from_be l2.
Proof.
  unfold from_be. rewrite fold_left_app. generalize (fold_left (λ acc b, acc * 256 + b) l1 0).
  intros z. cut (∀ a, fold_left (λ acc b, acc * 256 + b) l2 a
    = a * 256 ^ Z.of_nat (length l2) + fold_left (λ acc b, acc * 256 + b) l2 0); [done|].
  induction l2 as [|b l IH]; intros a; cbn [fold_left length]; [lia|].
  rewrite (IH (a * 256 + b)), (IH (0 * 256 + b)), Nat2Z.inj_succ, Z.pow_succ_r by lia. ring.
Qed.

Lemma from_be_cons b l : from_be (b :: l) = b * 256 ^ Z.of_nat (length l) + from_be l.
Proof. apply (from_be_app [b] l). Qed.

Lemma from_be_be_bytes n v : from_be (be_bytes n v) = v mod 256 ^ Z.of_nat n.
Proof.
  induction n as [|n IH]; [simpl; by rewrite Z.mod_1_r|].
  cbn [be_bytes]. rewrite from_be_cons, length_be_bytes, IH, Nat2Z.inj_succ, Z.pow_succ_r by lia.
  rewrite (Z.mul_comm 256), Z.rem_mul_r by lia. lia.
Qed.

Lemma from_be_bound l : Forall is_byte l → 0 ≤ from_be l < 256 ^ Z.of_nat (length l).
Proof.
  induction 1 as [|b l Hb _ IH]; [done|].
  rewrite from_be_cons. cbn [length]. rewrite Nat2Z.inj_succ, Z.pow_succ_r by lia.
  unfold is_byte in Hb. nia.
Qed.

Lemma be_bytes_from_be l : Forall is_byte l → be_bytes (length l) (from_be l) = l.
Proof.
  induction 1 as [|b l Hb Hl IH]; [done|].
  cbn [length be_bytes]. pose proof (from_be_bound l Hl) as Hbd. rewrite from_be_cons.
  unfold is_byte in Hb. f_equal.
  - rewrite Z.div_add_l by lia. rewrite (Z.div_small (from_be l)) by lia.
    rewrite Z.add_0_r. by apply Z.mod_small.
  - etransitivity; [|exact IH]. clear IH Hl.
    assert (Hn : ∀ n, (n ≤ length l)%nat → be_bytes n (b * 256 ^ Z.of_nat (length l) + from_be l)
      = be_bytes n (from_be l)); [|by apply Hn].
    induction n as [|n IH]; intros Hle; cbn [be_bytes]; [done|].
    rewrite IH by lia. f_equal.
    replace (Z.of_nat (length l)) with (Z.of_nat (length l - S n) + 1 + Z.of_nat n) by lia.
    rewrite !Z.pow_add_r by lia.
    replace (b * (256 ^ Z.of_nat (length l - S n) * 256 ^ 1 * 256 ^ Z.of_nat n))
      with ((b * 256 ^ Z.of_nat (length l - S n) * 256) * 256 ^ Z.of_nat n) by lia.
    rewrite Z.div_add_l by lia.
    rewrite Z.add_comm, Z.mod_add; lia.
Qed.

Lemma be_bytes_inj n v w :
  0 ≤ v < 256 ^ Z.of_nat n → 0 ≤ w < 256 ^ Z.of_nat n → be_bytes n v = be_bytes n w → v = w.
Proof.
  intros Hv Hw E. apply (f_equal from_be) in E. rewrite !from_be_be_bytes in E.
  by rewrite !Z.mod_small in E by lia.
Qed.

#[export] Hint Resolve byte_of_ascii_range as_bytes_range be_bytes_range : cred.
Create Rewrite HintDb cred_rw.
#[export] Hint Rewrite length_be_bytes length_as_bytes from_be_be_bytes : cred_rw.
