(* ===== verification/Errors.v ===== *)
(** * Errors: [ProtocolError] and its messages (credsync-protocol/src/error.rs), with the
    field limits of credsync-protocol/src/limits.rs.

    The messages are modelled because they reach the outside: a quarantined row and a held
    command carry the text of the error that put them there. *)

From S2P Require Import Prelude.
From stdpp Require Import options.

(** ** limits.rs *)

Definition PROTOCOL_VERSION_MIN : Z := 1.
Definition SCHEMA_VERSION_MIN : Z := 1.
Definition SCOPE_MAX_BYTES : nat := 128.
Definition ENTITY_MAX_BYTES : nat := 64.
Definition ENTITY_ID_MAX_BYTES : nat := 64.
Definition COMMAND_NAME_MAX_BYTES : nat := 64.
Definition REASON_MAX_BYTES : nat := 256.
Definition HEX_CHARS : nat := 32.
Definition SNAPSHOT_MAX_BYTES : N := 256 * 1024.
Definition PAYLOAD_MAX_BYTES : N := 64 * 1024.
Definition LIMIT_BYTES_MIN : Z := 1.
Definition LIMIT_BYTES_MAX : Z := 1024 * 1024.
Definition DEFAULT_BATCH_BUDGET_BYTES : Z := 100000.
Definition COMMANDS_MAX_COUNT : nat := 256.
Definition COMMANDS_MAX_TOTAL_BYTES : N := 1024 * 1024.
Definition SCOPES_MAX_COUNT : nat := 64.
Definition SEQ_MAX : Z := i64_max.
Definition SEQ_MIN : Z := 1.
Definition CURSOR_START : Z := 0.

(** ** error.rs *)

Inductive ProtocolError : Type :=
| TooLong (field : string) (limit actual : Z)
| BadCharset (field expected : string)
| Empty (field : string)
| TooShort (field : string) (expected actual : Z)
| OutOfRange (field : string) (min max actual : Z)
| MalformedUuid
| NotUuidV7 (found : Z)
| TooManyItems (field : string) (limit actual : Z)
| NotAnObject (field : string)
| FloatNotAllowed (field : string)
| Inconsistent (detail : string)
| Malformed (detail : string).

#[export] Instance ProtocolError_eq_dec : EqDecision ProtocolError.
Proof. solve_decision. Defined.

(** [impl Display for ProtocolError]. *)
Definition ProtocolError_display (e : ProtocolError) : string :=
  match e with
  | TooLong field limit actual =>
      field +:+ ": " +:+ show actual +:+ " bytes exceeds the " +:+ show limit +:+ "-byte limit"
  | BadCharset field expected => field +:+ ": expected " +:+ expected
  | Empty field => field +:+ ": must not be empty"
  | TooShort field expected actual =>
      field +:+ ": " +:+ show actual +:+ " characters, expected exactly " +:+ show expected
  | OutOfRange field min max actual =>
      field +:+ ": " +:+ show actual +:+ " is outside " +:+ show min +:+ "..=" +:+ show max
  | MalformedUuid => "command id: not a hyphenated lowercase UUID"
  | NotUuidV7 found =>
      "command id: expected UUID version 7, found version " +:+ show found
  | TooManyItems field limit actual =>
      field +:+ ": " +:+ show actual +:+ " items exceeds the limit of " +:+ show limit
  | NotAnObject field => field +:+ ": must be a JSON object"
  | FloatNotAllowed field =>
      field +:+ ": floating-point numbers break canonical encoding and therefore scope digests; use a scaled integer or a decimal string"
  | Inconsistent detail => "inconsistent: " +:+ detail
  | Malformed detail => "malformed: " +:+ detail
  end.

(** [impl From<serde_json::Error> for ProtocolError]: the library's error is its text. *)
Definition from_serde_json (e : string) : ProtocolError := Malformed e.
