(* ===== verification/Nums.v ===== *)
(** * Nums: the validated numeric newtypes (credsync-protocol/src/nums.rs).

    The [bounded_num!] macro is [bounded_num_new]; each instantiation is a Module with the
    newtype, its constructor and its accessor. A value is a [Z]; [wf] is the range the
    constructor enforces. *)

From S2P Require Import Prelude Errors.
From stdpp Require Import options.

(** The body of [bounded_num!]'s [new]. *)
Definition bounded_num_new {A} (wrap : Z → A) (field : string) (min max : Z) (v : Z)
    : result A ProtocolError :=
  if (v <? min) || (max <? v) then Err (OutOfRange field min max v) else Ok (wrap v).

Module ProtocolVersion.
Record t := mk { get : Z }.
Definition new (v : Z) : result t ProtocolError :=
  bounded_num_new mk "protocol" PROTOCOL_VERSION_MIN u16_max v.
Definition wf (x : t) : Prop := PROTOCOL_VERSION_MIN ≤ get x ≤ u16_max.
#[global] Instance eq_dec : EqDecision t.
Proof. solve_decision. Defined.
End ProtocolVersion.

Module SchemaVersion.
Record t := mk { get : Z }.
Definition new (v : Z) : result t ProtocolError :=
  bounded_num_new mk "schema_version" SCHEMA_VERSION_MIN u16_max v.
Definition wf (x : t) : Prop := SCHEMA_VERSION_MIN ≤ get x ≤ u16_max.
#[global] Instance eq_dec : EqDecision t.
Proof. solve_decision. Defined.
End SchemaVersion.

Module Seq.
Record t := mk { get : Z }.
Definition new (v : Z) : result t ProtocolError :=
  bounded_num_new mk "seq" SEQ_MIN SEQ_MAX v.
Definition wf (x : t) : Prop := SEQ_MIN ≤ get x ≤ SEQ_MAX.
#[global] Instance eq_dec : EqDecision t.
Proof. solve_decision. Defined.
End Seq.

Module RowVersion.
Record t := mk { get : Z }.
Definition new (v : Z) : result t ProtocolError :=
  bounded_num_new mk "row_version" SEQ_MIN SEQ_MAX v.
Definition wf (x : t) : Prop := SEQ_MIN ≤ get x ≤ SEQ_MAX.
#[global] Instance eq_dec : EqDecision t.
Proof. solve_decision. Defined.
End RowVersion.

Module LimitBytes.
Record t := mk { get : Z }.
Definition new (v : Z) : result t ProtocolError :=
  bounded_num_new mk "limit_bytes" LIMIT_BYTES_MIN LIMIT_BYTES_MAX v.
Definition wf (x : t) : Prop := LIMIT_BYTES_MIN ≤ get x ≤ LIMIT_BYTES_MAX.
#[global] Instance eq_dec : EqDecision t.
Proof. solve_decision. Defined.
End LimitBytes.

(** [Cursor] is written by hand in the source: zero is legal, so only the upper bound is
    tested (the argument is a [u64]). *)
Module Cursor.
Record t := mk { get : Z }.
Definition START : t := mk CURSOR_START.
Definition new (v : Z) : result t ProtocolError :=
  if SEQ_MAX <? v then Err (OutOfRange "cursor" CURSOR_START SEQ_MAX v) else Ok (mk v).
Definition wf (x : t) : Prop := CURSOR_START ≤ get x ≤ SEQ_MAX.
#[global] Instance eq_dec : EqDecision t.
Proof. solve_decision. Defined.
End Cursor.

(** ** Facts *)

(** The macro accepts exactly the declared range, and its error quotes the range and the
    offender. *)
Lemma bounded_num_new_spec {A} (wrap : Z → A) field min max v :
  bounded_num_new wrap field min max v =
    if decide (min ≤ v ≤ max) then Ok (wrap v) else Err (OutOfRange field min max v).
Proof.
  unfold bounded_num_new.
  case_decide; destruct (Z.ltb_spec v min), (Z.ltb_spec max v); simpl; done || lia.
Qed.

Lemma Seq_new_ok v s : Seq.new v = Ok s ↔ s = Seq.mk v ∧ Seq.wf s.
Proof.
  unfold Seq.new, Seq.wf. rewrite bounded_num_new_spec. case_decide; split; [|naive_solver..].
  intros [= <-]. by split.
Qed.

Lemma RowVersion_new_ok v s : RowVersion.new v = Ok s ↔ s = RowVersion.mk v ∧ RowVersion.wf s.
Proof.
  unfold RowVersion.new, RowVersion.wf. rewrite bounded_num_new_spec.
  case_decide; split; [|naive_solver..]. intros [= <-]. by split.
Qed.

Lemma Cursor_new_seq s : Seq.wf s → Cursor.new (Seq.get s) = Ok (Cursor.mk (Seq.get s)).
Proof. unfold Seq.wf, Cursor.new. intros ?. destruct (Z.ltb_spec SEQ_MAX (Seq.get s)); [lia|done]. Qed.

#[export] Hint Resolve Cursor_new_seq : cred.
