(* ===== verification/Rng.v ===== *)
(** * Rng: the simulator's generator (credsync-sim/src/rng.rs), PCG-XSH-RR 64/32.

    The state is a 64-bit word. [below] rejects and draws again until a draw is acceptable;
    [until] is that loop with a bound on its turns, and [below_draws] shows that 2^64 turns,
    the period of the generator, are never exhausted. *)

From S2P Require Import Prelude.
From stdpp Require Import options.

Definition u64_mod : Z := 2 ^ 64.
Definition u32_mod : Z := 2 ^ 32.
Definition as_u32 (x : Z) : Z := x mod u32_mod.
Definition as_i64 (x : Z) : Z := if x <? 2 ^ 63 then x else x - u64_mod.
Definition rotate_right_u32 (x r : Z) : Z :=
  as_u32 (Z.lor (Z.shiftr x (r mod 32)) (Z.shiftl x ((32 - r mod 32) mod 32))).

Definition MULTIPLIER : Z := 6364136223846793005.
Definition INCREMENT : Z := 1442695040888963407.

(** [loop { if let Some(b) = f(..) { return b; } }], at most [p] turns. *)
Fixpoint until {A B} (p : positive) (f : A → A * option B) (a : A) : A * option B :=
  match p with
  | xH => f a
  | xO p => match until p f a with (a, None) => until p f a | (a, Some b) => (a, Some b) end
  | xI p =>
      match f a with
      | (a, None) => match until p f a with (a, None) => until p f a | (a, Some b) => (a, Some b) end
      | (a, Some b) => (a, Some b)
      end
  end.

Module Rng.
Record t := mk { state : Z; seed : Z }.

Definition advance (s : Z) : Z := (s * MULTIPLIER + INCREMENT) mod u64_mod.
Definition new (seed : Z) : t := mk (advance ((seed + INCREMENT) mod u64_mod)) seed.

(** XSH-RR: the output of a state. *)
Definition permute (old : Z) : Z :=
  rotate_right_u32 (as_u32 (Z.shiftr (Z.lxor (Z.shiftr old 18) old) 27)) (Z.shiftr old 59).

Definition next_u32 (rng : t) : t * Z := (mk (advance (state rng)) (seed rng), permute (state rng)).
Definition next_u64 (rng : t) : t * Z :=
  let '(rng, hi) := next_u32 rng in
  let '(rng, lo) := next_u32 rng in
  (rng, Z.lor (Z.shiftl hi 32) lo).

(** [n.wrapping_neg() % n]. *)
Definition threshold (n : Z) : Z := ((- n) mod u32_mod) mod n.
Definition below_turn (n : Z) (rng : t) : t * option Z :=
  let '(rng, v) := next_u32 rng in
  (rng, if threshold n <=? v then Some (v mod n) else None).
Definition below (rng : t) (n : Z) : t * Z :=
  if n =? 0 then (rng, 0) else
  let '(rng, v) := until (2 ^ 64) (below_turn n) rng in (rng, default 0 v).

Definition range (rng : t) (low high : Z) : t * Z :=
  if high <=? low then (rng, low) else
  let '(rng, v) := below rng (high - low + 1) in (rng, low + v).
Definition chance (rng : t) (percent : Z) : t * bool :=
  if percent =? 0 then (rng, false) else
  if 100 <=? percent then (rng, true) else
  let '(rng, v) := below rng 100 in (rng, v <? percent).
Definition signed (rng : t) (magnitude : Z) : t * Z :=
  if magnitude <=? 0 then (rng, 0) else
  let span := (magnitude * 2 + 1) mod u64_mod in
  let '(rng, v) := next_u64 rng in
  (rng, as_i64 (v mod span) - magnitude).
Definition index (rng : t) (len : Z) : t * option Z :=
  if len =? 0 then (rng, None) else
  let '(rng, v) := below rng (as_u32 len) in (rng, Some v).
End Rng.

(** ** The bounded loop *)

Section until.
Context {A B : Type} (f : A → A * option B).
Let g (a : A) : A := (f a).1.

(** The loop as the turns it takes: all before the last give nothing. *)
Definition gives_up (n : nat) (a : A) : Prop := ∀ j, (j < n)%nat → (f (Nat.iter j g a)).2 = None.

Lemma gives_up_add m n a : gives_up m a → gives_up n (Nat.iter m g a) → gives_up (m + n) a.
Proof.
  intros Hm Hn j Hj. destruct (Nat.lt_ge_cases j m); [by apply Hm|].
  specialize (Hn (j - m)%nat ltac:(lia)). rewrite <- Nat.iter_add in Hn.
  by replace (j - m + m)%nat with j in Hn by lia.
Qed.

(** What a loop of at most [m] turns did. *)
Definition ran (m : nat) (a : A) (r : A * option B) : Prop :=
  match r with
  | (a', None) => a' = Nat.iter m g a ∧ gives_up m a
  | (a', Some b) => ∃ k, (k < m)%nat ∧ f (Nat.iter k g a) = (a', Some b) ∧ gives_up k a
  end.

Lemma ran_turn a : ran 1 a (f a).
Proof.
  destruct (f a) as [a' [b|]] eqn:E; simpl.
  - exists 0%nat. split_and!; [lia|done|]. intros j ?. lia.
  - split; [unfold g; by rewrite E|]. intros j ?. replace j with 0%nat by lia. simpl. by rewrite E.
Qed.

Lemma ran_then m n a r (q : A → A * option B) :
  ran m a r → (∀ x, ran n x (q x)) →
  ran (m + n) a (match r with (a', None) => q a' | (a', Some b) => (a', Some b) end).
Proof.
  intros Hr Hq. destruct r as [a' [b|]]; simpl in Hr.
  - destruct Hr as (k & Hk & Hf & Hg). exists k. split_and!; [lia|done..].
  - destruct Hr as [-> Hg]. specialize (Hq (Nat.iter m g a)).
    destruct (q _) as [a'' [b|]]; simpl in *.
    + destruct Hq as (k & Hk & Hf & Hg'). exists (k + m)%nat. rewrite Nat.iter_add.
      split_and!; [lia|done|]. rewrite Nat.add_comm. by apply gives_up_add.
    + destruct Hq as [-> Hg']. rewrite <- Nat.iter_add. split; [by rewrite Nat.add_comm|].
      by apply gives_up_add.
Qed.

Lemma until_ran p a : ran (Pos.to_nat p) a (until p f a).
Proof.
  revert a. induction p as [p IH|p IH|]; intros a; cbn [until].
  - replace (Pos.to_nat p~1) with (1 + (Pos.to_nat p + Pos.to_nat p))%nat by lia.
    apply (ran_then 1 _ a (f a) (λ a, match until p f a with (a, None) => until p f a | (a, Some b) => (a, Some b) end));
      [apply ran_turn|]. intros x. by apply ran_then.
  - replace (Pos.to_nat p~0) with (Pos.to_nat p + Pos.to_nat p)%nat by lia. by apply ran_then.
  - apply ran_turn.
Qed.

(** A loop with a turn that ends it within the bound is ended by its first such turn. *)
Lemma until_ends p a k b a' :
  (k < Pos.to_nat p)%nat → f (Nat.iter k g a) = (a', Some b) →
  ∃ j b' a'', (j ≤ k)%nat ∧ until p f a = (a'', Some b') ∧ f (Nat.iter j g a) = (a'', Some b') ∧ gives_up j a.
Proof.
  intros Hk Hf. pose proof (until_ran p a) as Hr. destruct (until p f a) as [a'' [b'|]]; simpl in Hr.
  - destruct Hr as (j & Hj & Hfj & Hg). exists j, b', a''. split_and!; try done.
    destruct (Nat.le_gt_cases j k) as [|Hlt]; [done|]. specialize (Hg k Hlt). by rewrite Hf in Hg.
  - destruct Hr as [_ Hg]. specialize (Hg k Hk). by rewrite Hf in Hg.
Qed.
End until.

(** ** The period *)

(** [x ↦ a x + c] over the integers. *)
Definition affine (a c x : Z) : Z := a * x + c.

Lemma affine_pow a c u v k :
  a = 1 + 4 * u → c = 1 + 2 * v →
  ∃ u' v', ∀ x, Nat.iter (Z.to_nat (2 ^ Z.of_nat k)) (affine a c) x =
    (1 + 4 * 2 ^ Z.of_nat k * u') * x + 2 ^ Z.of_nat k * (1 + 2 * v').
Proof.
  intros -> ->. induction k as [|k (u' & v' & IH)].
  - exists u, v. intros x. change (Z.to_nat (2 ^ Z.of_nat 0)) with 1%nat. cbn [Nat.iter nat_rect].
    unfold affine. change (2 ^ Z.of_nat 0) with 1. lia.
  - rewrite Nat2Z.inj_succ, Z.pow_succ_r by lia. set (p := 2 ^ Z.of_nat k) in *.
    assert (0 ≤ p) by (unfold p; lia).
    exists (u' + 2 * p * u' * u'), (v' + p * u' + 2 * p * u' * v'). intros x.
    rewrite Z2Nat.inj_mul, Nat.mul_comm by lia. change (Z.to_nat 2) with 2%nat.
    replace (Z.to_nat p * 2)%nat with (Z.to_nat p + Z.to_nat p)%nat by lia.
    rewrite Nat.iter_add, !IH. ring.
Qed.

(** Every residue is reached from every start, within the modulus. *)
Lemma affine_reaches a c u v k x y :
  a = 1 + 4 * u → c = 1 + 2 * v →
  ∃ n, Z.of_nat n < 2 ^ Z.of_nat k ∧ ∃ q, Nat.iter n (affine a c) x = y + 2 ^ Z.of_nat k * q.
Proof.
  intros Ha Hc. induction k as [|k (n & Hn & q & Hq)].
  - exists 0%nat. split; [done|]. exists (x - y). cbn [Nat.iter nat_rect]. change (2 ^ Z.of_nat 0) with 1. lia.
  - destruct (affine_pow a c u v k Ha Hc) as (u' & v' & Hp).
    rewrite Nat2Z.inj_succ, Z.pow_succ_r by lia. set (p := 2 ^ Z.of_nat k) in *.
    destruct (Z.Even_or_Odd q) as [[r ->]|[r ->]].
    + exists n. split; [lia|]. exists r. rewrite Hq. ring.
    + exists (Z.to_nat p + n)%nat. split; [lia|]. rewrite Nat.iter_add, Hp, Hq.
      exists (r + 1 + 2 * u' * (y + p * (2 * r + 1)) + v'). ring.
Qed.

Lemma advance_affine n s :
  0 ≤ s < u64_mod →
  Nat.iter n Rng.advance s = Nat.iter n (affine MULTIPLIER INCREMENT) s mod u64_mod.
Proof.
  intros Hs. induction n as [|n IH]; [by rewrite Z.mod_small|].
  rewrite !Nat.iter_succ.
  rewrite IH. unfold Rng.advance, affine.
  rewrite <- Z.add_mod_idemp_l, Z.mul_mod_idemp_l, Z.add_mod_idemp_l by done. f_equal. ring.
Qed.

(** From any state the generator passes through every state within its period. *)
Lemma period s t :
  0 ≤ s < u64_mod → 0 ≤ t < u64_mod →
  ∃ n, Z.of_nat n < u64_mod ∧ Nat.iter n Rng.advance s = t.
Proof.
  intros Hs Ht.
  destruct (affine_reaches MULTIPLIER INCREMENT 1591034055961698251 721347520444481703 64 s t) as (n & Hn & q & Hq);
    [done|done|].
  exists n. split; [done|]. rewrite advance_affine by done. rewrite Hq.
  change (2 ^ Z.of_nat 64) with u64_mod. rewrite Z.mul_comm, Z.mod_add by done. by apply Z.mod_small.
Qed.

(** ** Bounds *)

Module RngFacts.
Import Rng.

Definition wf (rng : t) : Prop := 0 ≤ state rng < u64_mod.

Lemma advance_range s : 0 ≤ advance s < u64_mod.
Proof. by apply Z.mod_pos_bound. Qed.
Lemma new_wf seed : wf (new seed).
Proof. apply advance_range. Qed.
Lemma next_u32_wf rng : wf (next_u32 rng).1.
Proof. apply advance_range. Qed.
Lemma permute_range s : 0 ≤ permute s < u32_mod.
Proof. by apply Z.mod_pos_bound. Qed.

Definition turn_next (n : Z) (rng : t) : t := (below_turn n rng).1.

Lemma turn_next_state n k rng :
  state (Nat.iter k (turn_next n) rng) = Nat.iter k advance (state rng).
Proof. induction k as [|k IH]; [done|]. rewrite !Nat.iter_succ, <- IH. done. Qed.

Lemma threshold_range n : 0 < n < u32_mod → 0 ≤ threshold n < n.
Proof. intros Hn. apply Z.mod_pos_bound. lia. Qed.

Lemma threshold_eq n : 0 < n < u32_mod → threshold n = u32_mod mod n.
Proof.
  intros Hn. unfold threshold. rewrite Z.mod_opp_l_nz by (rewrite ?Z.mod_small; lia).
  rewrite (Z.mod_small n u32_mod) by lia. rewrite Zminus_mod, Z.mod_same, Z.sub_0_r by lia. apply Z.mod_mod. lia.
Qed.

(** A state whose output is the greatest word. *)
Definition all_ones : Z := 576458553280167936.

(** The draws a call to [below] makes: rejected ones, then the one it answers with. *)
Lemma below_draws rng n :
  wf rng → 0 < n < u32_mod →
  ∃ k, Z.of_nat k < u64_mod ∧
    let draw j := permute (Nat.iter j advance (state rng)) in
    (∀ j, (j < k)%nat → draw j < threshold n) ∧ threshold n ≤ draw k ∧
    below rng n = (mk (Nat.iter (S k) advance (state rng)) (seed rng), draw k mod n).
Proof.
  intros Hw Hn. pose proof (threshold_range n Hn) as Ht.
  destruct (period (state rng) all_ones Hw ltac:(done)) as (k & Hk & Hall).
  assert (Hturn : ∀ j, below_turn n (Nat.iter j (turn_next n) rng) =
    (turn_next n (Nat.iter j (turn_next n) rng),
     if threshold n <=? permute (Nat.iter j advance (state rng)) then
       Some (permute (Nat.iter j advance (state rng)) mod n) else None)).
  { intros j. unfold turn_next at 2, below_turn. cbn [next_u32 fst]. by rewrite turn_next_state. }
  assert (Hend : below_turn n (Nat.iter k (turn_next n) rng) =
    (turn_next n (Nat.iter k (turn_next n) rng), Some (permute all_ones mod n))).
  { rewrite Hturn, Hall. assert ((threshold n <=? permute all_ones) = true) as ->; [|done].
    apply Z.leb_le. change (permute all_ones) with (u32_mod - 1). lia. }
  destruct (until_ends (below_turn n) (2 ^ 64) rng k _ _ ltac:(unfold u64_mod in *; lia) Hend)
    as (j & b & rng' & Hj & Hu & Hf & Hg).
  rewrite Hturn in Hf. exists j. split; [lia|]. cbv zeta. split; [|].
  - intros i Hi. specialize (Hg i Hi).     change (λ a, (below_turn n a).1) with (turn_next n) in Hg. rewrite Hturn in Hg. simpl in Hg.
    destruct (Z.leb_spec (threshold n) (permute (Nat.iter i advance (state rng)))); [done|lia].
  - destruct (Z.leb_spec (threshold n) (permute (Nat.iter j advance (state rng)))); simplify_eq.
    split; [lia|]. unfold below. destruct (Z.eqb_spec n 0); [lia|]. rewrite Hu.
    cbn [default from_option id]. f_equal. unfold turn_next at 1. simpl.
    rewrite turn_next_state. f_equal.
    clear. induction j as [|j IH]; [done|]. rewrite Nat.iter_succ. exact IH.
Qed.

Lemma below_wf rng n : wf rng → 0 ≤ n < u32_mod → wf (below rng n).1.
Proof.
  intros Hw Hn. destruct (decide (n = 0)) as [->|]; [done|].
  destruct (below_draws rng n Hw ltac:(lia)) as (k & _ & _ & _ & ->). cbn [fst]. unfold wf. cbn [state].
  rewrite Nat.iter_succ. apply advance_range.
Qed.

Lemma below_range rng n : wf rng → 0 < n < u32_mod → 0 ≤ (below rng n).2 < n.
Proof.
  intros Hw Hn. destruct (below_draws rng n Hw Hn) as (k & _ & _ & _ & ->). apply Z.mod_pos_bound. lia.
Qed.

(** The accepted words with a given remainder: as many for every remainder, [2^32 / n]. *)
Lemma accepted_even n r :
  0 < n < u32_mod → 0 ≤ r < n →
  ∃ first, ∀ v, (threshold n ≤ v < u32_mod ∧ v mod n = r) ↔
    ∃ k, 0 ≤ k < u32_mod / n ∧ v = first + n * k.
Proof.
  intros Hn Hr. rewrite threshold_eq by done. set (m := u32_mod) in *.
  pose proof (Z.div_mod m n ltac:(lia)) as Hm. pose proof (Z.mod_pos_bound m n ltac:(lia)) as Ht.
  set (q := m / n) in *. set (t := m mod n) in *.
  exists (t + (r - t) mod n). intros v.
  pose proof (Z.mod_pos_bound (r - t) n ltac:(lia)) as Hx. pose proof (Z.div_mod (r - t) n ltac:(lia)) as Hrt.
  set (x := (r - t) mod n) in *. split.
  - intros [Hv <-]. exists ((v - t) / n).
    assert ((v - t) mod n = x) as E by (unfold x; by rewrite Zminus_mod_idemp_l).
    pose proof (Z.div_mod (v - t) n ltac:(lia)) as Hd. rewrite E in Hd.
    split; [split; [apply Z.div_pos; lia|]|lia]. apply Z.div_lt_upper_bound; nia.
  - intros (k & Hk & ->). split; [nia|].
    replace (t + x + n * k) with (r + (k - (r - t) / n) * n) by nia.
    rewrite Z.mod_add by lia. apply Z.mod_small. lia.
Qed.

Lemma range_range rng low high :
  wf rng → 0 ≤ low ≤ high → high - low < u32_mod - 1 →
  low ≤ (range rng low high).2 ≤ high ∧ wf (range rng low high).1.
Proof.
  intros Hw Hlh Hd. unfold range. destruct (Z.leb_spec high low); [simpl; split; [lia|done]|].
  pose proof (below_range rng (high - low + 1) Hw ltac:(lia)) as Hb.
  pose proof (below_wf rng (high - low + 1) Hw ltac:(lia)) as Hb'.
  destruct (below _ _) as [rng' v]. simpl in *. split; [lia|done].
Qed.

Lemma chance_wf rng percent : wf rng → wf (chance rng percent).1.
Proof.
  intros Hw. unfold chance. destruct (percent =? 0); [done|]. destruct (100 <=? percent); [done|].
  pose proof (below_wf rng 100 Hw ltac:(done)). by destruct (below _ _).
Qed.

Lemma chance_never rng : chance rng 0 = (rng, false).
Proof. done. Qed.
Lemma chance_always rng percent : 100 ≤ percent → chance rng percent = (rng, true).
Proof. intros Hp. unfold chance. destruct (Z.eqb_spec percent 0); [lia|]. by destruct (Z.leb_spec 100 percent); [|lia]. Qed.

Lemma next_u64_wf rng : wf (next_u64 rng).1.
Proof. apply advance_range. Qed.

Lemma signed_range rng magnitude :
  magnitude < 2 ^ 62 → (- Z.max 0 magnitude) ≤ (signed rng magnitude).2 ≤ Z.max 0 magnitude.
Proof.
  intros Hm. unfold signed. destruct (Z.leb_spec magnitude 0); [simpl; lia|].
  destruct (next_u64 rng) as [rng' v]. cbn [snd]. unfold u64_mod, as_i64 in *.
  rewrite (Z.mod_small (magnitude * 2 + 1)) by lia.
  pose proof (Z.mod_pos_bound v (magnitude * 2 + 1) ltac:(lia)) as Hv.
  destruct (Z.ltb_spec (v mod (magnitude * 2 + 1)) (2 ^ 63)); lia.
Qed.

Lemma signed_wf rng magnitude : wf rng → wf (signed rng magnitude).1.
Proof.
  intros Hw. unfold signed. destruct (magnitude <=? 0); [done|].
  pose proof (next_u64_wf rng). by destruct (next_u64 rng).
Qed.

Lemma index_range rng len :
  wf rng → 0 < len < u32_mod → ∃ i, (index rng len).2 = Some i ∧ 0 ≤ i < len.
Proof.
  intros Hw Hl. unfold index, as_u32. destruct (Z.eqb_spec len 0); [lia|]. rewrite Z.mod_small by lia.
  pose proof (below_range rng len Hw Hl). destruct (below _ _) as [rng' v]. by exists v.
Qed.
End RngFacts.
