(* ===== verification/FaultMenu.v ===== *)
(** * FaultMenu: what the simulated world may do to a device (credsync-sim/src/fault.rs). *)

From S2P Require Import Prelude Rng.
From stdpp Require Import options.

Definition SKEW_MAGNITUDE_MS : Z := 3 * 24 * 60 * 60 * 1000.
Definition FLAP_DURATION_MS : Z := 90000.

Module FaultRates.
Record t := mk {
  drop_every_nth : Z;
  duplicate_response : Z;
  reorder_response : Z;
  sever_mid_batch : Z;
  malformed_bytes : Z;
  connectivity_flap : Z;
  storage_fail_before_commit : Z;
  storage_commit_then_kill : Z;
  server_restart : Z;
  device_restart : Z;
  storage_lie_about_commit : Z;
  overload : Z;
  slow_commit : Z;
  protocol_violation : Z;
  latency_ms : Z * Z;
}.

(** The standing distribution. *)
Definition default : t := {|
  drop_every_nth := 7; duplicate_response := 12; reorder_response := 12; sever_mid_batch := 6;
  malformed_bytes := 5; connectivity_flap := 4; storage_fail_before_commit := 6;
  storage_commit_then_kill := 4; server_restart := 2; device_restart := 3; protocol_violation := 5;
  slow_commit := 8; overload := 6; storage_lie_about_commit := 5; latency_ms := (20, 2000);
|}.

(** A world with no faults. *)
Definition none : t := {|
  drop_every_nth := 0; duplicate_response := 0; reorder_response := 0; sever_mid_batch := 0;
  malformed_bytes := 0; connectivity_flap := 0; storage_fail_before_commit := 0;
  storage_commit_then_kill := 0; server_restart := 0; device_restart := 0; protocol_violation := 0;
  slow_commit := 0; overload := 0; storage_lie_about_commit := 0; latency_ms := (10, 10);
|}.
End FaultRates.

Module Fault.
Inductive t : Type :=
| Dropped | Duplicated | Reordered | Severed | Malformed | Flap | StorageFailed
| StorageCommittedThenKilled | ServerRestarted | DeviceRestarted | ProtocolViolation | SlowCommit
| Overloaded | StorageLiedAboutCommit.
#[global] Instance eq_dec : EqDecision t.
Proof. solve_decision. Defined.

Definition name (f : t) : string :=
  match f with
  | Dropped => "dropped"
  | Duplicated => "duplicated"
  | Reordered => "reordered"
  | Severed => "severed"
  | Malformed => "malformed"
  | Flap => "flap"
  | StorageFailed => "storage-failed"
  | StorageCommittedThenKilled => "storage-committed-then-killed"
  | ServerRestarted => "server-restarted"
  | DeviceRestarted => "device-restarted"
  | Overloaded => "overloaded"
  | StorageLiedAboutCommit => "storage-lied-about-commit"
  | ProtocolViolation => "protocol-violation"
  | SlowCommit => "slow-commit"
  end.

Definition ALL : list t :=
  [Dropped; Duplicated; Reordered; Severed; Malformed; Flap; StorageFailed;
   StorageCommittedThenKilled; ServerRestarted; DeviceRestarted; ProtocolViolation; SlowCommit;
   Overloaded; StorageLiedAboutCommit].
End Fault.

Definition decide_response (rng : Rng.t) (rates : FaultRates.t) (request_index : Z)
    : Rng.t * option Fault.t :=
  let '(rng, duplicate) := Rng.chance rng (FaultRates.duplicate_response rates) in
  let '(rng, reorder) := Rng.chance rng (FaultRates.reorder_response rates) in
  let '(rng, sever) := Rng.chance rng (FaultRates.sever_mid_batch rates) in
  let '(rng, malformed) := Rng.chance rng (FaultRates.malformed_bytes rates) in
  let nth := FaultRates.drop_every_nth rates in
  let dropped := (0 <? nth) && (request_index mod nth =? 0) in
  (rng,
   if dropped then Some Fault.Dropped
   else if malformed then Some Fault.Malformed
   else if sever then Some Fault.Severed
   else if duplicate then Some Fault.Duplicated
   else if reorder then Some Fault.Reordered
   else None).

Definition decide_storage (rng : Rng.t) (rates : FaultRates.t) : Rng.t * option Fault.t :=
  let '(rng, fail) := Rng.chance rng (FaultRates.storage_fail_before_commit rates) in
  let '(rng, kill) := Rng.chance rng (FaultRates.storage_commit_then_kill rates) in
  let '(rng, lie) := Rng.chance rng (FaultRates.storage_lie_about_commit rates) in
  (rng,
   if fail then Some Fault.StorageFailed
   else if kill then Some Fault.StorageCommittedThenKilled
   else if lie then Some Fault.StorageLiedAboutCommit
   else None).

(** ** Facts *)

Lemma ALL_complete : NoDup Fault.ALL ∧ ∀ f, f ∈ Fault.ALL.
Proof. split; [apply (bool_decide_unpack _); by vm_compute|]. intros []; apply (bool_decide_unpack _); by vm_compute. Qed.

#[export] Instance name_inj : Inj (=) (=) Fault.name.
Proof. intros [] [] E; done || discriminate E. Qed.

(** What a response costs the generator is the same whatever is decided about it: it depends
    on the generator and the rates, and not on the request. *)
Lemma response_draws rng rates i j : (decide_response rng rates i).1 = (decide_response rng rates j).1.
Proof.
  unfold decide_response. destruct (Rng.chance rng _) as [r1 ?], (Rng.chance r1 _) as [r2 ?], (Rng.chance r2 _) as [r3 ?].
  by destruct (Rng.chance r3 _).
Qed.

Lemma response_wf rng rates i : RngFacts.wf rng → RngFacts.wf (decide_response rng rates i).1.
Proof.
  intros Hw. unfold decide_response.
  pose proof (RngFacts.chance_wf rng (FaultRates.duplicate_response rates) Hw) as H1.
  destruct (Rng.chance rng _) as [r1 ?].
  pose proof (RngFacts.chance_wf r1 (FaultRates.reorder_response rates) H1) as H2.
  destruct (Rng.chance r1 _) as [r2 ?].
  pose proof (RngFacts.chance_wf r2 (FaultRates.sever_mid_batch rates) H2) as H3.
  destruct (Rng.chance r2 _) as [r3 ?].
  pose proof (RngFacts.chance_wf r3 (FaultRates.malformed_bytes rates) H3) as H4.
  by destruct (Rng.chance r3 _).
Qed.

(** A quiet world has no faults and draws nothing. *)
Lemma response_quiet rng i : decide_response rng FaultRates.none i = (rng, None).
Proof. done. Qed.
Lemma storage_quiet rng : decide_storage rng FaultRates.none = (rng, None).
Proof. done. Qed.

(** The periodic drop lands on every [n]th request, whatever else was drawn. *)
Lemma response_dropped rng rates i :
  0 < FaultRates.drop_every_nth rates → i mod FaultRates.drop_every_nth rates = 0 →
  (decide_response rng rates i).2 = Some Fault.Dropped.
Proof.
  intros Hn Hi. unfold decide_response. repeat destruct (Rng.chance _ _). cbn [snd].
  destruct (Z.ltb_spec 0 (FaultRates.drop_every_nth rates)); [|lia]. by rewrite Hi.
Qed.
