(* ===== verification/Pressure.v ===== *)
(** * Pressure: how a loaded simulated server sheds (credsync-sim/src/pressure.rs). *)

From S2P Require Import Prelude Rng.
From stdpp Require Import options.

Definition SIM_BUDGET_BYTES : Z := 2048.
Definition MIN_BUDGET_BYTES : Z := 256.

Inductive Load : Type :=
| Normal
| Shedding (steps_left : Z).

Module Pressure.
Record t := mk {
  load : Load;
  severity : Z;
  deferred_commands : Z;
  episodes : Z;
}.

Definition new : t := mk Normal 1 0 0.

Definition is_shedding (p : t) : bool := match load p with Shedding _ => true | Normal => false end.

Definition overload (p : t) (rng : Rng.t) : t * Rng.t :=
  let '(rng, severity) := Rng.range rng 2 8 in
  let '(rng, steps_left) := Rng.range rng 3 30 in
  (mk (Shedding steps_left) severity (deferred_commands p) (episodes p + 1), rng).

Definition tick (p : t) : t :=
  match load p with
  | Shedding steps_left =>
      if steps_left <=? 1 then mk Normal 1 (deferred_commands p) (episodes p)
      else mk (Shedding (steps_left - 1)) (severity p) (deferred_commands p) (episodes p)
  | Normal => p
  end.

Definition budget_bytes (p : t) : Z :=
  match load p with
  | Normal => SIM_BUDGET_BYTES
  | Shedding _ =>
      let shrunk := SIM_BUDGET_BYTES / severity p in
      if shrunk <? MIN_BUDGET_BYTES then MIN_BUDGET_BYTES else shrunk
  end.

Definition accept_count (p : t) (offered : Z) : t * Z :=
  if offered =? 0 then (p, 0) else
  let taken :=
    match load p with
    | Normal => offered
    | Shedding _ => Z.max (offered / severity p) 1
    end in
  (mk (load p) (severity p) (deferred_commands p + (offered - taken)) (episodes p), taken).
End Pressure.

(** ** Facts *)

Module PressureFacts.
Import Pressure.

(** What every reachable load state satisfies: no division by zero, episodes that end. *)
Definition wf (p : t) : Prop :=
  1 ≤ severity p ≤ 8 ∧ 0 ≤ deferred_commands p ∧
  match load p with Shedding n => 1 ≤ n ≤ 30 | Normal => True end.

Lemma pressure_new_wf : wf new.
Proof. by split_and!. Qed.

Lemma overload_wf p rng : RngFacts.wf rng → wf p → wf (overload p rng).1 ∧ RngFacts.wf (overload p rng).2.
Proof.
  intros Hr (Hs & Hd & Hl). unfold overload.
  destruct (RngFacts.range_range rng 2 8 Hr ltac:(lia) ltac:(unfold u32_mod; lia)) as [H1 Hr1].
  destruct (Rng.range rng 2 8) as [r1 s]. cbn [fst snd] in *.
  destruct (RngFacts.range_range r1 3 30 Hr1 ltac:(lia) ltac:(unfold u32_mod; lia)) as [H2 Hr2].
  destruct (Rng.range r1 3 30) as [r2 n]. cbn [fst snd] in *. split; [|done]. unfold wf. cbn. lia.
Qed.

Lemma tick_wf p : wf p → wf (tick p).
Proof.
  intros (Hs & Hd & Hl). unfold tick. destruct (load p) eqn:E.
  - unfold wf. rewrite E. lia.
  - destruct (Z.leb_spec steps_left 1); unfold wf; cbn; lia.
Qed.

Lemma accept_wf p offered : 0 ≤ offered → wf p → wf (accept_count p offered).1.
Proof.
  intros Ho Hw. pose proof Hw as (Hs & Hd & Hl). unfold accept_count.
  destruct (Z.eqb_spec offered 0); [exact Hw|].
  assert (offered / severity p ≤ offered) by (apply Z.div_le_upper_bound; nia).
  unfold wf. cbn. split_and!; try done; destruct (load p); lia.
Qed.

(** Every episode ends: thirty ticks leave any server serving normally. *)
Lemma tick_ends p : wf p → load (Nat.iter 30 tick p) = Normal.
Proof.
  intros (_ & _ & Hl).
  cut (∀ n p, match load p with Shedding k => 1 ≤ k ≤ Z.of_nat n | Normal => True end → load (Nat.iter n tick p) = Normal).
  { intros Hc. apply Hc. by destruct (load p). }
  clear. induction n as [|n IH]; intros p Hl.
  - destruct (load p) eqn:E; [done|lia].
  - rewrite Nat.iter_succ_r. apply IH. unfold tick. destruct (load p) eqn:E; [by rewrite E|].
    destruct (Z.leb_spec steps_left 1); simpl; [done|lia].
Qed.

Lemma budget_range p : wf p → MIN_BUDGET_BYTES ≤ budget_bytes p ≤ SIM_BUDGET_BYTES.
Proof.
  intros (Hs & _ & _). unfold budget_bytes, MIN_BUDGET_BYTES, SIM_BUDGET_BYTES in *.
  destruct (load p); [lia|]. assert (2048 / severity p ≤ 2048) by (apply Z.div_le_upper_bound; lia).
  destruct (Z.ltb_spec (2048 / severity p) 256); lia.
Qed.

(** Whatever the load, a push that offers something has something looked at, and what is not
    looked at is counted. *)
Lemma accept_range p offered :
  wf p → 0 < offered →
  1 ≤ (accept_count p offered).2 ≤ offered ∧
  deferred_commands (accept_count p offered).1 + (accept_count p offered).2 = deferred_commands p + offered.
Proof.
  intros (Hs & _ & _) Ho. unfold accept_count. destruct (Z.eqb_spec offered 0); [lia|]. simpl.
  assert (offered / severity p ≤ offered) by (apply Z.div_le_upper_bound; nia).
  destruct (load p); lia.
Qed.
End PressureFacts.
