(* ===== verification/Ids.v ===== *)
(** * Ids: the validated identifier newtypes (credsync-protocol/src/ids.rs).

    A Rust [String] is its UTF-8 bytes, so lengths here are byte lengths and the character
    tests of [checked] run over bytes. Each newtype is a Module; [wf] says what its
    constructor has checked. The two UUID routines, [CommandId.parse] and
    [CommandId.to_string], are inverse to each other on version-7 identifiers. *)

From S2P Require Import Prelude Errors.
From stdpp Require Import options.

(** ** Character sets *)

Definition is_ascii_digit (b : Z) : bool := (48 <=? b) && (b <=? 57).
Definition is_ascii_lowercase (b : Z) : bool := (97 <=? b) && (b <=? 122).
Definition is_ascii_uppercase (b : Z) : bool := (65 <=? b) && (b <=? 90).
Definition is_ascii_alphanumeric (b : Z) : bool :=
  is_ascii_digit b || is_ascii_lowercase b || is_ascii_uppercase b.
Definition is_ascii_graphic (b : Z) : bool := (33 <=? b) && (b <=? 126).

Definition is_scope_byte (b : Z) : bool :=
  is_ascii_alphanumeric b || (b =? 58) || (b =? 95) || (b =? 45).
Definition is_lower_snake (b : Z) : bool :=
  is_ascii_lowercase b || is_ascii_digit b || (b =? 95).
Definition is_entity_id_byte (b : Z) : bool := is_ascii_graphic b.

Definition hex_nibble (b : Z) : option Z :=
  if (48 <=? b) && (b <=? 57) then Some (b - 48)
  else if (97 <=? b) && (b <=? 102) then Some (b - 97 + 10)
  else None.
Definition is_lower_hex (b : Z) : bool := match hex_nibble b with Some _ => true | None => false end.

(** [str::chars]: the code points of a UTF-8 byte sequence. *)
Fixpoint chars (l : bytes) : list Z :=
  match l with
  | [] => []
  | b0 :: r =>
      if b0 <? 128 then b0 :: chars r else
      match r with
      | [] => []
      | b1 :: r1 =>
          if b0 <? 224 then Z.lor (Z.shiftl (Z.land b0 31) 6) (Z.land b1 63) :: chars r1 else
          match r1 with
          | [] => []
          | b2 :: r2 =>
              if b0 <? 240 then
                Z.lor (Z.shiftl (Z.land b0 15) 12) (Z.lor (Z.shiftl (Z.land b1 63) 6) (Z.land b2 63))
                :: chars r2
              else
              match r2 with
              | [] => []
              | b3 :: r3 =>
                  Z.lor (Z.shiftl (Z.land b0 7) 18) (Z.lor (Z.shiftl (Z.land b1 63) 12)
                    (Z.lor (Z.shiftl (Z.land b2 63) 6) (Z.land b3 63))) :: chars r3
              end
          end
      end
  end.

(** [char::is_control]: the Unicode category Cc. *)
Definition is_control (c : Z) : bool := (c <? 32) || ((127 <=? c) && (c <? 160)).

(** ** [checked]: empty, then too long, then the character set. *)
Definition checked (field expected : string) (max : nat) (ok : Z → bool) (s : string)
    : result () ProtocolError :=
  if (String.length s =? 0)%nat then Err (Empty field)
  else if (max <? String.length s)%nat then
    Err (TooLong field (Z.of_nat max) (Z.of_nat (String.length s)))
  else if negb (forallb ok (as_bytes s)) then Err (BadCharset field expected)
  else Ok ().

(** The body of [bounded_string!]'s [new]. *)
Definition bounded_string_new {A} (wrap : string → A) (field expected : string) (max : nat)
    (ok : Z → bool) (s : string) : result A ProtocolError :=
  try? checked field expected max ok s then Ok (wrap s).

(** What [checked] accepts. *)
Definition bounded_string_wf (max : nat) (ok : Z → bool) (s : string) : Prop :=
  (0 < String.length s ≤ max)%nat ∧ Forall (λ b, ok b = true) (as_bytes s).

Module ScopeId.
Record t := mk { as_str : string }.
Definition new (s : string) : result t ProtocolError :=
  bounded_string_new mk "scope" "ASCII alphanumeric, ':', '_' or '-'" SCOPE_MAX_BYTES
    is_scope_byte s.
Definition wf (x : t) : Prop := bounded_string_wf SCOPE_MAX_BYTES is_scope_byte (as_str x).
#[global] Instance eq_dec : EqDecision t.
Proof. solve_decision. Defined.
#[global] Instance countable : Countable t.
Proof. apply (inj_countable' as_str mk). by intros []. Defined.
End ScopeId.

Module EntityName.
Record t := mk { as_str : string }.
Definition new (s : string) : result t ProtocolError :=
  bounded_string_new mk "entity" "lowercase ASCII, digits or '_'" ENTITY_MAX_BYTES
    is_lower_snake s.
Definition wf (x : t) : Prop := bounded_string_wf ENTITY_MAX_BYTES is_lower_snake (as_str x).
#[global] Instance eq_dec : EqDecision t.
Proof. solve_decision. Defined.
#[global] Instance countable : Countable t.
Proof. apply (inj_countable' as_str mk). by intros []. Defined.
End EntityName.

Module EntityId.
Record t := mk { as_str : string }.
Definition new (s : string) : result t ProtocolError :=
  bounded_string_new mk "entity_id" "printable ASCII without spaces" ENTITY_ID_MAX_BYTES
    is_entity_id_byte s.
Definition wf (x : t) : Prop := bounded_string_wf ENTITY_ID_MAX_BYTES is_entity_id_byte (as_str x).
#[global] Instance eq_dec : EqDecision t.
Proof. solve_decision. Defined.
#[global] Instance countable : Countable t.
Proof. apply (inj_countable' as_str mk). by intros []. Defined.
End EntityId.

Module CommandName.
Record t := mk { as_str : string }.
Definition new (s : string) : result t ProtocolError :=
  bounded_string_new mk "name" "lowercase ASCII, digits or '_'" COMMAND_NAME_MAX_BYTES
    is_lower_snake s.
Definition wf (x : t) : Prop := bounded_string_wf COMMAND_NAME_MAX_BYTES is_lower_snake (as_str x).
#[global] Instance eq_dec : EqDecision t.
Proof. solve_decision. Defined.
#[global] Instance countable : Countable t.
Proof. apply (inj_countable' as_str mk). by intros []. Defined.
End CommandName.

Module Reason.
Record t := mk { as_str : string }.
Definition new (s : string) : result t ProtocolError :=
  if (String.length s =? 0)%nat then Err (Empty "reason")
  else if (REASON_MAX_BYTES <? String.length s)%nat then
    Err (TooLong "reason" (Z.of_nat REASON_MAX_BYTES) (Z.of_nat (String.length s)))
  else if existsb is_control (chars (as_bytes s)) then
    Err (BadCharset "reason" "text without control characters")
  else Ok (mk s).
#[global] Instance eq_dec : EqDecision t.
Proof. solve_decision. Defined.
End Reason.

Module HexString.
Record t := mk { as_str : string }.
Definition new_named (field : string) (s : string) : result t ProtocolError :=
  try? checked field "lowercase hex" HEX_CHARS is_lower_hex s then
  if negb (String.length s =? HEX_CHARS)%nat then
    Err (TooShort field (Z.of_nat HEX_CHARS) (Z.of_nat (String.length s)))
  else Ok (mk s).
Definition new (s : string) : result t ProtocolError := new_named "digest" s.
Definition wf (x : t) : Prop :=
  String.length (as_str x) = HEX_CHARS ∧ Forall (λ b, is_lower_hex b = true) (as_bytes (as_str x)).
#[global] Instance eq_dec : EqDecision t.
Proof. solve_decision. Defined.
End HexString.

(** ** Command identifiers: UUID version 7 *)

Definition HYPHENS_AT : list nat := [8; 13; 18; 23]%nat.
Definition UUID_LEN : nat := 36.

(** One lowercase hex digit and the [{:02x}] format of a byte. *)
Definition hex_digit (n : Z) : Z := if n <? 10 then 48 + n else 87 + n.
Definition fmt_02x (b : Z) : bytes := [hex_digit (b / 16); hex_digit (b mod 16)].

Module CommandId.
(** The 16 raw bytes. *)
Record t := mk { as_bytes : bytes }.
#[global] Instance eq_dec : EqDecision t.
Proof. solve_decision. Defined.
#[global] Instance countable : Countable t.
Proof. apply (inj_countable' as_bytes mk). by intros []. Defined.

Definition byte_at (i : nat) (b : bytes) : Z := default 0 (b !! i).

Definition from_bytes (b : bytes) : result t ProtocolError :=
  let version := Z.shiftr (byte_at 6 b) 4 in
  if negb (version =? 7) then Err (NotUuidV7 version) else Ok (mk b).

(** The [while] loop of [parse] from index [i], with the [out_i] bytes decoded so far in
    [out]. [None] is the fuel running out, which [parse_loop_fuel] rules out. *)
Fixpoint parse_loop (fuel : nat) (bs : bytes) (i : nat) (out : bytes)
    : option (result bytes ProtocolError) :=
  if (UUID_LEN <=? i)%nat then Some (Ok out) else
  match fuel with
  | O => None
  | S fuel =>
      if existsb (Nat.eqb i) HYPHENS_AT then
        if negb (byte_at i bs =? 45) then Some (Err MalformedUuid)
        else parse_loop fuel bs (i + 1) out
      else
        match hex_nibble (byte_at i bs) with
        | None => Some (Err MalformedUuid)
        | Some hi =>
            match b ← bs !! (i + 1)%nat; hex_nibble b with
            | None => Some (Err MalformedUuid)
            | Some lo =>
                if (16 <=? length out)%nat then Some (Err MalformedUuid)
                else parse_loop fuel bs (i + 2) (out ++ [Z.lor (Z.shiftl hi 4) lo])
            end
        end
  end.

Definition parse (s : string) : result t ProtocolError :=
  let bs := Prelude.as_bytes s in
  if negb (length bs =? UUID_LEN)%nat then Err MalformedUuid else
  match parse_loop UUID_LEN bs 0 [] with
  | None => Err MalformedUuid
  | Some (Err e) => Err e
  | Some (Ok out) =>
      if negb (length out =? 16)%nat then Err MalformedUuid else from_bytes out
  end.

(** [impl Display]: a hyphen before bytes 4, 6, 8 and 10, then the byte in hex. *)
Fixpoint display_from (i : nat) (b : bytes) : bytes :=
  match b with
  | [] => []
  | x :: r =>
      (if existsb (Nat.eqb i) [4; 6; 8; 10]%nat then [45] else []) ++ fmt_02x x ++ display_from (i + 1) r
  end.
Definition to_string (x : t) : string := Prelude.from_bytes (display_from 0 (as_bytes x)).

(** What [from_bytes] has checked, over the array type [[u8; 16]]. *)
Definition wf (x : t) : Prop :=
  length (as_bytes x) = 16%nat ∧ Forall is_byte (as_bytes x) ∧ Z.shiftr (byte_at 6 (as_bytes x)) 4 = 7.
End CommandId.

(** ** Facts: bounded strings *)

Lemma checked_ok field expected max ok s :
  checked field expected max ok s = Ok () ↔ bounded_string_wf max ok s.
Proof.
  unfold checked, bounded_string_wf.
  destruct (Nat.eqb_spec (String.length s) 0); [split; [done|lia]|].
  destruct (Nat.ltb_spec max (String.length s)); [split; [done|lia]|].
  destruct (forallb ok (as_bytes s)) eqn:E; simpl.
  - split; [|done]. intros _. split; [lia|]. apply Forall_forall. intros x Hx.
    rewrite forallb_forall in E. apply E. by apply list_elem_of_In.
  - split; [done|]. intros [_ HF]. apply not_true_iff_false in E. destruct E.
    apply forallb_forall. intros x Hx. rewrite Forall_forall in HF. apply HF.
    by apply list_elem_of_In.
Qed.

(** The macro's constructor wraps exactly the strings its field allows, unchanged. *)
Lemma bounded_string_new_ok {A} (wrap : string → A) field expected max ok s x :
  bounded_string_new wrap field expected max ok s = Ok x ↔ x = wrap s ∧ bounded_string_wf max ok s.
Proof.
  unfold bounded_string_new. rewrite <- (checked_ok field expected).
  destruct (checked _ _ _ _ _) as [[]|e]; simpl; split.
  - by intros [= <-].
  - by intros [-> _].
  - done.
  - by intros [_ ?].
Qed.

(** A hex string is accepted iff it is exactly 32 lowercase hex characters. *)
Lemma HexString_new_named_ok field s x :
  HexString.new_named field s = Ok x ↔ x = HexString.mk s ∧ HexString.wf (HexString.mk s).
Proof.
  unfold HexString.new_named, HexString.wf. simpl.
  pose proof (checked_ok field "lowercase hex" HEX_CHARS is_lower_hex s) as Hc.
  unfold bounded_string_wf in Hc.
  destruct (checked _ _ _ _ _) as [[]|e]; simpl.
  - destruct Hc as [Hc _]. specialize (Hc eq_refl) as [Hl HF].
    destruct (Nat.eqb_spec (String.length s) HEX_CHARS); simpl; split; intros H;
      [injection H as <-; by split | by destruct H as [-> _] | done | by destruct H as [_ [? _]]].
  - split; [done|]. intros (_ & Hl & HF). destruct Hc as [_ Hc]. discriminate Hc.
    split; [unfold HEX_CHARS in *; lia | done].
Qed.

(** ** Facts: hex digits *)

Lemma hex_nibble_digit n : 0 ≤ n < 16 → hex_nibble (hex_digit n) = Some n.
Proof.
  intros Hn. unfold hex_digit, hex_nibble.
  destruct (Z.ltb_spec n 10).
  - replace (_ && _) with true by (symmetry; rewrite andb_true_iff, !Z.leb_le; lia). f_equal; lia.
  - replace ((48 <=? 87 + n) && (87 + n <=? 57)) with false
      by (symmetry; rewrite andb_false_iff, !Z.leb_gt; lia).
    replace (_ && _) with true by (symmetry; rewrite andb_true_iff, !Z.leb_le; lia). f_equal; lia.
Qed.

Lemma hex_nibble_some b n : hex_nibble b = Some n → b = hex_digit n ∧ 0 ≤ n < 16.
Proof.
  unfold hex_nibble, hex_digit.
  destruct ((48 <=? b) && (b <=? 57)) eqn:E1.
  - intros [= <-]. rewrite andb_true_iff, !Z.leb_le in E1.
    destruct (Z.ltb_spec (b - 48) 10); lia.
  - destruct ((97 <=? b) && (b <=? 102)) eqn:E2; [|done].
    intros [= <-]. rewrite andb_true_iff, !Z.leb_le in E2.
    destruct (Z.ltb_spec (b - 97 + 10) 10); lia.
Qed.

Lemma hex_digit_is_byte n : 0 ≤ n < 16 → is_byte (hex_digit n).
Proof. unfold is_byte, hex_digit. intros ?. destruct (Z.ltb_spec n 10); lia. Qed.

Lemma hex_digit_lower n : 0 ≤ n < 16 → is_lower_hex (hex_digit n) = true.
Proof. intros ?. unfold is_lower_hex. by rewrite hex_nibble_digit. Qed.

Lemma byte_nibbles b : is_byte b → 0 ≤ b / 16 < 16 ∧ 0 ≤ b mod 16 < 16.
Proof.
  unfold is_byte. intros ?. split; [|apply Z.mod_pos_bound; lia].
  split; [apply Z.div_pos; lia | apply Z.div_lt_upper_bound; lia].
Qed.

Lemma nibbles_byte hi lo :
  0 ≤ hi < 16 → 0 ≤ lo < 16 → Z.lor (Z.shiftl hi 4) lo = hi * 16 + lo.
Proof.
  intros Hhi Hlo.
  assert (H : forallb (λ h, forallb (λ l, Z.lor (Z.shiftl (Z.of_nat h) 4) (Z.of_nat l)
    =? Z.of_nat h * 16 + Z.of_nat l) (seq 0 16)) (seq 0 16) = true) by reflexivity.
  rewrite forallb_forall in H. specialize (H (Z.to_nat hi)).
  rewrite forallb_forall in H. setoid_rewrite in_seq in H.
  specialize (H ltac:(lia) (Z.to_nat lo) ltac:(lia)).
  rewrite !Z2Nat.id in H by lia. by apply Z.eqb_eq.
Qed.

Lemma nibbles_join b : is_byte b → Z.lor (Z.shiftl (b / 16) 4) (b mod 16) = b.
Proof.
  intros Hb. pose proof (byte_nibbles b Hb) as [? ?]. rewrite nibbles_byte by done.
  pose proof (Z.div_mod b 16). lia.
Qed.

(** ** Facts: UUID parsing *)

Section parsing.
Context (bs : bytes).

Lemma parse_loop_hyphen fuel i out :
  (i < UUID_LEN)%nat → existsb (Nat.eqb i) HYPHENS_AT = true → bs !! i = Some 45 →
  CommandId.parse_loop (S fuel) bs i out = CommandId.parse_loop fuel bs (i + 1) out.
Proof.
  intros Hi Hy Hb. cbn [CommandId.parse_loop].
  destruct (Nat.leb_spec UUID_LEN i); [lia|].
  rewrite Hy. unfold CommandId.byte_at. by rewrite Hb.
Qed.

Lemma parse_loop_byte fuel i out b :
  (i < UUID_LEN)%nat → existsb (Nat.eqb i) HYPHENS_AT = false → is_byte b → (length out < 16)%nat →
  bs !! i = Some (hex_digit (b / 16)) → bs !! (i + 1)%nat = Some (hex_digit (b mod 16)) →
  CommandId.parse_loop (S fuel) bs i out = CommandId.parse_loop fuel bs (i + 2) (out ++ [b]).
Proof.
  intros Hi Hn Hb Hl H1 H2. cbn [CommandId.parse_loop].
  destruct (Nat.leb_spec UUID_LEN i); [lia|].
  rewrite Hn. unfold CommandId.byte_at. rewrite H1, H2.
  pose proof (byte_nibbles b Hb) as [? ?]. cbn [default from_option id mbind option_bind].
  rewrite (hex_nibble_digit (b / 16)) by lia. rewrite (hex_nibble_digit (b mod 16)) by lia.
  destruct (Nat.leb_spec 16 (length out)); [lia|]. by rewrite nibbles_join.
Qed.

(** One turn of the loop that goes on to succeed. *)
Lemma parse_loop_inv fuel i out res :
  (i < UUID_LEN)%nat → CommandId.parse_loop (S fuel) bs i out = Some (Ok res) →
  if existsb (Nat.eqb i) HYPHENS_AT then
    CommandId.byte_at i bs = 45 ∧ CommandId.parse_loop fuel bs (i + 1) out = Some (Ok res)
  else ∃ b, is_byte b ∧ CommandId.byte_at i bs = hex_digit (b / 16) ∧
    bs !! (i + 1)%nat = Some (hex_digit (b mod 16)) ∧
    CommandId.parse_loop fuel bs (i + 2) (out ++ [b]) = Some (Ok res).
Proof.
  intros Hi. cbn [CommandId.parse_loop].
  destruct (Nat.leb_spec UUID_LEN i); [lia|].
  destruct (existsb _ _).
  - destruct (Z.eqb_spec (CommandId.byte_at i bs) 45); cbn [negb]; intros Hrun;
      [by split|discriminate Hrun].
  - destruct (hex_nibble _) as [hi|] eqn:Ehi; [|done].
    destruct (bs !! (i + 1)%nat) as [c|] eqn:Ec; cbn [mbind option_bind]; [|done].
    destruct (hex_nibble c) as [lo|] eqn:Elo; [|done].
    destruct (Nat.leb_spec 16 (length out)); [done|].
    apply hex_nibble_some in Ehi as [-> Hhi]. apply hex_nibble_some in Elo as [-> Hlo].
    rewrite nibbles_byte by done. intros Hrun. exists (hi * 16 + lo).
    replace ((hi * 16 + lo) / 16) with hi by (rewrite Z.div_add_l, Z.div_small; lia).
    replace ((hi * 16 + lo) mod 16) with lo
      by (rewrite Z.add_comm, Z.mod_add, Z.mod_small; lia).
    unfold is_byte. split; [lia|]. done.
Qed.

(** The fuel [parse] passes is enough: the loop always ends in a verdict. *)
Lemma parse_loop_fuel fuel i out :
  (UUID_LEN - i ≤ fuel)%nat → is_Some (CommandId.parse_loop fuel bs i out).
Proof.
  revert i out; induction fuel as [|fuel IH]; intros i out Hf; cbn [CommandId.parse_loop].
  - destruct (Nat.leb_spec UUID_LEN i); [eauto|lia].
  - destruct (Nat.leb_spec UUID_LEN i); [eauto|].
    repeat (case_match; simplify_eq/=; eauto); apply IH; lia.
Qed.
End parsing.

Lemma shiftr_4 b : Z.shiftr b 4 = b / 16.
Proof. by rewrite Z.shiftr_div_pow2. Qed.

Lemma from_bytes_ok b x :
  CommandId.from_bytes b = Ok x ↔ x = CommandId.mk b ∧ Z.shiftr (CommandId.byte_at 6 b) 4 = 7.
Proof.
  unfold CommandId.from_bytes. destruct (Z.eqb_spec (Z.shiftr (CommandId.byte_at 6 b) 4) 7);
    simpl; split; [by intros [= <-]|by intros [-> _]|done|by intros [_ ?]].
Qed.

Lemma display_is_bytes i b : Forall is_byte b → Forall is_byte (CommandId.display_from i b).
Proof.
  intros H. revert i. induction H as [|x r Hx _ IH]; intros i; cbn [CommandId.display_from]; [constructor|].
  pose proof (byte_nibbles x Hx) as [? ?].
  apply Forall_app. split; [destruct (existsb _ _); repeat constructor; unfold is_byte; lia|].
  apply Forall_app. split; [|apply IH].
  repeat constructor; by apply hex_digit_is_byte.
Qed.

(** Step a symbolic run of the loop over a literal byte list. *)
Ltac parse_step :=
  first [ rewrite parse_loop_hyphen by (reflexivity || (unfold UUID_LEN; simpl; lia))
        | erewrite parse_loop_byte;
            [|unfold UUID_LEN; lia|reflexivity| |simpl; lia|reflexivity|reflexivity]; [|eassumption] ];
  cbn [app Nat.add].

Lemma uuid_parse_print x : CommandId.wf x → CommandId.parse (CommandId.to_string x) = Ok x.
Proof.
  intros (Hl & Hb & Hv). destruct x as [b]. cbn [CommandId.as_bytes] in *.
  unfold CommandId.parse, CommandId.to_string; cbn [CommandId.as_bytes].
  rewrite as_from_bytes by by apply display_is_bytes.
  do 17 (destruct b as [|? b]; try discriminate Hl).
  repeat match goal with H : Forall _ (_ :: _) |- _ => apply Forall_cons in H as [? H] end.
  cbn [CommandId.display_from fmt_02x app Nat.add existsb Nat.eqb orb].
  match goal with |- context [CommandId.parse_loop _ ?l _ _] => set (ds := l) end.
  change UUID_LEN with 36%nat at 2.
  replace (negb _) with false by reflexivity. cbv iota.
  do 20 parse_step. cbn [CommandId.parse_loop Nat.leb UUID_LEN length Nat.eqb negb].
  apply from_bytes_ok. by split.
Qed.

Lemma uuid_print_parse s x : CommandId.parse s = Ok x → CommandId.to_string x = s ∧ CommandId.wf x.
Proof.
  unfold CommandId.parse. destruct (Nat.eqb_spec (length (as_bytes s)) UUID_LEN) as [Hl|]; [|done].
  cbn [negb]. destruct (CommandId.parse_loop _ _ _ _) as [[out|]|] eqn:Hrun; try done.
  destruct (Nat.eqb_spec (length out) 16); [|done]. cbn [negb].
  rewrite from_bytes_ok. intros [-> Hv]. unfold UUID_LEN in *.
  do 20 (apply parse_loop_inv in Hrun; [|unfold UUID_LEN; lia];
    cbn [existsb Nat.eqb orb HYPHENS_AT Nat.add app] in Hrun;
    first [ destruct Hrun as (? & ? & ? & ? & Hrun) | destruct Hrun as [? Hrun] ]).
  cbn in Hrun. injection Hrun as <-.
  unfold CommandId.wf. cbn [CommandId.as_bytes]. split_and!; [|done| |done];
    [|repeat (apply Forall_cons_2; [assumption|]); constructor].
  unfold CommandId.to_string. cbn [CommandId.as_bytes]. rewrite <- (from_as_bytes s). f_equal.
  remember (as_bytes s) as bs. clear Heqbs.
  do 37 (destruct bs as [|? bs]; try discriminate Hl).
  cbn [CommandId.display_from fmt_02x app Nat.add existsb Nat.eqb orb].
  unfold CommandId.byte_at in *. cbn in *. congruence.
Qed.
