(* ===== verification/Json.v ===== *)
(** * Json: host documents and canonical encoding (credsync-protocol/src/canonical.rs and the
    [Document] part of credsync-protocol/src/wire.rs).

    The JSON values are [serde_json]'s, a library outside the repository. Its data type is
    stated because the source matches on it; its writer is not: [Codec] is the interface the
    source relies on, the sequence of [write] calls [serde_json::to_writer] makes for a
    value. Everything above it ([to_vec], [encoded_len], [Document]) is modelled. *)

From S2P Require Import Prelude Errors.
From stdpp Require Import options.

(** ** [serde_json::Value]. A [Map] is a [BTreeMap]: its entries are kept in key order. *)

Inductive Number : Type :=
| PosInt (n : Z)
| NegInt (n : Z)
| Float (bits : Z).

Inductive Value : Type :=
| VNull
| VBool (b : bool)
| VNumber (n : Number)
| VString (s : string)
| VArray (items : list Value)
| VObject (entries : list (string * Value)).

Definition is_f64 (n : Number) : bool := match n with Float _ => true | _ => false end.
Definition is_object (v : Value) : bool := match v with VObject _ => true | _ => false end.

(** [BTreeMap::insert] on the entry list, and a map built from fields in order. *)
Fixpoint btree_insert (k : string) (v : Value) (m : list (string * Value)) : list (string * Value) :=
  match m with
  | [] => [(k, v)]
  | (k', v') :: r =>
      match String.compare k k' with
      | Lt => (k, v) :: (k', v') :: r
      | Eq => (k, v) :: r
      | Gt => (k', v') :: btree_insert k v r
      end
  end.
Definition object_of (fields : list (string * Value)) : Value :=
  VObject (fold_left (λ m '(k, v), btree_insert k v m) fields []).

(** ** The interface to the JSON writer *)

Class Codec : Type := {
  (** The chunks [serde_json::to_writer] hands to [Write::write], or its error. *)
  json_write : Value → result (list bytes) string;
}.

(** [serde_json::to_vec]: the same run into a [Vec<u8>], which appends each chunk. *)
Definition json_to_vec `{Codec} (v : Value) : result bytes string :=
  let? chunks := json_write v in Ok (concat chunks).

(** [#[derive(Serialize)]] and the hand-written impls, through [serde_json::to_value]. *)
Class Serialize (T : Type) : Type := to_value : T → Value.
#[export] Instance Serialize_Value : Serialize Value := λ v, v.
#[export] Instance Serialize_list {T} `{Serialize T} : Serialize (list T) :=
  λ l, VArray (map to_value l).

(** ** canonical.rs *)

Section canonical.
Context `{Codec}.

Definition to_vec {T} `{Serialize T} (value : T) : result bytes ProtocolError :=
  let v := to_value value in map_err from_serde_json (json_to_vec v).

Definition canonicalize (value : Value) : result bytes ProtocolError :=
  map_err from_serde_json (json_to_vec value).

(** [CountingWriter::write]: add the chunk's length, keep nothing. *)
Definition counting_write (counter : N) (buf : bytes) : N := (counter + N.of_nat (length buf))%N.

Definition encoded_len {T} `{Serialize T} (value : T) : result N ProtocolError :=
  let v := to_value value in
  map_err from_serde_json (let? chunks := json_write v in Ok (fold_left counting_write chunks 0%N)).
End canonical.

(** ** Growing an encoded array in place

    [build_push] and [fill_batch] both keep the bytes of the array chosen so far and splice
    one more element in before the closing bracket, or roll back to where they were. *)

Definition splice {A} (chosen : list A) (buf one : bytes) : bytes :=
  let buf := removelast buf in
  let buf := match chosen with [] => buf | _ => buf ++ [44] end in
  buf ++ one ++ [93].
Definition unsplice (rollback : nat) (buf : bytes) : bytes := take (rollback - 1) buf ++ [93].

(** ** [Document<MAX, FIELD>] *)

Record Document (MAX : N) (FIELD : Z) : Type := MkDocument { as_value : Value }.
Arguments MkDocument {MAX FIELD} as_value.
Arguments as_value {MAX FIELD} d : rename.

Abbreviation Snapshot := (Document SNAPSHOT_MAX_BYTES 0).
Abbreviation Payload := (Document PAYLOAD_MAX_BYTES 1).

#[export] Instance Serialize_Document MAX FIELD : Serialize (Document MAX FIELD) := as_value.

Definition field_name (FIELD : Z) : string := if FIELD =? 0 then "snapshot" else "payload".

(** [reject_floats]: depth first, the first float ends the walk. *)
Fixpoint reject_floats (v : Value) (field : string) : result () ProtocolError :=
  match v with
  | VNumber n => if is_f64 n then Err (FloatNotAllowed field) else Ok ()
  | VArray items =>
      (fix go (l : list Value) : result () ProtocolError :=
         match l with
         | [] => Ok ()
         | i :: r => try? reject_floats i field then go r
         end) items
  | VObject entries =>
      (fix go (l : list (string * Value)) : result () ProtocolError :=
         match l with
         | [] => Ok ()
         | (_, i) :: r => try? reject_floats i field then go r
         end) entries
  | _ => Ok ()
  end.

Definition Document_new `{Codec} {MAX FIELD} (v : Value) : result (Document MAX FIELD) ProtocolError :=
  if negb (is_object v) then Err (NotAnObject (field_name FIELD)) else
  try? reject_floats v (field_name FIELD) then
  let? enc := canonicalize v in
  if (MAX <? N.of_nat (length enc))%N then
    Err (TooLong (field_name FIELD) (Z.of_N MAX) (Z.of_nat (length enc)))
  else Ok (MkDocument v).

(** ** Specification: no float at any depth *)

Inductive float_free : Value → Prop :=
| ff_null : float_free VNull
| ff_bool b : float_free (VBool b)
| ff_num n : is_f64 n = false → float_free (VNumber n)
| ff_str s : float_free (VString s)
| ff_arr l : Forall float_free l → float_free (VArray l)
| ff_obj m : Forall (λ e, float_free e.2) m → float_free (VObject m).

(** The compact encoding of an array: its elements between brackets, separated by commas.
    [serde_json] documents this format; [CodecArrays] names it for the theorems that need
    the spliced bytes to be the encoding of the whole array. *)
Fixpoint join_commas (encs : list bytes) : bytes :=
  match encs with
  | [] => []
  | [e] => e
  | e :: r => e ++ 44 :: join_commas r
  end.
Definition array_bytes (encs : list bytes) : bytes := 91 :: join_commas encs ++ [93].

Class CodecArrays `{Codec} : Prop := {
  json_array items encs :
    res_mapM json_to_vec items = Ok encs → json_to_vec (VArray items) = Ok (array_bytes encs);
}.

(** ** Facts *)

Lemma join_commas_snoc encs e :
  join_commas (encs ++ [e]) = match encs with [] => e | _ => join_commas encs ++ 44 :: e end.
Proof.
  induction encs as [|x encs IH]; [done|]. destruct encs as [|y encs]; [done|].
  change (x ++ 44 :: join_commas ((y :: encs) ++ [e]) =
          (x ++ 44 :: join_commas (y :: encs)) ++ 44 :: e).
  rewrite IH. by rewrite <- app_assoc.
Qed.

(** Splicing appends one element to the encoded array. *)
Lemma splice_array {A} (chosen : list A) encs one :
  length chosen = length encs → splice chosen (array_bytes encs) one = array_bytes (encs ++ [one]).
Proof.
  intros Hlen. unfold splice, array_bytes. rewrite join_commas_snoc, app_comm_cons, removelast_last.
  destruct chosen, encs; try done. cbv zeta. simpl. by rewrite <- !app_assoc.
Qed.

(** Rolling back restores the bytes from before the splice. *)
Lemma unsplice_array {A} (chosen : list A) encs one :
  unsplice (length (array_bytes encs)) (splice chosen (array_bytes encs) one) = array_bytes encs.
Proof.
  unfold unsplice, splice, array_bytes. rewrite app_comm_cons, removelast_last, length_app. cbv zeta.
  replace (length (91%Z :: join_commas encs) + length [93%Z] - 1)%nat
    with (length (91%Z :: join_commas encs)) by (simpl; lia).
  f_equal. destruct chosen; rewrite <- ?app_assoc; by rewrite take_app_length.
Qed.

(** Induction on values through the two nested lists. *)
Lemma Value_ind' (P : Value → Prop) :
  P VNull → (∀ b, P (VBool b)) → (∀ n, P (VNumber n)) → (∀ s, P (VString s)) →
  (∀ l, Forall P l → P (VArray l)) → (∀ m, Forall (λ e, P e.2) m → P (VObject m)) →
  ∀ v, P v.
Proof.
  intros H1 H2 H3 H4 H5 H6. fix IH 1. intros [| b | n | s | l | m]; [apply H1|apply H2|apply H3|apply H4| |].
  - apply H5. induction l as [|x l IHl]; constructor; [apply IH|exact IHl].
  - apply H6. induction m as [|[k x] m IHm]; constructor; [apply IH|exact IHm].
Qed.

(** The walk answers [Ok] exactly on the documents with no float anywhere, and its only
    error is the float error for the field. *)
Lemma reject_floats_spec v field :
  (reject_floats v field = Ok () ∧ float_free v) ∨
  (reject_floats v field = Err (FloatNotAllowed field) ∧ ¬ float_free v).
Proof.
  induction v as [|b|n|s|l IH|m IH] using Value_ind'; try (left; split; [done|constructor]).
  - simpl. destruct (is_f64 n) eqn:E.
    + right. split; [done|]. inversion 1; congruence.
    + left. split; [done|]. by constructor.
  - cut ((reject_floats (VArray l) field = Ok () ∧ Forall float_free l) ∨
         (reject_floats (VArray l) field = Err (FloatNotAllowed field) ∧ ¬ Forall float_free l)).
    { intros [[-> ?]|[-> ?]]; [left|right]; split; try done; [by constructor|by inversion 1]. }
    simpl. induction IH as [|x l Hx _ IH]; [left; by split|].
    rewrite Forall_cons. destruct Hx as [[-> ?]|[-> ?]]; simpl; [|right; naive_solver].
    destruct IH as [[-> ?]|[-> ?]]; [left|right]; naive_solver.
  - cut ((reject_floats (VObject m) field = Ok () ∧ Forall (λ e, float_free e.2) m) ∨
         (reject_floats (VObject m) field = Err (FloatNotAllowed field) ∧
          ¬ Forall (λ e, float_free e.2) m)).
    { intros [[-> ?]|[-> ?]]; [left|right]; split; try done; [by constructor|by inversion 1]. }
    simpl. induction IH as [|[k x] m Hx _ IH]; [left; by split|].
    rewrite Forall_cons. simpl in Hx. destruct Hx as [[-> ?]|[-> ?]]; simpl; [|right; naive_solver].
    destruct IH as [[-> ?]|[-> ?]]; [left|right]; naive_solver.
Qed.

Section codec_facts.
Context `{Codec}.

(** Measuring agrees with encoding, for values and for errors. *)
Lemma encoded_len_to_vec {T} `{Serialize T} (x : T) :
  encoded_len x = let? b := to_vec x in Ok (N.of_nat (length b)).
Proof.
  unfold encoded_len, to_vec, json_to_vec. destruct (json_write (to_value x)) as [chunks|e]; simpl; [|done].
  f_equal. cut (∀ acc, fold_left counting_write chunks acc = (acc + N.of_nat (length (concat chunks)))%N).
  { intros ->. lia. }
  induction chunks as [|c r IH]; intros acc; simpl; [lia|].
  rewrite IH, length_app. unfold counting_write. lia.
Qed.

(** The constructor of a document: object first, floats second, size last. *)
Lemma Document_new_ok {MAX FIELD} v (d : Document MAX FIELD) :
  Document_new v = Ok d ↔
  d = MkDocument v ∧ is_object v = true ∧ float_free v ∧
  ∃ enc, json_to_vec v = Ok enc ∧ (N.of_nat (length enc) ≤ MAX)%N.
Proof.
  unfold Document_new, canonicalize. destruct (is_object v); simpl; [|split; [done|naive_solver]].
  destruct (reject_floats_spec v (field_name FIELD)) as [[-> ?]|[-> ?]]; simpl;
    [|split; [done|naive_solver]].
  destruct (json_to_vec v) as [enc|e]; simpl; [|split; [done|naive_solver]].
  destruct (N.ltb_spec MAX (N.of_nat (length enc))); split.
  - done.
  - intros (_ & _ & _ & enc' & [= <-] & ?). lia.
  - intros [= <-]. eauto 10.
  - by intros (-> & _).
Qed.
End codec_facts.

#[export] Hint Rewrite @encoded_len_to_vec : cred_rw.
