(* ===== verification/Wire.v ===== *)
(** * Wire: the wire types and their rules (credsync-protocol/src/wire.rs) and the decoding
    mirrors that bind those rules to decoding (credsync-protocol/src/validated.rs).

    A wire struct is a Record in a Module of its name. A derived [Serialize] is the list of
    its fields in declaration order, an absent optional field omitted, built into a
    [serde_json::Map]. *)

From S2P Require Import Prelude Errors Nums Ids Json.
From stdpp Require Import options.

(** ** Serialized scalars *)

Definition json_u64 (n : Z) : Value := VNumber (PosInt n).
Definition json_i64 (n : Z) : Value := VNumber (if 0 <=? n then PosInt n else NegInt n).
(** [skip_serializing_if = "Option::is_none"]. *)
Definition opt_field (k : string) (v : option Value) : list (string * Value) :=
  match v with Some v => [(k, v)] | None => [] end.

#[export] Instance Serialize_Seq : Serialize Seq.t := λ x, json_u64 (Seq.get x).
#[export] Instance Serialize_Cursor : Serialize Cursor.t := λ x, json_u64 (Cursor.get x).
#[export] Instance Serialize_CommandId : Serialize CommandId.t := λ x, VString (CommandId.to_string x).

(** ** Enumerations *)

Inductive Op : Type := Upsert | Delete.
#[export] Instance Op_eq_dec : EqDecision Op.
Proof. solve_decision. Defined.
#[export] Instance Serialize_Op : Serialize Op :=
  λ op, VString (match op with Upsert => "upsert" | Delete => "delete" end).

Inductive ConflictClass : Type := ServerAuthoritative | OwnerDraft | AppendOnly.
#[export] Instance ConflictClass_eq_dec : EqDecision ConflictClass.
Proof. solve_decision. Defined.
Definition accepts_commands (c : ConflictClass) : bool :=
  negb (match c with ServerAuthoritative => true | _ => false end).

Inductive Status : Type := Applied | Rejected | Superseded.
#[export] Instance Status_eq_dec : EqDecision Status.
Proof. solve_decision. Defined.
#[export] Instance Serialize_Status : Serialize Status :=
  λ s, VString (match s with Applied => "applied" | Rejected => "rejected" | Superseded => "superseded" end).

(** ** Structs *)

Module EntityRegistration.
Record t := mk {
  entity : EntityName.t;
  scope : ScopeId.t;
  conflict_class : ConflictClass;
  schema_version : SchemaVersion.t;
}.
End EntityRegistration.

Module Change.
Record t := mk {
  seq : Seq.t;
  entity : EntityName.t;
  entity_id : EntityId.t;
  op : Op;
  snapshot : option Snapshot;
  row_version : RowVersion.t;
  schema_version : SchemaVersion.t;
}.

Definition validate (c : t) : result () ProtocolError :=
  match op c, bool_decide (is_Some (snapshot c)) with
  | Upsert, false => Err (Inconsistent "op=upsert requires a snapshot")
  | Delete, true => Err (Inconsistent "op=delete must not carry a snapshot")
  | _, _ => Ok ()
  end.
End Change.

#[export] Instance Serialize_Change : Serialize Change.t := λ c,
  object_of ([("seq", to_value (Change.seq c));
              ("entity", VString (EntityName.as_str (Change.entity c)));
              ("entity_id", VString (EntityId.as_str (Change.entity_id c)));
              ("op", to_value (Change.op c))]
             ++ opt_field "snapshot" (to_value <$> Change.snapshot c)
             ++ [("row_version", json_u64 (RowVersion.get (Change.row_version c)));
                 ("schema_version", json_u64 (SchemaVersion.get (Change.schema_version c)))]).

(** [slice::windows(2)]. *)
Fixpoint windows2 {A} (l : list A) : list (A * A) :=
  match l with
  | x :: ((y :: _) as r) => (x, y) :: windows2 r
  | _ => []
  end.

Module Batch.
Record t := mk {
  scope : ScopeId.t;
  changes : list Change.t;
  next_cursor : Cursor.t;
  has_more : bool;
  checksum : HexString.t;
  digest : HexString.t;
}.

Definition validate_ordering (b : t) : result () ProtocolError :=
  let ordered :=
    forallb (λ w, Seq.get (Change.seq w.1) <? Seq.get (Change.seq w.2)) (windows2 (changes b)) in
  if ordered then Ok ()
  else Err (Inconsistent "changes must be strictly seq-ordered within a scope").
End Batch.

Module ScopeCursor.
Record t := mk { scope : ScopeId.t; cursor : Cursor.t }.
End ScopeCursor.

Module PullRequest.
Record t := mk {
  protocol : ProtocolVersion.t;
  scopes : list ScopeCursor.t;
  limit_bytes : option LimitBytes.t;
}.

Definition validate (r : t) : result () ProtocolError :=
  if (SCOPES_MAX_COUNT <? length (scopes r))%nat then
    Err (TooManyItems "scopes" (Z.of_nat SCOPES_MAX_COUNT) (Z.of_nat (length (scopes r))))
  else Ok ().
End PullRequest.

Module PullResponse.
Record t := mk { protocol : ProtocolVersion.t; batches : list Batch.t }.
End PullResponse.

Module BootstrapRequest.
Record t := mk { protocol : ProtocolVersion.t; scope : ScopeId.t; after : Cursor.t }.
End BootstrapRequest.

Module BootstrapResponse.
Record t := mk {
  protocol : ProtocolVersion.t;
  scope : ScopeId.t;
  changes : list Change.t;
  next_cursor : Cursor.t;
  has_more : bool;
  checksum : HexString.t;
  digest : HexString.t;
}.
End BootstrapResponse.

Module Command.
Record t := mk {
  id : CommandId.t;
  name : CommandName.t;
  scope : ScopeId.t;
  payload : Payload;
  client_ts : Z;
  checksum : HexString.t;
}.
End Command.

#[export] Instance Serialize_Command : Serialize Command.t := λ c,
  object_of [("id", to_value (Command.id c));
             ("name", VString (CommandName.as_str (Command.name c)));
             ("scope", VString (ScopeId.as_str (Command.scope c)));
             ("payload", to_value (Command.payload c));
             ("client_ts", json_i64 (Command.client_ts c));
             ("checksum", VString (HexString.as_str (Command.checksum c)))].

Module PushRequest.
Record t := mk { protocol : ProtocolVersion.t; commands : list Command.t }.

Definition validate `{Codec} (r : t) : result () ProtocolError :=
  if (COMMANDS_MAX_COUNT <? length (commands r))%nat then
    Err (TooManyItems "commands" (Z.of_nat COMMANDS_MAX_COUNT) (Z.of_nat (length (commands r))))
  else
  let? bytes := encoded_len (commands r) in
  if (COMMANDS_MAX_TOTAL_BYTES <? bytes)%N then
    Err (TooLong "commands" (Z.of_N COMMANDS_MAX_TOTAL_BYTES) (Z.of_N bytes))
  else Ok ().
End PushRequest.

Module CommandResult.
Record t := mk {
  id : CommandId.t;
  status : Status;
  reason : option Reason.t;
  server_seq : option Seq.t;
}.

Definition validate (r : t) : result () ProtocolError :=
  if bool_decide (status r = Rejected) && bool_decide (reason r = None) then
    Err (Inconsistent "status=rejected requires a reason")
  else Ok ().
End CommandResult.

Module PushResponse.
Record t := mk { protocol : ProtocolVersion.t; results : list CommandResult.t }.
End PushResponse.

Module ForcedUpgrade.
Record t := mk {
  min_protocol : ProtocolVersion.t;
  current_protocol : ProtocolVersion.t;
  reason : Reason.t;
}.
End ForcedUpgrade.

(** ** validated.rs: bounded sequences

    [raw] is one element of the input; [next_element::<T>()] decodes it with [decode],
    [next_element::<IgnoredAny>()] skips it with [skip], which can still meet malformed
    input. *)

Fixpoint visit_seq {raw T E} (decode : raw → result T E) (skip : raw → result () E)
    (too_many : E) (room : nat) (seq : list raw) : result (list T) E :=
  match room with
  | S room' =>
      match seq with
      | [] => Ok []
      | x :: rest =>
          let? item := decode x in
          let? out := visit_seq decode skip too_many room' rest in
          Ok (item :: out)
      end
  | O =>
      match seq with
      | [] => Ok []
      | x :: _ => try? skip x then Err too_many
      end
  end.

(** ** validated.rs: the mirrors. Decoding builds the mirror, then [try_from] validates. *)

Definition Change_try_from (seq : Seq.t) (entity : EntityName.t) (entity_id : EntityId.t) (op : Op)
    (snapshot : option Snapshot) (row_version : RowVersion.t) (schema_version : SchemaVersion.t)
    : result Change.t ProtocolError :=
  let change := Change.mk seq entity entity_id op snapshot row_version schema_version in
  try? Change.validate change then Ok change.

Definition Batch_try_from (scope : ScopeId.t) (changes : list Change.t) (next_cursor : Cursor.t)
    (has_more : bool) (checksum digest : HexString.t) : result Batch.t ProtocolError :=
  let batch := Batch.mk scope changes next_cursor has_more checksum digest in
  try? Batch.validate_ordering batch then Ok batch.

Definition CommandResult_try_from (id : CommandId.t) (status : Status) (reason : option Reason.t)
    (server_seq : option Seq.t) : result CommandResult.t ProtocolError :=
  let r := CommandResult.mk id status reason server_seq in
  try? CommandResult.validate r then Ok r.

(** The two bounded requests: the list field comes out of [visit_seq]. *)
Definition PushRequest_try_from `{Codec} (protocol : ProtocolVersion.t) (commands : list Command.t)
    : result PushRequest.t ProtocolError :=
  let r := PushRequest.mk protocol commands in
  try? PushRequest.validate r then Ok r.

Definition PullRequest_try_from (protocol : ProtocolVersion.t) (scopes : list ScopeCursor.t)
    (limit_bytes : option LimitBytes.t) : result PullRequest.t ProtocolError :=
  let r := PullRequest.mk protocol scopes limit_bytes in
  try? PullRequest.validate r then Ok r.

(** ** Specifications *)

(** The rule tying an operation to its snapshot. *)
Definition change_wf (c : Change.t) : Prop := Change.op c = Upsert ↔ is_Some (Change.snapshot c).

Definition seq_lt (a b : Change.t) : Prop := Seq.get (Change.seq a) < Seq.get (Change.seq b).
#[export] Instance seq_lt_dec : RelDecision seq_lt := λ a b, Z_lt_dec _ _.
#[export] Instance seq_lt_trans : Transitive seq_lt.
Proof. unfold seq_lt. intros ???; lia. Qed.

(** ** Facts *)

Lemma Change_validate_ok c : Change.validate c = Ok () ↔ change_wf c.
Proof.
  unfold Change.validate, change_wf.
  destruct (Change.op c), (decide (is_Some (Change.snapshot c))) as [Hs|Hs];
    (rewrite (bool_decide_eq_true_2 _ Hs) || rewrite (bool_decide_eq_false_2 _ Hs)); naive_solver.
Qed.

Lemma windows2_sorted {A} (R : A → A → Prop) `{!RelDecision R} l :
  forallb (λ w, bool_decide (R w.1 w.2)) (windows2 l) = true ↔ Sorted R l.
Proof.
  induction l as [|x [|y r] IH].
  - split; [by constructor|done].
  - split; [by repeat constructor|done].
  - change (windows2 (x :: y :: r)) with ((x, y) :: windows2 (y :: r)). cbn [forallb].
    rewrite andb_true_iff, IH, bool_decide_eq_true. simpl. split.
    + intros [? ?]. constructor; [done|by constructor].
    + inversion 1 as [|??? Hd]; subst. inversion Hd; subst. by split.
Qed.

(** Comparing neighbours is the whole order: every earlier change has a smaller [seq]. *)
Lemma validate_ordering_ok b :
  Batch.validate_ordering b = Ok () ↔ StronglySorted seq_lt (Batch.changes b).
Proof.
  assert (Hb : ∀ l, forallb (λ w, Seq.get (Change.seq w.1) <? Seq.get (Change.seq w.2)) l
      = forallb (λ w, bool_decide (seq_lt w.1 w.2)) l).
  { induction l as [|w l IH]; simpl; [done|]. rewrite IH. f_equal. unfold seq_lt.
    destruct (Z.ltb_spec (Seq.get (Change.seq w.1)) (Seq.get (Change.seq w.2)));
      [by rewrite bool_decide_eq_true_2|rewrite bool_decide_eq_false_2; [done|lia]]. }
  pose proof (windows2_sorted seq_lt (Batch.changes b)) as Heq. rewrite <- Hb in Heq.
  unfold Batch.validate_ordering. split.
  - intros H. apply Sorted_StronglySorted; [apply _|]. apply Heq.
    by destruct (forallb _ _).
  - intros H%StronglySorted_Sorted%Heq. by rewrite H.
Qed.

Lemma CommandResult_validate_ok r :
  CommandResult.validate r = Ok () ↔
  (CommandResult.status r = Rejected → is_Some (CommandResult.reason r)).
Proof.
  unfold CommandResult.validate.
  destruct (decide (CommandResult.status r = Rejected)) as [Hs|Hs];
    [rewrite (bool_decide_eq_true_2 _ Hs)|rewrite (bool_decide_eq_false_2 _ Hs)]; simpl; [|naive_solver].
  destruct (CommandResult.reason r) eqn:E; simpl; [by eauto|].
  split; [done|]. intros H. destruct (H Hs). done.
Qed.

(** Decoding through a mirror: the value is accepted exactly when the rule holds, and it is
    the fields unchanged. *)
Lemma try_from_ok {A} (v : A) (m : result () ProtocolError) r :
  (try? m then Ok v) = Ok r ↔ r = v ∧ m = Ok ().
Proof. destruct m as [[]|]; simpl; naive_solver. Qed.

Lemma visit_seq_le {raw T E} (decode : raw → result T E) skip too_many room l :
  (length l ≤ room)%nat → visit_seq decode skip too_many room l = res_mapM decode l.
Proof.
  revert room; induction l as [|x l IH]; intros [|room] Hlen; simpl in *; try done; [lia|].
  by rewrite IH by lia.
Qed.

(** Past the limit only the first extra element is looked at, and it is skipped. *)
Lemma visit_seq_over {raw T E} (decode : raw → result T E) skip too_many room l x rest :
  length l = room →
  visit_seq decode skip too_many room (l ++ x :: rest) =
    (try? res_mapM decode l then try? skip x then Err too_many).
Proof.
  intros <-. induction l as [|y l IH]; simpl; [done|].
  destruct (decode y); simpl; [|done]. rewrite IH.
  destruct (res_mapM decode l); simpl; [|done]. by destruct (skip x).
Qed.
