(* ===== verification/Integrity.v ===== *)
(** * Integrity: checksums and the order-independent scope digest
    (credsync-protocol/src/integrity.rs).

    The two hash functions are third-party code: [Hashes] is their interface and
    [HashLaws] what their types promise (xxh3 returns a [u128], BLAKE3 32 bytes). Nothing
    here assumes that they do not collide. *)

From S2P Require Import Prelude Errors Nums Ids Json.
From stdpp Require Import options.

Class Hashes : Type := {
  xxh3_128 : bytes → Z;
  blake3_hash : bytes → bytes;
}.

Class HashLaws `{Hashes} : Prop := {
  xxh3_range l : 0 ≤ xxh3_128 l < u128_mod;
  blake3_length l : length (blake3_hash l) = 32%nat;
  blake3_bytes l : Forall is_byte (blake3_hash l);
}.

(** ** Hexadecimal *)

Definition nibble (v : Z) : Z := if (0 <=? v) && (v <=? 9) then 48 + v else 97 + v - 10.

Definition hex_chars (v : Z) : bytes :=
  flat_map (λ byte, [nibble (Z.shiftr byte 4); nibble (Z.land byte 15)]) (be_bytes 16 v).

(** Stands for the panic of [unreachable!]; it is not a valid [HexString]. *)
Definition hex_unreachable : HexString.t := HexString.mk "".

Definition hex_u128 (v : Z) : HexString.t :=
  unwrap_or (HexString.new (from_bytes (hex_chars v)))
    (unwrap_or (HexString.new "00") hex_unreachable).

(** [u128::from_str_radix(s, 16)]: an optional sign, at least one digit of either case, and
    an overflow check. *)
Definition hex_value (b : Z) : option Z :=
  if (48 <=? b) && (b <=? 57) then Some (b - 48)
  else if (97 <=? b) && (b <=? 102) then Some (b - 87)
  else if (65 <=? b) && (b <=? 70) then Some (b - 55)
  else None.
Fixpoint radix16_loop (acc : Z) (l : bytes) : option Z :=
  match l with
  | [] => Some acc
  | b :: r =>
      n ← hex_value b;
      let acc' := acc * 16 + n in
      if acc' <? u128_mod then radix16_loop acc' r else None
  end.
Definition u128_from_str_radix_16 (s : string) : option Z :=
  match as_bytes s with
  | [] => None
  | b :: r =>
      if b =? 43 then match r with [] => None | _ => radix16_loop 0 r end
      else radix16_loop 0 (b :: r)
  end.

Section integrity.
Context `{Hashes}.

(** ** Checksums *)

Definition checksum_bytes (b : bytes) : HexString.t := hex_u128 (xxh3_128 b).

Definition checksum `{Codec} {T} `{Serialize T} (value : T) : result HexString.t ProtocolError :=
  let? b := to_vec value in Ok (checksum_bytes b).

Definition payload_checksum_bytes (b : bytes) : HexString.t :=
  let full := blake3_hash b in
  let truncated := take 16 full in
  hex_u128 (from_be truncated).

Definition payload_checksum `{Codec} {T} `{Serialize T} (value : T)
    : result HexString.t ProtocolError :=
  let? b := to_vec value in Ok (payload_checksum_bytes b).

(** ** The per-row hash *)

Definition row_bytes (entity : EntityName.t) (entity_id : EntityId.t) (row_version : RowVersion.t)
    : bytes :=
  let e := as_bytes (EntityName.as_str entity) in
  let i := as_bytes (EntityId.as_str entity_id) in
  be_bytes 8 (Z.of_nat (length e)) ++ e ++ be_bytes 8 (Z.of_nat (length i)) ++ i
    ++ be_bytes 8 (RowVersion.get row_version).

Definition row_hash (entity : EntityName.t) (entity_id : EntityId.t) (row_version : RowVersion.t)
    : Z := xxh3_128 (row_bytes entity entity_id row_version).
End integrity.

(** ** [ScopeDigest] *)

Module ScopeDigest.
Record t := mk { raw : Z }.
#[global] Instance eq_dec : EqDecision t.
Proof. solve_decision. Defined.
Definition wf (d : t) : Prop := 0 ≤ raw d < u128_mod.
Definition EMPTY : t := mk 0.
Definition from_raw (v : Z) : t := mk v.
Definition to_hex (d : t) : HexString.t := hex_u128 (raw d).

Section digest.
Context `{Hashes}.
Definition add (d : t) (e : EntityName.t) (i : EntityId.t) (v : RowVersion.t) : t :=
  mk (u128_wrapping_add (raw d) (row_hash e i v)).
Definition remove (d : t) (e : EntityName.t) (i : EntityId.t) (v : RowVersion.t) : t :=
  mk (u128_wrapping_sub (raw d) (row_hash e i v)).
Definition update (d : t) (e : EntityName.t) (i : EntityId.t) (from to : RowVersion.t) : t :=
  add (remove d e i from) e i to.
Definition from_rows (rows : list (EntityName.t * EntityId.t * RowVersion.t)) : t :=
  fold_left (λ d '(e, i, v), add d e i v) rows EMPTY.
End digest.
End ScopeDigest.

(** ** Specification: the digest of a set of live rows

    The rows of one scope, each at its version. [map_digest] is what both sides promise
    their incremental digest equals. *)

Abbreviation RowKey := (EntityName.t * EntityId.t)%type.
Abbreviation LiveRows := (gmap RowKey RowVersion.t).

Definition map_digest `{Hashes} (m : LiveRows) : ScopeDigest.t :=
  ScopeDigest.from_rows ((λ '(e, i, v), (e, i, v)) <$> map_to_list m).

(** ** Facts: hexadecimal *)

Lemma nibble_hex_digit n : 0 ≤ n < 16 → nibble n = hex_digit n.
Proof. unfold nibble, hex_digit. intros ?. ztests; simpl; lia. Qed.

Lemma hex_value_digit n : 0 ≤ n < 16 → hex_value (hex_digit n) = Some n.
Proof.
  intros Hn. unfold hex_value, hex_digit. ztests; simpl; try lia; f_equal; lia.
Qed.

Lemma hex_chars_digits v :
  hex_chars v = flat_map (λ b, [hex_digit (b / 16); hex_digit (b mod 16)]) (be_bytes 16 v).
Proof.
  unfold hex_chars. generalize (be_bytes_range 16 v). generalize (be_bytes 16 v) as l.
  induction 1 as [|b l Hb _ IH]; simpl; [done|]. rewrite IH.
  destruct (byte_nibbles b Hb). rewrite shiftr_4.
  change 15 with (Z.ones 4). rewrite Z.land_ones by lia. change (2 ^ 4) with 16.
  by rewrite !nibble_hex_digit.
Qed.

Lemma hex_pairs_spec l (f := λ b, [hex_digit (b / 16); hex_digit (b mod 16)]) :
  Forall is_byte l →
  Forall is_byte (flat_map f l) ∧ Forall (λ b, is_lower_hex b = true) (flat_map f l) ∧
  length (flat_map f l) = (2 * length l)%nat.
Proof.
  induction 1 as [|b l Hb _ (IH1 & IH2 & IH3)]; [done|].
  destruct (byte_nibbles b Hb). cbn [flat_map app length f]. rewrite IH3. split_and!; [..|lia].
  - constructor; [by apply hex_digit_is_byte|]. constructor; [by apply hex_digit_is_byte|done].
  - constructor; [by apply hex_digit_lower|]. constructor; [by apply hex_digit_lower|done].
Qed.

Lemma hex_chars_spec v :
  Forall is_byte (hex_chars v) ∧ Forall (λ b, is_lower_hex b = true) (hex_chars v) ∧
  length (hex_chars v) = 32%nat.
Proof.
  rewrite hex_chars_digits. pose proof (hex_pairs_spec _ (be_bytes_range 16 v)) as Hp.
  by rewrite length_be_bytes in Hp.
Qed.

(** The constructor always accepts the 32 characters: the fallback is never taken. *)
Lemma hex_u128_new v :
  HexString.new (from_bytes (hex_chars v)) = Ok (hex_u128 v) ∧
  hex_u128 v = HexString.mk (from_bytes (hex_chars v)) ∧ HexString.wf (hex_u128 v).
Proof.
  destruct (hex_chars_spec v) as (Hb & Hl & Hn).
  assert (Hwf : HexString.wf (HexString.mk (from_bytes (hex_chars v)))).
  { unfold HexString.wf. cbn [HexString.as_str]. rewrite <- length_as_bytes, as_from_bytes by done. by split. }
  assert (HexString.new (from_bytes (hex_chars v)) = Ok (HexString.mk (from_bytes (hex_chars v)))) as E.
  { unfold HexString.new. by apply HexString_new_named_ok. }
  unfold hex_u128. rewrite E. by cbn [unwrap_or].
Qed.

Lemma radix16_step acc n r :
  0 ≤ n < 16 → acc * 16 + n < u128_mod →
  radix16_loop acc (hex_digit n :: r) = radix16_loop (acc * 16 + n) r.
Proof.
  intros Hn Hacc. cbn [radix16_loop]. rewrite hex_value_digit by done. cbn [mbind option_bind].
  by apply Z.ltb_lt in Hacc as ->.
Qed.

Lemma radix16_pairs l acc :
  Forall is_byte l → 0 ≤ acc → (acc + 1) * 256 ^ Z.of_nat (length l) ≤ u128_mod →
  radix16_loop acc (flat_map (λ b, [hex_digit (b / 16); hex_digit (b mod 16)]) l) =
    Some (acc * 256 ^ Z.of_nat (length l) + from_be l).
Proof.
  intros Hl. revert acc. induction Hl as [|b l Hb Hl IH]; intros acc Hacc Hmax.
  - simpl. f_equal. change (from_be []) with 0. lia.
  - cbn [length] in *. rewrite Nat2Z.inj_succ, Z.pow_succ_r in * by lia.
    destruct (byte_nibbles b Hb). unfold is_byte in Hb. cbn [flat_map app].
    assert (0 < 256 ^ Z.of_nat (length l)) by (apply Z.pow_pos_nonneg; lia).
    assert (Hb16 : b = 16 * (b / 16) + b mod 16) by (apply Z.div_mod; lia).
    rewrite !radix16_step by nia.
    replace ((acc * 16 + b / 16) * 16 + b mod 16) with (acc * 256 + b) by lia.
    rewrite IH; [|nia..]. rewrite from_be_cons. apply (f_equal Some). ring.
Qed.

(** Reading back the hexadecimal form. *)
Lemma from_str_radix_hex v :
  0 ≤ v < u128_mod → u128_from_str_radix_16 (HexString.as_str (hex_u128 v)) = Some v.
Proof.
  intros Hv. destruct (hex_u128_new v) as (_ & -> & _). cbn [HexString.as_str].
  unfold u128_from_str_radix_16. destruct (hex_chars_spec v) as (Hb & _ & _).
  rewrite as_from_bytes by done. rewrite hex_chars_digits.
  transitivity (radix16_loop 0 (flat_map (λ b, [hex_digit (b / 16); hex_digit (b mod 16)]) (be_bytes 16 v))).
  - cbn [be_bytes flat_map app]. set (b := (v / _) mod 256).
    assert ((hex_digit (b / 16) =? 43) = false) as ->; [|done].
    destruct (byte_nibbles b) as [? _]; [apply Z.mod_pos_bound; lia|].
    unfold hex_digit. ztests; lia.
  - rewrite radix16_pairs; [|apply be_bytes_range|done|by rewrite length_be_bytes].
    rewrite from_be_be_bytes. f_equal. apply Z.mod_small.
    change (256 ^ Z.of_nat 16) with u128_mod. lia.
Qed.

(** What is read is a 128-bit number, whatever the text. *)
Lemma from_str_radix_range s v : u128_from_str_radix_16 s = Some v → 0 ≤ v < u128_mod.
Proof.
  assert (Hloop : ∀ l acc, 0 ≤ acc < u128_mod → radix16_loop acc l = Some v → 0 ≤ v < u128_mod).
  { induction l as [|b l IH]; intros acc Hacc; [by intros [= <-]|]. cbn [radix16_loop].
    destruct (hex_value b) as [n|] eqn:Hn; [|done]. cbn [mbind option_bind].
    assert (0 ≤ n) by (unfold hex_value in Hn; ztests; naive_solver lia).
    destruct (Z.ltb_spec (acc * 16 + n) u128_mod); [|done]. apply IH. nia. }
  unfold u128_from_str_radix_16. destruct (as_bytes s) as [|b r]; [done|].
  destruct (b =? 43); [destruct r; [done|]|]; by apply Hloop.
Qed.

(** ** Facts: the row hash *)

(** The hashed bytes determine the row: the length prefixes keep the fields apart. *)
Lemma row_bytes_inj e i v e' i' v' :
  EntityName.wf e → EntityName.wf e' → EntityId.wf i → EntityId.wf i' →
  RowVersion.wf v → RowVersion.wf v' →
  row_bytes e i v = row_bytes e' i' v' → e = e' ∧ i = i' ∧ v = v'.
Proof.
  destruct e as [e], e' as [e'], i as [i], i' as [i'], v as [v], v' as [v'].
  unfold EntityName.wf, EntityId.wf, bounded_string_wf, RowVersion.wf, row_bytes,
    ENTITY_MAX_BYTES, ENTITY_ID_MAX_BYTES, SEQ_MIN, SEQ_MAX, i64_max.
  cbn [EntityName.as_str EntityId.as_str RowVersion.get].
  rewrite <- !length_as_bytes. intros [He _] [He' _] [Hi _] [Hi' _] Hv Hv' Heq.
  assert (Hlen : ∀ a b, 0 ≤ a < 2 ^ 64 → 0 ≤ b < 2 ^ 64 → be_bytes 8 a = be_bytes 8 b → a = b).
  { intros a b ??. by apply be_bytes_inj. }
  apply app_inj_1 in Heq as [Hel Heq]; [|by rewrite !length_be_bytes].
  apply Hlen in Hel; [|lia..].
  apply app_inj_1 in Heq as [Hes Heq]; [|lia].
  apply app_inj_1 in Heq as [Hil Heq]; [|by rewrite !length_be_bytes].
  apply Hlen in Hil; [|lia..].
  apply app_inj_1 in Heq as [His Heq]; [|lia].
  apply Hlen in Heq; [|lia..].
  apply (inj as_bytes) in Hes, His. by subst.
Qed.

(** ** Facts: the scope digest *)

Section digest_facts.
Context `{HashLaws}.

Lemma row_hash_range e i v : 0 ≤ row_hash e i v < u128_mod.
Proof using Type*. apply xxh3_range. Qed.

Lemma wrapping_range z : 0 ≤ z mod u128_mod < u128_mod.
Proof. apply Z.mod_pos_bound. reflexivity. Qed.

Lemma digest_add_wf d e i v : ScopeDigest.wf (ScopeDigest.add d e i v).
Proof. apply wrapping_range. Qed.
Lemma digest_remove_wf d e i v : ScopeDigest.wf (ScopeDigest.remove d e i v).
Proof. apply wrapping_range. Qed.

Lemma digest_add_comm d e i v e' i' v' :
  ScopeDigest.add (ScopeDigest.add d e i v) e' i' v' =
  ScopeDigest.add (ScopeDigest.add d e' i' v') e i v.
Proof.
  unfold ScopeDigest.add, u128_wrapping_add. simpl. f_equal.
  rewrite !Z.add_mod_idemp_l by done. f_equal. lia.
Qed.

Lemma digest_add_remove d e i v :
  ScopeDigest.wf d → ScopeDigest.remove (ScopeDigest.add d e i v) e i v = d.
Proof.
  intros Hd. destruct d as [z]. unfold ScopeDigest.remove, ScopeDigest.add, u128_wrapping_add,
    u128_wrapping_sub. simpl. f_equal. rewrite Zminus_mod_idemp_l.
  rewrite Z.add_simpl_r. by apply Z.mod_small.
Qed.

Lemma digest_remove_add d e i v :
  ScopeDigest.wf d → ScopeDigest.add (ScopeDigest.remove d e i v) e i v = d.
Proof.
  intros Hd. destruct d as [z]. unfold ScopeDigest.remove, ScopeDigest.add, u128_wrapping_add,
    u128_wrapping_sub. simpl. f_equal. rewrite Z.add_mod_idemp_l by done.
  rewrite Z.sub_add. by apply Z.mod_small.
Qed.

Lemma digest_add_remove_comm d e i v e' i' v' :
  ScopeDigest.remove (ScopeDigest.add d e i v) e' i' v' =
  ScopeDigest.add (ScopeDigest.remove d e' i' v') e i v.
Proof.
  unfold ScopeDigest.remove, ScopeDigest.add, u128_wrapping_add, u128_wrapping_sub. simpl. f_equal.
  rewrite Zminus_mod_idemp_l, Z.add_mod_idemp_l by done. f_equal. lia.
Qed.

Lemma fold_add_perm (f := λ d '(e, i, v), ScopeDigest.add d e i v) l l' d :
  l ≡ₚ l' → fold_left f l d = fold_left f l' d.
Proof.
  intros Hp. revert d. induction Hp as [|x l l' _ IH|x y l|l1 l2 l3 _ IH1 _ IH2]; intros d; simpl; auto.
  - destruct x as [[??]?], y as [[??]?]. simpl. by rewrite digest_add_comm.
  - by rewrite IH1.
Qed.

Lemma from_rows_perm l l' : l ≡ₚ l' → ScopeDigest.from_rows l = ScopeDigest.from_rows l'.
Proof. apply fold_add_perm. Qed.

Lemma fold_add_wf l d (f := λ d '(e, i, v), ScopeDigest.add d e i v) :
  ScopeDigest.wf d → ScopeDigest.wf (fold_left f l d).
Proof.
  revert d. induction l as [|[[e i] v] l IH]; intros d Hd; simpl; [done|].
  apply IH. apply digest_add_wf.
Qed.

Lemma from_rows_wf l : ScopeDigest.wf (ScopeDigest.from_rows l).
Proof. by apply fold_add_wf. Qed.

Lemma fold_add_out l d e i v (f := λ d '(e, i, v), ScopeDigest.add d e i v) :
  fold_left f l (ScopeDigest.add d e i v) = ScopeDigest.add (fold_left f l d) e i v.
Proof.
  revert d. induction l as [|[[e' i'] v'] l IH]; intros d; simpl; [done|].
  by rewrite digest_add_comm, IH.
Qed.

Lemma from_rows_cons e i v l :
  ScopeDigest.from_rows ((e, i, v) :: l) = ScopeDigest.add (ScopeDigest.from_rows l) e i v.
Proof. apply (fold_add_out l ScopeDigest.EMPTY). Qed.

(** The three ways a set of live rows changes, and what the digest does. *)
Lemma map_digest_empty : map_digest ∅ = ScopeDigest.EMPTY.
Proof. unfold map_digest. by rewrite map_to_list_empty. Qed.

Lemma map_digest_wf m : ScopeDigest.wf (map_digest m).
Proof. apply from_rows_wf. Qed.

Lemma map_digest_insert_fresh (m : LiveRows) e i v :
  m !! (e, i) = None → map_digest (<[(e, i) := v]> m) = ScopeDigest.add (map_digest m) e i v.
Proof.
  intros Hm. unfold map_digest. rewrite <- from_rows_cons. apply from_rows_perm.
  by rewrite map_to_list_insert.
Qed.

Lemma map_digest_delete (m : LiveRows) e i v :
  m !! (e, i) = Some v → map_digest (delete (e, i) m) = ScopeDigest.remove (map_digest m) e i v.
Proof.
  intros Hm. rewrite <- (insert_delete_id m (e, i) v) at 2 by done.
  rewrite map_digest_insert_fresh by apply lookup_delete_eq.
  by rewrite digest_add_remove by apply map_digest_wf.
Qed.

Lemma map_digest_update (m : LiveRows) e i v v' :
  m !! (e, i) = Some v →
  map_digest (<[(e, i) := v']> m) = ScopeDigest.update (map_digest m) e i v v'.
Proof.
  intros Hm. unfold ScopeDigest.update. rewrite <- map_digest_delete by done.
  rewrite <- map_digest_insert_fresh by apply lookup_delete_eq. by rewrite insert_delete_eq.
Qed.

(** Adding a row a second time never cancels the first: it gives back the earlier digest
    only for the single hash value 2^127. *)
Lemma digest_no_cancel d e i v :
  ScopeDigest.wf d → ScopeDigest.add (ScopeDigest.add d e i v) e i v = d →
  row_hash e i v = 0 ∨ row_hash e i v = 2 ^ 127.
Proof using Type*.
  destruct d as [z]. unfold ScopeDigest.add, ScopeDigest.wf, u128_wrapping_add. simpl.
  intros Hz [= Heq]. pose proof (row_hash_range e i v) as Hr. revert Heq Hr. unfold u128_mod in *.
  generalize (row_hash e i v) as h. intros h Heq Hr. rewrite Z.add_mod_idemp_l in Heq by done.
  pose proof (Z.div_mod (z + h + h) (2 ^ 128)) as Hdm. rewrite Heq in Hdm.
  set (q := (z + h + h) / 2 ^ 128) in *. change (2 ^ 128) with (2 * 2 ^ 127) in *.
  assert (2 * h = 2 * 2 ^ 127 * q) by lia. assert (0 ≤ q < 2) by nia.
  assert (q = 0 ∨ q = 1) as [->| ->] by lia; lia.
Qed.
End digest_facts.

#[export] Hint Resolve @digest_add_wf @digest_remove_wf @map_digest_wf : cred.
