(* ===== verification/Core.v ===== *)
(** * Core: the small types of credsync-core (types.rs, error.rs, effect.rs, event.rs, wire.rs,
    scope.rs, conflict.rs). *)

From S2P Require Import Prelude Errors Nums Ids Json Wire Integrity.
From stdpp Require Import options.

(** ** types.rs: an [i64] of Unix milliseconds, saturating at both ends *)

Module Timestamp.
Record t := from_millis { as_millis : Z }.
Definition wf (x : t) : Prop := i64_min ≤ as_millis x ≤ i64_max.
Definition saturating_add_millis (x : t) (ms : Z) : t :=
  from_millis (i64_saturate (as_millis x + ms)).
Definition millis_until (x later : t) : Z := i64_saturate (as_millis later - as_millis x).
End Timestamp.

Module RequestId.
Record t := new { get : Z }.
#[global] Instance eq_dec : EqDecision t.
Proof. solve_decision. Defined.
End RequestId.

(** ** error.rs *)

Inductive StorageError : Type :=
| Transient (detail : string)
| Corrupt (detail : string).
#[export] Instance StorageError_eq_dec : EqDecision StorageError.
Proof. solve_decision. Defined.
Definition StorageError_display (e : StorageError) : string :=
  match e with
  | Transient detail => "storage transient: " +:+ detail
  | Corrupt detail => "storage corrupt: " +:+ detail
  end.

Inductive TransportError : Type :=
| Unreachable (detail : string)
| HttpStatus (code : Z) (body : option bytes)
| MalformedResponse (detail : string).
Definition TransportError_display (e : TransportError) : string :=
  match e with
  | Unreachable detail => "transport unreachable: " +:+ detail
  | HttpStatus code _ => "transport status: " +:+ show code
  | MalformedResponse detail => "transport malformed: " +:+ detail
  end.

(** ** wire.rs and event.rs *)

Inductive WireRequest : Type :=
| Bootstrap (r : BootstrapRequest.t)
| Pull (r : PullRequest.t)
| Push (r : PushRequest.t).

Inductive WireResponse : Type :=
| BootstrapResp (r : BootstrapResponse.t)
| PullResp (r : PullResponse.t)
| PushResp (r : PushResponse.t)
| UpgradeRequiredResp (r : ForcedUpgrade.t).

Inductive Event : Type :=
| Tick (now : Timestamp.t)
| SyncRequested
| ConnectivityChanged (online : bool)
| TransportResponse (id : RequestId.t) (r : result WireResponse TransportError).

(** ** effect.rs *)

Inductive Telemetry : Type :=
| RowQuarantined (entity : EntityName.t) (entity_id : EntityId.t)
    (schema_version : SchemaVersion.t) (reason : string)
| ScopeUnhealable (scope : ScopeId.t) (attempts : Z)
| UpgradeRequired (min_protocol current_protocol : ProtocolVersion.t) (reason : Reason.t)
    (queued : nat)
| CommandHeld (command : CommandId.t) (authored_under : SchemaVersion.t) (reason : string)
| ScopeDiverged (scope : ScopeId.t) (client server : HexString.t).

Inductive Effect : Type :=
| ScheduleRetry (at_ : Timestamp.t)
| Emit (t : Telemetry).

(** ** scope.rs *)

Module ScopeState.
Record t := restored { cursor : Cursor.t; digest : ScopeDigest.t }.
Definition NEW : t := restored Cursor.START ScopeDigest.EMPTY.
End ScopeState.

Inductive ScopeHealth : Type :=
| Healthy
| Tainted (attempts : Z)
| Healed (attempts : Z)
| Unhealable (attempts : Z).
#[export] Instance ScopeHealth_eq_dec : EqDecision ScopeHealth.
Proof. solve_decision. Defined.

Definition is_healthy (h : ScopeHealth) : bool :=
  match h with Healthy | Healed _ => true | _ => false end.
Definition needs_rebootstrap (h : ScopeHealth) : bool :=
  match h with Tainted _ => true | _ => false end.
Definition attempts (h : ScopeHealth) : Z :=
  match h with
  | Healthy => 0
  | Tainted a | Healed a | Unhealable a => a
  end.

(** ** conflict.rs *)

Inductive Lww : Type := Incoming | Stored | Tie.
Definition incoming_wins (l : Lww) : bool := match l with Incoming => true | _ => false end.
Definition lww_winner (incoming stored : RowVersion.t) : Lww :=
  match RowVersion.get incoming ?= RowVersion.get stored with
  | Gt => Incoming
  | Lt => Stored
  | Eq => Tie
  end.

(** ** Facts *)

(** Time arithmetic never leaves the range of an [i64], and is exact inside it. *)
Lemma i64_saturate_range z : i64_min ≤ i64_saturate z ≤ i64_max.
Proof. unfold i64_saturate, i64_min, i64_max. lia. Qed.

Lemma i64_saturate_exact z : i64_min ≤ z ≤ i64_max → i64_saturate z = z.
Proof. unfold i64_saturate. lia. Qed.

Lemma saturating_add_mono x ms :
  Timestamp.wf x → 0 ≤ ms →
  Timestamp.as_millis x ≤ Timestamp.as_millis (Timestamp.saturating_add_millis x ms).
Proof.
  unfold Timestamp.wf, Timestamp.saturating_add_millis, i64_saturate, i64_min, i64_max. simpl. lia.
Qed.

(** Last-write-wins is antisymmetric: the two sides of one conflict agree on the winner. *)
Lemma lww_winner_flip a b :
  (lww_winner a b = Incoming ↔ lww_winner b a = Stored) ∧
  (lww_winner a b = Tie ↔ a = b).
Proof.
  destruct a as [a], b as [b]. unfold lww_winner. simpl. rewrite (Z.compare_antisym a b).
  destruct (Z.compare_spec a b); simpl; split; split; intros; simplify_eq; try done; lia.
Qed.
