(* ===== verification/Registry.v ===== *)
(** * Registry: which entities exist and what a command may target
    (credsync-core/src/registry.rs). *)

From S2P Require Import Prelude Errors Nums Ids Json Wire.
From stdpp Require Import options.

Module RegistryError.
Inductive t : Type :=
| UnknownCommand (name : CommandName.t)
| UnknownEntity (entity : EntityName.t)
| ServerAuthoritative (entity : EntityName.t).
Definition display (e : t) : string :=
  match e with
  | UnknownCommand name =>
      "command '" +:+ CommandName.as_str name +:+ "' is not registered, so its target is unknown"
  | UnknownEntity entity => "entity '" +:+ EntityName.as_str entity +:+ "' is not registered"
  | ServerAuthoritative entity =>
      "entity '" +:+ EntityName.as_str entity +:+ "' is server-authoritative and accepts no commands"
  end.
End RegistryError.

Record Registry := MkRegistry {
  reg_entities : gmap EntityName.t EntityRegistration.t;
  reg_commands : gmap CommandName.t EntityName.t;
}.

Definition Registry_new : Registry := MkRegistry ∅ ∅.

Definition register_entity (registration : EntityRegistration.t) (r : Registry) : Registry :=
  MkRegistry (<[EntityRegistration.entity registration := registration]> (reg_entities r))
    (reg_commands r).

Definition register_command (name : CommandName.t) (entity : EntityName.t) (r : Registry) : Registry :=
  MkRegistry (reg_entities r) (<[name := entity]> (reg_commands r)).

Definition entity (r : Registry) (e : EntityName.t) : option EntityRegistration.t :=
  reg_entities r !! e.
Definition schema_version_of (r : Registry) (e : EntityName.t) : option SchemaVersion.t :=
  EntityRegistration.schema_version <$> reg_entities r !! e.
Definition class_of (r : Registry) (e : EntityName.t) : option ConflictClass :=
  EntityRegistration.conflict_class <$> reg_entities r !! e.
Definition target_of (r : Registry) (name : CommandName.t) : option EntityName.t :=
  reg_commands r !! name.

(** [BTreeMap::values]: in name order. *)
Definition entities (r : Registry) : list EntityRegistration.t :=
  snd <$> sort_by_key (λ kv, EntityName.as_str (fst kv)) (map_to_list (reg_entities r)).

Definition check_command (r : Registry) (command : Command.t) : result EntityName.t RegistryError.t :=
  let? entity := ok_or (reg_commands r !! Command.name command)
                   (RegistryError.UnknownCommand (Command.name command)) in
  let? registration := ok_or (reg_entities r !! entity) (RegistryError.UnknownEntity entity) in
  if negb (accepts_commands (EntityRegistration.conflict_class registration)) then
    Err (RegistryError.ServerAuthoritative entity)
  else Ok entity.

(** Every entry is filed under its own entity, as [register_entity] does. *)
Definition registry_wf (r : Registry) : Prop :=
  map_Forall (λ k reg, EntityRegistration.entity reg = k) (reg_entities r).

(** ** Facts *)

Lemma Registry_new_wf : registry_wf Registry_new.
Proof. apply map_Forall_empty. Qed.

Lemma register_entity_wf reg r : registry_wf r → registry_wf (register_entity reg r).
Proof. intros. by apply map_Forall_insert_2. Qed.

Lemma register_command_wf n e r : registry_wf r → registry_wf (register_command n e r).
Proof. done. Qed.

Lemma entities_elem r reg : registry_wf r →
  reg ∈ entities r ↔ reg_entities r !! EntityRegistration.entity reg = Some reg.
Proof.
  intros Hwf. unfold entities. rewrite list_elem_of_fmap. split.
  - intros [[k v] [-> Hin]]. simpl. unfold sort_by_key in Hin. rewrite merge_sort_Permutation in Hin.
    apply elem_of_map_to_list in Hin. by rewrite (Hwf _ _ Hin).
  - intros Hl. exists (EntityRegistration.entity reg, reg). split; [done|].
    unfold sort_by_key. rewrite merge_sort_Permutation. by apply elem_of_map_to_list.
Qed.

(** A command is let through exactly when it is declared, its target is declared, and that
    target is not pull-only. *)
Lemma check_command_ok r c e :
  check_command r c = Ok e ↔
  target_of r (Command.name c) = Some e ∧
  ∃ class, class_of r e = Some class ∧ class ≠ ServerAuthoritative.
Proof.
  unfold check_command, target_of, class_of, ok_or, res_bind.
  destruct (reg_commands r !! Command.name c) as [e'|]; [|naive_solver].
  destruct (reg_entities r !! e') as [reg|] eqn:E.
  - assert (Hacc : accepts_commands (EntityRegistration.conflict_class reg) = true ↔
      EntityRegistration.conflict_class reg ≠ ServerAuthoritative).
    { by destruct (EntityRegistration.conflict_class reg). }
    destruct (accepts_commands _); simpl; split.
    + intros [= <-]. split; [done|]. rewrite E. simpl. eexists. split; [done|]. by apply Hacc.
    + intros ([= ->] & _). done.
    + done.
    + intros ([= ->] & class & Hcl & Hne). rewrite E in Hcl. injection Hcl as <-.
      by apply Hacc in Hne.
  - split; [done|]. intros ([= ->] & class & Hcl & _). by rewrite E in Hcl.
Qed.
