(* ===== verification/Migrate.v ===== *)
(** * Migrate: the chain of single-step schema migrations (credsync-core/src/migrate.rs).

    The host registers functions; the model stores them as they are registered, one per
    [(entity, from_version)]. The specification is [chain]: the relation that runs the
    registered steps one version at a time. *)

From S2P Require Import Prelude Errors Nums Ids Json.
From stdpp Require Import options.

Abbreviation MigrationFn := (Value → result Value string).

Module MigrationError.
Inductive t : Type :=
| NoPath (entity : EntityName.t) (stuck_at target : Z)
| Failed (entity : EntityName.t) (from to : Z) (reason : string)
| Invalid (entity : EntityName.t) (detail : string)
| Backward (from to : Z).
Definition display (e : t) : string :=
  match e with
  | NoPath entity stuck_at target =>
      "no registered migration for " +:+ EntityName.as_str entity +:+ " from schema "
        +:+ show stuck_at +:+ ", needed to reach " +:+ show target
  | Failed entity from to reason =>
      "migrating " +:+ EntityName.as_str entity +:+ " from " +:+ show from +:+ " to "
        +:+ show to +:+ " failed: " +:+ reason
  | Invalid entity detail =>
      "the migrated " +:+ EntityName.as_str entity +:+ " document is invalid: " +:+ detail
  | Backward from to =>
      "refused to migrate backward, from " +:+ show from +:+ " to " +:+ show to
  end.
End MigrationError.

Record Migrations := MkMigrations { steps : gmap (EntityName.t * Z) MigrationFn }.

Definition Migrations_new : Migrations := MkMigrations ∅.

Definition register (m : Migrations) (entity : EntityName.t) (from : SchemaVersion.t)
    (f : MigrationFn) : Migrations :=
  MkMigrations (<[(entity, SchemaVersion.get from) := f]> (steps m)).

Definition has_any (m : Migrations) (entity : EntityName.t) : bool :=
  existsb (λ kf, bool_decide (kf.1.1 = entity)) (map_to_list (steps m)).

(** The range [from..to]. *)
Definition versions (from to : Z) : list Z := seqZ from (to - from).

Fixpoint plan_loop (m : Migrations) (entity : EntityName.t) (target : Z) (vs : list Z)
    : result () MigrationError.t :=
  match vs with
  | [] => Ok ()
  | version :: r =>
      match steps m !! (entity, version) with
      | None => Err (MigrationError.NoPath entity version target)
      | Some _ => plan_loop m entity target r
      end
  end.

Definition plan (m : Migrations) (entity : EntityName.t) (from to : SchemaVersion.t)
    : result () MigrationError.t :=
  let from := SchemaVersion.get from in
  let to := SchemaVersion.get to in
  if to <? from then Err (MigrationError.Backward from to)
  else plan_loop m entity to (versions from to).

Fixpoint migrate_loop (m : Migrations) (entity : EntityName.t) (target : Z) (vs : list Z)
    (current : Value) : result Value MigrationError.t :=
  match vs with
  | [] => Ok current
  | version :: r =>
      let? step := ok_or (steps m !! (entity, version))
                     (MigrationError.NoPath entity version target) in
      let? current := map_err (MigrationError.Failed entity version (version + 1)) (step current) in
      migrate_loop m entity target r current
  end.

Definition migrate_value (m : Migrations) (entity : EntityName.t) (value : Value)
    (from to : SchemaVersion.t) : result Value MigrationError.t :=
  let from_n := SchemaVersion.get from in
  let to_n := SchemaVersion.get to in
  if to_n <? from_n then Err (MigrationError.Backward from_n to_n)
  else if to_n =? from_n then Ok value
  else migrate_loop m entity to_n (versions from_n to_n) value.

(** ** Specification *)

(** [chain m e a b v w]: the registered steps for [e] take [v] at version [a] to [w] at [b]. *)
Inductive chain (m : Migrations) (e : EntityName.t) : Z → Z → Value → Value → Prop :=
| chain_refl a v : chain m e a a v v
| chain_step a b v w u f :
    steps m !! (e, a) = Some f → f v = Ok w → chain m e (a + 1) b w u → chain m e a b v u.

(** ** Facts *)

Lemma versions_nil a b : b ≤ a → versions a b = [].
Proof. intros. unfold versions. by rewrite seqZ_nil by lia. Qed.

Lemma versions_cons a b : a < b → versions a b = a :: versions (a + 1) b.
Proof.
  intros. unfold versions. rewrite seqZ_cons by lia. f_equal.
  replace (Z.succ a) with (a + 1) by lia. f_equal; lia.
Qed.

Lemma versions_app a b c : a ≤ b ≤ c → versions a c = versions a b ++ versions b c.
Proof.
  intros. unfold versions.
  replace (c - a) with ((b - a) + (c - b)) by lia.
  rewrite seqZ_app by lia. f_equal. f_equal; lia.
Qed.

Lemma elem_of_versions v a b : v ∈ versions a b ↔ a ≤ v < b.
Proof. unfold versions. rewrite elem_of_seqZ. lia. Qed.

Lemma chain_le m e a b v w : chain m e a b v w → a ≤ b.
Proof. induction 1; lia. Qed.

(** The short cut for equal versions is what the loop over no versions would do. *)
Lemma migrate_value_loop m e v from to :
  SchemaVersion.get from ≤ SchemaVersion.get to →
  migrate_value m e v from to =
    migrate_loop m e (SchemaVersion.get to) (versions (SchemaVersion.get from) (SchemaVersion.get to)) v.
Proof.
  intros Hle. unfold migrate_value.
  destruct (Z.ltb_spec (SchemaVersion.get to) (SchemaVersion.get from)); [lia|].
  destruct (Z.eqb_spec (SchemaVersion.get to) (SchemaVersion.get from)); [|done].
  by rewrite versions_nil by lia.
Qed.

Lemma migrate_loop_app m e t l1 l2 v :
  migrate_loop m e t (l1 ++ l2) v =
    let? w := migrate_loop m e t l1 v in migrate_loop m e t l2 w.
Proof.
  revert v. induction l1 as [|a l1 IH]; intros v; simpl; [done|].
  destruct (ok_or _ _); simpl; [|done]. destruct (map_err _ _); simpl; [apply IH|done].
Qed.

(** The target only appears in the error, so a successful run does not depend on it. *)
Lemma migrate_loop_target m e t t' l v w :
  migrate_loop m e t l v = Ok w → migrate_loop m e t' l v = Ok w.
Proof.
  revert v. induction l as [|a l IH]; intros v; simpl; [done|].
  destruct (steps m !! (e, a)); simpl; [|done]. destruct (map_err _ _); simpl; [apply IH|done].
Qed.

Lemma migrate_loop_chain m e t a b v w :
  a ≤ b → migrate_loop m e t (versions a b) v = Ok w ↔ chain m e a b v w.
Proof.
  intros Hab. split.
  - remember (Z.to_nat (b - a)) as n eqn:Hn. revert a v Hab Hn.
    induction n as [|n IH]; intros a v Hab Hn.
    + rewrite versions_nil by lia. replace b with a by lia. intros [= <-]. constructor.
    + rewrite versions_cons by lia. cbn [migrate_loop].
      destruct (steps m !! (e, a)) as [f|] eqn:Hf; simpl; [|done].
      destruct (f v) as [u|] eqn:Hfv; simpl; [|done]. intros Hr.
      eapply chain_step; [done..|]. apply IH; [lia..|done].
  - induction 1 as [a v|a b v w u f Hf Hfv Hc IH].
    + by rewrite versions_nil by lia.
    + apply chain_le in Hc as Hle. rewrite versions_cons by lia. cbn [migrate_loop].
      rewrite Hf. simpl. rewrite Hfv. simpl. by apply IH.
Qed.

Lemma migrate_value_chain m e v from to w :
  migrate_value m e v from to = Ok w ↔
    chain m e (SchemaVersion.get from) (SchemaVersion.get to) v w.
Proof.
  destruct (Z.le_gt_cases (SchemaVersion.get from) (SchemaVersion.get to)) as [Hle|Hgt].
  - rewrite migrate_value_loop by done. by apply migrate_loop_chain.
  - unfold migrate_value. destruct (Z.ltb_spec (SchemaVersion.get to) (SchemaVersion.get from)); [|lia].
    split; [done|]. intros ?%chain_le. lia.
Qed.

Lemma plan_loop_ok m e t l :
  plan_loop m e t l = Ok () ↔ Forall (λ v, is_Some (steps m !! (e, v))) l.
Proof.
  induction l as [|a l IH]; simpl; [by split|]. rewrite Forall_cons.
  destruct (steps m !! (e, a)); [rewrite IH; naive_solver|].
  split; [done|]. intros [[? ?] _]. done.
Qed.

Lemma plan_loop_err m e t l err :
  plan_loop m e t l = Err err ↔
  ∃ l1 a l2, l = l1 ++ a :: l2 ∧ steps m !! (e, a) = None ∧
    Forall (λ v, is_Some (steps m !! (e, v))) l1 ∧ err = MigrationError.NoPath e a t.
Proof.
  induction l as [|a l IH]; simpl.
  - split; [done|]. by intros ([|] & ? & ? & ? & _).
  - destruct (steps m !! (e, a)) eqn:Ha.
    + rewrite IH. split.
      * intros (l1 & x & l2 & -> & ? & ? & ->). exists (a :: l1), x, l2.
        rewrite Forall_cons. rewrite Ha. naive_solver.
      * intros ([|y l1] & x & l2 & Heq & ? & HF & ->); simplify_eq/=.
        rewrite Forall_cons in HF. naive_solver.
    + split.
      * intros [= <-]. by exists [], a, l.
      * intros ([|y l1] & x & l2 & Heq & ? & HF & ->); simplify_eq/=; [done|].
        rewrite Forall_cons in HF. destruct HF as [[? ?] _]. congruence.
Qed.

(** Running a chain never misses a step [plan] found, and its first missing step is the one
    [plan] names, unless a step before it fails first. *)
Lemma migrate_loop_plan m e t l v :
  plan_loop m e t l = Ok () →
  (∃ w, migrate_loop m e t l v = Ok w) ∨
  (∃ a reason, a ∈ l ∧ migrate_loop m e t l v = Err (MigrationError.Failed e a (a + 1) reason)).
Proof.
  rewrite plan_loop_ok. intros Hl. revert v. induction Hl as [|a l [f Hf] _ IH]; intros v; cbn [migrate_loop]; [eauto|].
  rewrite Hf. simpl. destruct (f v) as [w|reason]; simpl.
  - destruct (IH w) as [[u ->]|(b & reason & Hb & ->)]; [eauto|right].
    exists b, reason. split; [by right|done].
  - right. exists a, reason. split; [by left|done].
Qed.
