(* ===== verification/Outbox.v ===== *)
(** * Outbox: queued writes and their recorded outcomes (credsync-core/src/outbox.rs). *)

From S2P Require Import Prelude Errors Nums Ids Json Wire Core Registry.
From stdpp Require Import options.

Module Resolution.
Inductive t : Type :=
| Applied (server_seq : option Seq.t)
| Superseded
| DeadLettered (reason : Reason.t).
#[global] Instance eq_dec : EqDecision t.
Proof. solve_decision. Defined.
Definition needs_attention (r : t) : bool := match r with DeadLettered _ => true | _ => false end.
Definition reason (r : t) : option Reason.t :=
  match r with DeadLettered reason => Some reason | _ => None end.
End Resolution.

Module OutboxEntry.
Record t := mk { command : Command.t; schema_version : SchemaVersion.t }.
Definition id (e : t) : CommandId.t := Command.id (command e).
End OutboxEntry.

Module OutboxError.
Inductive t : Type :=
| Registry (e : RegistryError.t)
| Storage (e : StorageError)
| Encoding.
Definition display (e : t) : string :=
  match e with
  | Registry e => "outbox refused the command: " +:+ RegistryError.display e
  | Storage e => "outbox storage failure: " +:+ StorageError_display e
  | Encoding => "a queued command could not be encoded"
  end.
End OutboxError.

Module Resolved.
Record t := mk { resolutions : list (CommandId.t * Resolution.t); unknown : nat }.
Definition dead_lettered (r : t) : list (CommandId.t * Reason.t) :=
  omap (λ '(id, res), (λ reason, (id, reason)) <$> Resolution.reason res) (resolutions r).
End Resolved.
