(* ===== verification/Storage.v ===== *)
(** * Storage: what the engine asks to be written and the interfaces it is built over
    (credsync-core/src/storage.rs and traits.rs).

    [Storage] and [Compressor] are the source's traits as classes. [StorageLaws] is the
    contract the trait's documentation states, against a [View] of the durable state: a
    transaction is applied whole, and an error leaves either nothing or everything behind,
    because an adapter may commit and then report failure. *)

From S2P Require Import Prelude Errors Nums Ids Json Wire Integrity Core Registry Outbox.
From stdpp Require Import options.

(** ** storage.rs *)

Inductive StorageOp : Type :=
| UpsertRow (entity : EntityName.t) (entity_id : EntityId.t) (snapshot : Snapshot)
    (row_version : RowVersion.t) (schema_version : SchemaVersion.t)
| DeleteRow (entity : EntityName.t) (entity_id : EntityId.t)
| SetCursor (scope : ScopeId.t) (cursor : Cursor.t)
| SetScopeDigest (scope : ScopeId.t) (digest : HexString.t)
| ResolveCommand (id : CommandId.t) (resolution : Resolution.t)
| SaveRecoveredDraft (entity : EntityName.t) (command_id : CommandId.t) (payload : Payload)
| RecordDivergence (scope : ScopeId.t) (attempts : Z) (healed : bool)
| ClearScope (scope : ScopeId.t) (entities : list EntityName.t)
| QuarantineRow (entity : EntityName.t) (entity_id : EntityId.t) (snapshot : Snapshot)
    (schema_version : SchemaVersion.t) (reason : string)
| EnqueueCommand (command : Command.t) (schema_version : SchemaVersion.t).

Module TxOutcome.
Record t := new { applied : nat }.
End TxOutcome.

(** ** traits.rs *)

Module StoredScope.
Record t := mk { cursor : Cursor.t; digest : HexString.t }.
End StoredScope.

Class Storage (S : Type) : Type := {
  transact : S → list StorageOp → S * result TxOutcome.t StorageError;
  row_version : S → EntityName.t → EntityId.t → result (option RowVersion.t) StorageError;
  scope_state : S → ScopeId.t → result (option StoredScope.t) StorageError;
  outbox : S → result (list OutboxEntry.t) StorageError;
}.

Class Compressor (Z' : Type) : Type := { compressed_len : Z' → bytes → N }.
Class Clock (C : Type) : Type := { now : C → Timestamp.t }.
Class Entropy (E : Type) : Type := { fill : E → nat → E * bytes }.
Class Transport (T : Type) : Type := {
  transport_enqueue : T → WireRequest → T * result RequestId.t TransportError;
}.

(** ** Specification: the durable state and the meaning of each operation *)

Module StoredRow.
Record t := mk {
  snapshot : Snapshot;
  row_version : RowVersion.t;
  schema_version : SchemaVersion.t;
}.
End StoredRow.

Record View := MkView {
  v_rows : gmap RowKey StoredRow.t;
  v_cursors : gmap ScopeId.t Cursor.t;
  v_digests : gmap ScopeId.t HexString.t;
  v_outbox : list OutboxEntry.t;
  v_resolved : list (CommandId.t * Resolution.t);
  v_recovered : list (CommandId.t * EntityName.t * Payload);
  v_quarantine : list (EntityId.t * Snapshot * SchemaVersion.t * string);
  v_divergences : gmap ScopeId.t (Z * bool);
}.

Definition set_rows f v := MkView (f (v_rows v)) (v_cursors v) (v_digests v) (v_outbox v)
  (v_resolved v) (v_recovered v) (v_quarantine v) (v_divergences v).
Definition set_cursors f v := MkView (v_rows v) (f (v_cursors v)) (v_digests v) (v_outbox v)
  (v_resolved v) (v_recovered v) (v_quarantine v) (v_divergences v).
Definition set_digests f v := MkView (v_rows v) (v_cursors v) (f (v_digests v)) (v_outbox v)
  (v_resolved v) (v_recovered v) (v_quarantine v) (v_divergences v).
Definition set_outbox f v := MkView (v_rows v) (v_cursors v) (v_digests v) (f (v_outbox v))
  (v_resolved v) (v_recovered v) (v_quarantine v) (v_divergences v).
Definition set_resolved f v := MkView (v_rows v) (v_cursors v) (v_digests v) (v_outbox v)
  (f (v_resolved v)) (v_recovered v) (v_quarantine v) (v_divergences v).
Definition set_recovered f v := MkView (v_rows v) (v_cursors v) (v_digests v) (v_outbox v)
  (v_resolved v) (f (v_recovered v)) (v_quarantine v) (v_divergences v).
Definition set_quarantine f v := MkView (v_rows v) (v_cursors v) (v_digests v) (v_outbox v)
  (v_resolved v) (v_recovered v) (f (v_quarantine v)) (v_divergences v).
Definition set_divergences f v := MkView (v_rows v) (v_cursors v) (v_digests v) (v_outbox v)
  (v_resolved v) (v_recovered v) (v_quarantine v) (f (v_divergences v)).

(** [Vec::retain] of the entries for other commands. *)
Definition without (id : CommandId.t) (l : list OutboxEntry.t) : list OutboxEntry.t :=
  filter (λ e, OutboxEntry.id e ≠ id) l.

Definition apply_op (op : StorageOp) (v : View) : View :=
  match op with
  | UpsertRow e i snap rv sv => set_rows (<[(e, i) := StoredRow.mk snap rv sv]>) v
  | DeleteRow e i => set_rows (delete (e, i)) v
  | SetCursor s c => set_cursors (<[s := c]>) v
  | SetScopeDigest s d => set_digests (<[s := d]>) v
  | EnqueueCommand c sv => set_outbox (λ l, l ++ [OutboxEntry.mk c sv]) v
  | ResolveCommand id r =>
      set_resolved (λ l, l ++ [(id, r)]) (set_outbox (without id) v)
  | SaveRecoveredDraft e id p => set_recovered (λ l, l ++ [(id, e, p)]) v
  | RecordDivergence s a h => set_divergences (<[s := (a, h)]>) v
  | ClearScope s es =>
      set_digests (delete s) (set_cursors (delete s)
        (set_rows (filter (λ kr, kr.1.1 ∉ es)) v))
  | QuarantineRow _ i snap sv reason => set_quarantine (λ l, l ++ [(i, snap, sv, reason)]) v
  end.

Definition apply_ops (ops : list StorageOp) (v : View) : View := fold_left (flip apply_op) ops v.

(** What a scope's stored position reads as. *)
Definition view_scope (v : View) (s : ScopeId.t) : option StoredScope.t :=
  (λ c, StoredScope.mk c (default (ScopeDigest.to_hex ScopeDigest.EMPTY) (v_digests v !! s)))
    <$> v_cursors v !! s.

Definition view_version (v : View) (e : EntityName.t) (i : EntityId.t) : option RowVersion.t :=
  StoredRow.row_version <$> v_rows v !! (e, i).

(** ** The contract of an adapter *)

Class StorageLaws (S : Type) `{Storage S} : Type := {
  view : S → View;
  (** A success committed every operation and says so. *)
  transact_ok s ops s' o :
    transact s ops = (s', Ok o) →
    view s' = apply_ops ops (view s) ∧ TxOutcome.applied o = length ops;
  (** A failure committed nothing, or everything. *)
  transact_err s ops s' e :
    transact s ops = (s', Err e) → view s' = view s ∨ view s' = apply_ops ops (view s);
  row_version_ok s e i r : row_version s e i = Ok r → r = view_version (view s) e i;
  scope_state_ok s sc r : scope_state s sc = Ok r → r = view_scope (view s) sc;
  outbox_ok s l : outbox s = Ok l → l = v_outbox (view s);
}.

(** ** Facts about the view *)

Lemma apply_ops_app o1 o2 v : apply_ops (o1 ++ o2) v = apply_ops o2 (apply_ops o1 v).
Proof. unfold apply_ops. by rewrite fold_left_app. Qed.

Lemma apply_ops_cons o ops v : apply_ops (o :: ops) v = apply_ops ops (apply_op o v).
Proof. done. Qed.

(** The only operation that shortens the queue is the one that records an outcome: for any
    transaction, a command that was queued is still queued or has a recorded outcome. *)
Lemma apply_op_no_loss op v entry :
  entry ∈ v_outbox v →
  entry ∈ v_outbox (apply_op op v) ∨
  ∃ r, (OutboxEntry.id entry, r) ∈ v_resolved (apply_op op v) ∧ op = ResolveCommand (OutboxEntry.id entry) r.
Proof.
  intros Hin. destruct op; simpl; try (by left).
  - destruct (decide (OutboxEntry.id entry = id)) as [<-|Hne].
    + right. eexists. split; [|done]. rewrite elem_of_app. right. by left.
    + left. unfold without. by rewrite list_elem_of_filter.
  - left. rewrite elem_of_app. by left.
Qed.

Lemma apply_op_resolved_mono op v x : x ∈ v_resolved v → x ∈ v_resolved (apply_op op v).
Proof. intros. destruct op; simpl; try done. rewrite elem_of_app. by left. Qed.

Lemma apply_ops_resolved_mono ops v x : x ∈ v_resolved v → x ∈ v_resolved (apply_ops ops v).
Proof.
  revert v. induction ops as [|op ops IH]; intros v Hx; [done|].
  rewrite apply_ops_cons. apply IH. by apply apply_op_resolved_mono.
Qed.

Lemma apply_ops_no_loss ops v entry :
  entry ∈ v_outbox v →
  entry ∈ v_outbox (apply_ops ops v) ∨
  ∃ r, (OutboxEntry.id entry, r) ∈ v_resolved (apply_ops ops v).
Proof.
  revert v. induction ops as [|op ops IH]; intros v Hin; [by left|].
  rewrite apply_ops_cons. destruct (apply_op_no_loss op v entry Hin) as [Hq|(r & Hr & _)].
  - by apply IH.
  - right. exists r. by apply apply_ops_resolved_mono.
Qed.

(** Operations that do not resolve a command leave it queued. *)
Lemma apply_ops_unresolved ops v entry :
  entry ∈ v_outbox v → (∀ r, ResolveCommand (OutboxEntry.id entry) r ∉ ops) →
  entry ∈ v_outbox (apply_ops ops v).
Proof.
  revert v. induction ops as [|op ops IH]; intros v Hin Hno; [done|].
  rewrite apply_ops_cons. destruct (apply_op_no_loss op v entry Hin) as [Hq|(r & _ & ->)].
  - apply IH; [done|]. intros r Hr. by apply (Hno r), list_elem_of_further.
  - exfalso. by apply (Hno r), list_elem_of_here.
Qed.
