(* ===== verification/SimStorage.v ===== *)
(** * SimStorage: the simulator's storage adapter (credsync-sim/src/fakes.rs), an
    implementation of the [Storage] interface with injected faults.

    [Rc<RefCell<Db>>] is the state itself: the engine holds the only handle it writes
    through. The adapter satisfies [StorageLaws], the lost acknowledgement included. *)

From S2P Require Import Prelude Errors Nums Ids Json Wire Integrity Core Registry Outbox.
From S2P Require Import Storage.
From stdpp Require Import options.

Inductive StorageVerdict : Type := Commit | FailBeforeCommit | CommitThenLoseAck.

Module Db.
Record t := mk {
  rows : gmap RowKey StoredRow.t;
  cursors : gmap ScopeId.t Cursor.t;
  digests : gmap ScopeId.t HexString.t;
  outbox : list (Command.t * SchemaVersion.t);
  resolved : list (CommandId.t * Resolution.t);
  recovered : list (CommandId.t * EntityName.t * Payload);
  verdict : StorageVerdict;
  commits : Z;
  quarantine : list (EntityId.t * Snapshot * SchemaVersion.t * string);
  divergences : gmap ScopeId.t (Z * bool);
  enqueued : gset CommandId.t;
}.

Definition new : t := mk ∅ ∅ ∅ [] [] [] Commit 0 [] ∅ ∅.

(** The rows of the scope's entities, hashed from scratch. *)
Definition digest_over_rows `{Hashes} (db : t) (entities : list EntityName.t) : ScopeDigest.t :=
  ScopeDigest.from_rows ((λ '(e, i, row), (e, i, StoredRow.row_version row))
    <$> filter (λ kr, kr.1.1 ∈ entities) (map_to_list (rows db))).

(** One arm of [staged]'s loop. *)
Definition stage_op (next : t) (op : StorageOp) : t :=
  match op, next with
  | UpsertRow e i snap rv sv, mk r c d o re rc v n q dv en =>
      mk (<[(e, i) := StoredRow.mk snap rv sv]> r) c d o re rc v n q dv en
  | DeleteRow e i, mk r c d o re rc v n q dv en =>
      mk (delete (e, i) r) c d o re rc v n q dv en
  | SetCursor s cur, mk r c d o re rc v n q dv en =>
      mk r (<[s := cur]> c) d o re rc v n q dv en
  | SetScopeDigest s dg, mk r c d o re rc v n q dv en =>
      mk r c (<[s := dg]> d) o re rc v n q dv en
  | EnqueueCommand cmd sv, mk r c d o re rc v n q dv en =>
      mk r c d (o ++ [(cmd, sv)]) re rc v n q dv ({[Command.id cmd]} ∪ en)
  | ResolveCommand id res, mk r c d o re rc v n q dv en =>
      mk r c d (filter (λ cs, Command.id cs.1 ≠ id) o) (re ++ [(id, res)]) rc v n q dv en
  | RecordDivergence s a h, mk r c d o re rc v n q dv en =>
      mk r c d o re rc v n q (<[s := (a, h)]> dv) en
  | ClearScope s es, mk r c d o re rc v n q dv en =>
      mk (filter (λ kr, kr.1.1 ∉ es) r) (delete s c) (delete s d) o re rc v n q dv en
  | QuarantineRow _ i snap sv reason, mk r c d o re rc v n q dv en =>
      mk r c d o re rc v n (q ++ [(i, snap, sv, reason)]) dv en
  | SaveRecoveredDraft e id p, mk r c d o re rc v n q dv en =>
      mk r c d o re (rc ++ [(id, e, p)]) v n q dv en
  end.

Definition set_verdict (w : StorageVerdict) (db : t) : t :=
  match db with mk r c d o re rc _ n q dv en => mk r c d o re rc w n q dv en end.
Definition set_commits (m : Z) (db : t) : t :=
  match db with mk r c d o re rc v _ q dv en => mk r c d o re rc v m q dv en end.

Definition staged (db : t) (ops : list StorageOp) : t :=
  fold_left stage_op ops (set_verdict Commit db).
End Db.

#[export] Instance SimStorage : Storage Db.t := {
  transact db ops :=
    let verdict := Db.verdict db in
    let db := Db.set_verdict Commit db in
    let staged := Db.staged db ops in
    match verdict with
    | FailBeforeCommit => (db, Err (Transient "simulated failure before commit"))
    | _ =>
        let db := Db.set_commits (Db.commits staged + 1) staged in
        match verdict with
        | CommitThenLoseAck =>
            (db, Err (Transient "simulated kill between commit and acknowledgement"))
        | _ => (db, Ok (TxOutcome.new (length ops)))
        end
    end;
  row_version db e i := Ok (StoredRow.row_version <$> Db.rows db !! (e, i));
  scope_state db s :=
    Ok ((λ c, StoredScope.mk c
              (default (ScopeDigest.to_hex ScopeDigest.EMPTY) (Db.digests db !! s)))
          <$> Db.cursors db !! s);
  outbox db := Ok ((λ '(c, sv), OutboxEntry.mk c sv) <$> Db.outbox db);
}.

(** ** The compressor, the clock and the transport of the simulator *)

(** The divisor is positive: [with_ratio] never builds a zero, on which the source's division
    would panic. *)
Module SimCompressor.
Record t := mk { divisor : positive }.
Definition with_ratio (divisor : N) : t := mk match divisor with N0 => 1%positive | Npos p => p end.
End SimCompressor.
#[export] Instance SimCompressor_inst : Compressor SimCompressor.t := {
  compressed_len c b := ((N.of_nat (length b) + N.pos (SimCompressor.divisor c) - 1) / N.pos (SimCompressor.divisor c))%N;
}.

Module ClockState.
Record t := mk { now_ms : Z; skew_ms : Z; drift_ppm : Z; epoch_ms : Z }.
Definition apparent_ms (c : t) : Z :=
  let elapsed := now_ms c - epoch_ms c in
  let drift := Z.quot (i64_saturate (elapsed * drift_ppm c)) 1000000 in
  i64_saturate (i64_saturate (now_ms c + skew_ms c) + drift).
End ClockState.
#[export] Instance SimClock : Clock ClockState.t := {
  now c := Timestamp.from_millis (ClockState.apparent_ms c);
}.

Module SimTransport.
Record t := mk {
  pending : list (RequestId.t * WireRequest);
  next_id : Z;
  online : bool;
}.
Definition new : t := mk [] 0 true.
Definition drain (s : t) : t * list (RequestId.t * WireRequest) :=
  (mk [] (next_id s) (online s), pending s).
End SimTransport.
#[export] Instance SimTransport_inst : Transport SimTransport.t := {
  transport_enqueue s req :=
    if negb (SimTransport.online s) then
      (s, Err (Unreachable "simulated connectivity flap"))
    else
      let next := SimTransport.next_id s + 1 in
      let id := RequestId.new next in
      (SimTransport.mk (SimTransport.pending s ++ [(id, req)]) next (SimTransport.online s), Ok id);
}.

(** ** Refinement: the adapter implements the contract *)

Definition db_view (db : Db.t) : View :=
  MkView (Db.rows db) (Db.cursors db) (Db.digests db)
    ((λ '(c, sv), OutboxEntry.mk c sv) <$> Db.outbox db)
    (Db.resolved db) (Db.recovered db) (Db.quarantine db) (Db.divergences db).

Lemma stage_op_view db op : db_view (Db.stage_op db op) = apply_op op (db_view db).
Proof.
  destruct db as [r c d o re rc v n q dv en], op; try done.
  - unfold db_view; simpl. unfold set_resolved, set_outbox; simpl. f_equal.
    unfold without. rewrite list_filter_fmap. apply (f_equal (fmap _)).
    apply list_filter_iff. by intros [??].
  - unfold db_view; simpl. unfold set_outbox; simpl. f_equal. by rewrite fmap_app.
Qed.

Lemma staged_view db ops : db_view (Db.staged db ops) = apply_ops ops (db_view db).
Proof.
  unfold Db.staged. transitivity (apply_ops ops (db_view (Db.set_verdict Commit db))); [|by destruct db].
  generalize (Db.set_verdict Commit db) as db'. induction ops as [|op ops IH]; intros db'; [done|].
  simpl. rewrite IH, stage_op_view. done.
Qed.

Lemma set_commits_view n db : db_view (Db.set_commits n db) = db_view db.
Proof. by destruct db. Qed.
Lemma set_verdict_view w db : db_view (Db.set_verdict w db) = db_view db.
Proof. by destruct db. Qed.

#[export] Instance SimStorageLaws : StorageLaws Db.t.
Proof.
  refine {| view := db_view |}.
  - intros s ops s' o Ht. simpl in Ht. destruct (Db.verdict s); simplify_eq/=.
    by rewrite set_commits_view, staged_view, set_verdict_view.
  - intros s ops s' e Ht. simpl in Ht. destruct (Db.verdict s); simplify_eq/=.
    + left. by rewrite set_verdict_view.
    + right. by rewrite set_commits_view, staged_view, set_verdict_view.
  - by intros s e i r [= <-].
  - by intros s sc r [= <-].
  - by intros s l [= <-].
Defined.

(** Handles are never reused: a request gets a number no request before it had. *)
Definition transport_wf (s : SimTransport.t) : Prop :=
  Forall (λ p, RequestId.get p.1 ≤ SimTransport.next_id s) (SimTransport.pending s) ∧
  NoDup (fst <$> SimTransport.pending s).

Lemma transport_enqueue_wf s req :
  transport_wf s → transport_wf (transport_enqueue s req).1.
Proof.
  intros [Hle Hnd]. simpl. destruct (SimTransport.online s); simpl; [|by split]. split; simpl.
  - rewrite Forall_app. split; [|by repeat constructor; simpl; lia].
    eapply Forall_impl; [exact Hle|]. intros ?; simpl; lia.
  - rewrite fmap_app, NoDup_app. split_and!; [done| |apply NoDup_singleton].
    intros x Hx Hx'. apply list_elem_of_singleton in Hx' as ->. simpl in Hx.
    apply list_elem_of_fmap in Hx as ([i r] & Heq & Hin). simpl in Heq. subst.
    rewrite Forall_forall in Hle. specialize (Hle _ Hin). simpl in Hle. lia.
Qed.
