(* ===== verification/Apply.v ===== *)
(** * Apply: the pull apply path below the engine (credsync-core/src/apply.rs).

    [Staging] holds the three locals the source threads by [&mut]: the running digest, the
    operations of the transaction, and what this batch has already decided per row. An
    error discards all three, so the functions return them only on success. *)

From S2P Require Import Prelude Errors Nums Ids Json Wire Integrity Core Registry Outbox.
From S2P Require Import Storage.
From stdpp Require Import options.

Module ApplyError.
Inductive t : Type :=
| OutOfOrder (previous found : Z)
| AlreadyApplied (cursor found : Z)
| CursorWouldRegress (next_cursor last_seq : Z)
| Inconsistent (detail : string)
| AppendOnlyOverwrite (entity : EntityName.t) (entity_id : EntityId.t) (stored incoming : Z)
| Storage (e : StorageError).
Definition display (e : t) : string :=
  match e with
  | OutOfOrder previous found =>
      "changes must strictly increase by seq: " +:+ show found +:+ " followed " +:+ show previous
  | AlreadyApplied cursor found =>
      "seq " +:+ show found +:+ " is at or below the cursor " +:+ show cursor +:+ "; already applied"
  | CursorWouldRegress next_cursor last_seq =>
      "next_cursor " +:+ show next_cursor +:+ " does not cover the last change applied, seq "
        +:+ show last_seq
  | AppendOnlyOverwrite entity entity_id stored incoming =>
      EntityName.as_str entity +:+ "/" +:+ EntityId.as_str entity_id +:+ " is append-only: version "
        +:+ show incoming +:+ " would overwrite " +:+ show stored
  | Inconsistent detail => "inconsistent change: " +:+ detail
  | Storage e => "storage refused the batch: " +:+ StorageError_display e
  end.
End ApplyError.

Module AppliedBatch.
Record t := mk { changes : nat; diverged : bool }.
End AppliedBatch.

(** ** Ordering *)

Fixpoint validate_loop (cursor : Z) (previous : option Z) (changes : list Change.t)
    : result (option Z) ApplyError.t :=
  match changes with
  | [] => Ok previous
  | change :: r =>
      let seq := Seq.get (Change.seq change) in
      if seq <=? cursor then Err (ApplyError.AlreadyApplied cursor seq) else
      try? match previous with
           | Some prev => if seq <=? prev then Err (ApplyError.OutOfOrder prev seq) else Ok ()
           | None => Ok ()
           end then
      try? map_err (λ _, match Change.op change, bool_decide (is_Some (Change.snapshot change)) with
                         | Upsert, false => ApplyError.Inconsistent "op=upsert requires a snapshot"
                         | _, _ => ApplyError.Inconsistent "op=delete must not carry a snapshot"
                         end) (Change.validate change) then
      validate_loop cursor (Some seq) r
  end.

Definition validate_ordering (batch : Batch.t) (cursor : Z) : result () ApplyError.t :=
  let? previous := validate_loop cursor None (Batch.changes batch) in
  match previous with
  | Some last_seq =>
      if Cursor.get (Batch.next_cursor batch) <? last_seq then
        Err (ApplyError.CursorWouldRegress (Cursor.get (Batch.next_cursor batch)) last_seq)
      else Ok ()
  | None => Ok ()
  end.

(** ** Staging *)

Abbreviation Staged := (gmap RowKey (option RowVersion.t)).

Record Staging := MkStaging {
  sg_digest : ScopeDigest.t;
  sg_ops : list StorageOp;
  sg_staged : Staged;
}.

Section staging.
Context `{Hashes} {S : Type} `{Storage S}.

(** What this batch has decided wins over what storage still says. *)
Definition current_version (storage : S) (staged : Staged) (e : EntityName.t) (i : EntityId.t)
    : result (option RowVersion.t) ApplyError.t :=
  match staged !! (e, i) with
  | Some pending => Ok pending
  | None => map_err ApplyError.Storage (row_version storage e i)
  end.

(** [digest.update] over an existing row, [digest.add] otherwise. *)
Definition fold_in (d : ScopeDigest.t) (e : EntityName.t) (i : EntityId.t)
    (current : option RowVersion.t) (rv : RowVersion.t) : ScopeDigest.t :=
  match current with
  | Some old => ScopeDigest.update d e i old rv
  | None => ScopeDigest.add d e i rv
  end.

Definition stage_change (storage : S) (change : Change.t) (class : option ConflictClass)
    (sg : Staging) : result Staging ApplyError.t :=
  let e := Change.entity change in
  let i := Change.entity_id change in
  let? current := current_version storage (sg_staged sg) e i in
  match Change.op change with
  | Upsert =>
      match Change.snapshot change with
      | None => Err (ApplyError.Inconsistent "op=upsert requires a snapshot")
      | Some snapshot =>
          try? match class, current with
               | Some AppendOnly, Some old =>
                   if negb (bool_decide (old = Change.row_version change)) then
                     Err (ApplyError.AppendOnlyOverwrite e i (RowVersion.get old)
                            (RowVersion.get (Change.row_version change)))
                   else Ok ()
               | _, _ => Ok ()
               end then
          Ok (MkStaging
                (fold_in (sg_digest sg) e i current (Change.row_version change))
                (sg_ops sg ++ [UpsertRow e i snapshot (Change.row_version change)
                                 (Change.schema_version change)])
                (<[(e, i) := Some (Change.row_version change)]> (sg_staged sg)))
      end
  | Delete =>
      Ok (MkStaging
            (match current with
             | Some old => ScopeDigest.remove (sg_digest sg) e i old
             | None => sg_digest sg
             end)
            (sg_ops sg ++ [DeleteRow e i])
            (<[(e, i) := None]> (sg_staged sg)))
  end.

Definition stage_quarantine (storage : S) (change : Change.t) (reason : string) (sg : Staging)
    : result Staging ApplyError.t :=
  let e := Change.entity change in
  let i := Change.entity_id change in
  let? current := current_version storage (sg_staged sg) e i in
  match Change.snapshot change with
  | None => Err (ApplyError.Inconsistent "a tombstone cannot be quarantined")
  | Some snapshot =>
      Ok (MkStaging
            (fold_in (sg_digest sg) e i current (Change.row_version change))
            (sg_ops sg ++ [QuarantineRow e i snapshot (Change.schema_version change) reason])
            (<[(e, i) := Some (Change.row_version change)]> (sg_staged sg)))
  end.
End staging.

Definition divergence (batch : Batch.t) (client : ScopeDigest.t) : Telemetry :=
  ScopeDiverged (Batch.scope batch) (ScopeDigest.to_hex client) (Batch.digest batch).

(** ** Specification: what a change does to the versions of the rows held *)

Definition row_effect (m : LiveRows) (c : Change.t) : LiveRows :=
  match Change.op c with
  | Upsert => <[(Change.entity c, Change.entity_id c) := Change.row_version c]> m
  | Delete => delete (Change.entity c, Change.entity_id c) m
  end.
Definition rows_effect (cs : list Change.t) (m : LiveRows) : LiveRows := fold_left row_effect cs m.

(** The row a change is of, and what it makes of it. *)
Definition change_key (c : Change.t) : RowKey := (Change.entity c, Change.entity_id c).
Definition effect_of (c : Change.t) : option RowVersion.t :=
  match Change.op c with Upsert => Some (Change.row_version c) | Delete => None end.

Definition versions_of (v : View) : LiveRows := StoredRow.row_version <$> v_rows v.

(** The rows that belong to the given entities: those of one scope. *)
Definition restrict (ents : gset EntityName.t) (m : LiveRows) : LiveRows :=
  filter (λ kv, kv.1.1 ∈ ents) m.

(** ** Facts: ordering *)

Definition after (cursor : Z) (c : Change.t) : Prop := cursor < Seq.get (Change.seq c).

Lemma map_err_ok {A E F} (f : E → F) (m : result A E) a : map_err f m = Ok a ↔ m = Ok a.
Proof. destruct m; simpl; naive_solver. Qed.

Lemma validate_loop_ok cursor prev cs r :
  validate_loop cursor prev cs = Ok r ↔
  Forall (after cursor) cs ∧ Forall (λ c, ∀ p, prev = Some p → after p c) cs ∧
  StronglySorted seq_lt cs ∧ Forall change_wf cs ∧
  r = match last cs with Some c => Some (Seq.get (Change.seq c)) | None => prev end.
Proof.
  revert prev. induction cs as [|c cs IH]; intros prev.
  { cbn. split; [intros [= <-]; repeat split; constructor|naive_solver]. }
  cbn [validate_loop]. rewrite !Forall_cons.
  destruct (Z.leb_spec (Seq.get (Change.seq c)) cursor) as [Hle|Hgt];
    [split; [done|intros [[Ha _] _]; unfold after in Ha; lia]|].
  set (chk := match prev with Some _ => _ | None => _ end).
  assert (Hchk : (chk = Ok () ∧ ∀ p, prev = Some p → after p c) ∨
                 ((∃ e, chk = Err e) ∧ ¬ ∀ p, prev = Some p → after p c)).
  { unfold chk, after. destruct prev as [p|]; [|naive_solver].
    destruct (Z.leb_spec (Seq.get (Change.seq c)) p); [right|left; naive_solver].
    split; [eauto|]. intros Hp. specialize (Hp p eq_refl). lia. }
  clearbody chk. destruct Hchk as [[-> Hp]|[[e ->] Hp]]; simpl; [|split; [done|naive_solver]].
  destruct (Change.validate c) as [[]|e] eqn:Hv; simpl.
  - apply Change_validate_ok in Hv. rewrite IH. rewrite last_cons.
    assert (Hord : StronglySorted seq_lt (c :: cs) ↔
        StronglySorted seq_lt cs ∧ Forall (after (Seq.get (Change.seq c))) cs).
    { split; [intros Hs; by apply StronglySorted_inv in Hs|intros [??]; by constructor]. }
    rewrite Hord. split.
    + intros (H1 & H2 & H3 & H4 & ->). split_and!; try done.
      * eapply Forall_impl; [exact H2|]. intros x Hx p Heq. specialize (Hx _ eq_refl).
        specialize (Hp _ Heq). unfold after in *. lia.
      * eapply Forall_impl; [exact H2|]. intros x Hx. by apply Hx.
      * by destruct (last cs).
    + intros ([? H1] & [_ H2] & [H3 H3'] & [_ H4] & ->). split_and!; try done.
      * eapply Forall_impl; [exact H3'|]. by intros x Hx p [= <-].
      * by destruct (last cs).
  - split; [done|]. intros (_ & _ & _ & [Hw _] & _). apply Change_validate_ok in Hw. congruence.
Qed.

(** The last change has the largest [seq] of a sorted batch. *)
Lemma sorted_last_max cs c :
  StronglySorted seq_lt cs → last cs = Some c →
  Forall (λ x, Seq.get (Change.seq x) ≤ Seq.get (Change.seq c)) cs.
Proof.
  induction 1 as [|x cs Hs IH Hx]; [done|]. rewrite last_cons. destruct (last cs) as [y|] eqn:E.
  - intros [= ->]. constructor; [|by apply IH].
    apply last_Some in E as [l ->]. rewrite Forall_app, Forall_singleton in Hx.
    destruct Hx as [_ Hx]. unfold seq_lt in Hx. lia.
  - intros [= ->]. apply last_None in E as ->. by repeat constructor.
Qed.

(** A batch passes exactly when its changes strictly increase, all lie above the cursor,
    each obeys the snapshot rule, and [next_cursor] covers them. *)
Lemma apply_ordering_ok batch cursor :
  validate_ordering batch cursor = Ok () ↔
  StronglySorted seq_lt (Batch.changes batch) ∧
  Forall (after cursor) (Batch.changes batch) ∧
  Forall change_wf (Batch.changes batch) ∧
  Forall (λ c, Seq.get (Change.seq c) ≤ Cursor.get (Batch.next_cursor batch)) (Batch.changes batch).
Proof.
  unfold validate_ordering. destruct (validate_loop _ _ _) as [r|e] eqn:Hl; simpl.
  - apply validate_loop_ok in Hl as (H1 & _ & H3 & H4 & ->).
    destruct (last (Batch.changes batch)) as [c|] eqn:El.
    + pose proof (sorted_last_max _ _ H3 El) as Hmax.
      destruct (Z.ltb_spec (Cursor.get (Batch.next_cursor batch)) (Seq.get (Change.seq c))); split.
      * done.
      * intros (_ & _ & _ & H5). apply last_Some in El as [l El]. rewrite El in H5.
        rewrite Forall_app, Forall_singleton in H5. lia.
      * intros _. split_and!; try done. eapply Forall_impl; [exact Hmax|]. intros x ?; simpl in *; lia.
      * done.
    + apply last_None in El. rewrite El in *. by repeat split.
  - split; [done|]. intros (H1 & H2 & H3 & _).
    assert (validate_loop cursor None (Batch.changes batch) =
      Ok match last (Batch.changes batch) with Some c => Some (Seq.get (Change.seq c)) | None => None end)
      as Hok.
    { apply validate_loop_ok. split_and!; try done. by apply Forall_true. }
    congruence.
Qed.

(** ** Facts: the rows of one scope *)

Lemma row_effect_lookup m c k : row_effect m c !! k = if decide (k = change_key c) then effect_of c else m !! k.
Proof.
  unfold row_effect, effect_of. fold (change_key c). case_decide as Hd; [subst|]; destruct (Change.op c);
    by rewrite ?lookup_insert_eq, ?lookup_delete_eq, ?lookup_insert_ne, ?lookup_delete_ne.
Qed.

Lemma restrict_lookup ents m e i : e ∈ ents → restrict ents m !! (e, i) = m !! (e, i).
Proof.
  intros He. unfold restrict. destruct (m !! (e, i)) as [v|] eqn:E.
  - by apply map_lookup_filter_Some.
  - apply map_lookup_filter_None. by left.
Qed.

Lemma restrict_insert ents m e i v :
  e ∈ ents → restrict ents (<[(e, i) := v]> m) = <[(e, i) := v]> (restrict ents m).
Proof. intros He. unfold restrict. by rewrite map_filter_insert_True. Qed.

Lemma restrict_delete ents m e i :
  restrict ents (delete (e, i) m) = delete (e, i) (restrict ents m).
Proof. unfold restrict. by rewrite map_filter_delete. Qed.

(** Changes to one scope's entities leave every other scope's rows alone. *)
Lemma restrict_effect_other ents ents' cs m :
  ents ## ents' → Forall (λ c, Change.entity c ∈ ents) cs →
  restrict ents' (rows_effect cs m) = restrict ents' m.
Proof.
  intros Hd Hcs. revert m. unfold rows_effect. induction Hcs as [|c cs Hc _ IH]; intros m; [done|].
  cbn [fold_left]. rewrite IH. assert (Change.entity c ∉ ents') by set_solver.
  unfold row_effect, restrict. destruct (Change.op c).
  - rewrite map_filter_insert_False; [|done]. by rewrite map_filter_delete_not.
  - by rewrite map_filter_delete_not.
Qed.

Section staging_facts.
Context `{Hashes} {S : Type} `{StorageLaws S}.
Implicit Types (s : S) (sg : Staging) (c : Change.t) (m : LiveRows).

(** What the locals promise while a batch is staged: [m] is what the rows will be, each row
    reads at its version in [m], and the digest is the digest of the scope's rows of [m]. *)
Definition staged_ok s (ents : gset EntityName.t) m sg : Prop :=
  (∀ e i, m !! (e, i) =
     match sg_staged sg !! (e, i) with Some p => p | None => view_version (view s) e i end) ∧
  sg_digest sg = map_digest (restrict ents m).

Lemma current_version_ok s ents m sg e i cur :
  staged_ok s ents m sg → current_version s (sg_staged sg) e i = Ok cur → cur = m !! (e, i).
Proof using Type*.
  intros [Hm _]. unfold current_version. specialize (Hm e i).
  destruct (sg_staged sg !! (e, i)) as [p|]; [naive_solver|].
  intros Hr%map_err_ok. rewrite Hm. by eapply row_version_ok.
Qed.

Lemma fold_in_ok ents m e i rv :
  e ∈ ents →
  fold_in (map_digest (restrict ents m)) e i (m !! (e, i)) rv =
    map_digest (restrict ents (<[(e, i) := rv]> m)).
Proof.
  intros He. rewrite restrict_insert by done. rewrite <- (restrict_lookup ents) by done.
  destruct (restrict ents m !! (e, i)) as [old|] eqn:E; simpl.
  - by rewrite (map_digest_update _ e i old).
  - by rewrite map_digest_insert_fresh.
Qed.

Lemma staged_ok_insert s ents m sg e i (o : option RowVersion.t) d ops :
  staged_ok s ents m sg → d = map_digest (restrict ents (partial_alter (λ _, o) (e, i) m)) →
  staged_ok s ents (partial_alter (λ _, o) (e, i) m)
    (MkStaging d ops (<[(e, i) := o]> (sg_staged sg))).
Proof.
  intros [Hm _] ->. split; [|done]. intros e' i'. simpl.
  destruct (decide ((e', i') = (e, i))) as [->|Hne].
  - by rewrite lookup_partial_alter_eq, lookup_insert_eq.
  - rewrite lookup_partial_alter_ne, lookup_insert_ne by congruence. apply Hm.
Qed.

(** Staging a change keeps the promise, for the rows the change leaves. *)
Lemma stage_change_ok s ents m sg sg' c class :
  Change.entity c ∈ ents → staged_ok s ents m sg → stage_change s c class sg = Ok sg' →
  staged_ok s ents (row_effect m c) sg' ∧
  (∃ op, sg_ops sg' = sg_ops sg ++ [op] ∧
    ∀ v, versions_of (apply_op op v) = row_effect (versions_of v) c).
Proof using Type*.
  intros He Hsg. unfold stage_change.
  destruct (current_version s (sg_staged sg) (Change.entity c) (Change.entity_id c)) as [cur|] eqn:Hcur;
    simpl; [|done].
  pose proof (current_version_ok _ _ _ _ _ _ _ Hsg Hcur) as ->. clear Hcur.
  assert (Hd : sg_digest sg = map_digest (restrict ents m)) by apply Hsg.
  unfold row_effect. destruct (Change.op c).
  - destruct (Change.snapshot c) as [snap|]; [|done].
    match goal with |- context [res_bind ?chk _] => destruct chk as [[]|]; simpl; [|done] end.
    intros [= <-]. split.
    + apply staged_ok_insert; [done|]. rewrite Hd. by apply fold_in_ok.
    + eexists. split; [done|]. intros v. unfold versions_of. simpl. by rewrite fmap_insert.
  - intros [= <-]. split.
    + apply (staged_ok_insert _ _ _ _ _ _ None); [done|]. rewrite Hd.
      change (partial_alter (λ _, None) ?k m) with (delete k m). rewrite restrict_delete.
      rewrite <- (restrict_lookup ents) by done.
      destruct (restrict ents m !! _) as [old|] eqn:E.
      * by rewrite (map_digest_delete _ _ _ old).
      * by rewrite delete_id.
    + eexists. split; [done|]. intros v. unfold versions_of. simpl. by rewrite fmap_delete.
Qed.

(** A quarantined row counts in the digest as if it had been written, and no row is. *)
Lemma stage_quarantine_ok s ents m sg sg' c reason :
  Change.entity c ∈ ents → change_wf c → staged_ok s ents m sg →
  stage_quarantine s c reason sg = Ok sg' →
  staged_ok s ents (row_effect m c) sg' ∧
  (∃ snap, Change.snapshot c = Some snap ∧
    sg_ops sg' = sg_ops sg ++
      [QuarantineRow (Change.entity c) (Change.entity_id c) snap (Change.schema_version c) reason]).
Proof using Type*.
  intros He Hwf Hsg. unfold stage_quarantine.
  destruct (current_version s (sg_staged sg) (Change.entity c) (Change.entity_id c)) as [cur|] eqn:Hcur;
    simpl; [|done].
  pose proof (current_version_ok _ _ _ _ _ _ _ Hsg Hcur) as ->. clear Hcur.
  assert (Hd : sg_digest sg = map_digest (restrict ents m)) by apply Hsg.
  destruct (Change.snapshot c) as [snap|] eqn:Hs; [|done]. intros [= <-].
  assert (Change.op c = Upsert) as Hop by (apply Hwf; rewrite Hs; by eexists).
  unfold row_effect. rewrite Hop. split; [|by eexists].
  apply staged_ok_insert; [done|]. rewrite Hd. by apply fold_in_ok.
Qed.
End staging_facts.

(** ** Facts: operations on rows leave the rest of the durable state alone *)

Definition is_row_op (op : StorageOp) : bool :=
  match op with UpsertRow _ _ _ _ _ | DeleteRow _ _ | QuarantineRow _ _ _ _ _ => true | _ => false end.

Definition same_position (v w : View) : Prop :=
  v_cursors v = v_cursors w ∧ v_digests v = v_digests w ∧ v_outbox v = v_outbox w ∧
  v_resolved v = v_resolved w ∧ v_recovered v = v_recovered w ∧ v_divergences v = v_divergences w.

Lemma row_ops_position ops v :
  Forall (λ op, is_row_op op = true) ops → same_position (apply_ops ops v) v.
Proof.
  intros Hops. revert v. induction Hops as [|op ops Hop _ IH]; intros v; [done|].
  rewrite apply_ops_cons. unfold same_position in *. destruct (IH (apply_op op v)) as (-> & -> & -> & -> & -> & ->).
  by destruct op.
Qed.
