(* ===== verification/Engine.v ===== *)
(** * Engine: the client state machine (credsync-core/src/engine.rs).

    [Engine] is the source's struct over its five trait implementations. A [&mut self]
    method is a [step]: it returns the engine it leaves behind together with its [Result],
    so that what an error does to the state is part of the model. Reading the laws of the
    storage is left to EngineFacts; this file is only the program. *)

From S2P Require Import Prelude Errors Nums Ids Json Wire Integrity Core Registry Migrate.
From S2P Require Import Outbox Storage Apply.
From stdpp Require Import options.

Record Engine (C E S T ZC : Type) : Type := MkEngine {
  clock : C;
  entropy : E;
  storage : S;
  transport : T;
  compressor : ZC;
  effects : list Effect;
  scopes : gmap ScopeId.t ScopeState.t;
  outbox_queue : list OutboxEntry.t;
  registry : Registry;
  migrations : Migrations;
  suspect : gset ScopeId.t;
  outbox_suspect : bool;
  health : gmap ScopeId.t ScopeHealth;
  upgrade_required : option ForcedUpgrade.t;
}.
Arguments MkEngine {C E S T ZC}.
Arguments clock {C E S T ZC}.
Arguments entropy {C E S T ZC}.
Arguments storage {C E S T ZC}.
Arguments transport {C E S T ZC}.
Arguments compressor {C E S T ZC}.
Arguments effects {C E S T ZC}.
Arguments scopes {C E S T ZC}.
Arguments outbox_queue {C E S T ZC}.
Arguments registry {C E S T ZC}.
Arguments migrations {C E S T ZC}.
Arguments suspect {C E S T ZC}.
Arguments outbox_suspect {C E S T ZC}.
Arguments health {C E S T ZC}.
Arguments upgrade_required {C E S T ZC}.

Definition MAX_HEAL_ATTEMPTS : Z := 3.

Section engine.
Context {C E S T ZC : Type} `{!Storage S} `{!Compressor ZC} `{Hashes} `{Codec}.
Abbreviation engine := (Engine C E S T ZC).
Implicit Types (en : engine).

(** ** Field updates *)

Definition set_storage s en : engine := MkEngine (clock en) (entropy en) s (transport en)
  (compressor en) (effects en) (scopes en) (outbox_queue en) (registry en) (migrations en)
  (suspect en) (outbox_suspect en) (health en) (upgrade_required en).
Definition set_effects f en : engine := MkEngine (clock en) (entropy en) (storage en) (transport en)
  (compressor en) (f (effects en)) (scopes en) (outbox_queue en) (registry en) (migrations en)
  (suspect en) (outbox_suspect en) (health en) (upgrade_required en).
Definition set_scopes f en : engine := MkEngine (clock en) (entropy en) (storage en) (transport en)
  (compressor en) (effects en) (f (scopes en)) (outbox_queue en) (registry en) (migrations en)
  (suspect en) (outbox_suspect en) (health en) (upgrade_required en).
Definition set_queue f en : engine := MkEngine (clock en) (entropy en) (storage en) (transport en)
  (compressor en) (effects en) (scopes en) (f (outbox_queue en)) (registry en) (migrations en)
  (suspect en) (outbox_suspect en) (health en) (upgrade_required en).
Definition set_registry f en : engine := MkEngine (clock en) (entropy en) (storage en) (transport en)
  (compressor en) (effects en) (scopes en) (outbox_queue en) (f (registry en)) (migrations en)
  (suspect en) (outbox_suspect en) (health en) (upgrade_required en).
Definition set_migrations f en : engine := MkEngine (clock en) (entropy en) (storage en) (transport en)
  (compressor en) (effects en) (scopes en) (outbox_queue en) (registry en) (f (migrations en))
  (suspect en) (outbox_suspect en) (health en) (upgrade_required en).
Definition set_suspect f en : engine := MkEngine (clock en) (entropy en) (storage en) (transport en)
  (compressor en) (effects en) (scopes en) (outbox_queue en) (registry en) (migrations en)
  (f (suspect en)) (outbox_suspect en) (health en) (upgrade_required en).
Definition set_outbox_suspect b en : engine := MkEngine (clock en) (entropy en) (storage en)
  (transport en) (compressor en) (effects en) (scopes en) (outbox_queue en) (registry en)
  (migrations en) (suspect en) b (health en) (upgrade_required en).
Definition set_health f en : engine := MkEngine (clock en) (entropy en) (storage en) (transport en)
  (compressor en) (effects en) (scopes en) (outbox_queue en) (registry en) (migrations en)
  (suspect en) (outbox_suspect en) (f (health en)) (upgrade_required en).
Definition set_upgrade u en : engine := MkEngine (clock en) (entropy en) (storage en) (transport en)
  (compressor en) (effects en) (scopes en) (outbox_queue en) (registry en) (migrations en)
  (suspect en) (outbox_suspect en) (health en) u.

Definition new (c : C) (e : E) (s : S) (t : T) (z : ZC) : engine :=
  MkEngine c e s t z [] ∅ [] Registry_new Migrations_new ∅ false ∅ None.

Definition emit (eff : Effect) en : engine := set_effects (λ l, l ++ [eff]) en.
Definition next_effect en : engine * option Effect :=
  match effects en with
  | [] => (en, None)
  | e :: r => (set_effects (λ _, r) en, Some e)
  end.
Definition pending_effects en : nat := length (effects en).

(** [self.storage.transact(&ops)]. *)
Definition engine_transact (ops : list StorageOp) : step engine TxOutcome.t StorageError :=
  λ en, let '(s, r) := transact (storage en) ops in (set_storage s en, r).

(** ** Reading and restoring state *)

Definition restore_scope (scope : ScopeId.t) (state : ScopeState.t) en : engine :=
  set_scopes (<[scope := state]>) en.
Definition engine_scope_state (scope : ScopeId.t) en : option ScopeState.t := scopes en !! scope.
Definition needs_reload (scope : ScopeId.t) en : bool := bool_decide (scope ∈ suspect en).
Definition scope_health (scope : ScopeId.t) en : ScopeHealth := default Healthy (health en !! scope).

(** In name order: the map is a [BTreeMap]. *)
Definition scopes_needing_rebootstrap en : list ScopeId.t :=
  fst <$> filter (λ sh, needs_rebootstrap sh.2 = true)
            (sort_by_key (λ sh, ScopeId.as_str (fst sh)) (map_to_list (health en))).

Definition restore_scope_health (scope : ScopeId.t) (attempts : Z) (healed : bool) en : engine :=
  if attempts =? 0 then set_health (delete scope) en else
  let h := if healed then Healed attempts
           else if MAX_HEAL_ATTEMPTS <=? attempts then Unhealable attempts
           else Tainted attempts in
  set_health (<[scope := h]>) en.

(** ** Reloading after a failed transaction *)

Definition refresh_if_suspect (scope : ScopeId.t) : step engine () ApplyError.t := λ en,
  if negb (bool_decide (scope ∈ suspect en)) then (en, Ok ()) else
  match scope_state (storage en) scope with
  | Err e => (en, Err (ApplyError.Storage e))
  | Ok stored =>
      let en :=
        match stored with
        | Some stored =>
            let digest :=
              match u128_from_str_radix_16 (HexString.as_str (StoredScope.digest stored)) with
              | Some v => ScopeDigest.from_raw v
              | None => ScopeDigest.EMPTY
              end in
            set_scopes (<[scope := ScopeState.restored (StoredScope.cursor stored) digest]>) en
        | None => set_scopes (delete scope) en
        end in
      (set_suspect (λ s, s ∖ {[scope]}) en, Ok ())
  end.

Definition refresh_outbox_if_suspect : step engine () OutboxError.t := λ en,
  if negb (outbox_suspect en) then (en, Ok ()) else
  match Storage.outbox (storage en) with
  | Err e => (en, Err (OutboxError.Storage e))
  | Ok stored => (set_outbox_suspect false (set_queue (λ _, stored) en), Ok ())
  end.

Definition reload_scope (scope : ScopeId.t) : step engine () ApplyError.t :=
  do! refresh_if_suspect scope then
  λ en, let '(en, r) := refresh_outbox_if_suspect en in
        (en, map_err (λ _, ApplyError.Storage (Corrupt "the outbox could not be reloaded")) r).

(** ** Applying a batch *)

Definition migrated_change (reg : Registry) (ms : Migrations) (change : Change.t)
    : result (option Change.t) MigrationError.t :=
  match schema_version_of reg (Change.entity change) with
  | None => Ok None
  | Some target =>
      if bool_decide (Change.schema_version change = target) then Ok None else
      match Change.snapshot change with
      | None => Ok None
      | Some snapshot =>
          let? migrated := migrate_value ms (Change.entity change) (as_value snapshot)
                             (Change.schema_version change) target in
          let? snapshot := map_err
            (λ e, MigrationError.Invalid (Change.entity change) (ProtocolError_display e))
            (Document_new migrated) in
          Ok (Some (Change.mk (Change.seq change) (Change.entity change) (Change.entity_id change)
                      (Change.op change) (Some snapshot) (Change.row_version change) target))
      end
  end.

Abbreviation Quarantined := (list (EntityName.t * EntityId.t * SchemaVersion.t * string)).

(** One turn of the loop over the changes of a batch. *)
Definition stage_one (s : S) (reg : Registry) (ms : Migrations) (change : Change.t)
    (acc : Staging * Quarantined) : result (Staging * Quarantined) ApplyError.t :=
  let '(sg, quarantined) := acc in
  let class := class_of reg (Change.entity change) in
  match migrated_change reg ms change with
  | Ok None => let? sg := stage_change s change class sg in Ok (sg, quarantined)
  | Ok (Some migrated) => let? sg := stage_change s migrated class sg in Ok (sg, quarantined)
  | Err e =>
      let reason := MigrationError.display e in
      let? sg := stage_quarantine s change reason sg in
      Ok (sg, quarantined ++ [(Change.entity change, Change.entity_id change,
                               Change.schema_version change, reason)])
  end.

Fixpoint stage_all (s : S) (reg : Registry) (ms : Migrations) (changes : list Change.t)
    (acc : Staging * Quarantined) : result (Staging * Quarantined) ApplyError.t :=
  match changes with
  | [] => Ok acc
  | change :: r => let? acc := stage_one s reg ms change acc in stage_all s reg ms r acc
  end.

Definition taint (scope : ScopeId.t) (attempts : Z) en : engine :=
  if MAX_HEAL_ATTEMPTS <=? attempts then
    set_health (<[scope := Unhealable attempts]>) (emit (Emit (ScopeUnhealable scope attempts)) en)
  else set_health (<[scope := Tainted attempts]>) en.

(** What moves in memory once a batch is committed. *)
Definition apply_committed (batch : Batch.t) (digest : ScopeDigest.t) (quarantined : Quarantined)
    (escalated : option Z) (heals : bool) (h : ScopeHealth) en : engine :=
  let scope := Batch.scope batch in
  let en := set_scopes (<[scope := ScopeState.restored (Batch.next_cursor batch) digest]>) en in
  let en := fold_left (λ en '(e, i, sv, reason), emit (Emit (RowQuarantined e i sv reason)) en)
              quarantined en in
  match escalated with
  | Some a => taint scope a (emit (Emit (divergence batch digest)) en)
  | None => if heals then set_health (<[scope := Healed (attempts h)]>) en else en
  end.

Definition apply_changes (batch : Batch.t) (compare_digest rebuilding : bool)
    : step engine AppliedBatch.t ApplyError.t :=
  let scope := Batch.scope batch in
  do! refresh_if_suspect scope then
  λ en,
  let state := default ScopeState.NEW (scopes en !! scope) in
  match
    try? validate_ordering batch (Cursor.get (ScopeState.cursor state)) then
    stage_all (storage en) (registry en) (migrations en) (Batch.changes batch)
      (MkStaging (ScopeState.digest state) [] ∅, [])
  with
  | Err e => (en, Err e)
  | Ok (sg, quarantined) =>
      let digest := sg_digest sg in
      let ops := sg_ops sg ++ [SetCursor scope (Batch.next_cursor batch);
                               SetScopeDigest scope (ScopeDigest.to_hex digest)] in
      let h := scope_health scope en in
      let diverged :=
        compare_digest && negb (bool_decide (ScopeDigest.to_hex digest = Batch.digest batch)) in
      let counts := diverged && (is_healthy h || (rebuilding && needs_rebootstrap h)) in
      let escalated := if counts then Some (u32_saturating_add (attempts h) 1) else None in
      let ops := ops ++ match escalated with
                        | Some a => [RecordDivergence scope a false]
                        | None => []
                        end in
      let heals := compare_digest && negb diverged && needs_rebootstrap h in
      let ops := ops ++ if heals then [RecordDivergence scope (attempts h) true] else [] in
      let '(en, outcome) := engine_transact ops en in
      match outcome with
      | Err e =>
          (set_outbox_suspect true (set_suspect (λ s, {[scope]} ∪ s) en), Err (ApplyError.Storage e))
      | Ok _ =>
          let en := apply_committed batch digest quarantined escalated heals h en in
          (en, Ok (AppliedBatch.mk (length (Batch.changes batch)) diverged))
      end
  end.

Definition apply_batch (batch : Batch.t) : step engine AppliedBatch.t ApplyError.t :=
  apply_changes batch (negb (Batch.has_more batch)) false.

Definition apply_bootstrap (response : BootstrapResponse.t) : step engine AppliedBatch.t ApplyError.t :=
  let batch := Batch.mk (BootstrapResponse.scope response) (BootstrapResponse.changes response)
    (BootstrapResponse.next_cursor response) (BootstrapResponse.has_more response)
    (BootstrapResponse.checksum response) (BootstrapResponse.digest response) in
  apply_changes batch (negb (BootstrapResponse.has_more response)) true.

(** ** Divergence *)

Definition begin_rebootstrap (scope : ScopeId.t) : step engine () ApplyError.t := λ en,
  let ops :=
    [ClearScope scope
       (EntityRegistration.entity <$>
          filter (λ r, EntityRegistration.scope r = scope) (entities (registry en)));
     SetCursor scope Cursor.START;
     SetScopeDigest scope (ScopeDigest.to_hex ScopeDigest.EMPTY)] in
  let '(en, r) := engine_transact ops en in
  match r with
  | Err e =>
      (set_outbox_suspect true (set_suspect (λ s, {[scope]} ∪ s) en), Err (ApplyError.Storage e))
  | Ok _ => (set_scopes (<[scope := ScopeState.NEW]>) en, Ok ())
  end.

Definition clear_scope_health (scope : ScopeId.t) : step engine () ApplyError.t := λ en,
  let '(en, r) := engine_transact [RecordDivergence scope 0 false] en in
  match r with
  | Err e => (en, Err (ApplyError.Storage e))
  | Ok _ => (set_health (delete scope) en, Ok ())
  end.

(** ** Forced upgrade *)

Definition on_upgrade_required (envelope : ForcedUpgrade.t) en : engine :=
  emit (Emit (UpgradeRequired (ForcedUpgrade.min_protocol envelope)
                (ForcedUpgrade.current_protocol envelope) (ForcedUpgrade.reason envelope)
                (length (outbox_queue en))))
    (set_upgrade (Some envelope) en).
Definition upgrade_completed en : engine := set_upgrade None en.

(** ** The outbox *)

Definition enqueue (entry : OutboxEntry.t) : step engine () OutboxError.t := λ en,
  match check_command (registry en) (OutboxEntry.command entry) with
  | Err e => (en, Err (OutboxError.Registry e))
  | Ok _ =>
      let '(en, r) := engine_transact
        [EnqueueCommand (OutboxEntry.command entry) (OutboxEntry.schema_version entry)] en in
      match r with
      | Err e => (set_outbox_suspect true en, Err (OutboxError.Storage e))
      | Ok _ => (set_queue (λ q, q ++ [entry]) en, Ok ())
      end
  end.

Definition restore_outbox (entries : list OutboxEntry.t) en : engine :=
  set_queue (λ q, q ++ entries) en.
Definition outbox_len en : nat := length (outbox_queue en).
Definition outbox_contains (id : CommandId.t) en : bool :=
  existsb (λ e, bool_decide (OutboxEntry.id e = id)) (outbox_queue en).

Definition migrated_command (reg : Registry) (ms : Migrations) (entry : OutboxEntry.t)
    : result (option Command.t) MigrationError.t :=
  let command := OutboxEntry.command entry in
  match target_of reg (Command.name command) with
  | None => Ok None
  | Some entity =>
      match schema_version_of reg entity with
      | None => Ok None
      | Some target =>
          if bool_decide (OutboxEntry.schema_version entry = target) then Ok None else
          let? migrated := migrate_value ms entity (as_value (Command.payload command))
                             (OutboxEntry.schema_version entry) target in
          let? payload := map_err
            (λ e, MigrationError.Invalid entity (ProtocolError_display e))
            (Document_new migrated) in
          Ok (Some (Command.mk (Command.id command) (Command.name command) (Command.scope command)
                      payload (Command.client_ts command) (Command.checksum command)))
      end
  end.

Abbreviation Held := (list (CommandId.t * SchemaVersion.t * string)).

(** The loop of [build_push]: the chosen commands, the candidate bytes grown in place, and
    what could not be migrated. *)
Fixpoint build_loop (reg : Registry) (ms : Migrations) (zc : ZC) (budget_bytes : N)
    (entries : list OutboxEntry.t) (chosen : list Command.t) (buf : bytes) (held : Held)
    : result (list Command.t * bytes * Held) OutboxError.t :=
  match entries with
  | [] => Ok (chosen, buf, held)
  | entry :: rest =>
      if (COMMANDS_MAX_COUNT <=? length chosen)%nat then Ok (chosen, buf, held) else
      match migrated_command reg ms entry with
      | Err e =>
          build_loop reg ms zc budget_bytes rest chosen buf
            (held ++ [(OutboxEntry.id entry, OutboxEntry.schema_version entry,
                       MigrationError.display e)])
      | Ok m =>
          let command := default (OutboxEntry.command entry) m in
          let? one := map_err (λ _, OutboxError.Encoding) (to_vec command) in
          let rollback := length buf in
          let buf := splice chosen buf one in
          let too_many_bytes := (COMMANDS_MAX_TOTAL_BYTES <? N.of_nat (length buf))%N in
          let over_budget := (budget_bytes <? compressed_len zc buf)%N in
          if (too_many_bytes || over_budget) && negb (bool_decide (chosen = [])) then
            Ok (chosen, unsplice rollback buf, held)
          else build_loop reg ms zc budget_bytes rest (chosen ++ [command]) buf held
      end
  end.

Definition build_push (protocol : ProtocolVersion.t) (budget_bytes : N)
    : step engine (option PushRequest.t) OutboxError.t :=
  do! refresh_outbox_if_suspect then
  λ en,
  if bool_decide (is_Some (upgrade_required en)) then (en, Ok None) else
  if bool_decide (outbox_queue en = []) then (en, Ok None) else
  match build_loop (registry en) (migrations en) (compressor en) budget_bytes (outbox_queue en)
          [] [91; 93] [] with
  | Err e => (en, Err e)
  | Ok (chosen, _, held) =>
      let en := fold_left (λ en '(id, sv, reason), emit (Emit (CommandHeld id sv reason)) en) held en in
      (en, Ok (Some (PushRequest.mk protocol chosen)))
  end.

(** The value standing for the panic of [unreachable!] on the literal below. *)
Definition reason_unreachable : Reason.t := Reason.mk "".
Definition unstated_reason : Reason.t :=
  unwrap_or (Reason.new "Rejected by the server without a stated reason.") reason_unreachable.

Record Answering := MkAnswering {
  an_ops : list StorageOp;
  an_resolutions : list (CommandId.t * Resolution.t);
  an_unknown : nat;
  an_answered : gset CommandId.t;
}.

Definition resolve (reg : Registry) (entry : OutboxEntry.t) (r : CommandResult.t)
    : list StorageOp * Resolution.t :=
  match CommandResult.status r with
  | Wire.Applied => ([], Resolution.Applied (CommandResult.server_seq r))
  | Wire.Superseded =>
      (match target_of reg (Command.name (OutboxEntry.command entry)) with
       | Some entity =>
           if bool_decide (class_of reg entity = Some OwnerDraft) then
             [SaveRecoveredDraft entity (CommandResult.id r)
                (Command.payload (OutboxEntry.command entry))]
           else []
       | None => []
       end, Resolution.Superseded)
  | Wire.Rejected =>
      ([], Resolution.DeadLettered (default unstated_reason (CommandResult.reason r)))
  end.

Definition answer_one (reg : Registry) (queue : list OutboxEntry.t) (an : Answering)
    (r : CommandResult.t) : Answering :=
  let id := CommandResult.id r in
  match find (λ e, bool_decide (OutboxEntry.id e = id)) queue with
  | None => MkAnswering (an_ops an) (an_resolutions an) (an_unknown an + 1) (an_answered an)
  | Some entry =>
      if bool_decide (id ∈ an_answered an) then
        MkAnswering (an_ops an) (an_resolutions an) (an_unknown an + 1) (an_answered an)
      else
        let '(drafts, resolution) := resolve reg entry r in
        MkAnswering (an_ops an ++ drafts ++ [ResolveCommand id resolution])
          (an_resolutions an ++ [(id, resolution)]) (an_unknown an) ({[id]} ∪ an_answered an)
  end.

Definition apply_results (response : PushResponse.t) : step engine Resolved.t OutboxError.t :=
  do! refresh_outbox_if_suspect then
  λ en,
  let an := fold_left (answer_one (registry en) (outbox_queue en)) (PushResponse.results response)
              (MkAnswering [] [] 0 ∅) in
  let resolved := Resolved.mk (an_resolutions an) (an_unknown an) in
  if bool_decide (an_ops an = []) then (en, Ok resolved) else
  let '(en, r) := engine_transact (an_ops an) en in
  match r with
  | Err e => (set_outbox_suspect true en, Err (OutboxError.Storage e))
  | Ok _ =>
      (set_queue (λ q, fold_left (λ q '(id, _), without id q) (an_resolutions an) q) en, Ok resolved)
  end.
End engine.
