(* ===== verification/EngineFacts.v ===== *)
(** * EngineFacts: what the client engine guarantees over any adapter that keeps the
    [Storage] contract. *)

From S2P Require Import Prelude Errors Nums Ids Json Wire Integrity Core Registry Migrate.
From S2P Require Import Outbox Storage Apply Engine.
From stdpp Require Import options.

(** ** Specification *)

(** The entities the registry maps to a scope. *)
Definition scope_entities (reg : Registry) (scope : ScopeId.t) : gset EntityName.t :=
  dom (filter (λ kr, EntityRegistration.scope kr.2 = scope) (reg_entities reg)).

(** What the durable state promises at every instant, crashes included: a scope that has a
    position has the digest of exactly the rows stored for it, and one that has none has no
    rows. *)
Definition scope_ok `{Hashes} (reg : Registry) (v : View) (scope : ScopeId.t) : Prop :=
  let held := restrict (scope_entities reg scope) (versions_of v) in
  match v_cursors v !! scope with
  | Some _ => v_digests v !! scope = Some (ScopeDigest.to_hex (map_digest held))
  | None => held = ∅
  end.
Definition durable_ok `{Hashes} (reg : Registry) (v : View) : Prop := ∀ scope, scope_ok reg v scope.

(** How a stored position reads back into memory. *)
Definition parse_scope (st : StoredScope.t) : ScopeState.t :=
  ScopeState.restored (StoredScope.cursor st)
    (match u128_from_str_radix_16 (HexString.as_str (StoredScope.digest st)) with
     | Some d => ScopeDigest.from_raw d
     | None => ScopeDigest.EMPTY
     end).

(** How a stored divergence record reads back into memory. *)
Definition record_health (rec : option (Z * bool)) : option ScopeHealth :=
  match rec with
  | None => None
  | Some (a, healed) =>
      if a =? 0 then None
      else Some (if healed then Healed a else if MAX_HEAL_ATTEMPTS <=? a then Unhealable a else Tainted a)
  end.

Section specs.
Context {C E S T ZC : Type} `{!Storage S} `{!StorageLaws S}.
Abbreviation engine := (Engine C E S T ZC).

Definition durable (en : engine) : View := view (storage en).

(** Memory agrees with storage wherever the engine trusts it. *)
Definition scope_coherent (en : engine) (scope : ScopeId.t) : Prop :=
  scope ∉ suspect en → scopes en !! scope = parse_scope <$> view_scope (durable en) scope.
Definition coherent (en : engine) : Prop :=
  (∀ scope, scope_coherent en scope) ∧
  (outbox_suspect en = false → outbox_queue en = v_outbox (durable en)).
End specs.

(** ** Facts: the loop over the changes *)

Section stage_facts.
Context `{Hashes} `{Codec} {S : Type} `{StorageLaws S}.

Lemma migrated_change_same reg ms c c' :
  migrated_change reg ms c = Ok (Some c') →
  (∀ m, row_effect m c' = row_effect m c) ∧ Change.entity c' = Change.entity c.
Proof.
  unfold migrated_change. destruct (schema_version_of _ _) as [target|]; [|done].
  case_bool_decide; [done|]. destruct (Change.snapshot c) as [snap|]; [|done].
  destruct (migrate_value _ _ _ _ _) as [v|]; simpl; [|done].
  destruct (map_err _ _) as [d|]; simpl; [|done]. by intros [= <-].
Qed.

Lemma stage_change_row_op (s : S) c class sg sg' :
  stage_change s c class sg = Ok sg' → ∃ op, sg_ops sg' = sg_ops sg ++ [op] ∧ is_row_op op = true.
Proof.
  unfold stage_change. destruct (current_version _ _ _ _); simpl; [|done].
  destruct (Change.op c); [destruct (Change.snapshot c); [|done]|].
  - match goal with |- context [res_bind ?chk _] => destruct chk as [[]|]; simpl; [|done] end.
    intros [= <-]. by eexists.
  - intros [= <-]. by eexists.
Qed.

(** The changes the app can read: the others are quarantined, and store no row. *)
Definition legible reg ms (cs : list Change.t) : list Change.t :=
  filter (λ c, is_ok (migrated_change reg ms c) = true) cs.

Lemma legible_all reg ms cs :
  Forall (λ c, is_ok (migrated_change reg ms c) = true) cs → legible reg ms cs = cs.
Proof. intros Hall. by apply filter_all. Qed.

Lemma stage_one_ok (s : S) reg ms ents m c sg q sg' q' :
  Change.entity c ∈ ents → change_wf c → staged_ok s ents m sg →
  stage_one s reg ms c (sg, q) = Ok (sg', q') →
  staged_ok s ents (row_effect m c) sg' ∧
  ∃ op, sg_ops sg' = sg_ops sg ++ [op] ∧ is_row_op op = true ∧
    ∀ v, versions_of (apply_op op v) =
      if is_ok (migrated_change reg ms c) then row_effect (versions_of v) c else versions_of v.
Proof using Type*.
  intros He Hwf Hsg. unfold stage_one.
  destruct (migrated_change reg ms c) as [[c'|]|e] eqn:Hm.
  - apply migrated_change_same in Hm as [Hrow Hent].
    destruct (stage_change _ _ _ _) as [sg1|] eqn:Hst; simpl; [|done]. intros [= <- <-].
    rewrite <- Hent in He. pose proof (stage_change_row_op _ _ _ _ _ Hst) as (op & Hop & Hrop).
    destruct (stage_change_ok _ _ _ _ _ _ _ He Hsg Hst) as [Hok (op' & Hop' & Hv)].
    rewrite Hop in Hop'. simplify_list_eq. rewrite Hrow in Hok. split; [done|].
    eexists. split_and!; [done..|]. intros v. by rewrite Hv, Hrow.
  - destruct (stage_change _ _ _ _) as [sg1|] eqn:Hst; simpl; [|done]. intros [= <- <-].
    pose proof (stage_change_row_op _ _ _ _ _ Hst) as (op & Hop & Hrop).
    destruct (stage_change_ok _ _ _ _ _ _ _ He Hsg Hst) as [Hok (op' & Hop' & Hv)].
    rewrite Hop in Hop'. simplify_list_eq. split; [done|]. eauto 10.
  - destruct (stage_quarantine _ _ _ _) as [sg1|] eqn:Hst; simpl; [|done]. intros [= <- <-].
    destruct (stage_quarantine_ok _ _ _ _ _ _ _ He Hwf Hsg Hst) as [Hok (snap & Hs & Hop)].
    split; [done|]. eexists. by split_and!.
Qed.

Lemma stage_all_ok (s : S) reg ms ents cs m sg q sg' q' :
  Forall (λ c, Change.entity c ∈ ents) cs → Forall change_wf cs → staged_ok s ents m sg →
  stage_all s reg ms cs (sg, q) = Ok (sg', q') →
  staged_ok s ents (rows_effect cs m) sg' ∧
  ∃ ops, sg_ops sg' = sg_ops sg ++ ops ∧ Forall (λ op, is_row_op op = true) ops ∧
    ∀ v, versions_of (apply_ops ops v) = rows_effect (legible reg ms cs) (versions_of v).
Proof using Type*.
  intros Hents Hwf. revert m sg q. induction cs as [|c cs IH]; intros m sg q Hsg Hst.
  - injection Hst as <- <-. split; [done|]. exists []. by rewrite app_nil_r.
  - apply Forall_cons in Hents as [Hc Hents], Hwf as [Hcw Hwf]. cbn [stage_all] in Hst.
    destruct (stage_one _ _ _ _ _) as [[sg1 q1]|] eqn:Hone; simpl in Hst; [|done].
    destruct (stage_one_ok _ _ _ _ _ _ _ _ _ _ Hc Hcw Hsg Hone) as [Hsg1 (op & Hop & Hrow & Hv)].
    destruct (IH Hents Hwf _ _ _ Hsg1 Hst) as [Hsg' (ops & Hops & Hrows & Hvs)].
    split; [done|]. exists (op :: ops). split_and!.
    + by rewrite Hops, Hop, <- app_assoc.
    + by constructor.
    + intros v. rewrite apply_ops_cons, Hvs, Hv. unfold legible. rewrite filter_cons.
      by destruct (is_ok (migrated_change reg ms c)).
Qed.

(** Whatever the changes and the rows, staging only writes rows, and keeps a digest a digest. *)
Lemma fold_in_wf d e i cur rv : ScopeDigest.wf (fold_in d e i cur rv).
Proof. destruct cur; [apply digest_add_wf|apply digest_add_wf]. Qed.

Lemma stage_change_wf (s : S) c class sg sg' :
  stage_change s c class sg = Ok sg' → ScopeDigest.wf (sg_digest sg) → ScopeDigest.wf (sg_digest sg').
Proof.
  unfold stage_change. intros Hst Hwf. destruct (current_version _ _ _ _) as [cur|]; simpl in Hst; [|done].
  destruct (Change.op c); [destruct (Change.snapshot c); [|done]|].
  - match type of Hst with context [res_bind ?chk _] => destruct chk as [[]|]; simpl in Hst; [|done] end.
    injection Hst as <-. apply fold_in_wf.
  - injection Hst as <-. simpl. destruct cur; [apply digest_remove_wf|done].
Qed.

Lemma stage_one_shape (s : S) reg ms c sg q sg' q' :
  stage_one s reg ms c (sg, q) = Ok (sg', q') →
  (ScopeDigest.wf (sg_digest sg) → ScopeDigest.wf (sg_digest sg')) ∧
  ∃ op, sg_ops sg' = sg_ops sg ++ [op] ∧ is_row_op op = true.
Proof.
  unfold stage_one. intros Hst. destruct (migrated_change reg ms c) as [[c'|]|e].
  1-2: destruct (stage_change _ _ _ _) as [sg1|] eqn:Hc; simpl in Hst; [|done]; injection Hst as <- <-;
    (split; [by eapply stage_change_wf|by eapply stage_change_row_op]).
  destruct (stage_quarantine _ _ _ _) as [sg1|] eqn:Hc; simpl in Hst; [|done]. injection Hst as <- <-.
  unfold stage_quarantine in Hc. destruct (current_version _ _ _ _) as [cur|]; simpl in Hc; [|done].
  destruct (Change.snapshot c); [|done]. injection Hc as <-. split; [intros _; apply fold_in_wf|by eexists].
Qed.

Lemma stage_all_shape (s : S) reg ms cs sg q sg' q' :
  stage_all s reg ms cs (sg, q) = Ok (sg', q') →
  (ScopeDigest.wf (sg_digest sg) → ScopeDigest.wf (sg_digest sg')) ∧
  ∃ ops, sg_ops sg' = sg_ops sg ++ ops ∧ Forall (λ op, is_row_op op = true) ops.
Proof.
  revert sg q. induction cs as [|c cs IH]; intros sg q Hst.
  - injection Hst as <- <-. split; [done|]. exists []. by rewrite app_nil_r.
  - cbn [stage_all] in Hst. destruct (stage_one _ _ _ _ _) as [[sg1 q1]|] eqn:Hone; simpl in Hst; [|done].
    destruct (stage_one_shape _ _ _ _ _ _ _ _ Hone) as [Hwf1 (op & Hop & Hrow)].
    destruct (IH _ _ Hst) as [Hwf (ops & Hops & Hrows)]. split; [auto|]. exists (op :: ops).
    split; [by rewrite Hops, Hop, <- app_assoc|by constructor].
Qed.

(** A digest that is off by [delta] when a batch is staged is off by as much afterwards. *)
Definition digest_plus (d : ScopeDigest.t) (delta : Z) : ScopeDigest.t :=
  ScopeDigest.mk (u128_wrapping_add (ScopeDigest.raw d) delta).
Definition staging_plus (sg : Staging) (delta : Z) : Staging :=
  MkStaging (digest_plus (sg_digest sg) delta) (sg_ops sg) (sg_staged sg).

Lemma digest_plus_add d delta e i v :
  ScopeDigest.add (digest_plus d delta) e i v = digest_plus (ScopeDigest.add d e i v) delta.
Proof.
  unfold digest_plus, ScopeDigest.add, u128_wrapping_add. simpl. f_equal.
  rewrite !Zplus_mod_idemp_l. f_equal. lia.
Qed.
Lemma digest_plus_remove d delta e i v :
  ScopeDigest.remove (digest_plus d delta) e i v = digest_plus (ScopeDigest.remove d e i v) delta.
Proof.
  unfold digest_plus, ScopeDigest.remove, u128_wrapping_add, u128_wrapping_sub. simpl. f_equal.
  rewrite Zminus_mod_idemp_l, Zplus_mod_idemp_l. f_equal. lia.
Qed.
Lemma fold_in_plus d delta e i cur v : fold_in (digest_plus d delta) e i cur v = digest_plus (fold_in d e i cur v) delta.
Proof.
  destruct cur; simpl; unfold ScopeDigest.update; by rewrite ?digest_plus_remove, digest_plus_add.
Qed.

(** The digest that is off from [d] by the right amount is [d']. *)
Lemma digest_plus_diff d d' :
  ScopeDigest.wf d' → digest_plus d (ScopeDigest.raw d' - ScopeDigest.raw d) = d'.
Proof.
  destruct d as [z], d' as [z']. unfold digest_plus, ScopeDigest.wf, u128_wrapping_add. simpl. intros Hz.
  f_equal. rewrite <- (Z.mod_small z' u128_mod) at 2 by done. f_equal. lia.
Qed.
Lemma digest_plus_same d delta :
  ScopeDigest.wf d → digest_plus d delta = d ↔ delta mod u128_mod = 0.
Proof.
  destruct d as [z]. unfold digest_plus, ScopeDigest.wf, u128_wrapping_add. simpl. intros Hz. split.
  - intros [= Heq]. assert ((z + delta - z) mod u128_mod = 0) as Hm; [|by rewrite Z.add_simpl_l in Hm].
    rewrite Zminus_mod, Heq. rewrite (Z.mod_small z) by done. by rewrite Z.sub_diag.
  - intros Hd. f_equal. rewrite Z.add_mod, Hd, Z.add_0_r, Z.mod_mod by done. by apply Z.mod_small.
Qed.

Lemma stage_all_plus (s : S) reg ms cs delta sg q sg' q' :
  stage_all s reg ms cs (sg, q) = Ok (sg', q') →
  stage_all s reg ms cs (staging_plus sg delta, q) = Ok (staging_plus sg' delta, q').
Proof.
  assert (Hchange : ∀ c class sg1 sg2, stage_change s c class sg1 = Ok sg2 →
    stage_change s c class (staging_plus sg1 delta) = Ok (staging_plus sg2 delta)).
  { intros c class sg1 sg2. unfold stage_change, staging_plus. cbn [sg_digest sg_ops sg_staged].
    destruct (current_version _ _ _ _) as [cur|]; simpl; [|done].
    destruct (Change.op c); [destruct (Change.snapshot c); [|done]|].
    - match goal with |- context [res_bind ?chk _] => destruct chk as [[]|]; simpl; [|done] end.
      intros [= <-]. simpl. by rewrite fold_in_plus.
    - intros [= <-]. simpl. destruct cur; [by rewrite digest_plus_remove|done]. }
  revert sg q. induction cs as [|c cs IH]; intros sg q; [by intros [= <- <-]|].
  cbn [stage_all]. destruct (stage_one _ _ _ _ _) as [[sg1 q1]|] eqn:Hone; cbn [res_bind]; [|done]. intros Hst.
  assert (stage_one s reg ms c (staging_plus sg delta, q) = Ok (staging_plus sg1 delta, q1)) as ->; [|by apply IH].
  revert Hone. unfold stage_one. destruct (migrated_change reg ms c) as [[c'|]|e].
  1-2: destruct (stage_change _ _ _ _) as [sg2|] eqn:Hc; simpl; [|done]; intros [= <- <-]; by rewrite (Hchange _ _ _ _ Hc).
  unfold stage_quarantine, staging_plus. cbn [sg_digest sg_ops sg_staged].
  destruct (current_version _ _ _ _) as [cur|]; simpl; [|done]. destruct (Change.snapshot c); [|done].
  intros [= <- <-]. simpl. by rewrite fold_in_plus.
Qed.

(** Staging looks at the digest only to fold it: it succeeds from one digest as from another. *)
Lemma stage_all_from (s : S) reg ms cs d d' q sg q' :
  ScopeDigest.wf d → ScopeDigest.wf d' →
  stage_all s reg ms cs (MkStaging d [] ∅, q) = Ok (sg, q') →
  let delta := ScopeDigest.raw d - ScopeDigest.raw d' in
  ∃ sg0, stage_all s reg ms cs (MkStaging d' [] ∅, q) = Ok (sg0, q') ∧ sg_ops sg0 = sg_ops sg ∧
    sg_digest sg = digest_plus (sg_digest sg0) delta.
Proof.
  intros Hd Hd' Hst delta. pose proof (stage_all_plus _ _ _ _ (- delta) _ _ _ _ Hst) as Hst0.
  destruct (stage_all_shape _ _ _ _ _ _ _ _ Hst) as [Hwf _]. specialize (Hwf Hd).
  unfold staging_plus at 1 in Hst0. cbn [sg_digest sg_ops sg_staged] in Hst0. unfold delta in Hst0.
  replace (- (ScopeDigest.raw d - ScopeDigest.raw d')) with (ScopeDigest.raw d' - ScopeDigest.raw d) in Hst0 by lia.
  rewrite digest_plus_diff in Hst0 by done.
  eexists. split; [exact Hst0|]. split; [done|]. simpl. destruct (sg_digest sg) as [z]. unfold digest_plus, ScopeDigest.wf, u128_wrapping_add in *.
  simpl in *. f_equal. rewrite Z.add_mod_idemp_l by done. rewrite <- (Z.mod_small z u128_mod) at 1 by done. f_equal. unfold delta. lia.
Qed.
End stage_facts.

(** ** Facts: a registry splits its entities between scopes *)

Lemma elem_of_scope_entities reg scope e :
  e ∈ scope_entities reg scope ↔
  ∃ r, reg_entities reg !! e = Some r ∧ EntityRegistration.scope r = scope.
Proof.
  unfold scope_entities. rewrite elem_of_dom. split.
  - intros [r Hr]. apply map_lookup_filter_Some in Hr. by exists r.
  - intros (r & Hr & Hs). exists r. by apply map_lookup_filter_Some.
Qed.

Lemma scope_entities_disjoint reg s s' : s ≠ s' → scope_entities reg s ## scope_entities reg s'.
Proof.
  intros Hne e He He'. apply elem_of_scope_entities in He as (r & Hr & <-).
  apply elem_of_scope_entities in He' as (r' & Hr' & <-). congruence.
Qed.

(** The list [begin_rebootstrap] sends is the scope's entities. *)
Lemma cleared_entities reg scope e :
  registry_wf reg →
  e ∈ (EntityRegistration.entity <$>
        filter (λ r, EntityRegistration.scope r = scope) (entities reg))
  ↔ e ∈ scope_entities reg scope.
Proof.
  intros Hwf. rewrite list_elem_of_fmap, elem_of_scope_entities. split.
  - intros (r & -> & Hin). apply list_elem_of_filter in Hin as [Hs Hin].
    apply entities_elem in Hin; [|done]. by exists r.
  - intros (r & Hr & Hs). exists r. pose proof (Hwf _ _ Hr) as He. simpl in He. split; [done|].
    apply list_elem_of_filter. split; [done|]. apply entities_elem; [done|]. by rewrite He.
Qed.

(** ** Facts: the position a committed batch leaves *)

Lemma to_hex_parse c d :
  ScopeDigest.wf d →
  parse_scope (StoredScope.mk c (ScopeDigest.to_hex d)) = ScopeState.restored c d.
Proof.
  intros Hd. unfold parse_scope, ScopeDigest.to_hex. cbn [StoredScope.digest StoredScope.cursor].
  rewrite from_str_radix_hex by done. by destruct d.
Qed.

(** ** Facts: what one apply can do *)

(** The verdict of the digest comparison, as operations and as health. *)
Definition counted (h : ScopeHealth) (diverged rebuilding : bool) : bool :=
  diverged && (is_healthy h || (rebuilding && needs_rebootstrap h)).
Definition healed_now (h : ScopeHealth) (compare diverged : bool) : bool :=
  compare && negb diverged && needs_rebootstrap h.
Definition verdict_ops scope h (compare diverged rebuilding : bool) : list StorageOp :=
  (if counted h diverged rebuilding
   then [RecordDivergence scope (u32_saturating_add (attempts h) 1) false] else [])
  ++ (if healed_now h compare diverged then [RecordDivergence scope (attempts h) true] else []).
Definition tainted_at (a : Z) : ScopeHealth :=
  if MAX_HEAL_ATTEMPTS <=? a then Unhealable a else Tainted a.
Definition verdict_health scope h (compare diverged rebuilding : bool)
    (hm : gmap ScopeId.t ScopeHealth) : gmap ScopeId.t ScopeHealth :=
  if counted h diverged rebuilding
  then <[scope := tainted_at (u32_saturating_add (attempts h) 1)]> hm
  else if healed_now h compare diverged then <[scope := Healed (attempts h)]> hm else hm.

Section apply_facts.
Context {C E S T ZC : Type} `{!Storage S} `{!Compressor ZC} `{Hashes} `{Codec}.
Abbreviation engine := (Engine C E S T ZC).
Implicit Types (en : engine) (b : Batch.t).

Lemma fold_emit {A} (f : A → Effect) (l : list A) en :
  fold_left (λ en x, emit (f x) en) l en = set_effects (λ l0, l0 ++ (f <$> l)) en.
Proof.
  revert en. induction l as [|x l IH]; intros en; cbn [fold_left].
  - destruct en; unfold set_effects; simpl. by rewrite app_nil_r.
  - rewrite IH. destruct en; unfold emit, set_effects; simpl. by rewrite <- app_assoc.
Qed.

Definition batch_ops b sg : list StorageOp :=
  sg_ops sg ++ [SetCursor (Batch.scope b) (Batch.next_cursor b);
                SetScopeDigest (Batch.scope b) (ScopeDigest.to_hex (sg_digest sg))].
Definition batch_diverged b sg (compare : bool) : bool :=
  compare && negb (bool_decide (ScopeDigest.to_hex (sg_digest sg) = Batch.digest b)).

(** The fields an accepted batch leaves behind, effects apart. *)
Definition applied_state b sg compare rebuilding (s' : S) en en' : Prop :=
  let h := scope_health (Batch.scope b) en in
  storage en' = s' ∧
  scopes en' = <[Batch.scope b := ScopeState.restored (Batch.next_cursor b) (sg_digest sg)]> (scopes en) ∧
  outbox_queue en' = outbox_queue en ∧ registry en' = registry en ∧ migrations en' = migrations en ∧
  suspect en' = suspect en ∧ outbox_suspect en' = outbox_suspect en ∧
  health en' = verdict_health (Batch.scope b) h compare (batch_diverged b sg compare) rebuilding (health en) ∧
  upgrade_required en' = upgrade_required en.

(** Every run of [apply_changes] on a trusted scope is one of three: refused with nothing
    done, the transaction failed, or the batch was applied. *)
Lemma apply_changes_cases b compare rebuilding en en' r :
  Batch.scope b ∉ suspect en → apply_changes b compare rebuilding en = (en', r) →
  (∃ e, r = Err e ∧ en' = en) ∨
  ∃ sg q,
    validate_ordering b (Cursor.get (ScopeState.cursor
      (default ScopeState.NEW (scopes en !! Batch.scope b)))) = Ok () ∧
    stage_all (storage en) (registry en) (migrations en) (Batch.changes b)
      (MkStaging (ScopeState.digest (default ScopeState.NEW (scopes en !! Batch.scope b))) [] ∅, [])
      = Ok (sg, q) ∧
    let div := batch_diverged b sg compare in
    let ops := batch_ops b sg ++
      verdict_ops (Batch.scope b) (scope_health (Batch.scope b) en) compare div rebuilding in
    (∃ s' se, transact (storage en) ops = (s', Err se) ∧ r = Err (ApplyError.Storage se) ∧
       en' = set_outbox_suspect true (set_suspect (λ x, {[Batch.scope b]} ∪ x) (set_storage s' en))) ∨
    (∃ s' o, transact (storage en) ops = (s', Ok o) ∧
       r = Ok (AppliedBatch.mk (length (Batch.changes b)) div) ∧
       applied_state b sg compare rebuilding s' en en').
Proof.
  intros Hs Ha. unfold apply_changes, apply_committed, st_bind, refresh_if_suspect in Ha.
  rewrite bool_decide_eq_false_2 in Ha by done. cbn [negb] in Ha.
  destruct (validate_ordering _ _) as [[]|e] eqn:Hv; cbn [res_bind] in Ha; [|left; naive_solver].
  destruct (stage_all _ _ _ _ _) as [[sg q]|e] eqn:Hst; [|left; naive_solver].
  right. exists sg, q. split; [done|]. split; [done|]. cbn zeta.
  unfold engine_transact in Ha. rewrite <- !app_assoc in Ha.
  unfold batch_ops, verdict_ops, counted, healed_now. rewrite <- !app_assoc.
  fold (batch_diverged b sg compare) in Ha. set (div := batch_diverged b sg compare) in *.
  set (h := scope_health (Batch.scope b) en) in *.
  set (cnt := div && (is_healthy h || (rebuilding && needs_rebootstrap h))) in *.
  set (heal := compare && negb div && needs_rebootstrap h) in *.
  assert (Hops : (match (if cnt then Some (u32_saturating_add (attempts h) 1) else None) with
                  | Some a => [RecordDivergence (Batch.scope b) a false] | None => [] end)
    = if cnt then [RecordDivergence (Batch.scope b) (u32_saturating_add (attempts h) 1) false] else [])
    by (by destruct cnt).
  rewrite Hops in Ha. clear Hops.
  destruct (transact _ _) as [s' [o|se]] eqn:Ht.
  - right. exists s', o. split; [done|].
    assert (Hfold : ∀ e0 : engine, fold_left (λ en '(e, i, sv, reason), emit (Emit (RowQuarantined e i sv reason)) en) q e0
      = set_effects (λ l0, l0 ++ ((λ '(e, i, sv, reason), Emit (RowQuarantined e i sv reason)) <$> q)) e0).
    { intros e0. rewrite <- fold_emit. clear. revert e0. induction q as [|[[[??]?]?] q IH]; intros e0; [done|].
      cbn [fold_left]. apply IH. }
    rewrite Hfold in Ha. clear Hfold. injection Ha as <- <-. split; [done|].
    unfold applied_state, verdict_health, counted, healed_now, taint, tainted_at. cbv zeta.
    fold div h cnt heal. destruct cnt.
    + by destruct (MAX_HEAL_ATTEMPTS <=? _).
    + by destruct heal.
  - left. exists s', se. injection Ha as <- <-. done.
Qed.
End apply_facts.

(** ** Facts: the durable state after a batch *)

Lemma verdict_ops_view scope h compare diverged rebuilding v :
  let v' := apply_ops (verdict_ops scope h compare diverged rebuilding) v in
  v_rows v' = v_rows v ∧ v_cursors v' = v_cursors v ∧ v_digests v' = v_digests v ∧
  v_outbox v' = v_outbox v ∧ v_resolved v' = v_resolved v ∧ v_recovered v' = v_recovered v ∧
  v_quarantine v' = v_quarantine v ∧
  (∀ s, s ≠ scope → v_divergences v' !! s = v_divergences v !! s).
Proof.
  unfold verdict_ops. destruct (counted _ _ _), (healed_now _ _ _); cbn;
    split_and!; try done; intros s Hs; by rewrite ?lookup_insert_ne.
Qed.

Lemma batch_view b sg h compare diverged rebuilding v :
  Forall (λ op, is_row_op op = true) (sg_ops sg) →
  let v' := apply_ops (batch_ops b sg ++ verdict_ops (Batch.scope b) h compare diverged rebuilding) v in
  versions_of v' = versions_of (apply_ops (sg_ops sg) v) ∧
  v_cursors v' = <[Batch.scope b := Batch.next_cursor b]> (v_cursors v) ∧
  v_digests v' = <[Batch.scope b := ScopeDigest.to_hex (sg_digest sg)]> (v_digests v) ∧
  v_outbox v' = v_outbox v ∧ v_resolved v' = v_resolved v ∧ v_recovered v' = v_recovered v ∧
  (∀ s, s ≠ Batch.scope b → v_divergences v' !! s = v_divergences v !! s).
Proof.
  intros Hrow. cbv zeta. rewrite apply_ops_app.
  destruct (verdict_ops_view (Batch.scope b) h compare diverged rebuilding (apply_ops (batch_ops b sg) v))
    as (Hr1 & Hc1 & Hd1 & Ho1 & Hre1 & Hrc1 & _ & Hdv1).
  destruct (row_ops_position (sg_ops sg) v Hrow) as (Hc & Hd & Ho & Hr & Hre & Hdv).
  unfold versions_of. rewrite Hr1, Hc1, Hd1, Ho1, Hre1, Hrc1. clear Hr1 Hc1 Hd1 Ho1 Hre1 Hrc1.
  unfold batch_ops in *. rewrite apply_ops_app in *. cbn in *. rewrite Hc, Hd, Ho, Hr, Hre.
  split_and!; try done. intros s Hs. rewrite Hdv1 by done. by rewrite Hdv.
Qed.

Section invariants.
Context {C E S T ZC : Type} `{!Storage S} `{!StorageLaws S} `{!Compressor ZC} `{Hashes} `{Codec}.
Abbreviation engine := (Engine C E S T ZC).
Implicit Types (en : engine) (b : Batch.t).

(** A batch carries the rows of its own scope, and the app can read all of them. *)
Definition fits en (scope : ScopeId.t) (cs : list Change.t) : Prop :=
  Forall (λ c, Change.entity c ∈ scope_entities (registry en) scope) cs.
Definition readable en (cs : list Change.t) : Prop :=
  Forall (λ c, is_ok (migrated_change (registry en) (migrations en) c) = true) cs.

Definition held en (scope : ScopeId.t) (m : LiveRows) : LiveRows :=
  restrict (scope_entities (registry en) scope) m.

(** In a scope the engine trusts, the digest in memory is the digest of the rows stored. *)
Lemma trusted_digest en scope :
  coherent en → durable_ok (registry en) (durable en) → scope ∉ suspect en →
  ScopeState.digest (default ScopeState.NEW (scopes en !! scope)) =
    map_digest (held en scope (versions_of (durable en))).
Proof.
  intros [Hc _] Hd Hs. rewrite (Hc _ Hs). specialize (Hd scope). unfold scope_ok in Hd. cbv zeta in Hd.
  unfold view_scope, held. destruct (v_cursors (durable en) !! scope) as [cur|].
  - rewrite Hd. unfold default, from_option, id. cbn [fmap option_fmap option_map].
    rewrite to_hex_parse; [done|apply map_digest_wf].
  - transitivity ScopeDigest.EMPTY; [done|]. rewrite (Hd : restrict _ _ = ∅). symmetry. apply map_digest_empty.
Qed.

(** The digest the engine keeps for a scope, and how far it is from that of the rows stored. *)
Definition kept_digest en (scope : ScopeId.t) : ScopeDigest.t :=
  ScopeState.digest (default ScopeState.NEW (scopes en !! scope)).
Definition drift_of en (scope : ScopeId.t) : Z :=
  ScopeDigest.raw (kept_digest en scope) - ScopeDigest.raw (map_digest (held en scope (versions_of (durable en)))).

Lemma trusted_drift en scope :
  coherent en → durable_ok (registry en) (durable en) → scope ∉ suspect en → drift_of en scope = 0.
Proof. intros Hc Hd Hs. unfold drift_of, kept_digest. rewrite trusted_digest by done. lia. Qed.

Lemma kept_digest_wf en scope : coherent en → scope ∉ suspect en → ScopeDigest.wf (kept_digest en scope).
Proof.
  intros [Hc _] Hs. unfold kept_digest. rewrite (Hc _ Hs). destruct (view_scope _ _) as [st|]; [|done].
  cbn. unfold parse_scope. cbn. destruct (u128_from_str_radix_16 _) as [v|] eqn:Hv; [|done].
  by apply from_str_radix_range in Hv.
Qed.

(** Staging from any digest, for the entities [ents]: the digest ends as far from that of the rows
    the batch should leave as it began, and the operations store the changes the app can read. *)
Lemma staged_from en ents cs d sg q :
  ScopeDigest.wf d → Forall (λ c, Change.entity c ∈ ents) cs → Forall change_wf cs →
  stage_all (storage en) (registry en) (migrations en) cs (MkStaging d [] ∅, []) = Ok (sg, q) →
  sg_digest sg = digest_plus (map_digest (restrict ents (rows_effect cs (versions_of (durable en)))))
    (ScopeDigest.raw d - ScopeDigest.raw (map_digest (restrict ents (versions_of (durable en))))) ∧
  versions_of (apply_ops (sg_ops sg) (durable en)) =
    rows_effect (legible (registry en) (migrations en) cs) (versions_of (durable en)).
Proof using Type*.
  intros Hd Hfit Hwf Hst.
  destruct (stage_all_from _ _ _ _ _ (map_digest (restrict ents (versions_of (durable en)))) _ _ _
    Hd (map_digest_wf _) Hst) as (sg0 & Hst0 & Hops0 & ->).
  eapply stage_all_ok in Hst0 as ([_ Hdig] & ops & Hops & _ & Hv); [|exact Hfit|exact Hwf|].
  - simpl in Hops. rewrite <- Hops0, Hops, Hdig. split; [done|apply Hv].
  - split; [|reflexivity]. intros e i. simpl. rewrite lookup_empty.
    unfold versions_of, view_version. by rewrite lookup_fmap.
Qed.

Lemma batch_drifts en b sg q :
  coherent en → Batch.scope b ∉ suspect en →
  fits en (Batch.scope b) (Batch.changes b) → Forall change_wf (Batch.changes b) →
  stage_all (storage en) (registry en) (migrations en) (Batch.changes b)
    (MkStaging (kept_digest en (Batch.scope b)) [] ∅, []) = Ok (sg, q) →
  sg_digest sg = digest_plus
    (map_digest (held en (Batch.scope b) (rows_effect (Batch.changes b) (versions_of (durable en)))))
    (drift_of en (Batch.scope b)).
Proof using Type*. intros Hc Hs Hfit Hwf Hst. by eapply staged_from in Hst as [? _]; [|apply kept_digest_wf|..]. Qed.

Lemma batch_written en b sg q :
  coherent en → Batch.scope b ∉ suspect en → Forall change_wf (Batch.changes b) →
  stage_all (storage en) (registry en) (migrations en) (Batch.changes b)
    (MkStaging (kept_digest en (Batch.scope b)) [] ∅, []) = Ok (sg, q) →
  Forall (λ op, is_row_op op = true) (sg_ops sg) ∧
  versions_of (apply_ops (sg_ops sg) (durable en)) =
    rows_effect (legible (registry en) (migrations en) (Batch.changes b)) (versions_of (durable en)).
Proof using Type*.
  intros Hc Hs Hwf Hst. pose proof (stage_all_shape _ _ _ _ _ _ _ _ Hst) as [_ (ops & Hops & Hrow)].
  simpl in Hops. rewrite <- Hops in Hrow. split; [done|].
  eapply (staged_from _ (list_to_set (Change.entity <$> Batch.changes b))) in Hst as [_ ?]; [done|by apply kept_digest_wf| |done].
  apply Forall_forall. intros c Hc'. apply elem_of_list_to_set, list_elem_of_fmap. by exists c.
Qed.

(** Staging a validated batch on a trusted scope: the digest it computes is that of the
    rows the batch leaves, and the operations leave those rows. *)
Lemma batch_staged en b sg q :
  coherent en → durable_ok (registry en) (durable en) → Batch.scope b ∉ suspect en →
  fits en (Batch.scope b) (Batch.changes b) → Forall change_wf (Batch.changes b) →
  stage_all (storage en) (registry en) (migrations en) (Batch.changes b)
    (MkStaging (ScopeState.digest (default ScopeState.NEW (scopes en !! Batch.scope b))) [] ∅, [])
    = Ok (sg, q) →
  sg_digest sg =
    map_digest (held en (Batch.scope b) (rows_effect (Batch.changes b) (versions_of (durable en)))) ∧
  Forall (λ op, is_row_op op = true) (sg_ops sg) ∧
  (readable en (Batch.changes b) →
     versions_of (apply_ops (sg_ops sg) (durable en)) =
       rows_effect (Batch.changes b) (versions_of (durable en))).
Proof using Type*.
  intros Hc Hd Hs Hfit Hwf Hst. rewrite trusted_digest in Hst by done.
  eapply stage_all_ok in Hst as ([_ Hdig] & ops & Hops & Hrow & Hv); [|exact Hfit|exact Hwf|].
  - simpl in Hops. rewrite Hops. split_and!; [exact Hdig|done|]. intros Hr. rewrite Hv. by rewrite legible_all.
  - split; [|reflexivity]. intros e i. simpl. rewrite lookup_empty.
    unfold versions_of, view_version. by rewrite lookup_fmap.
Qed.

(** Whatever part of the transaction a batch leads to is committed, the durable promise
    holds: the transaction carries rows, cursor and digest together. *)
Lemma batch_durable en b sg h compare diverged rebuilding :
  durable_ok (registry en) (durable en) → fits en (Batch.scope b) (Batch.changes b) →
  Forall (λ op, is_row_op op = true) (sg_ops sg) →
  versions_of (apply_ops (sg_ops sg) (durable en)) =
    rows_effect (Batch.changes b) (versions_of (durable en)) →
  sg_digest sg =
    map_digest (held en (Batch.scope b) (rows_effect (Batch.changes b) (versions_of (durable en)))) →
  durable_ok (registry en)
    (apply_ops (batch_ops b sg ++ verdict_ops (Batch.scope b) h compare diverged rebuilding) (durable en)).
Proof.
  intros Hd Hfit Hrow Hv Hdig. destruct (batch_view b sg h compare diverged rebuilding (durable en) Hrow)
    as (Hv' & Hc' & Hd' & _).
  intros scope. unfold scope_ok. cbv zeta. rewrite Hv', Hv, Hc', Hd'. clear Hv' Hc' Hd'. specialize (Hd scope). unfold scope_ok in Hd. cbv zeta in Hd.
  destruct (decide (scope = Batch.scope b)) as [->|Hne].
  - rewrite !lookup_insert_eq. by rewrite Hdig.
  - rewrite !lookup_insert_ne by done.
    rewrite (restrict_effect_other (scope_entities (registry en) (Batch.scope b)));
      [done| |done]. by apply scope_entities_disjoint.
Qed.
End invariants.

(** ** Facts: reloading *)

Section reload_facts.
Context {C E S T ZC : Type} `{!Storage S} `{!StorageLaws S} `{!Compressor ZC} `{Hashes} `{Codec}.
Abbreviation engine := (Engine C E S T ZC).
Implicit Types (en : engine).

Lemma refresh_facts scope en en' r :
  refresh_if_suspect scope en = (en', r) →
  storage en' = storage en ∧ registry en' = registry en ∧ migrations en' = migrations en ∧
  outbox_queue en' = outbox_queue en ∧ outbox_suspect en' = outbox_suspect en ∧
  health en' = health en ∧ effects en' = effects en ∧ upgrade_required en' = upgrade_required en ∧
  (coherent en → coherent en') ∧
  ((∃ e, r = Err e ∧ en' = en) ∨ (r = Ok () ∧ (scope ∉ suspect en') ∧ (suspect en' ⊆ suspect en) ∧
    (scope ∉ suspect en → en' = en))).
Proof using Type*.
  unfold refresh_if_suspect. case_bool_decide as Hs; cbn [negb]; [|intros [= <- <-]; naive_solver].
  destruct (scope_state (storage en) scope) as [stored|e] eqn:Hst; [|intros [= <- <-]; naive_solver].
  apply scope_state_ok in Hst.
  destruct stored as [st|]; intros [= <- <-]; split_and!; try done;
    try (right; split_and!; [done|set_solver..]).
  - intros [Hc Ho]. split; [|done]. intros sc Hsc. unfold durable in *. simpl in *.
    destruct (decide (sc = scope)) as [->|Hne].
    + by rewrite lookup_insert_eq, <- Hst.
    + rewrite lookup_insert_ne by done. apply Hc. set_solver.
  - intros [Hc Ho]. split; [|done]. intros sc Hsc. unfold durable in *. simpl in *.
    destruct (decide (sc = scope)) as [->|Hne].
    + by rewrite lookup_delete_eq, <- Hst.
    + rewrite lookup_delete_ne by done. apply Hc. set_solver.
Qed.

Lemma refresh_outbox_facts en en' r :
  refresh_outbox_if_suspect en = (en', r) →
  storage en' = storage en ∧ registry en' = registry en ∧ migrations en' = migrations en ∧
  scopes en' = scopes en ∧ suspect en' = suspect en ∧ compressor en' = compressor en ∧
  health en' = health en ∧ effects en' = effects en ∧ upgrade_required en' = upgrade_required en ∧
  (coherent en → coherent en') ∧
  ((∃ e, r = Err e ∧ en' = en) ∨ (r = Ok () ∧ outbox_suspect en' = false ∧
    (outbox_suspect en = false → en' = en))).
Proof using Type*.
  unfold refresh_outbox_if_suspect. destruct (outbox_suspect en) eqn:Hs; simpl; [|intros [= <- <-]; naive_solver].
  destruct (Storage.outbox (storage en)) as [stored|e] eqn:Hst; [|intros [= <- <-]; naive_solver].
  apply outbox_ok in Hst. intros [= <- <-]. split_and!; try done.
  - intros [Hc Ho]. split; [done|]. intros _. simpl. done.
  - by right.
Qed.

(** After a failed transaction the scopes it did not name still agree with storage. *)
Lemma failed_coherent en (scope : ScopeId.t) s' :
  coherent en →
  (∀ sc, sc ≠ scope → view_scope (view s') sc = view_scope (durable en) sc) →
  coherent (set_outbox_suspect true (set_suspect (λ x, {[scope]} ∪ x) (set_storage s' en))).
Proof.
  intros [Hc _] Hv. split; [|done]. intros sc Hsc. unfold durable in *. simpl in *.
  rewrite Hv by set_solver. apply Hc. set_solver.
Qed.
End reload_facts.

(** ** Facts: answering a push *)

Section answer_facts.
Implicit Types (reg : Registry) (q : list OutboxEntry.t) (an : Answering).

Lemma find_id_some q id e :
  find (λ e, bool_decide (OutboxEntry.id e = id)) q = Some e → e ∈ q ∧ OutboxEntry.id e = id.
Proof. intros [Hin Hid]%find_some. apply bool_decide_eq_true in Hid. by rewrite list_elem_of_In. Qed.

Lemma find_id_none q id :
  find (λ e, bool_decide (OutboxEntry.id e = id)) q = None ↔ id ∉ (OutboxEntry.id <$> q).
Proof.
  split.
  - intros Hf Hin. apply list_elem_of_fmap in Hin as (e & -> & He). rewrite list_elem_of_In in He.
    eapply find_none in Hf; [|exact He]. by apply bool_decide_eq_false in Hf.
  - intros Hn. destruct (find _ q) as [e|] eqn:Hf; [|done]. apply find_id_some in Hf as [He <-].
    destruct Hn. apply list_elem_of_fmap. by exists e.
Qed.

(** What the loop over the results has built. *)
Definition answering_ok q (rs : list CommandResult.t) an : Prop :=
  NoDup (fst <$> an_resolutions an) ∧
  (∀ id, id ∈ an_answered an ↔ id ∈ (fst <$> an_resolutions an)) ∧
  (∀ id, id ∈ (fst <$> an_resolutions an) ↔
     id ∈ (OutboxEntry.id <$> q) ∧ id ∈ (CommandResult.id <$> rs)) ∧
  (an_unknown an + length (an_resolutions an) = length rs)%nat ∧
  (an_ops an = [] ↔ an_resolutions an = []) ∧
  (∀ v, v_outbox (apply_ops (an_ops an) v) =
          fold_left (λ l '(id, _), without id l) (an_resolutions an) (v_outbox v) ∧
        v_resolved (apply_ops (an_ops an) v) = v_resolved v ++ an_resolutions an ∧
        v_rows (apply_ops (an_ops an) v) = v_rows v ∧ v_cursors (apply_ops (an_ops an) v) = v_cursors v ∧
        v_digests (apply_ops (an_ops an) v) = v_digests v ∧
        v_divergences (apply_ops (an_ops an) v) = v_divergences v).

Lemma drafts_view reg e r drafts res :
  resolve reg e r = (drafts, res) → ∀ v,
  v_outbox (apply_ops drafts v) = v_outbox v ∧ v_resolved (apply_ops drafts v) = v_resolved v ∧
  v_rows (apply_ops drafts v) = v_rows v ∧ v_cursors (apply_ops drafts v) = v_cursors v ∧
  v_digests (apply_ops drafts v) = v_digests v ∧ v_divergences (apply_ops drafts v) = v_divergences v.
Proof.
  unfold resolve. intros Hr v. destruct (CommandResult.status r); simplify_eq/=; try done.
  destruct (target_of _ _); simplify_eq/=; [|done]. by destruct (bool_decide _).
Qed.

Lemma answer_one_ok reg q rs an r :
  answering_ok q rs an → answering_ok q (rs ++ [r]) (answer_one reg q an r).
Proof.
  intros (Hnd & Hans & Hids & Hcnt & Hnil & Hv). unfold answer_one.
  assert (Hsame : ∀ n, (CommandResult.id r ∈ (OutboxEntry.id <$> q) →
      CommandResult.id r ∈ (fst <$> an_resolutions an)) → (n = an_unknown an + 1)%nat →
    answering_ok q (rs ++ [r]) (MkAnswering (an_ops an) (an_resolutions an) n (an_answered an))).
  { intros n Hin ->. unfold answering_ok. simpl. split_and!; try done.
    - intros id. rewrite Hids, fmap_app, elem_of_app. simpl. rewrite list_elem_of_singleton.
      split; [naive_solver|]. intros [Hq [?| ->]]; [done|]. by apply Hids, Hin.
    - rewrite length_app. simpl. lia. }
  destruct (find _ q) as [e|] eqn:Hf.
  - apply find_id_some in Hf as [He Hid]. case_bool_decide as Ha.
    + apply Hsame; [|done]. intros _. by apply Hans.
    + destruct (resolve reg e r) as [drafts res] eqn:Hr. pose proof (drafts_view _ _ _ _ _ Hr) as Hdv.
      assert (Hnew : CommandResult.id r ∉ (fst <$> an_resolutions an)) by (by rewrite <- Hans).
      unfold answering_ok. cbn [an_ops an_resolutions an_unknown an_answered].
      rewrite !fmap_app. cbn [fmap list_fmap fst]. split_and!.
      * apply NoDup_app. split_and!; [done| |apply NoDup_singleton]. set_solver.
      * intros id. rewrite elem_of_union, elem_of_singleton, elem_of_app, list_elem_of_singleton, Hans. tauto.
      * intros id. rewrite !elem_of_app, !list_elem_of_singleton, Hids. split; [|tauto].
        intros [?| ->]; [tauto|]. split; [|by right]. rewrite <- Hid. apply list_elem_of_fmap. by exists e.
      * rewrite !length_app. simpl. lia.
      * split; intros Hx; exfalso; [|by destruct (an_resolutions an)].
        destruct (an_ops an); [|done]. by destruct drafts.
      * intros v. rewrite !apply_ops_app. destruct (Hv v) as (Hv1 & Hv2 & Hv3 & Hv4 & Hv5 & Hv6).
        destruct (Hdv (apply_ops (an_ops an) v)) as (Ho & Hre & Hrw & Hc & Hd & Hdi).
        rewrite fold_left_app. cbn. rewrite Ho, Hre, Hrw, Hc, Hd, Hdi, Hv1, Hv2, Hv3, Hv4, Hv5, Hv6.
        by rewrite <- app_assoc.
  - apply find_id_none in Hf. by apply Hsame.
Qed.

Lemma answering_all reg q rs :
  answering_ok q rs (fold_left (answer_one reg q) rs (MkAnswering [] [] 0 ∅)).
Proof.
  induction rs as [|r rs IH] using rev_ind.
  - simpl. unfold answering_ok. simpl. split_and!; try done; [constructor|set_solver..|].
    intros v. by rewrite app_nil_r.
  - rewrite fold_left_app. by apply answer_one_ok.
Qed.

(** The queue after a response holds exactly the entries it did not answer, in order. *)
Lemma fold_without q (res : list (CommandId.t * Resolution.t)) :
  fold_left (λ l '(id, _), without id l) res q =
    filter (λ e, OutboxEntry.id e ∉ (fst <$> res)) q.
Proof.
  revert q. induction res as [|[id r] res IH]; intros q; simpl.
  - symmetry. apply filter_all, Forall_forall. intros e _. set_solver.
  - rewrite IH. unfold without. rewrite list_filter_filter. apply list_filter_iff. set_solver.
Qed.
End answer_facts.
