(* ===== verification/EngineSteps.v ===== *)
(** * EngineSteps: the client as a transition system, and the invariant every run keeps.

    A step is one public call on the engine, with any result: a call that fails, or whose
    transaction was committed and then reported as failed, is a step too; or a restart over the
    same storage. A [Regime] says what a run may bring. Whatever it brings, memory agrees with
    storage where the engine trusts it ([client_step_coherent]); that the digest is the digest
    of the rows ([client_inv]) is kept by the changes the app understands. *)

From S2P Require Import Prelude Errors Nums Ids Json Wire Integrity Core Registry Migrate.
From S2P Require Import Outbox Storage Apply Engine EngineFacts.
From stdpp Require Import options.

Section steps.
Context {C E S T ZC : Type} `{!Storage S} `{!StorageLaws S} `{!Compressor ZC} `{Hashes} `{Codec}.
Abbreviation engine := (Engine C E S T ZC).
Implicit Types (en : engine).

(** ** Restarting

    A new process opens the same storage: it builds an engine, registers what this version of
    the app knows, and hands back what storage holds: each scope's position, the outbox, the
    divergence records. *)
Definition stored_scopes (v : View) : list (ScopeId.t * StoredScope.t) :=
  omap (λ '(sc, _), (sc,.) <$> view_scope v sc) (map_to_list (v_cursors v)).
Definition restore_scopes (stored : list (ScopeId.t * StoredScope.t)) en : engine :=
  fold_left (λ en '(sc, st), restore_scope sc (parse_scope st) en) stored en.
Definition restore_healths (records : list (ScopeId.t * (Z * bool))) en : engine :=
  fold_left (λ en '(sc, (a, healed)), restore_scope_health sc a healed en) records en.
Definition restarted (c : C) (e : E) (t : T) (z : ZC) reg ms en : engine :=
  let fresh := set_migrations (λ _, ms) (set_registry (λ _, reg) (new c e (storage en) t z)) in
  restore_healths (map_to_list (v_divergences (durable en)))
    (restore_outbox (v_outbox (durable en)) (restore_scopes (stored_scopes (durable en)) fresh)).

(** ** The steps *)

(** What a run may bring: the changes the server may send for a scope, and the registries the
    app may be reopened with. *)
Record Regime : Type := MkRegime {
  admits : engine → ScopeId.t → list Change.t → Prop;
  reopens : engine → Registry → Prop;
}.
(** Anything at all: rows the app does not file under the scope or cannot read included. *)
Definition anything : Regime := MkRegime (λ _ _ _, True) (λ _ _, True).
(** Only what the app understands: changes to entities it files under the scope, in schemas it
    can read; reopened by a version that files the stored rows where they were filed. *)
Definition same_filing en reg : Prop :=
  registry_wf reg ∧ ∀ sc e i, is_Some (v_rows (durable en) !! (e, i)) →
    e ∈ scope_entities reg sc ↔ e ∈ scope_entities (registry en) sc.
Definition understood : Regime :=
  MkRegime (λ en scope cs, fits en scope cs ∧ readable en cs) same_filing.

Inductive client_step (R : Regime) : engine → engine → Prop :=
| step_batch en b en' r :
    admits R en (Batch.scope b) (Batch.changes b) →
    apply_batch b en = (en', r) → client_step R en en'
| step_bootstrap en p en' r :
    admits R en (BootstrapResponse.scope p) (BootstrapResponse.changes p) →
    apply_bootstrap p en = (en', r) → client_step R en en'
| step_rebootstrap en scope en' r : begin_rebootstrap scope en = (en', r) → client_step R en en'
| step_clear_health en scope en' r : clear_scope_health scope en = (en', r) → client_step R en en'
| step_reload en scope en' r : reload_scope scope en = (en', r) → client_step R en en'
| step_enqueue en entry en' r : enqueue entry en = (en', r) → client_step R en en'
| step_push en protocol budget en' r : build_push protocol budget en = (en', r) → client_step R en en'
| step_results en response en' r : apply_results response en = (en', r) → client_step R en en'
| step_upgrade en envelope : client_step R en (on_upgrade_required envelope en)
| step_upgraded en : client_step R en (upgrade_completed en)
| step_effect en : client_step R en (next_effect en).1
| step_restart en c e t z reg ms : reopens R en reg → client_step R en (restarted c e t z reg ms en).

(** The invariant: what memory trusts agrees with storage, and storage keeps its promise. *)
Definition client_inv en : Prop :=
  coherent en ∧ durable_ok (registry en) (durable en) ∧ registry_wf (registry en).

(** ** Each call keeps the invariant *)

Lemma transact_durable (s s' : S) ops r (P : View → Prop) :
  transact s ops = (s', r) → P (view s) → P (apply_ops ops (view s)) → P (view s').
Proof using Type*.
  intros Ht Hold Hnew. destruct r as [o|e].
  - by destruct (transact_ok _ _ _ _ Ht) as [-> _].
  - by destruct (transact_err _ _ _ _ Ht) as [-> | ->].
Qed.

Lemma view_scope_other v v' sc :
  v_cursors v' !! sc = v_cursors v !! sc → v_digests v' !! sc = v_digests v !! sc →
  view_scope v' sc = view_scope v sc.
Proof. unfold view_scope. by intros -> ->. Qed.

Lemma durable_ok_ext reg v v' :
  v_rows v' = v_rows v → v_cursors v' = v_cursors v → v_digests v' = v_digests v →
  durable_ok reg v → durable_ok reg v'.
Proof. unfold durable_ok, scope_ok, versions_of. by intros -> -> ->. Qed.

(** An apply first reloads a scope it does not trust; the rest runs on the result. *)
Lemma apply_changes_fresh b compare rebuilding en en' r :
  apply_changes b compare rebuilding en = (en', r) →
  ∃ en1 r1, refresh_if_suspect (Batch.scope b) en = (en1, r1) ∧
    ((∃ e, r1 = Err e ∧ r = Err e ∧ en' = en) ∨
     (r1 = Ok () ∧ (Batch.scope b ∉ suspect en1) ∧ apply_changes b compare rebuilding en1 = (en', r))).
Proof using Type*.
  intros Ha. destruct (refresh_if_suspect (Batch.scope b) en) as [en1 r1] eqn:Hre.
  destruct (refresh_facts _ _ _ _ Hre) as (_ & _ & _ & _ & _ & _ & _ & _ & _ & Hcase).
  unfold apply_changes, apply_committed, st_bind in Ha. rewrite Hre in Ha. exists en1, r1. split; [done|].
  destruct Hcase as [(e & -> & ->)|(-> & Hns & _ & _)]; [left; by injection Ha as <- <-; eauto|right].
  split_and!; [done|done|]. unfold apply_changes, apply_committed, st_bind, refresh_if_suspect at 1.
  by rewrite bool_decide_eq_false_2.
Qed.

(** *** Applying *)

(** Whatever a batch brings, memory agrees with storage afterwards wherever it is trusted. *)
Lemma apply_trusted_coherent b compare rebuilding en en' r :
  coherent en → Batch.scope b ∉ suspect en → apply_changes b compare rebuilding en = (en', r) → coherent en'.
Proof using Type*.
  intros Hc Hns Ha. destruct (apply_changes_cases _ _ _ _ _ _ Hns Ha) as [(e & _ & ->)|(sg & q & _ & Hstage & Hrun)]; [done|].
  apply stage_all_shape in Hstage as [Hwf (ops & Hops & Hrow)]. simpl in Hops. rewrite <- Hops in Hrow.
  specialize (Hwf (kept_digest_wf _ _ Hc Hns)). cbv zeta in Hrun. set (div := batch_diverged b sg compare) in *.
  destruct (batch_view b sg (scope_health (Batch.scope b) en) compare div rebuilding (durable en) Hrow)
    as (_ & Hcur & Hdg & Hob & _). unfold durable in Hcur, Hdg, Hob.
  destruct Hrun as [(s' & se & Ht & _ & ->)|(s' & o & Ht & _ & Hs)].
  - apply failed_coherent; [done|]. intros sc Hne.
    eapply (transact_durable _ _ _ _ (λ v, view_scope v sc = _)); [exact Ht|done|].
    apply view_scope_other; [rewrite Hcur|rewrite Hdg]; by rewrite lookup_insert_ne.
  - destruct Hs as (<- & Hsc & Hoq & _ & _ & Hsu & Hos & _). apply transact_ok in Ht as [Ht _].
    destruct Hc as [Hc Ho]. split; unfold scope_coherent, durable; rewrite Ht; [|by rewrite Hos, Hoq, Hob].
    rewrite Hsu, Hsc. intros sc Hn. unfold view_scope. rewrite Hcur, Hdg.
    destruct (decide (sc = Batch.scope b)) as [->|Hne].
    + rewrite !lookup_insert_eq. cbn [fmap option_fmap option_map]. unfold default, from_option, id.
      by rewrite to_hex_parse.
    + rewrite !lookup_insert_ne by done. by apply Hc.
Qed.

Lemma apply_changes_coherent b compare rebuilding en en' r :
  coherent en → apply_changes b compare rebuilding en = (en', r) → coherent en'.
Proof using Type*.
  intros Hc (en1 & r1 & Hre & Hcase)%apply_changes_fresh.
  destruct Hcase as [(e & _ & _ & ->)|(-> & Hns & Ha)]; [done|].
  eapply apply_trusted_coherent; [|done|exact Ha].
  by destruct (refresh_facts _ _ _ _ Hre) as (_ & _ & _ & _ & _ & _ & _ & _ & Hco & _); auto.
Qed.

Lemma refresh_inv scope en en' r :
  client_inv en → refresh_if_suspect scope en = (en', r) → client_inv en'.
Proof using Type*.
  intros (Hc & Hd & Hw) Hr. destruct (refresh_facts _ _ _ _ Hr) as (Hst & Hrg & _ & _ & _ & _ & _ & _ & Hco & _).
  unfold client_inv, durable. rewrite Hst, Hrg. auto.
Qed.

Lemma apply_trusted_inv b compare rebuilding en en' r :
  client_inv en → Batch.scope b ∉ suspect en → fits en (Batch.scope b) (Batch.changes b) →
  readable en (Batch.changes b) → apply_changes b compare rebuilding en = (en', r) → client_inv en'.
Proof using Type*.
  intros (Hc & Hd & Hw) Hns Hfit Hread Ha. destruct (apply_changes_cases _ _ _ _ _ _ Hns Ha) as
    [(e & _ & ->)|(sg & q & Hv & Hstage & Hrun)]; [by split_and!|].
  apply apply_ordering_ok in Hv as (_ & _ & Hwf & _).
  destruct (batch_staged _ _ _ _ Hc Hd Hns Hfit Hwf Hstage) as (Hdig & Hrow & Hrows).
  specialize (Hrows Hread). cbv zeta in Hrun. set (div := batch_diverged b sg compare) in *.
  pose proof (batch_durable en b sg (scope_health (Batch.scope b) en) compare div rebuilding
    Hd Hfit Hrow Hrows Hdig) as Hd'.
  split; [by eapply apply_trusted_coherent|].
  destruct Hrun as [(s' & se & Ht & _ & ->)|(s' & o & Ht & _ & Hs)].
  - split; [unfold durable; simpl; by eapply transact_durable|done].
  - destruct Hs as (<- & _ & _ & Hrg & _). apply transact_ok in Ht as [Ht _].
    rewrite Hrg. unfold durable. by rewrite Ht.
Qed.

Lemma apply_changes_inv b compare rebuilding en en' r :
  client_inv en → fits en (Batch.scope b) (Batch.changes b) → readable en (Batch.changes b) →
  apply_changes b compare rebuilding en = (en', r) → client_inv en'.
Proof using Type*.
  intros Hinv Hfit Hread (en1 & r1 & Hre & Hcase)%apply_changes_fresh.
  destruct Hcase as [(e & _ & _ & ->)|(-> & Hns & Ha)]; [done|].
  destruct (refresh_facts _ _ _ _ Hre) as (_ & Hreg & Hmig & _).
  eapply apply_trusted_inv; [by eapply refresh_inv|done| | |done];
    unfold fits, readable in *; by rewrite ?Hreg, ?Hmig.
Qed.

(** The invariant but for one scope, whose rows, digest and position may be anything. *)
Definition sound_elsewhere (scope : ScopeId.t) en : Prop :=
  (∀ sc, sc ≠ scope → scope_coherent en sc ∧ scope_ok (registry en) (durable en) sc) ∧
  (outbox_suspect en = false → outbox_queue en = v_outbox (durable en)) ∧ registry_wf (registry en).

Lemma inv_sound_elsewhere scope en : client_inv en → sound_elsewhere scope en.
Proof. intros ([Hc Ho] & Hd & Hw). split; [by split|done]. Qed.

(** The transaction that clears a scope. *)
Definition clear_ops (reg : Registry) (scope : ScopeId.t) : list StorageOp :=
  [ClearScope scope (EntityRegistration.entity <$>
     filter (λ r, EntityRegistration.scope r = scope) (entities reg));
   SetCursor scope Cursor.START; SetScopeDigest scope (ScopeDigest.to_hex ScopeDigest.EMPTY)].

Lemma clear_ops_rows reg scope v e i :
  registry_wf reg →
  v_rows (apply_ops (clear_ops reg scope) v) !! (e, i) =
    if decide (e ∈ scope_entities reg scope) then None else v_rows v !! (e, i).
Proof.
  intros Hw. cbn. rewrite map_lookup_filter. simpl. case_decide as He; destruct (v_rows _ !! _); try done; simpl.
  - rewrite option_guard_False; [done|]. intros Hn. by apply Hn, cleared_entities.
  - rewrite option_guard_True; [done|]. by rewrite cleared_entities.
Qed.

(** A cleared scope holds nothing, and the others hold what they held. *)
Lemma clear_ops_held reg scope v sc :
  registry_wf reg →
  restrict (scope_entities reg sc) (versions_of (apply_ops (clear_ops reg scope) v)) =
    if decide (sc = scope) then ∅ else restrict (scope_entities reg sc) (versions_of v).
Proof.
  intros Hw. apply map_eq. intros [e i]. unfold versions_of, restrict.
  rewrite map_lookup_filter, lookup_fmap, clear_ops_rows by done. destruct (decide (sc = scope)) as [->|Hd].
  - rewrite lookup_empty. case_decide; [done|]. destruct (v_rows _ !! _); [|done]. simpl.
    by rewrite option_guard_False.
  - rewrite map_lookup_filter, lookup_fmap. case_decide; [|done]. simpl.
    destruct (v_rows _ !! _); [|done]. simpl. rewrite option_guard_False; [done|]. simpl. intros He.
    by eapply (scope_entities_disjoint reg sc scope).
Qed.

Lemma clear_ops_ok reg scope v sc :
  registry_wf reg → (sc ≠ scope → scope_ok reg v sc) → scope_ok reg (apply_ops (clear_ops reg scope) v) sc.
Proof.
  intros Hw Hd. unfold scope_ok. cbv zeta. rewrite clear_ops_held by done. cbn.
  destruct (decide (sc = scope)) as [->|Hne].
  - by rewrite !lookup_insert_eq.
  - rewrite !lookup_insert_ne, !lookup_delete_ne by done. by apply Hd.
Qed.

Lemma clear_ops_scope reg scope v sc :
  sc ≠ scope → view_scope (apply_ops (clear_ops reg scope) v) sc = view_scope v sc.
Proof. intros Hne. apply view_scope_other; cbn; by rewrite lookup_insert_ne, lookup_delete_ne. Qed.

(** A scope just cleared starts again, in memory as in storage. *)
Lemma cleared_elsewhere scope en s' :
  (∀ sc, sc ≠ scope → scope_coherent en sc) → (outbox_suspect en = false → outbox_queue en = v_outbox (durable en)) →
  view s' = apply_ops (clear_ops (registry en) scope) (durable en) →
  coherent (set_scopes (<[scope := ScopeState.NEW]>) (set_storage s' en)).
Proof.
  intros Hsc Ho Hv. split; unfold scope_coherent, durable; simpl; rewrite Hv; [|exact Ho].
  intros sc Hs. destruct (decide (sc = scope)) as [->|Hne].
  - unfold view_scope. simpl. rewrite !lookup_insert_eq. cbn. rewrite to_hex_parse; [done|]. unfold ScopeDigest.wf. by simpl.
  - rewrite clear_ops_scope, lookup_insert_ne by done. by apply Hsc.
Qed.

Lemma cleared_coherent scope en s' :
  coherent en → view s' = apply_ops (clear_ops (registry en) scope) (durable en) →
  coherent (set_scopes (<[scope := ScopeState.NEW]>) (set_storage s' en)).
Proof. intros [Hc Ho]. by apply cleared_elsewhere. Qed.

(** Clearing a scope that succeeds restores the invariant, whatever was wrong with the scope. *)
Lemma begin_rebootstrap_restores scope en en' :
  sound_elsewhere scope en → begin_rebootstrap scope en = (en', Ok ()) → client_inv en'.
Proof using Type*.
  intros (Hsc & Ho & Hw) Hb. unfold begin_rebootstrap, engine_transact in Hb.
  fold (clear_ops (registry en) scope) in Hb.
  destruct (transact (storage en) _) as [s' [o|e]] eqn:Ht; [|done]. injection Hb as <-.
  apply transact_ok in Ht as [Ht _]. split; [apply cleared_elsewhere; [by apply Hsc|done|done]|].
  split; [|exact Hw]. unfold durable. simpl. rewrite Ht.
  intros sc. apply clear_ops_ok; [exact Hw|]. intros Hne. by apply Hsc.
Qed.

Lemma begin_rebootstrap_coherent scope en en' r :
  coherent en → begin_rebootstrap scope en = (en', r) → coherent en'.
Proof using Type*.
  intros Hc Hb. unfold begin_rebootstrap, engine_transact in Hb. fold (clear_ops (registry en) scope) in Hb.
  destruct (transact (storage en) _) as [s' [o|se]] eqn:Ht; injection Hb as <- _.
  - apply transact_ok in Ht as [Ht _]. by apply cleared_coherent.
  - apply failed_coherent; [done|]. intros sc Hne.
    eapply (transact_durable _ _ _ _ (λ v, view_scope v sc = _)); [exact Ht|done|].
    by apply clear_ops_scope.
Qed.

Lemma begin_rebootstrap_inv scope en en' r :
  client_inv en → begin_rebootstrap scope en = (en', r) → client_inv en'.
Proof using Type*.
  intros (Hc & Hd & Hw) Hb. split; [by eapply begin_rebootstrap_coherent|].
  unfold begin_rebootstrap, engine_transact in Hb. fold (clear_ops (registry en) scope) in Hb.
  destruct (transact (storage en) _) as [s' o] eqn:Ht.
  assert (durable_ok (registry en) (view s')) as Hd'.
  { eapply (transact_durable _ _ _ _ (durable_ok (registry en)) Ht); [done|]. intros sc. apply clear_ops_ok; auto. }
  by destruct o; injection Hb as <- _.
Qed.

(** A transaction that touches neither rows nor positions. *)
Definition quiet (ops : list StorageOp) (v : View) : Prop :=
  v_rows (apply_ops ops v) = v_rows v ∧ v_cursors (apply_ops ops v) = v_cursors v ∧
  v_digests (apply_ops ops v) = v_digests v.

Lemma quiet_coherent en ops s' (o : result TxOutcome.t StorageError) :
  coherent en → transact (storage en) ops = (s', o) → quiet ops (durable en) →
  ∀ sc, sc ∉ suspect en → scopes en !! sc = parse_scope <$> view_scope (view s') sc.
Proof using Type*.
  intros [Hc _] Ht (_ & Hcu & Hdi) sc Hs. unfold durable in *. rewrite (Hc _ Hs).
  eapply (transact_durable _ _ _ _ (λ v, _ = parse_scope <$> view_scope v sc)); [exact Ht|done|].
  f_equal. symmetry. apply view_scope_other; [by rewrite Hcu|by rewrite Hdi].
Qed.

Lemma quiet_durable en ops s' (o : result TxOutcome.t StorageError) reg :
  durable_ok reg (durable en) → transact (storage en) ops = (s', o) → quiet ops (durable en) →
  durable_ok reg (view s').
Proof using Type*. intros Hd Ht (Hr & Hcu & Hdi). eapply transact_durable; [exact Ht|done|]. by eapply durable_ok_ext. Qed.

Lemma clear_scope_health_coherent scope en en' r :
  coherent en → clear_scope_health scope en = (en', r) → coherent en'.
Proof using Type*.
  intros Hinv Hr. unfold clear_scope_health, engine_transact in Hr. destruct (transact _ _) as [s' o] eqn:Ht.
  pose proof (quiet_coherent _ _ _ _ Hinv Ht ltac:(by split_and!)) as Hc. destruct Hinv as [_ Ho].
  assert (Hob : v_outbox (view s') = v_outbox (durable en)).
  { apply (transact_durable _ _ _ _ (λ v, v_outbox v = _) Ht); done. }
  destruct o; injection Hr as <- <-; (split; [done|]); unfold durable; cbn; intros Hs; rewrite Hob; by apply Ho.
Qed.

Lemma clear_scope_health_inv scope en en' r :
  client_inv en → clear_scope_health scope en = (en', r) → client_inv en'.
Proof using Type*.
  intros (Hc & Hd & Hw) Hr. split; [by eapply clear_scope_health_coherent|].
  unfold clear_scope_health, engine_transact in Hr. destruct (transact _ _) as [s' o] eqn:Ht.
  pose proof (quiet_durable _ _ _ _ _ Hd Ht ltac:(by split_and!)). by destruct o; injection Hr as <- <-.
Qed.

Lemma enqueue_coherent entry en en' r : coherent en → enqueue entry en = (en', r) → coherent en'.
Proof using Type*.
  intros Hinv Hr. unfold enqueue, engine_transact in Hr.
  destruct (check_command _ _); [|by injection Hr as <- <-].
  destruct (transact _ _) as [s' o] eqn:Ht.
  pose proof (quiet_coherent _ _ _ _ Hinv Ht ltac:(by split_and!)) as Hc. destruct Hinv as [_ Ho].
  destruct o; injection Hr as <- <-; (split; [done|]); unfold durable; cbn; try done.
  apply transact_ok in Ht as [-> _]. intros Hs. cbn. rewrite Ho by done. by destruct entry.
Qed.

Lemma enqueue_inv entry en en' r : client_inv en → enqueue entry en = (en', r) → client_inv en'.
Proof using Type*.
  intros (Hc & Hd & Hw) Hr. split; [by eapply enqueue_coherent|]. unfold enqueue, engine_transact in Hr.
  destruct (check_command _ _); [|by injection Hr as <- <-]. destruct (transact _ _) as [s' o] eqn:Ht.
  pose proof (quiet_durable _ _ _ _ _ Hd Ht ltac:(by split_and!)). by destruct o; injection Hr as <- <-.
Qed.

Lemma refresh_outbox_coherent en en' r : coherent en → refresh_outbox_if_suspect en = (en', r) → coherent en'.
Proof using Type*. intros Hc Hr. destruct (refresh_outbox_facts _ _ _ Hr) as (_ & _ & _ & _ & _ & _ & _ & _ & _ & Hco & _). auto. Qed.

Lemma refresh_outbox_inv en en' r :
  client_inv en → refresh_outbox_if_suspect en = (en', r) → client_inv en'.
Proof using Type*.
  intros (Hc & Hd & Hw) Hr. split; [by eapply refresh_outbox_coherent|].
  destruct (refresh_outbox_facts _ _ _ Hr) as (Hst & Hrg & _). unfold durable. by rewrite Hst, Hrg.
Qed.

Lemma reload_scope_parts scope en en' r :
  reload_scope scope en = (en', r) → ∃ en1 r1, refresh_if_suspect scope en = (en1, r1) ∧
    (en' = en1 ∨ ∃ r2, refresh_outbox_if_suspect en1 = (en', r2)).
Proof.
  intros Hr. unfold reload_scope, st_bind in Hr. destruct (refresh_if_suspect scope en) as [en1 r1].
  exists en1, r1. split; [done|]. destruct r1; [|injection Hr as <- <-; by left].
  destruct (refresh_outbox_if_suspect en1) as [en2 r2]. injection Hr as <- <-. right. by exists r2.
Qed.

Lemma reload_scope_coherent scope en en' r : coherent en → reload_scope scope en = (en', r) → coherent en'.
Proof using Type*.
  intros Hc (en1 & r1 & Hre & Hcase)%reload_scope_parts.
  destruct (refresh_facts _ _ _ _ Hre) as (_ & _ & _ & _ & _ & _ & _ & _ & Hco & _).
  destruct Hcase as [->|(r2 & Hr2)]; [auto|]. eapply refresh_outbox_coherent; [|exact Hr2]. auto.
Qed.

Lemma reload_scope_inv scope en en' r :
  client_inv en → reload_scope scope en = (en', r) → client_inv en'.
Proof using Type*.
  intros Hinv (en1 & r1 & Hre & Hcase)%reload_scope_parts. apply refresh_inv in Hre; [|done].
  destruct Hcase as [->|(r2 & Hr2)]; [done|]. by eapply refresh_outbox_inv.
Qed.

Lemma reload_scope_ok scope en en' :
  coherent en → reload_scope scope en = (en', Ok ()) →
  storage en' = storage en ∧ coherent en' ∧ (scope ∉ suspect en') ∧ outbox_suspect en' = false.
Proof using Type*.
  intros Hc Hr. unfold reload_scope, st_bind in Hr.
  destruct (refresh_if_suspect scope en) as [en1 r1] eqn:Hre1.
  destruct (refresh_facts _ _ _ _ Hre1) as (Hst & _ & _ & _ & _ & _ & _ & _ & Hco & Hcase).
  destruct r1 as [[]|]; [|done]. destruct Hcase as [(? & ? & _)|(_ & Hns & _)]; [done|].
  destruct (refresh_outbox_if_suspect en1) as [en2 r2] eqn:Hre2.
  destruct (refresh_outbox_facts _ _ _ Hre2) as (Hst2 & _ & _ & _ & Hsu & _ & _ & _ & _ & Hco2 & Hcase2).
  destruct r2 as [[]|]; [|done]. injection Hr as <-.
  destruct Hcase2 as [(? & ? & _)|(_ & Hos & _)]; [done|].
  rewrite Hst2, Hst, Hsu. auto.
Qed.

(** A push does no more to memory than reload the queue and emit effects. *)
Lemma build_push_parts (P : engine → Prop) protocol budget en en' r :
  (∀ f en0, P en0 → P (set_effects f en0)) →
  (∀ en1 r1, refresh_outbox_if_suspect en = (en1, r1) → P en1) →
  build_push protocol budget en = (en', r) → P en'.
Proof.
  intros Heff Hre Hb. unfold build_push, st_bind in Hb.
  destruct (refresh_outbox_if_suspect en) as [en1 r1] eqn:Hre1. specialize (Hre _ _ eq_refl).
  destruct r1; [|by injection Hb as <- <-].
  do 2 (case_bool_decide; [by injection Hb as <- <-|]).
  destruct (build_loop _ _ _ _ _ _ _ _) as [[[chosen buf] hd]|]; injection Hb as <- <-; [|done].
  clear -Hre Heff. revert en1 Hre. induction hd as [|[[i sv] why] hd IH]; intros en1 Hre; [done|].
  cbn [fold_left]. apply IH. by apply Heff.
Qed.

Lemma build_push_coherent protocol budget en en' r :
  coherent en → build_push protocol budget en = (en', r) → coherent en'.
Proof using Type*. intros Hc. apply build_push_parts; [done|]. intros en1 r1. by apply refresh_outbox_coherent. Qed.

Lemma build_push_inv protocol budget en en' r :
  client_inv en → build_push protocol budget en = (en', r) → client_inv en'.
Proof using Type*. intros Hc. apply build_push_parts; [done|]. intros en1 r1. by apply refresh_outbox_inv. Qed.

(** The transaction a response leads to leaves rows and positions alone. *)
Lemma answers_quiet reg q rs v :
  quiet (an_ops (fold_left (answer_one reg q) rs (MkAnswering [] [] 0 ∅))) v.
Proof.
  destruct (answering_all reg q rs) as (_ & _ & _ & _ & _ & Hv).
  by destruct (Hv v) as (_ & _ & ? & ? & ? & _).
Qed.

Lemma apply_results_coherent response en en' r :
  coherent en → apply_results response en = (en', r) → coherent en'.
Proof using Type*.
  intros Hinv Ha. unfold apply_results, st_bind in Ha.
  destruct (refresh_outbox_if_suspect en) as [en1 r1] eqn:Hre1.
  pose proof (refresh_outbox_coherent _ _ _ Hinv Hre1) as Hinv1. clear Hre1 Hinv.
  destruct r1; [|by injection Ha as <- <-]. cbv zeta in Ha.
  pose proof (answering_all (registry en1) (outbox_queue en1) (PushResponse.results response)) as Hans.
  pose proof (answers_quiet (registry en1) (outbox_queue en1) (PushResponse.results response) (durable en1)) as Hq.
  set (an := fold_left _ _ _) in *. destruct Hans as (_ & _ & _ & _ & _ & Hv).
  case_bool_decide; [by injection Ha as <- <-|].
  unfold engine_transact in Ha. destruct (transact _ _) as [s' o] eqn:Ht.
  destruct (Hv (durable en1)) as (Hvo & _).
  pose proof (quiet_coherent _ _ _ _ Hinv1 Ht Hq) as Hc. destruct Hinv1 as [_ Ho].
  destruct o; injection Ha as <- <-; (split; [done|]); unfold durable; cbn; try done.
  apply transact_ok in Ht as [Ht _]. intros Hs. rewrite Ht. unfold durable in *. rewrite Hvo.
  by rewrite Ho.
Qed.

Lemma apply_results_inv response en en' r :
  client_inv en → apply_results response en = (en', r) → client_inv en'.
Proof using Type*.
  intros Hinv Ha. split; [eapply apply_results_coherent; [apply Hinv|done]|].
  unfold apply_results, st_bind in Ha.
  destruct (refresh_outbox_if_suspect en) as [en1 r1] eqn:Hre1.
  destruct (refresh_outbox_inv _ _ _ Hinv Hre1) as (_ & Hd & Hw). clear Hre1 Hinv.
  destruct r1; [|by injection Ha as <- <-]. cbv zeta in Ha.
  case_bool_decide; [by injection Ha as <- <-|].
  unfold engine_transact in Ha. destruct (transact _ _) as [s' o] eqn:Ht.
  pose proof (quiet_durable _ _ _ _ _ Hd Ht (answers_quiet _ _ _ _)). by destruct o; injection Ha as <- <-.
Qed.

(** *** Restarting *)

Lemma restore_scopes_fields stored en :
  let en' := restore_scopes stored en in
  storage en' = storage en ∧ registry en' = registry en ∧ suspect en' = suspect en ∧
  outbox_suspect en' = outbox_suspect en ∧ outbox_queue en' = outbox_queue en.
Proof.
  revert en. induction stored as [|[sc st] stored IH]; intros en; [done|].
  exact (IH (restore_scope sc (parse_scope st) en)).
Qed.

Lemma restore_healths_fields records en :
  let en' := restore_healths records en in
  storage en' = storage en ∧ registry en' = registry en ∧ scopes en' = scopes en ∧ suspect en' = suspect en ∧
  outbox_suspect en' = outbox_suspect en ∧ outbox_queue en' = outbox_queue en.
Proof.
  revert en. induction records as [|[sc [a healed]] records IH]; intros en; [done|].
  change (restore_healths ((sc, (a, healed)) :: records) en) with (restore_healths records (restore_scope_health sc a healed en)).
  cbv zeta. destruct (IH (restore_scope_health sc a healed en)) as (-> & -> & -> & -> & -> & ->).
  unfold restore_scope_health. by destruct (a =? 0).
Qed.

(** Restoring what storage holds for each scope: later entries win, and there is one a scope. *)
Lemma restore_scopes_lookup stored (f : ScopeId.t → option StoredScope.t) en sc :
  (∀ s st, (s, st) ∈ stored → f s = Some st) →
  scopes (restore_scopes stored en) !! sc =
    if decide (sc ∈ stored.*1) then parse_scope <$> f sc else scopes en !! sc.
Proof.
  revert en. induction stored as [|[s st] stored IH]; intros en Hf; [done|].
  change (restore_scopes ((s, st) :: stored) en) with (restore_scopes stored (restore_scope s (parse_scope st) en)).
  cbn [fmap list_fmap fst].
  rewrite IH by (intros s' st' Hin; apply Hf; by right). pose proof (Hf s st ltac:(by left)) as Hs.
  destruct (decide (sc ∈ stored.*1)) as [Hin|Hn]; [by rewrite decide_True by (by right)|].
  cbn. destruct (decide (sc = s)) as [->|Hne].
  - by rewrite lookup_insert_eq, decide_True, Hs by (by left).
  - rewrite lookup_insert_ne, decide_False; [done| |done]. rewrite elem_of_cons. tauto.
Qed.

Lemma stored_scopes_elem v sc st : (sc, st) ∈ stored_scopes v ↔ view_scope v sc = Some st.
Proof.
  unfold stored_scopes. rewrite list_elem_of_omap. split.
  - intros ([s c] & _ & Hs). destruct (view_scope v s) as [st'|] eqn:Hv; [|done]. by injection Hs as <- <-.
  - intros Hv. unfold view_scope in Hv. destruct (v_cursors v !! sc) as [c|] eqn:Hc; [|done].
    exists (sc, c). split; [by apply elem_of_map_to_list|]. unfold view_scope. rewrite Hc. simpl in *. by injection Hv as <-.
Qed.

(** A restarted engine trusts everything, and agrees with storage on all of it. *)
Lemma restarted_coherent c e t z reg ms en : coherent (restarted c e t z reg ms en).
Proof.
  unfold restarted. cbv zeta. set (records := map_to_list _). set (stored := stored_scopes _). set (en0 := set_migrations _ _).
  destruct (restore_scopes_fields stored en0) as (Hst0 & _ & Hsu0 & Hos0 & Hq0).
  set (en1 := restore_outbox _ _). destruct (restore_healths_fields records en1) as (Hst & _ & Hsc & Hsu & Hos & Hq).
  unfold coherent, scope_coherent, durable. rewrite Hst, Hsc, Hq. split.
  - intros sc _. cbn [en1 restore_outbox set_queue scopes storage]. rewrite Hst0. cbn [en0 storage set_migrations set_registry new].
    rewrite (restore_scopes_lookup _ (view_scope (durable en))) by (intros s st; apply stored_scopes_elem).
    case_decide as Hin; [done|]. cbn. rewrite lookup_empty. destruct (view_scope _ sc) as [st|] eqn:Hv; [|done].
    destruct Hin. apply list_elem_of_fmap. exists (sc, st). split; [done|]. by apply stored_scopes_elem.
  - intros _. cbn [en1 restore_outbox set_queue outbox_queue storage]. rewrite Hst0, Hq0. by cbn.
Qed.

Lemma restarted_fields c e t z reg ms en :
  storage (restarted c e t z reg ms en) = storage en ∧ registry (restarted c e t z reg ms en) = reg.
Proof.
  unfold restarted. cbv zeta. match goal with |- context [restore_healths ?r ?e] =>
    destruct (restore_healths_fields r e) as (-> & -> & _) end. cbn.
  match goal with |- context [restore_scopes ?r ?e] => destruct (restore_scopes_fields r e) as (-> & -> & _) end. done.
Qed.

Lemma restarted_inv c e t z reg ms en :
  client_inv en → same_filing en reg → client_inv (restarted c e t z reg ms en).
Proof.
  intros (_ & Hd & _) [Hw Hsame]. split; [apply restarted_coherent|].
  destruct (restarted_fields c e t z reg ms en) as [Hst Hreg]. unfold durable. rewrite Hst, Hreg. split; [|done].
  intros sc. unfold scope_ok. specialize (Hd sc). unfold scope_ok, durable in Hd.
  enough (restrict (scope_entities reg sc) (versions_of (view (storage en))) =
    restrict (scope_entities (registry en) sc) (versions_of (view (storage en)))) as -> by done.
  unfold restrict. apply map_filter_ext. intros [en' i] v Hv. simpl.
  apply (Hsame sc en' i). unfold versions_of in Hv. rewrite lookup_fmap in Hv. unfold durable. by destruct (v_rows _ !! _).
Qed.

(** ** Runs *)

(** Whatever a run brings, memory agrees with storage wherever the engine trusts it. *)
Lemma client_step_coherent R en en' : client_step R en en' → coherent en → coherent en'.
Proof using Type*.
  intros Hstep Hinv. destruct Hstep.
  - by eapply apply_changes_coherent.
  - by eapply (apply_changes_coherent (Batch.mk _ _ _ _ _ _)).
  - by eapply begin_rebootstrap_coherent.
  - by eapply clear_scope_health_coherent.
  - by eapply reload_scope_coherent.
  - by eapply enqueue_coherent.
  - by eapply build_push_coherent.
  - by eapply apply_results_coherent.
  - done.
  - done.
  - by destruct (effects en) eqn:He; unfold next_effect; rewrite He.
  - apply restarted_coherent.
Qed.

Lemma client_step_inv en en' : client_step understood en en' → client_inv en → client_inv en'.
Proof using Type*.
  intros Hstep Hinv. destruct Hstep as [en b en' r [Hf Hr] Ha|en p en' r [Hf Hr] Ha| | | | | | | | | |].
  - by eapply apply_changes_inv.
  - by eapply (apply_changes_inv (Batch.mk _ _ _ _ _ _)).
  - by eapply begin_rebootstrap_inv.
  - by eapply clear_scope_health_inv.
  - by eapply reload_scope_inv.
  - by eapply enqueue_inv.
  - by eapply build_push_inv.
  - by eapply apply_results_inv.
  - done.
  - done.
  - by destruct (effects en) eqn:He; unfold next_effect; rewrite He.
  - by apply restarted_inv.
Qed.

(** The invariant holds over any run of changes the app understands. *)
Lemma client_run_inv en en' : rtc (client_step understood) en en' → client_inv en → client_inv en'.
Proof using Type*. induction 1; eauto using client_step_inv. Qed.

(** An engine just built over an empty database keeps it. *)
Lemma new_inv c e s t z reg ms :
  registry_wf reg →
  view s = MkView ∅ ∅ ∅ [] [] [] [] ∅ →
  client_inv (set_migrations (λ _, ms) (set_registry (λ _, reg) (new c e s t z))).
Proof.
  intros Hw Hv. split_and!; [split| |done]; unfold durable, new; cbn.
  - intros sc _. unfold durable. cbn. by rewrite Hv.
  - by rewrite Hv.
  - rewrite Hv. intros sc. unfold scope_ok. cbv zeta. unfold versions_of, restrict. cbn. rewrite lookup_empty.
    by rewrite fmap_empty, map_filter_empty.
Qed.
End steps.
