(* ===== verification/Place.v ===== *)
(** * Place: where a device stands in a scope, and what each call on the engine does to it.

    A device's place in a scope is the rows it holds, the cursor stored with them and the
    trust it has in the scope. Every call either leaves it, or moves it as the batch it was
    given says; the calls on the outbox and on other scopes leave it. *)

From S2P Require Import Prelude Errors Nums Ids Json Wire Integrity Core Registry Migrate.
From S2P Require Import Outbox Storage Apply Engine EngineFacts EngineSteps.
From stdpp Require Import options.

(** What one applied batch does to the trust in its scope. *)
Definition next_health (h : ScopeHealth) (compare diverged rebuilding : bool) : ScopeHealth :=
  if counted h diverged rebuilding then tainted_at (u32_saturating_add (attempts h) 1)
  else if healed_now h compare diverged then Healed (attempts h) else h.

Lemma verdict_health_lookup scope h c d r (hm : gmap ScopeId.t ScopeHealth) s :
  h = default Healthy (hm !! scope) →
  default Healthy (verdict_health scope h c d r hm !! s) =
    if decide (s = scope) then next_health h c d r else default Healthy (hm !! s).
Proof.
  intros ->. unfold verdict_health, next_health.
  destruct (counted _ _ _); [|destruct (healed_now _ _ _)]; case_decide as Hs;
    rewrite ?Hs, ?lookup_insert_eq, ?lookup_insert_ne by done; by subst.
Qed.

(** Batches of the scope's own rows keep inside it. *)
Lemma restrict_effect_own ents cs m :
  Forall (λ c, Change.entity c ∈ ents) cs →
  restrict ents (rows_effect cs m) = rows_effect cs (restrict ents m).
Proof.
  intros Hcs. revert m. unfold rows_effect. induction Hcs as [|c cs Hc _ IH]; intros m; [done|].
  cbn [fold_left]. rewrite IH. f_equal. unfold row_effect.
  destruct (Change.op c); [by apply restrict_insert|apply restrict_delete].
Qed.

Section place.
Context {C E S T ZC : Type} `{!Storage S} `{!StorageLaws S} `{!Compressor ZC} `{Hashes} `{Codec}.
Abbreviation engine := (Engine C E S T ZC).
Implicit Types (en : engine).

(** The cursor a pull of the scope is built from, and the one stored. *)
Definition cursor_of en (scope : ScopeId.t) : Cursor.t :=
  ScopeState.cursor (default ScopeState.NEW (engine_scope_state scope en)).
Definition stored_cursor (v : View) (scope : ScopeId.t) : Cursor.t :=
  default Cursor.START (v_cursors v !! scope).
Definition held_rows en (scope : ScopeId.t) : LiveRows := held en scope (versions_of (durable en)).

Record same_place (scope : ScopeId.t) en en' : Prop := MkSame {
  same_registry : registry en' = registry en;
  same_migrations : migrations en' = migrations en;
  same_rows : held_rows en' scope = held_rows en scope;
  same_cursor : stored_cursor (durable en') scope = stored_cursor (durable en) scope;
  same_health : scope_health scope en' = scope_health scope en;
}.

#[export] Instance same_place_preorder scope : PreOrder (same_place scope).
Proof. split; [by intros en|]. intros x y z [] []. split; congruence. Qed.

Lemma trusted_cursor en scope :
  coherent en → scope ∉ suspect en → cursor_of en scope = stored_cursor (durable en) scope.
Proof.
  intros [Hc _] Hs. unfold cursor_of, engine_scope_state, stored_cursor. rewrite (Hc _ Hs).
  unfold view_scope. by destruct (v_cursors (durable en) !! scope).
Qed.

(** Storage kept its rows and cursors, and memory its registry and trust. *)
Lemma quiet_place scope en en' :
  registry en' = registry en → migrations en' = migrations en → health en' = health en →
  v_rows (durable en') = v_rows (durable en) → v_cursors (durable en') = v_cursors (durable en) →
  same_place scope en en'.
Proof.
  intros Hr Hm Hh Hv Hc. unfold held_rows, held, versions_of, stored_cursor, scope_health.
  split; [done|done|..]; unfold held_rows, held, versions_of, stored_cursor, scope_health; congruence.
Qed.

Lemma refresh_place scope sc en en' r : refresh_if_suspect sc en = (en', r) → same_place scope en en'.
Proof using Type*.
  intros Hr. destruct (refresh_facts _ _ _ _ Hr) as (Hst & Hrg & Hm & _ & _ & Hh & _).
  apply quiet_place; try done; unfold durable; by rewrite Hst.
Qed.

Lemma refresh_outbox_place scope en en' r : refresh_outbox_if_suspect en = (en', r) → same_place scope en en'.
Proof using Type*.
  intros Hr. destruct (refresh_outbox_facts _ _ _ Hr) as (Hst & Hrg & Hm & _ & _ & _ & Hh & _).
  apply quiet_place; try done; unfold durable; by rewrite Hst.
Qed.

(** What an answered batch did: nothing, or the rows and the cursor moved as it says; then
    the call succeeded, or the acknowledgement was lost and the trust is as it was. *)
Definition moved (b : Batch.t) (compare rebuilding : bool) en en' (r : result AppliedBatch.t ApplyError.t) : Prop :=
  held_rows en' (Batch.scope b) = rows_effect (Batch.changes b) (held_rows en (Batch.scope b)) ∧
  stored_cursor (durable en') (Batch.scope b) = Batch.next_cursor b ∧
  match r with
  | Ok o =>
      AppliedBatch.diverged o = compare && negb (bool_decide
        (ScopeDigest.to_hex (map_digest (held_rows en' (Batch.scope b))) = Batch.digest b)) ∧
      scope_health (Batch.scope b) en' =
        next_health (scope_health (Batch.scope b) en) compare (AppliedBatch.diverged o) rebuilding
  | Err _ => scope_health (Batch.scope b) en' = scope_health (Batch.scope b) en
  end.

Definition answered (b : Batch.t) (compare rebuilding : bool) en en' (r : result AppliedBatch.t ApplyError.t) : Prop :=
  registry en' = registry en ∧ migrations en' = migrations en ∧
  (∀ sc, sc ≠ Batch.scope b → same_place sc en en') ∧
  ((same_place (Batch.scope b) en en' ∧ is_ok r = false) ∨ moved b compare rebuilding en en' r).

(** The rows and cursors a batch's transaction leaves, if it is committed. *)
Lemma batch_commit_place en en' b :
  registry en' = registry en → migrations en' = migrations en →
  fits en (Batch.scope b) (Batch.changes b) →
  versions_of (durable en') = rows_effect (Batch.changes b) (versions_of (durable en)) →
  v_cursors (durable en') = <[Batch.scope b := Batch.next_cursor b]> (v_cursors (durable en)) →
  (∀ s, s ≠ Batch.scope b → scope_health s en' = scope_health s en) →
  held_rows en' (Batch.scope b) = rows_effect (Batch.changes b) (held_rows en (Batch.scope b)) ∧
  stored_cursor (durable en') (Batch.scope b) = Batch.next_cursor b ∧
  (∀ s, s ≠ Batch.scope b → same_place s en en').
Proof.
  intros Hr Hm Hfit Hv Hc Hh. unfold held_rows, held, stored_cursor. rewrite Hr, Hv, Hc.
  split_and!; [by apply restrict_effect_own|by rewrite lookup_insert_eq|].
  intros s Hs. split; [done|done| | |by apply Hh]; unfold held_rows, held, stored_cursor.
  - rewrite Hr, Hv. eapply restrict_effect_other; [|exact Hfit]. by apply scope_entities_disjoint.
  - by rewrite Hc, lookup_insert_ne.
Qed.

Lemma apply_trusted_answered b compare rebuilding en en' r :
  client_inv en → Batch.scope b ∉ suspect en → fits en (Batch.scope b) (Batch.changes b) →
  readable en (Batch.changes b) → apply_changes b compare rebuilding en = (en', r) →
  answered b compare rebuilding en en' r.
Proof using Type*.
  intros (Hc & Hd & Hw) Hns Hfit Hread Ha. destruct (apply_changes_cases _ _ _ _ _ _ Hns Ha) as
    [(e & -> & ->)|(sg & q & Hv & Hstage & Hrun)].
  { split_and!; [done|done|by intros|left]. by split. }
  apply apply_ordering_ok in Hv as (_ & _ & Hwf & _).
  destruct (batch_staged _ _ _ _ Hc Hd Hns Hfit Hwf Hstage) as (Hdig & Hrow & Hrows).
  specialize (Hrows Hread). cbv zeta in Hrun. set (div := batch_diverged b sg compare) in *.
  destruct (batch_view b sg (scope_health (Batch.scope b) en) compare div rebuilding (durable en) Hrow)
    as (Hver & Hcur & _). rewrite Hrows in Hver. unfold durable in Hver, Hcur.
  destruct Hrun as [(s' & se & Ht & -> & ->)|(s' & o & Ht & -> & Hs)].
  - set (en' := set_outbox_suspect _ _). destruct (transact_err _ _ _ _ Ht) as [Heq|Heq].
    + assert (∀ s, same_place s en en').
      { intros s. apply quiet_place; try done; unfold durable; simpl; by rewrite Heq. }
      split_and!; [done|done|by intros|left]. by split.
    + destruct (batch_commit_place en en' b) as (H1 & H2 & H3); try done.
      1,2: unfold durable; simpl; by rewrite Heq.
      split_and!; [done|done|done|by right].
  - destruct Hs as (<- & _ & _ & Hrg & Hmg & _ & _ & Hh & _). apply transact_ok in Ht as [Ht _].
    assert (Hhs : ∀ s, scope_health s en' = if decide (s = Batch.scope b)
      then next_health (scope_health (Batch.scope b) en) compare div rebuilding else scope_health s en).
    { intros s. unfold scope_health at 1. rewrite Hh. by apply verdict_health_lookup. }
    destruct (batch_commit_place en en' b) as (H1 & H2 & H3); try done.
    1,2: unfold durable; by rewrite Ht.
    { intros s Hs. rewrite Hhs. by rewrite decide_False. }
    split_and!; [done|done|done|right]. split_and!; [done|done| |].
    + cbn. unfold div, batch_diverged. rewrite Hdig, H1. unfold held_rows, held.
      by rewrite restrict_effect_own.
    + rewrite Hhs. by rewrite decide_True.
Qed.

Lemma apply_changes_answered b compare rebuilding en en' r :
  client_inv en → fits en (Batch.scope b) (Batch.changes b) → readable en (Batch.changes b) →
  apply_changes b compare rebuilding en = (en', r) → answered b compare rebuilding en en' r.
Proof using Type*.
  intros Hinv Hfit Hread (en1 & r1 & Hre & Hcase)%apply_changes_fresh.
  destruct Hcase as [(e & _ & -> & ->)|(-> & Hns & Ha)].
  { split_and!; [done|done|by intros|left]. by split. }
  pose proof (λ s, refresh_place s _ _ _ _ Hre) as Hp.
  destruct (Hp (Batch.scope b)) as [Hrg Hmg Hrows _ Hh].
  apply apply_trusted_answered in Ha as (Hr & Hm & Hother & Hcase);
    [|by eapply refresh_inv|done|unfold fits in *; by rewrite Hrg|unfold readable in *; by rewrite Hrg, Hmg].
  split_and!; [congruence|congruence|intros s Hs; etransitivity; eauto|].
  destruct Hcase as [[Hsame Hk]|(H1 & H2 & H3)]; [left; split; [etransitivity; [apply Hp|done]|done]|right].
  unfold moved. rewrite <- Hrows, <- Hh. done.
Qed.

(** ** Refusals *)

(** Why staging can refuse a well-formed batch the app can read: the storage failed, or an
    append-only row would be overwritten. *)
Definition staging_refusal (e : ApplyError.t) : Prop :=
  (∃ se, e = ApplyError.Storage se) ∨ ∃ ent i stored incoming, e = ApplyError.AppendOnlyOverwrite ent i stored incoming.

Lemma stage_change_err (s : S) c class sg e :
  change_wf c → stage_change s c class sg = Err e → staging_refusal e.
Proof.
  intros Hwf. unfold stage_change, current_version, change_wf in *.
  destruct (match sg_staged sg !! _ with Some _ => _ | None => _ end) as [cur|e'] eqn:Hcur; simpl.
  - destruct (Change.op c); [|done]. destruct (Change.snapshot c) as [sn|]; [|naive_solver].
    destruct class as [[]|], cur as [old|]; try done. case_bool_decide; [done|]. simpl.
    intros [= <-]. right. by repeat eexists.
  - intros [= <-]. left. destruct (sg_staged sg !! _); [done|]. destruct (row_version _ _ _); simplify_eq/=. by eexists.
Qed.

Lemma migrated_change_wf reg ms c c' :
  migrated_change reg ms c = Ok (Some c') → change_wf c → change_wf c'.
Proof.
  unfold migrated_change, change_wf. destruct (schema_version_of _ _); [|done].
  case_bool_decide; [done|]. destruct (Change.snapshot c) as [sn|]; [|done]. intros Hm Hwf. res_simpl.
  split; [by eexists|]. intros _. by apply Hwf.
Qed.

Lemma stage_all_err (s : S) reg ms cs acc e :
  Forall change_wf cs → Forall (λ c, is_ok (migrated_change reg ms c) = true) cs →
  stage_all s reg ms cs acc = Err e → staging_refusal e.
Proof.
  intros Hwf Hread. revert acc. induction Hwf as [|c cs Hc _ IH]; intros [sg q]; [done|].
  apply Forall_cons in Hread as [Hr Hread]. cbn [stage_all stage_one].
  destruct (migrated_change reg ms c) as [[c'|]|] eqn:Hm; [..|done].
  - destruct (stage_change s c' _ sg) as [sg'|e'] eqn:Hs; cbn [res_bind]; [by apply IH|].
    intros [= <-]. eapply stage_change_err; [|exact Hs]. by eapply migrated_change_wf.
  - destruct (stage_change s c _ sg) as [sg'|e'] eqn:Hs; cbn [res_bind]; [by apply IH|].
    intros [= <-]. by eapply stage_change_err.
Qed.

Lemma apply_trusted_err b compare rebuilding en en' e :
  Batch.scope b ∉ suspect en → validate_ordering b (Cursor.get (cursor_of en (Batch.scope b))) = Ok () →
  Forall change_wf (Batch.changes b) → readable en (Batch.changes b) →
  apply_changes b compare rebuilding en = (en', Err e) → staging_refusal e.
Proof.
  intros Hs Hv Hwf Hread. unfold apply_changes, apply_committed, st_bind, refresh_if_suspect.
  rewrite bool_decide_eq_false_2 by done. cbn [negb]. unfold cursor_of, engine_scope_state in Hv.
  rewrite Hv. cbn [res_bind].
  destruct (stage_all _ _ _ _ _) as [[sg q]|e'] eqn:Hst.
  - unfold engine_transact. destruct (transact _ _) as [s' [o|se]]; [done|].
    intros [= _ <-]. left. by eexists.
  - intros [= _ <-]. by eapply stage_all_err.
Qed.

(** A scope that was cleared: nothing held, the position at the start, the trust as it was. *)
Record cleared_place (sc : ScopeId.t) en en' : Prop := MkCleared {
  cleared_registry : registry en' = registry en;
  cleared_migrations : migrations en' = migrations en;
  cleared_rows : held_rows en' sc = ∅;
  cleared_cursor : stored_cursor (durable en') sc = Cursor.START;
  cleared_health : scope_health sc en' = scope_health sc en;
}.

Lemma clear_commit_place sc en en' :
  registry_wf (registry en) →
  registry en' = registry en → migrations en' = migrations en → health en' = health en →
  durable en' = apply_ops (clear_ops (registry en) sc) (durable en) →
  (∀ s, s ≠ sc → same_place s en en') ∧ cleared_place sc en en'.
Proof.
  intros Hw Hr Hm Hh Hv.
  assert (Hcur : ∀ s, stored_cursor (durable en') s = if decide (s = sc) then Cursor.START else stored_cursor (durable en) s).
  { intros s. unfold stored_cursor. rewrite Hv. cbn.
    case_decide as Hd; [by rewrite Hd, lookup_insert_eq|by rewrite lookup_insert_ne, lookup_delete_ne]. }
  assert (Hheld : ∀ s, held_rows en' s = if decide (s = sc) then ∅ else held_rows en s).
  { intros s. unfold held_rows, held. by rewrite Hr, Hv, clear_ops_held. }
  assert (Hhs : ∀ s, scope_health s en' = scope_health s en) by (intros; unfold scope_health; by rewrite Hh).
  split; [intros s Hd|]; split; try done; by rewrite ?Hheld, ?Hcur, ?decide_True, ?decide_False by done.
Qed.

(** A rebuild that is asked for clears the scope, or fails and leaves it; only a failure is
    reported of one that left it. *)
Lemma begin_rebootstrap_place sc en en' r :
  registry_wf (registry en) → begin_rebootstrap sc en = (en', r) →
  (∀ s, s ≠ sc → same_place s en en') ∧
  (same_place sc en en' ∧ is_ok r = false ∨ cleared_place sc en en').
Proof using Type*.
  intros Hw Hb. unfold begin_rebootstrap, engine_transact in Hb.
  fold (clear_ops (registry en) sc) in Hb.
  destruct (transact (storage en) _) as [s' [o|e]] eqn:Ht; injection Hb as <- <-.
  - apply transact_ok in Ht as [Ht _]. destruct (clear_commit_place sc en (set_scopes (<[sc := ScopeState.NEW]>) (set_storage s' en)))
      as [H1 H2]; [done..|exact Ht|]. split; [exact H1|by right].
  - set (en' := set_outbox_suspect _ _). destruct (transact_err _ _ _ _ Ht) as [Hv|Hv].
    + assert (Hp : ∀ s, same_place s en en').
      { intros s. apply quiet_place; try done; unfold durable at 1; simpl; by rewrite Hv. }
      split; [auto|by left].
    + destruct (clear_commit_place sc en en') as [H1 H2]; [done..|exact Hv|]. split; [exact H1|by right].
Qed.

(** A transaction of operations on the outbox leaves every place. *)
Lemma outbox_transact_place scope en en' ops s' (o : result TxOutcome.t StorageError) :
  transact (storage en) ops = (s', o) → storage en' = s' →
  v_rows (apply_ops ops (durable en)) = v_rows (durable en) →
  v_cursors (apply_ops ops (durable en)) = v_cursors (durable en) →
  registry en' = registry en → migrations en' = migrations en → health en' = health en →
  same_place scope en en'.
Proof using Type*.
  intros Ht <- Hr Hc Hrg Hm Hh. apply quiet_place; try done.
  - by apply (transact_durable _ _ _ _ (λ v, v_rows v = _) Ht).
  - by apply (transact_durable _ _ _ _ (λ v, v_cursors v = _) Ht).
Qed.

Lemma clear_scope_health_place scope sc en en' r :
  scope ≠ sc → clear_scope_health sc en = (en', r) → same_place scope en en'.
Proof using Type*.
  intros Hne Hr. unfold clear_scope_health, engine_transact in Hr.
  destruct (transact _ _) as [s' o] eqn:Ht.
  assert (Hq : same_place scope en (set_storage s' en)) by by eapply outbox_transact_place.
  destruct o; injection Hr as <- <-; [|done]. destruct Hq as [Hrg Hm Hrows Hcur _]. split; try done.
  unfold scope_health. simpl. by rewrite lookup_delete_ne.
Qed.

Lemma reload_scope_place scope sc en en' r : reload_scope sc en = (en', r) → same_place scope en en'.
Proof using Type*.
  unfold reload_scope, st_bind. destruct (refresh_if_suspect sc en) as [en1 [[]|]] eqn:Hr1;
    apply (refresh_place scope) in Hr1; [|by intros [= <- <-]].
  destruct (refresh_outbox_if_suspect en1) as [en2 r2] eqn:Hr2. intros [= <- _].
  apply (refresh_outbox_place scope) in Hr2. by etransitivity.
Qed.

Lemma enqueue_place scope entry en en' r : enqueue entry en = (en', r) → same_place scope en en'.
Proof using Type*.
  unfold enqueue, engine_transact. destruct (check_command _ _); [|by intros [= <- <-]].
  destruct (transact _ _) as [s' [o|e]] eqn:Ht; intros [= <- <-]; by eapply outbox_transact_place.
Qed.

Lemma build_push_place scope protocol budget en en' r :
  build_push protocol budget en = (en', r) → same_place scope en en'.
Proof using Type*.
  unfold build_push, st_bind. destruct (refresh_outbox_if_suspect en) as [en1 [[]|]] eqn:Hr1;
    apply (refresh_outbox_place scope) in Hr1; [|by intros [= <- <-]].
  do 2 (case_bool_decide; [by intros [= <- <-]|]).
  destruct (build_loop _ _ _ _ _ _ _ _) as [[[chosen buf] hd]|]; intros [= <- <-]; [|done].
  clear -Hr1. revert en1 Hr1. induction hd as [|[[i sv] why] hd IH]; intros en1 Hr1; [done|].
  cbn [fold_left]. apply IH. etransitivity; [exact Hr1|]. by apply quiet_place.
Qed.

Lemma apply_results_place scope response en en' r :
  apply_results response en = (en', r) → same_place scope en en'.
Proof using Type*.
  unfold apply_results, st_bind. destruct (refresh_outbox_if_suspect en) as [en1 [[]|]] eqn:Hr1;
    apply (refresh_outbox_place scope) in Hr1; [|by intros [= <- <-]]. cbv zeta.
  pose proof (answering_all (registry en1) (outbox_queue en1) (PushResponse.results response)) as Hans.
  set (an := fold_left _ _ _) in *. destruct Hans as (_ & _ & _ & _ & _ & Hv).
  case_bool_decide; [by intros [= <- <-]|].
  destruct (Hv (durable en1)) as (_ & _ & Hrows & Hcur & _).
  unfold engine_transact. destruct (transact _ _) as [s' o] eqn:Ht. intros Ha.
  etransitivity; [exact Hr1|]. destruct o; injection Ha as <- <-; by eapply outbox_transact_place.
Qed.

(** The calls that are not about the scope. *)
Inductive side_step (scope : ScopeId.t) : engine → engine → Prop :=
| side_batch en b compare rebuilding en' r :
    Batch.scope b ≠ scope → fits en (Batch.scope b) (Batch.changes b) → readable en (Batch.changes b) →
    apply_changes b compare rebuilding en = (en', r) → side_step scope en en'
| side_rebootstrap en sc en' r : scope ≠ sc → begin_rebootstrap sc en = (en', r) → side_step scope en en'
| side_clear_health en sc en' r : scope ≠ sc → clear_scope_health sc en = (en', r) → side_step scope en en'
| side_reload en sc en' r : reload_scope sc en = (en', r) → side_step scope en en'
| side_enqueue en entry en' r : enqueue entry en = (en', r) → side_step scope en en'
| side_push en protocol budget en' r : build_push protocol budget en = (en', r) → side_step scope en en'
| side_results en response en' r : apply_results response en = (en', r) → side_step scope en en'
| side_upgrade en envelope : side_step scope en (on_upgrade_required envelope en)
| side_upgraded en : side_step scope en (upgrade_completed en)
| side_effect en : side_step scope en (next_effect en).1.

Lemma side_step_place scope en en' :
  side_step scope en en' → client_inv en → client_inv en' ∧ same_place scope en en'.
Proof using Type*.
  intros Hstep Hinv. destruct Hstep.
  - split; [by eapply apply_changes_inv|].
    by edestruct (apply_changes_answered b compare rebuilding) as (_ & _ & Hp & _); eauto.
  - split; [by eapply begin_rebootstrap_inv|].
    destruct Hinv as (_ & _ & Hw). by edestruct begin_rebootstrap_place as [Hp _]; eauto.
  - split; [by eapply clear_scope_health_inv|by eapply clear_scope_health_place].
  - split; [by eapply reload_scope_inv|by eapply reload_scope_place].
  - split; [by eapply enqueue_inv|by eapply enqueue_place].
  - split; [by eapply build_push_inv|by eapply build_push_place].
  - split; [by eapply apply_results_inv|by eapply apply_results_place].
  - split; [done|by apply quiet_place].
  - split; [done|by apply quiet_place].
  - unfold next_effect. destruct (effects en); [done|]. split; [done|by apply quiet_place].
Qed.
End place.
