(* ===== verification/PushFacts.v ===== *)
(** * PushFacts: what [build_push] puts in a request, and why it stops. *)

From S2P Require Import Prelude Errors Nums Ids Json Wire Integrity Core Registry Migrate.
From S2P Require Import Outbox Storage Apply Engine.
From stdpp Require Import options.

Section push.
Context {ZC : Type} `{!Compressor ZC} `{Codec}.
Implicit Types (zc : ZC) (entries : list OutboxEntry.t).

(** ** Specification *)

(** The command an entry is sent as, when it can be brought to this app's schema. *)
Definition sent_as reg ms (entry : OutboxEntry.t) : option Command.t :=
  match migrated_command reg ms entry with
  | Ok m => Some (default (OutboxEntry.command entry) m)
  | Err _ => None
  end.
Definition sendable reg ms entries : list Command.t := omap (sent_as reg ms) entries.

(** The report on an entry that cannot. *)
Definition held_report reg ms (entry : OutboxEntry.t) : option (CommandId.t * SchemaVersion.t * string) :=
  match migrated_command reg ms entry with
  | Ok _ => None
  | Err e => Some (OutboxEntry.id entry, OutboxEntry.schema_version entry, MigrationError.display e)
  end.
Definition held_reports reg ms entries : list (CommandId.t * SchemaVersion.t * string) := omap (held_report reg ms) entries.

(** The canonical bytes of a list of commands. *)
Definition encodes (cs : list Command.t) (encs : list bytes) : Prop :=
  Forall2 (λ c enc, to_vec c = Ok enc) cs encs.

Definition within zc (budget : N) (encs : list bytes) : Prop :=
  (N.of_nat (length (array_bytes encs)) ≤ COMMANDS_MAX_TOTAL_BYTES)%N ∧
  (compressed_len zc (array_bytes encs) ≤ budget)%N.

(** Why a request ends where it does: the queue is exhausted, the count limit is reached,
    or the next command does not fit. *)
Definition stops reg ms zc (budget : N) (cs : list Command.t) (encs : list bytes) rest : Prop :=
  rest = [] ∨ length cs = COMMANDS_MAX_COUNT ∨
  (cs ≠ [] ∧ ∃ e rest' c enc, rest = e :: rest' ∧ sent_as reg ms e = Some c ∧ to_vec c = Ok enc ∧
     ¬ within zc budget (encs ++ [enc])).

(** ** Facts *)

(** Migrating a command changes its payload and nothing else. *)
Lemma sent_as_id reg ms entry c : sent_as reg ms entry = Some c → Command.id c = OutboxEntry.id entry.
Proof.
  unfold sent_as, migrated_command, OutboxEntry.id. destruct (target_of _ _) as [en|]; [|by intros [= <-]].
  destruct (schema_version_of _ _); [|by intros [= <-]]. case_bool_decide; [by intros [= <-]|].
  destruct (migrate_value _ _ _ _ _); [|done]. simpl. destruct (map_err _ _); [|done]. by intros [= <-].
Qed.

Lemma encodes_array `{!CodecArrays} cs encs :
  encodes cs encs → json_to_vec (to_value cs) = Ok (array_bytes encs).
Proof.
  intros He. apply json_array. apply res_mapM_ok. induction He as [|c enc cs encs Hc _ IH]; [constructor|].
  simpl. constructor; [|exact IH]. unfold to_vec in Hc. by apply Apply.map_err_ok in Hc.
Qed.

Lemma build_loop_ok reg ms zc budget entries chosen encs held chosen' buf' held' :
  encodes chosen encs → (length chosen ≤ COMMANDS_MAX_COUNT)%nat →
  ((length chosen ≤ 1)%nat ∨ within zc budget encs) →
  build_loop reg ms zc budget entries chosen (array_bytes encs) held = Ok (chosen', buf', held') →
  ∃ done rest encs', entries = done ++ rest ∧ chosen' = chosen ++ sendable reg ms done ∧
    held' = held ++ held_reports reg ms done ∧ encodes chosen' encs' ∧ buf' = array_bytes encs' ∧
    (length chosen' ≤ COMMANDS_MAX_COUNT)%nat ∧ ((length chosen' ≤ 1)%nat ∨ within zc budget encs') ∧
    stops reg ms zc budget chosen' encs' rest.
Proof.
  revert chosen encs held. induction entries as [|entry entries IH];
    intros chosen encs held Henc Hmax Hwithin.
  { intros [= <- <- <-]. exists [], [], encs. rewrite !app_nil_r. split_and!; try done. by left. }
  cbn [build_loop]. destruct (Nat.leb_spec COMMANDS_MAX_COUNT (length chosen)) as [Hfull|Hroom].
  { intros [= <- <- <-]. exists [], (entry :: entries), encs. rewrite !app_nil_r.
    split_and!; try done. right. left. lia. }
  assert (Hlen : length chosen = length encs) by (by eapply Forall2_length).
  destruct (migrated_command reg ms entry) as [m|e] eqn:Hm.
  - set (command := default (OutboxEntry.command entry) m).
    assert (Hsent : sent_as reg ms entry = Some command) by (unfold sent_as; by rewrite Hm).
    destruct (to_vec command) as [one|] eqn:Hone; simpl; [|done].
    rewrite splice_array by done.
    destruct (_ && _) eqn:Hstop.
    + apply andb_true_iff in Hstop as [Hover Hne]. apply negb_true_iff, bool_decide_eq_false in Hne.
      intros [= <- <- <-]. exists [], (entry :: entries), encs. rewrite !app_nil_r.
      split_and!; try done.
      * rewrite <- (splice_array chosen) by done. apply unsplice_array.
      * right. right. split; [done|]. exists entry, entries, command, one. split_and!; try done.
        intros [Hb Hc]. apply orb_true_iff in Hover as [Hover%N.ltb_lt|Hover%N.ltb_lt]; lia.
    + intros Hrun. apply IH in Hrun as (dn & rest & encs' & -> & -> & -> & Henc' & -> & Hmax' & Hw & Hs).
      * exists (entry :: dn), rest, encs'. split_and!; try done.
        -- unfold sendable. simpl. rewrite Hsent. by rewrite <- app_assoc.
        -- unfold held_reports. simpl. unfold held_report at 2. by rewrite Hm.
      * apply Forall2_app; [done|]. by constructor.
      * rewrite length_app. simpl. lia.
      * rewrite length_app. simpl. destruct chosen as [|c0 chosen]; [simpl; left; lia|right].
        apply andb_false_iff in Hstop as [Hfit|Hne]; [|by rewrite bool_decide_eq_false_2 in Hne].
        apply orb_false_iff in Hfit as [?%N.ltb_ge ?%N.ltb_ge]. by split.
  - intros Hrun. apply IH in Hrun as (dn & rest & encs' & -> & -> & -> & Henc' & -> & Hmax' & Hw & Hs); try done.
    exists (entry :: dn), rest, encs'. split_and!; try done.
    + unfold sendable. simpl. unfold sent_as at 2. by rewrite Hm.
    + unfold held_reports. simpl. unfold held_report at 2. rewrite Hm. by rewrite <- app_assoc.
Qed.

(** Encodable commands never make the loop fail. *)
Lemma build_loop_total reg ms zc budget entries chosen buf held :
  Forall (λ c, ∃ enc, to_vec c = Ok enc) (sendable reg ms entries) →
  ∃ r, build_loop reg ms zc budget entries chosen buf held = Ok r.
Proof.
  revert chosen buf held. induction entries as [|entry entries IH]; intros chosen buf held Hall; [by eexists|].
  cbn [build_loop]. destruct (_ <=? _)%nat; [by eexists|].
  unfold sendable in Hall. simpl in Hall. unfold sent_as in Hall at 1.
  destruct (migrated_command reg ms entry) as [m|e]; [|by apply IH].
  apply Forall_cons in Hall as [[enc Henc] Hall]. rewrite Henc. simpl.
  destruct (_ && _); [by eexists|]. by apply IH.
Qed.

(** One command always goes. *)
Lemma stops_progress reg ms zc budget (dn rest : list OutboxEntry.t) encs :
  stops reg ms zc budget (sendable reg ms dn) encs rest →
  sendable reg ms (dn ++ rest) ≠ [] → sendable reg ms dn ≠ [].
Proof.
  intros [->|[Hlen|[Hne _]]] Hs; [by rewrite app_nil_r in Hs| |done].
  intros Heq. by rewrite Heq in Hlen.
Qed.
End push.
