(* ===== verification/Ledger.v ===== *)
(** * Ledger: what a client's calls do to the commands it holds and the outcomes it keeps.

    A look at the durable state may differ from an earlier one only in that outcomes were
    added and that queued commands have one; and a ledger that is in order stays in order. *)

From S2P Require Import Prelude Errors Nums Ids Json Wire Integrity Core Registry Migrate.
From S2P Require Import Outbox Storage Apply Engine EngineFacts EngineSteps Place PushFacts.
From stdpp Require Import options.

Definition queue_ids (v : View) : list CommandId.t := OutboxEntry.id <$> v_outbox v.
Definition answered_ids (v : View) : list CommandId.t := (v_resolved v).*1.
Definition draft_ids (v : View) : list CommandId.t := (v_recovered v).*1.*1.

(** What a later look at the durable state may differ in. *)
Record progress (v v' : View) : Prop := MkProgress {
  progress_resolved : ∃ more, v_resolved v' = v_resolved v ++ more;
  progress_queue : ∀ id, id ∈ queue_ids v → id ∈ queue_ids v' ∨ id ∈ answered_ids v';
}.

#[export] Instance progress_preorder : PreOrder progress.
Proof.
  split.
  - intros v. split; [exists []; by rewrite app_nil_r|by left].
  - intros x y z [[m Hm] Hq] [[m' Hm'] Hq']. split.
    + exists (m ++ m'). by rewrite Hm', Hm, app_assoc.
    + intros id [Hid|Hid]%Hq; [by apply Hq'|]. right. unfold answered_ids in *. rewrite Hm', fmap_app.
      apply elem_of_app. by left.
Qed.

Lemma progress_same v v' : v_resolved v' = v_resolved v → v_outbox v' = v_outbox v → progress v v'.
Proof. intros Hr Ho. split; [exists []; by rewrite app_nil_r|]. unfold queue_ids. rewrite Ho. by left. Qed.

(** Commands that may be answered have a draft to recover. *)
Definition drafts_only (reg : Registry) : Prop :=
  ∀ name e, target_of reg name = Some e → class_of reg e = Some OwnerDraft.
Definition addressed (reg : Registry) (entry : OutboxEntry.t) : Prop :=
  ∃ e, target_of reg (Command.name (OutboxEntry.command entry)) = Some e.
(** A command for an entity the app knows, in the schema it has of it: sent as it is. *)
Definition targeted (reg : Registry) (entry : OutboxEntry.t) : Prop :=
  ∃ e, target_of reg (Command.name (OutboxEntry.command entry)) = Some e ∧
    schema_version_of reg e = Some (OutboxEntry.schema_version entry).

(** The JSON writer writes what the client would send. *)
Definition writable `{Hashes} `{Codec} (c : Command.t) : Prop :=
  (∃ enc, to_vec c = Ok enc) ∧ ∃ cs, payload_checksum (Command.payload c) = Ok cs.

Lemma targeted_sent `{Codec} reg ms entry : targeted reg entry → sent_as reg ms entry = Some (OutboxEntry.command entry).
Proof.
  intros (e & He & Hs). unfold sent_as, migrated_command. by rewrite He, Hs, bool_decide_eq_true_2.
Qed.
Lemma targeted_sendable `{Codec} reg ms q : Forall (targeted reg) q → sendable reg ms q = OutboxEntry.command <$> q.
Proof.
  induction 1 as [|e q He _ IH]; [done|]. unfold sendable in *. csimpl. by rewrite (targeted_sent reg ms e He), IH.
Qed.
Definition owner_draft (reg : Registry) (r : CommandId.t * EntityName.t * Payload) : Prop :=
  class_of reg r.1.2 = Some OwnerDraft.

(** A command is queued or answered, once, never both, and is one that was issued; a superseded
    one has its draft kept, and only owner drafts are kept. *)
Record ledger (reg : Registry) (issued : CommandId.t → Prop) (v : View) : Prop := MkLedger {
  ledger_queue : NoDup (queue_ids v);
  ledger_answered : NoDup (answered_ids v);
  ledger_apart : ∀ id, id ∈ queue_ids v → id ∉ answered_ids v;
  ledger_issued : ∀ id, id ∈ queue_ids v ∨ id ∈ answered_ids v → issued id;
  ledger_targets : Forall (targeted reg) (v_outbox v);
  ledger_drafts : ∀ id, (id, Resolution.Superseded) ∈ v_resolved v → id ∈ draft_ids v;
  ledger_owners : Forall (owner_draft reg) (v_recovered v);
}.

Lemma ledger_ext reg issued v v' :
  v_outbox v' = v_outbox v → v_resolved v' = v_resolved v → v_recovered v' = v_recovered v →
  ledger reg issued v → ledger reg issued v'.
Proof. intros Ho Hr Hd []. split; unfold queue_ids, answered_ids, draft_ids in *; by rewrite ?Ho, ?Hr, ?Hd. Qed.

Lemma ledger_weaken reg (issued issued' : CommandId.t → Prop) v :
  (∀ id, issued id → issued' id) → ledger reg issued v → ledger reg issued' v.
Proof. intros Hi []. split; auto. Qed.

(** ** A command is queued *)

Lemma enqueue_ledger reg issued c sv v :
  ledger reg issued v → issued (Command.id c) → Command.id c ∉ queue_ids v → Command.id c ∉ answered_ids v →
  targeted reg (OutboxEntry.mk c sv) →
  ledger reg issued (apply_op (EnqueueCommand c sv) v) ∧ progress v (apply_op (EnqueueCommand c sv) v).
Proof.
  intros [Hq Ha Hap Hi Ht Hd Hw] Hc Hnq Hna Htc.
  assert (queue_ids (apply_op (EnqueueCommand c sv) v) = queue_ids v ++ [Command.id c]) as Hqi.
  { unfold queue_ids. cbn. by rewrite fmap_app. }
  split; split; rewrite ?Hqi; try done.
  - apply NoDup_app. split_and!; [done| |apply NoDup_singleton]. by intros x Hx ->%list_elem_of_singleton.
  - by intros id [Hid| ->%list_elem_of_singleton]%elem_of_app; [apply Hap|].
  - intros id [[Hid| ->%list_elem_of_singleton]%elem_of_app|Hid]; auto.
  - cbn. apply Forall_app. by repeat constructor.
  - exists []. by rewrite app_nil_r.
  - intros id Hid. left. apply elem_of_app. by left.
Qed.

(** ** A push is answered *)

Lemma answering_drafts reg q rs :
  drafts_only reg → Forall (targeted reg) q →
  let an := fold_left (answer_one reg q) rs (MkAnswering [] [] 0 ∅) in
  ∃ recs, (∀ v, v_recovered (apply_ops (an_ops an) v) = v_recovered v ++ recs) ∧
    Forall (owner_draft reg) recs ∧
    ∀ id, (id, Resolution.Superseded) ∈ an_resolutions an → id ∈ recs.*1.*1.
Proof.
  intros Hdo Hq. induction rs as [|r rs (recs & IH1 & IH2 & IH3)] using rev_ind; cbv zeta.
  { exists []. split_and!; [intros v; by rewrite app_nil_r|constructor|]. by intros id ?%not_elem_of_nil. }
  rewrite fold_left_app. cbn [fold_left]. set (an := fold_left _ _ _) in *. unfold answer_one.
  destruct (find _ q) as [entry|] eqn:Hf; [|by exists recs]. case_bool_decide; [by exists recs|].
  apply find_id_some in Hf as [Hin Hid]. rewrite Forall_forall in Hq. destruct (Hq entry Hin) as [e [He _]].
  pose proof (Hdo _ _ He) as Hcl. unfold resolve. rewrite He, bool_decide_eq_true_2 by done.
  assert (Hplain : ∀ res, res ≠ Resolution.Superseded →
    ∃ recs', (∀ v, v_recovered (apply_ops (an_ops an ++ [] ++ [ResolveCommand (CommandResult.id r) res]) v) = v_recovered v ++ recs') ∧
      Forall (owner_draft reg) recs' ∧
      ∀ id, (id, Resolution.Superseded) ∈ an_resolutions an ++ [(CommandResult.id r, res)] → id ∈ recs'.*1.*1).
  { intros res Hne. exists recs. split_and!; [|done|].
    - intros v. rewrite apply_ops_app. cbn. by rewrite <- IH1.
    - intros id [Hi|Hi%list_elem_of_singleton]%elem_of_app; [by apply IH3|]. congruence. }
  destruct (CommandResult.status r); cbn [an_ops an_resolutions]; try by apply Hplain.
  exists (recs ++ [(CommandResult.id r, e, Command.payload (OutboxEntry.command entry))]). split_and!.
  - intros v. rewrite !apply_ops_app. cbn. by rewrite IH1, <- app_assoc.
  - apply Forall_app. by repeat constructor.
  - intros id. rewrite !fmap_app, !elem_of_app. intros [Hi|Hi%list_elem_of_singleton]; [left; by apply IH3|].
    right. injection Hi as ->. by left.
Qed.

Lemma answer_ledger reg issued rs v :
  drafts_only reg → ledger reg issued v →
  let v' := apply_ops (an_ops (fold_left (answer_one reg (v_outbox v)) rs (MkAnswering [] [] 0 ∅))) v in
  ledger reg issued v' ∧ progress v v'.
Proof.
  intros Hdo [Hq Ha Hap Hi Ht Hd Hw]. cbv zeta.
  destruct (answering_drafts reg _ rs Hdo Ht) as (recs & Hrec & Hown & Hsup).
  pose proof (answering_all reg (v_outbox v) rs) as Hans. set (an := fold_left _ _ _) in *.
  destruct Hans as (Hnd & _ & Hids & _ & _ & Hv). destruct (Hv v) as (Hvo & Hvr & _). rewrite fold_without in Hvo.
  pose proof (Hrec v) as Hrv. clear Hrec.
  set (v' := apply_ops (an_ops an) v) in *.
  assert (answered_ids v' = answered_ids v ++ (an_resolutions an).*1) as Hai by (unfold answered_ids; by rewrite Hvr, fmap_app).
  assert (∀ id, id ∈ queue_ids v' ↔ id ∈ queue_ids v ∧ id ∉ (an_resolutions an).*1) as Hqi.
  { intros id. unfold queue_ids. rewrite Hvo. split.
    - intros (x & -> & [? ?]%list_elem_of_filter)%list_elem_of_fmap. split; [|done]. apply list_elem_of_fmap. by exists x.
    - intros [(x & -> & Hx)%list_elem_of_fmap Hn]. apply list_elem_of_fmap. exists x. split; [done|]. by apply list_elem_of_filter. }
  assert (∀ id, id ∈ (an_resolutions an).*1 → id ∈ queue_ids v) as Hin by (intros id Hid; by apply Hids in Hid as [? _]).
  split; split.
  - unfold queue_ids. rewrite Hvo. eapply sublist_NoDup; [exact Hq|]. apply fmap_sublist, sublist_filter.
  - rewrite Hai. apply NoDup_app. split_and!; [done| |done]. intros id Hid Hid'. apply (Hap id); auto.
  - intros id [Hid Hn]%Hqi. rewrite Hai, elem_of_app. intros [?|?]; [by apply (Hap id)|done].
  - intros id. rewrite Hqi, Hai, elem_of_app. intros [[? _]|[?|?%Hin]]; apply Hi; auto.
  - rewrite Hvo. apply Forall_forall. intros e [_ He]%list_elem_of_filter. rewrite Forall_forall in Ht. auto.
  - intros id. unfold draft_ids. rewrite Hvr, Hrv, !fmap_app, !elem_of_app. intros [?|?]; [left; by apply Hd|right; by apply Hsup].
  - rewrite Hrv. by apply Forall_app.
  - by exists (an_resolutions an).
  - intros id Hid. destruct (decide (id ∈ (an_resolutions an).*1)) as [|]; [right; rewrite Hai, elem_of_app; by right|left; by apply Hqi].
Qed.

(** ** What each call leaves *)

Section calls.
Context {C E S T ZC : Type} `{!Storage S} `{!StorageLaws S} `{!Compressor ZC} `{Hashes} `{Codec}.
Abbreviation engine := (Engine C E S T ZC).
Implicit Types (en : engine).

(** The parts of an engine a call never changes. *)
Definition same_setup en en' : Prop := registry en' = registry en ∧ migrations en' = migrations en.

#[export] Instance same_setup_preorder : PreOrder same_setup.
Proof. split; [by intros en|]. intros x y z [] []. split; congruence. Qed.

Lemma transact_view (s s' : S) ops r : transact s ops = (s', r) → view s' = view s ∨ view s' = apply_ops ops (view s).
Proof. destruct r; intros Ht; [right; by destruct (transact_ok _ _ _ _ Ht)|by apply transact_err in Ht]. Qed.

Lemma enqueue_view entry en en' r :
  enqueue entry en = (en', r) →
  same_setup en en' ∧
  (durable en' = durable en ∨
   addressed (registry en) entry ∧
   durable en' = apply_op (EnqueueCommand (OutboxEntry.command entry) (OutboxEntry.schema_version entry)) (durable en)).
Proof using Type*.
  unfold enqueue, engine_transact. destruct (check_command _ _) as [t|] eqn:Hc; [|intros [= <- <-]; by split; [|left]].
  apply check_command_ok in Hc as [Ht _]. destruct (transact _ _) as [s' o] eqn:Htr.
  apply transact_view in Htr. intros Hr. assert (same_setup en en' ∧ storage en' = s') as [Hs Hst] by (by destruct o; injection Hr as <- <-).
  split; [done|]. unfold durable. rewrite Hst. destruct Htr as [->| ->]; [by left|right]. split; [by exists t|done].
Qed.

Lemma refresh_outbox_view en en' r :
  coherent en → refresh_outbox_if_suspect en = (en', r) →
  same_setup en en' ∧ durable en' = durable en ∧ (r = Ok () → outbox_queue en' = v_outbox (durable en')).
Proof using Type*.
  intros Hc Hr. destruct (refresh_outbox_facts _ _ _ Hr) as (Hst & Hrg & Hmg & _ & _ & _ & _ & _ & _ & Hco & Hcase).
  split; [done|]. unfold durable. rewrite Hst. split; [done|]. intros ->.
  destruct Hcase as [(? & ? & _)|(_ & Hs & _)]; [done|]. destruct (Hco Hc) as [_ Ho]. unfold durable in Ho. rewrite Hst in Ho. auto.
Qed.

Lemma build_push_view protocol budget en en' r :
  coherent en → build_push protocol budget en = (en', r) → same_setup en en' ∧ durable en' = durable en.
Proof using Type*.
  intros Hc. unfold build_push, st_bind. destruct (refresh_outbox_if_suspect en) as [en1 r1] eqn:Hr1.
  destruct (refresh_outbox_view _ _ _ Hc Hr1) as (Hs & Hv & _). destruct r1 as [[]|]; [|by intros [= <- <-]].
  do 2 (case_bool_decide; [by intros [= <- <-]|]).
  destruct (build_loop _ _ _ _ _ _ _ _) as [[[chosen buf] hd]|]; intros [= <- <-]; [|done].
  clear -Hs Hv. revert en1 Hs Hv. induction hd as [|[[i sv] why] hd IH]; intros en1 Hs Hv; [done|]. cbn [fold_left]. by apply IH.
Qed.

Lemma reload_scope_view sc en en' r :
  reload_scope sc en = (en', r) → same_setup en en' ∧ durable en' = durable en.
Proof using Type*.
  unfold reload_scope, st_bind. destruct (refresh_if_suspect sc en) as [en1 r1] eqn:Hr1.
  destruct (refresh_facts _ _ _ _ Hr1) as (Hst & Hrg & Hmg & _). destruct r1 as [[]|].
  - destruct (refresh_outbox_if_suspect en1) as [en2 r2] eqn:Hr2. intros [= <- _].
    destruct (refresh_outbox_facts _ _ _ Hr2) as (Hst2 & Hrg2 & Hmg2 & _).
    split; [split; congruence|]. unfold durable. congruence.
  - intros [= <- _]. split; [done|]. unfold durable. congruence.
Qed.

Lemma apply_results_view response en en' r :
  coherent en → apply_results response en = (en', r) →
  same_setup en en' ∧
  (durable en' = durable en ∨
   durable en' = apply_ops (an_ops (fold_left (answer_one (registry en) (v_outbox (durable en)))
     (PushResponse.results response) (MkAnswering [] [] 0 ∅))) (durable en)).
Proof using Type*.
  intros Hc. unfold apply_results, st_bind. destruct (refresh_outbox_if_suspect en) as [en1 r1] eqn:Hr1.
  destruct (refresh_outbox_view _ _ _ Hc Hr1) as (Hs & Hv & Hq). destruct r1 as [[]|]; [|intros [= <- <-]; split; [done|by left]].
  specialize (Hq eq_refl). rewrite Hq, Hv. destruct Hs as [Hrg Hmg]. rewrite Hrg.
  case_bool_decide; [intros [= <- <-]; split; [done|by left]|]. unfold engine_transact.
  destruct (transact _ _) as [s' o] eqn:Htr. apply transact_view in Htr. intros Hr.
  assert (same_setup en1 en' ∧ storage en' = s') as [[] Hst] by (by destruct o; injection Hr as <- <-).
  split; [split; congruence|]. unfold durable in *. rewrite Hst. by rewrite Hv in Htr.
Qed.

(** What an answered batch did to the durable state: nothing, or what it says. *)
Definition batch_stored (b : Batch.t) (v v' : View) : Prop :=
  validate_ordering b (Cursor.get (stored_cursor v (Batch.scope b))) = Ok () ∧
  versions_of v' = rows_effect (Batch.changes b) (versions_of v) ∧
  v_cursors v' = <[Batch.scope b := Batch.next_cursor b]> (v_cursors v) ∧
  v_outbox v' = v_outbox v ∧ v_resolved v' = v_resolved v ∧ v_recovered v' = v_recovered v.

Lemma apply_trusted_view b compare rebuilding en en' r :
  client_inv en → Batch.scope b ∉ suspect en → fits en (Batch.scope b) (Batch.changes b) →
  readable en (Batch.changes b) → apply_changes b compare rebuilding en = (en', r) →
  same_setup en en' ∧ (durable en' = durable en ∨ batch_stored b (durable en) (durable en')).
Proof using Type*.
  intros (Hc & Hd & Hw) Hns Hfit Hread Ha. destruct (apply_changes_cases _ _ _ _ _ _ Hns Ha) as
    [(e & -> & ->)|(sg & q & Hv & Hstage & Hrun)]; [split; [done|by left]|].
  assert (validate_ordering b (Cursor.get (stored_cursor (durable en) (Batch.scope b))) = Ok ()) as Hv'.
  { pose proof (trusted_cursor en (Batch.scope b) Hc Hns) as Ht. unfold cursor_of, engine_scope_state in Ht. by rewrite <- Ht. }
  apply apply_ordering_ok in Hv as (_ & _ & Hwf & _).
  destruct (batch_staged _ _ _ _ Hc Hd Hns Hfit Hwf Hstage) as (Hdig & Hrow & Hrows).
  specialize (Hrows Hread). cbv zeta in Hrun. set (div := batch_diverged b sg compare) in *.
  set (ops := batch_ops b sg ++ _) in *.
  assert (batch_stored b (durable en) (apply_ops ops (durable en))) as Hst.
  { destruct (batch_view b sg (scope_health (Batch.scope b) en) compare div rebuilding (durable en) Hrow)
      as (Hver & Hcur & _ & Ho & Hre & Hrc & _). rewrite Hrows in Hver. by split_and!. }
  assert (same_setup en en' ∧ ∃ o, transact (storage en) ops = (storage en', o)) as [Hs [o Ht]].
  { destruct Hrun as [(s' & se & Ht & _ & ->)|(s' & o & Ht & _ & Hs)]; [split; [done|by eexists]|].
    destruct Hs as (<- & _ & _ & ? & ? & _). split; [done|by eexists]. }
  split; [done|]. unfold durable at 1 4. by destruct (transact_view _ _ _ _ Ht) as [-> | ->]; [left|right].
Qed.

Lemma apply_batch_view b en en' r :
  client_inv en → fits en (Batch.scope b) (Batch.changes b) → readable en (Batch.changes b) →
  apply_batch b en = (en', r) →
  same_setup en en' ∧ (durable en' = durable en ∨ batch_stored b (durable en) (durable en')).
Proof using Type*.
  intros Hinv Hfit Hread (en1 & r1 & Hre & Hcase)%apply_changes_fresh.
  destruct Hcase as [(e & _ & _ & ->)|(-> & Hns & Ha)]; [split; [done|by left]|].
  destruct (refresh_facts _ _ _ _ Hre) as (Hst & Hreg & Hmig & _).
  apply apply_trusted_view in Ha as [[] Hv]; [|by eapply refresh_inv|done|unfold fits in *; by rewrite Hreg|unfold readable in *; by rewrite Hreg, Hmig].
  split; [split; congruence|]. unfold durable in *. by rewrite Hst in Hv.
Qed.

(** ** Pushing stays possible, and goes on *)

(** The effects that tell which commands a push held back. *)
Definition held_effects (hs : list (CommandId.t * SchemaVersion.t * string)) : list Effect :=
  (λ '(id, sv, reason), Emit (CommandHeld id sv reason)) <$> hs.

Lemma fold_held hs en :
  fold_left (λ en '(id, sv, reason), emit (Emit (CommandHeld id sv reason)) en) hs en =
    set_effects (λ l, l ++ held_effects hs) en.
Proof.
  unfold held_effects. rewrite <- fold_emit. revert en.
  induction hs as [|[[??]?] hs IH]; intros en; [done|]. cbn [fold_left]. apply IH.
Qed.

Lemma refresh_outbox_upgrade en en' r :
  refresh_outbox_if_suspect en = (en', r) → upgrade_required en' = upgrade_required en.
Proof using Type*. intros Hr. by destruct (refresh_outbox_facts _ _ _ Hr) as (_ & _ & _ & _ & _ & _ & _ & _ & ? & _). Qed.

Lemma apply_results_upgrade response en en' r :
  apply_results response en = (en', r) → upgrade_required en' = upgrade_required en.
Proof using Type*.
  unfold apply_results, st_bind. destruct (refresh_outbox_if_suspect en) as [en1 r1] eqn:Hr1.
  apply refresh_outbox_upgrade in Hr1. destruct r1 as [[]|]; [|by intros [= <- <-]]. cbv zeta.
  case_bool_decide; [by intros [= <- <-]|]. unfold engine_transact. destruct (transact _ _) as [s []]; by intros [= <- <-].
Qed.

Lemma build_push_upgrade protocol budget en en' r :
  build_push protocol budget en = (en', r) → upgrade_required en' = upgrade_required en.
Proof using Type*.
  unfold build_push, st_bind. destruct (refresh_outbox_if_suspect en) as [en1 r1] eqn:Hr1.
  apply refresh_outbox_upgrade in Hr1. destruct r1 as [[]|]; [|by intros [= <- <-]].
  do 2 (case_bool_decide; [by intros [= <- <-]|]).
  destruct (build_loop _ _ _ _ _ _ _ _) as [[[chosen buf] hd]|]; intros [= <- <-]; [|done].
  rewrite <- Hr1. clear Hr1. generalize en1 as e. induction hd as [|[[i sv] why] hd IH]; intros e; [done|]. cbn [fold_left]. by rewrite IH.
Qed.

Lemma enqueue_upgrade entry en en' r : enqueue entry en = (en', r) → upgrade_required en' = upgrade_required en.
Proof using Type*.
  unfold enqueue, engine_transact. destruct (check_command _ _); [|by intros [= <- <-]].
  destruct (transact _ _) as [s' o]. by destruct o; intros [= <- <-].
Qed.

Lemma reload_scope_upgrade sc en en' r : reload_scope sc en = (en', r) → upgrade_required en' = upgrade_required en.
Proof using Type*.
  unfold reload_scope, st_bind. destruct (refresh_if_suspect sc en) as [en1 r1] eqn:Hr1.
  destruct (refresh_facts _ _ _ _ Hr1) as (_ & _ & _ & _ & _ & _ & _ & Hu & _). destruct r1 as [[]|]; [|by intros [= <- _]].
  destruct (refresh_outbox_if_suspect en1) as [en2 r2] eqn:Hr2. apply refresh_outbox_upgrade in Hr2. intros [= <- _]. congruence.
Qed.

Lemma apply_changes_upgrade b compare rebuilding en en' r :
  apply_changes b compare rebuilding en = (en', r) → upgrade_required en' = upgrade_required en.
Proof using Type*.
  intros (en1 & r1 & Hre & Hcase)%apply_changes_fresh.
  destruct (refresh_facts _ _ _ _ Hre) as (_ & _ & _ & _ & _ & _ & _ & Hu & _).
  destruct Hcase as [(e & _ & _ & ->)|(-> & Hns & Ha)]; [done|]. rewrite <- Hu.
  destruct (apply_changes_cases _ _ _ _ _ _ Hns Ha) as [(e & _ & ->)|(sg & q & _ & _ & Hrun)]; [done|]. cbv zeta in Hrun.
  destruct Hrun as [(s' & se & _ & _ & ->)|(s' & o & _ & _ & Hs)]; [done|]. apply Hs.
Qed.

(** What a client that may push is left with when it builds a request. *)
Lemma build_push_built protocol budget en en' o :
  coherent en → upgrade_required en = None →
  (∀ c, c ∈ sendable (registry en) (migrations en) (v_outbox (durable en)) → ∃ enc, to_vec c = Ok enc) →
  build_push protocol budget en = (en', o) →
  match o with
  | Err e => ∃ se, e = OutboxError.Storage se ∧ Storage.outbox (storage en) = Err se
  | Ok None => v_outbox (durable en) = []
  | Ok (Some req) => outbox_suspect en' = false ∧ upgrade_required en' = None ∧ v_outbox (durable en) ≠ [] ∧
      ∃ dn rest, v_outbox (durable en) = dn ++ rest ∧
        PushRequest.commands req = sendable (registry en) (migrations en) dn ∧
        (sendable (registry en) (migrations en) (v_outbox (durable en)) ≠ [] → PushRequest.commands req ≠ [])
  end.
Proof using Type*.
  intros Hc Hu Henc Hb. unfold build_push, st_bind in Hb. destruct (refresh_outbox_if_suspect en) as [en1 r1] eqn:Hr1.
  destruct (refresh_outbox_view _ _ _ Hc Hr1) as ([Hreg Hmig] & Hv & Hq).
  pose proof (refresh_outbox_upgrade _ _ _ Hr1) as Hu1. rewrite Hu in Hu1.
  destruct (refresh_outbox_facts _ _ _ Hr1) as (_ & _ & _ & _ & _ & _ & _ & _ & _ & _ & [(e & -> & _)|(-> & Hs1 & _)]).
  { injection Hb as <- <-. unfold refresh_outbox_if_suspect in Hr1. destruct (negb _); [done|].
    destruct (Storage.outbox _) as [|se] eqn:Ho; [done|]. injection Hr1 as _ <-. by exists se. }
  specialize (Hq eq_refl). rewrite <- Hv, <- Hq. rewrite <- Hv, <- Hq, <- Hreg, <- Hmig in Henc. rewrite <- Hreg, <- Hmig.
  rewrite bool_decide_eq_false_2 in Hb by (rewrite Hu1; by intros [? ?]).
  case_bool_decide as Hne; [by injection Hb as <- <-|]. rewrite <- Forall_forall in Henc.
  destruct (build_loop_total (registry en1) (migrations en1) (compressor en1) budget (outbox_queue en1) [] [91; 93] [] Henc)
    as [[[chosen buf] held] Hl]. rewrite Hl in Hb. rewrite fold_held in Hb. injection Hb as <- <-. split; [done|]. split; [done|].
  change [91; 93] with (array_bytes []) in Hl. apply (build_loop_ok _ _ _ _ _ _ []) in Hl as (dn & rest & encs & Hsplit & -> & _ & _ & _ & _ & _ & Hst);
    [|constructor|unfold COMMANDS_MAX_COUNT; simpl; lia|left; simpl; lia].
  split; [done|]. exists dn, rest. split; [done|]. split; [done|]. cbn [PushRequest.commands]. rewrite Hsplit. by apply (stops_progress _ _ _ _ _ _ _ Hst).
Qed.

(** ** No call sends anything: requests leave through the host *)

Lemma fold_emit_transport {A} (f : A → Effect) (l : list A) en :
  transport (fold_left (λ en x, emit (f x) en) l en) = transport en.
Proof. by rewrite fold_emit. Qed.

Lemma refresh_transport sc en : transport (refresh_if_suspect sc en).1 = transport en.
Proof.
  unfold refresh_if_suspect. destruct (negb _); [done|]. destruct (scope_state _ _) as [[]|]; done.
Qed.
Lemma refresh_outbox_transport en : transport (refresh_outbox_if_suspect en).1 = transport en.
Proof. unfold refresh_outbox_if_suspect. destruct (negb _); [done|]. by destruct (Storage.outbox _). Qed.

Lemma reload_scope_transport sc en : transport (reload_scope sc en).1 = transport en.
Proof.
  unfold reload_scope, st_bind. pose proof (refresh_transport sc en) as Hr.
  destruct (refresh_if_suspect sc en) as [en1 [[]|]]; [|done].
  pose proof (refresh_outbox_transport en1) as Hr2. destruct (refresh_outbox_if_suspect en1). cbn in *. congruence.
Qed.

Lemma enqueue_transport entry en : transport (enqueue entry en).1 = transport en.
Proof.
  unfold enqueue, engine_transact. destruct (check_command _ _); [|done].
  destruct (transact _ _) as [s []]; done.
Qed.

Lemma build_push_transport protocol budget en : transport (build_push protocol budget en).1 = transport en.
Proof.
  unfold build_push, st_bind. pose proof (refresh_outbox_transport en) as Hr.
  destruct (refresh_outbox_if_suspect en) as [en1 [[]|]]; [|done]. cbn in Hr.
  do 2 (case_bool_decide; [done|]). destruct (build_loop _ _ _ _ _ _ _ _) as [[[chosen buf] hd]|]; [|done]. cbn.
  rewrite <- Hr. clear Hr. generalize en1 as e. induction hd as [|[[i sv] why] hd IH]; intros e; [done|]. cbn [fold_left]. by rewrite IH.
Qed.

Lemma apply_results_transport response en : transport (apply_results response en).1 = transport en.
Proof.
  unfold apply_results, st_bind. pose proof (refresh_outbox_transport en) as Hr.
  destruct (refresh_outbox_if_suspect en) as [en1 [[]|]]; [|done]. cbn in Hr. cbv zeta. case_bool_decide; [done|].
  unfold engine_transact. by destruct (transact _ _) as [s []].
Qed.

Lemma apply_batch_transport b en : transport (apply_batch b en).1 = transport en.
Proof.
  unfold apply_batch, apply_changes, apply_committed, st_bind. pose proof (refresh_transport (Batch.scope b) en) as Hr.
  destruct (refresh_if_suspect _ en) as [en1 [[]|]]; [|done]. cbn in Hr. rewrite <- Hr. clear Hr.
  destruct (res_bind _ _) as [[sg q]|]; [|done]. unfold engine_transact. destruct (transact _ _) as [s [o|]]; [|done].
  assert (Hq : ∀ e : engine, transport (fold_left (λ en '(e, i, sv, reason), emit (Emit (RowQuarantined e i sv reason)) en) q e) = transport e).
  { clear. induction q as [|[[[e i] sv] why] q IH]; intros en; [done|]. cbn [fold_left]. by rewrite IH. }
  cbn [fst]. match goal with |- transport (match ?esc with _ => _ end) = _ => destruct esc end.
  - unfold taint. case_match; cbn; by rewrite Hq.
  - case_match; cbn; by rewrite Hq.
Qed.
End calls.
