(* ===== verification/Server.v ===== *)
(** * Server: the server's errors, log rows, batches and version window
    (credsync-server/src/error.rs, pull.rs, version.rs). *)

From S2P Require Import Prelude Errors Nums Ids Json Wire Integrity Core Storage.
From stdpp Require Import options.

(** ** error.rs *)

Module ServerError.
Inductive t : Type :=
| Corrupt (detail : string)
| Protocol (e : ProtocolError)
| Database (detail : string).
Definition display (e : t) : string :=
  match e with
  | Corrupt detail => "corrupt change log: " +:+ detail
  | Protocol e => "invalid value in the change log: " +:+ ProtocolError_display e
  | Database detail => "database failure: " +:+ detail
  end.
End ServerError.

(** ** pull.rs: log rows *)

Module ChangeRow.
Record t := mk {
  seq : Z;
  entity : string;
  entity_id : string;
  op : string;
  snapshot : option Value;
  row_version : Z;
  schema_version : Z;
}.

Definition show_i (n : Z) : string := if n <? 0 then "-" +:+ show (- n) else show n.

(** [u64::try_from] of an [i64], [u16::try_from] of an [i32]. *)
Definition to_u64 (n : Z) (e : ServerError.t) : result Z ServerError.t := if n <? 0 then Err e else Ok n.
Definition to_u16 (n : Z) (e : ServerError.t) : result Z ServerError.t :=
  if (n <? 0) || (u16_max <? n) then Err e else Ok n.

Definition into_change `{Codec} (r : t) : result Change.t ServerError.t :=
  let? op :=
    if String.eqb (op r) "upsert" then Ok Upsert
    else if String.eqb (op r) "delete" then Ok Delete
    else Err (ServerError.Corrupt ("sync_changes.op is '" +:+ op r +:+ "', which is not a valid op")) in
  let? snapshot :=
    match op, snapshot r with
    | Upsert, Some v => let? d := map_err ServerError.Protocol (Document_new v) in Ok (Some d)
    | Upsert, None =>
        Err (ServerError.Corrupt
               ("sync_changes.seq " +:+ show_i (seq r) +:+ " is an upsert with no snapshot"))
    | Delete, None => Ok None
    | Delete, Some _ =>
        Err (ServerError.Corrupt
               ("sync_changes.seq " +:+ show_i (seq r) +:+ " is a delete carrying a snapshot"))
    end in
  let? s := to_u64 (seq r)
    (ServerError.Corrupt ("sync_changes.seq " +:+ show_i (seq r) +:+ " is negative")) in
  let? rv := to_u64 (row_version r)
    (ServerError.Corrupt ("sync_changes.row_version " +:+ show_i (row_version r) +:+ " is negative")) in
  let? sv := to_u16 (schema_version r)
    (ServerError.Corrupt ("sync_changes.schema_version " +:+ show_i (schema_version r)
       +:+ " does not fit the wire's range")) in
  let? s := map_err ServerError.Protocol (Seq.new s) in
  let? e := map_err ServerError.Protocol (EntityName.new (entity r)) in
  let? i := map_err ServerError.Protocol (EntityId.new (entity_id r)) in
  let? rv := map_err ServerError.Protocol (RowVersion.new rv) in
  let? sv := map_err ServerError.Protocol (SchemaVersion.new sv) in
  Ok (Change.mk s e i op snapshot rv sv).
End ChangeRow.

(** ** pull.rs: filling a batch *)

Definition DEFAULT_BUDGET_BYTES : N := 100000.

Section pull.
Context {ZC : Type} `{!Compressor ZC} `{Hashes} `{Codec}.

Definition batch_checksum (changes : list Change.t) : result HexString.t ServerError.t :=
  map_err (λ _, ServerError.Corrupt "a batch could not be encoded for checksumming") (checksum changes).

Fixpoint fill_loop (compressor : ZC) (budget_bytes : N) (candidates chosen : list Change.t) (buf : bytes)
    : result (list Change.t * bytes) ServerError.t :=
  match candidates with
  | [] => Ok (chosen, buf)
  | change :: rest =>
      let? one := map_err (λ _, ServerError.Corrupt "a change in the log could not be encoded")
                    (to_vec change) in
      let rollback := length buf in
      let buf := splice chosen buf one in
      if (budget_bytes <? compressed_len compressor buf)%N && negb (bool_decide (length chosen = 0%nat)) then
        Ok (chosen, unsplice rollback buf)
      else fill_loop compressor budget_bytes rest (chosen ++ [change]) buf
  end.

Definition fill_batch (scope : ScopeId.t) (cursor : Cursor.t) (candidates : list Change.t)
    (more_beyond : bool) (budget_bytes : N) (compressor : ZC) (digest : HexString.t)
    : result Batch.t ServerError.t :=
  let available := length candidates in
  let? r := fill_loop compressor budget_bytes candidates [] [91; 93] in
  let chosen := r.1 in
  let next_cursor :=
    match last chosen with
    | Some c => unwrap_or (Cursor.new (Seq.get (Change.seq c))) cursor
    | None => cursor
    end in
  let? cs := batch_checksum chosen in
  Ok (Batch.mk scope chosen next_cursor ((length chosen <? available)%nat || more_beyond) cs digest).
End pull.

(** ** version.rs *)

Inductive Negotiated : Type :=
| Accepted
| Refused (e : ForcedUpgrade.t).
Definition is_accepted (n : Negotiated) : bool := match n with Accepted => true | Refused _ => false end.

Module VersionPolicy.
Record t := mk { current : ProtocolVersion.t; min : ProtocolVersion.t }.

Definition window (current : ProtocolVersion.t) : t :=
  let min := unwrap_or (ProtocolVersion.new (u16_saturating_sub (ProtocolVersion.get current) 1)) current in
  mk current min.

Definition new (current min : ProtocolVersion.t) : result t string :=
  if ProtocolVersion.get current <? ProtocolVersion.get min then
    Err "the minimum protocol version is above the current one"
  else Ok (mk current min).

(** The value standing for the panic of [unreachable!] on the two literals below. *)
Definition reason_or_unreachable (s : string) : Reason.t := unwrap_or (Reason.new s) (Reason.mk "").

Definition envelope (p : t) (client : ProtocolVersion.t) : ForcedUpgrade.t :=
  let reason :=
    if ProtocolVersion.get (current p) <? ProtocolVersion.get client then
      "This service is running an older version than this app. Please try again later."
    else "This app is too old to sync. Please update it to continue." in
  ForcedUpgrade.mk (min p) (current p) (reason_or_unreachable reason).

Definition negotiate (p : t) (client : ProtocolVersion.t) : Negotiated :=
  if (ProtocolVersion.get (min p) <=? ProtocolVersion.get client)
     && (ProtocolVersion.get client <=? ProtocolVersion.get (current p)) then Accepted
  else Refused (envelope p client).
End VersionPolicy.

(** ** Specification of a batch *)

Section pull_spec.
Context {ZC : Type} `{!Compressor ZC} `{Codec}.

Definition change_encs (cs : list Change.t) (encs : list bytes) : Prop :=
  Forall2 (λ c enc, to_vec c = Ok enc) cs encs.

Definition fits_budget (compressor : ZC) (budget : N) (encs : list bytes) : Prop :=
  (compressed_len compressor (array_bytes encs) ≤ budget)%N.

Lemma fill_loop_ok compressor budget cands chosen encs chosen' buf' :
  change_encs chosen encs → ((length chosen ≤ 1)%nat ∨ fits_budget compressor budget encs) →
  fill_loop compressor budget cands chosen (array_bytes encs) = Ok (chosen', buf') →
  ∃ dn rest encs', cands = dn ++ rest ∧ chosen' = chosen ++ dn ∧ change_encs chosen' encs' ∧
    buf' = array_bytes encs' ∧ ((length chosen' ≤ 1)%nat ∨ fits_budget compressor budget encs') ∧
    (rest = [] ∨ (chosen' ≠ [] ∧ ∃ c rest' enc, rest = c :: rest' ∧ to_vec c = Ok enc ∧
       ¬ fits_budget compressor budget (encs' ++ [enc]))).
Proof.
  revert chosen encs. induction cands as [|c cands IH]; intros chosen encs Henc Hfit.
  { intros [= <- <-]. exists [], [], encs. rewrite !app_nil_r. split_and!; try done. by left. }
  cbn [fill_loop]. destruct (to_vec c) as [one|] eqn:Hone; simpl; [|done].
  assert (Hlen : length chosen = length encs) by (by eapply Forall2_length).
  rewrite splice_array by done. destruct (_ && _) eqn:Hstop.
  - apply andb_true_iff in Hstop as [Hover%N.ltb_lt Hne]. apply negb_true_iff, bool_decide_eq_false in Hne.
    intros [= <- <-]. exists [], (c :: cands), encs. rewrite !app_nil_r. split_and!; try done.
    + rewrite <- (splice_array chosen) by done. apply unsplice_array.
    + right. split; [by destruct chosen|]. exists c, cands, one. split_and!; try done.
      unfold fits_budget. lia.
  - intros Hrun. apply IH in Hrun as (dn & rest & encs' & -> & -> & Henc' & -> & Hfit' & Hs).
    + exists (c :: dn), rest, encs'. rewrite <- app_assoc in *. by split_and!.
    + apply Forall2_app; [done|]. by constructor.
    + rewrite length_app. simpl. destruct chosen as [|c0 chosen]; [simpl; left; lia|right].
      apply andb_false_iff in Hstop as [Hle%N.ltb_ge|Hne]; [done|].
      by rewrite bool_decide_eq_false_2 in Hne.
Qed.

Lemma fill_loop_total compressor budget cands chosen buf :
  Forall (λ c, ∃ enc, to_vec c = Ok enc) cands →
  ∃ r, fill_loop compressor budget cands chosen buf = Ok r.
Proof.
  intros Hall. revert chosen buf. induction Hall as [|c cands [enc Henc] _ IH]; intros chosen buf; [by eexists|].
  cbn [fill_loop]. rewrite Henc. simpl. destruct (_ && _); [by eexists|apply IH].
Qed.

Definition encodable (c : Change.t) : Prop := ∃ enc, to_vec c = Ok enc.

Lemma change_encs_json cs encs :
  change_encs cs encs → res_mapM json_to_vec (to_value <$> cs) = Ok encs.
Proof.
  intros Hall. apply res_mapM_ok. induction Hall as [|c enc cs encs Hc _ IH]; [constructor|].
  rewrite fmap_cons. constructor; [|done]. unfold to_vec in Hc. by res_simpl.
Qed.
End pull_spec.

Section fill_spec.
Context {ZC : Type} `{!Compressor ZC} `{Hashes} `{Codec} `{!CodecArrays}.

Lemma change_encs_list cs encs : change_encs cs encs → to_vec cs = Ok (array_bytes encs).
Proof using Type*.
  intros He. unfold to_vec. change (to_value cs) with (VArray (to_value <$> cs)). cbv zeta.
  by rewrite (json_array (to_value <$> cs) encs) by by apply change_encs_json.
Qed.

(** What a filled batch is: a prefix of the candidates, never empty when there is one, cut
    only where the next change would not fit; its cursor and its [has_more] describe it. *)
Lemma fill_batch_ok scope cursor cands more budget compressor digest :
  Forall encodable cands → Forall (λ c, Seq.wf (Change.seq c)) cands →
  ∃ dn rest encs b, fill_batch scope cursor cands more budget compressor digest = Ok b ∧
    cands = dn ++ rest ∧ Batch.changes b = dn ∧ Batch.scope b = scope ∧ Batch.digest b = digest ∧
    Batch.checksum b = checksum_bytes (array_bytes encs) ∧ change_encs dn encs ∧
    Batch.has_more b = bool_decide (rest ≠ []) || more ∧
    Batch.next_cursor b = match last dn with Some c => Cursor.mk (Seq.get (Change.seq c)) | None => cursor end ∧
    (cands ≠ [] → dn ≠ []) ∧
    ((length dn ≤ 1)%nat ∨ fits_budget compressor budget encs) ∧
    (∀ c rest', rest = c :: rest' → ∃ enc, to_vec c = Ok enc ∧ ¬ fits_budget compressor budget (encs ++ [enc])).
Proof using Type*.
  intros Hall Hwf. unfold fill_batch.
  destruct (fill_loop_total compressor budget cands [] [91; 93] Hall) as [[chosen buf] Hrun].
  destruct (fill_loop_ok compressor budget cands [] [] chosen buf) as
    (dn & rest & encs & Hc & Hch & Henc & -> & Hfit & Hstop); [constructor|left; simpl; lia|done|].
  simpl in Hch. subst chosen. rewrite Hrun. simpl.
  unfold batch_checksum, checksum. rewrite (change_encs_list _ _ Henc). simpl.
  exists dn, rest, encs. eexists. split; [done|]. split_and!; try done; simpl.
  - f_equal. rewrite Hc, length_app. destruct rest as [|c0 r0].
    + rewrite bool_decide_eq_false_2 by naive_solver. apply Nat.ltb_ge. simpl. lia.
    + rewrite bool_decide_eq_true_2 by done. apply Nat.ltb_lt. simpl. lia.
  - destruct (last dn) as [c|] eqn:Hlast; [|done]. rewrite Cursor_new_seq; [done|].
    rewrite Forall_forall in Hwf. apply Hwf. rewrite Hc. apply elem_of_app. left. by apply last_Some_elem_of.
  - intros Hne ->. destruct Hstop as [->|[Hn _]]; done.
  - intros c rest' ->. destruct Hstop as [?|(_ & c0 & r0 & enc & [= <- <-] & Ho & Hnf)]; [done|by exists enc].
Qed.
End fill_spec.
