(* ===== verification/Schema.v ===== *)
(** * Schema: the schema migration of the server (credsync-server/src/db.rs: [migrate],
    [try_migrate], [is_lock_unavailable], [reset_lock_timeout]).

    The database is an environment: what each statement meets, by the number of statements
    issued before it, and whether the migration lock is free. The SQL scripts are outside the
    model; [applied] lists the ones that took effect, in order. *)

From S2P Require Import Prelude Errors Server.
From stdpp Require Import options.

Definition MIGRATION_LOCK_TIMEOUT_MS : Z := 1500.
Definition MIGRATION_ATTEMPTS : nat := 10.

Module PgError.
Record t := mk { code : option string; detail : string }.
Definition LOCK_NOT_AVAILABLE : string := "55P03".
End PgError.

Inductive Sql : Type :=
| SetLockTimeout (ms : Z)
| TryAdvisoryLock
| Script (name : string)
| AdvisoryUnlock
| DefaultLockTimeout.

(** A statement works, has no effect and fails, or takes effect and is reported as failed. *)
Inductive Outcome : Type :=
| Succeeds
| Errors (e : PgError.t)
| ErrorsAfter (e : PgError.t).

Record Env := MkEnv {
  outcome : nat → Sql → Outcome;
  lock_free : nat → bool;
}.

(** The session: its [lock_timeout] ([None] is the default), how many times it holds the
    migration lock, the scripts applied, the statements issued and the time slept. *)
Record Session := MkSession {
  lock_timeout : option Z;
  held : nat;
  applied : list string;
  issued : nat;
  slept_ms : Z;
}.

Inductive Attempt : Type :=
| Done
| Contended (by_ : string)
| Failed (e : PgError.t).

Section migration.
Context (env : Env).

(** What a statement does to the session when it takes effect. *)
Definition effect (st : Sql) (s : Session) : Session :=
  match st with
  | SetLockTimeout ms => MkSession (Some ms) (held s) (applied s) (issued s) (slept_ms s)
  | TryAdvisoryLock => MkSession (lock_timeout s) (held s + 1) (applied s) (issued s) (slept_ms s)
  | Script name => MkSession (lock_timeout s) (held s) (applied s ++ [name]) (issued s) (slept_ms s)
  | AdvisoryUnlock => MkSession (lock_timeout s) (held s - 1) (applied s) (issued s) (slept_ms s)
  | DefaultLockTimeout => MkSession None (held s) (applied s) (issued s) (slept_ms s)
  end.
Definition count (s : Session) : Session :=
  MkSession (lock_timeout s) (held s) (applied s) (issued s + 1) (slept_ms s).

Definition execute (st : Sql) : step Session () PgError.t := λ s,
  match outcome env (issued s) st with
  | Succeeds => (count (effect st s), Ok ())
  | Errors e => (count s, Err e)
  | ErrorsAfter e => (count (effect st s), Err e)
  end.

(** [SELECT pg_try_advisory_lock]: the lock is taken when it is free, and the answer says so. *)
Definition try_lock : step Session bool PgError.t := λ s,
  if lock_free env (issued s) then
    let '(s, r) := execute TryAdvisoryLock s in
    (s, match r with Ok _ => Ok true | Err e => Err e end)
  else
    match outcome env (issued s) TryAdvisoryLock with
    | Succeeds => (count s, Ok false)
    | Errors e | ErrorsAfter e => (count s, Err e)
    end.

Definition reset_lock_timeout (s : Session) : Session := (execute DefaultLockTimeout s).1.

Definition is_lock_unavailable (e : PgError.t) : bool :=
  bool_decide (PgError.code e = Some PgError.LOCK_NOT_AVAILABLE).

Definition run_scripts : step Session () PgError.t :=
  do! execute (Script "0001_sync_tables.sql") then
  do! execute (Script "0002_scope_blocklist.sql") then
  execute (Script "0003_watermark.sql").

Definition try_migrate (s : Session) : Session * Attempt :=
  match execute (SetLockTimeout MIGRATION_LOCK_TIMEOUT_MS) s with
  | (s, Err e) => (s, Failed e)
  | (s, Ok _) =>
      match try_lock s with
      | (s, Err e) => (reset_lock_timeout s, Failed e)
      | (s, Ok false) => (reset_lock_timeout s, Contended "another migration holds the advisory lock")
      | (s, Ok true) =>
          let '(s, applied) := run_scripts s in
          let '(s, unlocked) := execute AdvisoryUnlock s in
          let s := reset_lock_timeout s in
          (s, match applied with
              | Ok _ => match unlocked with Ok _ => Done | Err e => Failed e end
              | Err e =>
                  if is_lock_unavailable e then
                    Contended "a transaction is holding a lock on sync_changes"
                  else Failed e
              end)
      end
  end.

Definition sleep (ms : Z) (s : Session) : Session :=
  MkSession (lock_timeout s) (held s) (applied s) (issued s) (slept_ms s + ms).

(** The body of the loop from [attempt] on, with [remaining] attempts to go. *)
Fixpoint migrate_from (remaining : nat) (attempt : Z) (last : option string) (s : Session)
    : Session * result () ServerError.t :=
  match remaining with
  | O =>
      (s, Err (ServerError.Database
        ("the schema migration could not acquire its locks after " +:+ show (Z.of_nat MIGRATION_ATTEMPTS)
         +:+ " attempts; something is holding a transaction open on sync_changes ("
         +:+ default "no further detail" last +:+ ")")))
  | S remaining =>
      match try_migrate s with
      | (s, Done) => (s, Ok ())
      | (s, Failed e) => (s, Err (ServerError.Database (PgError.detail e)))
      | (s, Contended by_) => migrate_from remaining (attempt + 1) (Some by_) (sleep ((attempt + 1) * 100) s)
      end
  end.

Definition migrate (s : Session) : Session * result () ServerError.t :=
  migrate_from MIGRATION_ATTEMPTS 0 None s.

(** ** Facts *)

Definition all_scripts : list string :=
  ["0001_sync_tables.sql"; "0002_scope_blocklist.sql"; "0003_watermark.sql"].

Lemma execute_facts st s s' r :
  execute st s = (s', r) →
  issued s' = (issued s + 1)%nat ∧ slept_ms s' = slept_ms s ∧
  (r = Ok () → s' = count (effect st s)) ∧ (s' = count s ∨ s' = count (effect st s)) ∧
  (outcome env (issued s) st = Succeeds → r = Ok ()).
Proof.
  unfold execute. destruct (outcome _ _ _); intros [= <- <-]; destruct st; split_and!; naive_solver.
Qed.

Lemma reset_facts s :
  issued (reset_lock_timeout s) = (issued s + 1)%nat ∧ slept_ms (reset_lock_timeout s) = slept_ms s ∧
  held (reset_lock_timeout s) = held s ∧ applied (reset_lock_timeout s) = applied s.
Proof.
  unfold reset_lock_timeout. destruct (execute _ s) as [s' r] eqn:E.
  apply execute_facts in E as (Hi & Hs & _ & [->| ->] & _); by split_and!.
Qed.

(** The three scripts: all of them in order, or a failure. *)
Lemma run_scripts_facts s s' r :
  run_scripts s = (s', r) →
  (issued s' ≤ issued s + 3)%nat ∧ slept_ms s' = slept_ms s ∧ held s' = held s ∧
  (r = Ok () → applied s' = applied s ++ all_scripts).
Proof.
  unfold run_scripts, st_bind.
  destruct (execute (Script "0001_sync_tables.sql") s) as [s1 r1] eqn:E1.
  apply execute_facts in E1 as (Hi1 & Hs1 & Ho1 & Hc1 & _).
  assert (Hh1 : held s1 = held s) by (by destruct Hc1 as [->| ->]).
  destruct r1 as [[]|]; [|intros [= <- <-]; split_and!; [lia|done..]].
  destruct (execute (Script "0002_scope_blocklist.sql") s1) as [s2 r2] eqn:E2.
  apply execute_facts in E2 as (Hi2 & Hs2 & Ho2 & Hc2 & _).
  assert (Hh2 : held s2 = held s1) by (by destruct Hc2 as [->| ->]).
  destruct r2 as [[]|]; [|intros [= <- <-]; split_and!; [lia|congruence..|done]].
  intros E3. apply execute_facts in E3 as (Hi3 & Hs3 & Ho3 & Hc3 & _).
  assert (Hh3 : held s' = held s2) by (by destruct Hc3 as [->| ->]).
  split_and!; [lia|congruence..|]. intros ->. rewrite Ho3, Ho2, Ho1 by done. simpl.
  by rewrite <- !app_assoc.
Qed.

Lemma run_scripts_prefix s s' r : run_scripts s = (s', r) → ∃ some, applied s' = applied s ++ some.
Proof.
  assert (Hone : ∀ name s s' r, execute (Script name) s = (s', r) → ∃ some, applied s' = applied s ++ some).
  { intros name x x' q Hx. apply execute_facts in Hx as (_ & _ & _ & [->| ->] & _);
      [exists []; by rewrite app_nil_r|by exists [name]]. }
  unfold run_scripts, st_bind. destruct (execute (Script "0001_sync_tables.sql") s) as [s1 r1] eqn:E1.
  apply Hone in E1 as [l1 H1]. destruct r1 as [[]|]; [|intros [= <- <-]; by exists l1].
  destruct (execute (Script "0002_scope_blocklist.sql") s1) as [s2 r2] eqn:E2.
  apply Hone in E2 as [l2 H2]. destruct r2 as [[]|]; [|intros [= <- <-]; exists (l1 ++ l2); by rewrite H2, H1, app_assoc].
  intros E3. apply Hone in E3 as [l3 H3]. exists (l1 ++ l2 ++ l3). by rewrite H3, H2, H1, <- !app_assoc.
Qed.

(** An environment in which no lock is left behind: every unlock that is sent takes effect, whether
    or not its reply arrives, and a try-lock that is reported as failed did not take the lock. *)
Definition lock_settles : Prop :=
  ∀ n e, outcome env n AdvisoryUnlock ≠ Errors e ∧ outcome env n TryAdvisoryLock ≠ ErrorsAfter e.

Lemma try_lock_facts s s' r :
  try_lock s = (s', r) →
  issued s' = (issued s + 1)%nat ∧ slept_ms s' = slept_ms s ∧ applied s' = applied s ∧
  (held s ≤ held s' ≤ held s + 1)%nat ∧ (r = Ok true → held s' = (held s + 1)%nat) ∧
  (lock_settles → r ≠ Ok true → held s' = held s).
Proof.
  unfold try_lock. destruct (lock_free _ _).
  - unfold execute. destruct (outcome env (issued s) TryAdvisoryLock) as [|e|e] eqn:Ho; intros [= <- <-]; simpl;
      split_and!; try done; try lia. intros Hs _. by destruct (Hs (issued s) e).
  - destruct (outcome _ _ _); intros [= <- <-]; simpl; split_and!; try done; lia.
Qed.

Lemma unlock_facts s s' r :
  execute AdvisoryUnlock s = (s', r) →
  (held s - 1 ≤ held s' ≤ held s)%nat ∧ (lock_settles → held s' = (held s - 1)%nat).
Proof.
  unfold execute. destruct (outcome env (issued s) AdvisoryUnlock) as [|e|e] eqn:Ho; intros [= <- <-]; simpl;
    (split; [lia|]); try done. intros Hs. by destruct (Hs (issued s) e).
Qed.

Lemma try_migrate_facts s s' a :
  try_migrate s = (s', a) →
  (issued s' ≤ issued s + 7)%nat ∧ slept_ms s' = slept_ms s ∧
  (∃ some, applied s' = applied s ++ some) ∧
  (a = Done → applied s' = applied s ++ all_scripts) ∧
  (held s ≤ held s' ≤ held s + 1)%nat ∧ (lock_settles → held s' = held s).
Proof.
  unfold try_migrate. destruct (execute (SetLockTimeout _) s) as [s1 r1] eqn:E1.
  apply execute_facts in E1 as (Hi1 & Hs1 & _ & Hc1 & _).
  assert (held s1 = held s ∧ applied s1 = applied s) as [Hh1 Ha1] by (by destruct Hc1 as [->| ->]).
  destruct r1 as [[]|e1]; [|intros [= <- <-]; split_and!; [lia|done|exists []; by rewrite app_nil_r|done|lia|lia|done]].
  destruct (try_lock s1) as [s2 r2] eqn:E2. apply try_lock_facts in E2 as (Hi2 & Hs2 & Ha2 & Hr2 & Ht2 & Hh2).
  pose proof (reset_facts s2) as (Hi3 & Hs3 & Hh3 & Ha3).
  destruct r2 as [[]|e2]; [|intros [= <- <-]; (split_and!; [lia|congruence|exists []; rewrite app_nil_r; congruence|done|lia|lia|]);
    intros Hsafe; rewrite Hh3, Hh2 by done; done..].
  clear Hi3 Hs3 Hh3 Ha3 Hh2. specialize (Ht2 eq_refl). destruct (run_scripts s2) as [s3 r3] eqn:E3.
  pose proof (run_scripts_prefix _ _ _ E3) as [some Hp]. apply run_scripts_facts in E3 as (Hi3 & Hs3 & Hh3 & Ha3).
  destruct (execute AdvisoryUnlock s3) as [s4 r4] eqn:E4.
  pose proof (execute_facts _ _ _ _ E4) as (Hi4 & Hs4 & _ & Hc4 & _).
  apply unlock_facts in E4 as [Hr4 Hh4].
  assert (applied s4 = applied s3) as Ha4 by (by destruct Hc4 as [->| ->]).
  pose proof (reset_facts s4) as (Hi5 & Hs5 & Hh5 & Ha5). intros [= <- <-].
  split_and!; [lia|congruence|exists some; congruence| |lia|lia|].
  - intros Hd. rewrite Ha5, Ha4. destruct r3 as [[]|e3]; [|by destruct (is_lock_unavailable e3)].
    rewrite Ha3 by done. congruence.
  - intros Hsafe. specialize (Hh4 Hsafe). lia.
Qed.

Lemma migrate_from_facts remaining attempt last s s' r :
  0 ≤ attempt → migrate_from remaining attempt last s = (s', r) →
  (issued s' ≤ issued s + 7 * remaining)%nat ∧
  slept_ms s ≤ slept_ms s' ≤ slept_ms s + 50 * Z.of_nat remaining * (2 * attempt + Z.of_nat remaining + 1) ∧
  (∃ some, applied s' = applied s ++ some) ∧
  (r = Ok () → ∃ some, applied s' = applied s ++ some ++ all_scripts) ∧
  (held s ≤ held s' ≤ held s + remaining)%nat ∧ (lock_settles → held s' = held s).
Proof.
  revert attempt last s. induction remaining as [|n IH]; intros attempt last s Hat; cbn [migrate_from].
  { intros [= <- <-]. split_and!; [lia|lia|lia|exists []; by rewrite app_nil_r|done|lia|lia|done]. }
  destruct (try_migrate s) as [s1 a] eqn:E. apply try_migrate_facts in E as (Hi & Hs & [some Ha] & Hd & Hr & Hh).
  destruct a as [|why|e].
  - intros [= <- <-]. split_and!; [lia|nia|nia|by exists some|intros _; exists []; by rewrite Hd|lia|lia|done].
  - intros Hm. apply IH in Hm as (Hi' & Hs' & [some' Ha'] & Hd' & Hr' & Hh'); [|lia]. simpl in *.
    split_and!; [lia|lia|nia|exists (some ++ some'); by rewrite Ha', Ha, app_assoc| |lia|lia|].
    + intros Hr0. destruct (Hd' Hr0) as [pre Hp]. exists (some ++ pre). by rewrite Hp, Ha, <- !app_assoc.
    + intros Hsafe. by rewrite Hh', Hh.
  - intros [= <- <-]. split_and!; [lia|nia|nia|by exists some|done|lia|lia|done].
Qed.

(** While the lock is held elsewhere an attempt costs three statements; the first attempt
    that finds it free, on a database that works, ends the migration. *)
Lemma migrate_from_waits remaining attempt last s k :
  (∀ n st, outcome env n st = Succeeds) → (k < remaining)%nat →
  lock_free env (issued s + 3 * k + 1) = true →
  (migrate_from remaining attempt last s).2 = Ok ().
Proof.
  intros Hok. revert remaining attempt last s. induction k as [|k IH]; intros remaining attempt last s Hk Hfree;
    (destruct remaining as [|remaining]; [lia|]); cbn [migrate_from];
    unfold try_migrate, execute at 1, try_lock; rewrite Hok; simpl.
  - replace (issued s + 3 * 0 + 1)%nat with (issued s + 1)%nat in Hfree by lia. rewrite Hfree.
    unfold run_scripts, st_bind, execute. by repeat (rewrite !Hok; simpl).
  - destruct (lock_free env (issued s + 1)).
    + unfold run_scripts, st_bind, execute. by repeat (rewrite !Hok; simpl).
    + rewrite Hok. apply IH; [lia|]. unfold reset_lock_timeout, execute. rewrite Hok. simpl.
      rewrite <- Hfree. f_equal. lia.
Qed.
End migration.
