(* ===== verification/Database.v ===== *)
(** * Database: the server's tables and the statements it runs on them
    (credsync-server/migrations/*.sql and the SQL text in dedupe.rs, blocklist.rs, db.rs).

    A statement is a function on the tables. [Client] is a connection: the tables and what
    will befall its next statements, because a statement can fail, and can also be executed
    and its reply lost. Locks and transactions that span statements are in Watermark. *)

From S2P Require Import Prelude Errors Nums Ids Json Wire Integrity Server.
From stdpp Require Import options.

(** ** Tables *)

(** A row of [sync_changes]: the scope beside the columns pull reads. *)
Module LogRow.
Record t := mk { scope : string; row : ChangeRow.t }.
End LogRow.

(** A row of [sync_command_results]. *)
Module ResultRow.
Record t := mk {
  payload_checksum : string;
  status : string;
  reason : option string;
  server_seq : option Z;
  scope : string;
}.
End ResultRow.

Record Tables := MkTables {
  sync_changes : list LogRow.t;
  last_value : Z;
  is_called : bool;
  sync_command_results : gmap string ResultRow.t;
  sync_scope_blocks : gmap string string;
  sync_watermark : option Z;
}.

Definition set_changes f t := MkTables (f (sync_changes t)) (last_value t) (is_called t)
  (sync_command_results t) (sync_scope_blocks t) (sync_watermark t).
Definition set_results f t := MkTables (sync_changes t) (last_value t) (is_called t)
  (f (sync_command_results t)) (sync_scope_blocks t) (sync_watermark t).
Definition set_blocks f t := MkTables (sync_changes t) (last_value t) (is_called t)
  (sync_command_results t) (f (sync_scope_blocks t)) (sync_watermark t).

(** ** Statements *)

(** A statement answers, or raises the driver's error text and changes nothing. *)
Definition Statement (A : Type) : Type := Tables → result (Tables * A) string.

Definition query {A} (f : Tables → A) : Statement A := λ t, Ok (t, f t).

Inductive Fault : Type :=
| Works
| Fails (detail : string)
| LosesReply (detail : string).

Record Client := MkClient { tables : Tables; faults : list Fault }.

Definition sql {A} (s : Statement A) : step Client A ServerError.t := λ c,
  let '(fault, rest) := match faults c with [] => (Works, []) | f :: r => (f, r) end in
  match fault with
  | Fails d => (MkClient (tables c) rest, Err (ServerError.Database d))
  | Works =>
      match s (tables c) with
      | Ok (t, a) => (MkClient t rest, Ok a)
      | Err d => (MkClient (tables c) rest, Err (ServerError.Database d))
      end
  | LosesReply d =>
      (MkClient (match s (tables c) with Ok (t, _) => t | Err _ => tables c end) rest,
       Err (ServerError.Database d))
  end.

(** ** [sync_command_results] *)

(** The CHECK constraints of the table, and its foreign key. *)
Definition result_row_checks (r : ResultRow.t) : bool :=
  (String.length (ResultRow.payload_checksum r) =? 32)%nat &&
  bool_decide (ResultRow.status r ∈ ["applied"; "rejected"; "superseded"]) &&
  (negb (String.eqb (ResultRow.status r) "rejected") || bool_decide (is_Some (ResultRow.reason r))).
Definition result_row_refers (t : Tables) (r : ResultRow.t) : bool :=
  match ResultRow.server_seq r with
  | None => true
  | Some s => existsb (λ l, ChangeRow.seq (LogRow.row l) =? s) (sync_changes t)
  end.
Definition result_row_ok (t : Tables) (r : ResultRow.t) : bool :=
  result_row_checks r && result_row_refers t r.

Definition select_result (id : string) : Statement (option ResultRow.t) :=
  query (λ t, sync_command_results t !! id).

(** [INSERT ... ON CONFLICT (command_id) DO NOTHING], answering how many rows went in. The CHECK
    constraints are checked before the conflict is looked for, the foreign key once a row has
    gone in: a row that is left out refers to nothing. *)
Definition insert_result (id : string) (r : ResultRow.t) : Statement Z := λ t,
  if negb (result_row_checks r) then Err "constraint violation"
  else match sync_command_results t !! id with
       | Some _ => Ok (t, 0)
       | None =>
           if negb (result_row_refers t r) then Err "constraint violation"
           else Ok (set_results (<[id := r]>) t, 1)
       end.

(** ** [sync_scope_blocks] *)

Definition select_block (scope : string) : Statement (list ()) :=
  query (λ t, match sync_scope_blocks t !! scope with Some _ => [()] | None => [] end).

Definition upsert_block (scope reason : string) : Statement () := λ t,
  if ((1 <=? String.length scope) && (String.length scope <=? 128))%nat then
    Ok (set_blocks (<[scope := reason]>) t, ())
  else Err "constraint violation".

Definition delete_block (scope : string) : Statement () := λ t, Ok (set_blocks (delete scope) t, ()).

(** ** Facts *)

(** A connection that meets no fault. *)
Definition healthy (c : Client) : Prop := faults c = [].

Lemma sql_healthy {A} (s : Statement A) c t a :
  healthy c → s (tables c) = Ok (t, a) → sql s c = (MkClient t [], Ok a).
Proof. unfold sql, healthy. intros -> Hs. by rewrite Hs. Qed.

(** Whatever befalls a statement, the tables are the ones before or the ones after it. *)
Lemma sql_tables {A} (s : Statement A) c c' r :
  sql s c = (c', r) →
  tables c' = tables c ∨ ∃ t a, s (tables c) = Ok (t, a) ∧ tables c' = t.
Proof.
  unfold sql. destruct (faults c) as [|f fs]; simpl.
  - destruct (s (tables c)) as [[t a]|d] eqn:Hs; intros [= <- <-]; [right; eauto|by left].
  - destruct f; simpl.
    + destruct (s (tables c)) as [[t a]|d] eqn:Hs; intros [= <- <-]; [right; eauto|by left].
    + intros [= <- <-]. by left.
    + destruct (s (tables c)) as [[t a]|d] eqn:Hs; intros [= <- <-]; [right; eauto|by left].
Qed.

Lemma sql_ok {A} (s : Statement A) c c' a :
  sql s c = (c', Ok a) → s (tables c) = Ok (tables c', a).
Proof.
  unfold sql. destruct (faults c) as [|[| |] fs]; simpl;
    try (destruct (s (tables c)) as [[t a']|d]; intros [= <- <-]; done); done.
Qed.

(** A statement meets the connection's next fault and no other. *)
Lemma sql_next {A} (st : Statement A) t fs :
  sql st (MkClient t fs) =
    (let '(c, r) := sql st (MkClient t [hd Works fs]) in (MkClient (tables c) (tl fs), r)).
Proof.
  destruct fs as [|[| |] fs]; unfold sql; simpl; by destruct (st t) as [[]|].
Qed.
