(* ===== verification/Dedupe.v ===== *)
(** * Dedupe: command dedupe, the result store, and forwarding to the host
    (credsync-server/src/dedupe.rs and host.rs).

    The host is the application's own code: [Host] is the source's trait, a function of the
    host's state. A run of [forward] alone is the definition; several requests running at
    once are the transition system of Race. *)

From S2P Require Import Prelude Errors Nums Ids Json Wire Integrity Server Database.
From stdpp Require Import options.

(** ** dedupe.rs *)

Inductive Decision : Type :=
| Fresh
| Replay (r : CommandResult.t)
| Mutated (recorded submitted : string).

Module DedupeStats.
Record t := mk { fresh : Z; replays : Z; mutated : Z }.
Definition total (s : t) : Z := fresh s + replays s + mutated s.
End DedupeStats.

Module Recorded.
Record t := mk { checksum : string; result : CommandResult.t }.
End Recorded.

Section dedupe.
Context `{Hashes} `{Codec}.

Definition decide_replay (command : Command.t) (recorded : option Recorded.t)
    : result Decision ServerError.t :=
  let? submitted := map_err
    (λ _, ServerError.Corrupt "a submitted payload could not be encoded for checksumming")
    (payload_checksum (Command.payload command)) in
  match recorded with
  | None => Ok Fresh
  | Some recorded =>
      if negb (String.eqb (Recorded.checksum recorded) (HexString.as_str submitted)) then
        Ok (Mutated (Recorded.checksum recorded) (HexString.as_str submitted))
      else Ok (Replay (Recorded.result recorded))
  end.

Definition read_result (id : CommandId.t) (row : ResultRow.t) : result CommandResult.t ServerError.t :=
  let status := ResultRow.status row in
  let? status :=
    if String.eqb status "applied" then Ok Wire.Applied
    else if String.eqb status "rejected" then Ok Wire.Rejected
    else if String.eqb status "superseded" then Ok Wire.Superseded
    else Err (ServerError.Corrupt ("sync_command_results.status is '" +:+ status +:+ "'")) in
  let? reason := opt_transpose (λ r, map_err ServerError.Protocol (Reason.new r)) (ResultRow.reason row) in
  let? server_seq := opt_transpose
    (λ s, let? s := ChangeRow.to_u64 s
            (ServerError.Corrupt ("sync_command_results.server_seq " +:+ ChangeRow.show_i s +:+ " is negative")) in
          map_err ServerError.Protocol (Seq.new s)) (ResultRow.server_seq row) in
  let r := CommandResult.mk id status reason server_seq in
  try? map_err ServerError.Protocol (CommandResult.validate r) then Ok r.

Definition classify (command : Command.t) : step Client Decision ServerError.t :=
  let! row := sql (select_result (CommandId.to_string (Command.id command))) in
  let! recorded := st_lift
    match row with
    | None => Ok None
    | Some row =>
        let? r := read_result (Command.id command) row in
        Ok (Some (Recorded.mk (ResultRow.payload_checksum row) r))
    end in
  st_lift (decide_replay command recorded).

Definition status_str (s : Status) : string :=
  match s with Wire.Applied => "applied" | Wire.Rejected => "rejected" | Wire.Superseded => "superseded" end.

(** The row an outcome is stored as. *)
Definition result_row (command : Command.t) (checksum : HexString.t) (r : CommandResult.t)
    : result ResultRow.t ServerError.t :=
  let? server_seq := opt_transpose
    (λ s, if i64_max <? Seq.get s then
            Err (ServerError.Corrupt "server_seq does not fit a bigint")
          else Ok (Seq.get s)) (CommandResult.server_seq r) in
  Ok (ResultRow.mk (HexString.as_str checksum) (status_str (CommandResult.status r))
        (Reason.as_str <$> CommandResult.reason r) server_seq (ScopeId.as_str (Command.scope command))).

(** [record] up to its [INSERT], answering how many rows went in. *)
Definition record_insert (command : Command.t) (r : CommandResult.t) : step Client Z ServerError.t :=
  let! checksum := st_lift (map_err
    (λ _, ServerError.Corrupt "a payload could not be encoded for checksumming")
    (payload_checksum (Command.payload command))) in
  let! row := st_lift (result_row command checksum r) in
  sql (insert_result (CommandId.to_string (Command.id command)) row).

(** The rest of [record]: somebody else's row is there. *)
Definition record_lost (command : Command.t) : step Client CommandResult.t ServerError.t :=
  let! d := classify command in
  match d with
  | Replay existing => st_ret existing
  | Mutated recorded submitted =>
      st_fail (ServerError.Corrupt ("command " +:+ CommandId.to_string (Command.id command)
        +:+ " lost an insert race to a record with checksum " +:+ recorded
        +:+ ", but this submission's payload hashes to " +:+ submitted))
  | Fresh =>
      st_fail (ServerError.Corrupt ("command " +:+ CommandId.to_string (Command.id command)
        +:+ " lost an insert race and then found no record at all"))
  end.

Definition record (command : Command.t) (r : CommandResult.t) : step Client CommandResult.t ServerError.t :=
  let! inserted := record_insert command r in
  if inserted =? 1 then st_ret r else record_lost command.

Definition mutated_reason : Reason.t :=
  unwrap_or (Reason.new "This request could not be verified. Please try again.") (Reason.mk "").
End dedupe.

(** ** host.rs *)

Module HostOutcome.
Inductive t : Type :=
| Applied (server_seq : Seq.t)
| Rejected (reason : Reason.t)
| Superseded.
End HostOutcome.

Module HostError.
Inductive t : Type :=
| Timeout
| Status (code : Z)
| Unreachable (detail : string)
| Malformed (detail : string).
Definition display (e : t) : string :=
  match e with
  | Timeout => "the host did not answer in time"
  | Status code => "the host answered with status " +:+ show code
  | Unreachable detail => "the host was unreachable: " +:+ detail
  | Malformed detail => "the host's answer was unreadable: " +:+ detail
  end.
End HostError.

Class Host (H : Type) : Type := {
  host_apply : H → Command.t → H * result HostOutcome.t HostError.t;
}.

Module Forwarded.
Inductive t : Type :=
| Decided (r : CommandResult.t)
| Replayed (r : CommandResult.t)
| Mutated (r : CommandResult.t)
| Unresolved (error : HostError.t).
Definition result (f : t) : option CommandResult.t :=
  match f with Decided r | Replayed r | Mutated r => Some r | Unresolved _ => None end.
End Forwarded.

(** The result sent for a reused id. *)
Definition mutated_result (command : Command.t) : CommandResult.t :=
  CommandResult.mk (Command.id command) Wire.Rejected (Some mutated_reason) None.

(** The host's verdict as a result. *)
Definition outcome_result (command : Command.t) (outcome : HostOutcome.t) : CommandResult.t :=
  let id := Command.id command in
  match outcome with
  | HostOutcome.Applied server_seq => CommandResult.mk id Wire.Applied None (Some server_seq)
  | HostOutcome.Rejected reason => CommandResult.mk id Wire.Rejected (Some reason) None
  | HostOutcome.Superseded => CommandResult.mk id Wire.Superseded None None
  end.

Section forward.
Context {H : Type} `{!Host H} `{Hashes} `{Codec}.

(** The state is the connection and the host. *)
Definition on_client {A} (m : step Client A ServerError.t) : step (Client * H) A ServerError.t :=
  λ '(c, h), let '(c', r) := m c in ((c', h), r).
Definition ask_host (command : Command.t)
    : step (Client * H) (Datatypes.sum HostOutcome.t HostError.t) ServerError.t :=
  λ '(c, h), let '(h', r) := host_apply h command in
    ((c, h'), Ok match r with Ok o => inl o | Err e => inr e end).

Definition forward (command : Command.t) : step (Client * H) Forwarded.t ServerError.t :=
  let! d := on_client (classify command) in
  match d with
  | Replay existing => st_ret (Forwarded.Replayed existing)
  | Mutated _ _ => st_ret (Forwarded.Mutated (mutated_result command))
  | Fresh =>
      let! answer := ask_host command in
      match answer with
      | inr error => st_ret (Forwarded.Unresolved error)
      | inl outcome =>
          let! recorded := on_client (record command (outcome_result command outcome)) in
          st_ret (Forwarded.Decided recorded)
      end
  end.
End forward.
