(* ===== verification/Race.v ===== *)
(** * Race: several [forward]s of the server running at once over one database.

    A [Session] is one run of [host::forward] stopped between two of its awaits. [advance] is
    the code between one await and the next; it runs the same [classify], [record_insert] and
    [record_lost] that [forward] is made of, and [forward_runs] shows that a session nobody
    interrupts computes [forward]. *)

From S2P Require Import Prelude Errors Nums Ids Json Wire Integrity Server Database Dedupe.
From stdpp Require Import options.

Inductive Session : Type :=
| Classifying (command : Command.t)
| Asking (command : Command.t)
| Inserting (command : Command.t) (r : CommandResult.t)
| Rereading (command : Command.t) (r : CommandResult.t)
| Finished (command : Command.t) (answer : result Forwarded.t ServerError.t).

Definition session_command (s : Session) : Command.t :=
  match s with
  | Classifying c | Asking c | Inserting c _ | Rereading c _ | Finished c _ => c
  end.

Section race.
Context {H : Type} `{!Host H} `{Hashes} `{Codec}.

(** What the session is after a statement that meets [fault], over the shared tables. *)
Definition advance (fault : Fault) (t : Tables) (h : H) (s : Session) : Tables * H * Session :=
  match s with
  | Classifying command =>
      let '(c, d) := classify command (MkClient t [fault]) in
      (tables c, h,
       match d with
       | Err e => Finished command (Err e)
       | Ok (Replay existing) => Finished command (Ok (Forwarded.Replayed existing))
       | Ok (Mutated _ _) => Finished command (Ok (Forwarded.Mutated (mutated_result command)))
       | Ok Fresh => Asking command
       end)
  | Asking command =>
      let '(h, answer) := host_apply h command in
      (t, h,
       match answer with
       | Err error => Finished command (Ok (Forwarded.Unresolved error))
       | Ok outcome => Inserting command (outcome_result command outcome)
       end)
  | Inserting command r =>
      let '(c, inserted) := record_insert command r (MkClient t [fault]) in
      (tables c, h,
       match inserted with
       | Err e => Finished command (Err e)
       | Ok n => if n =? 1 then Finished command (Ok (Forwarded.Decided r)) else Rereading command r
       end)
  | Rereading command r =>
      let '(c, existing) := record_lost command (MkClient t [fault]) in
      (tables c, h,
       match existing with
       | Err e => Finished command (Err e)
       | Ok r => Finished command (Ok (Forwarded.Decided r))
       end)
  | Finished _ _ => (t, h, s)
  end.

Record World := MkWorld { shared : Tables; host : H; sessions : list Session }.

(** One session moves, with any fault; or the rest of the system writes the other tables (the
    host's transaction appends to the change log). *)
Inductive race_step : World → World → Prop :=
| race_session i fault w s t h s' :
    sessions w !! i = Some s →
    advance fault (shared w) (host w) s = (t, h, s') →
    race_step w (MkWorld t h (<[i := s']> (sessions w)))
| race_other w t :
    sync_command_results t = sync_command_results (shared w) →
    race_step w (MkWorld t (host w) (sessions w)).

Definition race : World → World → Prop := rtc race_step.

(** Every request has just arrived. *)
Definition arriving (w : World) : Prop :=
  Forall (λ s, ∃ command, s = Classifying command) (sessions w).

(** The result a session has told its client, when it told it the host's verdict. *)
Definition verdict (s : Session) : option (CommandId.t * CommandResult.t) :=
  match s with
  | Finished c (Ok (Forwarded.Decided r)) | Finished c (Ok (Forwarded.Replayed r)) => Some (Command.id c, r)
  | _ => None
  end.
End race.
Arguments World : clear implicits.

(** ** A result survives its row *)

(** A result built from values their constructors accepted. *)
Definition result_wf (r : CommandResult.t) : Prop :=
  CommandResult.validate r = Ok () ∧
  (∀ q, CommandResult.reason r = Some q → Reason.new (Reason.as_str q) = Ok q) ∧
  (∀ s, CommandResult.server_seq r = Some s → Seq.wf s).

(** The same of a host's verdict. *)
Definition outcome_wf (o : HostOutcome.t) : Prop :=
  match o with
  | HostOutcome.Applied s => Seq.wf s
  | HostOutcome.Rejected q => Reason.new (Reason.as_str q) = Ok q
  | HostOutcome.Superseded => True
  end.

Lemma outcome_result_wf command o : outcome_wf o → result_wf (outcome_result command o).
Proof. destruct o; simpl; intros; (split; [done|split; naive_solver]). Qed.

Lemma seq_reads_back z (e : ServerError.t) :
  Seq.wf z →
  (let? x := (if Seq.get z <? 0 then Err e else Ok (Seq.get z)) in
   map_err ServerError.Protocol (Seq.new x)) = Ok z.
Proof.
  destruct z as [z]. unfold Seq.wf, Seq.new, bounded_num_new, SEQ_MIN, SEQ_MAX, i64_max. simpl.
  intros Hz. destruct (Z.ltb_spec z 0); simpl; [lia|]. by ztests; simpl; try lia.
Qed.

Lemma read_result_row command cs r row :
  result_wf r → result_row command cs r = Ok row → read_result (CommandResult.id r) row = Ok r.
Proof.
  intros (Hv & Hq & Hs) Hrow. destruct r as [id st q s]. unfold result_row in Hrow. simpl in *.
  assert (Hst : ∀ {A} (f : Status → result A ServerError.t),
    (let? x := if String.eqb (status_str st) "applied" then Ok Wire.Applied
               else if String.eqb (status_str st) "rejected" then Ok Wire.Rejected
               else if String.eqb (status_str st) "superseded" then Ok Wire.Superseded
               else Err (ServerError.Corrupt ("sync_command_results.status is '" +:+ status_str st +:+ "'"))
     in f x) = f st) by (by destruct st).
  res_simpl. unfold read_result. simpl. rewrite Hst.
  destruct q as [q|]; cbn [fmap option_fmap option_map opt_transpose res_bind];
    [rewrite (Hq _ eq_refl)|]; cbn [map_err res_bind];
    destruct s as [s|]; simpl in Heqr; try (destruct (_ <? _); [done|]); simplify_eq/=;
    unfold ChangeRow.to_u64.
  all: cbn [ResultRow.server_seq opt_transpose res_bind]; try rewrite (seq_reads_back s) by auto;
    cbn [res_bind]; by rewrite Hv.
Qed.

(** ** What each statement can do to the store *)

Section facts.
Context `{Hashes} `{Codec}.

Definition key (command : Command.t) : string := CommandId.to_string (Command.id command).

(** The store holds [r], recorded for this very body. *)
Definition recorded_as (t : Tables) (command : Command.t) (r : CommandResult.t) : Prop :=
  ∃ row cs, sync_command_results t !! key command = Some row ∧
    read_result (Command.id command) row = Ok r ∧
    payload_checksum (Command.payload command) = Ok cs ∧
    ResultRow.payload_checksum row = HexString.as_str cs.

Lemma recorded_as_mono t t' command r :
  sync_command_results t ⊆ sync_command_results t' → recorded_as t command r → recorded_as t' command r.
Proof using Type*.
  intros Hsub (row & cs & Hrow & Hrest). exists row, cs. split; [|done].
  by eapply lookup_weaken.
Qed.

Lemma recorded_as_unique t c1 c2 r1 r2 :
  Command.id c1 = Command.id c2 → recorded_as t c1 r1 → recorded_as t c2 r2 →
  r1 = r2 ∧ payload_checksum (Command.payload c1) = payload_checksum (Command.payload c2).
Proof using Type*.
  intros Hid (row1 & cs1 & Hrow1 & Hr1 & Hc1 & He1) (row2 & cs2 & Hrow2 & Hr2 & Hc2 & He2).
  unfold key in *. rewrite Hid in Hrow1, Hr1. simplify_eq. rewrite Hr1 in Hr2. split; [congruence|].
  rewrite Hc1, Hc2. destruct cs1, cs2. simpl in *. congruence.
Qed.

Lemma classify_tables command c c' d : classify command c = (c', d) → tables c' = tables c.
Proof using Type*.
  unfold classify, st_bind, st_lift. destruct (sql _ c) as [c1 r1] eqn:Hs.
  assert (tables c1 = tables c) as Ht.
  { destruct (sql_tables _ _ _ _ Hs) as [?|(t & a & Hq & ->)]; [done|]. by injection Hq as <-. }
  repeat case_match; intros; simplify_eq; done.
Qed.

(** What a row means for a command: the pure half of [classify]. *)
Definition judge (command : Command.t) (row : option ResultRow.t) : result Decision ServerError.t :=
  let? recorded :=
    match row with
    | None => Ok None
    | Some row =>
        let? r := read_result (Command.id command) row in
        Ok (Some (Recorded.mk (ResultRow.payload_checksum row) r))
    end in
  decide_replay command recorded.

Lemma classify_healthy command t :
  classify command (MkClient t []) =
    (MkClient t [], judge command (sync_command_results t !! key command)).
Proof using Type*.
  unfold classify, judge, st_bind, st_lift, sql, select_result, query, key; simpl.
  destruct (sync_command_results t !! _); simpl; [|done]. by destruct (read_result _ _).
Qed.

Lemma classify_ok command c c' d :
  classify command c = (c', Ok d) →
  judge command (sync_command_results (tables c) !! key command) = Ok d.
Proof using Type*.
  unfold classify, judge, st_bind, st_lift. destruct (sql _ c) as [c1 [row|e]] eqn:Hs; [|done].
  apply sql_ok in Hs. unfold select_result, query in Hs. injection Hs as Ht Hrow. unfold key. rewrite Hrow.
  clear. destruct row as [row|]; simpl; [destruct (read_result _ row); simpl; [|done]|];
    intros [= _ <-]; done.
Qed.

Lemma judge_replay t command r :
  judge command (sync_command_results t !! key command) = Ok (Replay r) → recorded_as t command r.
Proof using Type*.
  unfold judge, decide_replay. intros Hj.
  destruct (payload_checksum _) as [cs|e] eqn:Hcs; destruct (_ !! _) as [row|] eqn:Hrow; simpl in Hj; res_simpl; simplify_eq/=.
  case_match; simplify_eq. exists row, cs. split_and!; [done|done|done|].
  by destruct (String.eqb_spec (ResultRow.payload_checksum row) (HexString.as_str cs)).
Qed.

(** An answered [INSERT] put in exactly this row, or found the id taken and did nothing. *)
Lemma record_insert_tables command r c c' n :
  record_insert command r c = (c', n) →
  tables c' = tables c ∨
  ∃ cs row, payload_checksum (Command.payload command) = Ok cs ∧ result_row command cs r = Ok row ∧
    sync_command_results (tables c) !! key command = None ∧
    tables c' = set_results (<[key command := row]>) (tables c).
Proof using Type*.
  unfold record_insert, st_bind, st_lift. destruct (payload_checksum _) as [cs|e] eqn:Hcs; simpl;
    [|intros [= <- <-]; by left].
  destruct (result_row _ _ _) as [row|e] eqn:Hrow; [|intros [= <- <-]; by left].
  intros Hs. destruct (sql_tables _ _ _ _ Hs) as [?|(t & a & Hi & Ht)]; [by left|].
  unfold insert_result in Hi. case_match; [done|]. case_match; [simplify_eq; by left|]. case_match; simplify_eq.
  right. by exists cs, row.
Qed.

Lemma record_insert_won command r c c' :
  record_insert command r c = (c', Ok 1) →
  ∃ cs row, payload_checksum (Command.payload command) = Ok cs ∧ result_row command cs r = Ok row ∧
    sync_command_results (tables c) !! key command = None ∧
    tables c' = set_results (<[key command := row]>) (tables c).
Proof using Type*.
  unfold record_insert, st_bind, st_lift. destruct (payload_checksum _) as [cs|e] eqn:Hcs; simpl; [|done].
  destruct (result_row _ _ _) as [row|e] eqn:Hrow; [|done].
  intros Hs. apply sql_ok in Hs.
  unfold insert_result in Hs. case_match; [done|]. case_match; [by simplify_eq|]. case_match; simplify_eq. by exists cs, row.
Qed.

Lemma record_lost_tables command c c' r : record_lost command c = (c', r) → tables c' = tables c.
Proof using Type*.
  unfold record_lost, st_bind. destruct (classify command c) as [c1 d] eqn:Hc.
  apply classify_tables in Hc. by destruct d as [[| |]|]; intros [= <- <-].
Qed.

Lemma record_lost_ok command c c' r :
  record_lost command c = (c', Ok r) → recorded_as (tables c) command r.
Proof using Type*.
  unfold record_lost, st_bind. destruct (classify command c) as [c1 [d|e]] eqn:Hc; [|done].
  apply classify_ok in Hc. destruct d; intros [= <- <-]. by apply judge_replay.
Qed.

Lemma recorded_insert t command r cs row :
  Command.id command = CommandResult.id r → result_wf r →
  payload_checksum (Command.payload command) = Ok cs → result_row command cs r = Ok row →
  recorded_as (set_results (<[key command := row]>) t) command r.
Proof using Type*.
  intros Hid Hwf Hcs Hrow. exists row, cs. split_and!.
  - simpl. apply lookup_insert_eq.
  - rewrite Hid. by eapply read_result_row.
  - done.
  - unfold result_row in Hrow. by res_simpl.
Qed.
Lemma classify_next command t fs :
  classify command (MkClient t fs) =
    (let '(c, r) := classify command (MkClient t [hd Works fs]) in (MkClient (tables c) (tl fs), r)).
Proof using Type*.
  unfold classify, st_bind, st_lift. rewrite sql_next.
  destruct (sql _ (MkClient t [hd Works fs])) as [c [row|e]]; simpl; [|done].
  destruct row as [row|]; simpl; [by destruct (read_result _ row); simpl|done].
Qed.

Lemma record_lost_next command t fs :
  record_lost command (MkClient t fs) =
    (let '(c, r) := record_lost command (MkClient t [hd Works fs]) in (MkClient (tables c) (tl fs), r)).
Proof using Type*.
  unfold record_lost, st_bind. rewrite classify_next.
  destruct (classify command (MkClient t [hd Works fs])) as [c [[| |]|e]]; done.
Qed.

Lemma record_insert_next command r t fs :
  let '(c1, n1) := record_insert command r (MkClient t [hd Works fs]) in
  let '(c, n) := record_insert command r (MkClient t fs) in
  n = n1 ∧ tables c = tables c1 ∧ ∀ k, n = Ok k → faults c = tl fs.
Proof using Type*.
  unfold record_insert, st_bind, st_lift. destruct (payload_checksum _) as [cs|e]; simpl; [|done].
  destruct (result_row _ _ _) as [row|e]; [|done]. rewrite (sql_next _ t fs).
  by destruct (sql _ (MkClient t [hd Works fs])) as [c [n|e]].
Qed.

End facts.

(** ** A session on its own is [forward] *)

Section alone.
Context {H : Type} `{!Host H} `{Hashes} `{Codec}.

(** The session run to its end by nobody but itself: each statement meets the connection's
    next fault. Four moves are enough: classify, ask, insert, reread. *)
Fixpoint run_alone (fuel : nat) (fs : list Fault) (t : Tables) (h : H) (s : Session)
    : Tables * H * Session :=
  match fuel with
  | O => (t, h, s)
  | S fuel =>
      match s with
      | Finished _ _ => (t, h, s)
      | Asking _ => let '(t, h, s) := advance Works t h s in run_alone fuel fs t h s
      | _ => let '(t, h, s) := advance (hd Works fs) t h s in run_alone fuel (tl fs) t h s
      end
  end.

Lemma forward_runs command t fs h :
  run_alone 4 fs t h (Classifying command) =
    (let '((c, h'), r) := forward command (MkClient t fs, h) in (tables c, h', Finished command r)).
Proof using Type*.
  cbn [run_alone advance]. unfold forward, on_client, ask_host, st_bind, st_ret.
  rewrite (classify_next command t fs). destruct (classify _ (MkClient t [hd Works fs])) as [c [[|old|r1 r2]|e]]; [|done..].
  cbn [run_alone advance tables]. destruct (host_apply h command) as [h' [o|e]]; [|done].
  cbn [run_alone advance]. unfold record, st_bind, st_ret.
  pose proof (record_insert_next command (outcome_result command o) (tables c) (tl fs)) as Hn.
  destruct (record_insert _ _ (MkClient (tables c) [_])) as [c1 n1].
  destruct (record_insert _ _ (MkClient (tables c) (tl fs))) as [[t2 fs2] n] eqn:Hins.
  destruct Hn as (-> & Ht & Hfs). simpl in Ht. subst t2. destruct n1 as [k|e]; [|done].
  destruct (k =? 1); [done|]. specialize (Hfs k eq_refl). simpl in Hfs. subst fs2.
  cbn [run_alone advance]. rewrite (record_lost_next command (tables c1) (tl (tl fs))).
  by destruct (record_lost command (MkClient (tables c1) [_])) as [c2 [r|e]].
Qed.
End alone.

(** ** What holds in every interleaving *)

Section invariant.
Context {H : Type} `{!Host H} `{Hashes} `{Codec}.

(** The host answers with values their constructors accept. *)
Definition host_honest : Prop :=
  ∀ h command h' o, host_apply h command = (h', Ok o) → outcome_wf o.

Definition session_ok (t : Tables) (s : Session) : Prop :=
  match s with
  | Inserting c r | Rereading c r => result_wf r ∧ CommandResult.id r = Command.id c
  | Finished c (Ok (Forwarded.Decided r)) | Finished c (Ok (Forwarded.Replayed r)) => recorded_as t c r
  | _ => True
  end.

Lemma session_ok_mono t t' s :
  sync_command_results t ⊆ sync_command_results t' → session_ok t s → session_ok t' s.
Proof using Type*.
  intros Hsub. destruct s as [| | | |c [[]|]]; simpl; auto; by apply recorded_as_mono.
Qed.

Lemma advance_ok fault t h s t' h' s' :
  host_honest → session_ok t s → advance fault t h s = (t', h', s') →
  sync_command_results t ⊆ sync_command_results t' ∧ session_ok t' s' ∧
  session_command s' = session_command s.
Proof using Type*.
  intros Hh Hs Ha. destruct s as [c|c|c r|c r|c a]; simpl in Ha.
  - destruct (classify c _) as [cl d] eqn:Hc.
    pose proof (classify_tables _ _ _ _ Hc) as Ht. simpl in Ht. injection Ha as <- <- <-. rewrite Ht.
    split_and!; [done| |by destruct d as [[]|]].
    destruct d as [[|r|]|]; simpl; try done. apply classify_ok in Hc.
    by apply judge_replay.
  - destruct (host_apply h c) as [h1 [o|e]] eqn:Ho; injection Ha as <- <- <-; [|done].
    split_and!; [done| |done]. simpl. split; [by eapply outcome_result_wf, Hh|by destruct o].
  - destruct (record_insert c r _) as [cl n] eqn:Hi. injection Ha as <- <- <-. destruct Hs as [Hwf Hid].
    split_and!.
    + destruct (record_insert_tables _ _ _ _ _ Hi) as [->|(cs & row & _ & _ & Hn & ->)]; [done|].
      simpl. by apply insert_subseteq.
    + destruct n as [n|]; [|done]. destruct (Z.eqb_spec n 1) as [->|]; [|by split].
      destruct (record_insert_won _ _ _ _ Hi) as (cs & row & Hcs & Hrow & _ & ->).
      simpl. by eapply recorded_insert.
    + destruct n as [n|]; [by destruct (n =? 1)|done].
  - destruct (record_lost c _) as [cl n] eqn:Hi. injection Ha as <- <- <-.
    pose proof (record_lost_tables _ _ _ _ Hi) as Ht. simpl in Ht. rewrite Ht.
    split_and!; [done| |by destruct n]. destruct n; [|done]. by apply record_lost_ok in Hi.
  - by injection Ha as <- <- <-.
Qed.

Lemma run_alone_ok fuel fs t h s :
  host_honest → session_ok t s →
  let '(t', _, s') := run_alone fuel fs t h s in session_ok t' s'.
Proof using Type*.
  intros Hh. revert fs t h s. induction fuel as [|fuel IH]; intros fs t h s Hs; simpl; [done|].
  assert (∀ f fs', let '(t', _, s') := (let '(t, h, s) := advance f t h s in run_alone fuel fs' t h s)
    in session_ok t' s') as Hgo.
  { intros f fs'. destruct (advance f t h s) as [[t1 h1] s1] eqn:Ha.
    apply IH. by apply (advance_ok _ _ _ _ _ _ _ Hh Hs Ha). }
  destruct s; [apply Hgo..|done].
Qed.

Lemma race_keeps w w' :
  host_honest → race w w' → Forall (session_ok (shared w)) (sessions w) →
  sync_command_results (shared w) ⊆ sync_command_results (shared w') ∧
  Forall (session_ok (shared w')) (sessions w') ∧
  session_command <$> sessions w' = session_command <$> sessions w.
Proof using Type*.
  intros Hh. induction 1 as [w|w w1 w' Hstep _ IH]; intros Hs; [done|].
  assert (sync_command_results (shared w) ⊆ sync_command_results (shared w1) ∧
    Forall (session_ok (shared w1)) (sessions w1) ∧
    session_command <$> sessions w1 = session_command <$> sessions w) as (Hsub & Hs1 & Hc).
  { destruct Hstep as [i fault w s t h s' Hi Ha|w t Ht]; simpl.
    - destruct (advance_ok _ _ _ _ _ _ _ Hh (Forall_lookup_1 _ _ _ _ Hs Hi) Ha) as (Hsub & Hok & Hc).
      split_and!; [done| |].
      + apply Forall_insert; [|done]. eapply Forall_impl; [exact Hs|]. intros. by eapply session_ok_mono.
      + rewrite list_fmap_insert, Hc. apply list_insert_id. by rewrite list_lookup_fmap, Hi.
    - rewrite Ht. split_and!; [done| |done]. eapply Forall_impl; [exact Hs|]. intros s Hok.
      eapply session_ok_mono; [|exact Hok]. by rewrite Ht. }
  destruct (IH Hs1) as (Hsub' & Hs' & Hc'). split_and!; [by etrans|done|by rewrite Hc'].
Qed.

Lemma arriving_ok (w : World H) : arriving w → Forall (session_ok (shared w)) (sessions w).
Proof using Type*. intros Ha. eapply Forall_impl; [exact Ha|]. by intros s [c ->]. Qed.

Lemma verdict_recorded t s id r :
  session_ok t s → verdict s = Some (id, r) →
  Command.id (session_command s) = id ∧ recorded_as t (session_command s) r.
Proof using Type*.
  destruct s as [| | | |c [[]|]]; simpl; intros Hs Hv; simplify_eq; done.
Qed.
End invariant.
