(* ===== verification/Fleet.v ===== *)
(** * Fleet: the command path, end to end.

    Any number of clients author, queue and push commands; what they push may reach the server
    any number of times, or never; each arrival is a run of [host::forward] interleaved with
    the others (Race); and what a run answers may reach the client that asked any number of
    times, in any grouping and order, or never. A client may also be sent any batches, fail, lose
    acknowledgements and restart.

    The commands authored, those put on the wire and the verdicts of the host are kept in the
    state: they are what the invariant speaks of. A client may be upgraded, to any registry and
    any migrations; [fleet_step False] is the fleet where none is. *)

From S2P Require Import Prelude Errors Nums Ids Json Wire Integrity Core Registry Migrate.
From S2P Require Import Outbox Storage Apply Engine EngineFacts EngineSteps Place PushFacts Ledger.
From S2P Require Import Server Database Dedupe Race.
From stdpp Require Import options.

Section calls.
Context {C E S T ZC : Type} `{!Storage S} `{!StorageLaws S} `{!Compressor ZC} `{Hashes} `{Codec}.
Abbreviation engine := (Engine C E S T ZC).
Implicit Types (en : engine).

(** ** What the calls do to the queue and the outcomes *)

(** The calls that have nothing to do with commands, and a restart. *)
Inductive elsewhere : engine → engine → Prop :=
| elsewhere_changes en b compare rebuilding en' r :
    apply_changes b compare rebuilding en = (en', r) → elsewhere en en'
| elsewhere_rebootstrap en sc en' r : begin_rebootstrap sc en = (en', r) → elsewhere en en'
| elsewhere_clear_health en sc en' r : clear_scope_health sc en = (en', r) → elsewhere en en'
| elsewhere_reload en sc en' r : reload_scope sc en = (en', r) → elsewhere en en'
| elsewhere_upgrade en envelope : elsewhere en (on_upgrade_required envelope en)
| elsewhere_upgraded en : elsewhere en (upgrade_completed en)
| elsewhere_effect en : elsewhere en (next_effect en).1
| elsewhere_restart en en' :
    coherent en' → same_setup en en' → durable en' = durable en → elsewhere en en'.

(** What a client has queued and what it was told. *)
Definition same_commands en en' : Prop :=
  v_outbox (durable en') = v_outbox (durable en) ∧ v_resolved (durable en') = v_resolved (durable en).

Lemma transact_commands en s' ops r :
  transact (storage en) ops = (s', r) →
  (∀ v, v_outbox (apply_ops ops v) = v_outbox v ∧ v_resolved (apply_ops ops v) = v_resolved v) →
  v_outbox (view s') = v_outbox (durable en) ∧ v_resolved (view s') = v_resolved (durable en).
Proof using Type*. intros Ht Hops. unfold durable. destruct (transact_view _ _ _ _ Ht) as [-> | ->]; [done|apply Hops]. Qed.

(** A batch of any changes, readable or not, leaves the commands alone. *)
Lemma apply_changes_commands b compare rebuilding en en' r :
  apply_changes b compare rebuilding en = (en', r) → same_setup en en' ∧ same_commands en en'.
Proof using Type*.
  intros (en1 & r1 & Hre & Hcase)%apply_changes_fresh.
  destruct Hcase as [(e & _ & _ & ->)|(-> & Hns & Ha)]; [done|].
  destruct (refresh_facts _ _ _ _ Hre) as (Hst & Hreg & Hmig & _).
  enough (same_setup en1 en' ∧ same_commands en1 en') as [[] Hs].
  { split; [split; congruence|]. unfold same_commands, durable in *. by rewrite Hst in Hs. }
  destruct (apply_changes_cases _ _ _ _ _ _ Hns Ha) as [(e & _ & ->)|(sg & q & _ & Hstage & Hrun)]; [done|].
  apply stage_all_shape in Hstage as [_ (ops & Hops & Hrow)]. simpl in Hops. rewrite <- Hops in Hrow. cbv zeta in Hrun.
  assert (∃ o, transact (storage en1) (batch_ops b sg ++ verdict_ops (Batch.scope b) (scope_health (Batch.scope b) en1) compare
    (batch_diverged b sg compare) rebuilding) = (storage en', o) ∧ same_setup en1 en') as (o & Ht & Hs).
  { destruct Hrun as [(s' & se & Ht & _ & ->)|(s' & o & Ht & _ & <- & _ & _ & ? & ? & _)]; by eexists. }
  split; [done|]. eapply transact_commands; [exact Ht|]. intros v.
  by destruct (batch_view b sg (scope_health (Batch.scope b) en1) compare (batch_diverged b sg compare) rebuilding v Hrow)
    as (_ & _ & _ & ? & ? & _).
Qed.

Lemma elsewhere_keeps en en' :
  elsewhere en en' → coherent en → coherent en' ∧ same_setup en en' ∧ same_commands en en'.
Proof using Type*.
  intros Hstep Hinv. destruct Hstep as [en b compare rebuilding en' r Ha|en sc en' r Ha|en sc en' r Ha|en sc en' r Ha|
    en envelope|en|en|en en' Hinv' Hs Hv].
  - split; [by eapply apply_changes_coherent|]. by eapply apply_changes_commands.
  - split; [by eapply begin_rebootstrap_coherent|]. unfold begin_rebootstrap, engine_transact in Ha.
    destruct (transact _ _) as [s' o] eqn:Ht. destruct (transact_commands en s' _ o Ht) as [? ?]; [done|].
    by destruct o; injection Ha as <- <-.
  - split; [by eapply clear_scope_health_coherent|]. unfold clear_scope_health, engine_transact in Ha.
    destruct (transact _ _) as [s' o] eqn:Ht. destruct (transact_commands en s' _ o Ht) as [? ?]; [done|].
    by destruct o; injection Ha as <- <-.
  - split; [by eapply reload_scope_coherent|]. apply reload_scope_view in Ha as [Hs Hv]. split; [done|]. unfold same_commands. by rewrite Hv.
  - by split.
  - by split.
  - unfold next_effect. by destruct (effects en).
  - split; [done|]. split; [done|]. unfold same_commands. by rewrite Hv.
Qed.

(** A push sends entries of the queue, as this version of the app sends them. *)
Lemma build_loop_sends (rg : Registry) ms (zc : ZC) budget entries chosen buf hd chosen' buf' hd' :
  build_loop rg ms zc budget entries chosen buf hd = Ok (chosen', buf', hd') →
  ∀ c, c ∈ chosen' → c ∈ chosen ∨ ∃ e, e ∈ entries ∧ sent_as rg ms e = Some c.
Proof using Type*.
  revert chosen buf hd. induction entries as [|entry entries IH]; intros chosen buf hd; cbn [build_loop].
  { intros [= <- _ _] c Hc. by left. }
  destruct (_ <=? _)%nat; [intros [= <- _ _] c Hc; by left|].
  assert (Hrest : ∀ c, (∃ e, e ∈ entries ∧ sent_as rg ms e = Some c) → ∃ e, e ∈ entry :: entries ∧ sent_as rg ms e = Some c).
  { intros c (e & He & Hs). exists e. split; [by right|done]. }
  destruct (migrated_command rg ms entry) as [m|e] eqn:Hm.
  - destruct (map_err _ _) as [one|]; cbn [res_bind]; [|done]. destruct (_ && _); [intros [= <- _ _] c Hc; by left|].
    intros Hl c Hc. destruct (IH _ _ _ Hl c Hc) as [[Hc'|Heq%list_elem_of_singleton]%elem_of_app|Hr]; [by left|right|right; by apply Hrest].
    exists entry. split; [by left|]. unfold sent_as. by rewrite Hm, Heq.
  - intros Hl c Hc. destruct (IH _ _ _ Hl c Hc) as [|Hr]; [by left|right; by apply Hrest].
Qed.

Lemma build_push_sends protocol budget en en' req :
  coherent en → build_push protocol budget en = (en', Ok (Some req)) →
  ∀ c, c ∈ PushRequest.commands req → ∃ e, e ∈ v_outbox (durable en) ∧ sent_as (registry en) (migrations en) e = Some c.
Proof using Type*.
  intros Hc Hb c Hin. unfold build_push, st_bind in Hb. destruct (refresh_outbox_if_suspect en) as [en1 r1] eqn:Hr1.
  destruct (refresh_outbox_view _ _ _ Hc Hr1) as ([Hreg Hmig] & Hv & Hq). destruct r1 as [[]|]; [|done]. specialize (Hq eq_refl).
  do 2 (case_bool_decide; [done|]). destruct (build_loop _ _ _ _ _ _ _ _) as [[[chosen buf] hd]|] eqn:Hl; [|done].
  injection Hb as _ <-. cbn in Hin. destruct (build_loop_sends _ _ _ _ _ _ _ _ _ _ _ Hl c Hin) as [?%not_elem_of_nil|(e & He & Hs)]; [done|].
  exists e. rewrite <- Hv, <- Hq, <- Hreg, <- Hmig. done.
Qed.

(** Every resolution is the reading of an answer to a queued command. *)
Lemma answering_reads rg q rs id res :
  (id, res) ∈ an_resolutions (fold_left (answer_one rg q) rs (MkAnswering [] [] 0 ∅)) →
  ∃ entry r, entry ∈ q ∧ r ∈ rs ∧ OutboxEntry.id entry = id ∧ CommandResult.id r = id ∧ res = (resolve rg entry r).2.
Proof using Type*.
  induction rs as [|r rs IH] using rev_ind; [intros Hin; by apply not_elem_of_nil in Hin|].
  rewrite fold_left_app. cbn [fold_left]. set (an := fold_left _ _ _) in *. unfold answer_one.
  assert (Hold : (id, res) ∈ an_resolutions an → ∃ entry r0, entry ∈ q ∧ r0 ∈ rs ++ [r] ∧ OutboxEntry.id entry = id ∧
    CommandResult.id r0 = id ∧ res = (resolve rg entry r0).2).
  { intros (entry & r0 & ? & ? & ?)%IH. exists entry, r0. rewrite elem_of_app. auto. }
  destruct (find _ q) as [entry|] eqn:Hf; [|exact Hold]. case_bool_decide; [exact Hold|].
  apply find_id_some in Hf as [Hin Hid]. destruct (resolve rg entry r) as [drafts resolution] eqn:Hr. cbn [an_resolutions].
  intros [Ho|Hn%list_elem_of_singleton]%elem_of_app; [by apply Hold|]. injection Hn as -> ->.
  exists entry, r. rewrite Hr, elem_of_app, list_elem_of_singleton. auto.
Qed.

Lemma apply_results_reads response en en' o :
  coherent en → apply_results response en = (en', o) →
  (∀ e, e ∈ v_outbox (durable en') → e ∈ v_outbox (durable en)) ∧
  ∀ id res, (id, res) ∈ v_resolved (durable en') → (id, res) ∈ v_resolved (durable en) ∨
    ∃ entry r, entry ∈ v_outbox (durable en) ∧ r ∈ PushResponse.results response ∧ OutboxEntry.id entry = id ∧
      CommandResult.id r = id ∧ res = (resolve (registry en) entry r).2.
Proof using Type*.
  intros Hc Ha. destruct (apply_results_view _ _ _ _ Hc Ha) as [_ [->| ->]]; [split; [done|by left]|].
  destruct (answering_all (registry en) (v_outbox (durable en)) (PushResponse.results response)) as (_ & _ & _ & _ & _ & Hv).
  destruct (Hv (durable en)) as (Hvo & Hvr & _). rewrite Hvo, Hvr, fold_without. split.
  - by intros e [_ ?]%list_elem_of_filter.
  - intros id res [?|Hin]%elem_of_app; [by left|right]. by apply answering_reads.
Qed.
End calls.

(** ** The state *)

Section fleet.
Context {C E S T ZC H : Type} `{!Storage S} `{!StorageLaws S} `{!Compressor ZC} `{!Host H} `{Hashes} `{Codec}.
Abbreviation engine := (Engine C E S T ZC).
Implicit Types (en : engine) (t : Tables) (s : Session) (c : Command.t) (e : OutboxEntry.t) (r : CommandResult.t)
  (au : list (nat * OutboxEntry.t)) (sn : list Command.t) (vs : list (Command.t * CommandResult.t)).

(** The server and the requests it has received, the clients, and the history: who authored
    which command, what was put on the wire, and what the host decided of which command. *)
Record Fleet := MkFleet {
  server : World H;
  clients : list engine;
  authored : list (nat * OutboxEntry.t);
  sent : list Command.t;
  verdicts : list (Command.t * CommandResult.t);
}.

Definition key_of (ie : nat * OutboxEntry.t) : string := key (OutboxEntry.command ie.2).
Definition keys (au : list (nat * OutboxEntry.t)) : list string := key_of <$> au.

(** What a run of [forward] tells the client, when it tells it anything. *)
Definition told s : option CommandResult.t :=
  match s with Finished _ (Ok f) => Forwarded.result f | _ => None end.
(** A run that found its id recorded for another body. *)
Definition turned_away s : bool :=
  match s with Finished _ (Ok (Forwarded.Mutated _)) => true | _ => false end.
(** The verdict a run has been given and is about to record. *)
Definition pending s : option CommandResult.t :=
  match s with Inserting _ r | Rereading _ r => Some r | _ => None end.
(** The verdict the host gave between two moments of a run. *)
Definition new_verdict s s' : list (Command.t * CommandResult.t) :=
  match s, s' with Asking c, Inserting _ r => [(c, r)] | _, _ => [] end.

(** What a push puts on the wire. *)
Definition pushed (o : result (option PushRequest.t) OutboxError.t) : list Command.t :=
  match o with Ok (Some req) => PushRequest.commands req | _ => [] end.

(** An id nobody has used: ids are random. *)
Definition unused (f : Fleet) (k : string) : Prop :=
  (k ∉ keys (authored f)) ∧ sync_command_results (shared (server f)) !! k = None ∧
  (∀ s, s ∈ sessions (server f) → key (session_command s) ≠ k).

Definition with_client (i : nat) en (f : Fleet) : Fleet :=
  MkFleet (server f) (<[i := en]> (clients f)) (authored f) (sent f) (verdicts f).
Definition with_request c (f : Fleet) : Fleet :=
  MkFleet (MkWorld (shared (server f)) (host (server f)) (sessions (server f) ++ [Classifying c]))
    (clients f) (authored f) (sent f) (verdicts f).

Inductive fleet_step (upgrades : Prop) : Fleet → Fleet → Prop :=
(** A client queues a new command; storage may fail, or lose the acknowledgement. *)
| fleet_author f i en e en' o :
    clients f !! i = Some en → unused f (key (OutboxEntry.command e)) → enqueue e en = (en', o) →
    fleet_step upgrades f (MkFleet (server f) (<[i := en']> (clients f)) (authored f ++ [(i, e)]) (sent f) (verdicts f))
(** A client builds a push. *)
| fleet_push f i en protocol budget en' o :
    clients f !! i = Some en → build_push protocol budget en = (en', o) →
    fleet_step upgrades f (MkFleet (server f) (<[i := en']> (clients f)) (authored f)
      (sent f ++ pushed o) (verdicts f))
(** Something sent arrives, for the first time or again. *)
| fleet_arrive f c : c ∈ sent f → fleet_step upgrades f (with_request c f)
(** A command nobody of the fleet authored arrives. *)
| fleet_stranger f c : key c ∉ keys (authored f) → fleet_step upgrades f (with_request c f)
(** One of the requests moves; its statement meets any fault. *)
| fleet_forward f i fault s t h s' :
    sessions (server f) !! i = Some s →
    advance fault (shared (server f)) (host (server f)) s = (t, h, s') →
    fleet_step upgrades f (MkFleet (MkWorld t h (<[i := s']> (sessions (server f)))) (clients f) (authored f) (sent f)
      (verdicts f ++ new_verdict s s'))
(** The other tables change. *)
| fleet_tables f t :
    sync_command_results t = sync_command_results (shared (server f)) →
    fleet_step upgrades f (MkFleet (MkWorld t (host (server f)) (sessions (server f))) (clients f) (authored f) (sent f) (verdicts f))
(** A client is answered: by any results the server has given, to whomever. *)
| fleet_answer f i en response en' o :
    clients f !! i = Some en →
    (∀ r, r ∈ PushResponse.results response → ∃ s, s ∈ sessions (server f) ∧ told s = Some r) →
    apply_results response en = (en', o) → fleet_step upgrades f (with_client i en' f)
(** A client starts again as another version of the app. *)
| fleet_upgrade f i en en' :
    upgrades → clients f !! i = Some en → coherent en' → durable en' = durable en →
    fleet_step upgrades f (with_client i en' f)
(** A client does something else. *)
| fleet_other f i en en' :
    clients f !! i = Some en → elsewhere en en' → fleet_step upgrades f (with_client i en' f).

(** The day the fleet is founded: nothing authored, nothing on its way. *)
Record founded (f : Fleet) : Prop := MkFounded {
  founded_clients : ∀ i en, clients f !! i = Some en →
    coherent en ∧ v_outbox (durable en) = [] ∧ v_resolved (durable en) = [];
  founded_requests : sessions (server f) = [];
  founded_authored : authored f = [];
  founded_sent : sent f = [];
  founded_verdicts : verdicts f = [];
}.

(** ** What holds *)

(** What a client makes of a result. *)
Definition reading r : Resolution.t :=
  match CommandResult.status r with
  | Wire.Applied => Resolution.Applied (CommandResult.server_seq r)
  | Wire.Superseded => Resolution.Superseded
  | Wire.Rejected => Resolution.DeadLettered (default unstated_reason (CommandResult.reason r))
  end.

(** A command the fleet may send: an authored one, as some version of the app sends it. *)
Definition owned au c : Prop := ∃ i e rg ms, (i, e) ∈ au ∧ sent_as rg ms e = Some c.

(** The record of a command's id is of a command that was sent, and the host gave it. *)
Definition recorded_verdict sn vs t (id : CommandId.t) c r : Prop :=
  c ∈ sn ∧ Command.id c = id ∧ (c, r) ∈ vs ∧ recorded_as t c r.

(** Another body was sent under the command's id, and that one is on record. *)
Definition other_body sn vs t c : Prop :=
  ∃ c' r', recorded_verdict sn vs t (Command.id c) c' r' ∧
    payload_checksum (Command.payload c') ≠ payload_checksum (Command.payload c).

(** The outcome of an authored command is what the recorded verdict on it reads as; or the
    command was sent with two bodies, and the one that is not on record was refused. *)
Definition heard au sn vs t (i : nat) (id : CommandId.t) (res : Resolution.t) : Prop :=
  ∃ e, (i, e) ∈ au ∧ OutboxEntry.id e = id ∧
    ((∃ c r, recorded_verdict sn vs t id c r ∧ res = reading r) ∨
     (∃ c, c ∈ sn ∧ Command.id c = id ∧ other_body sn vs t c ∧ res = reading (mutated_result c))).

Definition rows_fine au sn vs t : Prop := ∀ i e row,
  (i, e) ∈ au → sync_command_results t !! key (OutboxEntry.command e) = Some row →
  ∃ c r, recorded_verdict sn vs t (OutboxEntry.id e) c r.

Record session_fine au sn vs t s : Prop := MkSessionFine {
  fine_ok : session_ok t s;
  fine_whose : session_command s ∈ sn ∨ key (session_command s) ∉ keys au;
  fine_told : ∀ r, told s = Some r → CommandResult.id r = Command.id (session_command s);
  fine_pending : ∀ r, pending s = Some r → (session_command s, r) ∈ vs;
  fine_turned : turned_away s = true → session_command s ∈ sn →
    other_body sn vs t (session_command s) ∧ told s = Some (mutated_result (session_command s));
}.

Record client_fine au sn vs t (i : nat) en : Prop := MkClientFine {
  fine_inv : coherent en;
  fine_queue : ∀ e, e ∈ v_outbox (durable en) → (i, e) ∈ au;
  fine_heard : ∀ id res, (id, res) ∈ v_resolved (durable en) → heard au sn vs t i id res;
}.

Record fleet_ok (f : Fleet) : Prop := MkFleetOk {
  ok_keys : NoDup (keys (authored f));
  ok_sent : ∀ c, c ∈ sent f → owned (authored f) c;
  ok_rows : rows_fine (authored f) (sent f) (verdicts f) (shared (server f));
  ok_sessions : ∀ s, s ∈ sessions (server f) → session_fine (authored f) (sent f) (verdicts f) (shared (server f)) s;
  ok_clients : ∀ i en, clients f !! i = Some en → client_fine (authored f) (sent f) (verdicts f) (shared (server f)) i en;
}.

(** *** Ids *)

Lemma authored_one au i j e e' :
  NoDup (keys au) → (i, e) ∈ au → (j, e') ∈ au → key (OutboxEntry.command e) = key (OutboxEntry.command e') → i = j ∧ e = e'.
Proof using Type*.
  intros Hnd [n Hn]%list_elem_of_lookup [m Hm]%list_elem_of_lookup Hk.
  assert (n = m) as ->; [|rewrite Hn in Hm; by simplify_eq].
  eapply (NoDup_lookup (keys au)); [done|unfold keys; by rewrite list_lookup_fmap, Hn|].
  unfold keys. rewrite list_lookup_fmap, Hm. unfold key_of. simpl. by rewrite Hk.
Qed.

Lemma authored_key au i e : (i, e) ∈ au → key (OutboxEntry.command e) ∈ keys au.
Proof using Type*. intros Hin. by apply (list_elem_of_fmap_2 key_of _ (i, e)). Qed.

(** The entry behind a command of the fleet. *)
Lemma owned_entry au c : owned au c → ∃ i e, (i, e) ∈ au ∧ Command.id c = OutboxEntry.id e ∧ key c = key (OutboxEntry.command e).
Proof using Type*.
  intros (i & e & rg & ms & Hin & Hs). apply sent_as_id in Hs. exists i, e. split_and!; [done|done|]. unfold key. by rewrite Hs.
Qed.

Lemma owned_key au c : owned au c → key c ∈ keys au.
Proof using Type*. intros (i & e & Hin & _ & ->)%owned_entry. by eapply authored_key. Qed.

Lemma read_result_id id row r : read_result id row = Ok r → CommandResult.id r = id.
Proof using Type*. unfold read_result. intros Hr. res_simpl. by repeat case_match; simplify_eq/=. Qed.

Lemma recorded_as_id t c r : recorded_as t c r → CommandResult.id r = Command.id c.
Proof using Type*. intros (row & cs & _ & Hr & _). by eapply read_result_id. Qed.

Lemma resolve_reading rg e r : (resolve rg e r).2 = reading r.
Proof using Type*. unfold resolve, reading. by destruct (CommandResult.status r). Qed.

(** The record of an authored command. *)
Lemma rows_recorded au sn vs t i e c r :
  rows_fine au sn vs t → (i, e) ∈ au → Command.id c = OutboxEntry.id e → recorded_as t c r →
  ∃ c', recorded_verdict sn vs t (OutboxEntry.id e) c' r.
Proof using Type*.
  intros Hrows Hin Hid Hr. pose proof Hr as (row & cs & Hrow & _). unfold key in Hrow. rewrite Hid in Hrow.
  destruct (Hrows _ _ _ Hin Hrow) as (c' & r' & Hs' & Hid' & Hv & Hr').
  destruct (recorded_as_unique _ c c' r r' (eq_trans Hid (eq_sym Hid')) Hr Hr') as [-> _]. by exists c'.
Qed.

(** *** Nothing that was so stops being so *)

Section later.
Context (au au' : list (nat * OutboxEntry.t)) (sn sn' : list Command.t)
  (vs vs' : list (Command.t * CommandResult.t)) (t t' : Tables).
Hypothesis (Hau : au ⊆ au') (Hsn : sn ⊆ sn') (Hvs : vs ⊆ vs') (Ht : sync_command_results t ⊆ sync_command_results t').

Lemma verdict_later id c r : recorded_verdict sn vs t id c r → recorded_verdict sn' vs' t' id c r.
Proof using Type*. intros (? & ? & ? & ?). split_and!; auto. by eapply recorded_as_mono. Qed.

Lemma other_later c : other_body sn vs t c → other_body sn' vs' t' c.
Proof using Type*. intros (c' & r' & Hr & Hne). exists c', r'. split; [by apply verdict_later|done]. Qed.

Lemma client_later i en : client_fine au sn vs t i en → client_fine au' sn' vs' t' i en.
Proof using Type*.
  intros [Hinv Hq Hh]. split; auto. intros id res (e & Hin & Hid & Hcase)%Hh. exists e. split_and!; auto.
  destruct Hcase as [(c & r & Hr & ?)|(c & ? & ? & Ho & ?)]; [left|right].
  - exists c, r. split; [by apply verdict_later|done].
  - exists c. split_and!; auto. by apply other_later.
Qed.
End later.

(** More was sent by the fleet, more decided, more recorded. *)
Lemma session_later au sn sn' vs vs' t t' s :
  (∀ c, c ∈ sn' → owned au c) → sn ⊆ sn' → vs ⊆ vs' → sync_command_results t ⊆ sync_command_results t' →
  session_fine au sn vs t s → session_fine au sn' vs' t' s.
Proof using Type*.
  intros Hown Hsn Hvs Ht [Ho Hw Htold Hp Hturn]. split; auto.
  - by eapply session_ok_mono.
  - destruct Hw; auto.
  - intros Hs Hin. destruct Hw as [Hw|Hw]; [|by destruct Hw; apply owned_key, Hown].
    destruct (Hturn Hs Hw) as [Hb ?]. split; [by eapply other_later|done].
Qed.

Lemma rows_later au sn sn' vs vs' t t' :
  sn ⊆ sn' → vs ⊆ vs' → sync_command_results t' = sync_command_results t → rows_fine au sn vs t → rows_fine au sn' vs' t'.
Proof using Type*.
  intros Hsn Hvs Ht Hrows i e row Hin Hrow. rewrite Ht in Hrow. destruct (Hrows _ _ _ Hin Hrow) as (c & r & Hr).
  exists c, r. eapply verdict_later; [done|done| |exact Hr]. by rewrite Ht.
Qed.

(** *** A request moves *)

(** One of the fleet's commands is taken for a reuse only when another body is on record. *)
Lemma mutated_other au sn vs t c x y :
  (∀ c, c ∈ sn → owned au c) → rows_fine au sn vs t → c ∈ sn →
  judge c (sync_command_results t !! key c) = Ok (Mutated x y) → other_body sn vs t c.
Proof using Type*.
  intros Hown Hrows Hc Hj. destruct (owned_entry _ _ (Hown c Hc)) as (i & e & Hin & Hid & Hk).
  destruct (sync_command_results t !! key c) as [row|] eqn:Hrow.
  - pose proof Hrow as Hrow0. rewrite Hk in Hrow0. destruct (Hrows _ _ _ Hin Hrow0) as (c' & r & Hr).
    exists c', r. rewrite Hid. split; [done|]. destruct Hr as (_ & Hid' & _ & row' & cs & Hrow' & Hr & Hcs & Hx).
    unfold key in Hrow'. rewrite Hid', <- Hid in Hrow'. unfold key in Hrow. rewrite Hrow in Hrow'. injection Hrow' as <-.
    rewrite Hid', <- Hid in Hr. unfold judge, decide_replay in Hj. rewrite Hr in Hj. simpl in Hj. rewrite Hcs.
    destruct (payload_checksum (Command.payload c)) as [cs2|]; simpl in Hj; [|done]. rewrite Hx in Hj. intros [= <-].
    by rewrite String.eqb_refl in Hj.
  - unfold judge, decide_replay in Hj. simpl in Hj. by destruct (payload_checksum _).
Qed.

Lemma advance_told fault t h s t' h' s' :
  advance fault t h s = (t', h', s') → session_ok t' s' →
  (∀ r, told s = Some r → CommandResult.id r = Command.id (session_command s)) →
  ∀ r, told s' = Some r → CommandResult.id r = Command.id (session_command s').
Proof using Type*.
  intros Ha Hok Hold r Ht. destruct s' as [| | | |c [f|]]; try done. destruct f as [r0|r0|r0|]; simplify_eq/=.
  1, 2: by eapply recorded_as_id. destruct s as [c0|c0|c0 r0|c0 r0|c0 a0]; simpl in Ha.
  - destruct (classify _ _) as [cl [[]|]]; by simplify_eq.
  - by destruct (host_apply _ _) as [h1 [o|]]; simplify_eq.
  - destruct (record_insert _ _ _) as [cl [n|]]; [destruct (n =? 1)|]; by simplify_eq.
  - by destruct (record_lost _ _) as [cl []]; simplify_eq.
  - injection Ha as -> -> -> ->. simpl in Hold. auto.
Qed.

Lemma advance_pending fault t h s t' h' s' vs :
  advance fault t h s = (t', h', s') → (∀ r, pending s = Some r → (session_command s, r) ∈ vs) →
  ∀ r, pending s' = Some r → (session_command s', r) ∈ vs ++ new_verdict s s'.
Proof using Type*.
  intros Ha Hold r Hp. apply elem_of_app. destruct s as [c0|c0|c0 r0|c0 r0|c0 a0]; simpl in Ha.
  - destruct (classify _ _) as [cl [[]|]]; by simplify_eq/=.
  - destruct (host_apply _ _) as [h1 [o|]]; simplify_eq/=. right. by apply list_elem_of_singleton.
  - destruct (record_insert _ _ _) as [cl [n|]]; [destruct (n =? 1)|]; simplify_eq/=. left. by apply Hold.
  - by destruct (record_lost _ _) as [cl []]; simplify_eq/=.
  - injection Ha as <- <- <-. done.
Qed.

Lemma advance_turned fault t h s t' h' s' au sn vs :
  (∀ c, c ∈ sn → owned au c) → rows_fine au sn vs t → session_fine au sn vs t s → advance fault t h s = (t', h', s') →
  turned_away s' = true → session_command s' ∈ sn →
  other_body sn vs t (session_command s') ∧ told s' = Some (mutated_result (session_command s')).
Proof using Type*.
  intros Hown Hrows [_ _ _ _ Hold] Ha Ht Hin. destruct s as [c0|c0|c0 r0|c0 r0|c0 a0]; simpl in Ha.
  - destruct (classify _ _) as [cl d] eqn:Hc. destruct d as [d|]; [|by simplify_eq].
    apply classify_ok in Hc. simpl in Hc. destruct d; simplify_eq/=. split; [|done]. by eapply mutated_other.
  - by destruct (host_apply _ _) as [h1 [o|]]; simplify_eq.
  - destruct (record_insert _ _ _) as [cl [n|]]; [destruct (n =? 1)|]; by simplify_eq.
  - by destruct (record_lost _ _) as [cl []]; simplify_eq.
  - injection Ha as <- <- <-. by apply Hold.
Qed.

(** A new row is the record of the verdict its run was given. *)
Lemma advance_rows fault t h s t' h' s' au sn vs :
  host_honest (H:=H) → NoDup (keys au) → (∀ c, c ∈ sn → owned au c) → rows_fine au sn vs t → session_fine au sn vs t s →
  advance fault t h s = (t', h', s') → sync_command_results t ⊆ sync_command_results t' →
  rows_fine au sn (vs ++ new_verdict s s') t'.
Proof using Type*.
  intros Hh Hnd Hown Hrows Hs Ha Hsub i e row Hin Hrow.
  assert (Hvs : vs ⊆ vs ++ new_verdict s s') by by apply list_subseteq_app_l.
  assert (Hold : sync_command_results t !! key (OutboxEntry.command e) = Some row →
    ∃ c r, recorded_verdict sn (vs ++ new_verdict s s') t' (OutboxEntry.id e) c r).
  { intros Hr. destruct (Hrows _ _ _ Hin Hr) as (c & r & ?). exists c, r. by eapply verdict_later. }
  destruct s as [c0|c0|c0 r0|c0 r0|c0 a0]; simpl in Ha.
  - destruct (classify _ _) as [cl d] eqn:Hc. apply classify_tables in Hc. injection Ha as <- <- <-. rewrite Hc in Hrow. auto.
  - destruct (host_apply _ _) as [h1 [o|]]; injection Ha as <- <- <-; auto.
  - destruct (record_insert _ _ _) as [cl n] eqn:Hi. injection Ha as <- <- <-.
    destruct (record_insert_tables _ _ _ _ _ Hi) as [Ht|(cs & row' & Hcs & Hrow' & Hn & Ht)]; [rewrite Ht in Hrow; auto|].
    destruct Hs as [[Hwf Hid] Hwho _ Hpend _]. simpl in Hwho. destruct (decide (key c0 = key (OutboxEntry.command e))) as [Hk|Hk].
    + destruct Hwho as [Hwho|Hno]; [|destruct Hno; rewrite Hk; by eapply authored_key].
      destruct (owned_entry _ _ (Hown c0 Hwho)) as (j & e' & Hin' & Hid' & Hk'). rewrite Hk' in Hk.
      destruct (authored_one _ _ _ _ _ Hnd Hin' Hin Hk) as [_ ->].
      exists c0, r0. split; [done|]. split; [done|]. split; [apply Hvs; by apply Hpend|].
      rewrite Ht. by apply recorded_insert with (cs := cs).
    + rewrite Ht in Hrow. simpl in Hrow. rewrite lookup_insert_ne in Hrow by done. auto.
  - destruct (record_lost _ _) as [cl n] eqn:Hi. apply record_lost_tables in Hi. injection Ha as <- <- <-. rewrite Hi in Hrow. auto.
  - injection Ha as <- <- <-. auto.
Qed.

Lemma advance_fine fault t h s t' h' s' au sn vs :
  host_honest (H:=H) → NoDup (keys au) → (∀ c, c ∈ sn → owned au c) → rows_fine au sn vs t → session_fine au sn vs t s →
  advance fault t h s = (t', h', s') →
  sync_command_results t ⊆ sync_command_results t' ∧
  rows_fine au sn (vs ++ new_verdict s s') t' ∧ session_fine au sn (vs ++ new_verdict s s') t' s'.
Proof using Type*.
  intros Hh Hnd Hown Hrows Hs Ha. destruct (advance_ok _ _ _ _ _ _ _ Hh (fine_ok _ _ _ _ _ Hs) Ha) as (Hsub & Hok & Hc).
  split; [done|]. split; [by eapply advance_rows|].
  pose proof (advance_turned _ _ _ _ _ _ _ _ _ _ Hown Hrows Hs Ha) as Hturn. destruct Hs as [Ho Hw Ht Hp Hr]. split; [done|by rewrite Hc|..].
  - by eapply advance_told.
  - by eapply advance_pending.
  - intros Hta Hin. destruct (Hturn Hta Hin) as [Hb ?]. split; [|done].
    eapply other_later; [done|by apply list_subseteq_app_l|done|exact Hb].
Qed.

(** *** A client moves *)

Lemma client_same au sn vs t i en en' :
  coherent en' → same_commands en en' → client_fine au sn vs t i en → client_fine au sn vs t i en'.
Proof using Type*. intros Hinv [Ho Hr] []. split; [done|by rewrite Ho|by rewrite Hr]. Qed.

Lemma author_fine au sn vs t i en e en' o :
  client_fine au sn vs t i en → enqueue e en = (en', o) → client_fine (au ++ [(i, e)]) sn vs t i en'.
Proof using Type*.
  intros Hf Ha. assert (client_fine (au ++ [(i, e)]) sn vs t i en) as Hf'.
  { eapply client_later; [by apply list_subseteq_app_l|done|done|done|exact Hf]. }
  destruct (enqueue_view _ _ _ _ Ha) as [_ [Hv|[_ Hv]]].
  - eapply client_same; [| |exact Hf']; [by eapply enqueue_coherent, Ha; destruct Hf|]. unfold same_commands. by rewrite Hv.
  - destruct Hf' as [Hinv Hq Hh]. split; [by eapply enqueue_coherent, Ha|rewrite Hv..].
    + intros e' [Hin|Hin%list_elem_of_singleton]%elem_of_app; [by apply Hq|]. destruct e. simpl in Hin. subst e'.
      apply elem_of_app. right. by apply list_elem_of_singleton.
    + exact Hh.
Qed.

Lemma push_fine au sn vs t i en protocol budget en' o :
  client_fine au sn vs t i en → build_push protocol budget en = (en', o) →
  client_fine au sn vs t i en' ∧ same_setup en en' ∧
  ∀ c, c ∈ pushed o → ∃ e, (i, e) ∈ au ∧ sent_as (registry en) (migrations en) e = Some c.
Proof using Type*.
  intros Hf Ha. pose proof (fine_inv _ _ _ _ _ _ Hf) as Hc.
  destruct (build_push_view _ _ _ _ _ Hc Ha) as [Hs Hv]. split; [|split; [done|]].
  - eapply client_same; [by eapply build_push_coherent| |exact Hf]. unfold same_commands. by rewrite Hv.
  - destruct Hf as [_ Hq _]. destruct o as [[req|]|]; intros c Hin; try by apply not_elem_of_nil in Hin.
    destruct (build_push_sends _ _ _ _ _ Hc Ha c Hin) as (e & He & Hse). exists e. auto.
Qed.

(** What a run tells about an authored command is what it hears. *)
Lemma told_heard au sn vs t i e s r :
  rows_fine au sn vs t → session_fine au sn vs t s → (i, e) ∈ au → told s = Some r →
  CommandResult.id r = OutboxEntry.id e → heard au sn vs t i (OutboxEntry.id e) (reading r).
Proof using Type*.
  intros Hrows [Hok Hwho Htold _ Hturn] Hin Ht Hide. pose proof (Htold r Ht) as Hid. rewrite Hide in Hid.
  destruct Hwho as [Hwho|Hno]; [|destruct Hno; unfold key; rewrite <- Hid; by eapply authored_key].
  exists e. split; [done|]. split; [done|]. destruct (turned_away s) eqn:Hta.
  - destruct (Hturn eq_refl Hwho) as [Hb Hm]. right. exists (session_command s). rewrite Ht in Hm. injection Hm as ->. by split_and!.
  - left. assert (recorded_as t (session_command s) r) as Hrec by (destruct s as [| | | |c [[]|]]; simplify_eq/=; done).
    destruct (rows_recorded _ _ _ _ _ _ _ _ Hrows Hin (eq_sym Hid) Hrec) as [c' Hc']. by exists c', r.
Qed.

Lemma answer_fine au sn vs t i en (ss : list Session) response en' o :
  rows_fine au sn vs t → (∀ s, s ∈ ss → session_fine au sn vs t s) → client_fine au sn vs t i en →
  (∀ r, r ∈ PushResponse.results response → ∃ s, s ∈ ss ∧ told s = Some r) →
  apply_results response en = (en', o) → client_fine au sn vs t i en'.
Proof using Type*.
  intros Hrows Hss [Hc Hq Hh] Hrs Ha.
  destruct (apply_results_reads _ _ _ _ Hc Ha) as [Hq' Hr'].
  split; [by eapply apply_results_coherent|by intros e ?%Hq'%Hq|].
  intros id res [Hin|(e & r & He & Hr0 & <- & Hidr & ->)]%Hr'; [by apply Hh|].
  destruct (Hrs r Hr0) as (s & Hs & Ht). rewrite resolve_reading. eapply told_heard; eauto.
Qed.

(** *** The fleet moves *)

(** A client is replaced by what it became, with nothing else touched. *)
Lemma client_moves f i en' :
  fleet_ok f → (∀ en, clients f !! i = Some en →
    client_fine (authored f) (sent f) (verdicts f) (shared (server f)) i en') →
  fleet_ok (with_client i en' f).
Proof using Type*.
  intros [] Hf. split; try done. intros j en Hj. simpl in Hj. destruct (decide (i = j)) as [<-|Hne].
  - apply list_lookup_insert_Some in Hj as [(_ & <- & [en0 Hen]%lookup_lt_is_Some)|[[] _]]; [|done]. by eapply Hf.
  - rewrite list_lookup_insert_ne in Hj by done. auto.
Qed.

Lemma request_moves f c :
  fleet_ok f → c ∈ sent f ∨ key c ∉ keys (authored f) → fleet_ok (with_request c f).
Proof using Type*.
  intros [] Hk. split; try done. simpl. intros s [Hs| ->%list_elem_of_singleton]%elem_of_app; [auto|]. by split.
Qed.

Lemma author_step f i en e en' o :
  fleet_ok f → clients f !! i = Some en → unused f (key (OutboxEntry.command e)) → enqueue e en = (en', o) →
  fleet_ok (MkFleet (server f) (<[i := en']> (clients f)) (authored f ++ [(i, e)]) (sent f) (verdicts f)).
Proof using Type*.
  intros [Hnd Hsent Hrows Hss Hcl] Hi (Hnk & Hnr & Hns) Ha.
  assert (Hsub : authored f ⊆ authored f ++ [(i, e)]) by by apply list_subseteq_app_l. split; simpl.
  - unfold keys. rewrite fmap_app. apply NoDup_app. split_and!; [done| |apply NoDup_singleton].
    intros k Hk Hk'%list_elem_of_singleton. unfold key_of in Hk'. simpl in Hk'. by subst k.
  - intros c (j & e' & rg & ms & ? & ?)%Hsent. exists j, e', rg, ms. auto.
  - intros j e' row [Hin|Hin%list_elem_of_singleton]%elem_of_app Hrow; [by eapply Hrows|]. injection Hin as -> ->. by rewrite Hnr in Hrow.
  - intros s Hs. pose proof (Hns s Hs) as Hne. destruct (Hss s Hs) as [Ho Hw Ht Hp Hr]. split; try done.
    destruct Hw as [Hw|Hw]; [by left|right]. unfold keys. rewrite fmap_app, elem_of_app.
    intros [?|Hk%list_elem_of_singleton]; [done|]. by apply Hne.
  - intros j enj Hj. destruct (decide (i = j)) as [<-|Hne].
    + apply list_lookup_insert_Some in Hj as [(_ & <- & _)|[[] _]]; [|done]. by eapply author_fine; [apply Hcl|].
    + rewrite list_lookup_insert_ne in Hj by done. eapply client_later; [exact Hsub|..|by apply Hcl]; done.
Qed.

Lemma push_step f i en protocol budget en' o :
  fleet_ok f → clients f !! i = Some en → build_push protocol budget en = (en', o) →
  fleet_ok (MkFleet (server f) (<[i := en']> (clients f)) (authored f) (sent f ++ pushed o) (verdicts f)).
Proof using Type*.
  intros [Hnd Hsent Hrows Hss Hcl] Hi Ha. destruct (push_fine _ _ _ _ _ _ _ _ _ _ (Hcl _ _ Hi) Ha) as (Hf & _ & Hpu).
  assert (Hsub : sent f ⊆ sent f ++ pushed o) by by apply list_subseteq_app_l.
  assert (Hown : ∀ c, c ∈ sent f ++ pushed o → owned (authored f) c).
  { intros c [?|Hc]%elem_of_app; [by apply Hsent|]. destruct (Hpu c Hc) as (e & ? & ?). by exists i, e, (registry en), (migrations en). }
  split; simpl; [done|done|by eapply rows_later|..].
  - intros s Hs. eapply session_later; [exact Hown|exact Hsub|done|done|]. by apply Hss.
  - intros j enj Hj. eapply client_later; [done|exact Hsub|done|done|].
    destruct (decide (i = j)) as [<-|Hne].
    + by apply list_lookup_insert_Some in Hj as [(_ & <- & _)|[[] _]].
    + rewrite list_lookup_insert_ne in Hj by done. by apply Hcl.
Qed.

Lemma forward_step f i fault s t h s' :
  host_honest (H:=H) → fleet_ok f → sessions (server f) !! i = Some s →
  advance fault (shared (server f)) (host (server f)) s = (t, h, s') →
  fleet_ok (MkFleet (MkWorld t h (<[i := s']> (sessions (server f)))) (clients f) (authored f) (sent f)
    (verdicts f ++ new_verdict s s')).
Proof using Type*.
  intros Hh [Hnd Hsent Hrows Hss Hcl] Hi Ha.
  destruct (advance_fine _ _ _ _ _ _ _ _ _ _ Hh Hnd Hsent Hrows (Hss _ (list_elem_of_lookup_2 _ _ _ Hi)) Ha) as (Hsub & Hr & Hs').
  assert (Hvs : verdicts f ⊆ verdicts f ++ new_verdict s s') by by apply list_subseteq_app_l. split; simpl; try done.
  - intros s0 [j Hj]%list_elem_of_lookup. apply list_lookup_insert_Some in Hj as [(_ & <- & _)|[_ Hj]]; [done|].
    eapply session_later; [exact Hsent|done|exact Hvs|exact Hsub|]. by eapply Hss, list_elem_of_lookup_2.
  - intros j en Hj. eapply client_later; [done|done|exact Hvs|exact Hsub|]. by apply Hcl.
Qed.

Lemma tables_step f t :
  fleet_ok f → sync_command_results t = sync_command_results (shared (server f)) →
  fleet_ok (MkFleet (MkWorld t (host (server f)) (sessions (server f))) (clients f) (authored f) (sent f) (verdicts f)).
Proof using Type*.
  intros [Hnd Hsent Hrows Hss Hcl] Ht.
  assert (Hsub : sync_command_results (shared (server f)) ⊆ sync_command_results t) by by rewrite Ht.
  split; simpl; [done|done|by eapply rows_later|..].
  - intros s Hs. eapply session_later; [exact Hsent|done|done|exact Hsub|]. by apply Hss.
  - intros i en Hi. eapply client_later; [done|done|done|exact Hsub|]. by apply Hcl.
Qed.

Lemma fleet_step_ok upgrades f f' : host_honest (H:=H) → fleet_step upgrades f f' → fleet_ok f → fleet_ok f'.
Proof using Type*.
  intros Hh Hstep Hok. pose proof (ok_clients _ Hok) as Hcl.
  destruct Hstep as [f i en e en' o Hi Hu Ha|f i en protocol budget en' o Hi Ha|f c Hc|f c Hc|f i fault s t h s' Hi Ha|f t Ht|
    f i en response en' o Hi Hrs Ha|f i en en' _ Hi Hinv Hv|f i en en' Hi He].
  - by eapply author_step.
  - by eapply push_step.
  - apply request_moves; [done|by left].
  - apply request_moves; [done|by right].
  - by eapply forward_step.
  - by apply tables_step.
  - apply client_moves; [done|]. intros _ _. destruct Hok. by eapply answer_fine; [..|apply Hcl| |].
  - apply client_moves; [done|]. intros _ _. eapply client_same; [done| |by apply Hcl]. unfold same_commands. by rewrite Hv.
  - apply client_moves; [done|]. intros _ _. destruct (elsewhere_keeps _ _ He (fine_inv _ _ _ _ _ _ (Hcl _ _ Hi))) as (Hv & Hs & Hc).
    by eapply client_same; [..|apply Hcl].
Qed.

Lemma founded_ok f : founded f → fleet_ok f.
Proof using Type*.
  intros [Hcl Hs Ha Hse Hv]. split; unfold rows_fine; rewrite ?Hs, ?Ha, ?Hse; simpl.
  - constructor.
  - by intros c ?%not_elem_of_nil.
  - by intros i e row ?%not_elem_of_nil.
  - by intros s ?%not_elem_of_nil.
  - intros i en Hi. destruct (Hcl i en Hi) as (Hinv & Hq & Hres). split; try done; rewrite ?Hq, ?Hres.
    + by intros e ?%not_elem_of_nil.
    + by intros id res ?%not_elem_of_nil.
Qed.

Lemma fleet_run_ok upgrades f f' :
  host_honest (H:=H) → founded f → rtc (fleet_step upgrades) f f' → fleet_ok f'.
Proof using Type*.
  intros Hh Hf Hrun. apply founded_ok in Hf. revert Hf. induction Hrun as [f|f f1 f' Hs _ IH]; intros Hf; [done|].
  apply IH. by eapply fleet_step_ok.
Qed.

(** ** A fleet nobody upgrades *)

(** Each client keeps the version it has, which need not be the others'; and what is on the wire
    was sent by the version of the client that authored it. *)
Record fixed_versions (rg : nat → Registry) (ms : nat → Migrations) (f : Fleet) : Prop := MkFixedVersions {
  fixed_clients : ∀ i en, clients f !! i = Some en → registry en = rg i ∧ migrations en = ms i;
  fixed_sent : ∀ c, c ∈ sent f → ∃ i e, (i, e) ∈ authored f ∧ sent_as (rg i) (ms i) e = Some c;
}.

Lemma fixed_versions_client rg ms f i en en' :
  fixed_versions rg ms f → clients f !! i = Some en → same_setup en en' → fixed_versions rg ms (with_client i en' f).
Proof using Type*.
  intros [Hcl Hsent] Hi [Hr Hm]. split; [|done]. intros j enj Hj. simpl in Hj. destruct (decide (i = j)) as [<-|Hne].
  - apply list_lookup_insert_Some in Hj as [(_ & <- & _)|[[] _]]; [|done]. rewrite Hr, Hm. by eapply Hcl.
  - rewrite list_lookup_insert_ne in Hj by done. by eapply Hcl.
Qed.

Lemma fixed_versions_step rg ms f f' :
  fleet_step False f f' → fleet_ok f → fixed_versions rg ms f → fixed_versions rg ms f'.
Proof using Type*.
  intros Hstep Hok Hone. pose proof (ok_clients _ Hok) as Hcl. pose proof (fixed_sent _ _ _ Hone) as Hsent.
  destruct Hstep as [f i en e en' o Hi Hu Ha|f i en protocol budget en' o Hi Ha|f c Hc|f c Hc|f i fault s t h s' Hi Ha|f t Ht|
    f i en response en' o Hi Hrs Ha|f i en en' [] Hi Hinv Hv|f i en en' Hi He]; try by destruct Hone.
  - destruct (enqueue_view _ _ _ _ Ha) as [Hs _]. destruct (fixed_versions_client _ _ _ _ _ _ Hone Hi Hs) as [Hcl' _]. split; [done|].
    simpl. intros c (j & e' & ? & ?)%Hsent. exists j, e'. rewrite elem_of_app. auto.
  - destruct (push_fine _ _ _ _ _ _ _ _ _ _ (Hcl _ _ Hi) Ha) as (_ & Hs & Hpu).
    destruct (fixed_versions_client _ _ _ _ _ _ Hone Hi Hs) as [Hcl' _]. split; [done|].
    simpl. intros c [?|Hc]%elem_of_app; [by apply Hsent|]. destruct (Hpu c Hc) as (e & ? & Hse).
    destruct (fixed_clients _ _ _ Hone _ _ Hi) as [Hr Hm]. rewrite Hr, Hm in Hse. by exists i, e.
  - eapply fixed_versions_client; [done|exact Hi|]. by destruct (apply_results_view _ _ _ _ (fine_inv _ _ _ _ _ _ (Hcl _ _ Hi)) Ha).
  - eapply fixed_versions_client; [done|exact Hi|].
    by destruct (elsewhere_keeps _ _ He (fine_inv _ _ _ _ _ _ (Hcl _ _ Hi))) as (_ & ? & _).
Qed.

Lemma fixed_versions_run rg ms f f' :
  host_honest (H:=H) → fleet_ok f → fixed_versions rg ms f → rtc (fleet_step False) f f' → fixed_versions rg ms f'.
Proof using Type*.
  intros Hh Hok Hone Hrun. induction Hrun as [f|f f1 f' Hs _ IH]; [done|].
  apply IH; [by eapply fleet_step_ok|by eapply fixed_versions_step].
Qed.

(** A fleet at its founding: each client has some version. *)
Lemma founded_versions f :
  founded f → ∃ rg ms, fixed_versions rg ms f.
Proof.
  intros Hf. exists (λ i, default Registry_new (registry <$> clients f !! i)), (λ i, default Migrations_new (migrations <$> clients f !! i)).
  split; [|rewrite (founded_sent _ Hf); by intros c ?%not_elem_of_nil]. intros i en Hi. by rewrite Hi.
Qed.
End fleet.
Arguments Fleet : clear implicits.
