(* ===== verification/Log.v ===== *)
(** * Log: reading the change log (credsync-server/src/db.rs: [changes_after_watermark],
    [bootstrap_after] and their [Page]).

    The SQL of each query is a function on [sync_changes]: its WHERE is a filter, its
    ORDER BY a sort on the primary key, its LIMIT a [take]. *)

From S2P Require Import Prelude Errors Nums Ids Json Wire Integrity Server Database.
From stdpp Require Import options.

Definition seq_le (a b : ChangeRow.t) : Prop := ChangeRow.seq a ≤ ChangeRow.seq b.
#[export] Instance seq_le_dec : RelDecision seq_le := λ a b, decide (ChangeRow.seq a ≤ ChangeRow.seq b).

Definition order_by_seq (l : list ChangeRow.t) : list ChangeRow.t := merge_sort seq_le l.

(** [(entity, entity_id)]. *)
Definition row_key (r : ChangeRow.t) : string * string := (ChangeRow.entity r, ChangeRow.entity_id r).

(** The rows of one scope. *)
Definition log_of (t : Tables) (scope : string) : list ChangeRow.t :=
  LogRow.row <$> filter (λ l, LogRow.scope l = scope) (sync_changes t).

(** The rows a pull from [cursor] may see under [watermark], in order. *)
Definition window (log : list ChangeRow.t) (cursor watermark : Z) : list ChangeRow.t :=
  order_by_seq (filter (λ r, cursor < ChangeRow.seq r ∧ ChangeRow.seq r ≤ watermark) log).

(** [DISTINCT ON (entity, entity_id) ... ORDER BY entity, entity_id, seq DESC]. *)
Definition distinct_latest (rows : list ChangeRow.t) : list ChangeRow.t :=
  filter (λ r, Forall (λ r', row_key r' = row_key r → ChangeRow.seq r' ≤ ChangeRow.seq r) rows) rows.

(** The compacted rows a bootstrap from [after] may see under [watermark], in order. *)
Definition compacted (log : list ChangeRow.t) (after watermark : Z) : list ChangeRow.t :=
  order_by_seq
    (filter (λ r, after < ChangeRow.seq r ∧ (ChangeRow.op r ≠ "delete" ∨ 0 < after))
       (distinct_latest (filter (λ r, ChangeRow.seq r ≤ watermark) log))).

Module Page.
Record t := mk { changes : list Change.t; more_beyond : bool }.
End Page.

Section queries.
Context `{Codec}.

Definition select_changes (scope : string) (cursor watermark limit : Z) : Statement (list ChangeRow.t) :=
  query (λ t, take (Z.to_nat limit) (window (log_of t scope) cursor watermark)).
Definition select_compacted (scope : string) (after watermark limit : Z) : Statement (list ChangeRow.t) :=
  query (λ t, take (Z.to_nat limit) (compacted (log_of t scope) after watermark)).

(** The rows read, cut to the ceiling and decoded; one row beyond it answers [more_beyond]. *)
Definition page_of (limit : Z) (rows : list ChangeRow.t) : result Page.t ServerError.t :=
  let more_beyond := limit <? Z.of_nat (length rows) in
  let? changes := res_mapM ChangeRow.into_change (take (Z.to_nat limit) rows) in
  Ok (Page.mk changes more_beyond).

Definition changes_after_watermark (scope : ScopeId.t) (cursor limit watermark : Z)
    : step Client Page.t ServerError.t :=
  let! cursor := st_lift
    (if i64_max <? cursor then
       Err (ServerError.Corrupt ("cursor " +:+ show cursor +:+ " does not fit a bigint"))
     else Ok cursor) in
  let! rows := sql (select_changes (ScopeId.as_str scope) cursor watermark (limit + 1)) in
  st_lift (page_of limit rows).

(** [bootstrap_after] once it has its watermark. *)
Definition bootstrap_after_watermark (scope : ScopeId.t) (after limit watermark : Z)
    : step Client Page.t ServerError.t :=
  let! after_i := st_lift
    (if i64_max <? after then
       Err (ServerError.Corrupt ("bootstrap cursor " +:+ show after +:+ " does not fit a bigint"))
     else Ok after) in
  let! rows := sql (select_compacted (ScopeId.as_str scope) after_i watermark (limit + 1)) in
  st_lift (page_of limit rows).
End queries.

(** ** Order *)

#[export] Instance seq_le_total : Total seq_le.
Proof. intros a b. unfold seq_le. lia. Qed.
#[export] Instance seq_le_trans : Transitive seq_le.
Proof. intros a b c. unfold seq_le. lia. Qed.

Definition row_seq_lt (a b : ChangeRow.t) : Prop := ChangeRow.seq a < ChangeRow.seq b.

(** The log's primary key: no two rows share a [seq]. *)
Definition distinct_seqs (log : list ChangeRow.t) : Prop := NoDup (ChangeRow.seq <$> log).

Lemma elem_of_order l r : r ∈ order_by_seq l ↔ r ∈ l.
Proof. unfold order_by_seq. by rewrite merge_sort_Permutation. Qed.

Lemma distinct_filter (P : ChangeRow.t → Prop) `{!∀ r, Decision (P r)} log :
  distinct_seqs log → distinct_seqs (filter P log).
Proof.
  unfold distinct_seqs. induction log as [|r log IH]; [done|].
  rewrite fmap_cons, NoDup_cons, filter_cons. intros [Hr Hl]. case_decide; [|by apply IH].
  rewrite fmap_cons. apply NoDup_cons. split; [|by apply IH].
  rewrite list_elem_of_fmap in *. intros (y & Hy & [_ Hin]%list_elem_of_filter). eauto.
Qed.

Lemma order_strict l : distinct_seqs l → StronglySorted row_seq_lt (order_by_seq l).
Proof.
  intros Hd. assert (Hs : StronglySorted seq_le (order_by_seq l)) by apply (StronglySorted_merge_sort seq_le).
  assert (Hn : NoDup (ChangeRow.seq <$> order_by_seq l)) by (unfold order_by_seq; by rewrite (merge_sort_Permutation seq_le l)).
  induction Hs as [|r rest Hs IH Hall]; [constructor|]. rewrite fmap_cons, NoDup_cons in Hn.
  destruct Hn as [Hr Hn]. constructor; [by apply IH|]. rewrite Forall_forall in *. intros x Hx.
  specialize (Hall x Hx). unfold seq_le, row_seq_lt in *.
  assert (ChangeRow.seq r ≠ ChangeRow.seq x); [|lia]. intros E. apply Hr. rewrite E.
  by apply list_elem_of_fmap_2.
Qed.

Lemma sorted_perm_eq l1 l2 :
  StronglySorted row_seq_lt l1 → StronglySorted row_seq_lt l2 → (∀ r, r ∈ l1 ↔ r ∈ l2) → l1 = l2.
Proof.
  intros Hs. revert l2. induction Hs as [|a l1 Hs IH Ha]; intros l2 Hs2 Heq.
  - destruct l2 as [|b l2]; [done|]. exfalso. assert (b ∈ []) by (apply Heq; left). by apply not_elem_of_nil in H.
  - destruct Hs2 as [|b l2 Hs2 Hb].
    { exfalso. assert (a ∈ []) as Hn by (apply Heq; left). by apply not_elem_of_nil in Hn. }
    rewrite Forall_forall in Ha, Hb.
    assert (a = b) as ->.
    { assert (a ∈ b :: l2) as [->|Hin]%elem_of_cons by (apply Heq; left); [done|].
      assert (b ∈ a :: l1) as [->|Hin']%elem_of_cons by (apply Heq; left); [done|].
      specialize (Ha _ Hin'). specialize (Hb _ Hin). unfold row_seq_lt in *. lia. }
    f_equal. apply IH; [done|]. intros r. split; intros Hr.
    + assert (r ∈ b :: l2) as [->|?]%elem_of_cons by (apply Heq; by right); [|done].
      specialize (Ha _ Hr). unfold row_seq_lt in Ha. lia.
    + assert (r ∈ b :: l1) as [->|?]%elem_of_cons by (apply Heq; by right); [|done].
      specialize (Hb _ Hr). unfold row_seq_lt in Hb. lia.
Qed.

Lemma elem_of_window log c w r : r ∈ window log c w ↔ r ∈ log ∧ c < ChangeRow.seq r ≤ w.
Proof. unfold window. rewrite elem_of_order, list_elem_of_filter. naive_solver. Qed.

Lemma window_sorted log c w : distinct_seqs log → StronglySorted row_seq_lt (window log c w).
Proof. intros. by apply order_strict, distinct_filter. Qed.

(** After a page that ends at [r], the next window is what was left of this one. *)
Lemma window_next log c w l1 r l2 :
  distinct_seqs log → window log c w = l1 ++ r :: l2 → window log (ChangeRow.seq r) w = l2.
Proof.
  intros Hd Heq. pose proof (window_sorted log c w Hd) as Hs. rewrite Heq in Hs.
  assert (Hr : r ∈ window log c w) by (rewrite Heq; set_solver). apply elem_of_window in Hr as [_ Hr].
  apply StronglySorted_app in Hs as (Hlt & Hs1 & Hs2).
  apply StronglySorted_cons in Hs2 as [Hgt Hs2]. rewrite Forall_forall in Hgt.
  apply sorted_perm_eq; [by apply window_sorted|done|]. intros x. rewrite elem_of_window. split.
  - intros [Hx Hxs]. assert (x ∈ window log c w) as Hin by (apply elem_of_window; split; [done|lia]).
    rewrite Heq, elem_of_app, elem_of_cons in Hin. destruct Hin as [Hin|[->|Hin]]; [|lia|done].
    specialize (Hlt x r Hin (list_elem_of_here _ _)). unfold row_seq_lt in Hlt. lia.
  - intros Hx. assert (x ∈ window log c w) as [? ?]%elem_of_window by (rewrite Heq; set_solver).
    specialize (Hgt x Hx). unfold row_seq_lt in Hgt. split; [done|lia].
Qed.

(** ** Pages *)

Section pages.
Context `{Codec}.

Lemma changes_after_healthy t scope cursor limit w :
  cursor ≤ i64_max →
  changes_after_watermark scope cursor limit w (MkClient t []) =
    (MkClient t [], page_of limit (take (Z.to_nat (limit + 1)) (window (log_of t (ScopeId.as_str scope)) cursor w))).
Proof.
  intros Hc. unfold changes_after_watermark, st_bind, st_lift. by destruct (Z.ltb_spec i64_max cursor); [lia|].
Qed.

Lemma bootstrap_after_healthy t scope after limit w :
  after ≤ i64_max →
  bootstrap_after_watermark scope after limit w (MkClient t []) =
    (MkClient t [], page_of limit (take (Z.to_nat (limit + 1)) (compacted (log_of t (ScopeId.as_str scope)) after w))).
Proof.
  intros Hc. unfold bootstrap_after_watermark, st_bind, st_lift. by destruct (Z.ltb_spec i64_max after); [lia|].
Qed.

(** A page is the first [limit] rows, and [more_beyond] is whether one was left behind. *)
Lemma page_of_ok limit rows cs :
  0 ≤ limit → Forall2 (λ r c, ChangeRow.into_change r = Ok c) (take (Z.to_nat limit) rows) cs →
  page_of limit (take (Z.to_nat (limit + 1)) rows) =
    Ok (Page.mk cs (bool_decide (drop (Z.to_nat limit) rows ≠ []))).
Proof.
  intros Hl Hcs. unfold page_of. rewrite take_take, Nat.min_l by lia.
  apply res_mapM_ok in Hcs. rewrite Hcs. simpl. do 2 f_equal.
  rewrite length_take. case_bool_decide as Hd.
  - apply Z.ltb_lt. assert ((Z.to_nat limit < length rows)%nat); [|lia].
    destruct (Nat.lt_ge_cases (Z.to_nat limit) (length rows)); [done|]. by rewrite drop_ge in Hd by lia.
  - apply Z.ltb_ge. assert ((length rows ≤ Z.to_nat limit)%nat); [|lia].
    destruct (Nat.le_gt_cases (length rows) (Z.to_nat limit)); [done|]. exfalso.
    apply (f_equal length) in Hd. rewrite length_drop in Hd. simpl in Hd. lia.
Qed.

Lemma into_change_seq r c : ChangeRow.into_change r = Ok c →
  Seq.get (Change.seq c) = ChangeRow.seq r ∧ Seq.wf (Change.seq c).
Proof.
  unfold ChangeRow.into_change, ChangeRow.to_u64. intros Hc. res_simpl. simpl.
  repeat match goal with H : (if ?b then Err _ else Ok _) = Ok _ |- _ => destruct b; simplify_eq end.
  match goal with H : Seq.new _ = Ok _ |- _ => apply Seq_new_ok in H as [-> ?] end. by split.
Qed.
End pages.
