(* ===== verification/Watermark.v ===== *)
(** * Watermark: change-log writers, transactions and [safe_watermark] running together
    (credsync-server/src/db.rs: [lock_for_write], [append_change], [safe_watermark],
    [establish_watermark], [recorded_watermark]).

    [Pg] is the database with its open transactions; a statement is a function on it, run on a
    connection. [seq] is allocated when an INSERT runs and its row is visible when its
    transaction ends, which is the gap the watermark is about. A reader is [safe_watermark]
    stopped between two of its awaits, as a session is in Race. *)

From S2P Require Import Prelude Errors Nums Ids Json Wire Integrity Server Database Log.
From stdpp Require Import options.

(** An open transaction: the rows it inserted, the advisory locks on [WRITER_LOCK] it holds
    until it ends, and the watermark it wrote. *)
Record Tx := MkTx {
  uncommitted : list LogRow.t;
  writer_lock : bool;
  reader_lock : bool;
  new_mark : option Z;
}.
Definition empty_tx : Tx := MkTx [] false false None.

(** The tables as committed, and the open transaction of each connection that has one. *)
Record Pg := MkPg { committed : Tables; txs : gmap nat Tx }.

(** ** Statements *)

Definition begin_tx (k : nat) (pg : Pg) : Pg :=
  match txs pg !! k with
  | Some _ => pg
  | None => MkPg (committed pg) (<[k := empty_tx]> (txs pg))
  end.

Definition publish (tx : Tx) (t : Tables) : Tables :=
  MkTables (sync_changes t ++ uncommitted tx) (last_value t) (is_called t) (sync_command_results t)
    (sync_scope_blocks t) (match new_mark tx with Some v => Some v | None => sync_watermark t end).

Definition commit_tx (k : nat) (pg : Pg) : Pg :=
  match txs pg !! k with
  | Some tx => MkPg (publish tx (committed pg)) (delete k (txs pg))
  | None => pg
  end.
Definition rollback_tx (k : nat) (pg : Pg) : Pg := MkPg (committed pg) (delete k (txs pg)).

(** A failed statement undoes its transaction, which stays open and empty until it is ended. *)
Definition abort_tx (k : nat) (pg : Pg) : Pg :=
  match txs pg !! k with
  | Some _ => MkPg (committed pg) (<[k := empty_tx]> (txs pg))
  | None => pg
  end.

(** No other transaction is in the way of the shared, or of the exclusive, advisory lock. *)
Definition shared_free (k : nat) (pg : Pg) : bool :=
  bool_decide (map_Forall (λ k' tx, k' = k ∨ reader_lock tx = false) (txs pg)).
Definition exclusive_free (k : nat) (pg : Pg) : bool :=
  bool_decide (map_Forall (λ k' tx, k' = k ∨ (writer_lock tx = false ∧ reader_lock tx = false)) (txs pg)).

(** [pg_advisory_xact_lock_shared]: [None] is waiting. Outside a transaction the lock is
    released as the statement ends. *)
Definition lock_for_write (k : nat) (pg : Pg) : option Pg :=
  if shared_free k pg then
    Some (match txs pg !! k with
          | Some tx => MkPg (committed pg)
              (<[k := MkTx (uncommitted tx) true (reader_lock tx) (new_mark tx)]> (txs pg))
          | None => pg
          end)
  else None.

(** [pg_advisory_xact_lock]. *)
Definition lock_exclusive (k : nat) (pg : Pg) : option Pg :=
  if exclusive_free k pg then
    Some (match txs pg !! k with
          | Some tx => MkPg (committed pg)
              (<[k := MkTx (uncommitted tx) (writer_lock tx) true (new_mark tx)]> (txs pg))
          | None => pg
          end)
  else None.

(** [nextval] of the sequence behind [seq]. It is not transactional. *)
Definition next_seq (t : Tables) : Z := if is_called t then last_value t + 1 else last_value t.
Definition bump (t : Tables) : Tables :=
  MkTables (sync_changes t) (next_seq t) true (sync_command_results t) (sync_scope_blocks t) (sync_watermark t).

(** A change about to be written. *)
Module NewChange.
Record t := mk {
  scope : string;
  entity : string;
  entity_id : string;
  op : string;
  snapshot : option Value;
  row_version : Z;
  schema_version : Z;
}.
(** The CHECK constraints of [sync_changes]. *)
Definition satisfies_checks (c : t) : bool :=
  (1 <=? row_version c) && (1 <=? schema_version c) &&
  match snapshot c with
  | Some _ => String.eqb (op c) "upsert"
  | None => String.eqb (op c) "delete"
  end.
Definition at_seq (s : Z) (c : t) : LogRow.t :=
  LogRow.mk (scope c)
    (ChangeRow.mk s (entity c) (entity_id c) (op c) (snapshot c) (row_version c) (schema_version c)).
End NewChange.

(** [INSERT INTO sync_changes ... RETURNING seq]. The sequence moves whether or not the row is
    accepted. Outside a transaction the statement is its own, which [commit_tx] ends. *)
Definition insert_change (k : nat) (c : NewChange.t) (pg : Pg) : Pg * result Z ServerError.t :=
  if i64_max <? next_seq (committed pg) then
    (abort_tx k pg, Err (ServerError.Database "nextval: reached maximum value of sequence"))
  else
    let s := next_seq (committed pg) in
    let pg := MkPg (bump (committed pg)) (txs pg) in
    if NewChange.satisfies_checks c then
      let tx := default empty_tx (txs pg !! k) in
      (MkPg (committed pg)
         (<[k := MkTx (uncommitted tx ++ [NewChange.at_seq s c]) (writer_lock tx) (reader_lock tx) (new_mark tx)]>
            (txs pg)), Ok s)
    else (abort_tx k pg, Err (ServerError.Database "constraint violation")).

(** [append_change]: [None] is waiting for the lock. *)
Definition append_change (k : nat) (c : NewChange.t) (pg : Pg) : option (Pg * result Z ServerError.t) :=
  pg ← lock_for_write k pg; Some (insert_change k c pg).

(** The upsert of [establish_watermark], and the value it returns. *)
Definition mark_seen (k : nat) (pg : Pg) : option Z :=
  match txs pg !! k ≫= new_mark with Some v => Some v | None => sync_watermark (committed pg) end.
Definition upsert_watermark (k : nat) (pg : Pg) : Pg * Z :=
  let t := committed pg in
  let excluded := if is_called t then last_value t else 0 in
  let value := match mark_seen k pg with Some v => Z.max v excluded | None => excluded end in
  (match txs pg !! k with
   | Some tx => MkPg t (<[k := MkTx (uncommitted tx) (writer_lock tx) (reader_lock tx) (Some value)]> (txs pg))
   | None => MkPg (publish (MkTx [] false false (Some value)) t) (txs pg)
   end, value).

(** ** [safe_watermark] between awaits *)

Inductive Reader : Type :=
| RBegin
| RLimit
| RLock
| RUpsert
| RCommit (established : option Z)
| RRollback
| RRead
| RDone (answer : result Z ServerError.t).

(** The code between two awaits of a reader on connection [k]. A statement that works, fails
    (which undoes the transaction), or takes effect and loses its reply. The lock attempt is
    bounded by [lock_timeout], so when a writer is in the way it answers too. *)
Definition advance_reader (fault : Fault) (k : nat) (pg : Pg) (r : Reader) : Pg * Reader :=
  match r with
  | RBegin =>
      match fault with
      | Works => (begin_tx k pg, RLimit)
      | Fails d => (pg, RDone (Err (ServerError.Database d)))
      | LosesReply d => (begin_tx k pg, RDone (Err (ServerError.Database d)))
      end
  | RLimit =>
      match fault with
      | Works => (pg, RLock)
      | Fails _ => (abort_tx k pg, RCommit None)
      | LosesReply _ => (pg, RCommit None)
      end
  | RLock =>
      match fault, lock_exclusive k pg with
      | Works, Some pg' => (pg', RUpsert)
      | LosesReply _, Some pg' => (pg', RCommit None)
      | _, _ => (abort_tx k pg, RCommit None)
      end
  | RUpsert =>
      match fault with
      | Works => let '(pg, value) := upsert_watermark k pg in (pg, RCommit (Some value))
      | Fails _ => (abort_tx k pg, RCommit None)
      | LosesReply _ => ((upsert_watermark k pg).1, RCommit None)
      end
  | RCommit established =>
      (match fault with Fails _ => pg | _ => commit_tx k pg end,
       match established with
       | Some watermark =>
           RDone match fault with
                 | Works => Ok watermark
                 | Fails d | LosesReply d => Err (ServerError.Database d)
                 end
       | None => RRollback
       end)
  | RRollback => (match fault with Fails _ => pg | _ => rollback_tx k pg end, RRead)
  | RRead =>
      (pg, RDone match fault with
                 | Works => Ok (default 0 (mark_seen k pg))
                 | Fails d | LosesReply d => Err (ServerError.Database d)
                 end)
  | RDone _ => (pg, r)
  end.

(** How many awaits are left. *)
Definition awaits_left (r : Reader) : nat :=
  match r with
  | RBegin => 7 | RLimit => 6 | RLock => 5 | RUpsert => 4 | RCommit _ => 3 | RRollback => 2 | RRead => 1
  | RDone _ => 0
  end.

(** [safe_watermark] on a connection nobody else touches, each statement meeting one fault. *)
Fixpoint run_reader (fuel : nat) (fs : list Fault) (k : nat) (pg : Pg) (r : Reader) : Pg * Reader :=
  match fuel with
  | O => (pg, r)
  | S fuel => let '(pg, r) := advance_reader (hd Works fs) k pg r in run_reader fuel (tl fs) k pg r
  end.
Definition safe_watermark (fs : list Fault) (k : nat) (pg : Pg) : Pg * Reader := run_reader 7 fs k pg RBegin.

(** ** Writers and readers together *)

Record Site := MkSite { pg : Pg; readers : list (nat * Reader) }.

(** [contract] is what [lock_for_write]'s documentation asks of a host: the lock is held by
    the transaction that inserts. Hosts have connections of their own. *)
Inductive site_step (contract : bool) : Site → Site → Prop :=
| host_begins k s :
    k ∉ (readers s).*1 → site_step contract s (MkSite (begin_tx k (pg s)) (readers s))
| host_locks k s p :
    k ∉ (readers s).*1 → lock_for_write k (pg s) = Some p → site_step contract s (MkSite p (readers s))
| host_inserts k c s p r :
    k ∉ (readers s).*1 →
    (contract = true → ∃ tx, txs (pg s) !! k = Some tx ∧ writer_lock tx = true) →
    insert_change k c (pg s) = (p, r) → site_step contract s (MkSite p (readers s))
| host_commits k s :
    k ∉ (readers s).*1 → site_step contract s (MkSite (commit_tx k (pg s)) (readers s))
| host_rolls_back k s :
    k ∉ (readers s).*1 → site_step contract s (MkSite (rollback_tx k (pg s)) (readers s))
| reader_moves i fault k r r' s p :
    readers s !! i = Some (k, r) → advance_reader fault k (pg s) r = (p, r') →
    site_step contract s (MkSite p (<[i := (k, r')]> (readers s))).

(** ** Invariants *)

(** The last [seq] handed out. *)
Definition high (t : Tables) : Z := if is_called t then last_value t else last_value t - 1.

(** Nothing at or below [v] is in flight, and nothing new will be. *)
Definition settled (v : Z) (p : Pg) : Prop :=
  v ≤ high (committed p) ∧
  ∀ k tx l, txs p !! k = Some tx → l ∈ uncommitted tx → v < ChangeRow.seq (LogRow.row l).

Definition pg_inv (p : Pg) : Prop :=
  settled 0 p ∧
  (∀ v, sync_watermark (committed p) = Some v → settled v p) ∧
  (∀ k tx v, txs p !! k = Some tx → new_mark tx = Some v → settled v p) ∧
  (∀ k tx, txs p !! k = Some tx → uncommitted tx ≠ [] → writer_lock tx = true) ∧
  (∀ k tx k' tx', txs p !! k = Some tx → reader_lock tx = true → txs p !! k' = Some tx' → k' ≠ k →
     writer_lock tx' = false ∧ reader_lock tx' = false).

Definition reader_ok (p : Pg) (k : nat) (r : Reader) : Prop :=
  (∀ tx, txs p !! k = Some tx → uncommitted tx = []) ∧
  match r with
  | RLimit | RLock => is_Some (txs p !! k)
  | RUpsert => ∃ tx, txs p !! k = Some tx ∧ reader_lock tx = true
  | RCommit (Some v) => settled v p
  | RDone (Ok v) => settled v p
  | _ => True
  end.

(** What may happen to the database: no settled point is unsettled and no row appears under
    one. *)
Definition pg_keeps (p p' : Pg) : Prop :=
  (∀ v, settled v p → settled v p') ∧
  ∃ added, sync_changes (committed p') = sync_changes (committed p) ++ added ∧
    ∀ v l, settled v p → l ∈ added → v < ChangeRow.seq (LogRow.row l).

Definition site_inv (s : Site) : Prop :=
  pg_inv (pg s) ∧ NoDup (readers s).*1 ∧ Forall (λ '(k, r), reader_ok (pg s) k r) (readers s).

Lemma pg_keeps_same p p' :
  committed p' = committed p →
  (∀ k tx' l, txs p' !! k = Some tx' → l ∈ uncommitted tx' →
     ∃ k0 tx, txs p !! k0 = Some tx ∧ l ∈ uncommitted tx) → pg_keeps p p'.
Proof.
  intros Hc Ht. split.
  - intros v [Hv Hu]. split; [by rewrite Hc|]. intros k tx' l Hk Hl. destruct (Ht _ _ _ Hk Hl) as (k0 & tx & ? & ?). eauto.
  - exists []. rewrite Hc, app_nil_r. split; [done|]. by intros v l _ ?%not_elem_of_nil.
Qed.

(** A connection's transaction replaced by one with no more rows. *)
Definition put_tx (k : nat) (tx : Tx) (p : Pg) : Pg := MkPg (committed p) (<[k := tx]> (txs p)).

Lemma put_tx_keeps k tx p :
  (uncommitted tx = [] ∨ ∃ tx0, txs p !! k = Some tx0 ∧ uncommitted tx0 = uncommitted tx) →
  pg_keeps p (put_tx k tx p).
Proof.
  intros Hu. apply pg_keeps_same; [done|]. simpl. intros k' tx' l Hk' Hl.
  destruct (decide (k' = k)) as [->|Hne].
  - rewrite lookup_insert_eq in Hk'. simplify_eq. destruct Hu as [Hu|(tx0 & H0 & Hu)].
    + rewrite Hu in Hl. by apply not_elem_of_nil in Hl.
    + exists k, tx0. by rewrite Hu.
  - rewrite lookup_insert_ne in Hk' by done. eauto.
Qed.

Lemma delete_tx_keeps k p : pg_keeps p (MkPg (committed p) (delete k (txs p))).
Proof.
  apply pg_keeps_same; [done|]. simpl. intros k' tx' l [_ Hk']%lookup_delete_Some Hl. eauto.
Qed.

Lemma settled_mark p k tx v : pg_inv p → txs p !! k = Some tx → new_mark tx = Some v → settled v p.
Proof. intros (_ & _ & Hm & _). eauto. Qed.

(** Replacing a transaction keeps the invariant when the new one keeps the lock discipline. *)
Lemma put_tx_inv k tx p :
  pg_inv p →
  (uncommitted tx = [] ∨ ∃ tx0, txs p !! k = Some tx0 ∧ uncommitted tx0 = uncommitted tx) →
  (uncommitted tx ≠ [] → writer_lock tx = true) →
  (∀ v, new_mark tx = Some v → settled v p) →
  (reader_lock tx = true → ∀ k' tx', txs p !! k' = Some tx' → k' ≠ k →
     writer_lock tx' = false ∧ reader_lock tx' = false) →
  (writer_lock tx = true ∨ reader_lock tx = true → ∀ k' tx', txs p !! k' = Some tx' → k' ≠ k → reader_lock tx' = false) →
  pg_inv (put_tx k tx p).
Proof.
  intros (Hlast & Hw & Hm & Hu & Hr) Hrows Hlock Hmark Hex Hsh.
  destruct (put_tx_keeps k tx p Hrows) as [Hkeep _]. unfold put_tx in *. split_and!; simpl; [by apply Hkeep| | | |].
  - intros v Hv. apply Hkeep. by apply Hw.
  - intros k' tx' v Hk' Hv. apply Hkeep. apply lookup_insert_Some in Hk' as [[<- <-]|[_ Hk']]; eauto.
  - intros k' tx' Hk' Hn. apply lookup_insert_Some in Hk' as [[<- <-]|[_ Hk']]; eauto.
  - intros k1 tx1 k2 tx2 Hk1 Hl Hk2 Hne.
    apply lookup_insert_Some in Hk1 as [[<- <-]|[Hne1 Hk1]]; apply lookup_insert_Some in Hk2 as [[<- <-]|[Hne2 Hk2]];
      try done.
    + by eapply Hex.
    + destruct (writer_lock tx) eqn:Hwl; [exfalso|split; [done|]].
      * rewrite (Hsh (or_introl eq_refl) k1 tx1 Hk1) in Hl; done.
      * destruct (reader_lock tx) eqn:Hrl; [|done]. exfalso.
        rewrite (Hsh (or_intror eq_refl) k1 tx1 Hk1) in Hl; done.
    + exact (Hr k1 tx1 k2 tx2 Hk1 Hl Hk2 Hne).
Qed.

Lemma delete_tx_inv k p : pg_inv p → pg_inv (MkPg (committed p) (delete k (txs p))).
Proof.
  intros (Hlast & Hw & Hm & Hu & Hr). destruct (delete_tx_keeps k p) as [Hkeep _]. split_and!; simpl; [by apply Hkeep| | | |].
  - intros v Hv. apply Hkeep. by apply Hw.
  - intros k' tx v [_ Hk']%lookup_delete_Some Hv. apply Hkeep. eauto.
  - intros k' tx [_ Hk']%lookup_delete_Some. eauto.
  - intros k1 tx1 k2 tx2 [_ Hk1]%lookup_delete_Some Hl [_ Hk2]%lookup_delete_Some. eauto.
Qed.

(** A transaction that ends publishes only rows no settled point covers. *)
Lemma commit_keeps k p : pg_keeps p (commit_tx k p).
Proof.
  unfold commit_tx. destruct (txs p !! k) as [tx|] eqn:Hk; [|by apply pg_keeps_same; eauto].
  assert (Hh : high (publish tx (committed p)) = high (committed p)) by done.
  split.
  - intros v [Hv Hu]. split; simpl; [by rewrite Hh|]. intros k' tx' l [_ Hk']%lookup_delete_Some. eauto.
  - exists (uncommitted tx). split; [done|]. intros v l [_ Hu] Hl. eauto.
Qed.

Lemma commit_inv k p : pg_inv p → pg_inv (commit_tx k p).
Proof.
  intros Hinv. destruct (commit_keeps k p) as [Hkeep _]. unfold commit_tx in *.
  destruct (txs p !! k) as [tx|] eqn:Hk; [|done].
  pose proof Hinv as (Hlast & Hw & Hm & Hu & Hr). split_and!; simpl; [by apply Hkeep| | | |].
  - intros v Hv. apply Hkeep. destruct (new_mark tx) eqn:Hn; simplify_eq; eauto.
  - intros k' tx' v [_ Hk']%lookup_delete_Some Hv. apply Hkeep. eauto.
  - intros k' tx' [_ Hk']%lookup_delete_Some. eauto.
  - intros k1 tx1 k2 tx2 [_ Hk1]%lookup_delete_Some Hl [_ Hk2]%lookup_delete_Some. eauto.
Qed.

Lemma begin_as_put k p : begin_tx k p = p ∨ (txs p !! k = None ∧ begin_tx k p = put_tx k empty_tx p).
Proof. unfold begin_tx. destruct (txs p !! k); [by left|by right]. Qed.
Lemma abort_as_put k p : abort_tx k p = p ∨ abort_tx k p = put_tx k empty_tx p.
Proof. unfold abort_tx. destruct (txs p !! k); [by right|by left]. Qed.

Lemma put_empty_inv k p : pg_inv p → pg_inv (put_tx k empty_tx p).
Proof. intros Hinv. apply put_tx_inv; simpl; naive_solver. Qed.
Lemma put_empty_keeps k p : pg_keeps p (put_tx k empty_tx p).
Proof. apply put_tx_keeps. by left. Qed.
Lemma keeps_refl p : pg_keeps p p.
Proof. apply pg_keeps_same; eauto. Qed.

(** One statement of connection [k], as the invariants see it. *)
Record sound_move (k : nat) (p p' : Pg) : Prop := {
  sm_inv : pg_inv p';
  sm_keeps : pg_keeps p p';
  sm_local : ∀ k', k' ≠ k → txs p' !! k' = txs p !! k';
}.

Lemma move_refl k p : pg_inv p → sound_move k p p.
Proof. intros. split; [done|apply keeps_refl|done]. Qed.

Lemma move_put_empty k p : pg_inv p → sound_move k p (put_tx k empty_tx p).
Proof.
  intros. split; [by apply put_empty_inv|apply put_empty_keeps|]. intros. by apply lookup_insert_ne.
Qed.

Lemma move_begin k p : pg_inv p → sound_move k p (begin_tx k p).
Proof.
  intros. destruct (begin_as_put k p) as [->|[_ ->]]; [by apply move_refl|by apply move_put_empty].
Qed.
Lemma move_abort k p : pg_inv p → sound_move k p (abort_tx k p).
Proof. intros. destruct (abort_as_put k p) as [->| ->]; [by apply move_refl|by apply move_put_empty]. Qed.

Lemma move_commit k p : pg_inv p → sound_move k p (commit_tx k p).
Proof.
  intros. split; [by apply commit_inv|apply commit_keeps|]. intros k' Hk'. unfold commit_tx.
  destruct (txs p !! k); [|done]. by apply lookup_delete_ne.
Qed.
Lemma move_rollback k p : pg_inv p → sound_move k p (rollback_tx k p).
Proof.
  intros. split; [by apply delete_tx_inv|apply delete_tx_keeps|]. intros. by apply lookup_delete_ne.
Qed.

Lemma move_lock_shared k p p' : pg_inv p → lock_for_write k p = Some p' → sound_move k p p'.
Proof.
  unfold lock_for_write, shared_free. intros Hinv Hl. case_bool_decide as Hfree; simplify_eq.
  destruct (txs p !! k) as [tx|] eqn:Hk; [|by apply move_refl].
  change (sound_move k p (put_tx k (MkTx (uncommitted tx) true (reader_lock tx) (new_mark tx)) p)).
  assert (Hother : ∀ k' tx', txs p !! k' = Some tx' → k' ≠ k → reader_lock tx' = false).
  { intros k' tx' Hk' Hne. by destruct (Hfree k' tx' Hk') as [?|?]. }
  pose proof Hinv as (_ & _ & Hm & _ & Hr). split.
  - apply put_tx_inv; simpl; eauto.
  - apply put_tx_keeps. simpl. eauto.
  - intros. by apply lookup_insert_ne.
Qed.

Lemma move_lock_exclusive k p p' : pg_inv p → lock_exclusive k p = Some p' → sound_move k p p'.
Proof.
  unfold lock_exclusive, exclusive_free. intros Hinv Hl. case_bool_decide as Hfree; simplify_eq.
  destruct (txs p !! k) as [tx|] eqn:Hk; [|by apply move_refl].
  change (sound_move k p (put_tx k (MkTx (uncommitted tx) (writer_lock tx) true (new_mark tx)) p)).
  assert (Hother : ∀ k' tx', txs p !! k' = Some tx' → k' ≠ k → writer_lock tx' = false ∧ reader_lock tx' = false).
  { intros k' tx' Hk' Hne. by destruct (Hfree k' tx' Hk') as [?|?]. }
  pose proof Hinv as (_ & _ & Hm & Hu & Hr). split.
  - apply put_tx_inv; simpl; eauto. intros. by eapply Hother.
  - apply put_tx_keeps. simpl. eauto.
  - intros. by apply lookup_insert_ne.
Qed.

(** An allocated [seq] is above everything settled. *)
Lemma next_seq_fresh v p : settled v p → v < next_seq (committed p) ∧ high (bump (committed p)) = next_seq (committed p).
Proof.
  intros [Hv _]. unfold high, bump in *. simpl. unfold next_seq. revert Hv.
  destruct (is_called (committed p)); lia.
Qed.

Definition bumped (p : Pg) : Pg := MkPg (bump (committed p)) (txs p).

Lemma bumped_settled v p : settled v p → settled v (bumped p).
Proof.
  intros Hs. pose proof (next_seq_fresh v p Hs) as [? Hh]. destruct Hs as [_ Hu]. split; [|exact Hu].
  simpl. rewrite Hh. lia.
Qed.

Lemma move_bumped k p : pg_inv p → sound_move k p (bumped p).
Proof.
  intros (Hlast & Hw & Hm & Hu & Hr). split; [|split|done].
  - split_and!; simpl; try done.
    + by apply bumped_settled.
    + intros v Hv. by apply bumped_settled, Hw.
    + intros k' tx v Hk' Hv. apply bumped_settled. eauto.
  - intros v. apply bumped_settled.
  - exists []. simpl. rewrite app_nil_r. split; [done|]. by intros v l _ ?%not_elem_of_nil.
Qed.

Lemma move_trans k p1 p2 p3 : sound_move k p1 p2 → sound_move k p2 p3 → sound_move k p1 p3.
Proof.
  intros [_ [Hs1 (a1 & Ha1 & Hv1)] Hl1] [Hi [Hs2 (a2 & Ha2 & Hv2)] Hl2]. split; [done| |].
  - split; [by intros v ?%Hs1%Hs2|]. exists (a1 ++ a2). rewrite Ha2, Ha1, app_assoc. split; [done|].
    intros v l Hv [?|?]%elem_of_app; [by apply Hv1|by apply Hv2; [apply Hs1|]].
  - intros k' Hk'. by rewrite Hl2, Hl1.
Qed.

Lemma move_insert k c p p' r :
  pg_inv p → (∃ tx, txs p !! k = Some tx ∧ writer_lock tx = true) →
  insert_change k c p = (p', r) → sound_move k p p'.
Proof.
  intros Hinv (tx & Hk & Hlock). unfold insert_change. destruct (i64_max <? _); [intros [= <- _]; by apply move_abort|].
  change (MkPg (bump (committed p)) (txs p)) with (bumped p). pose proof (move_bumped k p Hinv) as Hb.
  destruct (NewChange.satisfies_checks c); intros [= <- _]; [|by eapply move_trans, move_abort, Hb].
  rewrite Hk. simpl. set (row := NewChange.at_seq (next_seq (committed p)) c).
  set (tx' := MkTx (uncommitted tx ++ [row]) (writer_lock tx) (reader_lock tx) (new_mark tx)).
  change (MkPg (bump (committed p)) (<[k := tx']> (txs p))) with (put_tx k tx' (bumped p)).
  assert (Hset : ∀ v, settled v p → settled v (put_tx k tx' (bumped p))).
  { intros v Hv. pose proof (next_seq_fresh v p Hv) as [Hlt _].
    destruct (bumped_settled v p Hv) as [Hh Hu]. split; [done|]. simpl. intros k' tx0 l Hk' Hl.
    apply lookup_insert_Some in Hk' as [[<- <-]|[_ Hk']]; [|by eapply Hu].
    apply elem_of_app in Hl as [Hl| ->%list_elem_of_singleton]; [by eapply Hu|done]. }
  pose proof Hinv as (Hlast & Hw & Hm & Hu & Hr). split.
  - split_and!; simpl.
    + by apply Hset.
    + intros v Hv. by apply Hset, Hw.
    + intros k' tx0 v Hk' Hv. apply Hset. apply lookup_insert_Some in Hk' as [[<- <-]|[_ Hk']]; eauto.
    + intros k' tx0 Hk' Hn. apply lookup_insert_Some in Hk' as [[<- <-]|[_ Hk']]; eauto.
    + intros k1 tx1 k2 tx2 Hk1 Hl1 Hk2 Hne.
      apply lookup_insert_Some in Hk1 as [[<- <-]|[? Hk1]]; apply lookup_insert_Some in Hk2 as [[<- <-]|[? Hk2]];
        try done; simpl in *; [exact (Hr k tx k2 tx2 Hk Hl1 Hk2 Hne)|exact (Hr k1 tx1 k tx Hk1 Hl1 Hk Hne)|
          exact (Hr k1 tx1 k2 tx2 Hk1 Hl1 Hk2 Hne)].
  - split; [exact Hset|]. exists []. simpl. rewrite app_nil_r. split; [done|]. by intros v l _ ?%not_elem_of_nil.
  - intros. by apply lookup_insert_ne.
Qed.

(** At an instant when a reader holds the exclusive lock and has written nothing, everything
    handed out is settled. *)
Lemma exclusive_settles k p tx :
  pg_inv p → txs p !! k = Some tx → reader_lock tx = true → uncommitted tx = [] →
  settled (high (committed p)) p.
Proof.
  intros (_ & _ & _ & Hu & Hr) Hk Hlock Hnone. split; [lia|]. intros k' tx' l Hk' Hl. exfalso.
  assert (uncommitted tx' ≠ []) as Hne by (intros E; rewrite E in Hl; by apply not_elem_of_nil in Hl).
  destruct (decide (k' = k)) as [->|Hkk]; [congruence|].
  destruct (Hr k tx k' tx' Hk Hlock Hk' Hkk) as [Hw _]. rewrite (Hu k' tx' Hk' Hne) in Hw. done.
Qed.

Lemma settled_le v v' p : v' ≤ v → settled v p → settled v' p.
Proof. intros Hle [Hv Hu]. split; [lia|]. intros k tx l Hk Hl. specialize (Hu k tx l Hk Hl). lia. Qed.

Lemma mark_seen_settled k p v : pg_inv p → mark_seen k p = Some v → settled v p.
Proof.
  intros (_ & Hw & Hm & _). unfold mark_seen. destruct (txs p !! k) as [tx|] eqn:Hk; simpl; [|apply Hw].
  destruct (new_mark tx) eqn:Hn; [|apply Hw]. intros [= ->]. eauto.
Qed.

Lemma move_upsert k p p' v tx :
  pg_inv p → txs p !! k = Some tx → reader_lock tx = true → uncommitted tx = [] →
  upsert_watermark k p = (p', v) → sound_move k p p' ∧ settled v p.
Proof.
  intros Hinv Hk Hlock Hnone. unfold upsert_watermark. rewrite Hk. intros [= <- Hv].
  pose proof (exclusive_settles k p tx Hinv Hk Hlock Hnone) as Hhigh.
  assert (Hset : settled v p).
  { assert (settled (if is_called (committed p) then last_value (committed p) else 0) p) as Hex.
    { eapply settled_le; [|exact Hhigh]. destruct Hinv as ([Hlast _] & _). revert Hlast.
      unfold high. destruct (is_called _); lia. }
    rewrite <- Hv. destruct (mark_seen k p) as [m|] eqn:Hm; [|done].
    destruct (Z.max_spec m (if is_called (committed p) then last_value (committed p) else 0)) as [[_ ->]|[_ ->]];
      [done|by eapply mark_seen_settled]. }
  split; [|done]. rewrite Hv.
  change (MkPg (committed p) (<[k := ?t]> (txs p))) with (put_tx k t p).
  pose proof Hinv as (_ & _ & Hm & Hu & Hr). split.
  - apply put_tx_inv; simpl; [done| | | | |].
    + by left.
    + intros Hne. by destruct Hne.
    + by intros v' [= <-].
    + intros _ k' tx' Hk' Hne. exact (Hr k tx k' tx' Hk Hlock Hk' Hne).
    + intros _ k' tx' Hk' Hne. exact (proj2 (Hr k tx k' tx' Hk Hlock Hk' Hne)).
  - apply put_tx_keeps. by left.
  - intros. by apply lookup_insert_ne.
Qed.

Lemma reader_ok_other k k' p p' r :
  sound_move k p p' → k' ≠ k → reader_ok p k' r → reader_ok p' k' r.
Proof.
  intros [_ [Hs _] Hl] Hne [Hu Hr]. specialize (Hl k' Hne). split; [by rewrite Hl|].
  destruct r as [| | | |[v|]| | |[v|e]]; try rewrite Hl; auto.
Qed.

Lemma reader_ok_fresh p k r :
  match r with RBegin | RRollback | RRead | RCommit None | RDone (Err _) => True | _ => False end →
  (∀ tx, txs p !! k = Some tx → uncommitted tx = []) → reader_ok p k r.
Proof. intros Hr Hu. split; [done|]. by destruct r as [| | | |[v|]| | |[v|e]]. Qed.

Lemma begin_own k p : (∀ tx, txs p !! k = Some tx → uncommitted tx = []) →
  ∀ tx, txs (begin_tx k p) !! k = Some tx → uncommitted tx = [].
Proof.
  intros Hu tx. unfold begin_tx. destruct (txs p !! k) as [t|] eqn:Hk; simpl.
  - rewrite Hk. by intros [= <-]; apply Hu.
  - rewrite lookup_insert_eq. by intros [= <-].
Qed.
Lemma abort_own k p : ∀ tx, txs (abort_tx k p) !! k = Some tx → uncommitted tx = [].
Proof.
  intros tx. unfold abort_tx. destruct (txs p !! k) as [t|] eqn:Hk; simpl; [|congruence].
  rewrite lookup_insert_eq. by intros [= <-].
Qed.
Lemma commit_own k p tx : txs (commit_tx k p) !! k = Some tx → uncommitted tx = [].
Proof.
  unfold commit_tx. destruct (txs p !! k) as [t|] eqn:Hk; simpl; [|congruence]. by rewrite lookup_delete_eq.
Qed.
Lemma rollback_own k p tx : txs (rollback_tx k p) !! k = Some tx → uncommitted tx = [].
Proof. simpl. by rewrite lookup_delete_eq. Qed.

Lemma exclusive_own k p p' tx :
  lock_exclusive k p = Some p' → txs p !! k = Some tx →
  txs p' !! k = Some (MkTx (uncommitted tx) (writer_lock tx) true (new_mark tx)).
Proof.
  unfold lock_exclusive. intros Hl Hk. case_match; simplify_eq. rewrite Hk. simpl. apply lookup_insert_eq.
Qed.

Lemma upsert_own k p tx :
  txs p !! k = Some tx →
  ∃ tx', txs (upsert_watermark k p).1 !! k = Some tx' ∧ uncommitted tx' = uncommitted tx.
Proof. intros Hk. unfold upsert_watermark. rewrite Hk. simpl. rewrite lookup_insert_eq. by eexists. Qed.

(** The upsert, under the lock. *)
Lemma upsert_sound fault k p p' r' :
  pg_inv p → reader_ok p k RUpsert → advance_reader fault k p RUpsert = (p', r') →
  sound_move k p p' ∧ reader_ok p' k r'.
Proof.
  intros Hinv Hr. pose proof Hr as [Hu Hphase]. cbn [advance_reader].
  assert (Habort : sound_move k p (abort_tx k p) ∧ reader_ok (abort_tx k p) k (RCommit None)).
  { split; [by apply move_abort|]. apply reader_ok_fresh; [done|apply abort_own]. }
  destruct Hphase as (tx & Hk & Hlock).
  destruct (upsert_watermark k p) as [p1 v] eqn:Hup.
  destruct (move_upsert k p p1 v tx Hinv Hk Hlock (Hu tx Hk) Hup) as [Hmove Hv].
  destruct (upsert_own k p tx Hk) as (tx1 & Hk1 & Hu1). rewrite Hup in Hk1. simpl in Hk1.
  assert (∀ tx, txs p1 !! k = Some tx → uncommitted tx = []) as Hu2.
  { intros tx2. rewrite Hk1. intros [= <-]. rewrite Hu1. by apply Hu. }
  destruct fault; rewrite ?Hup; intros [= <- <-]; [|done|]; (split; [done|]).
  - split; [done|]. by apply (proj1 (sm_keeps _ _ _ Hmove)).
  - by apply reader_ok_fresh.
Qed.

(** A reader's move on a connection of its own. *)
Lemma advance_sound fault k p r p' r' :
  pg_inv p → reader_ok p k r → advance_reader fault k p r = (p', r') →
  sound_move k p p' ∧ reader_ok p' k r'.
Proof.
  intros Hinv Hr. pose proof Hr as [Hu Hphase].
  assert (Habort : sound_move k p (abort_tx k p) ∧ reader_ok (abort_tx k p) k (RCommit None)).
  { split; [by apply move_abort|]. apply reader_ok_fresh; [done|apply abort_own]. }
  assert (Hsame : ∀ e, sound_move k p p ∧ reader_ok p k (RDone (Err e))).
  { intros e. split; [by apply move_refl|]. by apply reader_ok_fresh. }
  destruct r as [| | | |e| | |a]; cbn [advance_reader].
  - pose proof (begin_own k p Hu) as Hb.
    destruct fault; intros [= <- <-]; [|apply Hsame|]; (split; [by apply move_begin|]).
    + split; [done|]. unfold begin_tx. destruct (txs p !! k) eqn:Hk; simpl; [by rewrite Hk|].
      by rewrite lookup_insert_eq.
    + by apply reader_ok_fresh.
  - destruct fault; intros [= <- <-]; [|done|]; (split; [by apply move_refl|]); [by split|].
    by apply reader_ok_fresh.
  - destruct Hphase as [tx Hk]. destruct (lock_exclusive k p) as [p1|] eqn:Hl.
    + pose proof (exclusive_own _ _ _ _ Hl Hk) as Hk1.
      pose proof (move_lock_exclusive k p p1 Hinv Hl) as Hmove.
      assert (∀ tx, txs p1 !! k = Some tx → uncommitted tx = []) as Hu1.
      { intros tx1. rewrite Hk1. intros [= <-]. simpl. by apply Hu. }
      destruct fault; intros [= <- <-]; [|done|]; (split; [done|]).
      * split; [done|]. eauto.
      * by apply reader_ok_fresh.
    + destruct fault; intros [= <- <-]; done.
  - by apply upsert_sound.
  - intros [= <- <-].
    assert (sound_move k p (match fault with Fails _ => p | _ => commit_tx k p end)) as Hmove.
    { destruct fault; by (apply move_commit || apply move_refl). }
    split; [done|]. split.
    + destruct fault; [apply commit_own|done|apply commit_own].
    + destruct e as [v|]; [|done]. destruct fault; [|done..]. by apply (proj1 (sm_keeps _ _ _ Hmove)).
  - intros [= <- <-]. split; [destruct fault; by (apply move_rollback || apply move_refl)|].
    apply reader_ok_fresh; [done|]. destruct fault; [apply rollback_own|done|apply rollback_own].
  - intros [= <- <-]. split; [by apply move_refl|]. destruct fault; [|apply Hsame..].
    split; [done|]. destruct (mark_seen k p) as [v|] eqn:Hm; simpl; [by eapply mark_seen_settled|exact (proj1 Hinv)].
  - intros [= <- <-]. by split; [apply move_refl|].
Qed.

(** Every await answers: a reader is one await nearer its end after each, whatever writers
    hold. *)
Lemma advance_nearer fault k p r :
  awaits_left (advance_reader fault k p r).2 = 0%nat ∨
  (S (awaits_left (advance_reader fault k p r).2) ≤ awaits_left r)%nat.
Proof.
  destruct r as [| | | |e| | |a]; cbn [advance_reader].
  1,2,4: destruct fault; cbn; lia.
  - destruct fault, (lock_exclusive k p); cbn; lia.
  - destruct e; cbn; lia.
  - cbn; lia.
  - cbn; lia.
  - cbn; lia.
Qed.

Lemma run_reader_done n fs k p r : (awaits_left r ≤ n)%nat → ∃ a, (run_reader n fs k p r).2 = RDone a.
Proof.
  revert fs p r. induction n as [|n IH]; intros fs p r Hn; cbn [run_reader].
  - destruct r; simpl in *; try lia. eauto.
  - pose proof (advance_nearer (hd Works fs) k p r) as Hd.
    destruct (advance_reader (hd Works fs) k p r) as [p' r']. apply IH. cbn [snd] in Hd. lia.
Qed.

Lemma lock_for_write_none k p p' : txs p !! k = None → lock_for_write k p = Some p' → p' = p.
Proof. unfold lock_for_write. intros ->. by case_match; intros [= <-]. Qed.

Lemma others_ok k p p' (rs : list (nat * Reader)) :
  sound_move k p p' → k ∉ rs.*1 → Forall (λ '(k, r), reader_ok p k r) rs → Forall (λ '(k, r), reader_ok p' k r) rs.
Proof.
  intros Hm Hk Hall. rewrite Forall_forall in *. intros [k' r'] Hin. specialize (Hall _ Hin). simpl in *.
  eapply reader_ok_other; [exact Hm| |done]. intros ->. apply Hk, list_elem_of_fmap. by exists (k, r').
Qed.

Lemma site_step_sound s s' :
  site_inv s → site_step true s s' → site_inv s' ∧ pg_keeps (pg s) (pg s').
Proof.
  intros (Hpg & Hnd & Hall) Hstep.
  assert (Hhost : ∀ k p, k ∉ (readers s).*1 → sound_move k (pg s) p →
    site_inv (MkSite p (readers s)) ∧ pg_keeps (pg s) p).
  { intros k p Hk Hm. split; [|apply Hm]. split_and!; [apply Hm|done|]. by eapply others_ok. }
  destruct Hstep as [k s Hk|k s p Hk Hl|k c s p r Hk Hc Hi|k s Hk|k s Hk|i fault k r r' s p Hi Ha].
  - by eapply Hhost, move_begin.
  - by eapply Hhost, move_lock_shared.
  - by apply (Hhost k), (move_insert k c _ _ r Hpg (Hc eq_refl)).
  - by eapply Hhost, move_commit.
  - by eapply Hhost, move_rollback.
  - assert (Hr : reader_ok (pg s) k r) by exact (Forall_lookup_1 _ _ _ _ Hall Hi).
    destruct (advance_sound _ _ _ _ _ _ Hpg Hr Ha) as [Hm Hr']. split; [|apply Hm].
    split_and!; simpl; [apply Hm| |].
    + rewrite list_fmap_insert. simpl. rewrite list_insert_id; [done|]. by rewrite list_lookup_fmap, Hi.
    + apply Forall_lookup. intros j [k' x] Hj.
      destruct (decide (j = i)) as [->|Hne].
      * rewrite list_lookup_insert_eq in Hj by by eapply lookup_lt_Some. by simplify_eq.
      * rewrite list_lookup_insert_ne in Hj by done.
        eapply reader_ok_other; [exact Hm| |exact (Forall_lookup_1 _ _ _ _ Hall Hj)].
        intros ->. apply Hne. eapply (NoDup_lookup _ _ _ _ Hnd); by rewrite list_lookup_fmap, ?Hi, ?Hj.
Qed.

Lemma keeps_trans p1 p2 p3 : pg_keeps p1 p2 → pg_keeps p2 p3 → pg_keeps p1 p3.
Proof.
  intros [Hs1 (a1 & Ha1 & Hv1)] [Hs2 (a2 & Ha2 & Hv2)]. split; [by intros v ?%Hs1%Hs2|].
  exists (a1 ++ a2). rewrite Ha2, Ha1, app_assoc. split; [done|].
  intros v l Hv [?|?]%elem_of_app; [by apply Hv1|by apply Hv2; [apply Hs1|]].
Qed.

Lemma site_run_sound s s' :
  site_inv s → rtc (site_step true) s s' → site_inv s' ∧ pg_keeps (pg s) (pg s').
Proof.
  intros Hinv Hrun. revert Hinv. induction Hrun as [s|s s1 s' Hstep _ IH]; intros Hinv;
    [by split; [|apply keeps_refl]|].
  destruct (site_step_sound _ _ Hinv Hstep) as [Hinv1 Hk1]. destruct (IH Hinv1) as [Hinv' Hk'].
  split; [done|by eapply keeps_trans].
Qed.

(** Nobody has begun: no transaction is open, each reader is about to start on a connection
    of its own, and the recorded watermark is not ahead of the sequence. *)
Definition starting (s : Site) : Prop :=
  txs (pg s) = ∅ ∧ NoDup (readers s).*1 ∧ Forall (λ '(k, r), r = RBegin) (readers s) ∧
  0 ≤ high (committed (pg s)) ∧
  (∀ v, sync_watermark (committed (pg s)) = Some v → v ≤ high (committed (pg s))).

Lemma starting_inv s : starting s → site_inv s.
Proof.
  intros (Ht & Hnd & Hr & Hh & Hm).
  assert (Hs : ∀ v, v ≤ high (committed (pg s)) → settled v (pg s)).
  { intros v Hv. split; [done|]. intros k tx l. rewrite Ht, lookup_empty. done. }
  split_and!; [split_and!| done|].
  - by apply Hs.
  - intros v Hv. by apply Hs, Hm.
  - intros k tx v. by rewrite Ht, lookup_empty.
  - intros k tx. by rewrite Ht, lookup_empty.
  - intros k tx k' tx'. by rewrite Ht, lookup_empty.
  - eapply Forall_impl; [exact Hr|]. intros [k r] ->. split; [|done]. intros tx. by rewrite Ht, lookup_empty.
Qed.
