(* ===== verification/Auth.v ===== *)
(** * Auth: scope tokens and the scope blocklist (credsync-server/src/auth.rs and
    blocklist.rs).

    [jsonwebtoken] is the class [Jwt]: what a header names, and what a decoded token claims
    under a key and a validation. The error kinds are the ones the source tells apart. *)

From S2P Require Import Prelude Errors Nums Ids Json Wire Integrity Server Database.
From stdpp Require Import options.

(** ** auth.rs *)

Module AuthError.
Inductive t : Type :=
| Malformed (detail : string)
| WrongAlgorithm (found : string)
| BadSignature
| Expired
| NoScopes
| ScopeNotClaimed (requested : string)
| ScopeBlocked (scope : string).

Definition client_message (e : t) : string :=
  match e with
  | Expired => "This session has expired. Please sign in again."
  | _ => "Not authorized for this scope."
  end.
Definition is_expired (e : t) : bool := match e with Expired => true | _ => false end.

Definition display (e : t) : string :=
  match e with
  | Malformed detail => "malformed scope token: " +:+ detail
  | WrongAlgorithm found => "token algorithm '" +:+ found +:+ "' is not the one this server accepts"
  | BadSignature => "the token's signature did not verify"
  | Expired => "the token has expired"
  | NoScopes => "the token claims no scopes"
  | ScopeNotClaimed requested => "scope '" +:+ requested +:+ "' is not in the token's claims"
  | ScopeBlocked scope => "scope '" +:+ scope +:+ "' is blocked"
  end.
End AuthError.

Module RawClaims.
Record t := mk { scopes : list string; exp : Z; sub : option string }.
End RawClaims.

Inductive ErrorKind : Type :=
| ExpiredSignature
| InvalidSignature
| InvalidAlgorithm
| InvalidAlgorithmName
| OtherKind (debug : string).

(** The fields of [jsonwebtoken::Validation] the source sets; [for_algorithm] is the argument
    of [Validation::new], which fixes the others. *)
Module Validation.
Record t {Algorithm : Type} := mk {
  for_algorithm : Algorithm;
  algorithms : list Algorithm;
  leeway : Z;
  required_spec_claims : list string;
  validate_exp : bool;
  validate_aud : bool;
}.
Arguments t : clear implicits.
Arguments mk {Algorithm}.
End Validation.

Class Jwt (Algorithm Key : Type) : Type := {
  alg_eq_dec :: EqDecision Algorithm;
  alg_debug : Algorithm → string;
  decode_header : string → result Algorithm string;
  decode : string → Key → Validation.t Algorithm → result RawClaims.t ErrorKind;
}.

Module Claims.
Record t := mk { scopes : list ScopeId.t; subject : option string; expires_at : Z }.

Definition claims_scope (c : t) (scope : ScopeId.t) : bool :=
  existsb (λ s, bool_decide (s = scope)) (scopes c).
Definition authorize (c : t) (scope : ScopeId.t) : result () AuthError.t :=
  if claims_scope c scope then Ok () else Err (AuthError.ScopeNotClaimed (ScopeId.as_str scope)).
End Claims.

Definition map_jwt_err (e : ErrorKind) : AuthError.t :=
  match e with
  | ExpiredSignature => AuthError.Expired
  | InvalidSignature => AuthError.BadSignature
  | InvalidAlgorithm | InvalidAlgorithmName => AuthError.WrongAlgorithm "rejected by the decoder"
  | OtherKind debug => AuthError.Malformed debug
  end.

Module Verifier.
Record t {Algorithm Key : Type} := mk {
  key : Key;
  algorithm : Algorithm;
  validation : Validation.t Algorithm;
}.
Arguments t : clear implicits.
Arguments mk {Algorithm Key}.

Definition new {Algorithm Key} (key : Key) (algorithm : Algorithm) (leeway : Z) : t Algorithm Key :=
  mk key algorithm (Validation.mk algorithm [algorithm] leeway ["exp"] true false).

Definition verify `{Jwt Algorithm Key} (v : t Algorithm Key) (token : string) : result Claims.t AuthError.t :=
  let? alg := map_err (λ e, AuthError.Malformed ("unreadable header: " +:+ e)) (decode_header token) in
  if negb (bool_decide (alg = algorithm v)) then Err (AuthError.WrongAlgorithm (alg_debug alg)) else
  let? raw := map_err map_jwt_err (decode token (key v) (validation v)) in
  if bool_decide (RawClaims.scopes raw = []) then Err AuthError.NoScopes else
  let? scopes := res_mapM
    (λ s, map_err (λ e, AuthError.Malformed
            ("a claimed scope is not a valid scope id: " +:+ ProtocolError_display e)) (ScopeId.new s))
    (RawClaims.scopes raw) in
  Ok (Claims.mk scopes (RawClaims.sub raw) (RawClaims.exp raw)).
End Verifier.

(** ** blocklist.rs *)

Inductive Standing : Type := Allowed | Blocked.
Definition is_allowed (s : Standing) : bool := match s with Allowed => true | Blocked => false end.

Definition standing (scope : ScopeId.t) : step Client Standing ServerError.t :=
  let! rows := sql (select_block (ScopeId.as_str scope)) in
  st_ret (match rows with [] => Allowed | _ => Blocked end).

Definition check (scope : ScopeId.t) : step Client () AuthError.t := λ c,
  let '(c, s) := standing scope c in
  (c, match s with
      | Ok Allowed => Ok ()
      | Ok Blocked | Err _ => Err (AuthError.ScopeBlocked (ScopeId.as_str scope))
      end).

Definition block (scope : ScopeId.t) (reason : string) : step Client () ServerError.t :=
  sql (upsert_block (ScopeId.as_str scope) reason).

Definition unblock (scope : ScopeId.t) : step Client () ServerError.t :=
  sql (delete_block (ScopeId.as_str scope)).

(** ** Facts *)

Lemma claims_scope_ok c scope : Claims.claims_scope c scope = true ↔ scope ∈ Claims.scopes c.
Proof.
  unfold Claims.claims_scope. rewrite existsb_exists. split.
  - intros (s & Hin & Hs%bool_decide_eq_true). subst. by apply list_elem_of_In.
  - intros Hin%list_elem_of_In. exists scope. by rewrite bool_decide_eq_true_2.
Qed.

(** Passing the check means the statement ran and found no row. *)
Lemma check_ok scope c c' :
  check scope c = (c', Ok ()) →
  sync_scope_blocks (tables c) !! ScopeId.as_str scope = None ∧ tables c' = tables c.
Proof.
  unfold check, standing, st_bind, st_ret. destruct (sql _ c) as [c1 [rows|e]] eqn:Hs; [|done].
  apply sql_ok in Hs. unfold select_block, query in Hs. injection Hs as Ht Hr.
  destruct rows; intros [= <-]. by destruct (sync_scope_blocks (tables c) !! _).
Qed.

Lemma check_tables scope c c' r : check scope c = (c', r) → tables c' = tables c.
Proof.
  unfold check, standing, st_bind, st_ret. destruct (sql _ c) as [c1 r1] eqn:Hs.
  assert (tables c1 = tables c) as Ht.
  { destruct (sql_tables _ _ _ _ Hs) as [?|(t & a & Hq & ->)]; [done|]. by injection Hq as <-. }
  destruct r1; intros [= <- _]; done.
Qed.

Section verify.
Context `{Jwt Algorithm Key}.

(** A verified token named the pinned algorithm and decoded under the verifier's own key and
    validation, and what it grants is what it claims. *)
Lemma verify_ok (v : Verifier.t Algorithm Key) token claims :
  Verifier.verify v token = Ok claims ↔
  ∃ raw, decode_header token = Ok (Verifier.algorithm v) ∧
    decode token (Verifier.key v) (Verifier.validation v) = Ok raw ∧
    RawClaims.scopes raw ≠ [] ∧
    Forall2 (λ s sc, ScopeId.new s = Ok sc) (RawClaims.scopes raw) (Claims.scopes claims) ∧
    Claims.subject claims = RawClaims.sub raw ∧ Claims.expires_at claims = RawClaims.exp raw.
Proof using Type*.
  unfold Verifier.verify. split.
  - intros Hv. destruct (decode_header token) as [alg|e]; simpl in Hv; [|done].
    case_bool_decide as Ha; simpl in Hv; [|done]. subst alg.
    destruct (decode _ _ _) as [raw|e]; simpl in Hv; [|done].
    case_bool_decide as Hn; [done|]. destruct (res_mapM _ _) as [scopes|e] eqn:Hm; simpl in Hv; [|done].
    injection Hv as <-. exists raw. split_and!; try done. simpl. apply res_mapM_ok in Hm.
    eapply Forall2_impl; [exact Hm|]. intros s sc Hs. simpl in Hs. destruct (ScopeId.new s); simpl in Hs; congruence.
  - intros (raw & -> & Hd & Hn & Hall & Hsub & Hexp). simpl. rewrite bool_decide_eq_true_2 by done. simpl.
    rewrite Hd. simpl. rewrite bool_decide_eq_false_2 by done.
    assert (res_mapM (λ s, map_err (λ e, AuthError.Malformed
      ("a claimed scope is not a valid scope id: " +:+ ProtocolError_display e)) (ScopeId.new s))
      (RawClaims.scopes raw) = Ok (Claims.scopes claims)) as ->.
    { apply res_mapM_ok. eapply Forall2_impl; [exact Hall|]. by intros s sc ->. }
    simpl. destruct claims. simpl in *. by subst.
Qed.
End verify.
