(* ===== verification/Daemon.v ===== *)
(** * Daemon: the request path of the reference server (credsyncd/src/lib.rs).

    Every request of a process runs on the one client in [AppState]; [Connection] is that
    client: the database, the connection's number, and the faults its next statements meet.
    axum and the http crate are outside: a request is what the extractors deliver, and
    [to_str] is [HeaderValue::to_str]. *)

From S2P Require Import Prelude Errors Nums Ids Json Wire Integrity Server Database Log.
From S2P Require Import Watermark Auth.
From stdpp Require Import options.

Record Connection := MkConnection { db : Pg; number : nat; next_faults : list Fault }.

(** A statement outside any transaction, on the committed tables. *)
Definition on_client {A E} (m : step Client A E) : step Connection A E := λ c,
  let '(cl, r) := m (MkClient (committed (db c)) (next_faults c)) in
  (MkConnection (MkPg (tables cl) (txs (db c))) (number c) (faults cl), r).

(** [db::safe_watermark] run to its end; its seven awaits take the next faults. *)
Definition watermark : step Connection Z ServerError.t := λ c,
  let '(p, r) := safe_watermark (next_faults c) (number c) (db c) in
  (MkConnection p (number c) (drop 7 (next_faults c)),
   match r with RDone a => a | _ => Err (ServerError.Database "unreachable") end).

Module PullParams.
Record t := mk { scope : string; cursor : Z }.
End PullParams.

Section daemon.
Context `{Jwt Algorithm Key} `{Codec}.
Context {HeaderValue : Type} (to_str : HeaderValue → option string).

Definition changes_after (scope : ScopeId.t) (cursor limit : Z) : step Connection Page.t ServerError.t :=
  let! w := watermark in on_client (changes_after_watermark scope cursor limit w).
Definition bootstrap_after (scope : ScopeId.t) (after limit : Z) : step Connection Page.t ServerError.t :=
  let! w := watermark in on_client (bootstrap_after_watermark scope after limit w).

(** ** Responses *)

Inductive Response : Type :=
| Refused (status : Z) (error : string)
| Changes (changes : list Change.t) (has_more : bool)
| Unavailable (error : string).

Definition refuse (err : AuthError.t) : Response :=
  Refused (if AuthError.is_expired err then 401 else 403) (AuthError.client_message err).

(** ** [bearer] *)

Fixpoint split_once (s : string) : option (string * string) :=
  match s with
  | EmptyString => None
  | String c r =>
      if Ascii.eqb c " "%char then Some (EmptyString, r)
      else '(a, b) ← split_once r; Some (String c a, b)
  end.
Definition to_ascii_lowercase (b : Z) : Z := if (65 <=? b) && (b <=? 90) then b + 32 else b.
Definition eq_ignore_ascii_case (a b : string) : bool :=
  bool_decide (map to_ascii_lowercase (as_bytes a) = map to_ascii_lowercase (as_bytes b)).
Fixpoint trim_start_spaces (s : string) : string :=
  match s with String c r => if Ascii.eqb c " "%char then trim_start_spaces r else s | EmptyString => s end.
(** [char::is_whitespace]: the Unicode property White_Space. *)
Definition is_whitespace (c : Z) : bool :=
  ((9 <=? c) && (c <=? 13)) || ((8192 <=? c) && (c <=? 8202)) ||
  existsb (Z.eqb c) [32; 133; 160; 5760; 8232; 8233; 8239; 8287; 12288].

Definition bearer (authorization : option HeaderValue) : result string AuthError.t :=
  let? raw := ok_or authorization (AuthError.Malformed "no Authorization header") in
  let? raw := ok_or (to_str raw) (AuthError.Malformed "Authorization header is not valid ASCII") in
  let? token := ok_or
    ('(scheme, rest) ← split_once raw;
     if eq_ignore_ascii_case scheme "bearer" then Some (trim_start_spaces rest) else None)
    (AuthError.Malformed "Authorization header is not a Bearer token") in
  if (String.length token =? 0)%nat then Err (AuthError.Malformed "empty bearer token")
  else if existsb is_whitespace (chars (as_bytes token)) then
    Err (AuthError.Malformed "bearer token contains whitespace")
  else Ok token.

(** ** Handlers *)

Definition authorize (v : Verifier.t Algorithm Key) (authorization : option HeaderValue)
    (scope : ScopeId.t) : step Connection Claims.t AuthError.t :=
  let! token := st_lift (bearer authorization) in
  let! claims := st_lift (Verifier.verify v token) in
  let! _ := st_lift (Claims.authorize claims scope) in
  let! _ := on_client (check scope) in
  st_ret claims.

Definition pull (v : Verifier.t Algorithm Key) (authorization : option HeaderValue)
    (params : PullParams.t) : Connection → Connection * Response := λ c,
  match ScopeId.new (PullParams.scope params) with
  | Err _ => (c, refuse (AuthError.ScopeNotClaimed "<invalid>"))
  | Ok scope =>
      match authorize v authorization scope c with
      | (c, Err e) => (c, refuse e)
      | (c, Ok _) =>
          match changes_after scope (PullParams.cursor params) 500 c with
          | (c, Ok page) => (c, Changes (Page.changes page) (Page.more_beyond page))
          | (c, Err _) => (c, Unavailable "Sync is temporarily unavailable.")
          end
      end
  end.
End daemon.

Definition healthz : string := "ok".
