(* ===== verification/Startup.v ===== *)
(** * Startup: the server's binary (credsyncd/src/main.rs) and the routes it serves ([app] in
    credsyncd/src/lib.rs).

    The environment's variables, the database server, the socket and the signing library are
    outside: [var] is [std::env::var], [Outside] says what connecting and binding give, and
    [from_secret] and [HS256] stand for [DecodingKey::from_secret] and [Algorithm::HS256]. One
    client of the database is two things here, the session that migrates (Schema) and the
    connection the requests run on (Daemon). *)

From S2P Require Import Prelude Errors Nums Ids Json Wire Integrity Server Schema Database Log.
From S2P Require Import Watermark Auth Daemon.
From stdpp Require Import options.

Inductive VarError : Type := NotPresent | NotUnicode.

Definition config (var : string → result string VarError) : result (string * list Z * string) string :=
  let? database_url := map_err (λ _, "CREDSYNC_DATABASE_URL is not set") (var "CREDSYNC_DATABASE_URL") in
  let? secret := map_err (λ _, "CREDSYNC_TOKEN_SECRET is not set") (var "CREDSYNC_TOKEN_SECRET") in
  if (String.length secret <? 32)%nat then Err "CREDSYNC_TOKEN_SECRET must be at least 32 bytes" else
  let bind := match var "CREDSYNC_BIND" with Ok b => b | Err _ => "127.0.0.1:8080" end in
  Ok (database_url, as_bytes secret, bind).

Section startup.
Context `{Jwt Algorithm Key} `{Codec}.
Context {HeaderValue : Type} (to_str : HeaderValue → option string).
Context (HS256 : Algorithm) (from_secret : list Z → Key).

Record AppState := MkAppState { state_db : Connection; state_verifier : Verifier.t Algorithm Key }.

(** ** [app] *)

(** What the extractors take from a request. *)
Record Request := MkRequest { authorization : option HeaderValue; query : PullParams.t }.
Inductive Reply : Type := Text (body : string) | Answer (r : Response).
Definition Handler : Type := Request → Connection → Connection * Reply.

Definition get_healthz : Handler := λ _ c, (c, Text healthz).
Definition get_pull (state : AppState) : Handler := λ req c,
  let '(c, r) := pull to_str (state_verifier state) (authorization req) (query req) c in (c, Answer r).

(** The GET routes. *)
Definition app (state : AppState) : list (string * Handler) :=
  [("/healthz", get_healthz); ("/v1/pull", get_pull state)].

(** ** [main] *)

(** A client of the database: what its statements will meet while it migrates, and the
    connection the requests will run on. *)
Record PgClient := MkPgClient { pg_env : Env; pg_session : Session; pg_connection : Session → Connection }.
Record Outside := MkOutside {
  connect : string → result PgClient string;
  listen : string → result () string;
}.

(** What start-up does that can be seen from outside. *)
Inductive Event : Type :=
| Eprintln (line : string)
| Connects (url : string)
| Migrates
| Binds (addr : string).

Definition main (var : string → result string VarError) (o : Outside) : list Event * result AppState string :=
  match config var with
  | Err e => ([Eprintln ("credsyncd: " +:+ e)], Err e)
  | Ok (database_url, secret, bind) =>
      match connect o database_url with
      | Err e => ([Connects database_url], Err e)
      | Ok client =>
          match migrate (pg_env client) (pg_session client) with
          | (_, Err e) => ([Connects database_url; Migrates], Err (ServerError.display e))
          | (session, Ok _) =>
              let state := MkAppState (pg_connection client session)
                             (Verifier.new (from_secret secret) HS256 60) in
              match listen o bind with
              | Err e => ([Connects database_url; Migrates; Binds bind], Err e)
              | Ok _ => ([Connects database_url; Migrates; Binds bind;
                          Eprintln ("credsyncd listening on " +:+ bind)], Ok state)
              end
          end
      end
  end.
End startup.
Arguments AppState : clear implicits.

(** ** Facts *)

Lemma config_ok var url secret bind :
  config var = Ok (url, secret, bind) →
  var "CREDSYNC_DATABASE_URL" = Ok url ∧
  (∃ s, var "CREDSYNC_TOKEN_SECRET" = Ok s ∧ secret = as_bytes s ∧ (32 ≤ String.length s)%nat) ∧
  bind = match var "CREDSYNC_BIND" with Ok b => b | Err _ => "127.0.0.1:8080" end.
Proof.
  unfold config. destruct (var "CREDSYNC_DATABASE_URL") as [u|]; simpl; [|done].
  destruct (var "CREDSYNC_TOKEN_SECRET") as [s|]; simpl; [|done]. destruct (Nat.ltb_spec (String.length s) 32); [done|].
  intros [= -> <- <-]. split_and!; [done| |done]. by exists s.
Qed.
