(* ===== verification/Replica.v ===== *)
(** * Replica: devices that follow the change log.

    [serve] and [serve_bootstrap] compose a query of the log with the byte budget into the
    answer a device gets; [drain] is a device pulling until nothing is left; a [replica] is
    what a device holds of a scope, and [joined] says it agrees with the log up to its
    cursor. *)

From S2P Require Import Prelude Errors Nums Ids Json Wire Integrity Core Storage Server.
From S2P Require Import Database Log.
From stdpp Require Import options.

(** ** Draining a scope *)

(** The cursor after a page: its last change, or where it was. *)
Definition next_of (rows : list ChangeRow.t) (c : Z) : Z :=
  match last rows with Some r => ChangeRow.seq r | None => c end.

Section drain.
Context {ZC : Type} `{!Compressor ZC} `{Hashes} `{Codec} `{!CodecArrays}.

(** One pull: a page of the log, cut to the byte budget. *)
Definition serve (t : Tables) (scope : ScopeId.t) (cursor : Cursor.t) (limit watermark : Z)
    (budget : N) (compressor : ZC) (digest : HexString.t) : result Batch.t ServerError.t :=
  let? page := (changes_after_watermark scope (Cursor.get cursor) limit watermark (MkClient t [])).2 in
  fill_batch scope cursor (Page.changes page) (Page.more_beyond page) budget compressor digest.

(** One page of a bootstrap, cut the same way. *)
Definition serve_bootstrap (protocol : ProtocolVersion.t) (t : Tables) (scope : ScopeId.t)
    (after : Cursor.t) (limit watermark : Z) (budget : N) (compressor : ZC) (digest : HexString.t)
    : result BootstrapResponse.t ServerError.t :=
  let? page := (bootstrap_after_watermark scope (Cursor.get after) limit watermark (MkClient t [])).2 in
  let? b := fill_batch scope after (Page.changes page) (Page.more_beyond page) budget compressor digest in
  Ok (BootstrapResponse.mk protocol (Batch.scope b) (Batch.changes b) (Batch.next_cursor b)
        (Batch.has_more b) (Batch.checksum b) (Batch.digest b)).

(** A device that pulls, moves to [next_cursor], and pulls again while [has_more]. *)
Fixpoint drain (fuel : nat) (t : Tables) (scope : ScopeId.t) (cursor : Cursor.t) (limit watermark : Z)
    (budget : N) (compressor : ZC) (digest : HexString.t) : result (list Change.t) ServerError.t :=
  match fuel with
  | O => Err (ServerError.Database "out of pulls")
  | S fuel =>
      let? b := serve t scope cursor limit watermark budget compressor digest in
      if Batch.has_more b then
        let? rest := drain fuel t scope (Batch.next_cursor b) limit watermark budget compressor digest in
        Ok (Batch.changes b ++ rest)
      else Ok (Batch.changes b)
  end.

(** A log whose every row decodes to a change the wire can carry. *)
Definition log_sound (log : list ChangeRow.t) : Prop :=
  distinct_seqs log ∧ Forall (λ r, ∃ c, ChangeRow.into_change r = Ok c ∧ encodable c) log.

Lemma log_sound_decode log rows :
  log_sound log → (∀ r, r ∈ rows → r ∈ log) →
  ∃ cs, Forall2 (λ r c, ChangeRow.into_change r = Ok c) rows cs ∧ Forall encodable cs ∧
    Forall (λ c, Seq.wf (Change.seq c)) cs.
Proof using Type*.
  intros [_ Hlog] Hin. rewrite Forall_forall in Hlog.
  induction rows as [|r rows IH]; [by exists []|].
  destruct IH as (cs & Hcs & He & Hw); [set_solver|].
  destruct (Hlog r) as (c & Hc & Henc); [set_solver|].
  exists (c :: cs). split_and!; constructor; try done. by eapply into_change_seq.
Qed.

Lemma log_sound_seq log r : log_sound log → r ∈ log → 1 ≤ ChangeRow.seq r ≤ i64_max.
Proof.
  intros [_ Hlog] Hr. rewrite Forall_forall in Hlog. destruct (Hlog r Hr) as (c & Hc & _).
  apply into_change_seq in Hc as [<- Hw]. unfold Seq.wf, SEQ_MIN, SEQ_MAX, i64_max in *. lia.
Qed.

(** A page of the rows [W] that a query selects, cut to the byte budget, hands over a prefix
    of them, says whether anything is left, and leaves the device at the last row it got. *)
Lemma served_ok log W scope cursor limit budget (compressor : ZC) digest :
  log_sound log → (∀ r, r ∈ W → r ∈ log) → 1 ≤ limit →
  ∃ b rows rest,
    (let? page := page_of limit (take (Z.to_nat (limit + 1)) W) in
     fill_batch scope cursor (Page.changes page) (Page.more_beyond page) budget compressor digest) = Ok b ∧
    W = rows ++ rest ∧ Forall2 (λ r c, ChangeRow.into_change r = Ok c) rows (Batch.changes b) ∧
    Batch.scope b = scope ∧ Batch.digest b = digest ∧
    Batch.next_cursor b = Cursor.mk (next_of rows (Cursor.get cursor)) ∧
    (if Batch.has_more b then rows ≠ [] else rest = []).
Proof using Type*.
  intros Hlog HW Hlim.
  destruct (log_sound_decode _ (take (Z.to_nat limit) W) Hlog) as (cs & Hcs & Henc & Hwf).
  { intros r Hr. apply elem_of_take in Hr as (i & Hi & _). by apply list_elem_of_lookup_2 in Hi as ?%HW. }
  rewrite (page_of_ok limit W cs) by (lia || done). cbn [res_bind Page.changes Page.more_beyond].
  destruct (fill_batch_ok scope cursor cs (bool_decide (drop (Z.to_nat limit) W ≠ [])) budget compressor
    digest Henc Hwf) as (dn & rest & encs & b & -> & Hsplit & Hch & Hsc & Hdg & _ & _ & Hmore & Hnext & Hprog & _).
  rewrite Hsplit in Hcs. apply Forall2_app_inv_r in Hcs as (rows & rows2 & Hr1 & Hr2 & Htake).
  exists b, rows, (rows2 ++ drop (Z.to_nat limit) W). rewrite Hch, Hnext.
  split_and!; try done; [by rewrite app_assoc, <- Htake, take_drop| |].
  - destruct (decide (dn = [])) as [->|Hdn]; [apply Forall2_nil_inv_r in Hr1 as ->; by destruct cursor|].
    destruct (exists_last Hdn) as (dn' & c & ->). unfold next_of.
    apply Forall2_app_inv_r in Hr1 as (l1 & l2 & Hl1 & Hl2 & ->).
    destruct l2 as [|r [|? ?]]; [by inversion Hl2| |by apply Forall2_length in Hl2].
    apply Forall2_cons_1 in Hl2 as [Hrc _]. rewrite !last_snoc.
    by destruct (into_change_seq _ _ Hrc) as [-> _].
  - destruct (Batch.has_more b) eqn:Hb.
    + intros ->. apply Forall2_nil_inv_l in Hr1 as ->. simpl in Hsplit, Htake. subst rest.
      destruct (decide (cs = [])) as [->|Hcsn]; [|by apply Hprog]. apply Forall2_nil_inv_r in Hr2. subst.
      destruct W; [by rewrite drop_nil in Hmore|]. apply (f_equal length) in Htake.
      rewrite length_take in Htake. simpl in Htake. lia.
    + symmetry in Hmore. apply orb_false_iff in Hmore as [Hrest Hbeyond].
      apply bool_decide_eq_false, dec_stable in Hrest, Hbeyond. subst rest. rewrite Hbeyond.
      by apply Forall2_nil_inv_r in Hr2 as ->.
Qed.

Lemma serve_ok t scope cursor limit watermark budget compressor digest :
  log_sound (log_of t (ScopeId.as_str scope)) → 1 ≤ limit → Cursor.get cursor ≤ i64_max →
  ∃ b rows rest, serve t scope cursor limit watermark budget compressor digest = Ok b ∧
    window (log_of t (ScopeId.as_str scope)) (Cursor.get cursor) watermark = rows ++ rest ∧
    Forall2 (λ r c, ChangeRow.into_change r = Ok c) rows (Batch.changes b) ∧
    Batch.scope b = scope ∧ Batch.digest b = digest ∧
    Batch.next_cursor b = Cursor.mk (next_of rows (Cursor.get cursor)) ∧
    (if Batch.has_more b then rows ≠ [] else rest = []).
Proof using Type*.
  intros Hlog Hlim Hc. unfold serve. rewrite changes_after_healthy by done. cbn [snd].
  eapply served_ok; [done| |done]. by intros r [? _]%elem_of_window.
Qed.

Lemma serve_bootstrap_ok protocol t scope after limit watermark budget compressor digest :
  log_sound (log_of t (ScopeId.as_str scope)) → 1 ≤ limit → Cursor.get after ≤ i64_max →
  ∃ b rows rest,
    serve_bootstrap protocol t scope after limit watermark budget compressor digest =
      Ok (BootstrapResponse.mk protocol (Batch.scope b) (Batch.changes b) (Batch.next_cursor b)
            (Batch.has_more b) (Batch.checksum b) (Batch.digest b)) ∧
    compacted (log_of t (ScopeId.as_str scope)) (Cursor.get after) watermark = rows ++ rest ∧
    Forall2 (λ r c, ChangeRow.into_change r = Ok c) rows (Batch.changes b) ∧
    Batch.scope b = scope ∧ Batch.digest b = digest ∧
    Batch.next_cursor b = Cursor.mk (next_of rows (Cursor.get after)) ∧
    (if Batch.has_more b then rows ≠ [] else rest = []).
Proof using Type*.
  intros Hlog Hlim Hc. unfold serve_bootstrap. rewrite bootstrap_after_healthy by done. cbn [snd].
  destruct (served_ok (log_of t (ScopeId.as_str scope))
    (compacted (log_of t (ScopeId.as_str scope)) (Cursor.get after) watermark) scope after limit budget compressor digest)
    as (b & rows & rest & Hs & Hrest); [done| |done|].
  { intros r Hr. unfold compacted, distinct_latest in Hr.
    rewrite elem_of_order, !list_elem_of_filter in Hr. by destruct Hr as (_ & _ & _ & ?). }
  exists b, rows, rest. split; [|exact Hrest].
  destruct (page_of _ _); cbn [res_bind] in *; [|done]. by rewrite Hs.
Qed.

Lemma drain_from fuel t scope cursor limit watermark budget compressor digest :
  log_sound (log_of t (ScopeId.as_str scope)) → 1 ≤ limit → Cursor.get cursor ≤ i64_max →
  (length (window (log_of t (ScopeId.as_str scope)) (Cursor.get cursor) watermark) < fuel)%nat →
  ∃ cs, drain fuel t scope cursor limit watermark budget compressor digest = Ok cs ∧
    Forall2 (λ r c, ChangeRow.into_change r = Ok c)
      (window (log_of t (ScopeId.as_str scope)) (Cursor.get cursor) watermark) cs.
Proof using Type*.
  intros Hlog Hlim. revert cursor. induction fuel as [|fuel IH]; intros cursor Hc Hlen; [lia|].
  destruct (serve_ok t scope cursor limit watermark budget compressor digest Hlog Hlim Hc)
    as (b & rows & rest & Hs & HW & Hcs & _ & _ & Hnext & Hmore).
  cbn [drain]. rewrite Hs, HW. cbn [res_bind]. destruct (Batch.has_more b).
  - destruct (exists_last Hmore) as (rows' & r & ->). unfold next_of in Hnext. rewrite last_snoc in Hnext.
    rewrite <- app_assoc in HW. simpl in HW.
    pose proof (window_next _ _ _ _ _ _ (proj1 Hlog) HW) as Hwin.
    destruct (IH (Cursor.mk (ChangeRow.seq r))) as (cs' & Hrun & Hcs'); simpl in *.
    + by eapply log_sound_seq; [done|]; eapply elem_of_window; rewrite HW; set_solver.
    + rewrite Hwin. rewrite HW, length_app in Hlen. simpl in Hlen. lia.
    + rewrite Hnext, Hrun. rewrite Hwin in Hcs'. eexists. split; [done|]. by apply Forall2_app.
  - subst rest. exists (Batch.changes b). by rewrite app_nil_r.
Qed.
End drain.

(** ** Compaction *)

Section compaction.

(** A device's copy of a scope: the rows it holds. *)
Definition replica : Type := gmap (string * string) ChangeRow.t.
Definition apply_row (m : replica) (r : ChangeRow.t) : replica :=
  if String.eqb (ChangeRow.op r) "delete" then delete (row_key r) m else <[row_key r := r]> m.
Definition replay (rows : list ChangeRow.t) (m : replica) : replica := fold_left apply_row rows m.

(** What a row's latest change leaves. *)
Definition live (r : ChangeRow.t) : option ChangeRow.t :=
  if String.eqb (ChangeRow.op r) "delete" then None else Some r.

(** [r] is the latest change of its row under [w]. *)
Definition latest (log : list ChangeRow.t) (w : Z) (r : ChangeRow.t) : Prop :=
  r ∈ log ∧ ChangeRow.seq r ≤ w ∧
  ∀ r', r' ∈ log → ChangeRow.seq r' ≤ w → row_key r' = row_key r → ChangeRow.seq r' ≤ ChangeRow.seq r.

(** The replica agrees with the log on everything whose latest change is at or below [c]. *)
Definition joined (log : list ChangeRow.t) (w c : Z) (m : replica) : Prop :=
  (∀ r, latest log w r → ChangeRow.seq r ≤ c → m !! row_key r = live r) ∧
  (∀ k, (∀ r, r ∈ log → ChangeRow.seq r ≤ w → row_key r ≠ k) → m !! k = None) ∧
  (c = 0 → m = ∅) ∧ 0 ≤ c ≤ w.

Lemma apply_row_lookup m r k :
  apply_row m r !! k = if decide (row_key r = k) then live r else m !! k.
Proof.
  unfold apply_row, live. destruct (String.eqb _ _); case_decide; subst.
  - apply lookup_delete_eq.
  - by apply lookup_delete_ne.
  - apply lookup_insert_eq.
  - by apply lookup_insert_ne.
Qed.

(** A row no change of the run touches keeps its value; otherwise its last change rules. *)
Lemma replay_other rows m k : (∀ r, r ∈ rows → row_key r ≠ k) → replay rows m !! k = m !! k.
Proof.
  revert m. induction rows as [|r rows IH]; intros m Hk; [done|]. cbn [replay fold_left].
  change (fold_left apply_row rows (apply_row m r)) with (replay rows (apply_row m r)).
  rewrite IH by set_solver. rewrite apply_row_lookup. rewrite decide_False; [done|].
  apply Hk. left.
Qed.

Lemma replay_last rows m r :
  StronglySorted row_seq_lt rows → r ∈ rows →
  (∀ r', r' ∈ rows → row_key r' = row_key r → ChangeRow.seq r' ≤ ChangeRow.seq r) →
  replay rows m !! row_key r = live r.
Proof.
  intros Hs Hin Hmax. apply list_elem_of_split in Hin as (l1 & l2 & ->).
  unfold replay. rewrite fold_left_app. cbn [fold_left].
  change (fold_left apply_row l2 ?x) with (replay l2 x).
  apply StronglySorted_app in Hs as (_ & _ & [Hgt _]%StronglySorted_cons).
  rewrite Forall_forall in Hgt. rewrite replay_other.
  - by rewrite apply_row_lookup, decide_True.
  - intros r' Hr' Hk. specialize (Hgt r' Hr'). unfold row_seq_lt in Hgt.
    specialize (Hmax r' ltac:(set_solver) Hk). lia.
Qed.

(** Every row touched under [w] has a latest change. *)
Lemma latest_exists log w k :
  (∃ r, r ∈ log ∧ ChangeRow.seq r ≤ w ∧ row_key r = k) → ∃ r, latest log w r ∧ row_key r = k.
Proof.
  intros (r & Hin & Hw & Hk). revert r Hin Hw Hk.
  cut (∀ n r, (Z.to_nat (w - ChangeRow.seq r) < n)%nat → r ∈ log → ChangeRow.seq r ≤ w → row_key r = k →
    ∃ r, latest log w r ∧ row_key r = k). { intros Hc r ???. eapply (Hc (S (Z.to_nat (w - ChangeRow.seq r))) r); try done. lia. }
  induction n as [|n IH]; intros r Hn Hin Hw Hk; [lia|].
  destruct (decide (Exists (λ r', ChangeRow.seq r' ≤ w ∧ row_key r' = k ∧ ChangeRow.seq r < ChangeRow.seq r') log))
    as [Hex|Hne].
  - apply Exists_exists in Hex as (r' & Hin' & Hw' & Hk' & Hlt). apply (IH r'); try done. lia.
  - exists r. split; [|done]. split_and!; [done|done|]. intros r' Hin' Hw' Hk'.
    destruct (Z.le_gt_cases (ChangeRow.seq r') (ChangeRow.seq r)); [done|]. exfalso. apply Hne.
    apply Exists_exists. exists r'. rewrite Hk', Hk. by split_and!.
Qed.

Lemma elem_of_compacted log after w r :
  r ∈ compacted log after w ↔
  latest log w r ∧ after < ChangeRow.seq r ∧ (ChangeRow.op r ≠ "delete" ∨ 0 < after).
Proof.
  unfold compacted, distinct_latest. rewrite elem_of_order, !list_elem_of_filter, Forall_forall.
  setoid_rewrite list_elem_of_filter. unfold latest. split.
  - intros ((Ha & Hop) & Hmax & Hw & Hin). split_and!; try done. intros r' ???. by apply Hmax.
  - intros ((Hin & Hw & Hmax) & Ha & Hop). split_and!; try done. intros r' [? ?] ?. by apply Hmax.
Qed.

Lemma live_delete r : ChangeRow.op r = "delete" → live r = None.
Proof. unfold live. by intros ->. Qed.

Lemma next_of_max rows c r :
  StronglySorted row_seq_lt rows → r ∈ rows → ChangeRow.seq r ≤ next_of rows c.
Proof.
  intros Hs Hr. unfold next_of. destruct (last rows) as [x|] eqn:Hl.
  - apply last_Some in Hl as [l ->]. apply StronglySorted_app in Hs as (Hlt & _ & _).
    apply elem_of_app in Hr as [Hr| ->%list_elem_of_singleton]; [|lia].
    specialize (Hlt r x Hr (list_elem_of_here _ _)). unfold row_seq_lt in Hlt. lia.
  - apply last_None in Hl as ->. by apply not_elem_of_nil in Hr.
Qed.

(** The first [n] rows of a sorted page are those at or below the last of them. *)
Lemma take_upto rows n r c :
  StronglySorted row_seq_lt rows → Forall (λ r, c < ChangeRow.seq r) rows →
  r ∈ rows → ChangeRow.seq r ≤ next_of (take n rows) c → r ∈ take n rows.
Proof.
  intros Hs Hc Hin Hle. rewrite <- (take_drop n rows) in Hin. apply elem_of_app in Hin as [?|Hin]; [done|].
  exfalso. unfold next_of in Hle. destruct (last (take n rows)) as [x|] eqn:Hl.
  - apply last_Some_elem_of in Hl. rewrite <- (take_drop n rows) in Hs.
    apply StronglySorted_app in Hs as (Hlt & _ & _). specialize (Hlt x r Hl Hin). unfold row_seq_lt in Hlt. lia.
  - rewrite Forall_forall in Hc. assert (r ∈ rows) as Hr by (rewrite <- (take_drop n rows); set_solver).
    specialize (Hc r Hr). lia.
Qed.

(** One page of rows, each its row's latest change and none below [c] left out but deletes
    nobody holds, carries a joined replica forward to the page's end. *)
Lemma joined_page log w c m rows n :
  distinct_seqs log → joined log w c m → StronglySorted row_seq_lt rows →
  (∀ r, r ∈ rows → r ∈ log ∧ c < ChangeRow.seq r ≤ w) →
  (∀ r, latest log w r → c < ChangeRow.seq r → r ∈ rows ∨ (ChangeRow.op r = "delete" ∧ c = 0 ∧ ∀ r', r' ∈ rows → row_key r' ≠ row_key r)) →
  joined log w (next_of (take n rows) c) (replay (take n rows) m).
Proof.
  intros Hd (Hj & Habs & Hz & Hcw) Hs Hrows Hall.
  assert (Hts : StronglySorted row_seq_lt (take n rows)).
  { rewrite <- (take_drop n rows) in Hs. by apply StronglySorted_app_1_l in Hs. }
  assert (Hsub : ∀ r, r ∈ take n rows → r ∈ rows).
  { intros r Hr. rewrite <- (take_drop n rows). set_solver. }
  assert (Hle : c ≤ next_of (take n rows) c ≤ w).
  { unfold next_of. destruct (last _) as [x|] eqn:Hl; [|lia]. apply last_Some_elem_of, Hsub, Hrows in Hl. lia. }
  split_and!; try lia.
  - intros r Hr Hrc. destruct (Z.le_gt_cases (ChangeRow.seq r) c) as [Hlow|Hhigh].
    { rewrite replay_other; [by apply Hj|]. intros r' Hr' Hk. apply Hsub, Hrows in Hr' as [Hin' ?].
      destruct Hr as (_ & _ & Hmax). specialize (Hmax r' Hin' ltac:(lia) Hk). lia. }
    destruct (Hall r Hr ltac:(lia)) as [Hin|(Hdel & -> & Hnone)].
    + apply replay_last; [done| |].
      * eapply take_upto; [done| |done|done]. apply Forall_forall. intros x Hx. apply Hrows in Hx. lia.
      * intros r' Hr' Hk. apply Hsub, Hrows in Hr' as [? [_ ?]]. destruct Hr as (_ & _ & Hmax). by apply Hmax.
    + rewrite live_delete, (Hz eq_refl) by done. rewrite replay_other; [apply lookup_empty|].
      intros r' Hr'. by apply Hnone, Hsub.
  - intros k Hk. rewrite replay_other; [by apply Habs|]. intros r Hr. apply Hsub, Hrows in Hr as [? [_ ?]].
    by apply Hk.
  - intros E. assert (c = 0) as Hc0 by lia. rewrite (Hz Hc0). unfold next_of in E.
    destruct (last (take n rows)) as [x|] eqn:Hl.
    + apply last_Some_elem_of, Hsub, Hrows in Hl. lia.
    + apply last_None in Hl. by rewrite Hl.
Qed.

Lemma row_unique log r r' :
  distinct_seqs log → r ∈ log → r' ∈ log → ChangeRow.seq r = ChangeRow.seq r' → r = r'.
Proof.
  unfold distinct_seqs. induction log as [|x log IH]; [by intros _ ?%not_elem_of_nil|].
  rewrite fmap_cons, NoDup_cons, !elem_of_cons. intros [Hx Hn] [->|Hr] [->|Hr'] E; try done; [| |by apply IH].
  - exfalso. apply Hx. rewrite E. by apply list_elem_of_fmap_2.
  - exfalso. apply Hx. rewrite <- E. by apply list_elem_of_fmap_2.
Qed.

(** A device, a page at a time, against a log that grows above its watermark between pages:
    it may bootstrap and pull in any order and with pages of any size. *)
Inductive follows : list ChangeRow.t → Z → Z → replica → Prop :=
| follows_start log w :
    distinct_seqs log → Forall (λ r, 1 ≤ ChangeRow.seq r) log → 0 ≤ w → follows log w 0 ∅
| follows_grow log w c m log' w' :
    follows log w c m → distinct_seqs log' → Forall (λ r, 1 ≤ ChangeRow.seq r) log' → w ≤ w' →
    (∀ r, ChangeRow.seq r ≤ w → (r ∈ log ↔ r ∈ log')) → follows log' w' c m
| follows_bootstrap log w c m n :
    follows log w c m →
    follows log w (next_of (take n (compacted log c w)) c) (replay (take n (compacted log c w)) m)
| follows_pull log w c m n :
    follows log w c m →
    follows log w (next_of (take n (window log c w)) c) (replay (take n (window log c w)) m).

Lemma compacted_page log w c m n :
  distinct_seqs log → joined log w c m →
  joined log w (next_of (take n (compacted log c w)) c) (replay (take n (compacted log c w)) m).
Proof.
  intros Hd Hj. apply joined_page; [done|done| | |].
  - apply order_strict. unfold distinct_latest. by repeat apply distinct_filter.
  - intros r Hr. apply elem_of_compacted in Hr as ((? & ? & _) & ? & _). done.
  - intros r Hr Hc. destruct (decide (ChangeRow.op r = "delete" ∧ c = 0)) as [[Hop ->]|Hno].
    + right. split_and!; try done. intros r' Hr' Hk. apply elem_of_compacted in Hr' as ((Hin' & Hw' & Hm') & _ & Hop').
      destruct Hr as (Hin & Hw & Hm). assert (r = r') as ->; [|naive_solver lia].
      apply (row_unique log); try done. apply Z.le_antisymm; [by apply Hm'|by apply Hm].
    + left. apply elem_of_compacted. split_and!; [done|done|].
      destruct (decide (ChangeRow.op r = "delete")); [right|by left]. destruct Hj as (_ & _ & _ & ?).
      destruct (decide (c = 0)); [naive_solver|lia].
Qed.

Lemma window_page log w c m n :
  distinct_seqs log → joined log w c m →
  joined log w (next_of (take n (window log c w)) c) (replay (take n (window log c w)) m).
Proof.
  intros Hd Hj. apply joined_page; [done|done| | |].
  - by apply window_sorted.
  - intros r Hr. by apply elem_of_window in Hr.
  - intros r (Hin & Hw & _) Hc. left. by apply elem_of_window.
Qed.

Lemma joined_grow log w c m log' w' :
  joined log w c m → w ≤ w' → (∀ r, ChangeRow.seq r ≤ w → (r ∈ log ↔ r ∈ log')) → joined log' w' c m.
Proof.
  intros (Hj & Habs & Hz & Hcw) Hww Hsame. split_and!; try done; try lia.
  - intros r (Hin & Hw & Hm) Hc. apply Hj; [|done].
    split_and!; [by apply Hsame; [lia|]|lia|]. intros r' Hin' Hw' Hk. apply Hm; [|lia|done].
    by apply Hsame.
  - intros k Hk. apply Habs. intros r Hin Hw. apply Hk; [|lia]. by apply Hsame.
Qed.

Lemma follows_joined log w c m :
  follows log w c m → distinct_seqs log ∧ Forall (λ r, 1 ≤ ChangeRow.seq r) log ∧ joined log w c m.
Proof.
  induction 1 as [log w Hd Hp Hw|log w c m log' w' _ (_ & _ & Hj) Hd Hp Hww Hsame|log w c m n _ (Hd & Hp & Hj)
    |log w c m n _ (Hd & Hp & Hj)]; split_and!; try done.
  - split_and!; try done; try lia. intros r (Hin & _ & _) Hr. rewrite Forall_forall in Hp.
    specialize (Hp r Hin). simpl in Hp. lia.
  - by eapply joined_grow.
  - by apply compacted_page.
  - by apply window_page.
Qed.

Lemma latest_decided log w k :
  (∃ r, latest log w r ∧ row_key r = k) ∨ (∀ r, r ∈ log → ChangeRow.seq r ≤ w → row_key r ≠ k).
Proof.
  destruct (decide (Exists (λ r, ChangeRow.seq r ≤ w ∧ row_key r = k) log)) as [Hex|Hne].
  - left. apply latest_exists. apply Exists_exists in Hex as (r & Hin & Hw & Hk). eauto.
  - right. intros r Hin Hw Hk. apply Hne, Exists_exists. eauto.
Qed.

Lemma replay_window_lookup log w c m k :
  distinct_seqs log → joined log w c m →
  (∀ r, latest log w r → row_key r = k → replay (window log c w) m !! k = live r) ∧
  ((∀ r, r ∈ log → ChangeRow.seq r ≤ w → row_key r ≠ k) → replay (window log c w) m !! k = None).
Proof.
  intros Hd (Hj & Habs & _ & _). split.
  - intros r Hr <-. pose proof Hr as (Hin & Hw & Hm).
    assert (Hmax : ∀ r', r' ∈ window log c w → row_key r' = row_key r → ChangeRow.seq r' ≤ ChangeRow.seq r).
    { intros r' [? [_ ?]]%elem_of_window ?. by apply Hm. }
    destruct (Z.le_gt_cases (ChangeRow.seq r) c).
    + rewrite replay_other; [by apply Hj|]. intros r' Hr' Hk. specialize (Hmax r' Hr' Hk).
      apply elem_of_window in Hr'. lia.
    + apply replay_last; [by apply window_sorted| |done]. apply elem_of_window. split; [done|lia].
  - intros Hk. rewrite replay_other; [by apply Habs|]. intros r [? [_ ?]]%elem_of_window. by apply Hk.
Qed.

(** Two replicas that carry every row's latest change are the same. *)
Lemma caught_up log w c m m' :
  distinct_seqs log → Forall (λ r, 1 ≤ ChangeRow.seq r) log → joined log w c m →
  (∀ r, latest log w r → m' !! row_key r = live r) →
  (∀ k, (∀ r, r ∈ log → ChangeRow.seq r ≤ w → row_key r ≠ k) → m' !! k = None) →
  m' = replay (window log 0 w) ∅.
Proof.
  intros Hd Hp Hj Hlive Hnone.
  assert (Hw : 0 ≤ w) by (destruct Hj as (_ & _ & _ & ?); lia).
  destruct (follows_joined log w 0 ∅ (follows_start log w Hd Hp Hw)) as (_ & _ & Hj0).
  apply map_eq. intros k. destruct (replay_window_lookup log w 0 ∅ k Hd Hj0) as [Hs0 Hn0].
  destruct (latest_decided log w k) as [(r & Hr & <-)|Hn].
  - rewrite Hlive by done. symmetry. by apply Hs0.
  - rewrite Hnone by done. symmetry. by apply Hn0.
Qed.

(** Pulling everything above its cursor brings a joined replica to the head of the log. *)
Lemma window_caught_up log w c m :
  distinct_seqs log → Forall (λ r, 1 ≤ ChangeRow.seq r) log → joined log w c m →
  replay (window log c w) m = replay (window log 0 w) ∅.
Proof.
  intros Hd Hp Hj. eapply caught_up; try done.
  - intros r Hr. by destruct (replay_window_lookup log w c m (row_key r) Hd Hj) as [Hs _]; apply Hs.
  - intros k Hk. by destruct (replay_window_lookup log w c m k Hd Hj) as [_ Hn]; apply Hn.
Qed.

(** So does the rest of a bootstrap. *)
Lemma compacted_caught_up log w c m :
  distinct_seqs log → Forall (λ r, 1 ≤ ChangeRow.seq r) log → joined log w c m →
  replay (compacted log c w) m = replay (window log 0 w) ∅.
Proof.
  intros Hd Hp Hj. pose proof Hj as (Hlow & Habs & Hz & Hc).
  assert (Hone : ∀ r r', latest log w r → latest log w r' → row_key r = row_key r' → r = r').
  { intros r r' (? & ? & Hm) (? & ? & Hm') Hk. apply (row_unique log); try done.
    apply Z.le_antisymm; [by apply Hm'|by apply Hm]. }
  eapply caught_up; try done.
  - intros r Hr.
    destruct (decide (c < ChangeRow.seq r ∧ (ChangeRow.op r ≠ "delete" ∨ 0 < c))) as [Hin|Hout].
    + apply replay_last; [|by apply elem_of_compacted|].
      * apply order_strict. unfold distinct_latest. by repeat apply distinct_filter.
      * intros r' (Hr' & _ & _)%elem_of_compacted Hk. by rewrite (Hone r' r).
    + rewrite replay_other.
      2: { intros r' (Hl & Hin)%elem_of_compacted Hk. apply Hout. by rewrite <- (Hone r' r). }
      destruct (Z.le_gt_cases (ChangeRow.seq r) c); [by apply Hlow|].
      destruct (decide (ChangeRow.op r = "delete")) as [Hop|]; [|naive_solver lia].
      destruct (decide (c = 0)) as [E|]; [|naive_solver lia].
      rewrite (Hz E), live_delete by done. apply lookup_empty.
  - intros k Hk. rewrite replay_other; [by apply Habs|].
    intros r ((? & ? & _) & _ & _)%elem_of_compacted. by apply Hk.
Qed.
End compaction.
