(* ===== verification/SimServer.v ===== *)
(** * SimServer: the simulated server (credsync-sim/src/server.rs).

    A log of changes shared by every scope, an index per scope into it, the versions each row
    has held, and the outcome recorded for each command. An entry takes its seq when its write
    starts and becomes visible when the write commits, [advance_commits] some steps later.
    Batches are filled by the real server's [fill_batch] and replays decided by its
    [decide_replay], as in the source.

    Where the source panics (an index past the log, a literal that is no valid value) a
    definition answers as if the entry were missing, or the value unchecked; [server_wf] in
    SimServerFacts says the first never happens. *)

From S2P Require Import Prelude Errors Nums Ids Json Wire Integrity Storage.
From S2P Require Import Server Dedupe Rng.
From stdpp Require Import options.

(** ** [BTreeMap<RowKey, _>] in iteration order: by entity, then by id, bytewise *)

Definition key_compare (a b : RowKey) : comparison :=
  match String.compare (EntityName.as_str a.1) (EntityName.as_str b.1) with
  | Eq => String.compare (EntityId.as_str a.2) (EntityId.as_str b.2)
  | c => c
  end.
Definition key_le {A} (a b : RowKey * A) : Prop := key_compare a.1 b.1 ≠ Gt.
#[export] Instance key_le_dec {A} (a b : RowKey * A) : base.Decision (key_le a b).
Proof. unfold key_le. solve_decision. Defined.
Definition btree_entries {A} (m : gmap RowKey A) : list (RowKey * A) := merge_sort key_le (map_to_list m).

(** [slice::partition_point] on a slice partitioned by [p]: how many come first. *)
Fixpoint partition_point {A} (p : A → bool) (l : list A) : nat :=
  match l with
  | [] => 0
  | x :: r => if p x then S (partition_point p r) else 0
  end.

(** ** Data *)

Module LogEntry.
Record t := mk { seq : Seq.t; change : Change.t; visible : bool }.
End LogEntry.

Module DedupeEntry.
Record t := mk { checksum : HexString.t; result : CommandResult.t }.
End DedupeEntry.

Abbreviation RowVersions := (list (Z * RowVersion.t)).

(** The server's compressor: a third of the input, rounded up. *)
Inductive ThirdCompressor : Type := third.
#[export] Instance ThirdCompressor_inst : Compressor ThirdCompressor := {
  compressed_len _ b := ((N.of_nat (length b) + 2) / 3)%N;
}.

Record Server := MkServer {
  log : list LogEntry.t;
  by_scope : gmap ScopeId.t (list nat);
  rows : gmap ScopeId.t (gmap RowKey RowVersion.t);
  row_history : gmap ScopeId.t (gmap RowKey RowVersions);
  dedupe : gmap CommandId.t DedupeEntry.t;
  next_seq : Z;
  command_targets : gmap string (EntityName.t * ScopeId.t);
  warm : bool;
  in_flight : list (nat * Z);
  hold_next : Z;
  commit_order_guard : bool;
}.

Definition set_log f s := MkServer (f (log s)) (by_scope s) (rows s) (row_history s) (dedupe s) (next_seq s)
  (command_targets s) (warm s) (in_flight s) (hold_next s) (commit_order_guard s).
Definition set_by_scope f s := MkServer (log s) (f (by_scope s)) (rows s) (row_history s) (dedupe s) (next_seq s)
  (command_targets s) (warm s) (in_flight s) (hold_next s) (commit_order_guard s).
Definition set_rows f s := MkServer (log s) (by_scope s) (f (rows s)) (row_history s) (dedupe s) (next_seq s)
  (command_targets s) (warm s) (in_flight s) (hold_next s) (commit_order_guard s).
Definition set_row_history f s := MkServer (log s) (by_scope s) (rows s) (f (row_history s)) (dedupe s)
  (next_seq s) (command_targets s) (warm s) (in_flight s) (hold_next s) (commit_order_guard s).
Definition set_dedupe f s := MkServer (log s) (by_scope s) (rows s) (row_history s) (f (dedupe s)) (next_seq s)
  (command_targets s) (warm s) (in_flight s) (hold_next s) (commit_order_guard s).
Definition set_next_seq n s := MkServer (log s) (by_scope s) (rows s) (row_history s) (dedupe s) n
  (command_targets s) (warm s) (in_flight s) (hold_next s) (commit_order_guard s).
Definition set_command_targets f s := MkServer (log s) (by_scope s) (rows s) (row_history s) (dedupe s)
  (next_seq s) (f (command_targets s)) (warm s) (in_flight s) (hold_next s) (commit_order_guard s).
Definition set_warm b s := MkServer (log s) (by_scope s) (rows s) (row_history s) (dedupe s) (next_seq s)
  (command_targets s) b (in_flight s) (hold_next s) (commit_order_guard s).
Definition set_in_flight f s := MkServer (log s) (by_scope s) (rows s) (row_history s) (dedupe s) (next_seq s)
  (command_targets s) (warm s) (f (in_flight s)) (hold_next s) (commit_order_guard s).
Definition set_hold_next n s := MkServer (log s) (by_scope s) (rows s) (row_history s) (dedupe s) (next_seq s)
  (command_targets s) (warm s) (in_flight s) n (commit_order_guard s).
Definition set_commit_order_guard b s := MkServer (log s) (by_scope s) (rows s) (row_history s) (dedupe s)
  (next_seq s) (command_targets s) (warm s) (in_flight s) (hold_next s) b.

Definition new : Server := MkServer [] ∅ ∅ ∅ ∅ 1 ∅ true [] 0 true.

Definition register_command (name : string) (entity : EntityName.t) (scope : ScopeId.t) (s : Server) : Server :=
  set_command_targets (<[name := (entity, scope)]>) s.

(** ** Commits *)

Definition hold_next_write (delay : Z) (s : Server) : Server :=
  set_hold_next (if delay =? 0 then 1 else delay) s.

Definition show_entry (e : LogEntry.t) : LogEntry.t := LogEntry.mk (LogEntry.seq e) (LogEntry.change e) true.

(** One turn of [advance_commits]'s loop, over the log and the writes still waiting. *)
Definition commit_turn (acc : list LogEntry.t * list (nat * Z)) (w : nat * Z) : list LogEntry.t * list (nat * Z) :=
  let '(lg, waiting) := acc in
  let '(index, remaining) := w in
  if remaining <=? 1 then (alter show_entry index lg, waiting)
  else (lg, waiting ++ [(index, remaining - 1)]).
Definition advance_commits (s : Server) : Server :=
  let '(lg, waiting) := fold_left commit_turn (in_flight s) (log s, []) in
  set_in_flight (λ _, waiting) (set_log (λ _, lg) s).

Definition in_flight_writes (s : Server) : nat := length (in_flight s).
Definition restart_cold (s : Server) : Server := set_warm false s.

(** ** What a reader can see *)

Definition indices (s : Server) (scope : ScopeId.t) : list nat := default [] (by_scope s !! scope).

(** The walk of [visible_head]: the last seq before the first entry that is not visible. *)
Fixpoint head_from (lg : list LogEntry.t) (ix : list nat) (head : Z) : Z :=
  match ix with
  | [] => head
  | i :: r =>
      match lg !! i with
      | Some e => if LogEntry.visible e then head_from lg r (Seq.get (LogEntry.seq e)) else head
      | None => head
      end
  end.
Definition visible_head (s : Server) (scope : ScopeId.t) : Z := head_from (log s) (indices s scope) 0.

Definition answered_commands (s : Server) : nat := size (dedupe s).
Definition has_answered (s : Server) (id : CommandId.t) : bool := bool_decide (is_Some (dedupe s !! id)).
Definition head (s : Server) : Z := next_seq s - 1.

(** The version a history gives a row at a cursor. *)
Definition version_at (versions : RowVersions) (cursor : Z) : option RowVersion.t :=
  let idx := partition_point (λ v, v.1 <=? cursor) versions in
  if (0 <? idx)%nat then snd <$> versions !! (idx - 1)%nat else None.

Definition rows_at (s : Server) (scope : ScopeId.t) (cursor : Z) : list (EntityName.t * EntityId.t * RowVersion.t) :=
  match row_history s !! scope with
  | None => []
  | Some history =>
      omap (λ '((entity, entity_id), versions), v ← version_at versions cursor; Some (entity, entity_id, v))
        (btree_entries history)
  end.

Definition row_version_at (s : Server) (scope : ScopeId.t) (entity : EntityName.t) (entity_id : EntityId.t)
    (cursor : Z) : option RowVersion.t :=
  history ← row_history s !! scope;
  versions ← history !! (entity, entity_id);
  version_at versions cursor.

Section server.
Context `{Hashes} `{Codec}.

Definition digest (s : Server) (scope : ScopeId.t) : ScopeDigest.t :=
  ScopeDigest.from_rows (rows_at s scope (visible_head s scope)).

(** [HexString::new] of the literal, which is valid. *)
Definition hex_placeholder : HexString.t := HexString.mk "00000000000000000000000000000000".

(** The walk of a pull over the entries past the cursor: with the guard it ends at the first
    entry that is not visible, without it that entry is passed over. *)
Fixpoint walk (guard : bool) (lg : list LogEntry.t) (ix : list nat) : list Change.t :=
  match ix with
  | [] => []
  | i :: r =>
      match lg !! i with
      | Some e =>
          if LogEntry.visible e then LogEntry.change e :: walk guard lg r
          else if guard then [] else walk guard lg r
      | None => []
      end
  end.

Definition seq_at (lg : list LogEntry.t) (i : nat) : option Z := (λ e, Seq.get (LogEntry.seq e)) <$> lg !! i.

(** The indices past the cursor. *)
Definition past (s : Server) (scope : ScopeId.t) (after : Z) : list nat :=
  let ix := indices s scope in
  drop (partition_point (λ i, match seq_at (log s) i with Some q => q <=? after | None => false end) ix) ix.

(** The batch for one scope of a pull. *)
Definition pull_scope (s : Server) (row_limit : nat) (budget_bytes : N) (sc : ScopeCursor.t) : Batch.t :=
  let after := Cursor.get (ScopeCursor.cursor sc) in
  let scope := ScopeCursor.scope sc in
  let ix := past s scope after in
  let available := length ix in
  let candidates := take row_limit (walk (commit_order_guard s) (log s) ix) in
  let more_beyond := (length candidates <? available)%nat in
  let cursor := unwrap_or (Cursor.new after) Cursor.START in
  let dg := ScopeDigest.to_hex (digest s scope) in
  unwrap_or (fill_batch scope cursor candidates more_beyond budget_bytes third dg)
    (Batch.mk scope [] cursor more_beyond hex_placeholder dg).

Definition pull (s : Server) (request : PullRequest.t) (row_limit : nat) (budget_bytes : N) : PullResponse.t :=
  PullResponse.mk (PullRequest.protocol request)
    (map (pull_scope s row_limit budget_bytes) (PullRequest.scopes request)).

(** The compaction of a bootstrap: per row the entry with the greatest seq. *)
Definition keep_latest (latest : gmap RowKey (Z * Change.t)) (e : LogEntry.t) : gmap RowKey (Z * Change.t) :=
  let change := LogEntry.change e in
  let seq := Seq.get (LogEntry.seq e) in
  partial_alter (λ held, Some
    match held with
    | Some held => if held.1 <? seq then (seq, change) else held
    | None => (seq, change)
    end) (Change.entity change, Change.entity_id change) latest.

Fixpoint latest_from (guard : bool) (lg : list LogEntry.t) (ix : list nat) (latest : gmap RowKey (Z * Change.t))
    : gmap RowKey (Z * Change.t) :=
  match ix with
  | [] => latest
  | i :: r =>
      match lg !! i with
      | Some e =>
          if LogEntry.visible e then latest_from guard lg r (keep_latest latest e)
          else if guard then latest else latest_from guard lg r latest
      | None => latest
      end
  end.

Definition change_seq_le (a b : Change.t) : Prop := Seq.get (Change.seq a) ≤ Seq.get (Change.seq b).
#[export] Instance change_seq_le_dec (a b : Change.t) : base.Decision (change_seq_le a b).
Proof. unfold change_seq_le. solve_decision. Defined.

Definition bootstrap_candidates (s : Server) (scope : ScopeId.t) (after : Z) : list Change.t :=
  let latest := latest_from (commit_order_guard s) (log s) (indices s scope) ∅ in
  let live := filter (λ sc : Z * Change.t, after < sc.1 ∧ (Change.op sc.2 ≠ Delete ∨ 0 < after))
                (snd <$> btree_entries latest) in
  merge_sort change_seq_le (snd <$> live).

Definition bootstrap (s : Server) (request : BootstrapRequest.t) (budget_bytes : N) : BootstrapResponse.t :=
  let after := Cursor.get (BootstrapRequest.after request) in
  let scope := BootstrapRequest.scope request in
  let candidates := bootstrap_candidates s scope after in
  let cursor := unwrap_or (Cursor.new after) Cursor.START in
  let dg := ScopeDigest.to_hex (digest s scope) in
  let batch := unwrap_or (fill_batch scope cursor candidates false budget_bytes third dg)
    (Batch.mk scope [] cursor false hex_placeholder dg) in
  BootstrapResponse.mk (BootstrapRequest.protocol request) scope (Batch.changes batch)
    (Batch.next_cursor batch) (Batch.has_more batch) (Batch.checksum batch) (Batch.digest batch).

(** ** Writes *)

(** The seq a write takes, its row version, and the document it writes. *)
Definition take_seq (s : Server) : Seq.t := unwrap_or (Seq.new (next_seq s)) (Seq.mk (next_seq s)).
Definition version_of_seq (seq : Seq.t) : RowVersion.t :=
  unwrap_or (RowVersion.new (Seq.get seq)) (RowVersion.mk (Seq.get seq)).
Definition row_document (seq : Seq.t) : Value := object_of [("v", VNumber (PosInt (Seq.get seq)))].
Definition row_snapshot (seq : Seq.t) : Snapshot :=
  unwrap_or (Document_new (row_document seq)) (MkDocument (row_document seq)).
Definition derived_id (n : Z) : EntityId.t :=
  unwrap_or (EntityId.new ("row:" +:+ show n)) (EntityId.mk ("row:" +:+ show n)).

Definition index_entry (scope : ScopeId.t) (s : Server) : Server :=
  set_by_scope (partial_alter (λ ix, Some (default [] ix ++ [length (log s)])) scope) s.
Definition record_version (scope : ScopeId.t) (key : RowKey) (seq : Seq.t) (v : RowVersion.t) (s : Server) : Server :=
  set_row_history (partial_alter (λ h, Some
    (partial_alter (λ vs, Some (default [] vs ++ [(Seq.get seq, v)])) key (default ∅ h))) scope) s.
Definition set_row (scope : ScopeId.t) (key : RowKey) (v : RowVersion.t) (s : Server) : Server :=
  set_rows (partial_alter (λ m, Some (<[key := v]> (default ∅ m))) scope) s.

Definition upsert_change (seq : Seq.t) (entity : EntityName.t) (entity_id : EntityId.t) (v : RowVersion.t) : Change.t :=
  Change.mk seq entity entity_id Upsert (Some (row_snapshot seq)) v (SchemaVersion.mk 1).

Definition push_entry (seq : Seq.t) (scope : ScopeId.t) (entity : EntityName.t) (entity_id : EntityId.t)
    (row_version : RowVersion.t) (s : Server) : Server :=
  let s := index_entry scope s in
  let s := record_version scope (entity, entity_id) seq row_version s in
  let held := hold_next s in
  let s := set_hold_next 0 s in
  let s := if 0 <? held then set_in_flight (λ fl, fl ++ [(length (log s), held)]) s else s in
  set_log (λ lg, lg ++ [LogEntry.mk seq (upsert_change seq entity entity_id row_version) (held =? 0)]) s.

Definition append (scope : ScopeId.t) (entity : EntityName.t) (command : Command.t) (s : Server) : Server * Seq.t :=
  let seq := take_seq s in
  let s := set_next_seq (next_seq s + 1) s in
  let entity_id := derived_id (CommandId.byte_at 15 (CommandId.as_bytes (Command.id command)) mod 8) in
  let row_version := version_of_seq seq in
  let s := set_row scope (entity, entity_id) row_version s in
  (push_entry seq scope entity entity_id row_version s, seq).

Definition external_change (scope : ScopeId.t) (entity : EntityName.t) (s : Server) (rng : Rng.t) : Server * Rng.t :=
  let seq := take_seq s in
  let s := set_next_seq (next_seq s + 1) s in
  let '(rng, n) := Rng.below rng 8 in
  let entity_id := derived_id n in
  let row_version := version_of_seq seq in
  let s := set_row scope (entity, entity_id) row_version s in
  (push_entry seq scope entity entity_id row_version s, rng).

Definition external_change_to (scope : ScopeId.t) (entity : EntityName.t) (entity_id : string) (s : Server) : Server :=
  let seq := take_seq s in
  let s := set_next_seq (next_seq s + 1) s in
  match EntityId.new entity_id with
  | Err _ => s
  | Ok entity_id =>
      let row_version := version_of_seq seq in
      let s := set_row scope (entity, entity_id) row_version s in
      push_entry seq scope entity entity_id row_version s
  end.

Definition external_delete (scope : ScopeId.t) (entity : EntityName.t) (entity_id : string) (s : Server) : Server :=
  match EntityId.new entity_id with
  | Err _ => s
  | Ok entity_id =>
      let seq := take_seq s in
      let s := set_next_seq (next_seq s + 1) s in
      let row_version := version_of_seq seq in
      let s := set_rows (partial_alter (λ m, Some (delete (entity, entity_id) (default ∅ m))) scope) s in
      let change := Change.mk seq entity entity_id Delete None row_version (SchemaVersion.mk 1) in
      let s := index_entry scope s in
      let s := set_log (λ lg, lg ++ [LogEntry.mk seq change true]) s in
      record_version scope (entity, entity_id) seq row_version s
  end.

(** ** Commands *)

Definition record_outcome (id : CommandId.t) (checksum : HexString.t) (r : CommandResult.t) (s : Server) : Server :=
  set_dedupe (<[id := DedupeEntry.mk checksum r]>) s.

Definition rejected_result (command : Command.t) (reason : string) : CommandResult.t :=
  CommandResult.mk (Command.id command) Rejected (Some (unwrap_or (Reason.new reason) (Reason.mk reason))) None.

(** The host's part: a roll decides, and only an applied command writes. *)
Definition apply_fresh (entity : EntityName.t) (scope : ScopeId.t) (command : Command.t) (s : Server) (rng : Rng.t)
    : Server * Rng.t * CommandResult.t :=
  let '(rng, roll) := Rng.below rng 100 in
  if roll <? 80 then
    let '(s, seq) := append scope entity command s in
    (s, rng, CommandResult.mk (Command.id command) Applied None (Some seq))
  else if roll <? 90 then (s, rng, CommandResult.mk (Command.id command) Superseded None None)
  else (s, rng, rejected_result command "Submission deadline passed.").

Definition apply_command (command : Command.t) (s : Server) (rng : Rng.t) : Server * Rng.t * CommandResult.t :=
  let checksum := unwrap_or (payload_checksum (Command.payload command)) hex_placeholder in
  let id := Command.id command in
  let recorded :=
    (λ prior, Recorded.mk (HexString.as_str (DedupeEntry.checksum prior)) (DedupeEntry.result prior))
      <$> dedupe s !! id in
  match decide_replay command recorded with
  | Ok (Replay r) => (s, rng, r)
  | Ok (Mutated _ _) =>
      let r := CommandResult.mk id Rejected (Some mutated_reason) None in
      (record_outcome id checksum r s, rng, r)
  | Ok Fresh | Err _ =>
      match command_targets s !! CommandName.as_str (Command.name command) with
      | None =>
          let r := rejected_result command "Unknown command." in
          (record_outcome id checksum r s, rng, r)
      | Some (entity, scope) =>
          let '(s, rng, r) := apply_fresh entity scope command s rng in
          (record_outcome id checksum r s, rng, r)
      end
  end.

Fixpoint push_results (commands : list Command.t) (s : Server) (rng : Rng.t)
    : Server * Rng.t * list CommandResult.t :=
  match commands with
  | [] => (s, rng, [])
  | c :: cs =>
      let '(s, rng, r) := apply_command c s rng in
      let '(s, rng, rs) := push_results cs s rng in
      (s, rng, r :: rs)
  end.

Definition push_prefix (request : PushRequest.t) (accepted : nat) (s : Server) (rng : Rng.t)
    : Server * Rng.t * PushResponse.t :=
  let '(s, rng, results) := push_results (take accepted (PushRequest.commands request)) s rng in
  (s, rng, PushResponse.mk (PushRequest.protocol request) results).
Definition push (request : PushRequest.t) (s : Server) (rng : Rng.t) : Server * Rng.t * PushResponse.t :=
  push_prefix request (length (PushRequest.commands request)) s rng.
End server.
