(* ===== verification/SimServerFacts.v ===== *)
(** * SimServerFacts: the invariant of the simulated server, and what its index, its history
    and its walks say about the log. *)

From S2P Require Import Prelude Errors Nums Ids Json Wire Integrity Storage Apply.
From S2P Require Import Server Dedupe Rng SimServer.
From stdpp Require Import options.

(** ** Vocabulary *)

Definition seq_of (e : LogEntry.t) : Z := Seq.get (LogEntry.seq e).
Definition key_of (e : LogEntry.t) : RowKey := (Change.entity (LogEntry.change e), Change.entity_id (LogEntry.change e)).
Definition version_entry (e : LogEntry.t) : Z * RowVersion.t := (seq_of e, Change.row_version (LogEntry.change e)).

(** The entries of a scope, in log order. *)
Definition entries (s : Server) (scope : ScopeId.t) : list LogEntry.t := omap (λ i, log s !! i) (indices s scope).
Definition upto (s : Server) (scope : ScopeId.t) (c : Z) : list LogEntry.t :=
  filter (λ e, seq_of e ≤ c) (entries s scope).
Definition history (s : Server) (scope : ScopeId.t) : gmap RowKey RowVersions := default ∅ (row_history s !! scope).

Definition seq_lt (a b : LogEntry.t) : Prop := seq_of a < seq_of b.

(** An entry is the change of its own seq, at the version of its seq. *)
Definition entry_wf (e : LogEntry.t) : Prop :=
  Change.seq (LogEntry.change e) = LogEntry.seq e ∧
  Change.row_version (LogEntry.change e) = RowVersion.mk (seq_of e).

Record server_wf (s : Server) : Prop := MkServerWf {
  wf_sorted : StronglySorted seq_lt (log s);
  wf_range : Forall (λ e, 1 ≤ seq_of e < next_seq s ∧ entry_wf e) (log s);
  wf_next : 1 ≤ next_seq s;
  wf_indices : ∀ scope, StronglySorted lt (indices s scope) ∧ Forall (λ i, (i < length (log s))%nat) (indices s scope);
  wf_history : ∀ scope key, default [] (history s scope !! key) =
    version_entry <$> filter (λ e, key_of e = key) (entries s scope);
  wf_waiting : ∀ i e, log s !! i = Some e → LogEntry.visible e = false → ∃ n, (i, n) ∈ in_flight s;
  wf_flight : Forall (λ w, (w.1 < length (log s))%nat ∧ 1 ≤ w.2) (in_flight s);
  wf_held : 0 ≤ hold_next s;
}.

Lemma new_server_wf : server_wf new.
Proof.
  split; try constructor; try done; intros; constructor.
Qed.

(** ** Sorted lists and their partition points *)

Lemma filter_none {A} (P : A → Prop) `{!∀ x, base.Decision (P x)} (l : list A) :
  Forall (λ x, ¬ P x) l → filter P l = [].
Proof. induction 1; [done|]. by rewrite filter_cons_False. Qed.

Lemma partition_take {A} (f : A → Z) c (l : list A) :
  StronglySorted (λ x y, f x < f y) l →
  take (partition_point (λ x, f x <=? c) l) l = filter (λ x, f x ≤ c) l ∧
  drop (partition_point (λ x, f x <=? c) l) l = filter (λ x, c < f x) l.
Proof.
  induction 1 as [|x l Hs IH Hx]; [done|]. cbn [partition_point]. rewrite !filter_cons.
  destruct (Z.leb_spec (f x) c).
  - rewrite decide_True, decide_False by lia. cbn [take drop]. destruct IH as [-> ->]. done.
  - rewrite decide_False, decide_True by lia. cbn [take drop]. split.
    + symmetry. apply filter_none. eapply Forall_impl; [exact Hx|]. simpl. lia.
    + f_equal. symmetry. apply filter_all. eapply Forall_impl; [exact Hx|]. simpl. lia.
Qed.

Lemma partition_point_length {A} (p : A → bool) l : (partition_point p l ≤ length l)%nat.
Proof. induction l as [|x l IH]; simpl; [lia|]. destruct (p x); lia. Qed.

Lemma version_at_last vs c :
  StronglySorted (λ x y : Z * RowVersion.t, x.1 < y.1) vs →
  version_at vs c = snd <$> last (filter (λ v, v.1 ≤ c) vs).
Proof.
  intros Hs. destruct (partition_take fst c vs Hs) as [Ht _]. rewrite <- Ht. unfold version_at.
  pose proof (partition_point_length (λ v : Z * RowVersion.t, v.1 <=? c) vs) as Hl.
  destruct (partition_point _ vs) as [|n]; [done|]. simpl Nat.ltb. rewrite last_lookup.
  rewrite length_take, Nat.min_l by done. rewrite lookup_take, decide_True by lia. simpl.
  by rewrite Nat.sub_0_r.
Qed.

Lemma sorted_filter {A} (R : A → A → Prop) (P : A → Prop) `{!∀ x, base.Decision (P x)} l :
  StronglySorted R l → StronglySorted R (filter P l).
Proof.
  induction 1 as [|x l Hs IH Hx]; [constructor|]. rewrite filter_cons. case_decide; [|done].
  constructor; [done|]. apply Forall_forall. intros y [_ Hy]%list_elem_of_filter. rewrite Forall_forall in Hx. auto.
Qed.

Lemma sorted_fmap {A B} (R : B → B → Prop) (f : A → B) l :
  StronglySorted (λ x y, R (f x) (f y)) l → StronglySorted R (f <$> l).
Proof. induction 1 as [|x l Hs IH Hx]; constructor; [done|]. by apply Forall_fmap. Qed.

(** ** Entries *)

Lemma omap_lookup_bounded {A} (l : list A) ix :
  Forall (λ i, (i < length l)%nat) ix → Forall2 (λ i e, l !! i = Some e) ix (omap (λ i, l !! i) ix).
Proof.
  induction 1 as [|i ix Hi _ IH]; simpl; [constructor|].
  destruct (l !! i) as [e|] eqn:E; [by constructor|]. apply lookup_ge_None in E. lia.
Qed.

Lemma entries_lookup s scope :
  server_wf s → Forall2 (λ i e, log s !! i = Some e) (indices s scope) (entries s scope).
Proof. intros Hw. apply omap_lookup_bounded, (wf_indices s Hw scope). Qed.

Lemma strongly_sorted_lookup {A} (R : A → A → Prop) l i j x y :
  StronglySorted R l → l !! i = Some x → l !! j = Some y → (i < j)%nat → R x y.
Proof.
  intros Hs. revert i j. induction Hs as [|z l Hs IH Hz]; intros i j Hi Hj Hij; [done|].
  destruct j as [|j]; [lia|]. simpl in Hj. destruct i as [|i].
  - injection Hi as ->. rewrite Forall_forall in Hz. apply Hz. by eapply list_elem_of_lookup_2.
  - simpl in Hi. eapply IH; eauto. lia.
Qed.

Lemma entries_sorted s scope : server_wf s → StronglySorted seq_lt (entries s scope).
Proof.
  intros Hw. pose proof (entries_lookup s scope Hw) as Hf. destruct (wf_indices s Hw scope) as [Hs _].
  induction Hf as [|i e ix es Hi Hf IH]; [constructor|]. apply StronglySorted_inv in Hs as [Hs Hlt].
  constructor; [by apply IH|]. clear IH Hs. induction Hf as [|j e' ix es Hj _ IH]; constructor.
  - apply Forall_cons in Hlt as [Hlt _]. eapply strongly_sorted_lookup; eauto using wf_sorted.
  - apply Forall_cons in Hlt as [_ Hlt]. auto.
Qed.

Lemma entries_wf s scope :
  server_wf s → Forall (λ e, 1 ≤ seq_of e < next_seq s ∧ entry_wf e) (entries s scope).
Proof.
  intros Hw. pose proof (wf_range s Hw) as Hr. rewrite Forall_forall in Hr. apply Forall_forall. intros e He.
  apply list_elem_of_omap in He as (i & _ & Hi). apply Hr. by eapply list_elem_of_lookup_2.
Qed.

(** A server whose records are about the commands they are filed under. *)
Definition records_own (s : Server) : Prop := ∀ id d, dedupe s !! id = Some d → CommandResult.id (DedupeEntry.result d) = id.

(** No write waits for more commits than [n]. *)
Definition held_within (n : Z) (s : Server) : Prop := hold_next s ≤ n ∧ Forall (λ w, w.2 ≤ n) (in_flight s).

(** ** One more entry

    What every write does, whatever its kind: one entry at the end of the log, its index at the
    end of its scope's, its version at the end of its row's history. *)
Record added (scope : ScopeId.t) (e : LogEntry.t) (s s' : Server) : Prop := MkAdded {
  added_log : log s' = log s ++ [e];
  added_indices sc : indices s' sc = if decide (sc = scope) then indices s sc ++ [length (log s)] else indices s sc;
  added_history sc key : default [] (history s' sc !! key) =
    if decide (sc = scope ∧ key = key_of e) then default [] (history s sc !! key) ++ [version_entry e]
    else default [] (history s sc !! key);
  added_next : next_seq s' = next_seq s + 1;
  added_seq : seq_of e = next_seq s;
  added_wf : entry_wf e;
  added_held : 0 ≤ hold_next s';
  added_flight : ∃ n, 1 ≤ n ∧
    in_flight s' = in_flight s ++ (if LogEntry.visible e then [] else [(length (log s), n)]);
}.

Lemma omap_lookup_app {A} (l l' : list A) ix :
  Forall (λ i, (i < length l)%nat) ix → omap (λ i, (l ++ l') !! i) ix = omap (λ i, l !! i) ix.
Proof. induction 1 as [|i ix Hi _ IH]; [done|]. csimpl. rewrite lookup_app_l by done. by rewrite IH. Qed.

Lemma entries_added scope e s s' sc :
  server_wf s → added scope e s s' →
  entries s' sc = if decide (sc = scope) then entries s sc ++ [e] else entries s sc.
Proof.
  intros Hw Ha. unfold entries. rewrite (added_indices _ _ _ _ Ha), (added_log _ _ _ _ Ha).
  destruct (wf_indices s Hw sc) as [_ Hb]. case_decide; [|by apply omap_lookup_app].
  rewrite omap_app, omap_lookup_app by done. simpl. by rewrite lookup_app_r, Nat.sub_diag by lia.
Qed.

Lemma sorted_snoc {A} (R : A → A → Prop) l x :
  StronglySorted R l → Forall (λ y, R y x) l → StronglySorted R (l ++ [x]).
Proof.
  induction 1 as [|y l Hs IH Hy]; intros Hx; [repeat constructor|]. apply Forall_cons in Hx as [Hyx Hx].
  simpl. constructor; [by apply IH|]. apply Forall_app. by repeat constructor.
Qed.

Lemma added_server_wf scope e s s' : server_wf s → added scope e s s' → server_wf s'.
Proof.
  intros Hw Ha. pose proof (wf_range s Hw) as Hr. pose proof (wf_next s Hw) as Hn. pose proof (added_seq _ _ _ _ Ha) as Hs.
  split; rewrite ?(added_log _ _ _ _ Ha), ?(added_next _ _ _ _ Ha); try lia.
  - apply sorted_snoc; [apply Hw|]. eapply Forall_impl; [exact Hr|]. unfold seq_lt. simpl. lia.
  - apply Forall_app. split; [|constructor; [split; [lia|apply Ha]|done]].
    eapply Forall_impl; [exact Hr|]. simpl. intros x [? ?]. split; [lia|done].
  - intros sc. rewrite (added_indices _ _ _ _ Ha), length_app. destruct (wf_indices s Hw sc) as [H1 H2].
    assert (Forall (λ i, (i < length (log s) + length [e])%nat) (indices s sc)) as H3
      by (eapply Forall_impl; [exact H2|]; simpl; lia).
    case_decide; [|by split]. split; [by apply sorted_snoc|]. apply Forall_app. split; [done|]. repeat constructor. simpl. lia.
  - intros sc key. rewrite (added_history _ _ _ _ Ha), (entries_added _ _ _ _ _ Hw Ha), (wf_history s Hw).
    destruct (decide (sc = scope)) as [->|]; [|by rewrite decide_False by naive_solver].
    rewrite filter_app, fmap_app, filter_cons, filter_nil. destruct (decide (key = key_of e)) as [->|].
    + by rewrite !decide_True by done.
    + rewrite !decide_False by naive_solver. by rewrite app_nil_r.
  - intros i x Hi Hv. destruct (added_flight _ _ _ _ Ha) as (n & _ & Hf). rewrite Hf.
    apply lookup_app_Some in Hi as [Hi|[Hlen Hi]].
    + destruct (wf_waiting s Hw i x Hi Hv) as [m Hm]. exists m. apply elem_of_app. by left.
    + apply list_lookup_singleton_Some in Hi as [Hi ->]. exists n. apply elem_of_app. right. rewrite Hv.
      replace i with (length (log s)) by lia. by left.
  - destruct (added_flight _ _ _ _ Ha) as (n & Hn1 & Hf). rewrite Hf, length_app. apply Forall_app. split.
    + eapply Forall_impl; [apply Hw|]. simpl. lia.
    + destruct (LogEntry.visible e); repeat constructor; simpl; lia.
  - apply Ha.
Qed.

(** Operations that leave the log and what indexes it alone. *)
Lemma server_wf_ext s s' :
  server_wf s → log s' = log s → by_scope s' = by_scope s → row_history s' = row_history s →
  in_flight s' = in_flight s → next_seq s ≤ next_seq s' → 0 ≤ hold_next s' → server_wf s'.
Proof.
  intros [H1 H2 H3 H4 H5 H6 H7 H8] Hl Hb Hr Hf Hn Hh.
  unfold entries, indices, history in *. split; unfold entries, indices, history; rewrite ?Hl, ?Hb, ?Hr, ?Hf; try done; try lia.
  eapply Forall_impl; [exact H2|]. simpl. intros e [? ?]. split; [lia|done].
Qed.

Section facts.
Context `{Hashes} `{Codec}.

Lemma take_seq_get s : Seq.get (take_seq s) = next_seq s.
Proof. unfold take_seq. destruct (Seq.new _) eqn:E; [|done]. by apply Seq_new_ok in E as [-> _]. Qed.
Lemma version_of_seq_eq q : version_of_seq q = RowVersion.mk (Seq.get q).
Proof. unfold version_of_seq. destruct (RowVersion.new _) eqn:E; [|done]. by apply RowVersion_new_ok in E as [-> _]. Qed.

(** The entry a [push_entry] adds. *)
Definition pushed_entry (s : Server) (entity : EntityName.t) (entity_id : EntityId.t) : LogEntry.t :=
  LogEntry.mk (take_seq s) (upsert_change (take_seq s) entity entity_id (version_of_seq (take_seq s))) (hold_next s =? 0).

Lemma indices_added scope s sc n :
  default [] (partial_alter (λ ix, Some (default [] ix ++ [n])) scope (by_scope s) !! sc) =
  if decide (sc = scope) then indices s sc ++ [n] else indices s sc.
Proof.
  unfold indices. case_decide as Hd; [subst; by rewrite lookup_partial_alter_eq|].
  by rewrite lookup_partial_alter_ne by congruence.
Qed.

Lemma history_added scope key s q v sc key' :
  default [] (default ∅ (partial_alter (λ h, Some
    (partial_alter (λ vs, Some (default [] vs ++ [(q, v)])) key (default ∅ h))) scope (row_history s) !! sc) !! key') =
  if decide (sc = scope ∧ key' = key) then default [] (history s sc !! key') ++ [(q, v)]
  else default [] (history s sc !! key').
Proof.
  unfold history. destruct (decide (sc = scope)) as [->|]; [rewrite lookup_partial_alter_eq; simpl|].
  - destruct (decide (key' = key)) as [->|]; [by rewrite lookup_partial_alter_eq, decide_True|].
    rewrite lookup_partial_alter_ne, decide_False by naive_solver. done.
  - by rewrite lookup_partial_alter_ne, decide_False by naive_solver.
Qed.

(** Every write of an upsert is [push_entry] on a server whose live rows it has just changed. *)
Lemma push_entry_added scope entity entity_id f s :
  0 ≤ hold_next s →
  added scope (pushed_entry s entity entity_id) s
    (push_entry (take_seq s) scope entity entity_id (version_of_seq (take_seq s))
      (set_rows f (set_next_seq (next_seq s + 1) s))).
Proof.
  intros Hh. unfold push_entry, index_entry, record_version, pushed_entry. simpl.
  destruct (Z.ltb_spec 0 (hold_next s)), (Z.eqb_spec (hold_next s) 0); try lia; split; simpl; try done;
    try (intros; unfold indices at 1; simpl; apply indices_added); try (intros; unfold history at 1; simpl; apply history_added);
    try apply take_seq_get; try (split; [done|apply version_of_seq_eq]).
  - exists (hold_next s). split; [lia|done].
  - exists 1. by rewrite app_nil_r.
Qed.

Lemma external_delete_added scope entity entity_id i s :
  EntityId.new entity_id = Ok i → 0 ≤ hold_next s →
  added scope (LogEntry.mk (take_seq s) (Change.mk (take_seq s) entity i Delete None (version_of_seq (take_seq s))
      (SchemaVersion.mk 1)) true) s (external_delete scope entity entity_id s).
Proof.
  intros Hi Hh. unfold external_delete, index_entry, record_version. rewrite Hi. split; simpl; try done.
  - intros. unfold indices at 1. simpl. apply indices_added.
  - intros. unfold history at 1. simpl. apply history_added.
  - apply take_seq_get.
  - split; [done|apply version_of_seq_eq].
  - exists 1. by rewrite app_nil_r.
Qed.

(** ** Every operation keeps the invariant *)

Lemma append_wf scope entity c s : server_wf s → server_wf (append scope entity c s).1.
Proof. intros Hw. eapply added_server_wf; [done|]. apply push_entry_added, Hw. Qed.

Lemma external_change_wf scope entity s rng : server_wf s → server_wf (external_change scope entity s rng).1.
Proof.
  intros Hw. unfold external_change. destruct (Rng.below rng 8) as [rng' n].
  eapply added_server_wf; [done|]. apply push_entry_added, Hw.
Qed.

Lemma external_change_to_wf scope entity i s : server_wf s → server_wf (external_change_to scope entity i s).
Proof.
  intros Hw. unfold external_change_to. destruct (EntityId.new i).
  - eapply added_server_wf; [done|]. apply push_entry_added, Hw.
  - eapply server_wf_ext; simpl; try done; [lia|apply Hw].
Qed.

Lemma external_delete_wf scope entity i s : server_wf s → server_wf (external_delete scope entity i s).
Proof.
  intros Hw. destruct (EntityId.new i) as [x|e] eqn:E.
  - eapply added_server_wf; [done|]. apply external_delete_added; [done|apply Hw].
  - unfold external_delete. by rewrite E.
Qed.

Lemma record_outcome_wf id cs r s : server_wf s → server_wf (record_outcome id cs r s).
Proof. intros Hw. eapply server_wf_ext; try done; apply Hw. Qed.

Lemma apply_command_wf c s rng : server_wf s → server_wf (apply_command c s rng).1.1.
Proof.
  intros Hw. unfold apply_command. destruct (decide_replay _ _) as [[]|].
  2,3: simpl; auto using record_outcome_wf.
  all: destruct (command_targets s !! _) as [[entity scope]|]; [|by apply record_outcome_wf].
  all: unfold apply_fresh; destruct (Rng.below rng 100) as [rng' roll]; destruct (roll <? 80);
    [|destruct (roll <? 90); by apply record_outcome_wf].
  all: pose proof (append_wf scope entity c s Hw) as Ha; destruct (append _ _ _ _) as [s' q]; by apply record_outcome_wf.
Qed.

Lemma push_results_wf cs s rng : server_wf s → server_wf (push_results cs s rng).1.1.
Proof.
  revert s rng. induction cs as [|c cs IH]; intros s rng Hw; [done|]. simpl.
  pose proof (apply_command_wf c s rng Hw) as Hc. destruct (apply_command c s rng) as [[s1 rng1] r].
  specialize (IH s1 rng1 Hc). by destruct (push_results cs s1 rng1) as [[s2 rng2] rs].
Qed.

Lemma push_prefix_wf req n s rng : server_wf s → server_wf (push_prefix req n s rng).1.1.
Proof.
  intros Hw. unfold push_prefix. pose proof (push_results_wf (take n (PushRequest.commands req)) s rng Hw) as Hp.
  by destruct (push_results _ s rng) as [[s' rng'] rs].
Qed.
End facts.

(** ** Commits *)

(** The same entries, some of them newly visible. *)
Definition shown (a b : LogEntry.t) : Prop :=
  LogEntry.seq b = LogEntry.seq a ∧ LogEntry.change b = LogEntry.change a ∧
  (LogEntry.visible a = true → LogEntry.visible b = true).
#[export] Instance shown_preorder : PreOrder shown.
Proof. split; [by intros []|]. intros x y z (E1&E2&?) (F1&F2&?). split_and!; [congruence|congruence|auto]. Qed.

Lemma alter_shown i lg : Forall2 shown lg (alter show_entry i lg).
Proof.
  revert i. induction lg as [|e lg IH]; intros [|i]; constructor; try done; try apply IH.
Qed.

Definition later (w : nat * Z) : nat * Z := (w.1, w.2 - 1).

(** What [advance_commits]'s loop does: the writes that are due are shown, the others wait
    one step less. *)
Lemma commit_fold fl lg wait :
  let r := fold_left commit_turn fl (lg, wait) in
  r.2 = wait ++ (later <$> filter (λ w : nat * Z, 1 < w.2) fl) ∧ Forall2 shown lg r.1 ∧
  (∀ i n e, (i, n) ∈ fl → n ≤ 1 → r.1 !! i = Some e → LogEntry.visible e = true).
Proof.
  revert lg wait. induction fl as [|[i n] fl IH]; intros lg wait; cbn zeta; cbn [fold_left].
  { split_and!; [by rewrite app_nil_r|done|]. intros i n e Hin. by apply not_elem_of_nil in Hin. }
  unfold commit_turn at 2 4 6. rewrite filter_cons.
  destruct (Z.leb_spec n 1) as [Hn|Hn].
  - rewrite decide_False by (simpl; lia). destruct (IH (alter show_entry i lg) wait) as (Hw & Hs & Hv).
    split_and!; [done|etransitivity; [apply alter_shown|done]|].
    intros j m e [[= -> ->]|Hin]%elem_of_cons Hm He; [|by eapply Hv].
    apply Forall2_lookup_r with (i := i) (y := e) in Hs as (e0 & He0 & _ & _ & Hvis); [|done].
    apply Hvis. rewrite list_lookup_alter, decide_True in He0 by done. apply fmap_Some in He0 as (x & _ & ->). done.
  - rewrite decide_True by (simpl; lia). destruct (IH lg (wait ++ [(i, n - 1)])) as (Hw & Hs & Hv).
    split_and!; [by rewrite Hw, <- app_assoc|done|].
    intros j m e [[= -> ->]|Hin]%elem_of_cons Hm He; [lia|by eapply Hv].
Qed.

Lemma advance_commits_facts s :
  let s' := advance_commits s in
  in_flight s' = later <$> filter (λ w : nat * Z, 1 < w.2) (in_flight s) ∧ Forall2 shown (log s) (log s') ∧
  (∀ i n e, (i, n) ∈ in_flight s → n ≤ 1 → log s' !! i = Some e → LogEntry.visible e = true) ∧
  by_scope s' = by_scope s ∧ row_history s' = row_history s ∧ next_seq s' = next_seq s ∧ hold_next s' = hold_next s.
Proof.
  unfold advance_commits. pose proof (commit_fold (in_flight s) (log s) []) as (Hw & Hs & Hv).
  destruct (fold_left _ _ _) as [lg waiting]. by split_and!.
Qed.

(** As many rounds of commits as any write waits for settle the log. *)
Lemma commits_drain k s :
  Forall (λ w : nat * Z, w.2 ≤ Z.of_nat k) (in_flight s) → Forall (λ w : nat * Z, 1 ≤ w.2) (in_flight s) →
  in_flight (Nat.iter k advance_commits s) = [].
Proof.
  revert s. induction k as [|k IH]; intros s Hk H1.
  - destruct (in_flight s) as [|w l] eqn:E; [by rewrite <- E|]. apply Forall_cons in Hk as [Hk _], H1 as [H1 _]. lia.
  - rewrite Nat.iter_succ_r. destruct (advance_commits_facts s) as (Hf & _).
    apply IH; rewrite Hf; apply Forall_fmap, Forall_forall; intros w [Hw Hin]%list_elem_of_filter;
      rewrite Forall_forall in Hk, H1; specialize (Hk w Hin); unfold compose, later; simpl in *; lia.
Qed.

Lemma shown_lookup lg lg' i e : Forall2 shown lg lg' → lg' !! i = Some e → ∃ e0, lg !! i = Some e0 ∧ shown e0 e.
Proof. intros Hs He. destruct (Forall2_lookup_r _ _ _ _ _ Hs He) as (e0 & ? & ?). by exists e0. Qed.

Lemma shown_entry e e' : shown e e' → seq_of e' = seq_of e ∧ key_of e' = key_of e ∧ version_entry e' = version_entry e ∧
  (entry_wf e → entry_wf e').
Proof. unfold seq_of, key_of, version_entry, entry_wf, seq_of. intros (Hs & Hc & _). by rewrite Hs, Hc. Qed.

Lemma shown_entries s s' scope :
  Forall2 shown (log s) (log s') → by_scope s' = by_scope s → Forall2 shown (entries s scope) (entries s' scope).
Proof.
  intros Hs Hb. unfold entries, indices. rewrite Hb. induction (default [] (by_scope s !! scope)) as [|i ix IH]; [constructor|].
  csimpl. pose proof (proj1 (Forall2_lookup _ _ _) Hs i) as Hi. inversion Hi; [by constructor|done].
Qed.

Lemma filter_shown (P : LogEntry.t → Prop) `{!∀ x, base.Decision (P x)} l l' :
  (∀ a b, shown a b → P a ↔ P b) → Forall2 shown l l' → Forall2 shown (filter P l) (filter P l').
Proof.
  intros HP. induction 1 as [|a b l l' Hab _ IH]; [constructor|]. rewrite !filter_cons.
  pose proof (HP a b Hab). repeat case_decide; try tauto. by constructor.
Qed.

Lemma advance_commits_wf s : server_wf s → server_wf (advance_commits s).
Proof.
  intros Hw. destruct (advance_commits_facts s) as (Hf & Hs & Hv & Hb & Hr & Hn & Hh).
  pose proof (Forall2_length _ _ _ Hs) as Hlen.
  split; unfold indices, history; rewrite ?Hb, ?Hr, ?Hn, ?Hh, <- ?Hlen; try apply Hw.
  - pose proof (wf_sorted s Hw) as Hso. clear -Hs Hso. induction Hs as [|a b l l' Hab Hs IH]; [constructor|].
    apply StronglySorted_inv in Hso as [Hso Ha]. constructor; [auto|]. clear IH Hso.
    induction Hs as [|c d l l' Hcd Hs IH]; constructor; apply Forall_cons in Ha as [Hac Ha]; [|auto].
    unfold seq_lt in *. destruct (shown_entry _ _ Hab) as [-> _], (shown_entry _ _ Hcd) as [-> _]. done.
  - apply Forall_forall. intros e (i & Hi)%list_elem_of_lookup_1. destruct (shown_lookup _ _ _ _ Hs Hi) as (e0 & He0 & Hsh).
    destruct (shown_entry _ _ Hsh) as (-> & _ & _ & Hwf). pose proof (wf_range s Hw) as Hr0. rewrite Forall_forall in Hr0.
    destruct (Hr0 e0); [by eapply list_elem_of_lookup_2|]. auto.
  - intros scope key. fold (history s scope). rewrite (wf_history s Hw).
    assert (Forall2 shown (filter (λ e, key_of e = key) (entries s scope)) (filter (λ e, key_of e = key) (entries (advance_commits s) scope))) as Hfe.
    { apply filter_shown; [|by apply shown_entries]. intros a b Hab. destruct (shown_entry _ _ Hab) as (_ & -> & _). done. }
    induction Hfe as [|a b l l' Hab _ IH]; [done|]. csimpl. destruct (shown_entry _ _ Hab) as (_ & _ & -> & _). by rewrite IH.
  - intros i e Hi Hvis. destruct (shown_lookup _ _ _ _ Hs Hi) as (e0 & He0 & _ & _ & Hsh).
    assert (LogEntry.visible e0 = false) as Hv0 by (destruct (LogEntry.visible e0); [by rewrite Hsh in Hvis|done]).
    destruct (wf_waiting s Hw i e0 He0 Hv0) as [n Hin]. exists (n - 1). rewrite Hf. apply list_elem_of_fmap.
    exists (i, n). split; [done|]. apply list_elem_of_filter. split; [|done]. simpl.
    destruct (Z.leb_spec n 1); [|lia]. rewrite (Hv i n e) in Hvis; done.
  - rewrite Hf. apply Forall_fmap. pose proof (wf_flight s Hw) as Hfl. rewrite Forall_forall in *. unfold compose, later.
    intros w [Hw1 Hin]%list_elem_of_filter. specialize (Hfl w Hin). simpl. lia.
Qed.

(** ** The server as a state machine *)

Section steps.
Context `{Hashes} `{Codec}.

Inductive server_step : Server → Server → Prop :=
| step_register name entity scope s : server_step s (register_command name entity scope s)
| step_hold delay s : 0 ≤ delay → server_step s (hold_next_write delay s)
| step_commits s : server_step s (advance_commits s)
| step_restart s : server_step s (restart_cold s)
| step_guard b s : server_step s (set_commit_order_guard b s)
| step_push req n s rng : server_step s (push_prefix req n s rng).1.1
| step_change scope entity s rng : server_step s (external_change scope entity s rng).1
| step_change_to scope entity i s : server_step s (external_change_to scope entity i s)
| step_delete scope entity i s : server_step s (external_delete scope entity i s).

Lemma server_step_wf s s' : server_step s s' → server_wf s → server_wf s'.
Proof.
  intros Hs Hw. destruct Hs.
  - eapply server_wf_ext; try done; apply Hw.
  - eapply server_wf_ext; try done. simpl. destruct (delay =? 0); lia.
  - by apply advance_commits_wf.
  - eapply server_wf_ext; try done; apply Hw.
  - eapply server_wf_ext; try done; apply Hw.
  - by apply push_prefix_wf.
  - by apply external_change_wf.
  - by apply external_change_to_wf.
  - by apply external_delete_wf.
Qed.

Lemma server_run_wf s : rtc server_step new s → server_wf s.
Proof. revert s. apply rtc_ind_r; [apply new_server_wf|]. intros x y _ Hs Hw. by eapply server_step_wf. Qed.
End steps.
