(* ===== verification/SimReads.v ===== *)
(** * SimReads: what the simulated server's reads say about its log. *)

From S2P Require Import Prelude Errors Nums Ids Json Wire Integrity Storage Apply.
From S2P Require Import Server Dedupe Rng SimServer SimServerFacts.
From stdpp Require Import options.

(** ** Versions

    [counted] is what the row history makes of a list of entries: every entry of a row, deletes
    included, leaves the row at its version. *)
Definition counted (es : list LogEntry.t) : LiveRows :=
  fold_left (λ m e, <[key_of e := Change.row_version (LogEntry.change e)]> m) es ∅.
(** What a device that applies the entries holds. *)
Definition replayed (es : list LogEntry.t) : LiveRows := rows_effect (LogEntry.change <$> es) ∅.
Definition no_deletes (es : list LogEntry.t) : Prop := Forall (λ e, Change.op (LogEntry.change e) = Upsert) es.

Lemma replayed_app es es' : replayed (es ++ es') = rows_effect (LogEntry.change <$> es') (replayed es).
Proof. unfold replayed, rows_effect. by rewrite fmap_app, fold_left_app. Qed.

Lemma replayed_counted es : no_deletes es → replayed es = counted es.
Proof.
  unfold replayed, counted, rows_effect. generalize (∅ : LiveRows) as m. intros m Hd. revert m.
  induction Hd as [|e es He _ IH]; intros m; [done|]. csimpl. rewrite IH. unfold row_effect. by rewrite He.
Qed.

Lemma counted_lookup es k :
  counted es !! k = snd <$> last (version_entry <$> filter (λ e, key_of e = k) es).
Proof.
  unfold counted. induction es as [|e es IH] using rev_ind; [done|].
  rewrite fold_left_app, filter_app, fmap_app, filter_cons, filter_nil. simpl.
  destruct (decide (key_of e = k)) as [<-|Hne]; simpl.
  - by rewrite lookup_insert_eq, last_snoc.
  - by rewrite lookup_insert_ne, app_nil_r.
Qed.

Lemma filter_swap {A} (P Q : A → Prop) `{!∀ x, base.Decision (P x), !∀ x, base.Decision (Q x)} (l : list A) :
  filter P (filter Q l) = filter Q (filter P l).
Proof. rewrite !list_filter_filter. apply list_filter_iff. tauto. Qed.

Lemma history_version s scope k c :
  server_wf s → version_at (default [] (history s scope !! k)) c = counted (upto s scope c) !! k.
Proof.
  intros Hw. rewrite (wf_history s Hw), counted_lookup, version_at_last.
  - unfold upto. rewrite list_filter_fmap, filter_swap. done.
  - apply (sorted_fmap (λ x y : Z * RowVersion.t, x.1 < y.1) version_entry), sorted_filter, (entries_sorted s scope Hw).
Qed.

Lemma row_version_at_spec s scope e i c :
  server_wf s → row_version_at s scope e i c = counted (upto s scope c) !! (e, i).
Proof.
  intros Hw. rewrite <- history_version by done. unfold row_version_at, history.
  destruct (row_history s !! scope) as [h|]; simpl; [|by rewrite lookup_empty].
  by destruct (h !! (e, i)).
Qed.

(** ** The reference rows and the digest *)

Lemma btree_entries_perm {A} (m : gmap RowKey A) : btree_entries m ≡ₚ map_to_list m.
Proof. apply merge_sort_Permutation. Qed.

Lemma omap_keys {A B} (f : A → option B) (l : list (RowKey * A)) :
  NoDup l.*1 → NoDup (omap (λ '((e, i), x), v ← f x; Some (e, i, v)) l) ∧
  ∀ k v, (k, v) ∈ omap (λ '((e, i), x), v ← f x; Some (e, i, v)) l ↔ ∃ x, (k, x) ∈ l ∧ f x = Some v.
Proof.
  induction l as [|[[e i] x] l IH]; csimpl; intros Hnd.
  { split; [constructor|]. intros k v. split; [by intros ?%not_elem_of_nil|by intros (? & ?%not_elem_of_nil & _)]. }
  apply NoDup_cons in Hnd as [Hni Hnd]. destruct (IH Hnd) as [Hn Hin]. clear IH.
  destruct (f x) as [v0|] eqn:Hf; simpl.
  - split.
    + constructor; [|done]. intros (x' & Hx & _)%Hin. apply Hni, list_elem_of_fmap. by exists (e, i, x').
    + intros k v. rewrite elem_of_cons, Hin. split.
      * intros [[= -> ->]|(y & ? & ?)]; [exists x; split; [by left|done]|exists y; split; [by right|done]].
      * intros (y & [[= -> ->]|Hy]%elem_of_cons & Hy'); [left; congruence|right; eauto].
  - split; [done|]. intros k v. rewrite Hin. split.
    + intros (y & ? & ?). exists y. split; [by right|done].
    + intros (y & [[= -> ->]|Hy]%elem_of_cons & Hy'); [congruence|eauto].
Qed.

Lemma rows_at_perm s scope c : server_wf s → rows_at s scope c ≡ₚ map_to_list (counted (upto s scope c)).
Proof.
  intros Hw. assert (Hr : rows_at s scope c =
    omap (λ '((e, i), vs), v ← version_at vs c; Some (e, i, v)) (btree_entries (history s scope))).
  { unfold rows_at, history. by destruct (row_history s !! scope). }
  rewrite Hr. pose proof (btree_entries_perm (history s scope)) as Hp.
  destruct (omap_keys (λ vs, version_at vs c) (btree_entries (history s scope))) as [Hnd Hin].
  { rewrite Hp. apply NoDup_fst_map_to_list. }
  apply NoDup_Permutation; [done|apply NoDup_map_to_list|]. intros [k v].
  rewrite Hin, elem_of_map_to_list, <- history_version by done. setoid_rewrite Hp. setoid_rewrite elem_of_map_to_list.
  split.
  - intros (x & -> & Hv). done.
  - destruct (history s scope !! k) as [x|]; [by exists x|discriminate].
Qed.

Lemma digest_spec `{Hashes} s scope :
  server_wf s → digest s scope = map_digest (counted (upto s scope (visible_head s scope))).
Proof.
  intros Hw. unfold digest, map_digest. apply from_rows_perm. rewrite rows_at_perm by done.
  induction (map_to_list _) as [|[[e i] v] l IH]; [done|]. csimpl. by constructor.
Qed.

(** ** Walks *)

(** The entries before the first that is not visible. *)
Fixpoint seen (es : list LogEntry.t) : list LogEntry.t :=
  match es with
  | [] => []
  | e :: r => if LogEntry.visible e then e :: seen r else []
  end.

Lemma seen_prefix es : ∃ rest, es = seen es ++ rest ∧ Forall (λ e, LogEntry.visible e = true) (seen es) ∧
  match rest with [] => True | e :: _ => LogEntry.visible e = false end.
Proof.
  induction es as [|e es (rest & IH & Hv & Hr)]; [by exists []|]. simpl. destruct (LogEntry.visible e) eqn:E.
  - exists rest. split_and!; [by rewrite IH at 1|by constructor|done].
  - by exists (e :: es).
Qed.

Lemma walk_guarded lg ix es :
  Forall2 (λ i e, lg !! i = Some e) ix es → walk true lg ix = LogEntry.change <$> seen es.
Proof.
  induction 1 as [|i e ix es Hi _ IH]; [done|]. cbn [walk seen]. rewrite Hi. destruct (LogEntry.visible e); [|done].
  csimpl. by rewrite IH.
Qed.

Lemma head_from_seen lg ix es h :
  Forall2 (λ i e, lg !! i = Some e) ix es → head_from lg ix h = default h (seq_of <$> last (seen es)).
Proof.
  intros Hf. revert h. induction Hf as [|i e ix es Hi _ IH]; intros h; [done|]. cbn [head_from seen]. rewrite Hi.
  destruct (LogEntry.visible e); [|done]. rewrite IH. rewrite last_cons. by destruct (last (seen es)).
Qed.

Lemma visible_head_seen s scope :
  server_wf s → visible_head s scope = default 0 (seq_of <$> last (seen (entries s scope))).
Proof. intros Hw. by apply head_from_seen, entries_lookup. Qed.

Lemma past_entries s scope c :
  server_wf s → Forall2 (λ i e, log s !! i = Some e) (past s scope c) (filter (λ e, c < seq_of e) (entries s scope)).
Proof.
  intros Hw. pose proof (entries_lookup s scope Hw) as Hf.
  destruct (partition_take seq_of c (entries s scope) (entries_sorted s scope Hw)) as [_ <-]. unfold past.
  set (p := λ i, match seq_at (log s) i with Some q => q <=? c | None => false end).
  assert (partition_point p (indices s scope) = partition_point (λ e, seq_of e <=? c) (entries s scope)) as ->.
  { induction Hf as [|i e ix es Hi _ IH]; [done|]. cbn [partition_point]. unfold p at 1, seq_at. rewrite Hi. simpl.
    fold (seq_of e). destruct (seq_of e <=? c); [by rewrite IH|done]. }
  by apply Forall2_drop.
Qed.

(** Sorted entries: a prefix is what lies at or below its last. *)
Lemma sorted_prefix (es rest : list LogEntry.t) e :
  StronglySorted seq_lt (es ++ rest) → last es = Some e → es = filter (λ x, seq_of x ≤ seq_of e) (es ++ rest).
Proof.
  intros Hs Hl. apply last_Some in Hl as [es' ->]. rewrite <- app_assoc in *. simpl in *.
  assert (Forall (λ x, seq_of x < seq_of e) es' ∧ Forall (λ x, seq_of e < seq_of x) rest) as [H1 H2].
  { induction es' as [|x es' IH]; simpl in Hs; apply StronglySorted_inv in Hs as [Hs Hx]; [by split|].
    destruct (IH Hs) as [H1 H2]. split; [|done]. constructor; [|done]. rewrite Forall_forall in Hx.
    apply Hx, elem_of_app. right. by left. }
  rewrite filter_app, filter_cons, decide_True by lia. rewrite filter_all, filter_none; [done| |].
  - eapply Forall_impl; [exact H2|]. simpl. lia.
  - eapply Forall_impl; [exact H1|]. simpl. lia.
Qed.

Lemma filter_between s scope c c' :
  filter (λ e, seq_of e ≤ c') (filter (λ e, c < seq_of e) (entries s scope)) =
  filter (λ e, c < seq_of e ≤ c') (entries s scope).
Proof. rewrite list_filter_filter. apply list_filter_iff. intros e. lia. Qed.

(** What is held up to a later cursor: what is held up to the earlier one, then the rest. *)
Lemma upto_split s scope c c' :
  server_wf s → c ≤ c' → upto s scope c' = upto s scope c ++ filter (λ e, c < seq_of e ≤ c') (entries s scope).
Proof.
  intros Hw Hc. unfold upto. rewrite <- filter_between.
  destruct (partition_take seq_of c (entries s scope) (entries_sorted s scope Hw)) as [H1 H2].
  rewrite <- H1, <- H2 at 1. rewrite <- (take_drop (partition_point (λ x, seq_of x <=? c) (entries s scope)) (entries s scope)) at 1.
  rewrite filter_app. f_equal. rewrite H1. apply filter_all, Forall_forall.
  intros e [He _]%list_elem_of_filter. lia.
Qed.

Lemma upto_below s scope c : server_wf s → c < 1 → upto s scope c = [].
Proof.
  intros Hw Hc. apply filter_none. eapply Forall_impl; [exact (entries_wf s scope Hw)|]. simpl. lia.
Qed.

(** ** One batch of a pull *)

Section batch.
Context `{Hashes} `{Codec}.

Lemma fill_loop_prefix {ZC} `{!Compressor ZC} (compressor : ZC) budget cands chosen buf chosen' buf' :
  fill_loop compressor budget cands chosen buf = Ok (chosen', buf') →
  ∃ n, chosen' = chosen ++ take n cands ∧ (cands ≠ [] → chosen = [] → (0 < n)%nat).
Proof.
  revert chosen buf. induction cands as [|c cands IH]; intros chosen buf; cbn [fill_loop].
  { intros [= <- <-]. exists 0%nat. by rewrite app_nil_r. }
  destruct (to_vec c) as [one|]; simpl; [|done]. destruct (_ && _) eqn:Hstop.
  - intros [= <- <-]. exists 0%nat. rewrite take_0, app_nil_r. split; [done|]. intros _ ->.
    by rewrite andb_false_r in Hstop.
  - intros (n & -> & _)%IH. exists (S n). cbn [take]. rewrite <- app_assoc. split; [done|lia].
Qed.

(** A filled batch is a prefix of its candidates and its cursor is the last of them, and when
    it cannot be filled the fallback is the empty one. *)
Lemma filled_prefix scope cursor cands more budget dg cs :
  let b := unwrap_or (fill_batch scope cursor cands more budget third dg) (Batch.mk scope [] cursor more cs dg) in
  ∃ n, Batch.changes b = take n cands ∧ Batch.scope b = scope ∧ Batch.digest b = dg ∧
    Batch.next_cursor b = match last (take n cands) with
                          | Some c => unwrap_or (Cursor.new (Seq.get (Change.seq c))) cursor
                          | None => cursor end ∧
    (is_ok (fill_batch scope cursor cands more budget third dg) = true → cands ≠ [] → (0 < n)%nat).
Proof.
  unfold fill_batch. destruct (fill_loop third budget cands [] [91; 93]) as [[chosen buf]|e] eqn:Hl; simpl.
  - apply fill_loop_prefix in Hl as (n & -> & Hn). rewrite app_nil_l. destruct (batch_checksum _); simpl.
    + exists n. split_and!; auto.
    + exists 0%nat. rewrite take_0. by split_and!.
  - exists 0%nat. rewrite take_0. by split_and!.
Qed.

(** The seqs a server has handed out are seqs: what [Seq::new] would refuse is past them. *)
Definition seqs_fit (s : Server) : Prop := next_seq s ≤ SEQ_MAX + 1.

Lemma seen_between es : ∀ n, ∃ rest, es = take n (seen es) ++ rest ∧ Forall (λ e, LogEntry.visible e = true) (take n (seen es)).
Proof.
  intros n. destruct (seen_prefix es) as (rest & He & Hv & _). exists (drop n (seen es) ++ rest).
  rewrite app_assoc, take_drop. split; [done|]. by apply Forall_take.
Qed.

(** A guarded pull hands over exactly the entries between the cursor asked for and the cursor
    it answers with, and all of them are committed. *)
Lemma guarded_pull s limit budget scope cursor :
  server_wf s → seqs_fit s → commit_order_guard s = true → Cursor.wf cursor →
  let b := pull_scope s limit budget (ScopeCursor.mk scope cursor) in
  let delivered := filter (λ e, Cursor.get cursor < seq_of e ≤ Cursor.get (Batch.next_cursor b)) (entries s scope) in
  Batch.changes b = LogEntry.change <$> delivered ∧ Forall (λ e, LogEntry.visible e = true) delivered ∧
  Cursor.get cursor ≤ Cursor.get (Batch.next_cursor b) ∧ Cursor.wf (Batch.next_cursor b) ∧
  (Batch.next_cursor b = cursor ∨ ∃ e, e ∈ entries s scope ∧ seq_of e = Cursor.get (Batch.next_cursor b)).
Proof.
  intros Hw Hfit Hg Hc. unfold pull_scope. cbn [ScopeCursor.scope ScopeCursor.cursor].
  rewrite Hg, (walk_guarded _ _ _ (past_entries s scope (Cursor.get cursor) Hw)).
  assert (unwrap_or (Cursor.new (Cursor.get cursor)) Cursor.START = cursor) as ->.
  { unfold Cursor.new. destruct Hc. destruct (Z.ltb_spec SEQ_MAX (Cursor.get cursor)); [lia|]. by destruct cursor. }
  set (P := filter (λ e, Cursor.get cursor < seq_of e) (entries s scope)).
  set (more := (_ <? _)%nat).
  destruct (filled_prefix scope cursor (take limit (LogEntry.change <$> seen P)) more budget (ScopeDigest.to_hex (digest s scope)) hex_placeholder)
    as (n & Hch & _ & _ & Hnext & _). cbv zeta. rewrite Hch, Hnext, take_take, <- fmap_take, fmap_last. clear Hch Hnext.
  destruct (seen_between P (n `min` limit)%nat) as (rest & HP & Hvis). set (T := take _ (seen P)) in *.
  assert (StronglySorted seq_lt P) as Hs by by apply sorted_filter, entries_sorted.
  destruct (last T) as [e|] eqn:Hl; simpl.
  - assert (e ∈ P) as He by (rewrite HP; apply elem_of_app; left; by apply last_Some_elem_of).
    apply list_elem_of_filter in He as [Hce He]. pose proof (entries_wf s scope Hw) as Hr. rewrite Forall_forall in Hr.
    destruct (Hr e He) as [Hse [Hseq _]]. unfold seqs_fit in Hfit.
    assert (Seq.wf (Change.seq (LogEntry.change e))) as Hswf.
    { rewrite Hseq. unfold Seq.wf. unfold seq_of in *. change SEQ_MIN with 1. lia. }
    rewrite Cursor_new_seq by done. simpl. rewrite Hseq. fold (seq_of e).
    assert (filter (λ x, Cursor.get cursor < seq_of x ≤ seq_of e) (entries s scope) = T) as ->.
    { rewrite <- filter_between. fold P. rewrite HP in Hs |- *. by rewrite <- (sorted_prefix _ _ e Hs Hl). }
    split_and!; [done|done|lia| |right; by exists e]. unfold Cursor.wf in *. simpl. unfold seq_of in *. change CURSOR_START with 0 in *. lia.
  - apply last_None in Hl. rewrite Hl. rewrite filter_none by (apply Forall_forall; intros; lia).
    split_and!; try done. by left.
Qed.

(** Nothing at or under the visible head is uncommitted, and the head is an entry. *)
Lemma visible_head_spec s scope :
  server_wf s →
  (∀ e, e ∈ entries s scope → seq_of e ≤ visible_head s scope → LogEntry.visible e = true) ∧
  (visible_head s scope = 0 ∨ ∃ e, e ∈ entries s scope ∧ seq_of e = visible_head s scope).
Proof.
  intros Hw. rewrite visible_head_seen by done. destruct (seen_prefix (entries s scope)) as (rest & He & Hv & _).
  pose proof (entries_sorted s scope Hw) as Hs. pose proof (entries_wf s scope Hw) as Hr. rewrite Forall_forall in Hr, Hv.
  destruct (last (seen (entries s scope))) as [x|] eqn:Hl; simpl.
  - split; [|right; exists x; split; [|done]; rewrite He; apply elem_of_app; left; by apply last_Some_elem_of].
    intros e Hin Hle. apply Hv. rewrite (sorted_prefix _ rest x); [|by rewrite <- He|done]. rewrite <- He.
    by apply list_elem_of_filter.
  - split; [|by left]. intros e Hin Hle. destruct (Hr e Hin). lia.
Qed.

(** The entries a guarded pull has to choose from. *)
Abbreviation open_entries s scope c := (seen (filter (λ e, c < seq_of e) (entries s scope))).

Lemma open_entries_elem s scope c limit x :
  x ∈ take limit (LogEntry.change <$> open_entries s scope c) → ∃ e, e ∈ entries s scope ∧ x = LogEntry.change e.
Proof.
  intros (i & Hi & _)%elem_of_take. apply list_elem_of_lookup_2, list_elem_of_fmap in Hi as (e & -> & He).
  exists e. split; [|done]. destruct (seen_prefix (filter (λ e, c < seq_of e) (entries s scope))) as (rest & HP & _).
  assert (e ∈ filter (λ e, c < seq_of e) (entries s scope)) as HeP by (rewrite HP; apply elem_of_app; by left).
  by apply list_elem_of_filter in HeP as [_ ?].
Qed.

Lemma open_entries_nonempty s scope c :
  server_wf s → 0 ≤ c < visible_head s scope → open_entries s scope c ≠ [].
Proof.
  intros Hw Hc. destruct (visible_head_spec s scope Hw) as [Hvis [Hz|(x & Hx & Hxh)]]; [lia|].
  assert (StronglySorted seq_lt (filter (λ e, c < seq_of e) (entries s scope))) as Hs by by apply sorted_filter, entries_sorted.
  assert (x ∈ filter (λ e, c < seq_of e) (entries s scope)) as HxP by (apply list_elem_of_filter; split; [lia|done]).
  destruct (filter _ _) as [|y P'] eqn:EP; [by apply not_elem_of_nil in HxP|].
  assert (y ∈ filter (λ e, c < seq_of e) (entries s scope)) as [_ Hy]%list_elem_of_filter by (rewrite EP; by left).
  simpl. rewrite Hvis; [done..|]. apply StronglySorted_inv in Hs as [_ Hs]. rewrite Forall_forall in Hs.
  apply elem_of_cons in HxP as [->|HxP]; [lia|]. specialize (Hs x HxP). unfold seq_lt in Hs. lia.
Qed.

(** And it moves: while something committed lies past the cursor, a pull that can encode its
    changes hands over at least one. *)
Lemma guarded_pull_moves `{!CodecArrays} s limit budget scope cursor :
  server_wf s → seqs_fit s → commit_order_guard s = true → Cursor.wf cursor → (0 < limit)%nat →
  Forall (λ e, encodable (LogEntry.change e)) (entries s scope) →
  Cursor.get cursor < visible_head s scope →
  Cursor.get cursor < Cursor.get (Batch.next_cursor (pull_scope s limit budget (ScopeCursor.mk scope cursor))).
Proof.
  intros Hw Hfit Hg Hc Hlim Henc Hhead.
  destruct (guarded_pull s limit budget scope cursor Hw Hfit Hg Hc) as (Hch & _ & Hle & _ & _).
  destruct (Z.eq_dec (Cursor.get cursor) (Cursor.get (Batch.next_cursor (pull_scope s limit budget (ScopeCursor.mk scope cursor)))))
    as [Heq|]; [|lia]. exfalso. rewrite filter_none in Hch by (apply Forall_forall; intros; lia).
  revert Hch. unfold pull_scope. cbn [ScopeCursor.scope ScopeCursor.cursor].
  rewrite Hg, (walk_guarded _ _ _ (past_entries s scope (Cursor.get cursor) Hw)). set (more := (_ <? _)%nat).
  destruct (filled_prefix scope (unwrap_or (Cursor.new (Cursor.get cursor)) Cursor.START)
    (take limit (LogEntry.change <$> open_entries s scope (Cursor.get cursor))) more
    budget (ScopeDigest.to_hex (digest s scope)) hex_placeholder) as (n & -> & _ & _ & _ & Hn).
  assert (Hne : take limit (LogEntry.change <$> open_entries s scope (Cursor.get cursor)) ≠ []).
  { pose proof (open_entries_nonempty s scope (Cursor.get cursor) Hw) as Hne.
    destruct Hc. change CURSOR_START with 0 in *. destruct (open_entries _ _ _); [by destruct Hne; [lia|]|].
    by destruct limit; [lia|]. }
  assert (0 < n)%nat as Hpos.
  { apply Hn; [|done]. edestruct (fill_batch_ok scope) as (dn & rest & encs & b & -> & _); [| |done].
    - apply Forall_forall. intros c (e & He & ->)%open_entries_elem. rewrite Forall_forall in Henc. by apply Henc.
    - apply Forall_forall. intros c (e & He & ->)%open_entries_elem. pose proof (entries_wf s scope Hw) as Hr.
      rewrite Forall_forall in Hr. destruct (Hr e He) as [Hse [Hseq _]]. rewrite Hseq.
      unfold Seq.wf, seqs_fit, seq_of in *. change SEQ_MIN with 1. lia. }
  destruct n; [lia|]. by destruct (take limit _).
Qed.
End batch.
