(* ===== verification/SimFeed.v ===== *)
(** * SimFeed: a device fed by the simulated server, while the server goes on.

    The log only grows: a later server has the entries of an earlier one, some newly visible,
    and after them entries whose seqs the earlier one had not handed out. *)

From S2P Require Import Prelude Errors Nums Ids Json Wire Integrity Storage Apply.
From S2P Require Import Server Dedupe Rng SimServer SimServerFacts SimReads.
From stdpp Require Import options.

Definition grows (s s' : Server) : Prop :=
  next_seq s ≤ next_seq s' ∧ ∀ scope, ∃ old newer, entries s' scope = old ++ newer ∧
    Forall2 shown (entries s scope) old ∧ Forall (λ e, next_seq s ≤ seq_of e) newer.

#[export] Instance grows_preorder : PreOrder grows.
Proof.
  split.
  - intros s. split; [done|]. intros scope. exists (entries s scope), []. rewrite app_nil_r. split_and!; [done| |constructor].
    by induction (entries s scope); constructor.
  - intros x y z [Hn Hs] [Hn' Hs']. split; [lia|]. intros scope.
    destruct (Hs scope) as (old & newer & He & Ho & Hnew), (Hs' scope) as (old' & newer' & He' & Ho' & Hnew').
    rewrite He in Ho'. apply Forall2_app_inv_l in Ho' as (o1 & o2 & H1 & H2 & ->). rewrite <- app_assoc in He'.
    exists o1, (o2 ++ newer'). split_and!; [done|by etransitivity|]. apply Forall_app. split.
    + clear -Hnew H2. induction H2 as [|a b l l' Hab _ IH]; constructor; apply Forall_cons in Hnew as [Ha Hnew]; [|auto].
      by destruct (shown_entry _ _ Hab) as [-> _].
    + eapply Forall_impl; [exact Hnew'|]. simpl. lia.
Qed.

Lemma Forall2_shown_refl es : Forall2 shown es es.
Proof. by induction es; constructor. Qed.

Lemma grows_same s s' : log s' = log s → by_scope s' = by_scope s → next_seq s ≤ next_seq s' → grows s s'.
Proof.
  intros Hl Hb Hn. split; [done|]. intros scope. exists (entries s scope), []. unfold entries, indices. rewrite Hl, Hb, app_nil_r.
  split_and!; [done|apply Forall2_shown_refl|constructor].
Qed.

Lemma grows_added scope e s s' : server_wf s → added scope e s s' → grows s s'.
Proof.
  intros Hw Ha. split; [rewrite (added_next _ _ _ _ Ha); lia|]. intros sc. rewrite (entries_added _ _ _ _ _ Hw Ha).
  exists (entries s sc), (if decide (sc = scope) then [e] else []). split_and!.
  - case_decide; [done|by rewrite app_nil_r].
  - apply Forall2_shown_refl.
  - pose proof (added_seq _ _ _ _ Ha). case_decide; repeat constructor; lia.
Qed.

Section grow.
Context `{Hashes} `{Codec}.

Lemma append_grows scope entity c s : server_wf s → grows s (append scope entity c s).1.
Proof. intros Hw. eapply grows_added; [done|]. apply push_entry_added, Hw. Qed.

Lemma apply_command_grows c s rng : server_wf s → grows s (apply_command c s rng).1.1.
Proof.
  intros Hw. assert (∀ id cs r x, grows s x → grows s (record_outcome id cs r x)) as Hrec.
  { intros id cs r x Hx. etransitivity; [exact Hx|]. by apply grows_same. }
  unfold apply_command. destruct (decide_replay _ _) as [[]|]; [|done|by apply Hrec|].
  all: destruct (command_targets s !! _) as [[entity scope]|]; [|by apply Hrec].
  all: unfold apply_fresh; destruct (Rng.below rng 100) as [rng' roll]; destruct (roll <? 80);
    [|destruct (roll <? 90); by apply Hrec].
  all: pose proof (append_grows scope entity c s Hw) as Ha; destruct (append _ _ _ _) as [s' q]; by apply Hrec.
Qed.

Lemma push_results_grows cs s rng : server_wf s → grows s (push_results cs s rng).1.1.
Proof.
  revert s rng. induction cs as [|c cs IH]; intros s rng Hw; [done|]. simpl.
  pose proof (apply_command_wf c s rng Hw) as Hc. pose proof (apply_command_grows c s rng Hw) as Hg.
  destruct (apply_command c s rng) as [[s1 rng1] r]. specialize (IH s1 rng1 Hc).
  destruct (push_results cs s1 rng1) as [[s2 rng2] rs]. by etransitivity.
Qed.

Lemma server_step_grows s s' : server_step s s' → server_wf s → grows s s'.
Proof.
  intros Hs Hw. destruct Hs; try by apply grows_same.
  - destruct (advance_commits_facts s) as (_ & Hs & _ & Hb & _ & Hn & _). split; [lia|]. intros scope.
    exists (entries (advance_commits s) scope), []. rewrite app_nil_r. split_and!; [done|by apply shown_entries|constructor].
  - unfold push_prefix. pose proof (push_results_grows (take n (PushRequest.commands req)) s rng Hw) as Hp.
    by destruct (push_results _ s rng) as [[s' rng'] rs].
  - unfold external_change. destruct (Rng.below rng 8) as [rng' n]. eapply grows_added; [done|]. apply push_entry_added, Hw.
  - unfold external_change_to. destruct (EntityId.new i); [|apply grows_same; simpl; [done..|lia]].
    eapply grows_added; [done|]. apply push_entry_added, Hw.
  - destruct (EntityId.new i) as [x|e] eqn:E; [|unfold external_delete; by rewrite E].
    eapply grows_added; [done|]. apply external_delete_added; [done|apply Hw].
Qed.

(** What a device took in stays what the log says. *)
Lemma grows_upto s s' scope c : grows s s' → c < next_seq s → Forall2 shown (upto s scope c) (upto s' scope c).
Proof.
  intros [_ Hs] Hc. destruct (Hs scope) as (old & newer & He & Ho & Hnew). unfold upto. rewrite He, filter_app.
  rewrite (filter_none _ newer), app_nil_r; [|eapply Forall_impl; [exact Hnew|]; simpl; lia].
  apply filter_shown; [|done]. intros a b Hab. by destruct (shown_entry _ _ Hab) as [-> _].
Qed.

Lemma shown_changes es es' : Forall2 shown es es' → LogEntry.change <$> es' = LogEntry.change <$> es.
Proof. induction 1 as [|a b l l' (_ & Hc & _) _ IH]; [done|]. csimpl. by rewrite Hc, IH. Qed.

Lemma shown_visible es es' :
  Forall2 shown es es' → Forall (λ e, LogEntry.visible e = true) es → Forall (λ e, LogEntry.visible e = true) es'.
Proof. induction 1 as [|a b l l' (_ & _ & Hv) _ IH]; intros Hf; [done|]. apply Forall_cons in Hf as [? ?]. constructor; auto. Qed.

(** ** The feed: a server, and a device that applies the batches it is handed *)

Record Feed := MkFeed { feed_server : Server; feed_cursor : Cursor.t; feed_rows : LiveRows }.

Definition take_batch (s : Server) (limit : nat) (budget : N) (scope : ScopeId.t) (c : Cursor.t) (m : LiveRows) : Feed :=
  let b := pull_scope s limit budget (ScopeCursor.mk scope c) in
  MkFeed s (Batch.next_cursor b) (rows_effect (Batch.changes b) m).

Inductive feed_step (scope : ScopeId.t) : Feed → Feed → Prop :=
| feed_serves s s' c m :
    server_step s s' → commit_order_guard s' = true → seqs_fit s' → feed_step scope (MkFeed s c m) (MkFeed s' c m)
| feed_pulls s limit budget c m : feed_step scope (MkFeed s c m) (take_batch s limit budget scope c m).

(** The device stands at its cursor: it holds what the log says there, nothing under the cursor
    is uncommitted, and the cursor is one the server handed out. *)
Record stands (scope : ScopeId.t) (f : Feed) : Prop := MkStands {
  stands_wf : server_wf (feed_server f);
  stands_fit : seqs_fit (feed_server f);
  stands_guard : commit_order_guard (feed_server f) = true;
  stands_cursor : Cursor.wf (feed_cursor f) ∧ Cursor.get (feed_cursor f) < next_seq (feed_server f);
  stands_clean : Forall (λ e, LogEntry.visible e = true) (upto (feed_server f) scope (Cursor.get (feed_cursor f)));
  stands_rows : feed_rows f = replayed (upto (feed_server f) scope (Cursor.get (feed_cursor f)));
}.

Lemma stands_start scope : stands scope (MkFeed new Cursor.START ∅).
Proof.
  pose proof new_server_wf. by split; rewrite ?upto_below.
Qed.

Lemma pull_stands scope s limit budget c m :
  stands scope (MkFeed s c m) → stands scope (take_batch s limit budget scope c m).
Proof.
  intros [Hw Hfit Hg [Hc Hlt] Hclean Hrows]. simpl in *.
  destruct (guarded_pull s limit budget scope c Hw Hfit Hg Hc) as (Hch & Hv & Hle & Hwf & Hn). cbv zeta in *.
  split; simpl; try done.
  - split; [done|]. destruct Hn as [->|(e & He & <-)]; [done|].
    pose proof (entries_wf s scope Hw) as Hr. rewrite Forall_forall in Hr. destruct (Hr e He). lia.
  - rewrite (upto_split _ _ _ _ Hw Hle). by apply Forall_app.
  - rewrite (upto_split _ _ _ _ Hw Hle), replayed_app, <- Hch. by rewrite Hrows.
Qed.

Lemma feed_step_stands scope f f' : feed_step scope f f' → stands scope f → stands scope f'.
Proof.
  intros Hs Hst. destruct Hs as [s s' c m Hs Hg Hfit|s limit budget c m]; [|by apply pull_stands].
  destruct Hst as [Hw _ _ [Hc Hlt] Hclean Hrows]. simpl in *.
  pose proof (server_step_grows s s' Hs Hw) as Hgr. pose proof (grows_upto s s' scope _ Hgr Hlt) as Hu.
  split; simpl; try done.
  - by eapply server_step_wf.
  - split; [done|]. destruct Hgr. lia.
  - by eapply shown_visible.
  - rewrite Hrows. unfold replayed. by rewrite (shown_changes _ _ Hu).
Qed.

Lemma feed_run_stands scope f f' : rtc (feed_step scope) f f' → stands scope f → stands scope f'.
Proof. induction 1 as [|x y z Hs _ IH]; [done|]. intros Hst. by apply IH, (feed_step_stands _ x). Qed.
End grow.

(** With no write in flight the whole log is visible. *)
Lemma settled_visible s scope :
  server_wf s → in_flight s = [] → Forall (λ e, seq_of e ≤ visible_head s scope) (entries s scope).
Proof.
  intros Hw Hf. assert (Hall : Forall (λ e, LogEntry.visible e = true) (entries s scope)).
  { apply Forall_forall. intros e He. apply list_elem_of_omap in He as (i & _ & Hi).
    destruct (LogEntry.visible e) eqn:E; [done|]. destruct (wf_waiting s Hw i e Hi E) as [n Hin].
    rewrite Hf in Hin. by apply not_elem_of_nil in Hin. }
  rewrite visible_head_seen by done. destruct (seen_prefix (entries s scope)) as (rest & He & _ & Hr).
  destruct rest as [|x rest].
  - rewrite app_nil_r in He. rewrite <- He. pose proof (entries_sorted s scope Hw) as Hs.
    destruct (last (entries s scope)) as [x|] eqn:Hl; [|apply last_None in Hl; rewrite Hl; constructor].
    rewrite <- (app_nil_r (entries s scope)) in Hs. pose proof (sorted_prefix _ [] x Hs Hl) as Hp. rewrite app_nil_r in Hp.
    rewrite Hp. apply Forall_forall. intros e [He' _]%list_elem_of_filter. done.
  - rewrite He, Forall_app, Forall_cons in Hall. destruct Hall as (_ & Hx & _). congruence.
Qed.
