(* ===== verification/Deliveries.v ===== *)
(** * Deliveries: what the responses on their way to a device may say, and why a device that
    takes them in the order they were asked for stands at its cursor.

    Batches overlap: a device asks again before the last answer arrives, an answer may come
    twice or late, and an empty one is not checked against the device's cursor. What keeps a
    device right is the order. *)

From S2P Require Import Prelude Errors Nums Ids Json Wire Integrity Storage Apply Place Ledger.
From S2P Require Import Server Rng SimServer SimServerFacts SimReads SimFeed.
From stdpp Require Import options.

Section deliveries.
Context `{Hashes} `{Codec}.
Variable scope : ScopeId.t.

(** ** Where a device stands *)

Record standing (s : Server) (v : View) : Prop := MkStanding {
  standing_cursor : Cursor.wf (stored_cursor v scope) ∧ Cursor.get (stored_cursor v scope) < next_seq s;
  standing_point : stored_cursor v scope = Cursor.START ∨
    ∃ e, e ∈ entries s scope ∧ seq_of e = Cursor.get (stored_cursor v scope);
  standing_clean : Forall (λ e, LogEntry.visible e = true) (upto s scope (Cursor.get (stored_cursor v scope)));
  standing_rows : versions_of v = replayed (upto s scope (Cursor.get (stored_cursor v scope)));
  standing_alone : ∀ sc, sc ≠ scope → v_cursors v !! sc = None;
}.

Lemma standing_ext s v v' : v_rows v' = v_rows v → v_cursors v' = v_cursors v → standing s v → standing s v'.
Proof. intros Hr Hc []. split; unfold stored_cursor, versions_of in *; by rewrite ?Hr, ?Hc. Qed.

Lemma entry_shown s s' sc e : grows s s' → e ∈ entries s sc → ∃ e', e' ∈ entries s' sc ∧ shown e e'.
Proof.
  intros [_ Hg] He. destruct (Hg sc) as (old & newer & -> & Hold & _).
  apply list_elem_of_lookup in He as [i Hi]. destruct (Forall2_lookup_l _ _ _ _ _ Hold Hi) as (e' & Hi' & Hs).
  exists e'. split; [|done]. apply elem_of_app. left. by eapply list_elem_of_lookup_2.
Qed.

Lemma standing_grows s s' v : grows s s' → standing s v → standing s' v.
Proof.
  intros Hg [[Hwf Hlt] Hpt Hcl Hr Ha]. pose proof (grows_upto _ _ scope _ Hg Hlt) as Hu. split; [|..|done].
  - split; [done|]. destruct Hg. lia.
  - destruct Hpt as [?|(e & He & Hs)]; [by left|right]. destruct (entry_shown _ _ _ _ Hg He) as (e' & He' & Hsh).
    exists e'. split; [done|]. destruct (shown_entry _ _ Hsh) as [-> _]. done.
  - by eapply shown_visible.
  - rewrite Hr. unfold replayed. by rewrite (shown_changes _ _ Hu).
Qed.

(** ** What a pull answers *)

(** The entries of the scope past one cursor and up to another. *)
Definition between (s : Server) (c c' : Z) : list LogEntry.t := filter (λ e, c < seq_of e ≤ c') (entries s scope).

Record pulled (s : Server) (b : Batch.t) (c : Cursor.t) : Prop := MkPulled {
  pulled_scope : Batch.scope b = scope;
  pulled_wf : Cursor.wf c ∧ Cursor.wf (Batch.next_cursor b);
  pulled_range : Cursor.get c ≤ Cursor.get (Batch.next_cursor b) < next_seq s;
  pulled_changes : Batch.changes b = LogEntry.change <$> between s (Cursor.get c) (Cursor.get (Batch.next_cursor b));
  pulled_visible : Forall (λ e, LogEntry.visible e = true) (between s (Cursor.get c) (Cursor.get (Batch.next_cursor b)));
  pulled_point : Batch.next_cursor b = c ∨ ∃ e, e ∈ entries s scope ∧ seq_of e = Cursor.get (Batch.next_cursor b);
}.

Lemma between_shown s s' c c' : grows s s' → c' < next_seq s → Forall2 shown (between s c c') (between s' c c').
Proof.
  intros [Hn Hg] Hc. unfold between. destruct (Hg scope) as (old & newer & -> & Hold & Hnew).
  rewrite filter_app, (filter_none _ newer), app_nil_r by (eapply Forall_impl; [exact Hnew|]; simpl; lia).
  apply filter_shown; [|done]. intros a b Hab. by destruct (shown_entry _ _ Hab) as [-> _].
Qed.

Lemma pulled_grows s s' b c : grows s s' → pulled s b c → pulled s' b c.
Proof.
  intros Hg [Hs Hwf [Hr1 Hr2] Hc Hv Hp]. pose proof (between_shown _ _ (Cursor.get c) _ Hg Hr2) as Hb. split; try done.
  - destruct Hg. lia.
  - by rewrite (shown_changes _ _ Hb).
  - by eapply shown_visible.
  - destruct Hp as [?|(e & He & Hq)]; [by left|right]. destruct (entry_shown _ _ _ _ Hg He) as (e' & He' & Hsh).
    exists e'. split; [done|]. destruct (shown_entry _ _ Hsh) as [-> _]. done.
Qed.

Lemma pulled_empty s b c : pulled s b c → Batch.changes b = [] → Batch.next_cursor b = c.
Proof.
  intros [_ _ [Hr _] Hc _ [?|(e & He & Hq)]] Hnil; [done|]. rewrite Hnil in Hc. symmetry in Hc. apply fmap_nil_inv in Hc.
  destruct (Z.eq_dec (Cursor.get c) (Cursor.get (Batch.next_cursor b))) as [Heq|Hne].
  - destruct c, (Batch.next_cursor b). simpl in *. by subst.
  - exfalso. assert (e ∈ between s (Cursor.get c) (Cursor.get (Batch.next_cursor b))) as Hin by (apply list_elem_of_filter; split; [lia|done]).
    rewrite Hc in Hin. by apply not_elem_of_nil in Hin.
Qed.

(** A batch that breaks the ordering rule is refused wherever the device is. *)
Definition broken (b : Batch.t) : Prop := ∀ c, validate_ordering b c ≠ Ok ().

(** A device takes a batch that carries something only from the cursor it was asked for. *)
Lemma accepted_at s b c c0 :
  server_wf s → pulled s b c → Batch.changes b ≠ [] → Cursor.get c ≤ Cursor.get c0 →
  (c0 = Cursor.START ∨ ∃ e, e ∈ entries s scope ∧ seq_of e = Cursor.get c0) →
  validate_ordering b (Cursor.get c0) = Ok () → c = c0.
Proof.
  intros Hw [_ [Hwf _] _ Hc _ _] Hne Hle Hpt Hv. apply apply_ordering_ok in Hv as (_ & Hafter & _ & Hbound).
  destruct (Z.eq_dec (Cursor.get c) (Cursor.get c0)) as [Heq|Hlt]; [destruct c, c0; simpl in *; by subst|]. exfalso.
  destruct Hpt as [->|(e & He & Hq)]; [destruct Hwf; simpl in *; lia|].
  pose proof (entries_wf s scope Hw) as Hr. rewrite Forall_forall in Hr.
  destruct (Batch.changes b) as [|x xs] eqn:Hx; [done|]. rewrite Forall_cons in Hafter, Hbound.
  destruct Hafter as [Hx0 Hafter], Hbound as [Hxn _]. unfold after in *.
  assert (e ∈ between s (Cursor.get c) (Cursor.get (Batch.next_cursor b))) as Hin by (apply list_elem_of_filter; split; [lia|done]).
  assert (LogEntry.change e ∈ x :: xs) as Hex by (rewrite Hc; by apply list_elem_of_fmap_2).
  destruct (Hr e He) as [_ [Hseq _]]. unfold seq_of in Hq. rewrite <- Hseq in Hq.
  apply elem_of_cons in Hex as [<-|Hex]; [lia|]. rewrite Forall_forall in Hafter. specialize (Hafter _ Hex). simpl in Hafter. lia.
Qed.

(** ** The queue of a device *)

Definition deliverable (s : Server) (c0 : Cursor.t) (b : Batch.t) : Prop :=
  broken b ∨ ∃ c, pulled s b c ∧ Cursor.get c ≤ Cursor.get c0 ∧ (Batch.changes b = [] → c = c0).
(** An empty answer comes after nothing the device could still take from its cursor. *)
Definition in_turn (b b' : Batch.t) : Prop :=
  Batch.changes b ≠ [] → Batch.changes b' = [] → validate_ordering b (Cursor.get (Batch.next_cursor b')) ≠ Ok ().
Definition queue_ok (s : Server) (c0 : Cursor.t) (bs : list Batch.t) : Prop :=
  Forall (deliverable s c0) bs ∧ StronglySorted in_turn bs.

Lemma queue_ok_grows s s' c0 bs : grows s s' → queue_ok s c0 bs → queue_ok s' c0 bs.
Proof.
  intros Hg [Hd Hs]. split; [|done]. eapply Forall_impl; [exact Hd|].
  intros b [?|(c & ? & ?)]; [by left|right]. exists c. split; [by eapply pulled_grows|done].
Qed.

Lemma broken_nonempty b : broken b → Batch.changes b ≠ [].
Proof. intros Hb Hnil. apply (Hb 0). unfold validate_ordering. by rewrite Hnil. Qed.

(** Taking the first of them, whether or not it is stored. *)
Lemma queue_take s v v' b bs :
  server_wf s → standing s v → queue_ok s (stored_cursor v scope) (b :: bs) →
  v' = v ∨ batch_stored b v v' →
  standing s v' ∧ queue_ok s (stored_cursor v' scope) bs ∧
  Cursor.get (stored_cursor v scope) ≤ Cursor.get (stored_cursor v' scope).
Proof.
  intros Hw Hst [[Hb Hd]%Forall_cons [Hss Hsb]%StronglySorted_inv] [->|Hstored]; [by split_and!|].
  set (c0 := stored_cursor v scope) in *. destruct Hst as [[Hc0 Hlt] Hpt Hcl Hr Ha].
  destruct Hstored as (Hv & Hver & Hcur & _).
  destruct Hb as [Hb|(c & Hp & Hle & Hempty)]; [by apply Hb in Hv|].
  assert (Batch.scope b = scope) as Hsc by apply Hp. rewrite Hsc in *.
  assert (c = c0) as ->.
  { destruct (decide (Batch.changes b = [])) as [He|Hne]; [by apply Hempty|]. by eapply accepted_at. }
  pose proof Hp as [_ [_ Hwn] [Hr1 Hr2] Hch Hvis Hnext].
  assert (stored_cursor v' scope = Batch.next_cursor b) as Hc' by (unfold stored_cursor; by rewrite Hcur, lookup_insert_eq).
  split_and!.
  - split; rewrite ?Hc'.
    + done.
    + destruct Hnext as [->|?]; [done|by right].
    + rewrite (upto_split _ _ _ _ Hw Hr1). by apply Forall_app.
    + rewrite (upto_split _ _ _ _ Hw Hr1), replayed_app, Hver, Hr. by rewrite Hch.
    + intros sc Hne. rewrite Hcur, lookup_insert_ne by done. by apply Ha.
  - rewrite Hc'. split; [|done]. rewrite Forall_forall in Hd, Hsb. apply Forall_forall. intros b' Hb'.
    destruct (Hd b' Hb') as [?|(c' & Hp' & Hle' & Hempty')]; [by left|right]. exists c'. split_and!; [done|lia|].
    intros Hnil. specialize (Hempty' Hnil). subst c'. destruct (decide (Batch.changes b = [])) as [He|Hne].
    + symmetry. by apply (pulled_empty s).
    + exfalso. apply (Hsb b' Hb' Hne Hnil). by rewrite (pulled_empty _ _ _ Hp' Hnil).
  - rewrite Hc'. lia.
Qed.

(** What is committed up to an entry can be seen up to it. *)
Lemma visible_head_reaches s e :
  server_wf s → e ∈ entries s scope → Forall (λ x, LogEntry.visible x = true) (upto s scope (seq_of e)) →
  seq_of e ≤ visible_head s scope.
Proof.
  intros Hw He Hv. rewrite visible_head_seen by done. destruct (seen_prefix (entries s scope)) as (rest & Hs & _ & Hr).
  pose proof (entries_sorted s scope Hw) as Hsort. rewrite Forall_forall in Hv.
  rewrite Hs in He. apply elem_of_app in He as [He|He].
  - destruct (last (seen (entries s scope))) as [x|] eqn:Hl; [|apply last_None in Hl; rewrite Hl in He; by apply not_elem_of_nil in He].
    rewrite Hs in Hsort. pose proof (sorted_prefix _ _ x Hsort Hl) as Hp. rewrite Hp in He. by apply list_elem_of_filter in He as [? _].
  - exfalso. destruct rest as [|x rest]; [by apply not_elem_of_nil in He|].
    assert (seq_of x ≤ seq_of e) as Hx.
    { apply elem_of_cons in He as [->|He]; [lia|]. rewrite Hs in Hsort. apply StronglySorted_app in Hsort as (_ & _ & Hsort).
      apply StronglySorted_inv in Hsort as [_ Hsort]. rewrite Forall_forall in Hsort. specialize (Hsort _ He).
      unfold SimServerFacts.seq_lt in Hsort. lia. }
    assert (x ∈ upto s scope (seq_of e)) as Hin.
    { apply list_elem_of_filter. split; [done|]. rewrite Hs. apply elem_of_app. right. by left. }
    specialize (Hv x Hin). congruence.
Qed.

Lemma pull_pulled s limit budget c :
  server_wf s → seqs_fit s → commit_order_guard s = true → Cursor.wf c → Cursor.get c < next_seq s →
  pulled s (pull_scope s limit budget (ScopeCursor.mk scope c)) c.
Proof.
  intros Hw Hfit Hg Hwf Hlt. destruct (guarded_pull s limit budget scope c Hw Hfit Hg Hwf) as (Hch & Hv & Hle & Hwn & Hn).
  split; try done.
  - unfold pull_scope. cbn [ScopeCursor.scope ScopeCursor.cursor].
    by edestruct (filled_prefix scope) as (? & _ & -> & _).
  - split; [done|]. destruct Hn as [->|(e & He & <-)]; [done|].
    pose proof (entries_wf s scope Hw) as Hr. rewrite Forall_forall in Hr. destruct (Hr e He). lia.
Qed.

(** A new answer joins the queue: it is what the server has past the device's cursor, or that
    with a rule broken. *)
Lemma queue_snoc `{!CodecArrays} s v bs b limit budget :
  server_wf s → seqs_fit s → commit_order_guard s = true → (∀ c : Change.t, encodable c) → (0 < limit)%nat →
  standing s v → queue_ok s (stored_cursor v scope) bs →
  b = pull_scope s limit budget (ScopeCursor.mk scope (stored_cursor v scope)) ∨ broken b →
  queue_ok s (stored_cursor v scope) (bs ++ [b]).
Proof.
  intros Hw Hfit Hg Henc Hlim Hst [Hd Hs] Hb. set (c0 := stored_cursor v scope) in *.
  pose proof Hst as [[Hwf Hlt] Hpt Hcl _ _]. fold c0 in Hwf, Hlt, Hpt, Hcl.
  destruct Hb as [->|Hb].
  2:{ split; [apply Forall_app; split; [done|]; constructor; [by left|constructor]|].
      apply StronglySorted_app. split_and!; [|done|repeat constructor].
      intros x y _ ->%list_elem_of_singleton _ Hnil. by apply broken_nonempty in Hnil. }
  set (b := pull_scope _ _ _ _). pose proof (pull_pulled s limit budget c0 Hw Hfit Hg Hwf Hlt) as Hp. fold b in Hp.
  split.
  { apply Forall_app. split; [done|]. constructor; [|constructor]. right. by exists c0. }
  apply StronglySorted_app. split_and!; [|done|repeat constructor].
  intros x y Hx ->%list_elem_of_singleton Hne Hnil Hv.
  rewrite (pulled_empty _ _ _ Hp Hnil) in Hv. rewrite Forall_forall in Hd.
  destruct (Hd x Hx) as [Hbr|(c & Hpx & Hle & _)]; [by apply Hbr in Hv|].
  assert (c = c0) as -> by by eapply accepted_at.
  pose proof Hpx as [_ _ [Hr1 _] Hch Hvis Hnext].
  destruct Hnext as [Heq|(e & He & Hq)].
  { destruct Hne. rewrite Hch, Heq. unfold between. rewrite filter_none; [done|]. apply Forall_forall. intros; lia. }
  assert (Cursor.get c0 < visible_head s scope) as Hhead.
  { assert (Cursor.get c0 < seq_of e).
    { destruct (Z.eq_dec (Cursor.get c0) (seq_of e)) as [Heq|]; [|lia]. destruct Hne. rewrite Hch, <- Hq, Heq. unfold between.
      rewrite filter_none; [done|]. apply Forall_forall. intros; lia. }
    enough (seq_of e ≤ visible_head s scope) by lia. apply visible_head_reaches; [done..|].
    rewrite Hq, (upto_split _ _ _ _ Hw Hr1). by apply Forall_app. }
  pose proof (guarded_pull_moves s limit budget scope c0 Hw Hfit Hg Hwf Hlim) as Hmove.
  fold b in Hmove. rewrite (pulled_empty _ _ _ Hp Hnil) in Hmove.
  enough (Cursor.get c0 < Cursor.get c0) by lia. apply Hmove; [|done]. apply Forall_forall. auto.
Qed.
End deliveries.
