(* ===== verification/SimCommands.v ===== *)
(** * SimCommands: what the simulated server answers to commands, and its bootstrap. *)

From S2P Require Import Prelude Errors Nums Ids Json Wire Integrity Storage Apply.
From S2P Require Import Server Dedupe Rng SimServer SimServerFacts SimReads.
From stdpp Require Import options.

Section commands.
Context `{Hashes} `{Codec}.

(** The answer [r] is on record for the body [c] has. *)
Definition answers (s : Server) (c : Command.t) (r : CommandResult.t) : Prop :=
  ∃ cs, payload_checksum (Command.payload c) = Ok cs ∧
    dedupe s !! Command.id c = Some (DedupeEntry.mk cs r).

Lemma recorded_replays c s rng r : answers s c r → apply_command c s rng = (s, rng, r).
Proof.
  intros (cs & Hcs & Hd). unfold apply_command, decide_replay. rewrite Hd, Hcs.
  cbn [map_err res_bind fmap option_fmap option_map Recorded.checksum DedupeEntry.checksum]. by rewrite String.eqb_refl.
Qed.

Lemma apply_fresh_dedupe entity scope c s rng : dedupe (apply_fresh entity scope c s rng).1.1 = dedupe s.
Proof.
  unfold apply_fresh. destruct (Rng.below rng 100) as [rng' roll]. destruct (roll <? 80); [|by destruct (roll <? 90)].
  unfold append, push_entry, index_entry, record_version. simpl. by destruct (0 <? hold_next s).
Qed.

Lemma apply_fresh_id entity scope c s rng : CommandResult.id (apply_fresh entity scope c s rng).2 = Command.id c.
Proof.
  unfold apply_fresh. destruct (Rng.below rng 100) as [rng' roll]. destruct (roll <? 80); [done|by destruct (roll <? 90)].
Qed.

Lemma apply_command_facts c s rng s' rng' r cs :
  payload_checksum (Command.payload c) = Ok cs → apply_command c s rng = (s', rng', r) →
  answers s' c r ∧ (∀ id, id ≠ Command.id c → dedupe s' !! id = dedupe s !! id) ∧
  (records_own s → CommandResult.id r = Command.id c ∧ records_own s').
Proof.
  intros Hcs. unfold apply_command. rewrite Hcs. cbn [unwrap_or].
  assert (Hrec : ∀ x r0, dedupe x = dedupe s → CommandResult.id r0 = Command.id c →
    answers (record_outcome (Command.id c) cs r0 x) c r0 ∧
    (∀ id, id ≠ Command.id c → dedupe (record_outcome (Command.id c) cs r0 x) !! id = dedupe s !! id) ∧
    (records_own s → CommandResult.id r0 = Command.id c ∧ records_own (record_outcome (Command.id c) cs r0 x))).
  { intros x r0 Hx Hid. split_and!.
    - exists cs. split; [done|]. apply lookup_insert_eq.
    - intros id Hne. simpl. by rewrite lookup_insert_ne, Hx.
    - intros Ho. split; [done|]. intros id d. simpl. rewrite Hx. destruct (decide (id = Command.id c)) as [->|].
      + rewrite lookup_insert_eq. by intros [= <-].
      + rewrite lookup_insert_ne by done. apply Ho. }
  unfold decide_replay. rewrite Hcs. cbn [map_err res_bind].
  destruct (dedupe s !! Command.id c) as [d|] eqn:Hd; cbn [fmap option_fmap option_map].
  - destruct (String.eqb _ _) eqn:Heq; cbn [negb].
    + intros [= <- <- <-]. apply String.eqb_eq in Heq. split_and!; [|done|].
      * exists cs. split; [done|]. rewrite Hd. destruct d as [dc dr], dc, cs. simpl in *. by subst.
      * intros Ho. split; [by apply (Ho _ d)|done].
    + intros [= <- <- <-]. by apply Hrec.
  - destruct (command_targets s !! _) as [[entity scope]|].
    + pose proof (apply_fresh_dedupe entity scope c s rng) as Hfd. pose proof (apply_fresh_id entity scope c s rng) as Hfi.
      destruct (apply_fresh entity scope c s rng) as [[s1 rng1] r1]. intros [= <- <- <-]. by apply Hrec.
    + intros [= <- <- <-]. by apply Hrec.
Qed.

Lemma push_results_facts cs s rng s' rng' rs :
  Forall (λ c, is_ok (payload_checksum (Command.payload c)) = true) cs → NoDup (Command.id <$> cs) →
  push_results cs s rng = (s', rng', rs) →
  Forall2 (answers s') cs rs ∧ (∀ id, id ∉ Command.id <$> cs → dedupe s' !! id = dedupe s !! id) ∧
  (records_own s → CommandResult.id <$> rs = Command.id <$> cs).
Proof.
  revert s rng rs. induction cs as [|c cs IH]; intros s rng rs Hcs Hnd; cbn [push_results].
  { intros [= <- <- <-]. by split_and!. }
  apply Forall_cons in Hcs as [Hc Hcs]. rewrite fmap_cons in Hnd. apply NoDup_cons in Hnd as [Hni Hnd].
  destruct (payload_checksum (Command.payload c)) as [k|] eqn:Hk; [|done].
  destruct (apply_command c s rng) as [[s1 rng1] r] eqn:Ha. destruct (push_results cs s1 rng1) as [[s2 rng2] rs'] eqn:Hp.
  intros [= <- <- <-]. destruct (apply_command_facts _ _ _ _ _ _ _ Hk Ha) as (Hans & Hother & Hown).
  destruct (IH s1 rng1 rs' Hcs Hnd Hp) as (Hall & Hrest & Hids). split_and!.
  - constructor; [|done]. destruct Hans as (k' & Hk' & Hd). exists k'. split; [done|]. by rewrite Hrest.
  - intros id Hid. rewrite fmap_cons, not_elem_of_cons in Hid. destruct Hid. by rewrite Hrest, Hother.
  - intros Ho. destruct (Hown Ho) as [Hr Ho1]. rewrite !fmap_cons, Hr. f_equal. by apply Hids.
Qed.

Lemma push_results_replay cs s rng rs :
  Forall2 (answers s) cs rs → push_results cs s rng = (s, rng, rs).
Proof.
  induction 1 as [|c r cs rs Hr _ IH]; [done|]. cbn [push_results]. rewrite (recorded_replays _ _ _ _ Hr). by rewrite IH.
Qed.
End commands.

(** ** Bootstrap: the compaction *)

Lemma latest_from_seen lg ix es m :
  Forall2 (λ i e, lg !! i = Some e) ix es → latest_from true lg ix m = fold_left keep_latest (seen es) m.
Proof.
  intros Hf. revert m. induction Hf as [|i e ix es Hi _ IH]; intros m; [done|]. cbn [latest_from seen]. rewrite Hi.
  destruct (LogEntry.visible e); [|done]. by rewrite IH.
Qed.

(** Over sorted entries the latest of a row is its last. *)
Lemma keep_latest_last es k :
  StronglySorted seq_lt es →
  fold_left keep_latest es ∅ !! k =
    (λ e, (seq_of e, LogEntry.change e)) <$> last (filter (λ e, key_of e = k) es).
Proof.
  induction es as [|e es IH] using rev_ind; intros Hs; [done|].
  assert (StronglySorted seq_lt es ∧ Forall (λ x, seq_of x < seq_of e) es) as [Hs' Hlt].
  { clear IH. induction es as [|x es IH]; [split; constructor|]. simpl in Hs. apply StronglySorted_inv in Hs as [Hs Hx].
    destruct (IH Hs) as [H1 H2]. apply Forall_app in Hx as [Hx1 Hx2]. apply Forall_cons in Hx2 as [Hx2 _].
    split; constructor; done. }
  specialize (IH Hs'). rewrite fold_left_app, filter_app, filter_cons, filter_nil. simpl. unfold keep_latest at 1.
  fold (key_of e). destruct (decide (key_of e = k)) as [<-|Hne].
  - rewrite lookup_partial_alter_eq, last_snoc, IH. simpl. fold (seq_of e).
    destruct (last (filter _ es)) as [x|] eqn:Hl; simpl; [|done].
    apply last_Some_elem_of, list_elem_of_filter in Hl as [_ Hx]. rewrite Forall_forall in Hlt. specialize (Hlt x Hx). simpl in Hlt.
    by destruct (Z.ltb_spec (seq_of x) (seq_of e)); [|lia].
  - by rewrite lookup_partial_alter_ne, app_nil_r.
Qed.

Lemma replayed_last es k :
  replayed es !! k = match last (filter (λ e, key_of e = k) es) with
                     | Some e => if decide (Change.op (LogEntry.change e) = Upsert) then Some (Change.row_version (LogEntry.change e)) else None
                     | None => None
                     end.
Proof.
  induction es as [|e es IH] using rev_ind; [done|].
  rewrite replayed_app, filter_app, filter_cons, filter_nil. csimpl. unfold rows_effect. simpl. unfold row_effect. fold (key_of e).
  destruct (decide (key_of e = k)) as [<-|Hne].
  - rewrite last_snoc. destruct (Change.op (LogEntry.change e)); [by rewrite decide_True, lookup_insert_eq|by rewrite decide_False, lookup_delete_eq].
  - rewrite app_nil_r. destruct (Change.op _); [rewrite lookup_insert_ne by done|rewrite lookup_delete_ne by done]; exact IH.
Qed.

(** Changes to different rows: each row is decided by its own change, if it has one. *)
Lemma rows_effect_distinct cs m k :
  NoDup (change_key <$> cs) →
  (∀ c, c ∈ cs → change_key c = k → rows_effect cs m !! k = effect_of c) ∧
  ((∀ c, c ∈ cs → change_key c ≠ k) → rows_effect cs m !! k = m !! k).
Proof.
  revert m. induction cs as [|c cs IH]; intros m Hnd.
  { split; [by intros c ?%not_elem_of_nil|done]. }
  rewrite fmap_cons in Hnd. apply NoDup_cons in Hnd as [Hni Hnd].
  change (rows_effect (c :: cs) m) with (rows_effect cs (row_effect m c)). destruct (IH (row_effect m c) Hnd) as [H1 H2]. split.
  - intros x [->|Hx]%elem_of_cons Hk; [|by apply H1]. rewrite H2; [by rewrite row_effect_lookup, decide_True|].
    intros y Hy Hky. apply Hni, list_elem_of_fmap. exists y. by rewrite Hk, Hky.
  - intros Hn. rewrite H2; [|intros y Hy; apply Hn; by right]. rewrite row_effect_lookup, decide_False; [done|].
    intros ->. apply (Hn c); [by left|done].
Qed.

Lemma seen_upto s scope : server_wf s → seen (entries s scope) = upto s scope (visible_head s scope).
Proof.
  intros Hw. pose proof (entries_sorted s scope Hw) as Hs. pose proof (entries_wf s scope Hw) as Hr.
  destruct (seen_prefix (entries s scope)) as (rest & He & _ & _). rewrite (visible_head_seen s scope Hw).
  destruct (last (seen (entries s scope))) as [x|] eqn:Hl; simpl.
  - rewrite He in Hs. rewrite (sorted_prefix _ rest x Hs Hl) at 1. by rewrite <- He.
  - apply last_None in Hl. rewrite Hl. symmetry. apply filter_none. eapply Forall_impl; [exact Hr|]. simpl. lia.
Qed.

Section bootstrap.
Context (s : Server) (scope : ScopeId.t) (Hw : server_wf s) (Hg : commit_order_guard s = true).
Let visible_entries := upto s scope (visible_head s scope).

Lemma latest_lookup k :
  latest_from (commit_order_guard s) (log s) (indices s scope) ∅ !! k =
    (λ e, (seq_of e, LogEntry.change e)) <$> last (filter (λ e, key_of e = k) visible_entries).
Proof using Hw Hg.
  rewrite Hg, (latest_from_seen _ _ _ _ (entries_lookup s scope Hw)), keep_latest_last.
  - by rewrite (seen_upto s scope Hw).
  - rewrite (seen_upto s scope Hw). by apply sorted_filter, entries_sorted.
Qed.

Lemma candidates_elem after x :
  x ∈ bootstrap_candidates s scope after ↔
    ∃ e, last (filter (λ y, key_of y = key_of e) visible_entries) = Some e ∧ x = LogEntry.change e ∧
      after < seq_of e ∧ (Change.op x ≠ Delete ∨ 0 < after).
Proof using Hw Hg.
  unfold bootstrap_candidates. rewrite merge_sort_Permutation, list_elem_of_fmap. setoid_rewrite list_elem_of_filter.
  setoid_rewrite list_elem_of_fmap. setoid_rewrite btree_entries_perm. split.
  - intros ([q c] & -> & [Hq Hop] & [k [q' c']] & [= -> ->] & Hk). apply elem_of_map_to_list in Hk.
    rewrite latest_lookup in Hk. apply fmap_Some in Hk as (e & Hl & [= -> ->]). exists e.
    pose proof (last_Some_elem_of _ _ Hl) as [He _]%list_elem_of_filter. by rewrite He.
  - intros (e & Hl & -> & Hq & Hop). exists (seq_of e, LogEntry.change e). split; [done|]. split; [done|].
    exists (key_of e, (seq_of e, LogEntry.change e)). split; [done|]. apply elem_of_map_to_list. by rewrite latest_lookup, Hl.
Qed.

Lemma candidates_distinct after : NoDup (change_key <$> bootstrap_candidates s scope after).
Proof using Hw Hg.
  unfold bootstrap_candidates. rewrite merge_sort_Permutation.
  set (L := latest_from _ _ _ _). assert (HL : ∀ k qc, L !! k = Some qc → change_key qc.2 = k).
  { intros k qc Hk. unfold L in Hk. rewrite latest_lookup in Hk. apply fmap_Some in Hk as (e & Hl & ->). simpl.
    by pose proof (last_Some_elem_of _ _ Hl) as [He _]%list_elem_of_filter. }
  assert (Hin : ∀ kv, kv ∈ btree_entries L → change_key kv.2.2 = kv.1).
  { intros [k qc] Hk. rewrite btree_entries_perm in Hk. apply elem_of_map_to_list in Hk. by apply HL. }
  assert (Hnd : NoDup (btree_entries L).*1) by (rewrite btree_entries_perm; apply NoDup_fst_map_to_list).
  revert Hin Hnd. clear. induction (btree_entries L) as [|[k [q c]] l IH]; intros Hin Hnd; [constructor|].
  csimpl. apply NoDup_cons in Hnd as [Hni Hnd]. specialize (IH (λ kv Hkv, Hin kv (list_elem_of_further _ _ _ Hkv)) Hnd).
  rewrite filter_cons. destruct (decide (after < (q, c).1 ∧ _)); [|exact IH]. csimpl. constructor; [|done].
  intros (c' & Hc & (qc & -> & [_ ((k' & qc') & -> & Hk')%list_elem_of_fmap]%list_elem_of_filter)%list_elem_of_fmap)%list_elem_of_fmap.
  apply Hni, list_elem_of_fmap. exists (k', qc'). split; [|done].
  pose proof (Hin (k', qc') ltac:(by right)) as E1. pose proof (Hin (k, (q, c)) ltac:(by left)) as E2. simpl in *. congruence.
Qed.

(** A device that holds what the log says at [after] and applies the compaction holds what the
    log says at the visible head. *)
Lemma compaction_joins after :
  0 ≤ after ≤ visible_head s scope →
  rows_effect (bootstrap_candidates s scope after) (replayed (upto s scope after)) = replayed visible_entries.
Proof using Hw Hg.
  intros Ha. apply map_eq. intros k. destruct (rows_effect_distinct _ (replayed (upto s scope after)) k (candidates_distinct after)) as [H1 H2].
  rewrite (replayed_last visible_entries). unfold visible_entries in *.
  destruct (last (filter (λ e, key_of e = k) (upto s scope (visible_head s scope)))) as [e|] eqn:Hl.
  - pose proof (last_Some_elem_of _ _ Hl) as [He Hin]%list_elem_of_filter. subst k.
    destruct (Z.le_gt_cases (seq_of e) after) as [Hle|Hgt].
    + rewrite H2, replayed_last.
      2:{ intros c (x & Hx & -> & Hq & _)%candidates_elem Hk. change (change_key _) with (key_of x) in Hk. rewrite Hk in Hx.
          unfold visible_entries in Hx. rewrite Hl in Hx. injection Hx as <-. lia. }
      replace (upto s scope after) with (filter (λ x, seq_of x ≤ after) (upto s scope (visible_head s scope))).
      2:{ unfold upto. rewrite list_filter_filter. apply list_filter_iff. intros x. lia. }
      apply last_Some in Hl as [l Hl]. rewrite filter_swap, Hl, filter_app, filter_cons, decide_True, filter_nil, last_snoc by done.
      by destruct (Change.op (LogEntry.change e)).
    + destruct (decide (Change.op (LogEntry.change e) ≠ Delete ∨ 0 < after)) as [Hop|Hop].
      * rewrite (H1 (LogEntry.change e)); [|apply candidates_elem; by exists e|done]. unfold effect_of.
        by destruct (Change.op (LogEntry.change e)).
      * assert (after < 1) by (destruct (Z.lt_ge_cases 0 after); [tauto|lia]). rewrite H2.
        -- rewrite upto_below by done. destruct (Change.op (LogEntry.change e)); [naive_solver|done].
        -- intros c (x & Hx & -> & _ & Hxop)%candidates_elem Hk. change (change_key _) with (key_of x) in Hk. rewrite Hk in Hx.
           unfold visible_entries in Hx. rewrite Hl in Hx. by injection Hx as <-.
  - apply last_None in Hl. rewrite H2, replayed_last.
    + enough (filter (λ e, key_of e = k) (upto s scope after) = []) as -> by done. apply filter_none, Forall_forall.
      intros x Hx Hk. assert (x ∈ filter (λ e, key_of e = k) (upto s scope (visible_head s scope))) as Hin.
      { apply list_elem_of_filter. split; [done|]. apply list_elem_of_filter in Hx as [? ?]. apply list_elem_of_filter. split; [lia|done]. }
      rewrite Hl in Hin. by apply not_elem_of_nil in Hin.
    + intros c (x & Hx & -> & _)%candidates_elem Hk. change (change_key _) with (key_of x) in Hk. rewrite Hk in Hx.
      unfold visible_entries in Hx. rewrite Hl in Hx. done.
Qed.
End bootstrap.
