(* ===== verification/Invariants.v ===== *)
(** * Invariants: the claims the simulator checks at every step (credsync-sim/src/invariant.rs).

    A checker reads the devices' databases and the server and adds a [Violation] for each
    claim that does not hold; its memory is what each device has been seen to hold before.
    The databases are borrowed one after the other and never written, so they are a list. *)

From S2P Require Import Prelude Errors Nums Ids Json Wire Integrity Core Registry Outbox Storage SimStorage.
From S2P Require Import Server SimServer.
From stdpp Require Import options.

(** ** [BTreeSet<CommandId>] in iteration order *)

Fixpoint bytes_compare (a b : bytes) : comparison :=
  match a, b with
  | [], [] => Eq
  | [], _ => Lt
  | _, [] => Gt
  | x :: a, y :: b => match Z.compare x y with Eq => bytes_compare a b | c => c end
  end.
Definition id_le (a b : CommandId.t) : Prop := bytes_compare (CommandId.as_bytes a) (CommandId.as_bytes b) ≠ Gt.
#[export] Instance id_le_dec a b : Decision (id_le a b).
Proof. unfold id_le. solve_decision. Defined.
Definition btree_ids (s : gset CommandId.t) : list CommandId.t := merge_sort id_le (elements s).

(** ** Data *)

Module Violation.
Record t := mk {
  invariant : string;
  device : option nat;
  detail : string;
  at_ms : Z;
}.
Definition show_nat (n : nat) : string := show (Z.of_nat n).
Definition display (v : t) : string :=
  match device v with
  | Some d => "[" +:+ invariant v +:+ "] device " +:+ show_nat d +:+ " at " +:+ ChangeRow.show_i (at_ms v)
      +:+ "ms: " +:+ detail v
  | None => "[" +:+ invariant v +:+ "] at " +:+ ChangeRow.show_i (at_ms v) +:+ "ms: " +:+ detail v
  end.
End Violation.

Module Verdict.
Inductive t : Type := Applied | Superseded | DeadLettered.
#[global] Instance eq_dec : EqDecision t.
Proof. solve_decision. Defined.
Definition of_resolution (r : Resolution.t) : t :=
  match r with
  | Resolution.Applied _ => Applied
  | Resolution.Superseded => Superseded
  | _ => DeadLettered
  end.
Definition name (v : t) : string :=
  match v with Applied => "applied" | Superseded => "superseded" | DeadLettered => "dead-lettered" end.
End Verdict.

Record Invariants := MkInvariants {
  high_water : gmap (nat * ScopeId.t) Z;
  resolved : gmap nat (gmap CommandId.t Verdict.t);
  ever_queued : gmap nat (gset CommandId.t);
  violations : list Violation.t;
}.
Definition Invariants_new : Invariants := MkInvariants ∅ ∅ ∅ [].
Definition holds (inv : Invariants) : bool := match violations inv with [] => true | _ => false end.

Definition push_violations (vs : list Violation.t) (inv : Invariants) : Invariants :=
  MkInvariants (high_water inv) (resolved inv) (ever_queued inv) (violations inv ++ vs).
Definition set_high_water f inv : Invariants :=
  MkInvariants (f (high_water inv)) (resolved inv) (ever_queued inv) (violations inv).
Definition set_seen f inv : Invariants :=
  MkInvariants (high_water inv) (f (resolved inv)) (ever_queued inv) (violations inv).
Definition set_ever_queued f inv : Invariants :=
  MkInvariants (high_water inv) (resolved inv) (f (ever_queued inv)) (violations inv).

(** ** Claims about one device over time *)

Definition check_cursor_monotonic (at_ms : Z) (device : nat) (db : Db.t) (scope : ScopeId.t) (inv : Invariants)
    : Invariants :=
  let key := (device, scope) in
  match Db.cursors db !! scope with
  | None =>
      match high_water inv !! key with
      | Some was =>
          set_high_water (delete key)
            (push_violations [Violation.mk "cursor-monotonicity" (Some device)
              ("cursor reached " +:+ show was +:+ " and then vanished from storage") at_ms] inv)
      | None => inv
      end
  | Some cursor =>
      let now := Cursor.get cursor in
      let high := default 0 (high_water inv !! key) in
      let vs :=
        if now <? high then
          [Violation.mk "cursor-monotonicity" (Some device)
            ("cursor moved backwards, " +:+ show high +:+ " -> " +:+ show now) at_ms]
        else [] in
      set_high_water (<[key := Z.max high now]>) (push_violations vs inv)
  end.

(** One turn of the loop over the stored outcomes. *)
Definition note_outcome (at_ms : Z) (device : nat) (acc : gmap CommandId.t Verdict.t * list Violation.t)
    (entry : CommandId.t * Resolution.t) : gmap CommandId.t Verdict.t * list Violation.t :=
  let '(this_run, vs) := acc in
  let '(id, resolution) := entry in
  let verdict := Verdict.of_resolution resolution in
  (<[id := verdict]> this_run,
   match this_run !! id with
   | None => vs
   | Some prior =>
       vs ++ [Violation.mk "idempotency" (Some device)
         (if bool_decide (prior = verdict) then
            "command " +:+ CommandId.to_string id +:+ " recorded twice with the same verdict, " +:+ Verdict.name verdict
          else
            "command " +:+ CommandId.to_string id +:+ " recorded twice with different verdicts, "
              +:+ Verdict.name prior +:+ " then " +:+ Verdict.name verdict) at_ms]
   end).

(** One turn of the loop over [this_run], against what was seen before. *)
Definition compare_outcome (at_ms : Z) (device : nat) (this_run : gmap CommandId.t Verdict.t)
    (acc : gmap CommandId.t Verdict.t * list Violation.t) (id : CommandId.t)
    : gmap CommandId.t Verdict.t * list Violation.t :=
  let '(seen, vs) := acc in
  match this_run !! id with
  | None => (seen, vs)
  | Some verdict =>
      match seen !! id with
      | None => (<[id := verdict]> seen, vs)
      | Some prior =>
          if bool_decide (prior ≠ verdict) then
            (seen, vs ++ [Violation.mk "idempotency" (Some device)
              ("command " +:+ CommandId.to_string id +:+ " changed verdict across steps, "
                +:+ Verdict.name prior +:+ " -> " +:+ Verdict.name verdict) at_ms])
          else (seen, vs)
      end
  end.

Definition check_durability_and_idempotency (at_ms : Z) (device : nat) (db : Db.t) (inv : Invariants) : Invariants :=
  let seen := default ∅ (resolved inv !! device) in
  let '(this_run, vs1) := fold_left (note_outcome at_ms device) (Db.resolved db) (∅, []) in
  let '(seen, vs2) := fold_left (compare_outcome at_ms device this_run) (btree_ids (dom this_run)) (seen, []) in
  let lost := filter (λ id, this_run !! id = None) (btree_ids (dom seen)) in
  let vs3 := (λ id, Violation.mk "durability" (Some device)
    ("command " +:+ CommandId.to_string id +:+ " was resolved and is no longer recorded") at_ms) <$> lost in
  set_seen (<[device := fold_left (λ m id, delete id m) lost seen]>)
    (push_violations (vs1 ++ vs2 ++ vs3) inv).

Definition queued_ids (db : Db.t) : gset CommandId.t := list_to_set ((λ cs, Command.id cs.1) <$> Db.outbox db).
Definition resolved_ids (db : Db.t) : gset CommandId.t := list_to_set (fst <$> Db.resolved db).

Definition check_no_loss (at_ms : Z) (device : nat) (db : Db.t) (inv : Invariants) : Invariants :=
  let queued := queued_ids db in
  let resolved := resolved_ids db in
  let vs1 := (λ id, Violation.mk "no-loss" (Some device)
    ("command " +:+ CommandId.to_string id +:+ " is both queued and resolved") at_ms)
      <$> btree_ids (queued ∩ resolved) in
  let ever := default ∅ (ever_queued inv !! device) ∪ queued in
  let vanished := btree_ids (filter (λ id, (id ∉ queued) ∧ (id ∉ resolved)) ever) in
  let vs2 := (λ id, Violation.mk "no-loss" (Some device)
    ("command " +:+ CommandId.to_string id +:+ " left the outbox with no recorded outcome — silently lost") at_ms)
      <$> vanished in
  set_ever_queued (<[device := ever ∖ list_to_set vanished]>) (push_violations (vs1 ++ vs2) inv).

(** [for (i, db) in databases.iter().enumerate()]. *)
Fixpoint for_each_from {A} (i : nat) (f : nat → Db.t → A → A) (databases : list Db.t) (a : A) : A :=
  match databases with
  | [] => a
  | db :: rest => for_each_from (S i) f rest (f i db a)
  end.
Definition for_each_db {A} (f : nat → Db.t → A → A) (databases : list Db.t) (a : A) : A :=
  for_each_from 0 f databases a.

Definition check_device (at_ms : Z) (scope : ScopeId.t) (i : nat) (db : Db.t) (inv : Invariants) : Invariants :=
  check_no_loss at_ms i db
    (check_durability_and_idempotency at_ms i db (check_cursor_monotonic at_ms i db scope inv)).
Definition check_step (at_ms : Z) (databases : list Db.t) (scope : ScopeId.t) (inv : Invariants) : Invariants :=
  for_each_db (check_device at_ms scope) databases inv.

(** ** Claims about the devices and the server as they stand *)

(** A claim about one device: the violations it finds. *)
Definition check_each (f : nat → Db.t → list Violation.t) (databases : list Db.t) (inv : Invariants) : Invariants :=
  for_each_db (λ i db inv, push_violations (f i db) inv) databases inv.

Section checks.
Context `{Hashes}.

Definition device_convergence (at_ms : Z) (server : Server) (scope : ScopeId.t) (i : nat) (db : Db.t)
    : list Violation.t :=
  let expected := ScopeDigest.to_hex (digest server scope) in
  let head := head server in
  let broken detail := [Violation.mk "convergence" (Some i) detail at_ms] in
  match Db.digests db !! scope with
  | None =>
      if 0 <? head then
        broken ("no digest recorded after settling, while the server holds " +:+ show head +:+ " changes")
      else []
  | Some actual =>
      let cursor := match Db.cursors db !! scope with Some c => Cursor.get c | None => 0 end in
      if cursor <? head then
        broken ("still at cursor " +:+ show cursor +:+ " after settling, with the server at " +:+ show head
          +:+ "; the device never caught up")
      else if bool_decide (actual ≠ expected) then
        broken ("digest " +:+ HexString.as_str actual +:+ " does not match the server's "
          +:+ HexString.as_str expected +:+ " after catching up")
      else []
  end.
Definition check_convergence (at_ms : Z) (databases : list Db.t) (server : Server) (scope : ScopeId.t)
    : Invariants → Invariants := check_each (device_convergence at_ms server scope) databases.
End checks.

Definition class_debug (c : option ConflictClass) : string :=
  match c with
  | None => "None"
  | Some ServerAuthoritative => "Some(ServerAuthoritative)"
  | Some OwnerDraft => "Some(OwnerDraft)"
  | Some AppendOnly => "Some(AppendOnly)"
  end.

Definition recovered_ids (db : Db.t) : gset CommandId.t := list_to_set ((λ r, r.1.1) <$> Db.recovered db).

Definition device_policy (at_ms : Z) (registry : Registry) (i : nat) (db : Db.t) : list Violation.t :=
  let broken detail := Violation.mk "policy-conformance" (Some i) detail at_ms in
  flat_map (λ '(id, entity, _),
      match class_of registry entity with
      | Some OwnerDraft => []
      | other =>
          [broken ("a draft was recovered for command " +:+ CommandId.to_string id +:+ " against entity "
             +:+ EntityName.as_str entity +:+ ", whose class is " +:+ class_debug other
             +:+ " — only owner drafts have drafts to recover")]
      end) (Db.recovered db) ++
  flat_map (λ '(id, resolution),
      if bool_decide (resolution = Resolution.Superseded) && bool_decide (id ∉ recovered_ids db) then
        [broken ("command " +:+ CommandId.to_string id
           +:+ " was superseded but no draft was recovered; the user's edit is gone")]
      else []) (Db.resolved db).
Definition check_policy (at_ms : Z) (databases : list Db.t) (registry : Registry) : Invariants → Invariants :=
  check_each (device_policy at_ms registry) databases.

Definition row_name (e : EntityName.t) (i : EntityId.t) : string :=
  EntityName.as_str e +:+ "/" +:+ EntityId.as_str i.
Definition show_version (v : RowVersion.t) : string := show (RowVersion.get v).

Definition device_applied_state (at_ms : Z) (server : Server) (scope : ScopeId.t) (i : nat) (db : Db.t)
    : list Violation.t :=
  match Db.cursors db !! scope with
  | None => []
  | Some cursor =>
      let cursor := Cursor.get cursor in
      flat_map (λ '((entity, entity_id), stored),
        let v := StoredRow.row_version stored in
        match row_version_at server scope entity entity_id cursor with
        | Some expected =>
            if bool_decide (expected = v) then []
            else [Violation.mk "applied-state" (Some i)
                   (row_name entity entity_id +:+ " is at version " +:+ show_version v +:+ " but the cursor "
                    +:+ show cursor +:+ " implies " +:+ show_version expected) at_ms]
        | None =>
            [Violation.mk "applied-state" (Some i)
               (row_name entity entity_id +:+ " is stored at version " +:+ show_version v
                +:+ " but no change at or below the cursor " +:+ show cursor +:+ " ever created it") at_ms]
        end) (btree_entries (Db.rows db))
  end.
Definition check_applied_state (at_ms : Z) (databases : list Db.t) (server : Server) (scope : ScopeId.t)
    : Invariants → Invariants := check_each (device_applied_state at_ms server scope) databases.

Definition device_durable_effects (at_ms : Z) (server : Server) (scope : ScopeId.t) (i : nat) (db : Db.t)
    : list Violation.t :=
  match Db.cursors db !! scope with
  | None => []
  | Some cursor =>
      let cursor := Cursor.get cursor in
      flat_map (λ '(entity, entity_id, expected),
        match Db.rows db !! (entity, entity_id) with
        | Some stored =>
            if bool_decide (StoredRow.row_version stored = expected) then []
            else [Violation.mk "durable-effects" (Some i)
                   (row_name entity entity_id +:+ " is at version " +:+ show_version (StoredRow.row_version stored)
                    +:+ " but the cursor " +:+ show cursor +:+ " implies " +:+ show_version expected) at_ms]
        | None =>
            [Violation.mk "durable-effects" (Some i)
               (row_name entity entity_id +:+ " should exist at version " +:+ show_version expected
                +:+ " for cursor " +:+ show cursor +:+ ", and is absent — an applied effect was lost") at_ms]
        end) (rows_at server scope cursor)
  end.
Definition check_durable_effects (at_ms : Z) (databases : list Db.t) (server : Server) (scope : ScopeId.t)
    : Invariants → Invariants := check_each (device_durable_effects at_ms server scope) databases.

Definition device_cursor_bounds (at_ms : Z) (server : Server) (scope : ScopeId.t) (i : nat) (db : Db.t)
    : list Violation.t :=
  match Db.cursors db !! scope with
  | None => []
  | Some cursor =>
      if head server <? Cursor.get cursor then
        [Violation.mk "cursor-bounds" (Some i)
          ("cursor " +:+ show (Cursor.get cursor) +:+ " is ahead of the server's log head " +:+ show (head server)) at_ms]
      else []
  end.
Definition check_cursor_bounds (at_ms : Z) (databases : list Db.t) (server : Server) (scope : ScopeId.t)
    : Invariants → Invariants := check_each (device_cursor_bounds at_ms server scope) databases.
