(* ===== verification/InvariantFacts.v ===== *)
(** * InvariantFacts: each checker is silent exactly when its claim holds. *)

From S2P Require Import Prelude Errors Nums Ids Json Wire Integrity Core Registry Outbox Storage SimStorage.
From S2P Require Import Apply Server SimServer SimServerFacts SimReads Invariants.
From stdpp Require Import options.

Lemma elem_of_btree_ids s id : id ∈ btree_ids s ↔ id ∈ s.
Proof. unfold btree_ids. rewrite merge_sort_Permutation. apply elem_of_elements. Qed.

Lemma btree_ids_nil s : btree_ids s = [] ↔ s = ∅.
Proof.
  split.
  - intros Hs. apply set_eq. intros id. rewrite <- elem_of_btree_ids, Hs.
    split; [by intros ?%not_elem_of_nil|by intros ?%not_elem_of_empty].
  - intros ->. unfold btree_ids. by rewrite elements_empty.
Qed.

(** ** Snapshot checkers *)

Lemma holds_spec inv : holds inv = true ↔ violations inv = [].
Proof. unfold holds. by destruct (violations inv). Qed.

Lemma check_each_from i f dbs inv :
  violations (for_each_from i (λ i db inv, push_violations (f i db) inv) dbs inv) =
    violations inv ++ concat (imap (λ j db, f (i + j)%nat db) dbs).
Proof.
  revert i inv. induction dbs as [|db dbs IH]; intros i inv; cbn [for_each_from]; [by rewrite app_nil_r|].
  rewrite IH, imap_cons. simpl. rewrite <- app_assoc, Nat.add_0_r. do 3 f_equal. apply imap_ext. intros j x _. simpl.
  by rewrite Nat.add_succ_r.
Qed.

Lemma concat_nil {A} (l : list (list A)) : concat l = [] ↔ ∀ x, x ∈ l → x = [].
Proof.
  induction l as [|x l IH]; simpl.
  - split; [by intros _ x ?%not_elem_of_nil|done].
  - rewrite app_nil, IH. split.
    + intros [-> Hl] y [->|Hy]%elem_of_cons; auto.
    + intros Hl. split; [apply Hl; by left|]. intros y Hy. apply Hl. by right.
Qed.

Lemma check_each_holds f dbs inv :
  holds (check_each f dbs inv) = true ↔ holds inv = true ∧ ∀ i db, dbs !! i = Some db → f i db = [].
Proof.
  rewrite !holds_spec. unfold check_each, for_each_db. rewrite check_each_from, app_nil, concat_nil. simpl. split.
  - intros [? Hall]. split; [done|]. intros i db Hi. apply Hall, list_elem_of_lookup. exists i. by rewrite list_lookup_imap, Hi.
  - intros [? Hall]. split; [done|]. intros x (i & Hi)%list_elem_of_lookup. rewrite list_lookup_imap in Hi.
    apply fmap_Some in Hi as (db & Hi & ->). by apply Hall.
Qed.

Lemma flat_map_nil {A B} (f : A → list B) l : flat_map f l = [] ↔ ∀ x, x ∈ l → f x = [].
Proof.
  induction l as [|x l IH]; simpl.
  - split; [by intros _ x ?%not_elem_of_nil|done].
  - rewrite app_nil, IH. split.
    + intros [Hx Hl] y [->|Hy]%elem_of_cons; auto.
    + intros Hl. split; [apply Hl; by left|]. intros y Hy. apply Hl. by right.
Qed.

(** The versions of the rows a device stores. *)
Definition stored_versions (db : Db.t) : LiveRows := StoredRow.row_version <$> Db.rows db.

Lemma applied_state_ok at_ms s scope i db c :
  server_wf s → Db.cursors db !! scope = Some c →
  device_applied_state at_ms s scope i db = [] ↔
    ∀ k v, stored_versions db !! k = Some v → counted (upto s scope (Cursor.get c)) !! k = Some v.
Proof.
  intros Hw Hc. unfold device_applied_state. rewrite Hc, flat_map_nil. unfold stored_versions. split.
  - intros Hall [e j] v Hv. rewrite lookup_fmap in Hv. apply fmap_Some in Hv as (row & Hrow & ->).
    specialize (Hall ((e, j), row)). rewrite btree_entries_perm, elem_of_map_to_list in Hall. specialize (Hall Hrow). simpl in Hall.
    rewrite row_version_at_spec in Hall by done. destruct (counted _ !! _) as [w|]; [|done]. case_bool_decide; [by subst|done].
  - intros Hall [[e j] row]. rewrite btree_entries_perm, elem_of_map_to_list. intros Hrow. rewrite row_version_at_spec by done.
    rewrite (Hall (e, j) (StoredRow.row_version row)); [by rewrite bool_decide_eq_true_2|]. by rewrite lookup_fmap, Hrow.
Qed.

Lemma durable_effects_ok at_ms s scope i db c :
  server_wf s → Db.cursors db !! scope = Some c →
  device_durable_effects at_ms s scope i db = [] ↔
    ∀ k v, counted (upto s scope (Cursor.get c)) !! k = Some v → stored_versions db !! k = Some v.
Proof.
  intros Hw Hc. unfold device_durable_effects. rewrite Hc, flat_map_nil. unfold stored_versions.
  assert (Hin : ∀ e j v, (e, j, v) ∈ rows_at s scope (Cursor.get c) ↔ counted (upto s scope (Cursor.get c)) !! (e, j) = Some v).
  { intros e j v. rewrite rows_at_perm by done. apply elem_of_map_to_list. }
  split.
  - intros Hall [e j] v Hv. specialize (Hall (e, j, v)). rewrite Hin in Hall. specialize (Hall Hv). simpl in Hall.
    rewrite lookup_fmap. destruct (Db.rows db !! (e, j)) as [row|]; [|done]. simpl. case_bool_decide; [by subst|done].
  - intros Hall [[e j] v]. rewrite Hin. intros Hv. specialize (Hall _ _ Hv). rewrite lookup_fmap in Hall.
    apply fmap_Some in Hall as (row & -> & ->). by rewrite bool_decide_eq_true_2.
Qed.

(** Together they ask that a device hold exactly what the server counts at its cursor. *)
Lemma state_checks_exact at_ms s scope i db c :
  server_wf s → Db.cursors db !! scope = Some c →
  device_applied_state at_ms s scope i db = [] ∧ device_durable_effects at_ms s scope i db = [] ↔
    stored_versions db = counted (upto s scope (Cursor.get c)).
Proof.
  intros Hw Hc. rewrite (applied_state_ok _ _ _ _ _ c), (durable_effects_ok _ _ _ _ _ c) by done. split.
  - intros [H1 H2]. apply map_eq. intros k. apply option_eq. intros v. split; auto.
  - intros ->. by split.
Qed.

Lemma cursor_bounds_ok at_ms s scope i db :
  device_cursor_bounds at_ms s scope i db = [] ↔ ∀ c, Db.cursors db !! scope = Some c → Cursor.get c ≤ head s.
Proof.
  unfold device_cursor_bounds. destruct (Db.cursors db !! scope) as [c|]; [|done].
  destruct (Z.ltb_spec (head s) (Cursor.get c)); split; [done| |by intros _ ? [= <-]|done].
  intros Hall. specialize (Hall c eq_refl). lia.
Qed.

(** ** Checkers with a memory

    What two successive looks at one device must satisfy, and what the checker remembers of
    the earlier look. *)

Definition verdicts (db : Db.t) : gmap CommandId.t Verdict.t :=
  fold_left (λ m e, <[e.1 := Verdict.of_resolution e.2]> m) (Db.resolved db) ∅.

Definition cursor_advances (scope : ScopeId.t) (db db' : Db.t) : Prop :=
  ∀ c, Db.cursors db !! scope = Some c → ∃ c', Db.cursors db' !! scope = Some c' ∧ Cursor.get c ≤ Cursor.get c'.
(** One look: no command resolved twice, none both queued and resolved. *)
Definition look_ok (db : Db.t) : Prop := NoDup (Db.resolved db).*1 ∧ queued_ids db ∩ resolved_ids db = ∅.
(** Two looks: the cursor does not go back, a verdict stays, a queued command stays queued or
    is resolved. *)
Definition looks_ok (scope : ScopeId.t) (db db' : Db.t) : Prop :=
  cursor_advances scope db db' ∧ verdicts db ⊆ verdicts db' ∧ queued_ids db ⊆ queued_ids db' ∪ resolved_ids db'.

Record remembers (scope : ScopeId.t) (i : nat) (db : Db.t) (inv : Invariants) : Prop := MkRemembers {
  remembers_cursor : high_water inv !! (i, scope) = Cursor.get <$> Db.cursors db !! scope;
  remembers_verdicts : default ∅ (resolved inv !! i) = verdicts db;
  remembers_queued : queued_ids db ⊆ default ∅ (ever_queued inv !! i) ∧
    default ∅ (ever_queued inv !! i) ⊆ queued_ids db ∪ resolved_ids db;
}.

Lemma verdicts_dom db id : id ∈ dom (verdicts db) ↔ id ∈ resolved_ids db.
Proof.
  unfold verdicts, resolved_ids. rewrite elem_of_list_to_set. generalize (Db.resolved db) as l. intros l.
  induction l as [|[j r] l IH] using rev_ind; [set_solver|]. rewrite fold_left_app, fmap_app. simpl. rewrite dom_insert. set_solver.
Qed.

Lemma note_fold at_ms i l this vs :
  fold_left (note_outcome at_ms i) l (this, vs) =
    (fold_left (λ m e, <[e.1 := Verdict.of_resolution e.2]> m) l this,
     (fold_left (note_outcome at_ms i) l (this, vs)).2) ∧
  ∃ more, (fold_left (note_outcome at_ms i) l (this, vs)).2 = vs ++ more ∧
    (more = [] ↔ NoDup l.*1 ∧ ∀ id, id ∈ l.*1 → this !! id = None).
Proof.
  revert this vs. induction l as [|[id r] l IH]; intros this vs; cbn [fold_left].
  { split; [done|]. exists []. rewrite app_nil_r. split; [done|]. split; [|done]. intros _. split; [constructor|].
    by intros id ?%not_elem_of_nil. }
  destruct (IH (note_outcome at_ms i (this, vs) (id, r)).1 (note_outcome at_ms i (this, vs) (id, r)).2) as [He (more & Hm & Hiff)].
  unfold note_outcome in *. cbn [fst snd] in *. split; [exact He|]. rewrite Hm.
  rewrite fmap_cons. cbn [fst]. setoid_rewrite NoDup_cons. setoid_rewrite elem_of_cons.
  destruct (this !! id) as [prior|] eqn:Ht.
  - eexists. rewrite <- app_assoc. split; [done|]. split; [done|]. intros [_ Hn]. specialize (Hn id (or_introl eq_refl)). congruence.
  - exists more. split; [done|]. rewrite Hiff. split.
    + intros [Hnd Hn]. assert (id ∉ l.*1). { intros Hin. specialize (Hn id Hin). by rewrite lookup_insert_eq in Hn. }
      split_and!; [done|done|]. intros j [->|Hj]; [done|]. specialize (Hn j Hj). by rewrite lookup_insert_ne in Hn by congruence.
    + intros [[Hni Hnd] Hn]. split; [done|]. intros j Hj. rewrite lookup_insert_ne by congruence. apply Hn. by right.
Qed.

Lemma compare_fold at_ms i (this : gmap CommandId.t Verdict.t) ids seen vs :
  NoDup ids → let r := fold_left (compare_outcome at_ms i this) ids (seen, vs) in
  (∀ id, r.1 !! id = match seen !! id with Some v => Some v | None => if decide (id ∈ ids) then this !! id else None end) ∧
  ∃ more, r.2 = vs ++ more ∧
    (more = [] ↔ ∀ id v v', id ∈ ids → this !! id = Some v → seen !! id = Some v' → v = v').
Proof.
  cbv zeta. revert seen vs. induction ids as [|id ids IH]; intros seen vs Hnd; cbn [fold_left].
  { split; [intros id; rewrite decide_False by apply not_elem_of_nil; cbn [fst]; by destruct (seen !! id)|]. exists []. rewrite app_nil_r. split; [done|]. split; [|done].
    by intros _ id v v' ?%not_elem_of_nil. }
  apply NoDup_cons in Hnd as [Hni Hnd]. unfold compare_outcome at 2 4. cbv beta iota.
  assert (Hskip : ∀ seen' : gmap CommandId.t Verdict.t, seen' !! id = match seen !! id with Some v => Some v | None => this !! id end →
    (∀ j, j ≠ id → seen' !! j = seen !! j) →
    ∀ j, match seen' !! j with Some v => Some v | None => if decide (j ∈ ids) then this !! j else None end =
         match seen !! j with Some v => Some v | None => if decide (j ∈ id :: ids) then this !! j else None end).
  { intros seen' H1 H2 j. destruct (decide (j = id)) as [->|Hne].
    - rewrite H1. destruct (seen !! id); [done|]. rewrite (decide_True (P := id ∈ id :: ids)) by by left.
      rewrite (decide_False (P := id ∈ ids)) by done. by destruct (this !! id).
    - rewrite H2 by done. destruct (seen !! j); [done|]. destruct (decide (j ∈ ids)).
      + by rewrite decide_True by by right.
      + rewrite decide_False; [done|]. by rewrite elem_of_cons; naive_solver. }
  destruct (this !! id) as [v|] eqn:Hv; [destruct (seen !! id) as [v'|] eqn:Hs; [destruct (decide (v' = v)) as [->|Hne]|]|].
  - rewrite bool_decide_eq_false_2 by tauto. destruct (IH seen vs Hnd) as [H1 (more & H2 & H3)]. split.
    + intros j. rewrite H1. by apply Hskip.
    + exists more. split; [done|]. rewrite H3. setoid_rewrite elem_of_cons. split; [|naive_solver].
      intros Hall j w w' [->|Hj]; [congruence|eauto].
  - rewrite bool_decide_eq_true_2 by done. edestruct (IH seen) as [H1 (more & H2 & H3)]; [done|]. split.
    + intros j. rewrite H1. by apply Hskip.
    + eexists. rewrite H2, <- app_assoc. split; [done|]. split; [done|]. intros Hall. destruct Hne. symmetry. apply (Hall id); [by left|done..].
  - edestruct (IH (<[id := v]> seen)) as [H1 (more & H2 & H3)]; [done|]. split.
    + intros j. rewrite H1. apply Hskip; [by rewrite lookup_insert_eq|]. intros k Hk. by rewrite lookup_insert_ne.
    + exists more. split; [done|]. rewrite H3. setoid_rewrite elem_of_cons. split.
      * intros Hall j w w' [->|Hj]; [congruence|]. intros Hw Hw'. apply (Hall j); [done..|]. by rewrite lookup_insert_ne by congruence.
      * intros Hall j w w' Hj Hw Hw'. rewrite lookup_insert_ne in Hw' by congruence. eauto.
  - edestruct (IH seen) as [H1 (more & H2 & H3)]; [done|]. split.
    + intros j. rewrite H1. apply Hskip; [by destruct (seen !! id)|done].
    + exists more. split; [done|]. rewrite H3. setoid_rewrite elem_of_cons. split; [|naive_solver].
      intros Hall j w w' [->|Hj]; [congruence|eauto].
Qed.

(** What a checker of device [i] leaves of the rest, and the violations it adds. *)
Definition only_device (i : nat) (inv inv' : Invariants) (vs : list Violation.t) : Prop :=
  violations inv' = violations inv ++ vs ∧
  ∀ j, j ≠ i → (∀ sc, high_water inv' !! (j, sc) = high_water inv !! (j, sc)) ∧
    resolved inv' !! j = resolved inv !! j ∧ ever_queued inv' !! j = ever_queued inv !! j.

Lemma only_device_trans i a b c vs ws : only_device i a b vs → only_device i b c ws → only_device i a c (vs ++ ws).
Proof.
  intros [H1 H2] [H3 H4]. split; [by rewrite H3, H1, app_assoc|]. intros j Hj.
  destruct (H2 j Hj) as (A1 & A2 & A3), (H4 j Hj) as (B1 & B2 & B3). split_and!; [|congruence..].
  intros sc. by rewrite B1.
Qed.

Definition cursor_natural (scope : ScopeId.t) (db : Db.t) : Prop := ∀ c, Db.cursors db !! scope = Some c → 0 ≤ Cursor.get c.

Lemma cursor_step at_ms scope i db db' inv :
  cursor_natural scope db' → remembers scope i db inv →
  ∃ vs, only_device i inv (check_cursor_monotonic at_ms i db' scope inv) vs ∧
    (vs = [] ↔ cursor_advances scope db db') ∧
    (vs = [] → high_water (check_cursor_monotonic at_ms i db' scope inv) !! (i, scope) = Cursor.get <$> Db.cursors db' !! scope) ∧
    resolved (check_cursor_monotonic at_ms i db' scope inv) = resolved inv ∧
    ever_queued (check_cursor_monotonic at_ms i db' scope inv) = ever_queued inv.
Proof.
  intros Hnat [Hc _ _]. unfold check_cursor_monotonic, cursor_advances in *. rewrite Hc.
  destruct (Db.cursors db' !! scope) as [c'|] eqn:E'.
  - eexists. split; [split; [reflexivity|]|].
    { intros j Hj. split_and!; [|done..]. intros sc. simpl. by rewrite lookup_insert_ne by congruence. }
    specialize (Hnat c' E'). simpl. rewrite lookup_insert_eq.
    destruct (Db.cursors db !! scope) as [c|] eqn:E; simpl.
    + destruct (Z.ltb_spec (Cursor.get c') (Cursor.get c)); split_and!; try done.
      * split; [done|]. intros Hall. destruct (Hall c eq_refl) as (? & [= <-] & ?). lia.
      * split; [|done]. intros _ x [= <-]. by exists c'.
      * intros _. f_equal. lia.
    + destruct (Z.ltb_spec (Cursor.get c') 0); [lia|]. split_and!; try done. intros _. f_equal. lia.
  - destruct (Db.cursors db !! scope) as [c|] eqn:E; simpl.
    + eexists. split; [split; [reflexivity|]|].
      { intros j Hj. split_and!; [|done..]. intros sc. simpl. by rewrite lookup_delete_ne by congruence. }
      split_and!; try done. split; [done|]. intros Hall. by destruct (Hall c eq_refl) as (? & [=] & _).
    + exists []. split; [split; [by rewrite app_nil_r|done]|]. by split_and!.
Qed.

(** The comparison with what was seen, over every outcome now stored: silent, with nothing
    lost, exactly when nothing seen has changed; and then what is seen is what is stored. *)
Lemma compare_all at_ms i (this old : gmap CommandId.t Verdict.t) :
  let r := fold_left (compare_outcome at_ms i this) (btree_ids (dom this)) (old, []) in
  let lost := filter (λ id, this !! id = None) (btree_ids (dom r.1)) in
  (r.2 = [] ∧ lost = [] ↔ old ⊆ this) ∧ (r.2 = [] ∧ lost = [] → r.1 = this).
Proof.
  intros r. assert (Hnd : NoDup (btree_ids (dom this))) by (unfold btree_ids; rewrite merge_sort_Permutation; apply NoDup_elements).
  destruct (compare_fold at_ms i this (btree_ids (dom this)) old [] Hnd) as [Hseen (more & Hm & Hiff)].
  fold r in Hseen, Hm. rewrite app_nil_l in Hm. subst more. intros lost.
  assert (Hseen' : ∀ id, r.1 !! id = match old !! id with Some v => Some v | None => this !! id end).
  { intros id. rewrite Hseen. destruct (old !! id); [done|]. case_decide as Hd; [done|].
    rewrite elem_of_btree_ids, elem_of_dom in Hd. symmetry. by apply eq_None_not_Some. }
  assert (Hsame : r.2 = [] ↔ ∀ id v v', this !! id = Some v → old !! id = Some v' → v = v').
  { rewrite Hiff. split; [|naive_solver]. intros Hall id v v' Hv. apply (Hall id v v'); [|done].
    apply elem_of_btree_ids, elem_of_dom. by exists v. }
  assert (Hlost : lost = [] ↔ ∀ id v, old !! id = Some v → is_Some (this !! id)).
  { assert (Hel : ∀ id, id ∈ lost ↔ this !! id = None ∧ is_Some (old !! id)).
    { intros id. unfold lost. rewrite list_elem_of_filter, elem_of_btree_ids, elem_of_dom, Hseen'.
      split; intros [Hn Hs]; (split; [done|]); destruct (old !! id); rewrite ?Hn in *; naive_solver. }
    split.
    - intros Hl id v Hid. destruct (this !! id) eqn:E; [done|]. assert (id ∈ lost) as Hin by (apply Hel; by rewrite Hid).
      rewrite Hl in Hin. by apply not_elem_of_nil in Hin.
    - intros Hall. destruct lost as [|id l]; [done|]. destruct (Hel id) as [[Hn [v Hs]] _]; [by left|].
      destruct (Hall id v Hs) as [w Hw]. congruence. }
  assert (Hiff' : r.2 = [] ∧ lost = [] ↔ old ⊆ this).
  { rewrite Hsame, Hlost, map_subseteq_spec. split.
    - intros [H1 H2] id v Hid. destruct (H2 id v Hid) as [w Hw]. rewrite Hw. f_equal. eauto.
    - intros Hsub. split; [|naive_solver]. intros id v v' Hv Hid. specialize (Hsub id v' Hid). congruence. }
  split; [exact Hiff'|]. intros Hr. apply Hiff' in Hr. rewrite map_subseteq_spec in Hr. apply map_eq. intros id. rewrite Hseen'.
  destruct (old !! id) as [v|] eqn:E; [symmetry; auto|done].
Qed.

Lemma fmap_nil_iff {A B} (f : A → B) (l : list A) : f <$> l = [] ↔ l = [].
Proof. by destruct l. Qed.

Lemma durability_step at_ms scope i db db' inv :
  default ∅ (resolved inv !! i) = verdicts db →
  let inv' := check_durability_and_idempotency at_ms i db' inv in
  ∃ vs, only_device i inv inv' vs ∧
    (vs = [] ↔ NoDup (Db.resolved db').*1 ∧ verdicts db ⊆ verdicts db') ∧
    (vs = [] → default ∅ (resolved inv' !! i) = verdicts db') ∧
    high_water inv' !! (i, scope) = high_water inv !! (i, scope) ∧ ever_queued inv' = ever_queued inv.
Proof.
  intros Hv. unfold check_durability_and_idempotency. rewrite Hv.
  destruct (note_fold at_ms i (Db.resolved db') ∅ []) as [Hnote (more & Hm & Hiff)].
  rewrite Hnote, Hm. fold (verdicts db'). clear Hnote Hm. rewrite app_nil_l.
  destruct (compare_all at_ms i (verdicts db') (verdicts db)) as [Hsub Hsame].
  destruct (fold_left (compare_outcome at_ms i (verdicts db')) _ _) as [seen vs2]. cbn [fst snd] in *. cbv zeta.
  set (lost := filter _ _) in *.
  eexists. split; [split; [reflexivity|]|].
  { intros j Hj. split_and!; [done| |done]. simpl. by rewrite lookup_insert_ne. }
  split_and!; [| |done|done].
  - rewrite !app_nil, fmap_nil_iff, Hsub, Hiff. naive_solver.
  - rewrite !app_nil, fmap_nil_iff. intros (_ & H2 & H3). simpl. rewrite lookup_insert_eq. simpl. rewrite (Hsame (conj H2 H3)).
    by rewrite H3.
Qed.

Lemma no_loss_step at_ms scope i db db' inv :
  queued_ids db ⊆ default ∅ (ever_queued inv !! i) → default ∅ (ever_queued inv !! i) ⊆ queued_ids db ∪ resolved_ids db →
  resolved_ids db ⊆ resolved_ids db' →
  let inv' := check_no_loss at_ms i db' inv in
  ∃ vs, only_device i inv inv' vs ∧
    (vs = [] ↔ queued_ids db' ∩ resolved_ids db' = ∅ ∧ queued_ids db ⊆ queued_ids db' ∪ resolved_ids db') ∧
    (vs = [] → queued_ids db' ⊆ default ∅ (ever_queued inv' !! i) ∧
       default ∅ (ever_queued inv' !! i) ⊆ queued_ids db' ∪ resolved_ids db') ∧
    high_water inv' !! (i, scope) = high_water inv !! (i, scope) ∧ resolved inv' = resolved inv.
Proof.
  intros Hlo Hhi Hres. unfold check_no_loss. set (ever := default ∅ (ever_queued inv !! i)) in *. cbv zeta.
  set (gone := filter _ (ever ∪ queued_ids db')).
  assert (Hgone : gone = ∅ ↔ ever ⊆ queued_ids db' ∪ resolved_ids db').
  { unfold gone. split.
    - intros Hg id Hid. destruct (decide (id ∈ queued_ids db' ∪ resolved_ids db')) as [|Hn]; [done|].
      assert (id ∈ filter (λ id, (id ∉ queued_ids db') ∧ (id ∉ resolved_ids db')) (ever ∪ queued_ids db')) as Hin
        by (apply elem_of_filter; set_solver). rewrite Hg in Hin. set_solver.
    - intros Hsub. apply set_eq. intros id. rewrite elem_of_filter. set_solver. }
  eexists. split; [split; [reflexivity|]|].
  { intros j Hj. split_and!; [done..|]. simpl. by rewrite lookup_insert_ne. }
  split_and!; [| |done|done].
  - rewrite app_nil, !fmap_nil_iff, !btree_ids_nil, Hgone. set_solver.
  - rewrite app_nil, !fmap_nil_iff, !btree_ids_nil, Hgone. intros [_ Hsub]. simpl. rewrite lookup_insert_eq. simpl.
    apply Hgone in Hsub. rewrite Hsub. split; [|apply Hgone in Hsub]; unfold btree_ids; rewrite elements_empty; simpl; set_solver.
Qed.

(** ** One device, one step *)

Lemma no_loss_only at_ms i db inv : ∃ vs, only_device i inv (check_no_loss at_ms i db inv) vs.
Proof.
  unfold check_no_loss. eexists. split; [reflexivity|]. intros j Hj. split_and!; [done..|]. simpl. by rewrite lookup_insert_ne.
Qed.

Lemma device_step at_ms scope i db db' inv :
  cursor_natural scope db' → remembers scope i db inv →
  let inv' := check_device at_ms scope i db' inv in
  ∃ vs, only_device i inv inv' vs ∧ (vs = [] ↔ look_ok db' ∧ looks_ok scope db db') ∧
    (vs = [] → remembers scope i db' inv').
Proof.
  intros Hnat Hrem. unfold check_device, look_ok, looks_ok.
  destruct (cursor_step at_ms scope i db db' inv Hnat Hrem) as (vs1 & Ho1 & Hiff1 & Hc1 & Hr1 & Hq1).
  set (inv1 := check_cursor_monotonic _ _ _ _ _) in *. destruct Hrem as [_ Hv [Hlo Hhi]].
  destruct (durability_step at_ms scope i db db' inv1) as (vs2 & Ho2 & Hiff2 & Hv2 & Hc2 & Hq2); [by rewrite Hr1|].
  set (inv2 := check_durability_and_idempotency _ _ _ _) in *.
  destruct vs2 as [|v vs2].
  - destruct (proj1 Hiff2 eq_refl) as [Hnd Hsub].
    assert (resolved_ids db ⊆ resolved_ids db') as Hres.
    { intros id. rewrite <- !verdicts_dom. apply subseteq_dom, Hsub. }
    destruct (no_loss_step at_ms scope i db db' inv2) as (vs3 & Ho3 & Hiff3 & Hq3 & Hc3 & Hr3); [by rewrite Hq2, Hq1..|done|].
    exists (vs1 ++ [] ++ vs3). split; [by eapply only_device_trans, only_device_trans|]. split.
    + rewrite app_nil_l, app_nil, Hiff1, Hiff3. tauto.
    + rewrite app_nil_l, app_nil. intros [-> ->]. split; [by rewrite Hc3, Hc2, Hc1|by rewrite Hr3, Hv2|by apply Hq3].
  - destruct (no_loss_only at_ms i db' inv2) as [vs3 Ho3]. exists (vs1 ++ (v :: vs2) ++ vs3).
    split; [by eapply only_device_trans, only_device_trans|]. split; [|by destruct vs1].
    split; [by destruct vs1|]. intros [[Hnd _] [_ [Hsub _]]]. discriminate (proj2 Hiff2 (conj Hnd Hsub)).
Qed.

(** ** All devices, a whole run *)

Lemma remembers_ext scope i db inv inv' vs j : only_device j inv inv' vs → i ≠ j → remembers scope i db inv → remembers scope i db inv'.
Proof. intros [_ Ho] Hij [H1 H2 H3]. destruct (Ho i Hij) as (A1 & A2 & A3). split; [by rewrite A1|by rewrite A2|by rewrite A3]. Qed.

Definition step_ok (scope : ScopeId.t) (db db' : Db.t) : Prop := look_ok db' ∧ looks_ok scope db db'.

Lemma devices_step at_ms scope dbs prevs k inv :
  length prevs = length dbs → Forall (cursor_natural scope) dbs →
  (∀ j db, prevs !! j = Some db → remembers scope (k + j)%nat db inv) →
  let inv' := for_each_from k (check_device at_ms scope) dbs inv in
  ∃ vs, violations inv' = violations inv ++ vs ∧ (vs = [] ↔ Forall2 (step_ok scope) prevs dbs) ∧
    (vs = [] → ∀ j db, dbs !! j = Some db → remembers scope (k + j)%nat db inv') ∧
    (∀ i db, (i < k)%nat → remembers scope i db inv → remembers scope i db inv').
Proof.
  revert prevs k inv. induction dbs as [|db' dbs IH]; intros prevs k inv Hlen Hnat Hrem; cbn [for_each_from]; cbv zeta.
  { exists []. rewrite app_nil_r. destruct prevs; [|done]. split_and!; [done|by split|done|done]. }
  destruct prevs as [|db prevs]; [done|]. injection Hlen as Hlen. apply Forall_cons in Hnat as [Hn Hnat].
  destruct (device_step at_ms scope k db db' inv Hn) as (vs1 & Ho & Hiff & Hr); [specialize (Hrem 0%nat db eq_refl); by rewrite Nat.add_0_r in Hrem|].
  destruct (IH prevs (S k) (check_device at_ms scope k db' inv) Hlen Hnat) as (vs2 & Hv2 & Hiff2 & Hr2 & Hlow).
  { intros j x Hj. eapply remembers_ext; [exact Ho|lia|]. specialize (Hrem (S j) x Hj). by rewrite Nat.add_succ_r in Hrem. }
  exists (vs1 ++ vs2). split_and!.
  - rewrite Hv2, (proj1 Ho), app_assoc. done.
  - rewrite app_nil, Hiff, Hiff2, Forall2_cons. done.
  - intros [Hv1 H2]%app_nil j x Hj. destruct j as [|j]; [|rewrite Nat.add_succ_r; by apply Hr2].
    simpl in Hj. injection Hj as <-. rewrite Nat.add_0_r. apply Hlow; [lia|]. by apply Hr.
  - intros i x Hi Hx. apply Hlow; [lia|]. eapply remembers_ext; [exact Ho|lia|done].
Qed.

Lemma check_device_adds at_ms scope i db inv : ∃ vs, violations (check_device at_ms scope i db inv) = violations inv ++ vs.
Proof.
  unfold check_device. destruct (no_loss_only at_ms i db (check_durability_and_idempotency at_ms i db (check_cursor_monotonic at_ms i db scope inv)))
    as [vs3 [-> _]]. unfold check_durability_and_idempotency, check_cursor_monotonic.
  destruct (fold_left (note_outcome _ _) _ _) as [this vs1], (fold_left (compare_outcome _ _ _) _ _) as [seen vs2].
  destruct (Db.cursors db !! scope); [|destruct (high_water inv !! (i, scope))]; simpl; rewrite <- ?app_assoc; by eexists.
Qed.

Lemma check_step_adds at_ms dbs scope inv : ∃ vs, violations (check_step at_ms dbs scope inv) = violations inv ++ vs.
Proof.
  unfold check_step, for_each_db. generalize 0%nat as k. revert inv. induction dbs as [|db dbs IH]; intros inv k; cbn [for_each_from].
  - exists []. by rewrite app_nil_r.
  - destruct (IH (check_device at_ms scope k db inv) (S k)) as [vs2 ->]. destruct (check_device_adds at_ms scope k db inv) as [vs1 ->].
    rewrite <- app_assoc. by eexists.
Qed.

(** The databases as they stood at each check. *)
Fixpoint watch (scope : ScopeId.t) (looks : list (Z * list Db.t)) (inv : Invariants) : Invariants :=
  match looks with
  | [] => inv
  | (at_ms, dbs) :: rest => watch scope rest (check_step at_ms dbs scope inv)
  end.
Fixpoint watch_ok (scope : ScopeId.t) (prevs : list Db.t) (looks : list (Z * list Db.t)) : Prop :=
  match looks with
  | [] => True
  | (_, dbs) :: rest => Forall2 (step_ok scope) prevs dbs ∧ watch_ok scope dbs rest
  end.

Lemma watch_adds scope looks inv : ∃ vs, violations (watch scope looks inv) = violations inv ++ vs.
Proof.
  revert inv. induction looks as [|[t dbs] looks IH]; intros inv; cbn [watch]; [exists []; by rewrite app_nil_r|].
  destruct (IH (check_step t dbs scope inv)) as [vs2 ->]. destruct (check_step_adds t dbs scope inv) as [vs1 ->].
  rewrite <- app_assoc. by eexists.
Qed.

Lemma watch_holds scope looks prevs inv :
  Forall (λ l, length l.2 = length prevs ∧ Forall (cursor_natural scope) l.2) looks →
  (∀ j db, prevs !! j = Some db → remembers scope j db inv) → holds inv = true →
  (holds (watch scope looks inv) = true ↔ watch_ok scope prevs looks).
Proof.
  revert prevs inv. induction looks as [|[t dbs] looks IH]; intros prevs inv Hl Hrem Hh; cbn [watch watch_ok]; [done|].
  apply Forall_cons in Hl as [[Hlen Hnat] Hl]. cbn [snd] in *.
  destruct (devices_step t scope dbs prevs 0 inv (eq_sym Hlen) Hnat Hrem) as (vs & Hv & Hiff & Hr & _).
  fold (for_each_db (check_device t scope) dbs inv) in *. fold (check_step t dbs scope inv) in *.
  apply holds_spec in Hh. rewrite Hh in Hv. simpl in Hv. destruct vs as [|v vs].
  - rewrite (IH dbs); [split; [intros; split; [by apply Hiff|done]|by intros [_ ?]]|by rewrite Hlen|by apply Hr|by apply holds_spec].
  - split.
    + intros Hw%holds_spec. destruct (watch_adds scope looks (check_step t dbs scope inv)) as [ws Hws]. rewrite Hw, Hv in Hws. done.
    + intros [Hf _]. by apply Hiff in Hf.
Qed.

Lemma remembers_start scope j : remembers scope j Db.new Invariants_new.
Proof. by split. Qed.
