(* ===== verification/Trace.v ===== *)
(** * Trace: what a simulated run recorded (credsync-sim/src/trace.rs).

    Lines are kept only when recording; faults are always counted. *)

From S2P Require Import Prelude FaultMenu.
From stdpp Require Import options.

(** [{:0width$}] of an integer: the sign counts towards the width. *)
Fixpoint zeros (n : nat) : string := match n with O => "" | S n => "0" +:+ zeros n end.
Definition pad_zero (width : nat) (n : Z) : string :=
  let digits := show (Z.abs n) in
  if n <? 0 then "-" +:+ zeros (width - 1 - String.length digits) +:+ digits
  else zeros (width - String.length digits) +:+ digits.

(** [str::trim_end] on the spaces this module writes, and [lines.join]. *)
Fixpoint trim_end (s : string) : string :=
  match s with
  | EmptyString => ""
  | String c r =>
      match trim_end r with
      | EmptyString => if Ascii.eqb c " "%char then "" else String c ""
      | r => String c r
      end
  end.
Fixpoint join (sep : string) (l : list string) : string :=
  match l with
  | [] => ""
  | [x] => x
  | x :: r => x +:+ sep +:+ join sep r
  end.
Definition newline : string := String (ascii_of_nat 10) "".

Module Trace.
Record t := mk {
  lines : list string;
  faults : gmap string Z;
  recording : bool;
}.

Definition counting : t := mk [] ∅ false.
Definition recorder : t := mk [] ∅ true.

Definition event (at_ms : Z) (device : nat) (what : string) (tr : t) : t :=
  if recording tr then
    mk (lines tr ++ [pad_zero 12 at_ms +:+ " d" +:+ pad_zero 2 (Z.of_nat device) +:+ " " +:+ what])
      (faults tr) (recording tr)
  else tr.

Definition fault (at_ms : Z) (device : nat) (f : Fault.t) (tr : t) : t :=
  event at_ms device (Fault.name f)
    (mk (lines tr) (partial_alter (λ n, Some (default 0 n + 1)) (Fault.name f) (faults tr)) (recording tr)).

Definition len (tr : t) : nat := length (lines tr).
Definition is_empty (tr : t) : bool := match lines tr with [] => true | _ => false end.
Definition render (tr : t) : string := join newline (lines tr).
Definition to_bytes (tr : t) : bytes := as_bytes (join newline (lines tr)).

Definition coverage (tr : t) : string :=
  trim_end (fold_left (λ out f, out +:+ Fault.name f +:+ "=" +:+ show (default 0 (faults tr !! Fault.name f)) +:+ " ")
    Fault.ALL "").
End Trace.

(** ** Facts *)

(** A trace that records changes nothing about what is counted, and one that does not record
    keeps no line. *)
Lemma fault_counts at_ms device f tr g :
  default 0 (Trace.faults (Trace.fault at_ms device f tr) !! Fault.name g) =
    default 0 (Trace.faults tr !! Fault.name g) + (if decide (f = g) then 1 else 0).
Proof.
  unfold Trace.fault, Trace.event. simpl.
  case_decide as Hd; [subst|]; destruct (Trace.recording tr); simpl.
  1,2: by rewrite lookup_partial_alter_eq.
  all: rewrite lookup_partial_alter_ne; [lia|]; intros He; by apply (inj Fault.name) in He.
Qed.
