(* ===== verification/World.v ===== *)
(** * World: N devices and one server in simulated time (credsync-sim/src/world.rs).

    Each device runs the client's own [Engine] over the simulator's fakes. The source gives the
    engine clones of the device's storage, clock and transport, which share one cell each; here
    the engine's field is that cell, and what the world does through its own handle it does to
    the engine's field. *)

From S2P Require Import Prelude Errors Nums Ids Json Wire Integrity Core Registry Outbox Storage SimStorage.
From S2P Require Import Apply Engine Server Rng FaultMenu Pressure SimServer Invariants Trace.
From stdpp Require Import options.

Definition STEP_MS : Z := 60000.
Definition PULL_LIMIT : nat := 4.
Definition START_MS : Z := 1756137600000.
Definition SETTLE_STEPS : nat := 600.

(** ** The fakes that wrap a generator and a clock (fakes.rs) *)

Definition SimEntropy : Type := Rng.t.
Definition SimEntropy_new (seed : Z) : SimEntropy := Rng.new seed.
Fixpoint fill_bytes (rng : Rng.t) (n : nat) : Rng.t * bytes :=
  match n with
  | O => (rng, [])
  | S n =>
      let '(rng, x) := Rng.next_u32 rng in
      let '(rng, rest) := fill_bytes rng n in
      (rng, Z.land x 255 :: rest)
  end.
#[export] Instance SimEntropy_inst : Entropy SimEntropy := { fill := fill_bytes }.

Definition SimClock_new (now_ms skew_ms drift_ppm : Z) : ClockState.t :=
  ClockState.mk now_ms skew_ms drift_ppm now_ms.
Definition advance_to (now_ms : Z) (c : ClockState.t) : ClockState.t :=
  ClockState.mk now_ms (ClockState.skew_ms c) (ClockState.drift_ppm c) (ClockState.epoch_ms c).
Definition set_online (b : bool) (t : SimTransport.t) : SimTransport.t :=
  SimTransport.mk (SimTransport.pending t) (SimTransport.next_id t) b.
(** [SimCompressor::default]. *)
Definition default_compressor : SimCompressor.t := SimCompressor.with_ratio 4.

(** ** Data *)

Abbreviation SimEngine := (Engine ClockState.t SimEntropy Db.t SimTransport.t SimCompressor.t).
Abbreviation Response := (result WireResponse TransportError).

Module InFlight.
Record t := mk { device : nat; deliver_at_ms : Z; response : Response }.
End InFlight.

Module Device.
Record t := mk {
  engine : SimEngine;
  offline_until_ms : Z;
  requests_sent : Z;
  commands_authored : Z;
  pending_kill : bool;
}.
Definition set_engine (e : SimEngine) (d : t) : t :=
  mk e (offline_until_ms d) (requests_sent d) (commands_authored d) (pending_kill d).
Definition set_offline (until : Z) (d : t) : t :=
  mk (engine d) until (requests_sent d) (commands_authored d) (pending_kill d).
Definition set_requests_sent (n : Z) (d : t) : t :=
  mk (engine d) (offline_until_ms d) n (commands_authored d) (pending_kill d).
Definition set_commands_authored (n : Z) (d : t) : t :=
  mk (engine d) (offline_until_ms d) (requests_sent d) n (pending_kill d).
Definition set_pending_kill (b : bool) (d : t) : t :=
  mk (engine d) (offline_until_ms d) (requests_sent d) (commands_authored d) b.

(** Through the device's own handles. *)
Definition with_clock (f : ClockState.t → ClockState.t) (d : t) : t :=
  let e := engine d in
  set_engine (MkEngine (f (clock e)) (entropy e) (storage e) (transport e) (compressor e) (effects e) (scopes e)
    (outbox_queue e) (registry e) (migrations e) (suspect e) (outbox_suspect e) (health e) (upgrade_required e)) d.
Definition with_transport (f : SimTransport.t → SimTransport.t) (d : t) : t :=
  let e := engine d in
  set_engine (MkEngine (clock e) (entropy e) (storage e) (f (transport e)) (compressor e) (effects e) (scopes e)
    (outbox_queue e) (registry e) (migrations e) (suspect e) (outbox_suspect e) (health e) (upgrade_required e)) d.
Definition with_storage (f : Db.t → Db.t) (d : t) : t := set_engine (set_storage (f (storage (engine d))) (engine d)) d.
Definition db (d : t) : Db.t := storage (engine d).
End Device.

Record World := MkWorld {
  devices : list Device.t;
  server : Server;
  rng : Rng.t;
  rates : FaultRates.t;
  now_ms : Z;
  in_flight : list InFlight.t;
  held : list InFlight.t;
  scope : ScopeId.t;
  entity : EntityName.t;
  quiet : bool;
  trace : Trace.t;
  invariants : Invariants;
  registry : Registry;
  pressure : Pressure.t;
}.

Definition set_devices f w := MkWorld (f (devices w)) (server w) (rng w) (rates w) (now_ms w) (in_flight w) (held w)
  (scope w) (entity w) (quiet w) (trace w) (invariants w) (registry w) (pressure w).
Definition set_server f w := MkWorld (devices w) (f (server w)) (rng w) (rates w) (now_ms w) (in_flight w) (held w)
  (scope w) (entity w) (quiet w) (trace w) (invariants w) (registry w) (pressure w).
Definition set_rng r w := MkWorld (devices w) (server w) r (rates w) (now_ms w) (in_flight w) (held w)
  (scope w) (entity w) (quiet w) (trace w) (invariants w) (registry w) (pressure w).
Definition set_rates r w := MkWorld (devices w) (server w) (rng w) r (now_ms w) (in_flight w) (held w)
  (scope w) (entity w) (quiet w) (trace w) (invariants w) (registry w) (pressure w).
Definition set_now t w := MkWorld (devices w) (server w) (rng w) (rates w) t (in_flight w) (held w)
  (scope w) (entity w) (quiet w) (trace w) (invariants w) (registry w) (pressure w).
Definition set_in_flight f w := MkWorld (devices w) (server w) (rng w) (rates w) (now_ms w) (f (in_flight w)) (held w)
  (scope w) (entity w) (quiet w) (trace w) (invariants w) (registry w) (pressure w).
Definition set_held f w := MkWorld (devices w) (server w) (rng w) (rates w) (now_ms w) (in_flight w) (f (held w))
  (scope w) (entity w) (quiet w) (trace w) (invariants w) (registry w) (pressure w).
Definition set_quiet b w := MkWorld (devices w) (server w) (rng w) (rates w) (now_ms w) (in_flight w) (held w)
  (scope w) (entity w) b (trace w) (invariants w) (registry w) (pressure w).
Definition set_trace f w := MkWorld (devices w) (server w) (rng w) (rates w) (now_ms w) (in_flight w) (held w)
  (scope w) (entity w) (quiet w) (f (trace w)) (invariants w) (registry w) (pressure w).
Definition set_invariants f w := MkWorld (devices w) (server w) (rng w) (rates w) (now_ms w) (in_flight w) (held w)
  (scope w) (entity w) (quiet w) (trace w) (f (invariants w)) (registry w) (pressure w).
Definition set_pressure p w := MkWorld (devices w) (server w) (rng w) (rates w) (now_ms w) (in_flight w) (held w)
  (scope w) (entity w) (quiet w) (trace w) (invariants w) (registry w) p.

(** [self.devices[i]], read and written. An index past the end panics in the source; the
    world only uses indices of its devices. *)
Definition on_device (i : nat) (f : Device.t → Device.t) (w : World) : World := set_devices (alter f i) w.
Definition databases (w : World) : list Db.t := Device.db <$> devices w.

Definition fault (i : nat) (f : Fault.t) (w : World) : World := set_trace (Trace.fault (now_ms w) i f) w.
Definition event (i : nat) (what : string) (w : World) : World := set_trace (Trace.event (now_ms w) i what) w.
Definition draw_chance (percent : Z) (w : World) : World * bool :=
  let '(r, b) := Rng.chance (rng w) percent in (set_rng r w, b).
Definition draw_range (low high : Z) (w : World) : World * Z :=
  let '(r, n) := Rng.range (rng w) low high in (set_rng r w, n).

(** ** Free functions *)

Definition submit_reflection : CommandName.t := CommandName.mk "submit_reflection".
Definition one_version : SchemaVersion.t := SchemaVersion.mk 1.

Definition register (entity : EntityName.t) (scope : ScopeId.t) (r : Registry) : Registry :=
  Registry.register_command submit_reflection entity
    (register_entity (EntityRegistration.mk entity scope OwnerDraft one_version) r).

(** Bytes 0, 1, 6, 11 and the counter in 12 to 15. *)
Definition command_id (device n : Z) : CommandId.t :=
  let b := [1; 145; 0; 0; 0; 0; 112; 0; 0; 0; 0; device] ++ be_bytes 4 n in
  unwrap_or (CommandId.from_bytes b) (CommandId.mk b).

Definition repeat_last_result (response : PushResponse.t) : PushResponse.t * bool :=
  match last (PushResponse.results response) with
  | Some r => (PushResponse.mk (PushResponse.protocol response) (PushResponse.results response ++ [r]), true)
  | None => (response, false)
  end.

Definition push_change (c : Change.t) (b : Batch.t) : Batch.t :=
  Batch.mk (Batch.scope b) (Batch.changes b ++ [c]) (Batch.next_cursor b) (Batch.has_more b) (Batch.checksum b) (Batch.digest b).
Fixpoint repeat_in_batches (batches : list Batch.t) : list Batch.t * bool :=
  match batches with
  | [] => ([], false)
  | b :: rest =>
      match last (Batch.changes b) with
      | Some c => (push_change c b :: rest, true)
      | None => let '(rest, done) := repeat_in_batches rest in (b :: rest, done)
      end
  end.
Definition repeat_last_change (response : PullResponse.t) : PullResponse.t * bool :=
  let '(batches, done) := repeat_in_batches (PullResponse.batches response) in
  (PullResponse.mk (PullResponse.protocol response) batches, done).

Definition digest_from_hex (hex : HexString.t) : option ScopeDigest.t :=
  ScopeDigest.from_raw <$> u128_from_str_radix_16 (HexString.as_str hex).

(** [Server::protocol]. *)
Definition protocol : ProtocolVersion.t := ProtocolVersion.mk 1.

(** ** Building a world *)

(** The engine of a device, its registry filled in. *)
Definition build_engine (entity : EntityName.t) (scope : ScopeId.t) (c : ClockState.t) (e : SimEntropy) (db : Db.t)
    (z : SimCompressor.t) : SimEngine :=
  set_registry (register entity scope) (Engine.new c e db SimTransport.new z).

Definition new_device (entity : EntityName.t) (scope : ScopeId.t) (now_ms : Z) (rng : Rng.t) : Rng.t * Device.t :=
  let '(rng, skew) := Rng.signed rng SKEW_MAGNITUDE_MS in
  let '(rng, drift) := Rng.range rng 0 400 in
  let clock := SimClock_new now_ms skew (drift - 200) in
  let '(rng, seed) := Rng.next_u64 rng in
  let '(rng, ratio) := Rng.range rng 1 8 in
  let engine := build_engine entity scope clock (SimEntropy_new seed) Db.new (SimCompressor.with_ratio (Z.to_N ratio)) in
  (rng, Device.mk engine 0 0 0 false).
Fixpoint new_devices (n : nat) (entity : EntityName.t) (scope : ScopeId.t) (now_ms : Z) (rng : Rng.t)
    : Rng.t * list Device.t :=
  match n with
  | O => (rng, [])
  | S n =>
      let '(rng, d) := new_device entity scope now_ms rng in
      let '(rng, ds) := new_devices n entity scope now_ms rng in
      (rng, d :: ds)
  end.

Definition World_new (seed : Z) (rates : FaultRates.t) (trace : Trace.t) : World :=
  let rng := Rng.new seed in
  let scope := ScopeId.mk "inst:adl:enr:2026-cohort" in
  let entity := EntityName.mk "reflections" in
  let '(rng, device_count) := Rng.range rng 2 4 in
  let server := SimServer.register_command "submit_reflection" entity scope SimServer.new in
  let registry := register entity scope Registry_new in
  let '(rng, devices) := new_devices (Z.to_nat device_count) entity scope START_MS rng in
  MkWorld devices server rng rates START_MS [] [] scope entity false trace Invariants_new registry Pressure.new.

Section world.
Context `{Hashes} `{Codec}.

(** ** One device's turn *)

Definition restart_device (i : nat) (w : World) : World :=
  let w := fault i Fault.DeviceRestarted w in
  match devices w !! i with
  | None => w
  | Some d =>
      let '(r, seed) := Rng.next_u64 (rng w) in
      let w := set_rng r w in
      let db := Device.db d in
      let engine := build_engine (entity w) (scope w) (clock (Device.engine d)) (SimEntropy_new seed) db default_compressor in
      let engine :=
        match Db.cursors db !! scope w with
        | Some cursor =>
            let digest := default ScopeDigest.EMPTY (Db.digests db !! scope w ≫= digest_from_hex) in
            restore_scope (scope w) (ScopeState.restored cursor digest) engine
        | None => engine
        end in
      let engine := restore_outbox ((λ '(c, s), OutboxEntry.mk c s) <$> Db.outbox db) engine in
      on_device i (λ d, Device.set_pending_kill false (Device.set_engine engine d)) w
  end.

Definition maybe_kill (i : nat) (w : World) : World :=
  match devices w !! i with
  | Some d =>
      if Device.pending_kill d then restart_device i (on_device i (Device.set_pending_kill false) w) else w
  | None => w
  end.

Definition arm_storage (i : nat) (w : World) : World :=
  let '(r, f) := decide_storage (rng w) (rates w) in
  let w := set_rng r w in
  let '(w, verdict) :=
    match f with
    | Some Fault.StorageFailed => (fault i Fault.StorageFailed w, FailBeforeCommit)
    | Some Fault.StorageCommittedThenKilled =>
        (on_device i (Device.set_pending_kill true) (fault i Fault.StorageCommittedThenKilled w), CommitThenLoseAck)
    | Some Fault.StorageLiedAboutCommit => (fault i Fault.StorageLiedAboutCommit w, CommitThenLoseAck)
    | _ => (w, Commit)
    end in
  on_device i (Device.with_storage (Db.set_verdict verdict)) w.

(** A call into device [i]'s engine: the engine it leaves, and its result. *)
Definition engine_call {A E} (i : nat) (m : step SimEngine A E) (w : World) : World * option (result A E) :=
  match devices w !! i with
  | None => (w, None)
  | Some d =>
      let '(e, r) := m (Device.engine d) in (on_device i (Device.set_engine e) w, Some r)
  end.

Definition body_payload : Value := object_of [("body", VString "xxxxxxxxxxxxxxxxxxxxxxxxxxxxxxxx")].

Definition author_command (i : nat) (w : World) : World :=
  match devices w !! i with
  | None => w
  | Some d =>
      let n := Device.commands_authored d in
      let w := on_device i (Device.set_commands_authored ((n + 1) mod u32_mod)) w in
      let command := Command.mk (command_id (Z.of_nat i mod 256) n) submit_reflection (scope w)
        (unwrap_or (Document_new body_payload) (MkDocument body_payload))
        (Timestamp.as_millis (now (clock (Device.engine d)))) hex_placeholder in
      let w := arm_storage i w in
      let '(w, r) := engine_call i (enqueue (OutboxEntry.mk command one_version)) w in
      let w := event i (match r with Some (Ok _) => "enqueued" | _ => "enqueue-refused" end) w in
      maybe_kill i w
  end.

Definition send (i : nat) (request : WireRequest) : World → World :=
  on_device i (Device.with_transport (λ t, (transport_enqueue t request).1)).

Definition push_step (i : nat) (w : World) : World :=
  let '(w, r) := engine_call i (build_push protocol 100000) w in
  match r with
  | Some (Ok (Some request)) =>
      if bool_decide (PushRequest.commands request = []) then w else send i (Push request) w
  | _ => w
  end.

Definition pull_request (w : World) (e : SimEngine) : PullRequest.t :=
  let cursor := match engine_scope_state (scope w) e with Some s => ScopeState.cursor s | None => Cursor.START end in
  PullRequest.mk protocol [ScopeCursor.mk (scope w) cursor] None.

Definition pull_step (i : nat) (w : World) : World :=
  match devices w !! i with
  | None => w
  | Some d =>
      let '(w, readable) :=
        if needs_reload (scope w) (Device.engine d) then
          let '(w, r) := engine_call i (reload_scope (scope w)) w in
          (w, match r with Some (Ok _) => true | _ => false end)
        else (w, true) in
      if negb readable then w else
      match devices w !! i with
      | Some d => send i (Pull (pull_request w (Device.engine d))) w
      | None => w
      end
  end.

(** Connectivity at the start of a turn. *)
Definition flap_step (i : nat) (w : World) : World :=
  match devices w !! i with
  | None => w
  | Some d =>
      let until := Device.offline_until_ms d in
      if (0 <? until) && (until <=? now_ms w) then
        on_device i (λ d, Device.with_transport (set_online true) (Device.set_offline 0 d)) w
      else if until =? 0 then
        let '(w, b) := draw_chance (FaultRates.connectivity_flap (rates w)) w in
        if b then
          fault i Fault.Flap
            (on_device i (λ d, Device.with_transport (set_online false) (Device.set_offline (now_ms w + FLAP_DURATION_MS) d)) w)
        else w
      else w
  end.

Definition device_step (i : nat) (w : World) : World :=
  let w := flap_step i w in
  let '(w, b) := draw_chance (FaultRates.device_restart (rates w)) w in
  let w := if b then restart_device i w else w in
  let '(w, b) := if quiet w then (w, false) else draw_chance 1 w in
  let w := if b then author_command i w else w in
  pull_step i (push_step i w).

(** ** The network *)

(** What the server answers, with a rule broken when [violate] says so; [None] for the requests
    the simulated server does not take. *)
Definition answer (i : nat) (violate : bool) (request : WireRequest) (w : World) : World * option Response :=
  match request with
  | Pull req =>
      let pulled := SimServer.pull (server w) req PULL_LIMIT (Z.to_N (Pressure.budget_bytes (pressure w))) in
      let '(pulled, broken) := if violate then repeat_last_change pulled else (pulled, false) in
      ((if broken then fault i Fault.ProtocolViolation w else w), Some (Ok (PullResp pulled)))
  | Push req =>
      let '(p, accepted) := Pressure.accept_count (pressure w) (Z.of_nat (length (PushRequest.commands req))) in
      let w := set_pressure p w in
      let '(s, r, pushed) := SimServer.push_prefix req (Z.to_nat accepted) (server w) (rng w) in
      let w := set_rng r (set_server (λ _, s) w) in
      let '(pushed, broken) := if violate then repeat_last_result pushed else (pushed, false) in
      ((if broken then fault i Fault.ProtocolViolation w else w), Some (Ok (PushResp pushed)))
  | Bootstrap _ => (w, None)
  end.

(** One request: dropped, or answered and put in flight. *)
Definition carry_request (i : nat) (w : World) (out : RequestId.t * WireRequest) : World :=
  match devices w !! i with
  | None => w
  | Some d =>
      let index := Device.requests_sent d + 1 in
      let w := on_device i (Device.set_requests_sent index) w in
      let '(r, f) := decide_response (rng w) (rates w) index in
      let w := set_rng r w in
      let w := match f with Some f => fault i f w | None => w end in
      if bool_decide (f = Some Fault.Dropped) then w else
      let '(w, violate) := draw_chance (FaultRates.protocol_violation (rates w)) w in
      match answer i violate out.2 w with
      | (w, None) => w
      | (w, Some response) =>
          let response :=
            match f with
            | Some Fault.Severed => Err (MalformedResponse "severed mid-batch")
            | Some Fault.Malformed => Err (MalformedResponse "corrupted bytes")
            | _ => response
            end in
          let '(w, latency) := draw_range (FaultRates.latency_ms (rates w)).1 (FaultRates.latency_ms (rates w)).2 w in
          let flight := InFlight.mk i (now_ms w + latency) response in
          match f with
          | Some Fault.Duplicated =>
              let '(w, more) := draw_range 1 500 w in
              set_in_flight (λ l, l ++ [InFlight.mk i (InFlight.deliver_at_ms flight + more) response; flight]) w
          | Some Fault.Reordered => set_held (λ l, l ++ [flight]) w
          | _ => set_in_flight (λ l, l ++ [flight]) w
          end
      end
  end.

Definition carry_device (w : World) (i : nat) : World :=
  match devices w !! i with
  | None => w
  | Some d =>
      let '(t, pending) := SimTransport.drain (transport (Device.engine d)) in
      fold_left (carry_request i) pending (on_device i (Device.with_transport (λ _, t)) w)
  end.

(** A held response rejoins the queue. *)
Definition release (w : World) (h : InFlight.t) : World :=
  let '(w, more) := draw_range 1 900 w in
  set_in_flight (λ l, l ++ [InFlight.mk (InFlight.device h) (now_ms w + STEP_MS + more) (InFlight.response h)]) w.

Definition carry_network (w : World) : World :=
  let w := fold_left carry_device (seq 0 (length (devices w))) w in
  let held := held w in
  fold_left release held (set_held (λ _, []) w).

Definition deliver_batch (i : nat) (w : World) (batch : Batch.t) : World :=
  let w := arm_storage i w in
  let '(w, r) := engine_call i (apply_batch batch) w in
  let w := event i
    (match r with
     | Some (Ok applied) => if AppliedBatch.diverged applied then "applied-diverged" else "applied"
     | _ => "apply-refused"
     end) w in
  maybe_kill i w.

Definition deliver (w : World) (f : InFlight.t) : World :=
  let i := InFlight.device f in
  match InFlight.response f with
  | Err _ => event i "response-failed" w
  | Ok (PullResp response) => fold_left (deliver_batch i) (PullResponse.batches response) w
  | Ok (PushResp response) =>
      let w := arm_storage i w in
      let '(w, r) := engine_call i (apply_results response) w in
      let w := event i (match r with Some (Ok _) => "results-applied" | _ => "results-refused" end) w in
      maybe_kill i w
  | Ok _ => event i "response-ignored" w
  end.

Definition deliver_due (w : World) : World :=
  let due := filter (λ f, InFlight.deliver_at_ms f ≤ now_ms w) (in_flight w) in
  let waiting := filter (λ f, ¬ InFlight.deliver_at_ms f ≤ now_ms w) (in_flight w) in
  fold_left deliver due (set_in_flight (λ _, waiting) w).

(** ** A step of the world *)

(** What the server does on its own: commits, holds, restarts, load, other people's writes. *)
Definition server_turn (w : World) : World :=
  let w := set_server advance_commits w in
  let '(w, b) := if quiet w then (w, false) else draw_chance (FaultRates.slow_commit (rates w)) w in
  let w :=
    if b then
      let '(w, delay) := draw_range 1 4 w in
      fault 0 Fault.SlowCommit (set_server (hold_next_write delay) w)
    else w in
  let '(w, b) := draw_chance (FaultRates.server_restart (rates w)) w in
  let w := if b then fault 0 Fault.ServerRestarted (set_server restart_cold w) else w in
  let w := set_pressure (Pressure.tick (pressure w)) w in
  let '(w, b) :=
    if quiet w || Pressure.is_shedding (pressure w) then (w, false)
    else draw_chance (FaultRates.overload (rates w)) w in
  let w :=
    if b then
      let '(p, r) := Pressure.overload (pressure w) (rng w) in
      fault 0 Fault.Overloaded (set_rng r (set_pressure p w))
    else w in
  let '(w, b) := if quiet w then (w, false) else draw_chance 2 w in
  if b then
    let '(s, r) := external_change (scope w) (entity w) (server w) (rng w) in set_rng r (set_server (λ _, s) w)
  else w.

Definition check_world (w : World) : World :=
  let dbs := databases w in
  let w := set_invariants (check_step (now_ms w) dbs (scope w)) w in
  let w := set_invariants (check_cursor_bounds (now_ms w) dbs (server w) (scope w)) w in
  let w := set_invariants (check_durable_effects (now_ms w) dbs (server w) (scope w)) w in
  set_invariants (check_applied_state (now_ms w) dbs (server w) (scope w)) w.

Definition world_step (w : World) : World :=
  let w := set_now (now_ms w + STEP_MS) w in
  let w := set_devices (fmap (Device.with_clock (advance_to (now_ms w)))) w in
  let w := server_turn w in
  let w := fold_left (λ w i, device_step i w) (seq 0 (length (devices w))) w in
  check_world (deliver_due (carry_network w)).

(** [settle]: [None] is the failed assertion that no write is in flight. *)
Definition settle (w : World) : option World :=
  let hostile := rates w in
  let w := set_quiet true (set_rates FaultRates.none w) in
  let w := set_devices (fmap (Device.with_transport (set_online true))) w in
  let w := Nat.iter SETTLE_STEPS world_step w in
  if negb (in_flight_writes (server w) =? 0)%nat then None else
  let w := set_quiet false (set_rates hostile w) in
  let dbs := databases w in
  let w := set_invariants (check_convergence (now_ms w) dbs (server w) (scope w)) w in
  Some (set_invariants (check_policy (now_ms w) dbs (registry w)) w).

Definition run (steps : nat) (w : World) : option World := settle (Nat.iter steps world_step w).

(** ** What a test may ask *)

Definition server_answered_commands (w : World) : nat := answered_commands (server w).
Definition server_has_answered (w : World) (id : CommandId.t) : bool := has_answered (server w) id.
Definition commands_ever_enqueued (w : World) : nat := size (⋃ (Db.enqueued <$> databases w)).
Definition device_count (w : World) : nat := length (devices w).
Definition elapsed_ms (w : World) : Z := now_ms w - START_MS.
Definition apparent_times_ms (w : World) : Z * list Z :=
  (now_ms w, (λ d, Timestamp.as_millis (now (clock (Device.engine d)))) <$> devices w).
Definition disable_commit_order_guard (w : World) : World := set_server (set_commit_order_guard false) w.
End world.
