(* ===== verification/Sweep.v ===== *)
(** * Sweep: the simulator's command line (credsync-sim/src/main.rs, lib.rs).

    The arguments are a list of strings and the machine's parallelism a number. A run of the
    program is the lines it prints and its exit code; the elapsed time it prints on standard
    error is an argument. A stripe that panics ([None]) is reported as in a build where the
    panic reaches the join; a release build aborts instead. *)

From S2P Require Import Prelude Ids Integrity Json Wire Rng FaultMenu Invariants Trace World.
From stdpp Require Import options.

Definition SIM_VERSION : Z := 2.
Definition STEPS_PER_RUN : Z := 20160.

(** ** Integers as the standard library reads and writes them *)

Definition u64_saturating_add (a b : Z) : Z := Z.min u64_max (a + b).
Definition u64_saturating_sub (a b : Z) : Z := Z.max 0 (a - b).
Definition u64_saturating_mul (a b : Z) : Z := Z.min u64_max (a * b).
Definition u64_checked_add (a b : Z) : option Z := if a + b <=? u64_max then Some (a + b) else None.
Definition div_ceil (a b : Z) : Z := if a mod b =? 0 then a / b else a / b + 1.
(** [+=] on an [i64] and a [u64] wraps in the profile the sweep is built with. *)
Definition wrap_u64 (x : Z) : Z := x mod u64_mod.
Definition wrap_i64 (x : Z) : Z := as_i64 (wrap_u64 x).

(** [u64::from_str_radix], and [str::parse] with radix ten. *)
Fixpoint radix_loop (radix acc : Z) (l : bytes) : option Z :=
  match l with
  | [] => Some acc
  | b :: r =>
      n ← hex_value b;
      if radix <=? n then None else
      let acc := acc * radix + n in
      if acc <=? u64_max then radix_loop radix acc r else None
  end.
Definition u64_from_str_radix (s : string) (radix : Z) : option Z :=
  match as_bytes s with
  | [] => None
  | b :: r =>
      if b =? 43 then match r with [] => None | _ => radix_loop radix 0 r end
      else radix_loop radix 0 (b :: r)
  end.
Definition parse_u64 (s : string) : option Z := u64_from_str_radix s 10.
Definition strip_prefix (prefix s : string) : option string :=
  if String.prefix prefix s then Some (String.substring (String.length prefix) (String.length s) s) else None.

(** [{:x}] and [{:016x}] of a [u64]; [{:<32}]. *)
Fixpoint hex_loop (fuel : nat) (n : Z) (acc : bytes) : bytes :=
  match fuel with
  | O => acc
  | S fuel =>
      let acc := hex_digit (n mod 16) :: acc in
      if n <? 16 then acc else hex_loop fuel (n / 16) acc
  end.
Definition show_hex (n : Z) : string := from_bytes (hex_loop 16 n []).
Definition show_016x (n : Z) : string := let s := show_hex n in zeros (16 - String.length s) +:+ s.
Fixpoint spaces (n : nat) : string := match n with O => "" | S n => " " +:+ spaces n end.
Definition pad_right (width : nat) (s : string) : string := s +:+ spaces (width - String.length s).

(** ** Arguments *)

Definition position (a : string) (args : list string) : option nat := fst <$> list_find (λ x, x = a) args.
Definition flag_value (args : list string) (flag : string) : option string :=
  i ← position flag args; args !! S i.

Definition positive_seeds (v : string) : option Z :=
  n ← parse_u64 v; if 0 <? n then Some n else None.
(** [usize] has 64 bits on the machines the sweep runs on. *)
Definition positive_jobs (v : string) : option Z :=
  n ← parse_u64 v; if 0 <? n then Some n else None.
Definition parse_seed (v : string) : option Z :=
  match strip_prefix "0x" v with Some hex => u64_from_str_radix hex 16 | None => parse_u64 v end.

(** What the program complains of on standard error. *)
Inductive Complaint : Type :=
  | SeedExpectsNumber
  | ExpectsValue (flag : string)
  | DoesNotAccept (flag raw : string)
  | PastTheEnd (from seeds : Z).

(** [option]; the name is taken. *)
Definition read_option (args : list string) (flag : string) (dflt : Z) (parse : string → option Z)
    : result Z Complaint :=
  if bool_decide (flag ∈ args) then
    match flag_value args flag with
    | None => Err (ExpectsValue flag)
    | Some raw => match parse raw with Some v => Ok v | None => Err (DoesNotAccept flag raw) end
    end
  else Ok dflt.

Inductive Action : Type :=
  | PrintHelp
  | RunOne (seed : Z) (trace_wanted : bool)
  | RunBatch (from seeds jobs : Z)
  | Refused (c : Complaint).

(** [main], up to the run it decides on. *)
Definition main_action (cores : Z) (args : list string) : Action :=
  if bool_decide ("--help" ∈ args) || bool_decide ("-h" ∈ args) then PrintHelp else
  let trace_wanted := bool_decide ("--trace" ∈ args) in
  match parse_seed <$> flag_value args "--seed" with
  | Some (Some seed) => RunOne seed trace_wanted
  | Some None => Refused SeedExpectsNumber
  | None =>
      match
        let? seeds := read_option args "--seeds" 1000 positive_seeds in
        let? from := read_option args "--from" 0 parse_seed in
        let? jobs := read_option args "--jobs" cores positive_jobs in
        match u64_checked_add from seeds with
        | None => Err (PastTheEnd from seeds)
        | Some _ => Ok (from, seeds, jobs)
        end
      with
      | Ok (from, seeds, jobs) => RunBatch from seeds jobs
      | Err c => Refused c
      end
  end.

(** ** Reports *)

Inductive ExitCode : Type := SUCCESS | FAILURE.
Inductive Line : Type := Out (s : string) | Error (s : string).
Abbreviation Failure := (Z * list Violation.t)%type.

Definition human_duration (ms : Z) : string :=
  let days := Z.quot ms (24 * 60 * 60 * 1000) in
  if 0 <? days then show days +:+ "d" else show (Z.quot ms (60 * 60 * 1000)) +:+ "h".

Definition report (seed : Z) (violations : list Violation.t) : list Line :=
  [Error ("  simulator v" +:+ show SIM_VERSION); Error "";
   Error ("FAILED at seed 0x" +:+ show_016x seed)] ++
  ((λ v, Error ("  " +:+ Violation.display v)) <$> take 20 violations) ++
  (if (20 <? length violations)%nat then
     [Error ("  ... and " +:+ show (Z.of_nat (length violations - 20)) +:+ " more")] else []) ++
  [Error ""; Error "replay it exactly:";
   Error ("  cargo run --release -p credsync-sim -- --seed 0x" +:+ show_hex seed +:+ " --trace")].

Definition keep_lowest (current candidate : option Failure) : option Failure :=
  match current, candidate with
  | None, other => other
  | other, None => other
  | Some a, Some b => Some (if b.1 <? a.1 then b else a)
  end.

Definition add_faults (totals faults : gmap string Z) : gmap string Z :=
  union_with (λ a b, Some (wrap_u64 (a + b))) totals faults.

Record Stripe := MkStripe {
  simulated_ms : Z;
  faults : gmap string Z;
  failure : option Failure;
}.

(** Where stripe [i] of a batch starts and stops, until one would be empty. *)
Fixpoint stripes_from (n : nat) (stripe from seeds width : Z) : list (Z * Z) :=
  match n with
  | O => []
  | S n =>
      let lo := u64_saturating_add from (u64_saturating_mul stripe width) in
      let hi := Z.min (u64_saturating_add from seeds) (u64_saturating_add lo width) in
      if hi <=? lo then [] else (lo, hi) :: stripes_from n (stripe + 1) from seeds width
  end.
Definition stripes (from seeds jobs : Z) : list (Z * Z) :=
  let width := Z.max (div_ceil seeds jobs) 1 in stripes_from (Z.to_nat jobs) 0 from seeds width.

Definition never_fired (totals : gmap string Z) : list string :=
  filter (λ name, default 0 (totals !! name) = 0) (Fault.name <$> Fault.ALL).

(** A batch that went green. *)
Definition green_report (took : string) (from seeds simulated : Z) (totals : gmap string Z) : list Line :=
  let last := u64_saturating_sub (u64_saturating_add from seeds) 1 in
  let silent := never_fired totals in
  [Out (show seeds +:+ "/" +:+ show seeds +:+ " seeds green  (0x" +:+ show_016x from +:+ "..=0x" +:+ show_016x last +:+ ")");
   Error ("took " +:+ took);
   Out ("simulated " +:+ human_duration simulated +:+ " of device life across the batch");
   Out "fault coverage:"] ++
  ((λ f, Out ("  " +:+ pad_right 32 (Fault.name f) +:+ " " +:+ show (default 0 (totals !! Fault.name f)))) <$> Fault.ALL) ++
  match silent with
  | [] => []
  | _ => [Error "";
          Error ("warning: " +:+ show (Z.of_nat (length silent)) +:+ " fault(s) never fired: " +:+ join ", " silent);
          Error "a fault that never fires is a fault this simulator does not have."]
  end.

(** ** Runs *)

Section runs.
Context `{Hashes} `{Codec}.

Definition run_seed (seed : Z) (rates : FaultRates.t) (trace : Trace.t) : option World :=
  run (Z.to_nat STEPS_PER_RUN) (World_new seed rates trace).

(** [None] is the panic of an assertion of the world. *)
Definition run_one (seed : Z) (trace_wanted : bool) : option (list Line * ExitCode) :=
  let tr := if trace_wanted then Trace.recorder else Trace.counting in
  world ← run_seed seed FaultRates.default tr;
  let lines :=
    (if trace_wanted then [Out (Trace.render (trace world))] else []) ++
    [Out ("seed 0x" +:+ show_016x seed +:+ "  devices=" +:+ show (Z.of_nat (device_count world)) +:+
          "  simulated=" +:+ human_duration (elapsed_ms world) +:+ "  " +:+ Trace.coverage (trace world))] in
  Some (if holds (invariants world) then (lines, SUCCESS)
        else (lines ++ report seed (violations (invariants world)), FAILURE)).

Fixpoint stripe_loop (seeds : list Z) (totals : gmap string Z) (simulated : Z) : option Stripe :=
  match seeds with
  | [] => Some (MkStripe simulated totals None)
  | seed :: rest =>
      world ← run_seed seed FaultRates.default Trace.counting;
      let simulated := wrap_i64 (simulated + elapsed_ms world) in
      let totals := add_faults totals (Trace.faults (trace world)) in
      if holds (invariants world) then stripe_loop rest totals simulated
      else Some (MkStripe simulated totals (Some (seed, violations (invariants world))))
  end.
Definition run_stripe (lo hi : Z) : option Stripe := stripe_loop (seqZ lo (hi - lo)) ∅ 0.

(** The joins, in the order the stripes were started. *)
Fixpoint join_stripes (outcomes : list (option Stripe)) (acc : Stripe) : option Stripe :=
  match outcomes with
  | [] => Some acc
  | outcome :: rest =>
      stripe ← outcome;
      join_stripes rest
        (MkStripe (wrap_i64 (simulated_ms acc + simulated_ms stripe)) (add_faults (faults acc) (faults stripe))
           (keep_lowest (failure acc) (failure stripe)))
  end.

Definition run_batch (took : string) (from seeds jobs : Z) : list Line * ExitCode :=
  let outcomes := (λ '(lo, hi), run_stripe lo hi) <$> stripes from seeds jobs in
  match join_stripes outcomes (MkStripe 0 ∅ None) with
  | None => ([Error "error: a simulator thread panicked; this is a bug in the simulator itself"], FAILURE)
  | Some total =>
      match failure total with
      | Some (seed, violations) =>
          (Out (show (u64_saturating_sub seed from) +:+ "/" +:+ show seeds +:+ " seeds green, then:")
             :: report seed violations, FAILURE)
      | None => (green_report took from seeds (simulated_ms total) (faults total), SUCCESS)
      end
  end.
End runs.
