(* ===== verification/WorldDevices.v ===== *)
(** * WorldDevices: what the world's calls on one device keep.

    A device of the world runs the client's engine over the simulator's storage. Whatever the
    world does to it (a verdict armed, a call, a kill, a restart), the engine's invariant, its
    ledger and its place in the log survive. *)

From S2P Require Import Prelude Errors Nums Ids Json Wire Integrity Core Registry Migrate Outbox.
From S2P Require Import Storage SimStorage Apply Engine EngineFacts EngineSteps Place Ledger.
From S2P Require Import Server Rng FaultMenu Pressure SimServer SimServerFacts SimReads SimFeed.
From S2P Require Import Invariants InvariantFacts Trace World Deliveries.
From stdpp Require Import options.

(** ** Command ids *)

Lemma byte_list_get id i : CommandId.as_bytes id = i → id = CommandId.mk i.
Proof. by destruct id; simpl; intros ->. Qed.

Lemma command_id_bytes device n :
  CommandId.as_bytes (command_id device n) = [1; 145; 0; 0; 0; 0; 112; 0; 0; 0; 0; device] ++ be_bytes 4 n.
Proof. done. Qed.

Lemma command_id_inj d d' n n' :
  0 ≤ n < u32_mod → 0 ≤ n' < u32_mod → command_id d n = command_id d' n' → d = d' ∧ n = n'.
Proof.
  intros Hn Hn' Heq. apply (f_equal CommandId.as_bytes) in Heq. rewrite !command_id_bytes in Heq. simpl app in Heq.
  injection Heq as Hd Hb1 Hb2 Hb3 Hb4. split; [done|]. apply (be_bytes_inj 4); [done..|]. cbn [be_bytes]. by rewrite Hb1, Hb2, Hb3, Hb4.
Qed.

(** ** A device *)

Definition stored (d : Device.t) : View := durable (Device.engine d).

Lemma stored_engine e d : stored (Device.set_engine e d) = durable e.
Proof. done. Qed.

Section devices.
Context `{Hashes} `{Codec}.
Variables (scope : ScopeId.t) (entity : EntityName.t).

Definition reg : Registry := World.register entity scope Registry_new.

Lemma reg_wf : registry_wf reg.
Proof. apply register_command_wf, register_entity_wf, Registry_new_wf. Qed.
Lemma reg_drafts : drafts_only reg.
Proof.
  intros name e. unfold target_of, class_of, reg. cbn.
  intros [[_ <-]|[_ Hn]]%lookup_insert_Some; [by rewrite lookup_insert_eq|by rewrite lookup_empty in Hn].
Qed.
(** An entry for a known entity under the world's one schema goes as it is. *)
Lemma reg_targeted c : addressed reg (OutboxEntry.mk c one_version) → targeted reg (OutboxEntry.mk c one_version).
Proof.
  intros [e He]. exists e. split; [done|]. revert He. unfold target_of, schema_version_of, reg. cbn.
  intros [[_ <-]|[_ Hn]]%lookup_insert_Some; [by rewrite lookup_insert_eq|by rewrite lookup_empty in Hn].
Qed.
Lemma reg_scope : entity ∈ scope_entities reg scope.
Proof. apply elem_of_scope_entities. eexists. cbn. by rewrite lookup_insert_eq. Qed.

(** A change of the log of a world: an upsert of its one entity under its one schema. *)
Definition own (c : Change.t) : Prop :=
  Change.entity c = entity ∧ Change.op c = Upsert ∧ Change.schema_version c = one_version ∧ is_Some (Change.snapshot c).
Definition owned (b : Batch.t) : Prop := Batch.scope b = scope ∧ Forall own (Batch.changes b).

Definition issued (i : nat) (n : Z) (id : CommandId.t) : Prop :=
  ∃ k, 0 ≤ k < n ∧ id = command_id (Z.of_nat i mod 256) k.

Record device_ok (s : Server) (i : nat) (d : Device.t) : Prop := MkDeviceOk {
  device_inv : client_inv (Device.engine d);
  device_setup : Engine.registry (Device.engine d) = reg ∧ migrations (Device.engine d) = Migrations_new ∧
    upgrade_required (Device.engine d) = None;
  device_ledger : ledger reg (issued i (Device.commands_authored d)) (stored d);
  device_standing : standing scope s (stored d);
  device_authored : 0 ≤ Device.commands_authored d;
}.

(** A later look at a device. *)
Definition later_look (v v' : View) : Prop :=
  progress v v' ∧
  ∀ c, v_cursors v !! scope = Some c → ∃ c', v_cursors v' !! scope = Some c' ∧ Cursor.get c ≤ Cursor.get c'.

#[export] Instance later_look_preorder : PreOrder later_look.
Proof.
  split.
  - intros v. split; [done|]. intros c Hc. by exists c.
  - intros x y z [Hp Hc] [Hp' Hc']. split; [by etransitivity|]. intros c Hx.
    destruct (Hc c Hx) as (c' & Hy & ?). destruct (Hc' c' Hy) as (c'' & ? & ?). exists c''. split; [done|lia].
Qed.

Lemma later_same v v' : v_cursors v' = v_cursors v → progress v v' → later_look v v'.
Proof. intros Hc Hp. split; [done|]. intros c. rewrite Hc. by exists c. Qed.

(** What leaves a device where it stands; the transport and the clock do not matter. *)
Definition calm (s : Server) (i : nat) (d d' : Device.t) : Prop :=
  device_ok s i d →
  device_ok s i d' ∧ later_look (stored d) (stored d') ∧ stored_cursor (stored d') scope = stored_cursor (stored d) scope ∧
  Device.commands_authored d' = Device.commands_authored d.

#[export] Instance calm_preorder s i : PreOrder (calm s i).
Proof.
  split; [by intros d ?|]. intros x y z Hxy Hyz Hx. destruct (Hxy Hx) as (Hy & Hl & Hc & Hn).
  destruct (Hyz Hy) as (Hz & Hl' & Hc' & Hn'). split_and!; [done|by etransitivity|congruence|congruence].
Qed.

(** The parts of an engine its invariant speaks of. *)
Definition same_engine (e e' : SimEngine) : Prop :=
  Engine.registry e' = Engine.registry e ∧ migrations e' = migrations e ∧ scopes e' = scopes e ∧ suspect e' = suspect e ∧
  outbox_queue e' = outbox_queue e ∧ outbox_suspect e' = outbox_suspect e ∧
  upgrade_required e' = upgrade_required e ∧ durable e' = durable e.

Lemma same_engine_inv e e' : same_engine e e' → client_inv e → client_inv e'.
Proof.
  intros (Hr & Hm & Hs & Hsu & Hq & Hos & _ & Hv) ([Hc Ho] & Hd & Hw).
  split_and!; [split; [intros sc; specialize (Hc sc)|]|..]; unfold scope_coherent in *;
    rewrite ?Hr, ?Hs, ?Hsu, ?Hq, ?Hos, ?Hv; done.
Qed.

Lemma calm_same s i d d' :
  same_engine (Device.engine d) (Device.engine d') → Device.commands_authored d' = Device.commands_authored d → calm s i d d'.
Proof.
  intros Hs Hn [Hi (Hr & Hm & Hu) Hl Hst Ha]. pose proof Hs as (Hr' & Hm' & _ & _ & _ & _ & Hu' & Hv). unfold stored in *.
  split_and!; [|by rewrite Hv|by rewrite Hv|done]. split; unfold stored; rewrite ?Hr', ?Hm', ?Hu', ?Hv, ?Hn; try done.
  by eapply same_engine_inv.
Qed.

Lemma calm_verdict s i w d : calm s i d (Device.with_storage (Db.set_verdict w) d).
Proof. apply calm_same; [|done]. split_and!; try done. apply set_verdict_view. Qed.
Lemma calm_clock s i f d : calm s i d (Device.with_clock f d).
Proof. by apply calm_same. Qed.
Lemma calm_transport s i f d : calm s i d (Device.with_transport f d).
Proof. by apply calm_same. Qed.
Lemma calm_offline s i n d : calm s i d (Device.set_offline n d).
Proof. by apply calm_same. Qed.
Lemma calm_kill s i b d : calm s i d (Device.set_pending_kill b d).
Proof. by apply calm_same. Qed.
Lemma calm_requests s i n d : calm s i d (Device.set_requests_sent n d).
Proof. by apply calm_same. Qed.

(** ** Calls on the engine *)

(** No call of the world's asks for an upgrade. *)
Definition kept_setup (e e' : SimEngine) : Prop := same_setup e e' ∧ upgrade_required e' = upgrade_required e.

Lemma call_calm s i d en' :
  (client_inv (Device.engine d) → client_inv en') → kept_setup (Device.engine d) en' →
  v_rows (durable en') = v_rows (stored d) → v_cursors (durable en') = v_cursors (stored d) →
  (ledger reg (issued i (Device.commands_authored d)) (stored d) →
   ledger reg (issued i (Device.commands_authored d)) (durable en') ∧ progress (stored d) (durable en')) →
  calm s i d (Device.set_engine en' d).
Proof.
  intros Hinv [[Hr Hm] Hu] Hrows Hcur Hled [Hi Hset Hl Hst Ha]. destruct (Hled Hl) as [Hl' Hp].
  split_and!; [|by apply later_same|unfold stored_cursor; by rewrite stored_engine, Hcur|done].
  split; rewrite ?stored_engine; cbn [Device.engine Device.set_engine Device.commands_authored]; rewrite ?Hr, ?Hm, ?Hu; auto. by eapply standing_ext.
Qed.

Lemma quiet_call_calm s i d en' :
  (client_inv (Device.engine d) → client_inv en') → kept_setup (Device.engine d) en' → durable en' = stored d →
  calm s i d (Device.set_engine en' d).
Proof. intros Hinv Hs Hv. apply call_calm; [done|done|by rewrite Hv..|]. intros Hl. by rewrite Hv. Qed.

Lemma build_push_calm s i d protocol budget en' r :
  build_push protocol budget (Device.engine d) = (en', r) → calm s i d (Device.set_engine en' d).
Proof.
  intros Hb Hok. pose proof (proj1 (device_inv _ _ _ Hok)) as Hc. destruct (build_push_view _ _ _ _ _ Hc Hb) as [Hs Hv].
  apply quiet_call_calm; [|split; [done|by eapply build_push_upgrade]|done|done]. intros Hi. by eapply build_push_inv.
Qed.

Lemma reload_calm s i d sc en' r :
  reload_scope sc (Device.engine d) = (en', r) → calm s i d (Device.set_engine en' d).
Proof.
  intros Hb. destruct (reload_scope_view _ _ _ _ Hb) as [Hs Hv].
  apply quiet_call_calm; [|split; [done|by eapply reload_scope_upgrade]|done]. intros Hi. by eapply reload_scope_inv.
Qed.

Lemma apply_results_calm s i d response en' r :
  apply_results response (Device.engine d) = (en', r) → calm s i d (Device.set_engine en' d).
Proof.
  intros Hb Hok. pose proof Hok as [Hi (Hr & _) _ _ _]. pose proof (proj1 Hi) as Hc.
  destruct (apply_results_view _ _ _ _ Hc Hb) as [Hs Hv]. rewrite Hr in Hv. revert Hok.
  apply call_calm; [intros _; by eapply apply_results_inv|split; [done|by eapply apply_results_upgrade]|..].
  1,2: destruct Hv as [->| ->]; [done|].
  1,2: by destruct (answering_all reg (v_outbox (stored d)) (PushResponse.results response)) as (_ & _ & _ & _ & _ & Hall);
    destruct (Hall (stored d)) as (_ & _ & ? & ? & _).
  intros Hl. destruct Hv as [->| ->]; [done|]. by apply answer_ledger; [apply reg_drafts|].
Qed.

(** Authoring: the counter moves, and its old value names the new command. *)
Lemma author_enqueue s i d command en' r :
  device_ok s i d → Device.commands_authored d + 1 < u32_mod →
  Command.id command = command_id (Z.of_nat i mod 256) (Device.commands_authored d) →
  enqueue (OutboxEntry.mk command one_version) (Device.engine d) = (en', r) →
  let d' := Device.set_engine en' (Device.set_commands_authored (Device.commands_authored d + 1) d) in
  device_ok s i d' ∧ later_look (stored d) (stored d') ∧ stored_cursor (stored d') scope = stored_cursor (stored d) scope.
Proof.
  intros [Hi (Hr & Hm & Hu) Hl Hst Ha] Hn Hid He. cbv zeta. destruct (enqueue_view _ _ _ _ He) as [[Hr' Hm'] Hv].
  pose proof (enqueue_upgrade _ _ _ _ He) as Hu'.
  assert (Hfresh : ¬ issued i (Device.commands_authored d) (Command.id command)).
  { intros (k & Hk & Heq). rewrite Hid in Heq. apply command_id_inj in Heq; lia. }
  assert (Hl1 : ledger reg (issued i (Device.commands_authored d + 1)) (stored d)).
  { eapply ledger_weaken; [|exact Hl]. intros id (k & ? & ->). exists k. split; [lia|done]. }
  assert (ledger reg (issued i (Device.commands_authored d + 1)) (durable en') ∧ progress (stored d) (durable en') ∧
    v_rows (durable en') = v_rows (stored d) ∧ v_cursors (durable en') = v_cursors (stored d)) as (Hl' & Hp & Hrows & Hcur).
  { destruct Hv as [->|[Ht ->]]; [by split_and!|]. cbn [OutboxEntry.command OutboxEntry.schema_version].
    destruct (enqueue_ledger reg (issued i (Device.commands_authored d + 1)) command one_version (stored d)); [done| | | | |by split_and!].
    - exists (Device.commands_authored d). split; [lia|done].
    - intros Hq. apply Hfresh, Hl. by left.
    - intros Hq. apply Hfresh, Hl. by right.
    - rewrite Hr in Ht. by apply reg_targeted. }
  split_and!; [|by apply later_same|unfold stored_cursor; by rewrite stored_engine, Hcur].
  split; rewrite ?stored_engine; cbn [Device.engine Device.set_engine Device.set_commands_authored Device.commands_authored];
    rewrite ?Hr', ?Hm', ?Hu'; try done; [by eapply enqueue_inv|by eapply standing_ext|lia].
Qed.

(** A change of the world's own is at its schema. *)
Lemma own_current c : own c → migrated_change reg Migrations_new c = Ok None.
Proof.
  intros (He & _ & Hsv & _). unfold migrated_change, schema_version_of. rewrite He. cbn. rewrite lookup_insert_eq. cbn.
  by rewrite Hsv, bool_decide_eq_true_2.
Qed.

(** What a batch of the world's own changes may do to what is stored. *)
Lemma take_owned s i d b en' r :
  device_ok s i d → owned b → apply_batch b (Device.engine d) = (en', r) →
  client_inv en' ∧ kept_setup (Device.engine d) en' ∧ (durable en' = stored d ∨ batch_stored b (stored d) (durable en')).
Proof.
  intros [Hi (Hr & Hm & _) _ _ _] [Hsc Hown] Hb.
  assert (Hfit : fits (Device.engine d) (Batch.scope b) (Batch.changes b)).
  { unfold fits. rewrite Hr, Hsc. eapply Forall_impl; [exact Hown|]. intros c (-> & _). apply reg_scope. }
  assert (Hread : readable (Device.engine d) (Batch.changes b)).
  { unfold readable. rewrite Hr, Hm. eapply Forall_impl; [exact Hown|]. intros c Hc. by rewrite own_current. }
  split; [by eapply apply_changes_inv|]. unfold kept_setup. rewrite (apply_changes_upgrade _ _ _ _ _ _ Hb).
  destruct (apply_batch_view _ _ _ _ Hi Hfit Hread Hb) as [? ?]. by split_and!.
Qed.

(** Taking a batch from the front of the queue. *)
Lemma take_batch_ok s i d b bs en' r :
  server_wf s → device_ok s i d → queue_ok scope s (stored_cursor (stored d) scope) (b :: bs) → owned b →
  apply_batch b (Device.engine d) = (en', r) →
  let d' := Device.set_engine en' d in
  device_ok s i d' ∧ later_look (stored d) (stored d') ∧ queue_ok scope s (stored_cursor (stored d') scope) bs.
Proof.
  intros Hw Hok Hq Hown Hb. cbv zeta. destruct (take_owned s i d b en' r Hok Hown Hb) as (Hinv & [[Hr' Hm'] Hu'] & Hv).
  destruct Hok as [Hi Hset Hl Hst Ha]. destruct Hown as [Hsc Hown].
  destruct (queue_take scope s (stored d) (durable en') b bs Hw Hst Hq Hv) as (Hst' & Hq' & Hle).
  assert (v_outbox (durable en') = v_outbox (stored d) ∧ v_resolved (durable en') = v_resolved (stored d) ∧
    v_recovered (durable en') = v_recovered (stored d)) as (Ho & Hre & Hrc).
  { destruct Hv as [->|Hs]; [done|]. by destruct Hs as (_ & _ & _ & ? & ? & ?). }
  split_and!; [|split; [by apply progress_same|]|done].
  - split; rewrite ?stored_engine; cbn [Device.engine Device.set_engine Device.commands_authored]; rewrite ?Hr', ?Hm', ?Hu'; try done. by eapply ledger_ext.
  - intros c Hc. rewrite stored_engine. destruct Hv as [->|Hs]; [by exists c|].
    destruct Hs as (_ & _ & Hcur & _). rewrite Hsc in Hcur. unfold stored_cursor in Hle. rewrite Hcur, lookup_insert_eq, Hc in *.
    by eexists.
Qed.

(** ** A restart *)

Lemma digest_read v (st := default ScopeDigest.EMPTY (v_digests v !! scope ≫= digest_from_hex)) c :
  v_cursors v !! scope = Some c → parse_scope <$> view_scope v scope = Some (ScopeState.restored c st).
Proof.
  intros Hc. unfold view_scope, parse_scope, st, digest_from_hex. rewrite Hc. cbn. f_equal. f_equal.
  destruct (v_digests v !! scope) as [h|]; cbn; [by destruct (u128_from_str_radix_16 _)|done].
Qed.

(** The engine a restart builds, from the database alone. *)
Definition reloaded (d : Device.t) (seed : Z) : SimEngine :=
  let db := Device.db d in
  let engine := build_engine entity scope (clock (Device.engine d)) (SimEntropy_new seed) db default_compressor in
  let engine :=
    match Db.cursors db !! scope with
    | Some cursor =>
        let digest := default ScopeDigest.EMPTY (Db.digests db !! scope ≫= digest_from_hex) in
        restore_scope scope (ScopeState.restored cursor digest) engine
    | None => engine
    end in
  restore_outbox ((λ '(c, s), OutboxEntry.mk c s) <$> Db.outbox db) engine.

Lemma reloaded_durable d seed : durable (reloaded d seed) = stored d.
Proof. unfold reloaded. by destruct (Db.cursors (Device.db d) !! scope). Qed.

Lemma reloaded_inv s i d seed : device_ok s i d → client_inv (reloaded d seed).
Proof.
  intros [(_ & Hd & _) (Hr & _) _ Hst _]. rewrite Hr in Hd.
  assert (Engine.registry (reloaded d seed) = reg) as Hreg by (unfold reloaded; by destruct (Db.cursors (Device.db d) !! scope)).
  split_and!; [split; [unfold scope_coherent|]|by rewrite Hreg, reloaded_durable|rewrite Hreg; apply reg_wf]; rewrite reloaded_durable.
  - intros sc _. destruct (decide (sc = scope)) as [->|Hne].
    + unfold reloaded. destruct (Db.cursors (Device.db d) !! scope) as [c|] eqn:Hc.
      * rewrite (digest_read (stored d) c Hc). cbn. by rewrite lookup_insert_eq.
      * unfold view_scope. by rewrite (Hc : v_cursors (stored d) !! scope = None).
    + unfold view_scope. rewrite (standing_alone _ _ _ Hst sc Hne).
      unfold reloaded. destruct (Db.cursors (Device.db d) !! scope); cbn; by rewrite ?lookup_insert_ne.
  - intros _. unfold reloaded. by destruct (Db.cursors (Device.db d) !! scope).
Qed.

Lemma reload_device_calm s i d seed :
  calm s i d (Device.set_pending_kill false (Device.set_engine (reloaded d seed) d)).
Proof.
  intros Hok. pose proof (device_setup _ _ _ Hok) as (Hr & Hm & Hu). pose proof (reloaded_inv _ _ _ seed Hok) as Hinv.
  revert Hok. change (calm s i d (Device.set_pending_kill false (Device.set_engine (reloaded d seed) d))).
  transitivity (Device.set_engine (reloaded d seed) d); [|apply calm_kill].
  apply quiet_call_calm; [done| |by rewrite reloaded_durable]. split; [split|]; rewrite ?Hr, ?Hm, ?Hu; unfold reloaded;
    by destruct (Db.cursors (Device.db d) !! scope).
Qed.
End devices.
