(* ===== verification/WorldServer.v ===== *)
(** * WorldServer: the server of a world, whose log holds upserts of one entity in one scope. *)

From S2P Require Import Prelude Errors Nums Ids Json Wire Integrity Core Registry Migrate Outbox.
From S2P Require Import Storage SimStorage Apply Engine EngineFacts EngineSteps Place Ledger.
From S2P Require Import Server Dedupe Rng FaultMenu Pressure SimServer SimServerFacts SimReads SimFeed.
From S2P Require Import Invariants InvariantFacts Trace World Deliveries WorldDevices.
From stdpp Require Import options.

(** A draw is in range whatever the state of the generator. *)
Lemma until_some {A B} (f : A → A * option B) p a a' b : until p f a = (a', Some b) → ∃ x y, f x = (y, Some b).
Proof.
  intros Hu. pose proof (until_ran f p a) as Hr. rewrite Hu in Hr. destruct Hr as (k & _ & Hf & _). eauto.
Qed.

Lemma below_bounds rng n : 0 < n → 0 ≤ (Rng.below rng n).2 < n.
Proof.
  intros Hn. unfold Rng.below. destruct (Z.eqb_spec n 0); [lia|].
  destruct (until _ _ _) as [rng' [v|]] eqn:Hu; cbn; [|lia].
  apply until_some in Hu as (x & y & Hf). unfold Rng.below_turn in Hf.
  destruct (Rng.next_u32 x) as [x' u]. destruct (_ <=? _); simplify_eq. by apply Z.mod_pos_bound.
Qed.

Lemma range_bounds rng lo hi : lo ≤ (Rng.range rng lo hi).2 ≤ Z.max lo hi.
Proof.
  unfold Rng.range. destruct (Z.leb_spec hi lo); cbn; [lia|].
  pose proof (below_bounds rng (hi - lo + 1) ltac:(lia)) as Hb. destruct (Rng.below _ _). cbn in *. lia.
Qed.

Section server.
Context `{Hashes} `{Codec}.
Variables (σ : ScopeId.t) (η : EntityName.t).

(** The last seq handed out, if any was, is the scope's. *)
Definition head_placed (s : Server) : Prop := head s = 0 ∨ ∃ e, e ∈ entries s σ ∧ seq_of e = head s.

Record server_ok (s : Server) : Prop := MkServerOk {
  ok_wf : server_wf s;
  ok_guard : commit_order_guard s = true;
  ok_targets : ∀ name t, command_targets s !! name = Some t → t = (η, σ);
  ok_own : Forall (λ e, own η (LogEntry.change e)) (log s);
  ok_head : head_placed s;
  ok_records : records_own s;
  ok_waits : held_within 4 s;
}.

Lemma head_placed_shown s s' :
  next_seq s' = next_seq s → Forall2 shown (entries s σ) (entries s' σ) → head_placed s → head_placed s'.
Proof.
  intros Hn Hs. unfold head_placed, head. rewrite Hn. intros [?|(e & He & Heq)]; [by left|right].
  apply list_elem_of_lookup in He as [i Hi]. destruct (Forall2_lookup_l _ _ _ _ _ Hs Hi) as (e' & Hi' & Hsh).
  exists e'. split; [by eapply list_elem_of_lookup_2|]. by destruct (shown_entry _ _ Hsh) as [-> _].
Qed.

Lemma server_ok_same s s' :
  log s' = log s → by_scope s' = by_scope s → next_seq s' = next_seq s →
  commit_order_guard s' = commit_order_guard s → command_targets s' = command_targets s →
  records_own s' → held_within 4 s' → server_wf s' → server_ok s → server_ok s'.
Proof.
  intros Hl Hb Hn Hg Ht Hrec Hheld Hw []. split; rewrite ?Hl, ?Hg, ?Ht; try done. eapply head_placed_shown; [done| |done].
  unfold entries, indices. rewrite Hl, Hb. apply Forall2_shown_refl.
Qed.

Lemma entries_own s sc : server_ok s → Forall (λ e, own η (LogEntry.change e)) (entries s sc).
Proof.
  intros [_ _ _ Ho _ _ _]. rewrite Forall_forall in *. intros e (i & _ & Hi)%list_elem_of_omap.
  apply Ho. by eapply list_elem_of_lookup_2.
Qed.

Lemma entries_upserts s sc c : server_ok s → no_deletes (upto s sc c).
Proof.
  intros Hs. pose proof (entries_own s sc Hs) as Ho. rewrite Forall_forall in Ho. apply Forall_forall.
  intros e [_ He]%list_elem_of_filter. apply (Ho e He).
Qed.

(** A write takes the hold that was waiting for it. *)
Lemma push_entry_held n seq scope entity i v s :
  0 ≤ n → held_within n s → held_within n (push_entry seq scope entity i v s).
Proof.
  intros Hn [Hh Hf]. unfold push_entry, held_within. destruct (0 <? hold_next _); simpl; (split; [lia|]); [|done].
  apply Forall_app. by repeat constructor.
Qed.

(** One more upsert of the entity. *)
Lemma added_ok i s s' :
  server_ok s → added σ (pushed_entry s η i) s s' →
  commit_order_guard s' = commit_order_guard s → command_targets s' = command_targets s →
  dedupe s' = dedupe s → held_within 4 s' →
  server_ok s' ∧ grows s s' ∧ next_seq s' = next_seq s + 1.
Proof.
  intros [Hw Hg Ht Ho _ Hrec Hheld] Ha Hg' Ht' Hd' Hheld'. split_and!; [|by eapply grows_added|by apply Ha].
  split; [by eapply added_server_wf|by rewrite Hg'|by rewrite Ht'|..].
  - rewrite (added_log _ _ _ _ Ha). by apply Forall_app_2; [|repeat constructor].
  - right. eexists. rewrite (entries_added _ _ _ _ _ Hw Ha), decide_True by done. split; [apply elem_of_app; right; by left|].
    rewrite (added_seq _ _ _ _ Ha). unfold head. rewrite (added_next _ _ _ _ Ha). lia.
  - unfold records_own. by rewrite Hd'.
  - done.
Qed.

Lemma external_ok s rng :
  server_ok s → let s' := (external_change σ η s rng).1 in server_ok s' ∧ grows s s' ∧ next_seq s' = next_seq s + 1.
Proof.
  intros Hs. cbv zeta. unfold external_change. destruct (Rng.below rng 8) as [r n]. cbn [fst].
  eapply added_ok; [done|apply push_entry_added, ok_wf, Hs|..|by apply push_entry_held, Hs];
    unfold push_entry; by destruct (0 <? _).
Qed.

Lemma append_ok c s : server_ok s → let s' := (append σ η c s).1 in server_ok s' ∧ grows s s' ∧ next_seq s' = next_seq s + 1.
Proof.
  intros Hs. cbv zeta. unfold append. cbn [fst].
  eapply added_ok; [done|apply push_entry_added, ok_wf, Hs|..|by apply push_entry_held, Hs];
    unfold push_entry; by destruct (0 <? _).
Qed.

(** What a write to the log, or none, leaves of the server. *)
Definition served (n : Z) (s s' : Server) : Prop := server_ok s' ∧ grows s s' ∧ next_seq s' ≤ next_seq s + n.

Lemma recorded_served s s' n id cs r :
  CommandResult.id r = id → served n s s' → served n s (record_outcome id cs r s').
Proof.
  intros Hid (Hs & Hg & Hn). split_and!; [|etransitivity; [exact Hg|by apply grows_same]|done].
  eapply server_ok_same; [..|exact Hs]; try done; [|apply Hs|apply record_outcome_wf, Hs].
  intros id' d. cbn. intros [[<- <-]|[_ Hd]]%lookup_insert_Some; [done|]. by apply (ok_records _ Hs).
Qed.
Lemma served_refl s n : 0 ≤ n → server_ok s → served n s s.
Proof. intros. split_and!; [done|done|lia]. Qed.
Lemma served_trans a b x y z : served a x y → served b y z → served (a + b) x z.
Proof. intros (_ & Hg & Hn) (Hs & Hg' & Hn'). split_and!; [done|by etransitivity|lia]. Qed.

Lemma apply_command_served c s rng : server_ok s → served 1 s (apply_command c s rng).1.1.
Proof.
  intros Hs. pose proof (served_refl s 1 ltac:(lia) Hs) as Hr. unfold apply_command.
  destruct (decide_replay _ _) as [[]|]; [| done | by apply recorded_served |].
  all: destruct (command_targets s !! _) as [[entity scope]|] eqn:Ht; [|by apply recorded_served].
  all: apply (ok_targets s Hs) in Ht; injection Ht as -> ->.
  all: unfold apply_fresh; destruct (Rng.below rng 100) as [rng' roll]; destruct (roll <? 80);
    [|destruct (roll <? 90); by apply recorded_served].
  all: pose proof (append_ok c s Hs) as (? & ? & Hn); destruct (append _ _ _ _) as [s' q]; apply recorded_served; [done|];
    split_and!; [done|done|cbn in Hn |- *; lia].
Qed.

Lemma push_results_served cs s rng : server_ok s → served (Z.of_nat (length cs)) s (push_results cs s rng).1.1.
Proof.
  revert s rng. induction cs as [|c cs IH]; intros s rng Hs; [by apply served_refl|]. cbn [push_results].
  pose proof (apply_command_served c s rng Hs) as Hc. destruct (apply_command c s rng) as [[s1 rng1] r]. cbn [fst] in Hc.
  specialize (IH s1 rng1 (proj1 Hc)). destruct (push_results cs s1 rng1) as [[s2 rng2] rs]. cbn [fst] in *.
  cbn [length]. replace (Z.of_nat (S (length cs))) with (1 + Z.of_nat (length cs)) by lia. by eapply served_trans.
Qed.

Lemma push_served req n s rng :
  server_ok s → (length (PushRequest.commands req) ≤ COMMANDS_MAX_COUNT)%nat → served 256 s (push_prefix req n s rng).1.1.
Proof.
  intros Hs Hlen. unfold push_prefix. pose proof (push_results_served (take n (PushRequest.commands req)) s rng Hs) as Hp.
  destruct (push_results _ s rng) as [[s' rng'] rs]. cbn [fst] in *. destruct Hp as (? & ? & Hn). split_and!; [done|done|].
  rewrite length_take in Hn. unfold COMMANDS_MAX_COUNT in Hlen. lia.
Qed.

Lemma commits_served s : server_ok s → served 0 s (advance_commits s).
Proof using All.
  intros Hs. pose proof (server_step_wf _ _ (step_commits s) (ok_wf s Hs)) as Hw.
  pose proof (server_step_grows _ _ (step_commits s) (ok_wf s Hs)) as Hg.
  destruct (advance_commits_facts s) as (Hf & Hsh & _ & Hb & _ & Hn & Hh). split_and!; [|done|lia].
  destruct Hs as [_ Hgd Ht Ho Hhead Hrec [Hhold Hheld]].
  assert (commit_order_guard (advance_commits s) = commit_order_guard s ∧ command_targets (advance_commits s) = command_targets s ∧
    dedupe (advance_commits s) = dedupe s)
    as (Hg' & Ht' & Hd') by (unfold advance_commits; by destruct (fold_left _ _ _)).
  split; [exact Hw|by rewrite Hg'|by rewrite Ht'| |exact (head_placed_shown _ _ Hn (shown_entries _ _ σ Hsh Hb) Hhead)|unfold records_own; by rewrite Hd'|].
  2:{ split; [by rewrite Hh|]. rewrite Hf. apply Forall_fmap. apply Forall_forall. intros w [_ Hw']%list_elem_of_filter.
      rewrite Forall_forall in Hheld. specialize (Hheld w Hw'). simpl. lia. }
  clear -Hsh Ho. induction Hsh as [|a b l l' (_ & Hc & _) _ IH]; constructor; apply Forall_cons in Ho as [Ha Ho]; [by rewrite Hc|auto].
Qed.

Lemma hold_served delay s : 0 ≤ delay ≤ 4 → server_ok s → served 0 s (hold_next_write delay s).
Proof using All.
  intros Hd Hs. split_and!; [|by apply grows_same|cbn; lia].
  eapply server_ok_same; [..|exact Hs]; try done; [apply Hs| |eapply server_step_wf; [apply step_hold; lia|apply Hs]].
  destruct (ok_waits _ Hs) as [_ ?]. split; [|done]. unfold hold_next_write. simpl. destruct (delay =? 0); lia.
Qed.
Lemma restart_served s : server_ok s → served 0 s (restart_cold s).
Proof using All.
  intros Hs. split_and!; [|by apply grows_same|cbn; lia].
  eapply server_ok_same; [..|exact Hs]; try done; [apply Hs|apply Hs|]. eapply server_step_wf; [apply step_restart|apply Hs].
Qed.

Lemma start_ok : server_ok (SimServer.register_command "submit_reflection" η σ SimServer.new).
Proof using All.
  split; [eapply server_step_wf; [apply step_register|apply new_server_wf]|done| |constructor|by left|done|by split; [|constructor]].
  intros name t. cbn. intros [[_ <-]|[_ Hn]]%lookup_insert_Some; [done|by rewrite lookup_empty in Hn].
Qed.
End server.
