(* ===== verification/WorldSteps.v ===== *)
(** * WorldSteps: a device's turn, as a move of one device that leaves the rest of the world. *)

From S2P Require Import Prelude Errors Nums Ids Json Wire Integrity Core Registry Migrate Outbox.
From S2P Require Import Storage SimStorage Apply Engine EngineFacts EngineSteps Place Ledger.
From S2P Require Import Server Rng FaultMenu Pressure SimServer SimServerFacts SimReads SimFeed.
From S2P Require Import Invariants InvariantFacts Trace World Deliveries WorldDevices.
From stdpp Require Import options.

(** ** Frames *)

(** Everything but the devices, the generator, the trace and the load. *)
Record framed (w w' : World) : Prop := MkFramed {
  framed_server : server w' = server w;
  framed_in_flight : in_flight w' = in_flight w;
  framed_held : held w' = held w;
  framed_now : now_ms w' = now_ms w;
  framed_rates : rates w' = rates w;
  framed_scope : World.scope w' = World.scope w;
  framed_entity : World.entity w' = World.entity w;
  framed_quiet : quiet w' = quiet w;
  framed_registry : World.registry w' = World.registry w;
  framed_invariants : invariants w' = invariants w;
  framed_length : length (devices w') = length (devices w);
}.
#[export] Instance framed_preorder : PreOrder framed.
Proof. split; [by intros w|]. intros x y z [] []. split; congruence. Qed.

(** One device moves. *)
Record moves (R : Device.t → Device.t → Prop) (i : nat) (w w' : World) : Prop := MkMoves {
  moves_frame : framed w w';
  moves_other : ∀ j, j ≠ i → devices w' !! j = devices w !! j;
  moves_at : ∀ d, devices w !! i = Some d → ∃ d', devices w' !! i = Some d' ∧ R d d';
}.

Lemma moves_trans (R R' R'' : Device.t → Device.t → Prop) i x y z :
  (∀ a b c, R a b → R' b c → R'' a c) → moves R i x y → moves R' i y z → moves R'' i x z.
Proof.
  intros Ht [Hf Ho Ha] [Hf' Ho' Ha']. split; [by etransitivity|intros j Hj; by rewrite Ho', Ho|].
  intros d Hd. destruct (Ha d Hd) as (d' & Hd' & ?). destruct (Ha' d' Hd') as (d'' & ? & ?). eauto.
Qed.
Lemma moves_weaken (R R' : Device.t → Device.t → Prop) i x y :
  (∀ a b, R a b → R' a b) → moves R i x y → moves R' i x y.
Proof. intros Hr [Hf Ho Ha]. split; [done..|]. intros d Hd. destruct (Ha d Hd) as (d' & ? & ?). eauto. Qed.

Lemma stays_moves (R : Device.t → Device.t → Prop) i w w' :
  (∀ d, R d d) → framed w w' → devices w' = devices w → moves R i w w'.
Proof. intros Hr Hf Hd. split; [done|by rewrite Hd|]. rewrite Hd. eauto. Qed.

Lemma on_device_moves (R : Device.t → Device.t → Prop) i f w :
  (∀ d, devices w !! i = Some d → R d (f d)) → moves R i w (on_device i f w).
Proof.
  intros Hr. split.
  - split; try done. cbn. by rewrite length_alter.
  - intros j Hj. cbn. by rewrite list_lookup_alter_ne.
  - intros d Hd. exists (f d). split; [|by apply Hr]. cbn. by rewrite list_lookup_alter_eq, Hd.
Qed.

Lemma draw_chance_frame p w : framed w (draw_chance p w).1 ∧ devices (draw_chance p w).1 = devices w.
Proof. unfold draw_chance. by destruct (Rng.chance _ _). Qed.
Lemma draw_range_frame lo hi w : framed w (draw_range lo hi w).1 ∧ devices (draw_range lo hi w).1 = devices w.
Proof. unfold draw_range. by destruct (Rng.range _ _ _). Qed.

Section steps.
Context `{Hashes} `{Codec}.
Variables (σ : ScopeId.t) (η : EntityName.t).
Abbreviation reg := (WorldDevices.reg σ η).

Definition in_world (w : World) : Prop := World.scope w = σ ∧ World.entity w = η.
Lemma framed_world w w' : framed w w' → in_world w → in_world w'.
Proof. intros [] []. split; congruence. Qed.

Definition requests (d : Device.t) : list WireRequest := (SimTransport.pending (transport (Device.engine d))).*2.

(** A device that acted without sending: where it stood it stands, at most [k] commands were
    authored, and what was waiting to be sent is still there or was lost in a restart. *)
Definition acts (k : Z) (s : Server) (i : nat) (d d' : Device.t) : Prop :=
  device_ok σ η s i d → Device.commands_authored d + k < u32_mod →
  device_ok σ η s i d' ∧ later_look σ (stored d) (stored d') ∧
  stored_cursor (stored d') σ = stored_cursor (stored d) σ ∧
  Device.commands_authored d' ≤ Device.commands_authored d + k.
Definition silent (k : Z) (s : Server) (i : nat) (d d' : Device.t) : Prop :=
  acts k s i d d' ∧ (requests d' = requests d ∨ requests d' = []).

Lemma acts_trans j k s i a b c : 0 ≤ j → 0 ≤ k → acts j s i a b → acts k s i b c → acts (j + k) s i a c.
Proof.
  intros Hj Hk Hab Hbc Ha Hn. destruct Hab as (Hb & Hl & Hc & Hn'); [done|lia|].
  destruct Hbc as (Hc0 & Hl' & Hc' & Hn''); [done|lia|]. split_and!; [done|by etransitivity|congruence|lia].
Qed.
Lemma silent_trans j k s i a b c : 0 ≤ j → 0 ≤ k → silent j s i a b → silent k s i b c → silent (j + k) s i a c.
Proof. intros Hj Hk [Ha Hr] [Hb Hr']. split; [by eapply acts_trans|]. destruct Hr' as [->| ->]; auto. Qed.
Lemma calm_acts s i d d' : calm σ η s i d d' → acts 0 s i d d'.
Proof. intros Hc Hok _. destruct (Hc Hok) as (? & ? & ? & ->). split_and!; [done..|lia]. Qed.
Lemma calm_silent s i d d' : calm σ η s i d d' → requests d' = requests d → silent 0 s i d d'.
Proof. intros Hc Hr. split; [by apply calm_acts|by left]. Qed.
Lemma silent_refl s i d : silent 0 s i d d.
Proof. by apply calm_silent. Qed.

Lemma silent_moves j k s i x y z : 0 ≤ j → 0 ≤ k →
  moves (silent j s i) i x y → moves (silent k s i) i y z → moves (silent (j + k) s i) i x z.
Proof. intros Hj Hk. apply moves_trans. intros a b c. by apply silent_trans. Qed.

Lemma quiet_moves s i w w' : framed w w' → devices w' = devices w → moves (silent 0 s i) i w w'.
Proof. apply stays_moves, silent_refl. Qed.

Lemma event_moves s i k what w : moves (silent 0 s i) i w (event k what w).
Proof. by apply quiet_moves. Qed.

(** ** Restarts, kills, verdicts *)

Lemma restart_moves s i w : in_world w → moves (silent 0 s i) i w (restart_device i w).
Proof.
  intros [Hs He]. unfold restart_device. destruct (devices (fault i Fault.DeviceRestarted w) !! i) as [d|] eqn:Hd;
    [|by apply quiet_moves].
  destruct (Rng.next_u64 _) as [r seed]. change (World.entity _) with (World.entity w). change (World.scope _) with (World.scope w).
  rewrite Hs, He. fold (reloaded σ η d seed).
  eapply (moves_trans (silent 0 s i)); [|by apply (quiet_moves s i w (set_rng r (fault i Fault.DeviceRestarted w)))|].
  { intros a b c. by apply (silent_trans 0 0). }
  apply on_device_moves. intros d' Hd'. cbn in Hd, Hd'. rewrite Hd in Hd'. injection Hd' as <-. split.
  - apply calm_acts, reload_device_calm.
  - right. unfold requests, reloaded. by destruct (Db.cursors (Device.db d) !! σ).
Qed.

Lemma maybe_kill_moves s i w : in_world w → moves (silent 0 s i) i w (maybe_kill i w).
Proof.
  intros Hw. unfold maybe_kill. destruct (devices w !! i) as [d|]; [|by apply quiet_moves].
  destruct (Device.pending_kill d); [|by apply quiet_moves].
  eapply (silent_moves 0 0 _ _ _ (on_device i (Device.set_pending_kill false) w)); [done|done| |by apply restart_moves].
  apply on_device_moves. intros d' _. apply calm_silent; [apply calm_kill|done].
Qed.

(** Arming changes a verdict and a flag, never what is stored. *)
Definition armed (d d' : Device.t) : Prop :=
  same_engine (Device.engine d) (Device.engine d') ∧ Device.commands_authored d' = Device.commands_authored d ∧
  transport (Device.engine d') = transport (Device.engine d).

#[export] Instance armed_preorder : PreOrder armed.
Proof.
  split; [by intros d|]. intros x y z ((?&?&?&?&?&?&?&?) & ? & ?) ((?&?&?&?&?&?&?&?) & ? & ?).
  split; [split_and!; congruence|split; congruence].
Qed.

Lemma armed_silent s i d d' : armed d d' → silent 0 s i d d'.
Proof. intros (Hs & Hn & Ht). apply calm_silent; [by apply calm_same|]. unfold requests. by rewrite Ht. Qed.

Lemma arm_armed i w : moves armed i w (arm_storage i w).
Proof.
  unfold arm_storage. destruct (decide_storage _ _) as [r f].
  assert (Htrans : ∀ x y z, moves armed i x y → moves armed i y z → moves armed i x z).
  { intros x y z. apply moves_trans. intros a b c. apply transitivity. }
  assert (Hverdict : ∀ v x, moves armed i x (on_device i (Device.with_storage (Db.set_verdict v)) x)).
  { intros v x. apply on_device_moves. intros d _. split; [|done]. split_and!; try done. apply set_verdict_view. }
  assert (Hplain : ∀ v x, framed w x → devices x = devices w →
    moves armed i w (on_device i (Device.with_storage (Db.set_verdict v)) x)).
  { intros v x Hf Hd. eapply Htrans; [by apply (stays_moves armed i w x)|apply Hverdict]. }
  destruct f as [[]|]; try (by apply Hplain).
  eapply Htrans; [|apply Hverdict].
  eapply Htrans; [by apply (stays_moves armed i w (fault i Fault.StorageCommittedThenKilled (set_rng r w)))|].
  apply on_device_moves. by intros d _.
Qed.

Lemma arm_moves s i w : moves (silent 0 s i) i w (arm_storage i w).
Proof. eapply moves_weaken; [apply armed_silent|apply arm_armed]. Qed.

Lemma engine_call_moves {A E} (R : Device.t → Device.t → Prop) i (m : step SimEngine A E) w :
  (∀ d, R d (Device.set_engine (m (Device.engine d)).1 d)) → (∀ d, R d d) →
  moves R i w (engine_call i m w).1.
Proof.
  intros Hm Hr. unfold engine_call. destruct (devices w !! i) as [d|] eqn:Hd; [|by apply stays_moves].
  destruct (m (Device.engine d)) as [e r] eqn:Hc. apply on_device_moves. intros d' Hd'. rewrite Hd in Hd'. injection Hd' as <-.
  specialize (Hm d). by rewrite Hc in Hm.
Qed.

(** ** Authoring *)

Lemma set_authored_id d n : Device.commands_authored d = n → Device.set_commands_authored n d = d.
Proof. by destruct d; simpl; intros ->. Qed.

Lemma author_moves s i w : in_world w → moves (silent 1 s i) i w (author_command i w).
Proof.
  intros Hw. unfold author_command. destruct (devices w !! i) as [d|] eqn:Hd.
  2:{ apply stays_moves; [|done..]. intros d. split; [|by left]. intros Hok _. split_and!; [done..|lia]. }
  set (n := Device.commands_authored d). set (w1 := on_device i _ w).
  set (command := Command.mk _ _ _ _ _ _).
  destruct (engine_call i _ (arm_storage i w1)) as [w2 r] eqn:Hc.
  assert (moves (silent 1 s i) i w w2) as Hm.
  { split.
    - assert (framed w w1) as Hf1 by (split; try done; cbn; by rewrite length_alter).
      etransitivity; [exact Hf1|]. etransitivity; [apply (moves_frame _ _ _ _ (arm_armed i w1))|].
      pose proof (moves_frame _ _ _ _ (engine_call_moves (λ _ _, True) i (enqueue (OutboxEntry.mk command one_version)) (arm_storage i w1)
        (λ _, I) (λ _, I))) as Hf. by rewrite Hc in Hf.
    - intros j Hj.
      pose proof (moves_other _ _ _ _ (engine_call_moves (λ _ _, True) i (enqueue (OutboxEntry.mk command one_version)) (arm_storage i w1)
        (λ _, I) (λ _, I)) j Hj) as Ho. rewrite Hc in Ho. cbn [fst] in Ho.
      rewrite Ho, (moves_other _ _ _ _ (arm_armed i w1) j Hj). cbn. by rewrite list_lookup_alter_ne.
    - intros d0 Hd0. rewrite Hd in Hd0. injection Hd0 as <-.
      destruct (moves_at _ _ _ _ (arm_armed i w1) (Device.set_commands_authored ((n + 1) mod u32_mod) d)) as (d2 & Hd2 & Hs & Hn & Hr).
      { cbn. by rewrite list_lookup_alter_eq, Hd. }
      unfold engine_call in Hc. rewrite Hd2 in Hc.
      destruct (enqueue _ (Device.engine d2)) as [e re] eqn:He. injection Hc as <- _.
      exists (Device.set_engine e d2). split; [cbn; by rewrite list_lookup_alter_eq, Hd2|]. split.
      + intros Hok Hb. pose proof (device_authored _ _ _ _ _ Hok) as Hpos. fold n in Hb, Hpos.
        cbn in Hn. rewrite Z.mod_small in Hn by lia.
        destruct (calm_same σ η s i d (Device.set_commands_authored n d2)) as (Hok2 & Hl2 & Hc2 & _); [done|done|done|].
        destruct (author_enqueue σ η s i (Device.set_commands_authored n d2) command e re Hok2) as (Hok' & Hl' & Hc'); [done|done|done|].
        cbn [Device.commands_authored Device.set_commands_authored] in Hok', Hl', Hc'.
        assert (Device.set_engine e (Device.set_commands_authored (n + 1) (Device.set_commands_authored n d2)) = Device.set_engine e d2) as Heq.
        { destruct d2; cbn in *. by subst. }
        rewrite Heq in Hok', Hl', Hc'. split_and!; [done|by etransitivity|congruence|cbn; lia].
      + left. unfold requests in *. cbn. pose proof (enqueue_transport (OutboxEntry.mk command one_version) (Device.engine d2)) as Ht.
        rewrite He in Ht. cbn in Ht. by rewrite Ht, Hr. }
  eapply (silent_moves 1 0); [done|done|exact Hm|].
  eapply (silent_moves 0 0); [done|done|apply event_moves|]. apply maybe_kill_moves.
  eapply (framed_world w2); [done|]. eapply framed_world; [exact (moves_frame _ _ _ _ Hm)|done].
Qed.

(** ** Asking *)

Definition pull_of (d : Device.t) : WireRequest :=
  Pull (PullRequest.mk protocol [ScopeCursor.mk σ (stored_cursor (stored d) σ)] None).
(** What a device may have waiting to be sent at the end of its turn: a push, then a pull from
    the cursor it has stored. *)
Definition asks (d : Device.t) : Prop :=
  ∃ ps qs, requests d = ps ++ qs ∧
    (ps = [] ∨ ∃ req, ps = [Push req] ∧ (length (PushRequest.commands req) ≤ COMMANDS_MAX_COUNT)%nat) ∧
    (qs = [] ∨ qs = [pull_of d]).

Lemma build_loop_bound rg ms zc budget entries chosen buf hd chosen' buf' hd' :
  (length chosen ≤ COMMANDS_MAX_COUNT)%nat →
  build_loop (ZC := SimCompressor.t) rg ms zc budget entries chosen buf hd = Ok (chosen', buf', hd') →
  (length chosen' ≤ COMMANDS_MAX_COUNT)%nat.
Proof.
  revert chosen buf hd. induction entries as [|entry entries IH]; intros chosen buf hd Hle; cbn [build_loop]; [by intros [= <- _ _]|].
  destruct (Nat.leb_spec COMMANDS_MAX_COUNT (length chosen)); [by intros [= <- _ _]|].
  destruct (migrated_command _ _ _); [|by apply IH]. destruct (map_err _ _); cbn [res_bind]; [|done].
  destruct (_ && _); [by intros [= <- _ _]|]. apply IH. rewrite length_app. simpl. lia.
Qed.

Lemma build_push_bound budget (e e' : SimEngine) req :
  build_push protocol budget e = (e', Ok (Some req)) → (length (PushRequest.commands req) ≤ COMMANDS_MAX_COUNT)%nat.
Proof.
  unfold build_push, st_bind. destruct (refresh_outbox_if_suspect e) as [e1 [[]|]]; [|done].
  do 2 (case_bool_decide; [done|]). destruct (build_loop _ _ _ _ _ _ _ _) as [[[chosen buf] hd]|] eqn:Hl; [|done].
  intros [= _ <-]. eapply build_loop_bound; [|exact Hl]. simpl. lia.
Qed.

Lemma send_requests req d :
  let d' := Device.with_transport (λ t, (transport_enqueue t req).1) d in
  requests d' = requests d ∨ requests d' = requests d ++ [req].
Proof.
  unfold requests. cbn. destruct (SimTransport.online _); cbn; [right|by left]. by rewrite fmap_app.
Qed.
Lemma send_calm s i req d : calm σ η s i d (Device.with_transport (λ t, (transport_enqueue t req).1) d).
Proof. apply calm_transport. Qed.

Lemma push_moves s i w :
  moves (λ d d', acts 0 s i d d' ∧ (requests d = [] → requests d' = [] ∨
    ∃ req, requests d' = [Push req] ∧ (length (PushRequest.commands req) ≤ COMMANDS_MAX_COUNT)%nat)) i w (push_step i w).
Proof.
  assert (Hquiet : ∀ d, acts 0 s i d d ∧ (requests d = [] → requests d = [] ∨
    ∃ req, requests d = [Push req] ∧ (length (PushRequest.commands req) ≤ COMMANDS_MAX_COUNT)%nat)).
  { intros d. split; [by apply calm_acts|by left]. }
  unfold push_step, engine_call. destruct (devices w !! i) as [d|] eqn:Hd; [|by apply stays_moves].
  destruct (build_push protocol 100000 (Device.engine d)) as [e r] eqn:Hb.
  set (w1 := on_device i (Device.set_engine e) w).
  assert (acts 0 s i d (Device.set_engine e d)) as Ha by (by eapply calm_acts, build_push_calm).
  assert (requests (Device.set_engine e d) = requests d) as Hr.
  { unfold requests. cbn. pose proof (build_push_transport protocol 100000 (Device.engine d)) as Ht. rewrite Hb in Ht. cbn in Ht. by rewrite Ht. }
  assert (moves (λ d d', acts 0 s i d d' ∧ requests d' = requests d) i w w1) as Hm.
  { apply on_device_moves. intros d' Hd'. rewrite Hd in Hd'. injection Hd' as <-. done. }
  assert (Hplain : moves (λ d d', acts 0 s i d d' ∧ (requests d = [] → requests d' = [] ∨
    ∃ req, requests d' = [Push req] ∧ (length (PushRequest.commands req) ≤ COMMANDS_MAX_COUNT)%nat)) i w w1).
  { eapply moves_weaken; [|exact Hm]. intros a b [? ->]. auto. }
  destruct r as [[req|]|]; [|done..]. case_bool_decide; [done|].
  eapply (moves_trans (λ d d', acts 0 s i d d' ∧ requests d' = requests d)); [|exact Hm|].
  2:{ apply (on_device_moves (λ d d', acts 0 s i d d' ∧ (requests d' = requests d ∨ requests d' = requests d ++ [Push req]))).
      intros d' _. split; [apply calm_acts, send_calm|apply send_requests]. }
  intros a b c [Hab Hrb] [Hbc Hrc]. split; [by apply (acts_trans 0 0 s i a b c)|]. intros Hnil. rewrite Hrb, Hnil in Hrc.
  destruct Hrc as [->| ->]; [by left|right]. exists req. split; [done|]. by eapply build_push_bound.
Qed.

Lemma needs_reload_false sc (e e' : SimEngine) r : reload_scope sc e = (e', r) → r = Ok () → coherent e → needs_reload sc e' = false.
Proof. intros Hr -> Hc. apply reload_scope_ok in Hr as (_ & _ & Hn & _); [|done]. by apply bool_decide_eq_false_2. Qed.

(** A pull asks from the cursor that is stored. *)
Lemma pull_request_of w d :
  in_world w → client_inv (Device.engine d) → needs_reload σ (Device.engine d) = false →
  Pull (pull_request w (Device.engine d)) = pull_of d.
Proof.
  intros [Hs _] [Hc _] Hn. unfold pull_request, pull_of. rewrite Hs. do 3 f_equal. f_equal.
  apply bool_decide_eq_false in Hn. change (stored d) with (durable (Device.engine d)). rewrite <- (trusted_cursor _ _ Hc Hn). unfold cursor_of.
  by destruct (engine_scope_state σ (Device.engine d)).
Qed.

Lemma pull_moves s i w :
  in_world w →
  moves (λ d d', acts 0 s i d d' ∧ (device_ok σ η s i d → Device.commands_authored d < u32_mod →
    requests d' = requests d ∨ requests d' = requests d ++ [pull_of d'])) i w (pull_step i w).
Proof.
  intros Hw.
  assert (Hquiet : ∀ d, acts 0 s i d d ∧ (device_ok σ η s i d → Device.commands_authored d < u32_mod →
    requests d = requests d ∨ requests d = requests d ++ [pull_of d])).
  { intros d. split; [by apply calm_acts|by left]. }
  unfold pull_step. destruct (devices w !! i) as [d|] eqn:Hd; [|by apply stays_moves].
  rewrite (proj1 Hw).
  set (readied := if needs_reload σ (Device.engine d) then _ else (w, true)).
  assert (Hm : moves (λ d d', acts 0 s i d d' ∧ requests d' = requests d ∧
      (device_ok σ η s i d → readied.2 = true → needs_reload σ (Device.engine d') = false)) i w readied.1).
  { unfold readied. destruct (needs_reload σ (Device.engine d)) eqn:Hn.
    - unfold engine_call. rewrite Hd. destruct (reload_scope σ (Device.engine d)) as [e r] eqn:Hr. cbn [fst snd].
      apply on_device_moves. intros d' Hd'. rewrite Hd in Hd'. injection Hd' as <-. split_and!.
      + by eapply calm_acts, reload_calm.
      + unfold requests. cbn. pose proof (reload_scope_transport σ (Device.engine d)) as Ht. rewrite Hr in Ht. cbn in Ht. by rewrite Ht.
      + intros Hok. destruct r as [[]|]; [|done]. intros _. eapply needs_reload_false; [done|done|]. by apply Hok.
    - split; [done|done|]. intros d' Hd'. rewrite Hd in Hd'. injection Hd' as <-. exists d. split; [done|]. split_and!; [by apply calm_acts|done|done]. }
  destruct readied as [w1 ready]. cbn [fst snd] in Hm.
  assert (in_world w1) as Hw1 by (eapply framed_world; [apply Hm|done]).
  destruct (moves_at _ _ _ _ Hm d Hd) as (d1 & Hd1 & Ha1 & Hr1 & Hn1).
  destruct ready; cbn [negb]; [|eapply moves_weaken; [|exact Hm]; intros a b (? & ? & _); split; [done|by left]].
  rewrite Hd1. set (req := pull_request w1 (Device.engine d1)).
  split.
  - etransitivity; [apply Hm|]. apply (moves_frame (λ _ _, True) i). by apply on_device_moves.
  - intros j Hj. rewrite (moves_other (λ _ _, True) i w1) by (done || by apply on_device_moves). by apply Hm.
  - intros d0 Hd0. rewrite Hd in Hd0. injection Hd0 as <-. eexists. split; [cbn; by rewrite list_lookup_alter_eq, Hd1|]. split.
    + apply (acts_trans 0 0 s i d d1); [done|done|done|]. apply calm_acts, send_calm.
    + intros Hok Hn. rewrite <- Hr1. pose proof (send_requests (Pull req) d1) as Hsend. cbv zeta in Hsend.
      set (d2 := Device.with_transport _ d1) in *. assert (pull_of d2 = pull_of d1) as -> by done.
      destruct (Ha1 Hok ltac:(lia)) as (Hok1 & _).
      unfold req in Hsend. rewrite (pull_request_of w1 d1) in Hsend; [done|done|by apply Hok1|by apply Hn1].
Qed.
(** ** A turn *)

Lemma flap_moves s i w : moves (silent 0 s i) i w (flap_step i w).
Proof.
  unfold flap_step. destruct (devices w !! i) as [d|]; [|by apply quiet_moves].
  assert (Hon : ∀ b n x, moves (silent 0 s i) i x
    (on_device i (λ d, Device.with_transport (set_online b) (Device.set_offline n d)) x)).
  { intros b n x. apply on_device_moves. intros d' _. apply calm_silent; [|done]. etransitivity; [apply calm_offline|apply calm_transport]. }
  destruct (_ && _); [apply Hon|]. destruct (_ =? 0); [|by apply quiet_moves].
  pose proof (draw_chance_frame (FaultRates.connectivity_flap (rates w)) w) as [Hf Hd].
  destruct (draw_chance _ w) as [w1 b]. cbn [fst] in *.
  assert (moves (silent 0 s i) i w w1) as Hq by by apply quiet_moves. destruct b; [|done].
  eapply (silent_moves 0 0); [done|done|exact Hq|]. eapply (silent_moves 0 0); [done|done|apply Hon|]. by apply quiet_moves.
Qed.

(** A device's turn, up to what it sends. *)
Lemma device_step_moves s i w :
  in_world w →
  moves (λ d d', device_ok σ η s i d → requests d = [] → Device.commands_authored d + 1 < u32_mod →
    device_ok σ η s i d' ∧ later_look σ (stored d) (stored d') ∧ stored_cursor (stored d') σ = stored_cursor (stored d) σ ∧
    Device.commands_authored d' ≤ Device.commands_authored d + 1 ∧ asks d') i w (device_step i w).
Proof.
  intros Hw. unfold device_step. pose proof (flap_moves s i w) as H1. set (w1 := flap_step i w) in *.
  pose proof (draw_chance_frame (FaultRates.device_restart (rates w1)) w1) as [Hf2 Hd2].
  destruct (draw_chance _ w1) as [w2 b2]. cbn [fst] in *.
  assert (moves (silent 0 s i) i w w2) as H2 by (eapply (silent_moves 0 0); [done|done|exact H1|by apply quiet_moves]).
  assert (in_world w2) as Hw2 by (eapply framed_world; [apply H2|done]).
  set (w3 := if b2 then _ else w2).
  assert (moves (silent 0 s i) i w w3) as H3.
  { unfold w3. destruct b2; [|done]. eapply (silent_moves 0 0); [done|done|exact H2|by apply restart_moves]. }
  assert (in_world w3) as Hw3 by (eapply framed_world; [apply H3|done]).
  assert (∃ w4 b4, (if quiet w3 then (w3, false) else draw_chance 1 w3) = (w4, b4) ∧ framed w3 w4 ∧ devices w4 = devices w3)
    as (w4 & b4 & -> & Hf4 & Hd4).
  { destruct (quiet w3); [by eexists _, _|]. pose proof (draw_chance_frame 1 w3). destruct (draw_chance 1 w3). by eexists _, _. }
  assert (moves (silent 0 s i) i w w4) as H4 by (eapply (silent_moves 0 0); [done|done|exact H3|by apply quiet_moves]).
  assert (in_world w4) as Hw4 by (eapply framed_world; [apply H4|done]).
  set (w5 := if b4 then author_command i w4 else w4).
  assert (moves (silent 1 s i) i w w5) as H5.
  { unfold w5. destruct b4; [eapply (silent_moves 0 1); [done|done|exact H4|by apply author_moves]|].
    eapply moves_weaken; [|exact H4]. intros a b Hab. apply (silent_trans 0 1 s i a b b); [done|done|done|].
    split; [|by left]. intros Hok _. split_and!; [done..|lia]. }
  assert (in_world w5) as Hw5 by (eapply framed_world; [apply H5|done]).
  pose proof (push_moves s i w5) as H6. set (w6 := push_step i w5) in *.
  assert (in_world w6) as Hw6 by (eapply framed_world; [apply H6|done]).
  eapply moves_trans; [|eapply (moves_trans (silent 1 s i) _ (λ d d', ∃ d5, silent 1 s i d d5 ∧ acts 0 s i d5 d' ∧ (requests d5 = [] → requests d' = [] ∨
    ∃ req, requests d' = [Push req] ∧ (length (PushRequest.commands req) ≤ COMMANDS_MAX_COUNT)%nat))); [|exact H5|exact H6]|by apply pull_moves].
  2:{ intros a b c Hab [? ?]. by exists b. }
  intros d d6 d7 (d5 & [Ha5 Hr5] & Ha6 & Hr6) [Ha7 Hr7] Hok Hnil Hn. cbv beta in *.
  destruct (acts_trans 1 0 s i d d5 d6 ltac:(lia) ltac:(lia) Ha5 Ha6 Hok ltac:(lia)) as (Hok6 & Hl6 & Hc6 & Hn6).
  destruct (Ha7 Hok6 ltac:(lia)) as (Hok7 & Hl7 & Hc7 & Hn7). split_and!; [done|by etransitivity|congruence|lia|].
  specialize (Hr7 Hok6 ltac:(lia)). assert (requests d5 = []) as Hnil5 by (destruct Hr5 as [->|]; done).
  assert (requests d6 = [] ∨ ∃ req, requests d6 = [Push req] ∧ (length (PushRequest.commands req) ≤ COMMANDS_MAX_COUNT)%nat) as Hps
    by auto.
  destruct Hr7 as [Hr7|Hr7]; [exists (requests d6), []|exists (requests d6), [pull_of d7]]; rewrite Hr7, ?app_nil_r; auto.
Qed.
End steps.
