(* ===== verification/WorldCarry.v ===== *)
(** * WorldCarry: the network of a world. What it puts in flight is what the server has past the
    cursor asked for, in the order it was asked. *)

From S2P Require Import Prelude Errors Nums Ids Json Wire Integrity Core Registry Migrate Outbox.
From S2P Require Import Storage SimStorage Apply Engine EngineFacts EngineSteps Place Ledger.
From S2P Require Import Server Rng FaultMenu Pressure SimServer SimServerFacts SimReads SimFeed.
From S2P Require Import Invariants InvariantFacts Trace World Deliveries WorldDevices WorldServer WorldSteps.
From stdpp Require Import options.

(** The batches on their way to a device, in the order of the queue. *)
Definition carried (f : InFlight.t) : list Batch.t :=
  match InFlight.response f with Ok (PullResp r) => PullResponse.batches r | _ => [] end.
Definition batches_for (i : nat) (fl : list InFlight.t) : list Batch.t :=
  flat_map (λ f, if decide (InFlight.device f = i) then carried f else []) fl.

Lemma batches_for_app i a b : batches_for i (a ++ b) = batches_for i a ++ batches_for i b.
Proof. apply flat_map_app. Qed.
Lemma batches_for_cons i f fl :
  batches_for i (f :: fl) = (if decide (InFlight.device f = i) then carried f else []) ++ batches_for i fl.
Proof. done. Qed.

(** The latencies keep an answer, repeated or not, within the step after it was asked for. *)
Definition rates_ok (r : FaultRates.t) : Prop :=
  let '(lo, hi) := FaultRates.latency_ms r in 1 ≤ lo ∧ Z.max lo hi + 500 ≤ STEP_MS.

(** ** A rule broken *)

Lemma last_repeated_broken b c : last (Batch.changes b) = Some c → broken (push_change c b).
Proof.
  intros Hl q Hv. apply apply_ordering_ok in Hv as (Hs & _). cbn in Hs. apply last_Some in Hl as [cs Hcs]. rewrite Hcs in Hs.
  apply StronglySorted_app in Hs as (Hlt & _). specialize (Hlt c c ltac:(set_solver) ltac:(set_solver)).
  unfold Wire.seq_lt in Hlt. lia.
Qed.

(** Everything but the server, the generator, the trace and the load. *)
Definition nets (w w' : World) : Prop :=
  World.scope w' = World.scope w ∧ World.entity w' = World.entity w ∧ rates w' = rates w ∧ now_ms w' = now_ms w ∧
  quiet w' = quiet w ∧ World.registry w' = World.registry w ∧ invariants w' = invariants w ∧
  devices w' = devices w ∧ in_flight w' = in_flight w ∧ held w' = held w.
#[export] Instance nets_preorder : PreOrder nets.
Proof.
  split; [by intros w; unfold nets; split_and!|]. intros x y z (?&?&?&?&?&?&?&?&?&?) (?&?&?&?&?&?&?&?&?&?). unfold nets. split_and!; congruence.
Qed.

Lemma framed_nets w w' : framed w w' → devices w' = devices w → nets w w'.
Proof. by intros [] ?. Qed.

Section carry.
Context `{Hashes} `{Codec} `{!CodecArrays}.
Hypothesis Henc : ∀ c : Change.t, encodable c.
Variables (σ : ScopeId.t) (η : EntityName.t).
Abbreviation device_ok := (WorldDevices.device_ok σ η).
Abbreviation pull_of := (WorldSteps.pull_of σ).

(** What may be put in flight for a pull from [c]. *)
Definition answers (s : Server) (c : Cursor.t) (b : Batch.t) : Prop :=
  owned σ η b ∧ ((∃ budget, b = pull_scope s PULL_LIMIT budget (ScopeCursor.mk σ c)) ∨ broken b).

Lemma pulled_owned s b c : server_ok σ η s → pulled σ s b c → owned σ η b.
Proof using All.
  intros Hs [Hsc _ _ Hch _ _]. split; [done|]. rewrite Hch. apply Forall_fmap. pose proof (entries_own σ η s σ Hs) as Ho.
  rewrite Forall_forall in *. intros e [_ He]%list_elem_of_filter. by apply Ho.
Qed.

Lemma repeated_answers s c b x : last (Batch.changes b) = Some x → answers s c b → answers s c (push_change x b).
Proof.
  intros Hl [[Hsc Ho] Hb]. split; [split; [done|]|right; by apply last_repeated_broken].
  cbn. apply Forall_app. split; [done|]. constructor; [|done]. rewrite Forall_forall in Ho. apply Ho. by apply last_Some_elem_of.
Qed.

(** What the server says to one request of a device whose cursor is [c]. *)
Definition asked (c : Cursor.t) (req : WireRequest) : Prop :=
  (∃ push, req = Push push ∧ (length (PushRequest.commands push) ≤ COMMANDS_MAX_COUNT)%nat) ∨
  req = Pull (PullRequest.mk protocol [ScopeCursor.mk σ c] None).
Definition replies (s : Server) (c : Cursor.t) (req : WireRequest) (b : Batch.t) : Prop :=
  match req with Pull _ => answers s c b | _ => False end.
Definition batches_of (r : Response) : list Batch.t :=
  match r with Ok (PullResp p) => PullResponse.batches p | _ => [] end.

Lemma answer_answers i violate w c req w' r :
  server_ok σ η (server w) → seqs_fit (server w) → Cursor.wf c → Cursor.get c < next_seq (server w) → asked c req →
  answer i violate req w = (w', Some r) →
  nets w w' ∧ served σ η 256 (server w) (server w') ∧ Forall (replies (server w') c req) (batches_of r).
Proof using All.
  intros Hs Hfit Hc Hlt [(push & -> & Hlen)| ->]; unfold answer.
  - destruct (Pressure.accept_count _ _) as [p n]. cbn [server rng set_pressure].
    pose proof (push_served σ η push (Z.to_nat n) (server w) (rng w) Hs Hlen) as Hp.
    destruct (push_prefix _ _ _ _) as [[s g] resp]. cbn [fst] in Hp.
    destruct violate; [destruct (repeat_last_result resp) as [resp' []]|]; intros [= <- <-];
      (split; [done|split; [exact Hp|constructor]]).
  - set (b := pull_scope (server w) PULL_LIMIT (Z.to_N (Pressure.budget_bytes (pressure w))) (ScopeCursor.mk σ c)).
    assert (answers (server w) c b) as Hb.
    { split; [|left; by eexists]. eapply pulled_owned; [done|]. apply pull_pulled; try done; apply Hs. }
    assert (served σ η 256 (server w) (server w)) by by apply served_refl.
    unfold repeat_last_change, SimServer.pull. cbn. fold b.
    destruct violate; [destruct (last (Batch.changes b)) eqn:Hl|]; cbn; intros [= <- <-];
      (split; [done|split; [done|]]); apply Forall_singleton; done || by apply repeated_answers.
Qed.

(** ** One request *)

Definition next_step (w : World) (f : InFlight.t) : Prop :=
  now_ms w < InFlight.deliver_at_ms f ≤ now_ms w + STEP_MS.

(** What carrying one request of device [i] does: [new] joins the flights and [kept] the held. *)
Record hauled (i : nat) (c : Cursor.t) (req : WireRequest) (w w' : World) (new kept : list InFlight.t) : Prop := MkHauled {
  hauled_same : World.scope w' = World.scope w ∧ World.entity w' = World.entity w ∧ rates w' = rates w ∧
    now_ms w' = now_ms w ∧ quiet w' = quiet w ∧ World.registry w' = World.registry w ∧ invariants w' = invariants w;
  hauled_server : served σ η 256 (server w) (server w');
  hauled_devices : ∃ n, devices w' = alter (Device.set_requests_sent n) i (devices w);
  hauled_flights : in_flight w' = in_flight w ++ new ∧ held w' = held w ++ kept;
  hauled_timing : Forall (next_step w) new;
  hauled_owner : Forall (λ f, InFlight.device f = i) (new ++ kept);
  hauled_answers : Forall (replies (server w') c req) (batches_for i (new ++ kept));
}.

Lemma hauled_nothing i c req w w' n :
  nets (on_device i (Device.set_requests_sent n) w) w' → served σ η 256 (server w) (server w') → hauled i c req w w' [] [].
Proof. intros (?&?&?&?&?&?&?&?&?&?) ?. split; rewrite ?app_nil_r; try done; [by exists n|constructor..]. Qed.

Lemma hauled_one i c req w w' n f new kept :
  nets (on_device i (Device.set_requests_sent n) w) w' → served σ η 256 (server w) (server w') →
  Forall (next_step w) new → Forall (λ g, InFlight.device g = i ∧ InFlight.response g = f) (new ++ kept) →
  Forall (replies (server w') c req) (batches_of f) →
  hauled i c req w (set_held (λ l, l ++ kept) (set_in_flight (λ l, l ++ new) w')) new kept.
Proof.
  intros (?&?&?&?&?&?&?&?&Hf&Hh) ? Ht Ho Ha. split; try done.
  - by exists n.
  - cbn in *. by rewrite Hf, Hh.
  - eapply Forall_impl; [exact Ho|]. by intros g [? _].
  - cbn. induction Ho as [|g l [Hg <-] _ IH]; [constructor|]. rewrite batches_for_cons, decide_True by done. by apply Forall_app.
Qed.

Lemma latency_next w lat more :
  rates_ok (rates w) → 0 ≤ more ≤ 500 →
  (FaultRates.latency_ms (rates w)).1 ≤ lat ≤ Z.max (FaultRates.latency_ms (rates w)).1 (FaultRates.latency_ms (rates w)).2 →
  now_ms w < now_ms w + lat + more ≤ now_ms w + STEP_MS.
Proof. unfold rates_ok. destruct (FaultRates.latency_ms _) as [lo hi]. cbn. lia. Qed.

Lemma draw_range_nets lo hi w : nets w (draw_range lo hi w).1 ∧ server (draw_range lo hi w).1 = server w ∧
  lo ≤ (draw_range lo hi w).2 ≤ Z.max lo hi.
Proof.
  destruct (draw_range_frame lo hi w) as [Hf Hd]. split; [by apply framed_nets|]. split; [apply Hf|].
  unfold draw_range. pose proof (range_bounds (rng w) lo hi). by destruct (Rng.range _ _ _).
Qed.

(** The end of [carry_request]: an answer is put in flight, twice, or held back. *)
Definition post (i : nat) (f : option Fault.t) (response : Response) (w : World) : World :=
  let '(w, latency) := draw_range (FaultRates.latency_ms (rates w)).1 (FaultRates.latency_ms (rates w)).2 w in
  let flight := InFlight.mk i (now_ms w + latency) response in
  match f with
  | Some Fault.Duplicated =>
      let '(w, more) := draw_range 1 500 w in
      set_in_flight (λ l, l ++ [InFlight.mk i (InFlight.deliver_at_ms flight + more) response; flight]) w
  | Some Fault.Reordered => set_held (λ l, l ++ [flight]) w
  | _ => set_in_flight (λ l, l ++ [flight]) w
  end.

Lemma post_hauled i c req w w4 n f response :
  rates_ok (rates w) → nets (on_device i (Device.set_requests_sent n) w) w4 → served σ η 256 (server w) (server w4) →
  Forall (replies (server w4) c req) (batches_of response) →
  ∃ new kept, hauled i c req w (post i f response w4) new kept.
Proof using All.
  intros Hr K4' Hs4 Hb'. unfold post.
  assert (rates w4 = rates w ∧ now_ms w4 = now_ms w) as [Hr4 Hn4] by (by destruct K4' as (_&_&?&?&_)).
  destruct (draw_range_nets (FaultRates.latency_ms (rates w4)).1 (FaultRates.latency_ms (rates w4)).2 w4) as (K5 & Hs5 & Hlat).
  destruct (draw_range _ _ w4) as [w5 lat]. cbn [fst snd] in *. rewrite Hr4 in Hlat.
  assert (nets (on_device i (Device.set_requests_sent n) w) w5) as K5' by (by etransitivity).
  assert (now_ms w5 = now_ms w) as Hn5 by (by destruct K5' as (_&_&_&?&_)).
  rewrite <- Hs5 in Hs4, Hb'.
  set (flight := InFlight.mk i (now_ms w5 + lat) response).
  assert (next_step w flight) as Hflight.
  { unfold next_step, flight. cbn. rewrite Hn5. pose proof (latency_next w lat 0 Hr ltac:(lia) Hlat). lia. }
  assert (Hplain : hauled i c req w (set_in_flight (λ l, l ++ [flight]) w5) [flight] []).
  { pose proof (hauled_one i c req w w5 n response [flight] [] K5' Hs4) as Hone.
    cut (set_in_flight (λ l, l ++ [flight]) w5 = set_held (λ l, l ++ []) (set_in_flight (λ l, l ++ [flight]) w5)).
    { intros ->. apply Hone; [by apply Forall_singleton|by repeat constructor|done]. }
    unfold set_held, set_in_flight. cbn. by rewrite app_nil_r. }
  destruct f as [[]|]; try (by exists [flight], []).
  - destruct (draw_range_nets 1 500 w5) as (K6 & Hs6 & Hmore). destruct (draw_range 1 500 w5) as [w6 more]. cbn [fst snd] in *.
    set (copy := InFlight.mk i _ response).
    exists [copy; flight], []. pose proof (hauled_one i c req w w6 n response [copy; flight] []) as Hone.
    cut (set_in_flight (λ l, l ++ [copy; flight]) w6 = set_held (λ l, l ++ []) (set_in_flight (λ l, l ++ [copy; flight]) w6)).
    { intros ->. apply Hone; rewrite ?Hs6; try done; [by etransitivity|constructor; [|by apply Forall_singleton]|by repeat constructor].
      unfold next_step, copy. cbn. rewrite Hn5. apply (latency_next w); [done|lia|done]. }
    unfold set_held, set_in_flight. cbn. by rewrite app_nil_r.
  - exists [], [flight]. pose proof (hauled_one i c req w w5 n response [] [flight] K5' Hs4) as Hone.
    cut (set_held (λ l, l ++ [flight]) w5 = set_held (λ l, l ++ [flight]) (set_in_flight (λ l, l ++ []) w5)).
    { intros ->. apply Hone; [constructor|by repeat constructor|done]. }
    unfold set_held, set_in_flight. cbn. by rewrite app_nil_r.
Qed.

Lemma carry_request_hauled i d c w out :
  devices w !! i = Some d → rates_ok (rates w) → server_ok σ η (server w) → seqs_fit (server w) →
  Cursor.wf c → Cursor.get c < next_seq (server w) → asked c out.2 →
  ∃ new kept, hauled i c out.2 w (carry_request i w out) new kept.
Proof using All.
  intros Hd Hr Hs Hfit Hc Hlt Ha. unfold carry_request. rewrite Hd.
  set (n := Device.requests_sent d + 1). set (w1 := on_device i _ w).
  destruct (decide_response (rng w1) (rates w1) n) as [r f].
  set (w2 := match f with Some f => fault i f (set_rng r w1) | None => set_rng r w1 end).
  assert (nets w1 w2 ∧ server w2 = server w) as [K2 Hs2] by (unfold w2; by destruct f).
  case_bool_decide; [exists [], []; apply (hauled_nothing _ _ _ _ _ n); [done|]; rewrite Hs2; by apply served_refl|].
  destruct (draw_chance_frame (FaultRates.protocol_violation (rates w2)) w2) as [Hf3 Hd3].
  destruct (draw_chance _ w2) as [w3 violate]. cbn [fst] in *.
  assert (nets w1 w3) as K3 by (etransitivity; [exact K2|by apply framed_nets]).
  assert (server w3 = server w) as Hs3 by (rewrite (framed_server _ _ Hf3); done).
  destruct (answer i violate out.2 w3) as [w4 [response|]] eqn:He.
  2:{ exfalso. revert He. unfold answer. destruct Ha as [(? & -> & _)| ->].
      - destruct (Pressure.accept_count _ _), (push_prefix _ _ _ _) as [[] ?], violate; [destruct (repeat_last_result _)|]; done.
      - destruct violate; [destruct (repeat_last_change _)|]; done. }
  destruct (answer_answers i violate w3 c out.2 w4 response) as (K4 & Hs4 & Hb); rewrite ?Hs3; try done.
  set (response' := match f with Some Fault.Severed => _ | Some Fault.Malformed => _ | _ => response end).
  assert (Forall (replies (server w4) c out.2) (batches_of response')) as Hb' by (unfold response'; destruct f as [[]|]; done || constructor).
  rewrite Hs3 in Hs4. apply (post_hauled i c out.2 w w4 n f response'); [done|by etransitivity|done|done].
Qed.
End carry.
