(* ===== verification/WorldSound.v ===== *)
(** * WorldSound: the invariant of a simulated world and the phases of its step.

    A step moves the clock, the server, each device in turn, the network and what is due.
    [sound q] says the server is well formed, every device stands at its cursor, and the
    batches [q] still on their way to it can be taken in that order. *)

From S2P Require Import Prelude Errors Nums Ids Json Wire Integrity Core Registry Migrate Outbox.
From S2P Require Import Storage SimStorage Apply Engine EngineFacts EngineSteps Place Ledger.
From S2P Require Import Server Rng FaultMenu Pressure SimServer SimServerFacts SimReads SimFeed.
From S2P Require Import Invariants InvariantFacts Trace World Deliveries WorldDevices WorldServer WorldSteps WorldCarry.
From stdpp Require Import options.

Section sound.
Context `{Hashes} `{Codec}.
Variables (σ : ScopeId.t) (η : EntityName.t).
Abbreviation reg := (WorldDevices.reg σ η).

Record sound (q : nat → list Batch.t) (w : World) : Prop := MkSound {
  sound_world : in_world σ η w ∧ World.registry w = reg;
  sound_rates : rates_ok (rates w);
  sound_server : server_ok σ η (server w);
  sound_device i d : devices w !! i = Some d → device_ok σ η (server w) i d;
  sound_queue i d : devices w !! i = Some d → queue_ok σ (server w) (stored_cursor (stored d) σ) (q i);
  sound_owned i : Forall (owned σ η) (q i);
}.

(** What a phase leaves of the settings of a world. *)
Definition settings (w w' : World) : Prop :=
  World.scope w' = World.scope w ∧ World.entity w' = World.entity w ∧ rates w' = rates w ∧ now_ms w' = now_ms w ∧
  quiet w' = quiet w ∧ World.registry w' = World.registry w ∧ invariants w' = invariants w.
#[export] Instance settings_preorder : PreOrder settings.
Proof.
  split; [by intros w; unfold settings; split_and!|]. intros x y z (?&?&?&?&?&?&?) (?&?&?&?&?&?&?). unfold settings. split_and!; congruence.
Qed.
Lemma framed_settings w w' : framed w w' → settings w w'.
Proof. by intros []. Qed.
Lemma nets_settings w w' : nets w w' → settings w w'.
Proof. by intros (?&?&?&?&?&?&?&?&?&?). Qed.

(** Devices only go forward, authoring at most [k] commands each. *)
Definition forward (k : Z) (d d' : Device.t) : Prop :=
  later_look σ (stored d) (stored d') ∧ Device.commands_authored d' ≤ Device.commands_authored d + k.

Lemma forward_trans j k a b c : forward j a b → forward k b c → forward (j + k) a c.
Proof. intros [? ?] [? ?]. split; [by etransitivity|lia]. Qed.
Lemma forward_refl k d : 0 ≤ k → forward k d d.
Proof. split; [done|lia]. Qed.

(** A phase: at most [k] commands authored by a device, at most [n] entries logged. *)
Record evolves (k n : Z) (w w' : World) : Prop := MkEvolves {
  evolves_settings : settings w w';
  evolves_grows : grows (server w) (server w');
  evolves_seqs : next_seq (server w') ≤ next_seq (server w) + n;
  evolves_devices : Forall2 (forward k) (devices w) (devices w');
}.

Lemma evolves_trans j m k n x y z : evolves j m x y → evolves k n y z → evolves (j + k) (m + n) x z.
Proof.
  intros [Hs Hg Hq Hd] [Hs' Hg' Hq' Hd']. split; [by etransitivity..|lia|].
  revert Hd'. generalize (devices z). induction Hd as [|a b l l' Hab _ IH]; intros l'' Hd'; inversion Hd'; subst; constructor.
  - by eapply forward_trans.
  - by apply IH.
Qed.
Lemma evolves_stays k n w w' :
  0 ≤ k → 0 ≤ n → settings w w' → server w' = server w → devices w' = devices w → evolves k n w w'.
Proof.
  intros ? ? Hs Hv Hd. split; rewrite ?Hv, ?Hd; [done|done|lia|].
  clear Hd. induction (devices w); constructor; [by apply forward_refl|done].
Qed.
Lemma evolves_refl k n w : 0 ≤ k → 0 ≤ n → evolves k n w w.
Proof. intros. by apply evolves_stays. Qed.

(** ** Moving the server and the devices *)

Lemma device_ok_grows s s' i d : grows s s' → device_ok σ η s i d → device_ok σ η s' i d.
Proof. intros Hg []. split; try done. by eapply standing_grows. Qed.

(** A device that kept its place. *)
Definition stays_put (s : Server) (i : nat) (d d' : Device.t) : Prop :=
  device_ok σ η s i d' ∧ later_look σ (stored d) (stored d') ∧ stored_cursor (stored d') σ = stored_cursor (stored d) σ.

Lemma sound_step n q w w' :
  settings w w' → served σ η n (server w) (server w') →
  length (devices w') = length (devices w) →
  (∀ i d, devices w !! i = Some d → ∃ d', devices w' !! i = Some d' ∧ stays_put (server w) i d d') →
  sound q w → sound q w'.
Proof.
  intros (Hsc & Hen & Hr & _ & _ & Hreg & _) (Hs' & Hg & _) Hlen Hdev [[[Hw1 Hw2] Hw3] Hrates Hs Hd Hq Ho].
  assert (Hback : ∀ i d', devices w' !! i = Some d' → ∃ d, devices w !! i = Some d ∧ stays_put (server w) i d d').
  { intros i d' Hi. destruct (lookup_lt_is_Some_2 (devices w) i) as [d Hdi].
    { rewrite <- Hlen. by eapply lookup_lt_Some. }
    destruct (Hdev i d Hdi) as (d'' & Hi' & Hp). rewrite Hi in Hi'. injection Hi' as <-. eauto. }
  split; [|by rewrite Hr|done|..|done].
  - split; [split|]; congruence.
  - intros i d' Hi. destruct (Hback i d' Hi) as (d & _ & Hok & _). by eapply device_ok_grows.
  - intros i d' Hi. destruct (Hback i d' Hi) as (d & Hdi & _ & _ & ->). eapply queue_ok_grows; [done|]. by apply Hq.
Qed.

Lemma sound_queues q q' w : (∀ i, q' i = q i) → sound q w → sound q' w.
Proof. intros Hq []. split; try done; intros i; rewrite Hq; auto. Qed.

(** One device moves in place. *)
Lemma sound_moves (R : Device.t → Device.t → Prop) k i q w w' :
  0 ≤ k → moves R i w w' →
  (∀ d d', devices w !! i = Some d → device_ok σ η (server w) i d → R d d' → stays_put (server w) i d d' ∧ forward k d d') →
  sound q w → sound q w' ∧ evolves k 0 w w'.
Proof.
  intros Hk [Hf Ho Ha] HR Hsound. pose proof (framed_settings _ _ Hf) as Hset. pose proof (framed_server _ _ Hf) as Hsv.
  assert (Hat : ∀ j d, devices w !! j = Some d → ∃ d', devices w' !! j = Some d' ∧ stays_put (server w) j d d' ∧ forward k d d').
  { intros j d Hj. destruct (decide (j = i)) as [->|Hne].
    - destruct (Ha d Hj) as (d' & Hd' & Hr). exists d'. split; [done|]. apply HR; [done|by eapply sound_device|done].
    - exists d. rewrite Ho by done. split; [done|]. split; [split_and!; [by eapply sound_device|done|done]|by apply forward_refl]. }
  split.
  - eapply (sound_step 0 q w w'); [done| |by apply Hf| |done].
    + rewrite Hsv. apply served_refl; [done|by eapply sound_server].
    + intros j d Hj. destruct (Hat j d Hj) as (d' & ? & ? & _). eauto.
  - split; [done|by rewrite Hsv|rewrite Hsv; lia|]. apply Forall2_same_length_lookup. split; [symmetry; apply Hf|].
    intros j d d' Hj Hj'. destruct (Hat j d Hj) as (d'' & Hj'' & _ & ?). rewrite Hj' in Hj''. by injection Hj'' as <-.
Qed.

(** Nothing of interest moves. *)
Lemma sound_stays q w w' : settings w w' → server w' = server w → devices w' = devices w → sound q w → sound q w'.
Proof.
  intros Hset Hs Hd Hsound. eapply (sound_step 0); [done| |by rewrite Hd| |done].
  - rewrite Hs. apply served_refl; [done|by eapply sound_server].
  - intros i d Hi. exists d. rewrite Hd. split; [done|]. split_and!; [by eapply sound_device|done|done].
Qed.

(** ** The clock and the server *)

Lemma sound_clock t q w : sound q w → let w' := set_devices (fmap (Device.with_clock (advance_to t))) w in
  sound q w' ∧ evolves 0 0 w w'.
Proof.
  intros Hs. cbv zeta. assert (∀ i d, devices w !! i = Some d → calm σ η (server w) i d (Device.with_clock (advance_to t) d)) as Hc.
  { intros i d _. apply calm_clock. }
  assert (Hset : settings w (set_devices (fmap (Device.with_clock (advance_to t))) w)) by (unfold settings; by split_and!).
  split.
  - eapply (sound_step 0 q w); [exact Hset| | | |done].
    + apply served_refl; [done|exact (sound_server _ _ Hs)].
    + cbn. by rewrite length_fmap.
    + intros i d Hi. eexists. cbn. rewrite list_lookup_fmap, Hi. split; [done|].
      destruct (Hc i d Hi) as (?&?&?&_); [by eapply sound_device|]. done.
  - split; [exact Hset|done|cbn; lia|]. cbn. apply Forall2_fmap_r, Forall_Forall2_diag, Forall_forall. intros d _. split; [done|cbn; lia].
Qed.

Lemma server_moves n q w w' :
  0 ≤ n → settings w w' → devices w' = devices w → served σ η n (server w) (server w') → sound q w →
  sound q w' ∧ evolves 0 n w w'.
Proof.
  intros Hn Hset Hd Hv Hs. split.
  - eapply sound_step; [done|exact Hv|by rewrite Hd| |done].
    intros i d Hi. exists d. rewrite Hd. split; [done|]. split_and!; [by eapply sound_device|done|done].
  - split; [done|by apply Hv..|]. rewrite Hd. apply Forall_Forall2_diag, Forall_forall. intros d _. by apply forward_refl.
Qed.

(** A server's turn: at most one write, no change to devices or flights. *)
Definition aside (n : Z) (w w' : World) : Prop :=
  nets w w' ∧ (server_ok σ η (server w) → served σ η n (server w) (server w')).
Lemma aside_trans m n x y z : aside m x y → aside n y z → aside (m + n) x z.
Proof. intros [? K1] [? K2]. split; [by etransitivity|]. intros Hs. eapply served_trans; [by apply K1|]. apply K2. by apply K1. Qed.
Lemma aside_stays w w' : nets w w' → server w' = server w → aside 0 w w'.
Proof. intros ? Hs. split; [done|]. rewrite Hs. by apply served_refl. Qed.
Lemma aside_server n f w : (server_ok σ η (server w) → served σ η n (server w) (f (server w))) → aside n w (set_server f w).
Proof. intros Hf. by split. Qed.
Lemma aside_weaken m n w w' : m ≤ n → aside m w w' → aside n w w'.
Proof. intros Hn [? Hs]. split; [done|]. intros Hok. destruct (Hs Hok) as (? & ? & ?). split_and!; [done|done|lia]. Qed.

(** A chance that is not drawn in a quiet world. *)
Lemma gated_aside (b : bool) p w w' x : (if b then (w, false) else draw_chance p w) = (w', x) → aside 0 w w'.
Proof.
  destruct b; [intros [= <- _]; by apply aside_stays|]. intros Hd. pose proof (draw_chance_frame p w) as [Hf Hv].
  rewrite Hd in Hf, Hv. apply aside_stays; [by apply framed_nets|apply Hf].
Qed.

Lemma server_turn_aside w : in_world σ η w → aside 1 w (server_turn w).
Proof using All.
  intros [Hsc Hen]. unfold server_turn.
  assert (aside 0 w (set_server advance_commits w)) as K1 by (apply aside_server, commits_served).
  set (w1 := set_server advance_commits w) in *.
  destruct (if quiet w1 then _ else _) as [w2 b2] eqn:E2. apply gated_aside in E2.
  set (w3 := if b2 then _ else w2).
  assert (aside 0 w2 w3) as K3.
  { unfold w3. destruct b2; [|by apply aside_stays]. destruct (draw_range_nets 1 4 w2) as (Hn & Hs & Hlat).
    destruct (draw_range 1 4 w2) as [w' delay]. cbn [fst snd] in *.
    eapply (aside_trans 0 0 _ w'); [by apply aside_stays|]. apply (aside_trans 0 0 _ (set_server (hold_next_write delay) w')); [|by apply aside_stays].
    apply aside_server, hold_served. lia. }
  destruct (draw_chance (FaultRates.server_restart (rates w3)) w3) as [w4 b4] eqn:E4.
  apply (gated_aside false) in E4. set (w5 := if b4 then _ else w4).
  assert (aside 0 w4 w5) as K5.
  { unfold w5. destruct b4; [|by apply aside_stays]. apply (aside_trans 0 0 _ (set_server restart_cold w4)); [|by apply aside_stays].
    apply aside_server, restart_served. }
  set (w6 := set_pressure _ w5). assert (aside 0 w5 w6) as K6 by by apply aside_stays.
  destruct (if quiet w6 || _ then _ else _) as [w7 b7] eqn:E7. apply gated_aside in E7.
  set (w8 := if b7 then _ else w7). assert (aside 0 w7 w8) as K8.
  { unfold w8. destruct b7; [|by apply aside_stays]. destruct (Pressure.overload _ _). by apply aside_stays. }
  destruct (if quiet w8 then _ else _) as [w9 b9] eqn:E9. apply gated_aside in E9.
  assert (aside 0 w w9) as Hall.
  { do 2 (eapply (aside_trans 0 0); [|eassumption]). eapply (aside_trans 0 0 _ w6); [|exact E7].
    eapply (aside_trans 0 0 _ w5); [|exact K6]. eapply (aside_trans 0 0 _ w4); [|exact K5]. eapply (aside_trans 0 0 _ w3); [|exact E4].
    eapply (aside_trans 0 0 _ w2); [|exact K3]. by eapply (aside_trans 0 0 _ w1). }
  destruct b9; [|by eapply aside_weaken; [|exact Hall]].
  eapply (aside_trans 0 1); [exact Hall|]. destruct Hall as [(Hsc9 & Hen9 & _) _]. rewrite Hsc9, Hen9, Hsc, Hen.
  destruct (external_change σ η (server w9) (rng w9)) as [s r] eqn:He.
  split; [by unfold nets; split_and!|]. intros Hok. pose proof (external_ok σ η (server w9) (rng w9) Hok) as Hx. rewrite He in Hx. cbn in Hx |- *.
  destruct Hx as (? & ? & Hn). split_and!; [done|done|cbn; lia].
Qed.

Lemma sound_server_turn q w : sound q w → sound q (server_turn w) ∧ evolves 0 1 w (server_turn w) ∧ nets w (server_turn w).
Proof using All.
  intros Hs. destruct (server_turn_aside w) as [Hn Hv]; [by apply (sound_world _ _ Hs)|].
  edestruct (server_moves 1 q w (server_turn w)); [done|by apply nets_settings|by apply Hn|by eapply Hv, sound_server|done|done].
Qed.
End sound.
