(* ===== verification/WorldPhases.v ===== *)
(** * WorldPhases: the devices' turns, the network and the deliveries of one step. *)

From S2P Require Import Prelude Errors Nums Ids Json Wire Integrity Core Registry Migrate Outbox.
From S2P Require Import Storage SimStorage Apply Engine EngineFacts EngineSteps Place Ledger.
From S2P Require Import Server Rng FaultMenu Pressure SimServer SimServerFacts SimReads SimFeed.
From S2P Require Import Invariants InvariantFacts Trace World Deliveries WorldDevices WorldServer WorldSteps WorldCarry WorldSound.
From stdpp Require Import options.

(** By rewriting: conversion would run the generator. *)
Lemma fold_left_step {A B} (f : A → B → A) x l a : fold_left f (x :: l) a = fold_left f l (f a x).
Proof. done. Qed.

Section phases.
Context `{Hashes} `{Codec} `{!CodecArrays}.
Hypothesis Henc : ∀ c : Change.t, encodable c.
Variables (σ : ScopeId.t) (η : EntityName.t).
Abbreviation sound := (WorldSound.sound σ η).
Abbreviation evolves := (WorldSound.evolves σ).
Abbreviation forward := (WorldSound.forward σ).

Lemma evolves_pointwise k n w w' :
  settings w w' → grows (server w) (server w') → next_seq (server w') ≤ next_seq (server w) + n →
  length (devices w') = length (devices w) →
  (∀ i d, devices w !! i = Some d → ∃ d', devices w' !! i = Some d' ∧ forward k d d') → evolves k n w w'.
Proof using All.
  intros Hs Hg Hn Hl Hd. split; [done..|]. apply Forall2_same_length_lookup. split; [done|]. intros i d d' Hi Hi'.
  destruct (Hd i d Hi) as (d'' & Hi'' & ?). rewrite Hi' in Hi''. by injection Hi'' as <-.
Qed.

(** ** Turns *)

Definition idle (w : World) : Prop := ∀ i d, devices w !! i = Some d → requests d = [].
Definition room (w : World) : Prop := ∀ i d, devices w !! i = Some d → Device.commands_authored d + 1 < u32_mod.

Lemma turns_upto q w k :
  sound q w → idle w → room w →
  let w' := fold_left (λ w i, device_step i w) (seq 0 k) w in
  sound q w' ∧ framed w w' ∧
  ∀ i d, devices w !! i = Some d → ∃ d', devices w' !! i = Some d' ∧
    if (i <? k)%nat then forward 1 d d' ∧ asks σ d' else d' = d.
Proof using All.
  intros Hs Hidle Hroom. cbv zeta. induction k as [|k (IHs & IHf & IHd)].
  { split_and!; [done|done|]. intros i d Hi. exists d. split; [done|]. by destruct (Nat.ltb_spec i 0); [lia|]. }
  rewrite seq_S, fold_left_app. cbn [fold_left Nat.add]. set (w' := fold_left _ (seq 0 k) w) in *.
  pose proof (device_step_moves σ η (server w') k w' (proj1 (sound_world _ _ _ _ IHs))) as Hm.
  assert (Hk : ∀ d, devices w' !! k = Some d → devices w !! k = Some d).
  { intros d Hd. destruct (lookup_lt_is_Some_2 (devices w) k) as [d0 Hd0].
    { rewrite <- (framed_length _ _ IHf). by eapply lookup_lt_Some. }
    destruct (IHd k d0 Hd0) as (d' & Hd' & He). destruct (Nat.ltb_spec k k); [lia|]. subst d0. congruence. }
  split_and!.
  - refine (proj1 (sound_moves σ η _ 1 k q w' _ _ Hm _ IHs)); [done|]. intros d d' Hd Hok Hr. specialize (Hk d Hd).
    destruct (Hr Hok (Hidle k d Hk) (Hroom k d Hk)) as (? & ? & ? & ? & _). split; [by split_and!|by split].
  - etransitivity; [exact IHf|apply Hm].
  - intros i d Hi. destruct (IHd i d Hi) as (d' & Hd' & Hr). destruct (decide (i = k)) as [->|Hne].
    + destruct (Nat.ltb_spec k k); [lia|]. subst d'. destruct (moves_at _ _ _ _ Hm d Hd') as (d'' & Hd'' & Hr'). exists d''. split; [done|].
      destruct (Nat.ltb_spec k (S k)); [|lia].
      destruct Hr' as (_ & ? & _ & ? & ?); [by eapply sound_device|by eapply Hidle|by eapply Hroom|]. split; [by split|done].
    + exists d'. rewrite (moves_other _ _ _ _ Hm i Hne). split; [done|].
      destruct (Nat.ltb_spec i k), (Nat.ltb_spec i (S k)); done || lia.
Qed.

Lemma turns_sound q w :
  sound q w → idle w → room w →
  let w' := fold_left (λ w i, device_step i w) (seq 0 (length (devices w))) w in
  sound q w' ∧ evolves 1 0 w w' ∧ framed w w' ∧ ∀ i d, devices w' !! i = Some d → asks σ d.
Proof using All.
  intros Hs Hidle Hroom. cbv zeta. destruct (turns_upto q w (length (devices w)) Hs Hidle Hroom) as (Hs' & Hf & Hd).
  set (w' := fold_left _ _ w) in *.
  assert (Hd' : ∀ i d, devices w !! i = Some d → ∃ d', devices w' !! i = Some d' ∧ forward 1 d d' ∧ asks σ d').
  { intros i d Hi. destruct (Hd i d Hi) as (d' & ? & Hr). pose proof (lookup_lt_Some _ _ _ Hi).
    destruct (Nat.ltb_spec i (length (devices w))); [eauto|lia]. }
  split_and!; [done| |done|].
  - apply evolves_pointwise; [by apply framed_settings|by rewrite (framed_server _ _ Hf)|rewrite (framed_server _ _ Hf); lia|apply Hf|].
    intros i d Hi. destruct (Hd' i d Hi) as (d' & ? & ? & ?). eauto.
  - intros i d' Hi. destruct (lookup_lt_is_Some_2 (devices w) i) as [d Hdi].
    { rewrite <- (framed_length _ _ Hf). by eapply lookup_lt_Some. }
    destruct (Hd' i d Hdi) as (d'' & Hi' & _ & ?). rewrite Hi in Hi'. by injection Hi' as ->.
Qed.

(** ** The network *)

Definition queue (w : World) (i : nat) : list Batch.t := batches_for i (in_flight w ++ held w).

Lemma batches_none i l : Forall (λ f, InFlight.device f ≠ i) l → batches_for i l = [].
Proof. induction 1 as [|f l Hf _ IH]; [done|]. rewrite batches_for_cons, decide_False by done. done. Qed.
Lemma batches_other i j l : j ≠ i → Forall (λ f, InFlight.device f = i) l → batches_for j l = [].
Proof. intros Hne Hl. apply batches_none. eapply Forall_impl; [exact Hl|]. simpl. congruence. Qed.

Lemma queue_snocs s v bs new :
  server_ok σ η s → seqs_fit s → standing σ s v → queue_ok σ s (stored_cursor v σ) bs →
  Forall (answers σ η s (stored_cursor v σ)) new → queue_ok σ s (stored_cursor v σ) (bs ++ new).
Proof using All.
  intros Hs Hfit Hst. revert bs. induction new as [|b new IH]; intros bs Hq; [by rewrite app_nil_r|].
  intros [[_ Hb] Hnew]%Forall_cons. replace (bs ++ b :: new) with ((bs ++ [b]) ++ new) by by rewrite <- app_assoc.
  apply IH; [|done]. destruct Hb as [[budget ->]|Hb].
  - eapply queue_snoc; [apply _|apply Hs|done|apply Hs|done| |done|done|by left]. unfold PULL_LIMIT. lia.
  - eapply (queue_snoc σ s v bs b 1 0%N); [apply Hs|done|apply Hs|done|lia|done|done|by right].
Qed.

(** What carrying requests of device [i] leaves. *)
Definition keeps (d d' : Device.t) : Prop :=
  stored d' = stored d ∧ Device.commands_authored d' = Device.commands_authored d ∧
  (requests d' = requests d ∨ requests d' = []).
Record carries (i : nat) (n : Z) (w w' : World) : Prop := MkCarries {
  carries_settings : settings w w';
  carries_served : served σ η n (server w) (server w');
  carries_length : length (devices w') = length (devices w);
  carries_at : ∀ d, devices w !! i = Some d → ∃ d', devices w' !! i = Some d' ∧ keeps d d';
  carries_other : ∀ j, j ≠ i → devices w' !! j = devices w !! j ∧ batches_for j (held w') = batches_for j (held w);
  carries_flights : ∃ new, in_flight w' = in_flight w ++ new ∧ Forall (next_step w) new;
}.

Lemma device_keeps_trans a b c : keeps a b → keeps b c → keeps a c.
Proof. intros (? & ? & Hr) (? & ? & Hr'). split_and!; [congruence..|]. destruct Hr' as [->| ->]; auto. Qed.

Lemma next_step_settings w w' : settings w w' → next_step w' = next_step w.
Proof. intros (_ & _ & _ & Hn & _). unfold next_step. by rewrite Hn. Qed.

Lemma carries_trans i m n x y z : carries i m x y → carries i n y z → carries i (m + n) x z.
Proof.
  intros [Hs Hv Hl Ha Ho (new & Hf & Ht)] [Hs' Hv' Hl' Ha' Ho' (new' & Hf' & Ht')]. split.
  - by etransitivity.
  - by eapply served_trans.
  - congruence.
  - intros d Hd. destruct (Ha d Hd) as (d' & Hd' & ?). destruct (Ha' d' Hd') as (d'' & ? & ?). eauto using device_keeps_trans.
  - intros j Hj. destruct (Ho j Hj), (Ho' j Hj). split; congruence.
  - exists (new ++ new'). rewrite Hf', Hf, <- app_assoc. split; [done|]. rewrite (next_step_settings _ _ Hs) in Ht'. by apply Forall_app.
Qed.

Lemma carry_one i d w out :
  sound (queue w) w → devices w !! i = Some d → batches_for i (held w) = [] →
  asked σ (stored_cursor (stored d) σ) out.2 → next_seq (server w) + 256 ≤ SEQ_MAX + 1 →
  let w' := carry_request i w out in
  sound (queue w') w' ∧ carries i 256 w w' ∧ ((∃ p, out.2 = Push p) → batches_for i (held w') = []).
Proof using All.
  intros Hs Hd Hheld Hask Hroom. cbv zeta. pose proof (sound_device _ _ _ _ Hs i d Hd) as [_ _ _ Hst _].
  pose proof (sound_server _ _ _ _ Hs) as Hok.
  destruct (carry_request_hauled Henc σ η i d (stored_cursor (stored d) σ) w out) as (new & kept & Hh);
    [done|by eapply sound_rates|done|unfold seqs_fit; lia|apply Hst|apply Hst|done|].
  set (w' := carry_request i w out) in *. destruct Hh as [Hset Hv [n Hdev] [Hfl Hhd] Htime Howner Hans].
  assert (Hmid : sound (queue w) w').
  { eapply (sound_step σ η 256); [exact Hset|exact Hv|by rewrite Hdev, length_alter| |exact Hs].
    intros j dj Hj. rewrite Hdev. destruct (decide (j = i)) as [->|Hne].
    - rewrite list_lookup_alter_eq, Hj. eexists. split; [done|].
      destruct (calm_requests σ η (server w) i n dj) as (? & ? & ? & _); [by eapply sound_device|]. done.
    - rewrite list_lookup_alter_ne by done. exists dj. split; [done|]. split_and!; [by eapply sound_device|done|done]. }
  assert (Hother : ∀ j, j ≠ i → batches_for j (new ++ kept) = []) by (intros j Hj; by eapply batches_other).
  assert (Hqi : queue w' i = queue w i ++ batches_for i (new ++ kept)).
  { unfold queue. rewrite Hfl, Hhd, !batches_for_app, Hheld. cbn. by rewrite app_nil_r, <- app_assoc. }
  assert (Hqj : ∀ j, j ≠ i → queue w' j = queue w j).
  { intros j Hj. specialize (Hother j Hj). rewrite batches_for_app in Hother. apply app_nil in Hother as [Ho1 Ho2].
    unfold queue. by rewrite Hfl, Hhd, !batches_for_app, Ho1, Ho2, !app_nil_r. }
  assert (Hrep : Forall (answers σ η (server w') (stored_cursor (stored d) σ)) (batches_for i (new ++ kept))).
  { eapply Forall_impl; [exact Hans|]. intros b. by destruct (out.2). }
  split_and!.
  - destruct Hmid as [Hw Hr Hs' Hd' Hq' Ho']. split; [done..| |].
    + intros j dj Hj. destruct (decide (j = i)) as [->|Hne]; [|rewrite Hqj by done; by apply Hq'].
      rewrite Hqi. assert (stored dj = stored d) as Heq.
      { rewrite Hdev, list_lookup_alter_eq, Hd in Hj. by injection Hj as <-. }
      apply queue_snocs; [done| |apply (Hd' i dj Hj)|by apply Hq'|by rewrite Heq]. unfold seqs_fit. destruct Hv as (_ & _ & ?). lia.
    + intros j. destruct (decide (j = i)) as [->|Hne]; [|by rewrite Hqj].
      rewrite Hqi. apply Forall_app. split; [by apply Ho'|]. eapply Forall_impl; [exact Hrep|]. by intros b [? _].
  - split; [done|done|by rewrite Hdev, length_alter| | |by exists new].
    + intros d' Hd'. rewrite Hdev, list_lookup_alter_eq, Hd'. eexists. split; [done|]. split_and!; [done..|by left].
    + intros j Hj. specialize (Hother j Hj). rewrite batches_for_app in Hother. apply app_nil in Hother as [_ Ho2].
      split; [by rewrite Hdev, list_lookup_alter_ne|by rewrite Hhd, batches_for_app, Ho2, app_nil_r].
  - intros [p Hp]. rewrite Hhd, batches_for_app, Hheld. cbn. rewrite Hp in Hans.
    rewrite batches_for_app in Hans. apply Forall_app in Hans as [_ Hans]. by destruct (batches_for i kept); [|apply Forall_cons in Hans as [[] _]].
Qed.

(** Nothing of [i] is asked. *)
Lemma carries_refl i n w : 0 ≤ n → server_ok σ η (server w) → carries i n w w.
Proof using All.
  intros Hn Hs. split; [done|by apply served_refl|done| |done|exists []; by rewrite app_nil_r].
  intros d Hd. exists d. split; [done|]. split_and!; [done..|by left].
Qed.

Lemma carry_requests i d w outs :
  sound (queue w) w → devices w !! i = Some d → batches_for i (held w) = [] →
  (∃ ps qs, outs.*2 = ps ++ qs ∧
    (ps = [] ∨ ∃ req, ps = [Push req] ∧ (length (PushRequest.commands req) ≤ COMMANDS_MAX_COUNT)%nat) ∧
    (qs = [] ∨ qs = [pull_of σ d])) →
  next_seq (server w) + 512 ≤ SEQ_MAX + 1 →
  let w' := fold_left (carry_request i) outs w in sound (queue w') w' ∧ carries i 512 w w'.
Proof using All.
  intros Hs Hd Hheld (ps & qs & Houts & Hps & Hqs) Hroom. cbv zeta. apply fmap_app_inv in Houts as (l1 & l2 & -> & -> & ->).
  rewrite fold_left_app. set (w1 := fold_left _ l1 w). pose proof (sound_server _ _ _ _ Hs) as Hok.
  assert (sound (queue w1) w1 ∧ carries i 256 w w1 ∧ batches_for i (held w1) = []) as (Hs1 & Hc1 & Hheld1).
  { unfold w1. destruct Hps as [->%fmap_nil_inv|(req & Hp & Hlen)]; [split_and!; [done|by apply carries_refl|done]|].
    destruct l1 as [|out [|? ?]]; [done| |done]. injection Hp as Hp. cbn [fold_left].
    destruct (carry_one i d w out) as (? & ? & ?); [done|done|done|left; by exists req|lia|]. split_and!; [done..|eauto]. }
  destruct Hqs as [->%fmap_nil_inv|Hq].
  { split; [done|]. change 512 with (256 + 256). eapply carries_trans; [exact Hc1|]. apply carries_refl; [done|]. apply Hc1. }
  destruct l2 as [|out [|? ?]]; [done| |done]. injection Hq as Hq. cbn [fold_left].
  destruct (carries_at _ _ _ _ Hc1 d Hd) as (d1 & Hd1 & Hv1 & _).
  destruct (carry_one i d1 w1 out) as (? & ? & _); [done|done|done|right; rewrite Hq, Hv1; done| |].
  { destruct (carries_served _ _ _ _ Hc1) as (_ & _ & ?). lia. }
  split; [done|]. change 512 with (256 + 256). by eapply carries_trans.
Qed.

Lemma carry_device_sound i d w :
  sound (queue w) w → devices w !! i = Some d → batches_for i (held w) = [] → asks σ d →
  next_seq (server w) + 512 ≤ SEQ_MAX + 1 →
  let w' := carry_device w i in
  sound (queue w') w' ∧ carries i 512 w w' ∧ ∀ d', devices w' !! i = Some d' → requests d' = [].
Proof using All.
  intros Hs Hd Hheld Hask Hroom. cbv zeta. unfold carry_device. rewrite Hd. unfold SimTransport.drain.
  set (t := SimTransport.mk [] _ _). set (outs := SimTransport.pending _). set (w1 := on_device i _ w).
  set (d1 := Device.with_transport (λ _, t) d). assert (devices w1 !! i = Some d1) as Hd1 by (cbn; by rewrite list_lookup_alter_eq, Hd).
  assert (Hm : moves (λ a b, b = Device.with_transport (λ _, t) a) i w w1) by by apply on_device_moves.
  destruct (sound_moves σ η _ 0 i (queue w) w w1 (Z.le_refl 0) Hm) as [Hs1 _]; [|exact Hs|].
  { intros a b _ Hok ->. destruct (calm_transport σ η (server w) i (λ _, t) a Hok) as (? & ? & ? & ?).
    split; [by split_and!|]. split; [done|cbn; lia]. }
  assert (carries i 0 w w1) as Hc1.
  { pose proof (moves_frame _ _ _ _ Hm) as Hf. split.
    - by apply framed_settings.
    - apply served_refl; [done|]. apply (sound_server _ _ _ _ Hs).
    - apply Hf.
    - intros a Ha. destruct (moves_at _ _ _ _ Hm a Ha) as (b & Hb & ->). eexists. split; [exact Hb|]. split_and!; [done..|by right].
    - intros j Hj. split; [by apply Hm|done].
    - exists []. by rewrite app_nil_r. }
  destruct (carry_requests i d1 w1 outs) as [Hs2 Hc2]; [exact Hs1|done|done|exact Hask|done|].
  split_and!; [done|change 512 with (0 + 512); by eapply carries_trans|].
  intros d' Hd'. destruct (carries_at _ _ _ _ Hc2 d1 Hd1) as (d'' & Hd'' & _ & _ & Hr). rewrite Hd' in Hd''. injection Hd'' as <-.
  by destruct Hr as [->|].
Qed.

Record networked (w0 : World) (k : nat) (w : World) : Prop := MkNetworked {
  net_sound : sound (queue w) w;
  net_settings : settings w0 w;
  net_served : served σ η (512 * Z.of_nat k) (server w0) (server w);
  net_length : length (devices w) = length (devices w0);
  net_devices i d : devices w0 !! i = Some d → ∃ d', devices w !! i = Some d' ∧
    if (i <? k)%nat then keeps d d' ∧ requests d' = [] else d' = d;
  net_held j : (k ≤ j)%nat → batches_for j (held w) = [];
  net_flights : ∃ new, in_flight w = in_flight w0 ++ new ∧ Forall (next_step w0) new;
}.

Lemma networked_upto w0 k :
  sound (queue w0) w0 → held w0 = [] → (∀ i d, devices w0 !! i = Some d → asks σ d) →
  (k ≤ length (devices w0))%nat → next_seq (server w0) + 512 * Z.of_nat (length (devices w0)) ≤ SEQ_MAX + 1 →
  networked w0 k (fold_left carry_device (seq 0 k) w0).
Proof using All.
  intros Hs Hheld Hask Hk Hroom. induction k as [|k IH].
  { split; [done|done|apply served_refl; [done|apply (sound_server _ _ _ _ Hs)]|done| |intros j _; cbn; by rewrite Hheld|exists []; by rewrite app_nil_r].
    intros i d Hi. exists d. by destruct (Nat.ltb_spec i 0); [lia|]. }
  rewrite seq_S, fold_left_app. cbn [fold_left Nat.add]. destruct IH as [IHs IHset IHv IHl IHd IHh (new & IHf & IHt)]; [lia|].
  set (w := fold_left carry_device (seq 0 k) w0) in *.
  destruct (lookup_lt_is_Some_2 (devices w0) k) as [d Hd]; [lia|].
  destruct (IHd k d Hd) as (d' & Hd' & He). destruct (Nat.ltb_spec k k); [lia|]. subst d'.
  destruct (carry_device_sound k d w) as (Hs' & Hc & Hidle); [done|done|by apply IHh|by eapply Hask| |].
  { destruct IHv as (_ & _ & ?). lia. }
  destruct Hc as [Hset Hv Hl Hat Ho (new' & Hf & Ht)]. set (w' := carry_device w k) in *. split.
  - done.
  - by etransitivity.
  - replace (512 * Z.of_nat (S k)) with (512 * Z.of_nat k + 512) by lia. by eapply served_trans.
  - congruence.
  - intros i di Hi. destruct (IHd i di Hi) as (d1 & Hd1 & Hr). destruct (decide (i = k)) as [->|Hne].
    + destruct (Nat.ltb_spec k k); [lia|]. subst d1. destruct (Hat di Hd1) as (d2 & Hd2 & Hkeep). exists d2. split; [done|].
      destruct (Nat.ltb_spec k (S k)); [|lia]. split; [done|]. by apply Hidle.
    + exists d1. rewrite (proj1 (Ho i Hne)). split; [done|]. destruct (Nat.ltb_spec i k), (Nat.ltb_spec i (S k)); done || lia.
  - intros j Hj. rewrite (proj2 (Ho j ltac:(lia))). apply IHh. lia.
  - exists (new ++ new'). rewrite Hf, IHf, <- app_assoc. split; [done|]. rewrite (next_step_settings _ _ IHset) in Ht. by apply Forall_app.
Qed.

(** ** Held responses *)

Definition step_after (w : World) (f : InFlight.t) : Prop :=
  now_ms w + STEP_MS < InFlight.deliver_at_ms f ≤ now_ms w + 2 * STEP_MS.

Lemma release_one h w :
  let w' := release w h in
  settings w w' ∧ server w' = server w ∧ devices w' = devices w ∧ held w' = held w ∧
  ∃ f, in_flight w' = in_flight w ++ [f] ∧ step_after w f ∧ InFlight.device f = InFlight.device h ∧ InFlight.response f = InFlight.response h.
Proof using All.
  unfold release. destruct (draw_range_nets 1 900 w) as (Hn & Hs & Hmore). destruct (draw_range 1 900 w) as [w1 more]. cbn [fst snd] in *.
  destruct Hn as (?&?&?&Hnow&?&?&?&Hd&Hf&Hh). split; [by unfold settings; split_and!|]. split_and!; [done..|].
  eexists. cbn. rewrite Hf. split; [done|]. split; [|done]. unfold step_after. cbn. rewrite Hnow. clear -Hmore. unfold STEP_MS. lia.
Qed.

Lemma step_after_settings w w' : settings w w' → step_after w' = step_after w.
Proof. intros (_ & _ & _ & Hn & _). unfold step_after. by rewrite Hn. Qed.

Lemma release_all hs w :
  let w' := fold_left release hs w in
  settings w w' ∧ server w' = server w ∧ devices w' = devices w ∧ held w' = held w ∧
  ∃ late, in_flight w' = in_flight w ++ late ∧ Forall (step_after w) late ∧ ∀ i, batches_for i late = batches_for i hs.
Proof using All.
  revert w. induction hs as [|h hs IH]; intros w; cbv zeta; [|rewrite fold_left_step].
  { do 4 (split; [reflexivity|]). exists []. by rewrite app_nil_r. }
  destruct (release_one h w) as (Hset & Hs & Hd & Hh & f & Hf & Ht & Hi & Hr).
  destruct (IH (release w h)) as (Hset' & Hs' & Hd' & Hh' & late & Hf' & Ht' & Hb'). rewrite (step_after_settings _ _ Hset) in Ht'.
  split; [by etransitivity|]. split; [congruence|]. split; [congruence|]. split; [congruence|]. exists (f :: late). split; [by rewrite Hf', Hf, <- app_assoc|]. split; [by constructor|].
  intros i. rewrite !batches_for_cons, Hb', Hi. unfold carried. by rewrite Hr.
Qed.

Lemma carry_network_sound w :
  sound (queue w) w → held w = [] → (∀ i d, devices w !! i = Some d → asks σ d) →
  next_seq (server w) + 512 * Z.of_nat (length (devices w)) ≤ SEQ_MAX + 1 →
  let w' := carry_network w in
  sound (λ i, batches_for i (in_flight w')) w' ∧ evolves 0 (512 * Z.of_nat (length (devices w))) w w' ∧ idle w' ∧ held w' = [] ∧
  ∃ soon late, in_flight w' = in_flight w ++ soon ++ late ∧ Forall (next_step w) soon ∧ Forall (step_after w) late.
Proof using All.
  intros Hs Hheld Hask Hroom. cbv zeta. unfold carry_network.
  pose proof (networked_upto w (length (devices w)) Hs Hheld Hask (le_n _) Hroom) as [Hs1 Hset1 Hv1 Hl1 Hd1 _ (soon & Hf1 & Ht1)].
  set (w1 := fold_left carry_device _ w) in *.
  destruct (release_all (held w1) (set_held (λ _, []) w1)) as (Hset2 & Hs2 & Hd2 & Hh2 & late & Hf2 & Ht2 & Hb2).
  set (w2 := fold_left release _ _) in *. cbn in Hs2, Hd2, Hh2, Hf2.
  assert (settings w1 w2) as Hset by (etransitivity; [|exact Hset2]; unfold settings; by split_and!).
  assert (Hdev : ∀ i d, devices w !! i = Some d → ∃ d', devices w2 !! i = Some d' ∧ keeps d d' ∧ requests d' = []).
  { intros i d Hi. rewrite Hd2. destruct (Hd1 i d Hi) as (d' & ? & Hr). pose proof (lookup_lt_Some _ _ _ Hi).
    destruct (Nat.ltb_spec i (length (devices w))); [|lia]. eauto. }
  split_and!.
  - eapply sound_queues; [|eapply (sound_stays _ _ _ w1); [exact Hset|exact Hs2|exact Hd2|exact Hs1]].
    intros i. rewrite Hf2, batches_for_app, Hb2. unfold queue. by rewrite batches_for_app.
  - apply evolves_pointwise.
    + by etransitivity.
    + rewrite Hs2. apply Hv1.
    + rewrite Hs2. apply Hv1.
    + by rewrite Hd2.
    + intros i d Hi. destruct (Hdev i d Hi) as (d' & ? & (Hst & Hn & _) & _). exists d'. split; [done|]. split; [by rewrite Hst|lia].
  - intros i d' Hi. destruct (lookup_lt_is_Some_2 (devices w) i) as [d Hdi].
    { rewrite <- Hl1, <- Hd2. by eapply lookup_lt_Some. }
    destruct (Hdev i d Hdi) as (d'' & Hi' & _ & ?). rewrite Hi in Hi'. by injection Hi' as ->.
  - done.
  - exists soon, late. rewrite Hf2, Hf1, <- app_assoc. split; [done|]. split; [done|].
    unfold step_after in *. cbn in Ht2. destruct Hset1 as (_ & _ & _ & Hn & _). by rewrite Hn in Ht2.
Qed.

(** ** Deliveries *)

Record delivers (w w' : World) : Prop := MkDelivers {
  delivers_evolves : evolves 0 0 w w';
  delivers_frame : framed w w';
  delivers_idle : idle w → idle w';
}.
#[local] Instance delivers_trans : Transitive delivers.
Proof. intros x y z [] []. split; [by eapply (evolves_trans σ 0 0 0 0)|by etransitivity|auto]. Qed.

Lemma moves_delivers (R : Device.t → Device.t → Prop) i w w' :
  moves R i w w' →
  (∀ d d', devices w !! i = Some d → R d d' → forward 0 d d' ∧ (requests d = [] → requests d' = [])) → delivers w w'.
Proof using All.
  intros Hm HR. pose proof (moves_frame _ _ _ _ Hm) as Hf.
  assert (Hat : ∀ j d, devices w !! j = Some d → ∃ d', devices w' !! j = Some d' ∧ forward 0 d d' ∧ (requests d = [] → requests d' = [])).
  { intros j d Hj. destruct (decide (j = i)) as [->|Hne].
    - destruct (moves_at _ _ _ _ Hm d Hj) as (d' & ? & Hr). exists d'. split; [done|by apply HR].
    - exists d. rewrite (moves_other _ _ _ _ Hm j Hne). split; [done|]. split; [by apply forward_refl|done]. }
  split; [|done|].
  - apply evolves_pointwise; [by apply framed_settings|by rewrite (framed_server _ _ Hf)|rewrite (framed_server _ _ Hf); lia|apply Hf|].
    intros j d Hj. destruct (Hat j d Hj) as (d' & ? & ? & _). eauto.
  - intros Hidle j d' Hj'. destruct (lookup_lt_is_Some_2 (devices w) j) as [d Hj].
    { rewrite <- (framed_length _ _ Hf). by eapply lookup_lt_Some. }
    destruct (Hat j d Hj) as (d'' & Hd'' & _ & Hr). rewrite Hj' in Hd''. injection Hd'' as <-. apply Hr. by eapply Hidle.
Qed.

(** A silent move of one device. *)
Lemma silent_delivers i q w w' :
  sound q w → room w → moves (silent σ η 0 (server w) i) i w w' → sound q w' ∧ delivers w w'.
Proof using All.
  intros Hs Hroom Hm.
  assert (HR : ∀ d d', devices w !! i = Some d → silent σ η 0 (server w) i d d' →
    stays_put σ η (server w) i d d' ∧ forward 0 d d' ∧ (requests d = [] → requests d' = [])).
  { intros d d' Hd [Ha Hr]. destruct Ha as (? & ? & ? & ?); [by eapply sound_device|specialize (Hroom i d Hd); lia|].
    split; [by split_and!|]. split; [by split|]. destruct Hr as [->| ->]; auto. }
  split.
  - refine (proj1 (sound_moves σ η _ 0 i q w w' (Z.le_refl 0) Hm _ Hs)). intros d d' Hd _ Hr. destruct (HR d d' Hd Hr) as (? & ? & _). done.
  - eapply moves_delivers; [exact Hm|]. intros d d' Hd Hr. by apply HR.
Qed.

Lemma delivers_room w w' : delivers w w' → room w → room w'.
Proof.
  intros [[_ _ _ Hd] _ _] Hroom i d' Hi'. destruct (Forall2_lookup_r _ _ _ _ _ Hd Hi') as (d & Hi & _ & Hn). specialize (Hroom i d Hi). lia.
Qed.

(** Taking the batch at the front of a device's queue. *)
Definition dequeued (q : nat → list Batch.t) (i : nat) (bs : list Batch.t) : nat → list Batch.t :=
  λ j, if decide (j = i) then bs else q j.

Lemma sound_take q i b bs w w' :
  sound q w → q i = b :: bs →
  moves (λ d d', d' = Device.set_engine (apply_batch b (Device.engine d)).1 d) i w w' →
  sound (dequeued q i bs) w' ∧ delivers w w'.
Proof using All.
  intros Hs Hq Hm. pose proof (sound_owned _ _ _ _ Hs i) as Ho. rewrite Hq in Ho. apply Forall_cons in Ho as [Hob Hobs].
  assert (Htake : ∀ d d', devices w !! i = Some d → d' = Device.set_engine (apply_batch b (Device.engine d)).1 d →
    device_ok σ η (server w) i d' ∧ later_look σ (stored d) (stored d') ∧
    queue_ok σ (server w) (stored_cursor (stored d') σ) bs ∧ requests d' = requests d ∧
    Device.commands_authored d' = Device.commands_authored d).
  { intros d d' Hd ->. pose proof (apply_batch_transport b (Device.engine d)) as Ht.
    destruct (apply_batch b (Device.engine d)) as [en' r] eqn:He. cbn [fst] in *.
    destruct (take_batch_ok σ η (server w) i d b bs en' r) as (? & ? & ?);
      [apply (sound_server _ _ _ _ Hs)|by eapply sound_device| |done|done|].
    { rewrite <- Hq. by eapply sound_queue. }
    split_and!; [done..|unfold requests; cbn; by rewrite Ht|done]. }
  pose proof (moves_frame _ _ _ _ Hm) as Hf. split.
  2:{ eapply moves_delivers; [exact Hm|]. intros d d' Hd Hr. destruct (Htake d d' Hd Hr) as (_ & ? & _ & -> & Hn). split; [|done]. split; [done|lia]. }
  assert (Hback : ∀ j d', devices w' !! j = Some d' → ∃ d, devices w !! j = Some d ∧
    if decide (j = i) then d' = Device.set_engine (apply_batch b (Device.engine d)).1 d else d' = d).
  { intros j d' Hj'. destruct (lookup_lt_is_Some_2 (devices w) j) as [d Hj].
    { rewrite <- (framed_length _ _ Hf). by eapply lookup_lt_Some. }
    exists d. split; [done|]. case_decide as Hji.
    - subst j. destruct (moves_at _ _ _ _ Hm d Hj) as (d'' & Hj'' & ?). congruence.
    - rewrite (moves_other _ _ _ _ Hm j Hji) in Hj'. congruence. }
  destruct Hs as [[[Hw1 Hw2] Hw3] Hr Hsv Hd Hqu Hown]. split.
  - split; [split|]; destruct Hf; congruence.
  - by rewrite (framed_rates _ _ Hf).
  - by rewrite (framed_server _ _ Hf).
  - intros j d' Hj'. rewrite (framed_server _ _ Hf). destruct (Hback j d' Hj') as (d & Hj & He). case_decide; [subst j|subst d'; by apply Hd].
    by apply (Htake d d' Hj He).
  - intros j d' Hj'. rewrite (framed_server _ _ Hf). destruct (Hback j d' Hj') as (d & Hj & He). unfold dequeued.
    case_decide; [subst j|subst d'; by apply Hqu]. by apply (Htake d d' Hj He).
  - intros j. unfold dequeued. case_decide; [done|apply Hown].
Qed.

Lemma event_sound q i what w : sound q w → sound q (event i what w) ∧ delivers w (event i what w).
Proof using All.
  intros Hs. split; [by eapply (sound_stays σ η q w)|]. split; [by apply evolves_stays|done|done].
Qed.

Lemma call_moves {A E} i (m : step SimEngine A E) w :
  moves (λ d d', d' = Device.set_engine (m (Device.engine d)).1 d) i w (engine_call i m w).1.
Proof.
  unfold engine_call. destruct (devices w !! i) as [d|] eqn:Hd.
  - destruct (m (Device.engine d)) as [e r] eqn:He. cbn [fst]. apply on_device_moves. intros d' Hd'.
    rewrite Hd in Hd'. injection Hd' as <-. by rewrite He.
  - split; [done|done|]. cbn. rewrite Hd. done.
Qed.

Lemma deliver_batch_sound q i b bs w :
  sound q w → room w → q i = b :: bs →
  let w' := deliver_batch i w b in sound (dequeued q i bs) w' ∧ delivers w w'.
Proof using All.
  intros Hs Hroom Hq. cbv zeta. unfold deliver_batch.
  destruct (silent_delivers i q w (arm_storage i w) Hs Hroom (arm_moves σ η (server w) i w)) as [Hs1 Hd1].
  set (w1 := arm_storage i w) in *. pose proof (call_moves i (apply_batch b) w1) as Hm.
  destruct (engine_call i (apply_batch b) w1) as [w2 r]. cbn [fst] in Hm.
  destruct (sound_take q i b bs w1 w2 Hs1 Hq Hm) as [Hs2 Hd2].
  set (what := match r with Some (Ok _) => _ | _ => _ end). destruct (event_sound _ i what w2 Hs2) as [Hs3 Hd3].
  set (w3 := event i what w2) in *. assert (delivers w w3) as Hd by (etransitivity; [exact Hd1|by etransitivity]).
  destruct (silent_delivers i (dequeued q i bs) w3 (maybe_kill i w3) Hs3) as [Hs4 Hd4].
  - by eapply delivers_room.
  - apply maybe_kill_moves, (sound_world _ _ _ _ Hs3).
  - split; [done|by etransitivity].
Qed.

Lemma deliver_batches q i bs rest w :
  sound q w → room w → q i = bs ++ rest →
  let w' := fold_left (deliver_batch i) bs w in sound (dequeued q i rest) w' ∧ delivers w w'.
Proof using All.
  revert q w. induction bs as [|b bs IH]; intros q w Hs Hroom Hq; cbv zeta; [|rewrite fold_left_step].
  { split; [|split; [by apply evolves_refl|done|done]]. eapply sound_queues; [|exact Hs]. intros j. unfold dequeued. by case_decide; [subst j|]. }
  destruct (deliver_batch_sound q i b (bs ++ rest) w Hs Hroom Hq) as [Hs1 Hd1].
  destruct (IH (dequeued q i (bs ++ rest)) (deliver_batch i w b) Hs1) as [Hs2 Hd2].
  - by eapply delivers_room.
  - unfold dequeued. by rewrite decide_True.
  - split; [|by etransitivity]. eapply sound_queues; [|exact Hs2]. intros j. unfold dequeued. by case_decide.
Qed.

Lemma deliver_sound q f rest w :
  sound q w → room w → q (InFlight.device f) = carried f ++ rest →
  let w' := deliver w f in sound (dequeued q (InFlight.device f) rest) w' ∧ delivers w w'.
Proof using All.
  intros Hs Hroom Hq. cbv zeta. unfold deliver. set (i := InFlight.device f) in *.
  assert (Hnone : carried f = [] → sound (dequeued q i rest) w).
  { intros Hn. rewrite Hn in Hq. eapply sound_queues; [|exact Hs]. intros j. unfold dequeued. by case_decide; [subst j|]. }
  unfold carried in *. destruct (InFlight.response f) as [[|response|response|]|e]; try (by apply event_sound, Hnone).
  - by apply deliver_batches.
  - specialize (Hnone eq_refl). set (q' := dequeued q i rest) in *.
    destruct (silent_delivers i q' w (arm_storage i w) Hnone Hroom (arm_moves σ η (server w) i w)) as [Hs1 Hd1].
    set (w1 := arm_storage i w) in *. pose proof (call_moves i (apply_results response) w1) as Hm.
    destruct (engine_call i (apply_results response) w1) as [w2 r]. cbn [fst] in Hm.
    destruct (silent_delivers i q' w1 w2 Hs1) as [Hs2 Hd2]; [by eapply delivers_room| |].
    { eapply moves_weaken; [|exact Hm]. intros d d' ->. pose proof (apply_results_transport response (Device.engine d)) as Ht.
      destruct (apply_results response (Device.engine d)) as [en r'] eqn:He. cbn [fst] in *.
      apply calm_silent; [by eapply apply_results_calm|]. unfold requests. cbn. by rewrite Ht. }
    set (what := match r with Some (Ok _) => _ | _ => _ end). destruct (event_sound _ i what w2 Hs2) as [Hs3 Hd3].
    set (w3 := event i what w2) in *. assert (delivers w w3) as Hd by (etransitivity; [exact Hd1|by etransitivity]).
    destruct (silent_delivers i q' w3 (maybe_kill i w3) Hs3) as [Hs4 Hd4].
    + by eapply delivers_room.
    + apply maybe_kill_moves, (sound_world _ _ _ _ Hs3).
    + split; [done|by etransitivity].
Qed.

Lemma deliver_all due rest w :
  sound (λ i, batches_for i (due ++ rest)) w → room w →
  let w' := fold_left deliver due w in sound (λ i, batches_for i rest) w' ∧ delivers w w'.
Proof using All.
  revert w. induction due as [|f due IH]; intros w Hs Hroom; cbv zeta; [|rewrite fold_left_step].
  { split; [done|]. split; [by apply evolves_refl|done|done]. }
  destruct (deliver_sound _ f (batches_for (InFlight.device f) (due ++ rest)) w Hs Hroom) as [Hs1 Hd1].
  { cbn [app]. rewrite batches_for_cons. by rewrite decide_True. }
  destruct (IH (deliver w f)) as [Hs2 Hd2].
  - eapply sound_queues; [|exact Hs1]. intros j. unfold dequeued. case_decide; [by subst j|].
    cbn [app]. rewrite batches_for_cons. by rewrite decide_False by done.
  - by eapply delivers_room.
  - split; [done|by etransitivity].
Qed.

Lemma deliver_due_sound w due waiting :
  sound (λ i, batches_for i (in_flight w)) w → room w → idle w → in_flight w = due ++ waiting →
  Forall (λ f, InFlight.deliver_at_ms f ≤ now_ms w) due → Forall (λ f, ¬ InFlight.deliver_at_ms f ≤ now_ms w) waiting →
  let w' := deliver_due w in
  sound (λ i, batches_for i (in_flight w')) w' ∧ in_flight w' = waiting ∧ held w' = held w ∧ evolves 0 0 w w' ∧ idle w'.
Proof using All.
  intros Hs Hroom Hidle Hf Hdue Hwait. cbv zeta. unfold deliver_due. rewrite Hf, !filter_app.
  rewrite (filter_all _ due) by done. rewrite (filter_none _ waiting) by done.
  rewrite (filter_none _ due) by (eapply Forall_impl; [exact Hdue|]; simpl; lia). rewrite (filter_all _ waiting) by done.
  rewrite app_nil_r. cbn [app]. set (w1 := set_in_flight (λ _, waiting) w).
  destruct (deliver_all due waiting w1) as [Hs2 [Hev2 Hfr2 Hidle2]].
  - rewrite Hf in Hs. eapply (sound_stays σ η _ w); [unfold settings; by split_and!|done|done|done].
  - exact Hroom.
  - pose proof (framed_in_flight _ _ Hfr2) as Hfl. cbn in Hfl. set (w2 := fold_left deliver due w1) in *. rewrite Hfl.
    split_and!; [done|done|by rewrite (framed_held _ _ Hfr2)| |by apply Hidle2].
    eapply (evolves_trans σ 0 0 0 0); [|exact Hev2]. apply evolves_stays; [done|done|unfold settings; by split_and!|done|done].
Qed.
End phases.
