(* ===== verification/WorldClean.v ===== *)
(** * WorldClean: a step of a sound world finds nothing to complain about. *)

From S2P Require Import Prelude Errors Nums Ids Json Wire Integrity Core Registry Migrate Outbox.
From S2P Require Import Storage SimStorage Apply Engine EngineFacts EngineSteps Place Ledger.
From S2P Require Import Server Rng FaultMenu Pressure SimServer SimServerFacts SimReads SimFeed.
From S2P Require Import Invariants InvariantFacts Trace World Deliveries WorldDevices WorldServer WorldSteps.
From S2P Require Import WorldCarry WorldSound WorldPhases.
From stdpp Require Import options.

(** ** What the checkers see of a device *)

Lemma stored_view d : stored d = db_view (Device.db d).
Proof. done. Qed.

Lemma queued_ids_view db id : id ∈ queued_ids db ↔ id ∈ queue_ids (db_view db).
Proof.
  unfold queued_ids, queue_ids. rewrite elem_of_list_to_set. cbn. rewrite <- list_fmap_compose.
  rewrite !list_elem_of_fmap. split; intros ([c v] & ? & ?); by exists (c, v).
Qed.
Lemma resolved_ids_view db id : id ∈ resolved_ids db ↔ id ∈ answered_ids (db_view db).
Proof. unfold resolved_ids. by rewrite elem_of_list_to_set. Qed.

Lemma verdicts_grow db db' more :
  NoDup (Db.resolved db').*1 → Db.resolved db' = Db.resolved db ++ more → verdicts db ⊆ verdicts db'.
Proof.
  intros Hnd Heq. unfold verdicts. rewrite Heq in *. clear Heq. rewrite fold_left_app. rewrite fmap_app in Hnd.
  set (m := fold_left _ (Db.resolved db) ∅).
  assert (∀ id, id ∈ more.*1 → m !! id = None) as Hfresh.
  { intros id Hid. apply NoDup_app in Hnd as (_ & Hnd & _). destruct (m !! id) eqn:Hm; [|done]. exfalso.
    apply (Hnd id); [|done]. assert (id ∈ dom (verdicts db)) as Hin by (apply elem_of_dom; eauto).
    apply verdicts_dom in Hin. unfold resolved_ids in Hin. by apply elem_of_list_to_set in Hin. }
  apply NoDup_app in Hnd as (_ & _ & Hnd). clearbody m. clear db. revert m Hfresh.
  induction more as [|[id r] more IH]; intros m Hfresh; [done|]. cbn [fold_left fst snd]. cbn in Hnd. apply NoDup_cons in Hnd as [Hni Hnd].
  transitivity (<[id := Verdict.of_resolution r]> m).
  - apply insert_subseteq. apply Hfresh. by left.
  - apply IH; [done|]. intros id' Hid'. rewrite lookup_insert_ne; [apply Hfresh; by right|]. by intros ->.
Qed.

Section clean.
Context `{Hashes} `{Codec}.
Variables (σ : ScopeId.t) (η : EntityName.t).

Lemma look_ok_ledger reg issued db : ledger reg issued (db_view db) → look_ok db.
Proof.
  intros Hl. split; [apply Hl|]. apply set_eq. intros id. rewrite elem_of_intersection, queued_ids_view, resolved_ids_view.
  split; [|by intros ?%not_elem_of_empty]. intros [Hq Ha]. by destruct (ledger_apart _ _ _ Hl id Hq).
Qed.

Lemma looks_ok_later reg issued db db' :
  ledger reg issued (db_view db') → later_look σ (db_view db) (db_view db') → looks_ok σ db db'.
Proof.
  intros Hl [[[more Hm] Hq] Hc]. split_and!.
  - exact Hc.
  - eapply verdicts_grow; [apply Hl|exact Hm].
  - intros id. rewrite elem_of_union, !queued_ids_view, resolved_ids_view. apply Hq.
Qed.

(** A device at its place satisfies the claims about state. *)
Lemma standing_state at_ms s i d j :
  server_ok σ η s → device_ok σ η s i d →
  device_cursor_bounds at_ms s σ j (Device.db d) = [] ∧ device_applied_state at_ms s σ j (Device.db d) = [] ∧
  device_durable_effects at_ms s σ j (Device.db d) = [].
Proof.
  intros Hs [_ _ _ Hst _]. destruct Hst as [[_ Hlt] _ _ Hrows _].
  destruct (Db.cursors (Device.db d) !! σ) as [c|] eqn:Hc.
  - assert (stored_cursor (stored d) σ = c) as Hsc by (unfold stored_cursor; change (v_cursors (stored d)) with (Db.cursors (Device.db d)); by rewrite Hc).
    rewrite Hsc in *. split.
    + apply cursor_bounds_ok. intros c' Hc'. rewrite Hc in Hc'. injection Hc' as <-. unfold head. lia.
    + apply (state_checks_exact at_ms s σ j (Device.db d) c); [apply Hs|done|].
      rewrite <- replayed_counted by by eapply entries_upserts. exact Hrows.
  - unfold device_cursor_bounds, device_applied_state, device_durable_effects. by rewrite Hc.
Qed.

(** ** A check of a sound world *)

Record clean (w : World) : Prop := MkClean {
  clean_holds : violations (invariants w) = [];
  clean_remembers i d : devices w !! i = Some d → remembers σ i (Device.db d) (invariants w);
}.

Lemma check_each_memory f dbs inv :
  let inv' := check_each f dbs inv in
  high_water inv' = high_water inv ∧ Invariants.resolved inv' = Invariants.resolved inv ∧ ever_queued inv' = ever_queued inv.
Proof.
  cbv zeta. unfold check_each, for_each_db. generalize 0%nat as k. revert inv.
  induction dbs as [|db dbs IH]; intros inv k; cbn [for_each_from]; [done|]. destruct (IH (push_violations (f k db) inv) (S k)) as (-> & -> & ->). done.
Qed.

Lemma remembers_memory scope i db inv inv' :
  high_water inv' = high_water inv → Invariants.resolved inv' = Invariants.resolved inv → ever_queued inv' = ever_queued inv →
  remembers scope i db inv → remembers scope i db inv'.
Proof. intros H1 H2 H3 []. split; by rewrite ?H1, ?H2, ?H3. Qed.

(** A claim about state that every device satisfies adds nothing. *)
Lemma check_each_silent f scope dbs inv :
  violations inv = [] → (∀ i db, dbs !! i = Some db → f i db = []) →
  violations (check_each f dbs inv) = [] ∧
  ∀ i db, remembers scope i db inv → remembers scope i db (check_each f dbs inv).
Proof.
  intros Hv Hf. split; [by apply holds_spec, check_each_holds; split; [apply holds_spec|]|].
  intros i db. destruct (check_each_memory f dbs inv) as (? & ? & ?). by apply remembers_memory.
Qed.

Lemma check_world_clean q w0 w :
  clean w0 → sound σ η q w → invariants w = invariants w0 → Forall2 (forward σ 1) (devices w0) (devices w) →
  clean (check_world w).
Proof.
  intros [Hv Hrem] Hs Hinv Hfw. unfold check_world. pose proof (sound_world _ _ _ _ Hs) as [[Hsc _] _].
  assert (Hstate : ∀ at_ms i db, databases w !! i = Some db → ∃ d, devices w !! i = Some d ∧ db = Device.db d ∧
    device_cursor_bounds at_ms (server w) σ i db = [] ∧ device_applied_state at_ms (server w) σ i db = [] ∧
    device_durable_effects at_ms (server w) σ i db = []).
  { intros at_ms i db Hi. unfold databases in Hi. rewrite list_lookup_fmap in Hi. apply fmap_Some in Hi as (d & Hi & ->).
    exists d. split_and!; [done|done|..]; eapply (standing_state at_ms _ i d i); by eapply sound_server || by eapply sound_device. }
  set (dbs := databases w) in *. cbn [now_ms set_invariants World.scope server]. rewrite Hsc. set (t := now_ms w).
  assert (Hstep : violations (check_step t dbs σ (invariants w)) = [] ∧
    ∀ i db, dbs !! i = Some db → remembers σ i db (check_step t dbs σ (invariants w))).
  { rewrite Hinv. destruct (devices_step t σ dbs (databases w0) 0 (invariants w0)) as (vs & Hvs & Hiff & Hr & _).
    - unfold dbs, databases. rewrite !length_fmap. by eapply Forall2_length.
    - apply Forall_forall. intros db [i Hi]%list_elem_of_lookup. destruct (Hstate t i db Hi) as (d & Hd & -> & _). intros c Hc.
      destruct (sound_device _ _ _ _ Hs i d Hd) as [_ _ _ [[Hwf _] _ _ _ _] _]. unfold stored_cursor in Hwf.
      change (v_cursors (stored d)) with (Db.cursors (Device.db d)) in Hwf. rewrite Hc in Hwf. apply Hwf.
    - intros j db Hj. unfold databases in Hj. rewrite list_lookup_fmap in Hj. apply fmap_Some in Hj as (d & Hj & ->). by apply Hrem.
    - assert (vs = []) as ->.
      { apply Hiff. unfold dbs, databases. apply Forall2_fmap. apply Forall2_same_length_lookup. split; [by eapply Forall2_length|].
        intros i d d' Hi Hi'. destruct (Forall2_lookup_lr _ _ _ _ _ _ Hfw Hi Hi') as [Hl _].
        pose proof (device_ledger _ _ _ _ _ (sound_device _ _ _ _ Hs i d' Hi')) as Hled. split; [by eapply look_ok_ledger|by eapply looks_ok_later]. }
      unfold check_step, for_each_db. rewrite Hvs, Hv. split; [done|]. by apply Hr. }
  destruct Hstep as [Hv1 Hr1]. set (inv1 := check_step t dbs σ (invariants w)) in *.
  destruct (check_each_silent (device_cursor_bounds t (server w) σ) σ dbs inv1) as [Hv2 Hr2]; [done|intros i db Hi; by destruct (Hstate t i db Hi) as (? & _ & _ & ? & _)|].
  fold (check_cursor_bounds t dbs (server w) σ inv1) in *. set (inv2 := check_cursor_bounds _ _ _ _ inv1) in *.
  destruct (check_each_silent (device_durable_effects t (server w) σ) σ dbs inv2) as [Hv3 Hr3]; [done|intros i db Hi; by destruct (Hstate t i db Hi) as (? & _ & _ & _ & _ & ?)|].
  fold (check_durable_effects t dbs (server w) σ inv2) in *. set (inv3 := check_durable_effects _ _ _ _ inv2) in *.
  destruct (check_each_silent (device_applied_state t (server w) σ) σ dbs inv3) as [Hv4 Hr4]; [done|intros i db Hi; by destruct (Hstate t i db Hi) as (? & _ & _ & _ & ? & _)|].
  fold (check_applied_state t dbs (server w) σ inv3) in *.
  split; [exact Hv4|]. intros i d Hi. apply Hr4, Hr3, Hr2, Hr1. unfold dbs, databases. cbn in Hi. by rewrite list_lookup_fmap, Hi.
Qed.
End clean.
