(* ===== verification/WorldRuns.v ===== *)
(** * WorldRuns: the invariant of a world between steps, and that every step keeps it. *)

From S2P Require Import Prelude Errors Nums Ids Json Wire Integrity Core Registry Migrate Outbox.
From S2P Require Import Storage SimStorage Apply Engine EngineFacts EngineSteps Place Ledger.
From S2P Require Import Server Rng FaultMenu Pressure SimServer SimServerFacts SimReads SimFeed.
From S2P Require Import Invariants InvariantFacts Trace World Deliveries WorldDevices WorldServer WorldSteps.
From S2P Require Import WorldCarry WorldSound WorldPhases WorldClean.
From stdpp Require Import options.

(** Log entries one step may add: a write of the server's own and two full pushes a device. *)
Definition step_entries (w : World) : Z := 1 + 512 * Z.of_nat (length (devices w)).

Section runs.
Context `{Hashes} `{Codec} `{!CodecArrays}.
Hypothesis Henc : ∀ c : Change.t, encodable c.
Variables (σ : ScopeId.t) (η : EntityName.t).

(** A world between steps, with room for [n] more: what is in flight is due in the next step or
    in the one after, in that order. *)
Record world_ok (n : nat) (w : World) : Prop := MkWorldOk {
  ok_sound : sound σ η (λ i, batches_for i (in_flight w)) w;
  ok_idle : idle w;
  ok_held : held w = [];
  ok_flights : ∃ due waiting, in_flight w = due ++ waiting ∧
    Forall (λ f, InFlight.deliver_at_ms f ≤ now_ms w + STEP_MS) due ∧ Forall (step_after w) waiting;
  ok_clean : clean σ w;
  ok_authored : Forall (λ d, Device.commands_authored d + (Z.of_nat n + 1) < u32_mod) (devices w);
  ok_seqs : next_seq (server w) + Z.of_nat n * step_entries w ≤ SEQ_MAX + 1;
}.

Lemma world_ok_weaken m n w : (m ≤ n)%nat → world_ok n w → world_ok m w.
Proof.
  intros Hmn []. split; try done.
  - eapply Forall_impl; [done|]. simpl. lia.
  - unfold step_entries in *. nia.
Qed.

Lemma evolves_room k n w w' :
  evolves σ k n w w' → Forall (λ d, Device.commands_authored d + k + 1 < u32_mod) (devices w) → room w'.
Proof.
  intros [_ _ _ Hd] Hr i d' Hi'. destruct (Forall2_lookup_r _ _ _ _ _ Hd Hi') as (d & Hi & _ & Hn).
  rewrite Forall_forall in Hr. specialize (Hr d (list_elem_of_lookup_2 _ _ _ Hi)). lia.
Qed.

Lemma evolves_authored k n m w w' :
  evolves σ k n w w' → Forall (λ d, Device.commands_authored d + (k + m) < u32_mod) (devices w) →
  Forall (λ d, Device.commands_authored d + m < u32_mod) (devices w').
Proof.
  intros [_ _ _ Hd] Hr. apply Forall_forall. intros d' [i Hi']%list_elem_of_lookup.
  destruct (Forall2_lookup_r _ _ _ _ _ Hd Hi') as (d & Hi & _ & Hn).
  rewrite Forall_forall in Hr. specialize (Hr d (list_elem_of_lookup_2 _ _ _ Hi)). lia.
Qed.

Lemma nets_idle w w' : nets w w' → idle w → idle w'.
Proof. intros (_&_&_&_&_&_&_&Hd&_&_) Hi. unfold idle. by rewrite Hd. Qed.

Lemma sound_now q t w : sound σ η q w → sound σ η q (set_now t w).
Proof. intros [Hw Hr Hs Hd Hq Ho]. by split. Qed.

Lemma check_world_frame w :
  let w' := check_world w in
  devices w' = devices w ∧ server w' = server w ∧ in_flight w' = in_flight w ∧ held w' = held w ∧ now_ms w' = now_ms w ∧
  rates w' = rates w ∧ World.scope w' = World.scope w ∧ World.entity w' = World.entity w ∧ World.registry w' = World.registry w ∧
  quiet w' = quiet w.
Proof. cbv zeta. unfold check_world. split_and!; reflexivity. Qed.

Lemma check_world_sound q w : sound σ η q w → sound σ η q (check_world w).
Proof.
  destruct (check_world_frame w) as (Hd & Hs & _ & _ & _ & Hr & Hsc & Hen & Hreg & _). generalize dependent (check_world w). intros w' Hd Hs Hr Hsc Hen Hreg.
  intros [[[Hw1 Hw2] Hw3] Hrs Hss Hds Hqs Ho]. split; [split; [split|]|..]; rewrite ?Hd, ?Hs, ?Hr, ?Hsc, ?Hen, ?Hreg; try done;
    intros i d; rewrite Hd; auto.
Qed.

(** What the network and the deliveries find at the end of a step. *)
Record stepped (w w' : World) : Prop := MkStepped {
  stepped_sound : sound σ η (λ i, batches_for i (in_flight w')) w';
  stepped_idle : idle w';
  stepped_held : held w' = [];
  stepped_flights : ∃ due waiting, in_flight w' = due ++ waiting ∧
    Forall (λ f, InFlight.deliver_at_ms f ≤ now_ms w' + STEP_MS) due ∧ Forall (step_after w') waiting;
  stepped_now : now_ms w' = now_ms w + STEP_MS;
  stepped_evolves : evolves σ 1 (step_entries w) (set_now (now_ms w') w) w';
}.

(** The clock, the server, and the devices' turns. *)
Definition before_turns (w : World) : World :=
  let w := set_now (now_ms w + STEP_MS) w in
  let w := set_devices (fmap (Device.with_clock (advance_to (now_ms w)))) w in
  server_turn w.
Definition before_network (w : World) : World :=
  let w := before_turns w in
  fold_left (λ w i, device_step i w) (seq 0 (length (devices w))) w.
Definition before_check (w : World) : World := deliver_due (carry_network (before_network w)).
Lemma world_step_checks w : world_step w = check_world (before_check w).
Proof. reflexivity. Qed.

Lemma before_turns_ok n w :
  world_ok (S n) w →
  let w' := before_turns w in
  sound σ η (λ i, batches_for i (in_flight w)) w' ∧ evolves σ 0 1 (set_now (now_ms w + STEP_MS) w) w' ∧ idle w' ∧ room w' ∧
  in_flight w' = in_flight w ∧ held w' = [].
Proof using All.
  intros [Hs Hidle Hheld _ _ Hauth _]. cbv zeta. unfold before_turns.
  set (t := now_ms w + STEP_MS). set (w1 := set_now t w). cbn [now_ms set_now w1]. fold w1.
  assert (Hs1 : sound σ η (λ i, batches_for i (in_flight w)) w1) by by apply sound_now.
  destruct (sound_clock σ η t _ w1 Hs1) as [Hs2 He2]. set (w2 := set_devices _ w1) in *.
  destruct (sound_server_turn σ η _ w2 Hs2) as (Hs3 & He3 & Hn3). set (w3 := server_turn w2) in *.
  pose proof (evolves_trans σ 0 0 0 1 _ _ _ He2 He3) as He13. cbn [Z.add] in He13.
  split_and!; [done|done| | | |].
  - eapply nets_idle; [exact Hn3|]. intros i d Hi. cbn in Hi. rewrite list_lookup_fmap in Hi. apply fmap_Some in Hi as (d0 & Hi & ->).
    exact (Hidle i d0 Hi).
  - eapply evolves_room; [exact He13|]. cbn. eapply Forall_impl; [exact Hauth|]. simpl. lia.
  - by destruct Hn3 as (_&_&_&_&_&_&_&_&Hfl3&_).
  - destruct Hn3 as (_&_&_&_&_&_&_&_&_&->). done.
Qed.

Lemma before_network_ok n w :
  world_ok (S n) w →
  let w' := before_network w in
  sound σ η (queue w') w' ∧ evolves σ 1 1 (set_now (now_ms w + STEP_MS) w) w' ∧ (∀ i d, devices w' !! i = Some d → asks σ d) ∧
  in_flight w' = in_flight w ∧ held w' = [].
Proof using All.
  intros Hok. destruct (before_turns_ok n w Hok) as (Hs3 & He13 & Hidle3 & Hroom3 & Hfl3 & Hh3). cbv zeta. unfold before_network.
  set (w3 := before_turns w) in *.
  destruct (turns_sound Henc σ η _ w3 Hs3 Hidle3 Hroom3) as (Hs4 & He4 & Hf4 & Hask).
  set (w4 := fold_left _ _ w3) in *. pose proof (evolves_trans σ 0 1 1 0 _ _ _ He13 He4) as He14. cbn [Z.add] in He14.
  assert (in_flight w4 = in_flight w ∧ held w4 = []) as [Hfl4 Hh4].
  { by rewrite (framed_in_flight _ _ Hf4), (framed_held _ _ Hf4), Hfl3, Hh3. }
  split_and!; [|done..].
  eapply sound_queues; [|exact Hs4]. intros i. unfold queue. by rewrite Hfl4, Hh4, app_nil_r.
Qed.

(** The world as its deliveries find it: what is due stands before what is not. *)
Record at_delivery (w w5 : World) : Prop := MkAtDelivery {
  at_sound : sound σ η (λ i, batches_for i (in_flight w5)) w5;
  at_evolves : evolves σ 1 (step_entries w) (set_now (now_ms w5) w) w5;
  at_network : evolves σ 0 (512 * Z.of_nat (length (devices w))) (before_network w) w5;
  at_idle : idle w5;
  at_room : room w5;
  at_held : held w5 = [];
  at_now : now_ms w5 = now_ms w + STEP_MS;
  at_flights : ∃ due next late, in_flight w5 = due ++ next ++ late ∧
    Forall (λ f, InFlight.deliver_at_ms f ≤ now_ms w5) due ∧
    Forall (λ f, now_ms w5 < InFlight.deliver_at_ms f ≤ now_ms w5 + STEP_MS) next ∧ Forall (step_after w5) late;
}.

Lemma network_delivers n w : world_ok (S n) w → at_delivery w (carry_network (before_network w)).
Proof using All.
  intros Hok. destruct (before_network_ok n w Hok) as (Hs4 & He14 & Hask & Hfl4 & Hh4).
  destruct Hok as [_ _ _ (due & waiting & Hf & Hdue & Hwait) _ Hauth Hseqs]. set (w4 := before_network w) in *.
  assert (Hlen4 : length (devices w4) = length (devices w)).
  { rewrite <- (Forall2_length _ _ _ (evolves_devices _ _ _ _ _ He14)). done. }
  assert (Hnow4 : now_ms w4 = now_ms w + STEP_MS).
  { destruct (evolves_settings _ _ _ _ _ He14) as (_&_&_&Hnow&_). exact Hnow. }
  destruct (carry_network_sound Henc σ η w4) as (Hs5 & He5 & Hidle5 & Hh5 & soon & late & Hf5 & Hsoon & Hlate); [done..| |].
  { pose proof (evolves_seqs _ _ _ _ _ He14) as Hq. rewrite Hlen4. cbn in Hq. unfold step_entries in Hseqs. lia. }
  rewrite Hlen4 in He5. set (w5 := carry_network w4) in *. rewrite Hfl4, Hf, <- app_assoc in Hf5.
  assert (Hnow5 : now_ms w5 = now_ms w + STEP_MS).
  { destruct (evolves_settings _ _ _ _ _ He5) as (_&_&_&Hnow&_). congruence. }
  pose proof (evolves_trans σ 1 1 0 _ _ _ _ He14 He5) as He15.
  split; rewrite ?Hnow5; try done.
  - eapply (evolves_room 1); [exact He15|]. cbn. eapply Forall_impl; [exact Hauth|]. simpl. lia.
  - exists due, (waiting ++ soon), late. unfold next_step, step_after in *. rewrite ?Hnow5, ?Hnow4 in *. split; [by rewrite <- app_assoc|].
    split; [done|]. split; [|done]. apply Forall_app; split; (eapply Forall_impl; [eassumption|]); simpl; unfold STEP_MS in *; lia.
Qed.

Lemma before_check_stepped n w : world_ok (S n) w → stepped w (before_check w).
Proof using All.
  intros Hok. unfold before_check. destruct (network_delivers n w Hok) as [Hs5 He15 _ Hidle5 Hroom5 Hh5 Hnow5 (due & next & late & Hf & Hdue & Hnext & Hlate)].
  set (w5 := carry_network (before_network w)) in *.
  destruct (deliver_due_sound Henc σ η w5 due (next ++ late)) as (Hs6 & Hf6 & Hh6 & He6 & Hidle6); [done..| |].
  { unfold step_after in Hlate. apply Forall_app; split; (eapply Forall_impl; [eassumption|]); simpl; unfold STEP_MS in *; lia. }
  set (w6 := deliver_due w5) in *.
  assert (Hnow6 : now_ms w6 = now_ms w5).
  { destruct (evolves_settings _ _ _ _ _ He6) as (_&_&_&Hnow&_). by rewrite Hnow. }
  split; [exact Hs6|done|by rewrite Hh6|..].
  - exists next, late. unfold step_after in *. rewrite Hnow6. split; [done|]. split; [|done].
    eapply Forall_impl; [exact Hnext|]. simpl. lia.
  - congruence.
  - rewrite Hnow6. pose proof (evolves_trans σ 1 _ 0 0 _ _ _ He15 He6) as He16. rewrite !Z.add_0_r in He16. exact He16.
Qed.

Lemma world_step_ok n w : world_ok (S n) w → world_ok n (world_step w) ∧ rates (world_step w) = rates w ∧ quiet (world_step w) = quiet w ∧
  Forall2 (forward σ 1) (devices w) (devices (world_step w)).
Proof using All.
  intros Hok. pose proof (before_check_stepped n w Hok) as Hst. destruct Hok as [Hs0 _ _ _ Hclean Hauth Hseqs].
  pose proof Hst as [Hs Hidle Hheld Hflights Hnow Hev]. rewrite world_step_checks. set (b := before_check w) in *.
  assert (Hc : clean σ (check_world b)).
  { eapply (check_world_clean σ η _ w); [done|exact Hs| |].
    - destruct (evolves_settings _ _ _ _ _ Hev) as (_&_&_&_&_&_&Hi). exact Hi.
    - exact (evolves_devices _ _ _ _ _ Hev). }
  pose proof (check_world_sound _ _ Hs) as Hsc.
  destruct (check_world_frame b) as (Hd & Hsv & Hf & Hh & Hn & Hr & Hsc' & Hen & Hreg & Hq).
  set (c := check_world b) in *. clearbody c.
  assert (Hflc : ∃ due waiting, in_flight c = due ++ waiting ∧
    Forall (λ f, InFlight.deliver_at_ms f ≤ now_ms c + STEP_MS) due ∧ Forall (step_after c) waiting).
  { destruct Hflights as (due & waiting & ? & ? & ?). exists due, waiting. rewrite Hf, Hn. unfold step_after. rewrite Hn. done. }
  assert (Hsq : sound σ η (λ i, batches_for i (in_flight c)) c) by by rewrite Hf.
  assert (Hid : idle c) by (unfold idle; by rewrite Hd).
  split; [split; try done|].
  - by rewrite Hh.
  - rewrite Hd. eapply (evolves_authored 1 _ (Z.of_nat n + 1)); [exact Hev|]. cbn. eapply Forall_impl; [exact Hauth|]. simpl. lia.
  - rewrite Hsv. pose proof (evolves_seqs _ _ _ _ _ Hev) as Hsq'. change (server (set_now _ w)) with (server w) in Hsq'.
    assert (step_entries c = step_entries w) as ->.
    { unfold step_entries. rewrite Hd, <- (Forall2_length _ _ _ (evolves_devices _ _ _ _ _ Hev)). done. }
    lia.
  - destruct (evolves_settings _ _ _ _ _ Hev) as (_&_&Hrt&_&Hqt&_&_). rewrite Hr, Hq, Hd. split_and!; [done|done|].
    exact (evolves_devices _ _ _ _ _ Hev).
Qed.
End runs.

(** ** A new world *)

Section start.
Context `{Hashes} `{Codec}.
Variables (σ : ScopeId.t) (η : EntityName.t).

Definition start_server : Server := SimServer.register_command "submit_reflection" η σ SimServer.new.

(** A device nobody has used. *)
Definition fresh (d : Device.t) : Prop :=
  ∃ c e z, Device.engine d = build_engine η σ c e Db.new z ∧ Device.commands_authored d = 0.

Lemma fresh_ok i d : fresh d → device_ok σ η start_server i d ∧ requests d = [] ∧ Device.db d = Db.new.
Proof using All.
  intros (c & e & z & He & Hn).
  assert (Hv : stored d = db_view Db.new) by (unfold stored, durable; by rewrite He).
  split_and!; [|unfold requests; by rewrite He|unfold Device.db; by rewrite He].
  split.
  - rewrite He. split_and!; [split|..]; try done. apply (reg_wf σ η).
  - by rewrite He.
  - rewrite Hv. split; try constructor; try done; try (by intros id ?%not_elem_of_nil).
    intros id [?%not_elem_of_nil|?%not_elem_of_nil]; done.
  - rewrite Hv. split; try done.
    + by left.
  - by rewrite Hn.
Qed.

Lemma new_devices_fresh n at_ms rng : Forall fresh (new_devices n η σ at_ms rng).2.
Proof.
  revert rng. induction n as [|n IH]; intros rng; [constructor|]. cbn [new_devices]. unfold new_device.
  destruct (Rng.signed _ _) as [r1 skew]. destruct (Rng.range r1 _ _) as [r2 drift]. destruct (Rng.next_u64 r2) as [r3 seed].
  destruct (Rng.range r3 _ _) as [r4 ratio]. specialize (IH r4). destruct (new_devices n _ _ _ r4) as [r5 ds]. cbn [snd] in *.
  constructor; [by eexists _, _, _|done].
Qed.
Lemma new_devices_length n at_ms rng : length (new_devices n η σ at_ms rng).2 = n.
Proof.
  revert rng. induction n as [|n IH]; intros rng; [done|]. cbn [new_devices].
  destruct (new_device _ _ _ _) as [r d]. specialize (IH r). destruct (new_devices n _ _ _ r) as [r5 ds]. cbn in *. by rewrite IH.
Qed.
End start.

Definition start_scope : ScopeId.t := ScopeId.mk "inst:adl:enr:2026-cohort".
Definition start_entity : EntityName.t := EntityName.mk "reflections".

Section new.
Context `{Hashes} `{Codec}.

Lemma World_new_fields seed rates tr :
  let w := World_new seed rates tr in
  (World.scope w = start_scope ∧ World.entity w = start_entity ∧ World.registry w = reg start_scope start_entity ∧
   World.rates w = rates ∧ in_flight w = [] ∧ held w = [] ∧ invariants w = Invariants_new ∧
   server w = start_server start_scope start_entity) ∧
  Forall (fresh start_scope start_entity) (devices w) ∧ (length (devices w) ≤ 4)%nat.
Proof.
  cbv zeta. unfold World_new. fold start_scope start_entity. pose proof (range_bounds (Rng.new seed) 2 4) as Hb.
  destruct (Rng.range (Rng.new seed) 2 4) as [r count]. cbn [snd] in Hb.
  pose proof (new_devices_fresh start_scope start_entity (Z.to_nat count) START_MS r) as Hf.
  pose proof (new_devices_length start_scope start_entity (Z.to_nat count) START_MS r) as Hl.
  destruct (new_devices _ _ _ _ r) as [r' ds]. cbn [snd] in Hf, Hl. split; [split_and!; reflexivity|].
  split; [exact Hf|]. cbn. lia.
Qed.

Lemma World_new_ok n seed rates tr :
  rates_ok rates → Z.of_nat n + 1 < u32_mod → world_ok start_scope start_entity n (World_new seed rates tr).
Proof using All.
  intros Hr Hn. destruct (World_new_fields seed rates tr) as ((Hsc & Hen & Hreg & Hra & Hfl & Hh & Hin & Hsv) & Hfresh & Hlen).
  set (w := World_new seed rates tr) in *. clearbody w.
  assert (Hdev : ∀ i d, devices w !! i = Some d → device_ok start_scope start_entity (start_server start_scope start_entity) i d ∧
    requests d = [] ∧ Device.db d = Db.new).
  { intros i d Hi. apply fresh_ok. rewrite Forall_forall in Hfresh. apply Hfresh. by eapply list_elem_of_lookup_2. }
  split.
  - rewrite Hfl. split.
    + by split.
    + by rewrite Hra.
    + rewrite Hsv. apply (start_ok start_scope start_entity).
    + intros i d Hi. rewrite Hsv. by apply Hdev.
    + intros i d Hi. split; constructor.
    + intros i. constructor.
  - intros i d Hi. by apply (Hdev i d).
  - done.
  - exists [], []. rewrite Hfl. by repeat constructor.
  - split; [by rewrite Hin|]. intros i d Hi. destruct (Hdev i d Hi) as (_ & _ & ->). rewrite Hin. apply remembers_start.
  - eapply Forall_impl; [exact Hfresh|]. simpl. intros d (_ & _ & _ & _ & ->). lia.
  - rewrite Hsv. unfold step_entries. change (next_seq _) with 1. unfold u32_mod in Hn. unfold SEQ_MAX. 
    assert (Z.of_nat n * (1 + 512 * Z.of_nat (length (devices w))) ≤ 4294967296 * 2049) by nia. unfold i64_max in *. lia.
Qed.
End new.

Section steps.
Context `{Hashes} `{Codec} `{!CodecArrays}.
Hypothesis Henc : ∀ c : Change.t, encodable c.
Variables (σ : ScopeId.t) (η : EntityName.t).

Lemma world_steps_ok k n w :
  world_ok σ η (k + n) w →
  let w' := Nat.iter k world_step w in
  world_ok σ η n w' ∧ rates w' = rates w ∧ quiet w' = quiet w ∧ Forall2 (forward σ (Z.of_nat k)) (devices w) (devices w').
Proof using All.
  revert n. induction k as [|k IH]; intros n Hw; cbv zeta.
  - split_and!; [done..|]. apply Forall_Forall2_diag, Forall_forall. intros d _. by apply forward_refl.
  - rewrite Nat.iter_succ. destruct (IH (S n)) as (Hok & Hr & Hq & Hd); [by replace (k + S n)%nat with (S k + n)%nat by lia|].
    destruct (world_step_ok Henc σ η n _ Hok) as (Hok' & Hr' & Hq' & Hd'). split_and!; [done|congruence..|].
    set (w1 := Nat.iter k world_step w) in *. clearbody w1. set (w2 := world_step w1) in *. clearbody w2.
    clear -Hd Hd'. revert Hd'. generalize (devices w2). induction Hd as [|a b l l' Hab _ IHd]; intros l'' Hl; inversion Hl; subst; constructor.
    + replace (Z.of_nat (S k)) with (Z.of_nat k + 1) by lia. by eapply forward_trans.
    + by apply IHd.
Qed.

(** Going quiet, and coming back, changes no device's standing. *)
Lemma world_ok_rates b r n w :
  rates_ok r → world_ok σ η n w → world_ok σ η n (set_quiet b (set_rates r w)).
Proof.
  intros Hr [[Hw _ Hs Hd Hq Ho] Hi Hh Hf Hc Ha Hn]. split; try done. by destruct Hc.
Qed.

Lemma world_ok_online f n w :
  (∀ t, SimTransport.pending (f t) = SimTransport.pending t) → world_ok σ η n w →
  world_ok σ η n (set_devices (fmap (Device.with_transport f)) w).
Proof using All.
  intros Hf [[Hw Hr Hs Hd Hq Ho] Hi Hh Hfl Hc Ha Hn].
  assert (Hback : ∀ i d, (Device.with_transport f <$> devices w) !! i = Some d → ∃ d0, devices w !! i = Some d0 ∧ d = Device.with_transport f d0).
  { intros i d Hid. rewrite list_lookup_fmap in Hid. apply fmap_Some in Hid as (d0 & ? & ->). by exists d0. }
  split; [split; try done| | | | | |].
  - intros i d (d0 & Hi0 & ->)%Hback. destruct (calm_transport σ η (server w) i f d0) as (? & _); [by apply Hd|done].
  - intros i d (d0 & Hi0 & ->)%Hback. by apply (Hq i d0).
  - intros i d (d0 & Hi0 & ->)%Hback. unfold requests. cbn. rewrite Hf. by apply (Hi i d0).
  - done.
  - exact Hfl.
  - destruct Hc as [Hv Hr']. split; [done|]. intros i d (d0 & Hi0 & ->)%Hback. by apply (Hr' i d0).
  - cbn. apply Forall_fmap. exact Ha.
  - unfold step_entries in *. cbn. by rewrite length_fmap.
Qed.
End steps.

(** ** A settled world *)

Section settled.
Context `{Hashes} `{Codec} `{!CodecArrays}.
Variables (σ : ScopeId.t) (η : EntityName.t).

Lemma upto_everything s c : server_wf s → head s ≤ c → upto s σ c = entries s σ.
Proof.
  intros Hw Hc. unfold upto. apply filter_all. pose proof (entries_wf s σ Hw) as Hr. eapply Forall_impl; [exact Hr|].
  intros e [? _]. unfold head in Hc. lia.
Qed.

Lemma own_restricted (m : LiveRows) es :
  m = counted es → Forall (λ e, own η (LogEntry.change e)) es → restrict (scope_entities (reg σ η) σ) m = m.
Proof.
  intros -> Ho. unfold restrict. apply map_filter_id. intros [e i] v Hk. cbn. rewrite counted_lookup in Hk.
  apply fmap_Some in Hk as (x & Hx & _). apply last_Some_elem_of, list_elem_of_fmap in Hx as (y & _ & Hy).
  apply list_elem_of_filter in Hy as [Hkey Hy]. rewrite Forall_forall in Ho. destruct (Ho y Hy) as [He _].
  unfold key_of in Hkey. injection Hkey as <- _. rewrite He. apply reg_scope.
Qed.

Definition cursor_of_db (db : Db.t) : Z := match Db.cursors db !! σ with Some c => Cursor.get c | None => 0 end.

(** Once nothing is in flight, a device at the head holds what the server counts, and has its
    digest. *)
Lemma at_head_exact s i d c :
  server_ok σ η s → device_ok σ η s i d → in_flight_writes s = 0%nat →
  Db.cursors (Device.db d) !! σ = Some c → head s ≤ Cursor.get c →
  versions_of (stored d) = counted (entries s σ) ∧
  Db.digests (Device.db d) !! σ = Some (ScopeDigest.to_hex (digest s σ)).
Proof.
  intros Hs [(_ & Hdur & _) [Hreg _] _ Hst _] Hfl Hc Hge.
  rewrite Hreg in Hdur. specialize (Hdur σ). unfold scope_ok in Hdur. cbv zeta in Hdur.
  change (v_cursors (durable (Device.engine d))) with (Db.cursors (Device.db d)) in Hdur.
  change (v_digests (durable (Device.engine d))) with (Db.digests (Device.db d)) in Hdur.
  rewrite Hc in Hdur. rewrite Hdur.
  assert (stored_cursor (stored d) σ = c) as Hsc.
  { unfold stored_cursor. change (v_cursors (stored d)) with (Db.cursors (Device.db d)). by rewrite Hc. }
  pose proof (standing_rows _ _ _ Hst) as Hrows. rewrite Hsc, upto_everything in Hrows by (apply Hs || done).
  assert (Hall : upto s σ (visible_head s σ) = entries s σ).
  { apply filter_all. apply settled_visible; [apply Hs|]. unfold in_flight_writes in Hfl. by apply nil_length_inv. }
  assert (replayed (entries s σ) = counted (entries s σ)) as Hrc.
  { apply replayed_counted. rewrite <- Hall. by eapply entries_upserts. }
  change (durable (Device.engine d)) with (stored d).
  rewrite (own_restricted (versions_of (stored d)) (entries s σ)); [|by rewrite Hrows|by eapply entries_own].
  rewrite digest_spec, Hall by apply Hs. by rewrite Hrows, Hrc.
Qed.

Lemma head_has_cursor s (d : Device.t) :
  0 < head s → head s ≤ cursor_of_db (Device.db d) →
  ∃ c, Db.cursors (Device.db d) !! σ = Some c ∧ head s ≤ Cursor.get c.
Proof. unfold cursor_of_db. destruct (Db.cursors (Device.db d) !! σ) as [c|]; [by exists c|lia]. Qed.

(** The convergence check can only complain of a device that is behind. *)
Lemma convergence_behind at_ms s i j d :
  server_ok σ η s → device_ok σ η s i d → in_flight_writes s = 0%nat → 0 < head s →
  device_convergence at_ms s σ j (Device.db d) = [] ↔ head s ≤ cursor_of_db (Device.db d).
Proof.
  intros Hs Hd Hfl Hh. split.
  - unfold device_convergence, cursor_of_db. destruct (Db.digests (Device.db d) !! σ); [|by destruct (Z.ltb_spec 0 (head s)); [|lia]].
    destruct (Z.ltb_spec match Db.cursors (Device.db d) !! σ with Some c => Cursor.get c | None => 0 end (head s)); [done|lia].
  - intros Hge. destruct (head_has_cursor s d Hh Hge) as (c & Hc & Hle).
    destruct (at_head_exact _ _ _ _ Hs Hd Hfl Hc Hle) as [_ Hdig]. unfold device_convergence. rewrite Hdig, Hc.
    destruct (Z.ltb_spec (Cursor.get c) (head s)); [lia|]. rewrite bool_decide_eq_false_2 by (intros Hne; by apply Hne). done.
Qed.

(** Every draft kept is an owner draft, and every superseded command left one. *)
Lemma policy_silent at_ms reg issued i db :
  ledger reg issued (db_view db) → device_policy at_ms reg i db = [].
Proof.
  intros Hl. unfold device_policy. apply app_nil. split; apply flat_map_nil.
  - intros [[id e] p] Hin. pose proof (ledger_owners _ _ _ Hl) as Ho. rewrite Forall_forall in Ho. specialize (Ho _ Hin).
    unfold owner_draft in Ho. cbn in Ho. by rewrite Ho.
  - intros [id r] Hin. destruct (bool_decide (r = Resolution.Superseded)) eqn:Hr; [|done]. apply bool_decide_eq_true in Hr as ->.
    pose proof (ledger_drafts _ _ _ Hl id Hin) as Hd. rewrite bool_decide_eq_false_2; [done|]. intros Hn. apply Hn.
    unfold recovered_ids. apply elem_of_list_to_set. unfold draft_ids in Hd. rewrite <- list_fmap_compose in Hd. exact Hd.
Qed.
End settled.

(** [settle] up to its assertion. *)
Definition quieted `{Hashes} `{Codec} (w : World) : World :=
  Nat.iter SETTLE_STEPS world_step
    (set_devices (fmap (Device.with_transport (set_online true))) (set_quiet true (set_rates FaultRates.none w))).

Lemma settle_unfold `{Hashes} `{Codec} w :
  settle w =
    if negb (in_flight_writes (server (quieted w)) =? 0)%nat then None else
    let q := set_quiet false (set_rates (rates w) (quieted w)) in
    let dbs := databases q in
    let q := set_invariants (check_convergence (now_ms q) dbs (server q) (World.scope q)) q in
    Some (set_invariants (check_policy (now_ms q) dbs (World.registry q)) q).
Proof. unfold settle, quieted. cbv zeta. reflexivity. Qed.
