(* ===== verification/WorldQuiet.v ===== *)
(** * WorldQuiet: a quiet world moves on. With no fault left, what a device asked for arrives in
    the next step and is taken, so two steps bring a device that is behind nearer to the head. *)

From S2P Require Import Prelude Errors Nums Ids Json Wire Integrity Core Registry Migrate Outbox.
From S2P Require Import Storage SimStorage Apply Engine EngineFacts EngineSteps Place Ledger.
From S2P Require Import Server Rng FaultMenu Pressure SimServer SimServerFacts SimReads SimFeed.
From S2P Require Import Invariants InvariantFacts Trace World Deliveries WorldDevices WorldServer WorldSteps.
From S2P Require Import WorldCarry WorldSound WorldPhases WorldClean WorldRuns.
From stdpp Require Import options.

(** ** A batch that is in order is taken *)

Section taking.
Context `{Hashes} `{Codec}.
Variables (σ : ScopeId.t) (η : EntityName.t).

Lemma own_class : class_of (reg σ η) η = Some OwnerDraft.
Proof. unfold class_of. cbn. by rewrite lookup_insert_eq. Qed.

(** The simulator's storage always reads, and an owner draft may be overwritten. *)
Lemma stage_own (db : Db.t) cs acc : Forall (own η) cs → ∃ acc', stage_all db (reg σ η) Migrations_new cs acc = Ok acc'.
Proof.
  intros Ho. revert acc. induction Ho as [|c cs Hc _ IH]; intros [sg q]; [by eexists|].
  cbn [stage_all stage_one]. rewrite (own_current σ η c Hc). destruct Hc as (He & Hop & _ & [sn Hsn]). rewrite He, own_class.
  unfold stage_change, current_version. rewrite Hop, Hsn.
  destruct (sg_staged sg !! (Change.entity c, Change.entity_id c)); cbn; apply IH.
Qed.

Lemma refresh_reads sc (en : SimEngine) : (refresh_if_suspect sc en).2 = Ok ().
Proof. unfold refresh_if_suspect. by destruct (negb _). Qed.
Lemma refresh_outbox_reads (en : SimEngine) : (refresh_outbox_if_suspect en).2 = Ok ().
Proof. unfold refresh_outbox_if_suspect. by destruct (negb _). Qed.
Lemma reload_reads sc (en : SimEngine) : (reload_scope sc en).2 = Ok ().
Proof.
  unfold reload_scope, st_bind. pose proof (refresh_reads sc en) as H1. destruct (refresh_if_suspect sc en) as [en1 r1]. cbn in H1. subst r1.
  pose proof (refresh_outbox_reads en1) as H2. destruct (refresh_outbox_if_suspect en1) as [en2 r2]. cbn in *. by subst r2.
Qed.

Lemma commit_transacts (db : Db.t) ops : Db.verdict db = Commit → ∃ s' o, transact db ops = (s', Ok o).
Proof. intros Hv. cbn. rewrite Hv. by eexists _, _. Qed.

(** On a device whose storage will commit. *)
Lemma take_batch_commits s i d b :
  device_ok σ η s i d → owned σ η b → Db.verdict (Device.db d) = Commit →
  validate_ordering b (Cursor.get (stored_cursor (stored d) σ)) = Ok () →
  stored_cursor (durable (apply_batch b (Device.engine d)).1) σ = Batch.next_cursor b.
Proof.
  intros [(Hc & Hd & Hw) (Hr & Hm & _) _ _ _] [Hsc Hown] Hcommit Hv. set (en := Device.engine d) in *.
  destruct (apply_batch b en) as [en' r] eqn:Ha. cbn [fst].
  pose proof Ha as (en1 & r1 & Hre & Hcase)%apply_changes_fresh. rewrite Hsc in *.
  pose proof (refresh_reads σ en) as Hok. rewrite Hre in Hok. cbn in Hok. subst r1.
  destruct Hcase as [(e & He & _)|(_ & Hns & Happ)]; [done|].
  destruct (refresh_facts _ _ _ _ Hre) as (Hst & Hreg & Hmig & _ & _ & _ & _ & _ & Hco & _). specialize (Hco Hc).
  rewrite Hr in Hreg. rewrite Hm in Hmig.
  assert (Hv1 : validate_ordering b (Cursor.get (ScopeState.cursor (default ScopeState.NEW (scopes en1 !! σ)))) = Ok ()).
  { pose proof (trusted_cursor en1 σ Hco Hns) as Ht. unfold cursor_of, engine_scope_state in Ht. rewrite Ht.
    unfold durable in *. rewrite Hst. exact Hv. }
  destruct (stage_own (storage en1) (Batch.changes b)
    (MkStaging (ScopeState.digest (default ScopeState.NEW (scopes en1 !! σ))) [] ∅, []) Hown) as [[sg q] Hstage].
  destruct (apply_changes_cases b (negb (Batch.has_more b)) false en1 en' r) as [(e & -> & ->)|(sg' & q' & _ & Hstage' & Hrun)];
    rewrite ?Hsc, ?Hreg, ?Hmig in *; [done|done| |].
  - exfalso. unfold apply_changes, apply_committed, st_bind, refresh_if_suspect in Happ. rewrite Hsc, bool_decide_eq_false_2 in Happ by done.
    cbn [negb] in Happ. rewrite Hv1 in Happ. cbn [res_bind] in Happ. rewrite Hreg, Hmig, Hstage in Happ. unfold engine_transact in Happ.
    match type of Happ with context [transact ?db ?ops] => destruct (commit_transacts db ops) as (s' & o & Ht); [by rewrite Hst|] end.
    rewrite Ht in Happ. apply (f_equal snd) in Happ. discriminate Happ.
  - rewrite Hstage in Hstage'. injection Hstage' as <- <-. cbv zeta in Hrun.
    set (ops := batch_ops b sg ++ _) in *. destruct (commit_transacts (storage en1) ops) as (s' & o & Ht); [by rewrite Hst|].
    destruct Hrun as [(s1 & se & Ht' & _)|(s1 & o' & Ht' & _ & Hap)]; [by rewrite Ht in Ht'|].
    rewrite Ht in Ht'. injection Ht' as <- <-. destruct Hap as (Hst' & _). apply transact_ok in Ht as (Hview & _).
    unfold stored_cursor, durable. rewrite Hst', Hview.
    apply apply_ordering_ok in Hv1 as (_ & _ & Hwf & _).
    assert (Hrow : Forall (λ op, is_row_op op = true) (sg_ops sg)).
    { apply (batch_staged en1 b sg q Hco); rewrite ?Hsc, ?Hreg, ?Hmig; [|done| |done|done].
      - unfold durable in *. rewrite Hst. by rewrite Hr in Hd.
      - unfold fits. rewrite Hreg. eapply Forall_impl; [exact Hown|]. intros c (-> & _). apply reg_scope. }
    unfold ops. destruct (batch_view b sg (scope_health σ en1) (negb (Batch.has_more b)) (batch_diverged b sg (negb (Batch.has_more b))) false
      (view (storage en1)) Hrow) as (_ & Hcur & _). rewrite Hsc in *. rewrite Hst in Hcur |- *. rewrite Hcur. by rewrite lookup_insert_eq.
Qed.
End taking.

(** ** Delivering in a quiet world *)

Section delivering.
Context `{Hashes} `{Codec} `{!CodecArrays}.
Hypothesis Henc : ∀ c : Change.t, encodable c.
Variables (σ : ScopeId.t) (η : EntityName.t).
Abbreviation sound := (WorldSound.sound σ η).

(** What a pull answers is in order at the cursor it was asked from. *)
Lemma pulled_in_order s b c : server_ok σ η s → pulled σ s b c → validate_ordering b (Cursor.get c) = Ok ().
Proof using All.
  intros Hs Hp. apply apply_ordering_ok. rewrite (pulled_changes _ _ _ _ Hp). set (es := between _ _ _ _).
  assert (Hin : ∀ e, e ∈ es → Cursor.get c < seq_of e ≤ Cursor.get (Batch.next_cursor b) ∧ Change.seq (LogEntry.change e) = LogEntry.seq e ∧
    own η (LogEntry.change e)).
  { intros e [Hr He]%list_elem_of_filter. split; [done|]. split.
    - pose proof (entries_wf s σ (ok_wf _ _ _ Hs)) as Hw. rewrite Forall_forall in Hw. by apply (Hw e He).
    - pose proof (entries_own σ η s σ Hs) as Ho. rewrite Forall_forall in Ho. by apply Ho. }
  split_and!.
  - apply (sorted_fmap Wire.seq_lt LogEntry.change).
    assert (Hsort : StronglySorted SimServerFacts.seq_lt es) by (apply sorted_filter, entries_sorted, Hs).
    clear Hp. clearbody es. induction Hsort as [|e l Hsort IH Hall]; constructor.
    + apply IH. intros x Hx. apply Hin. by right.
    + rewrite Forall_forall in *. intros x Hx. specialize (Hall x Hx). unfold SimServerFacts.seq_lt, seq_of, Wire.seq_lt in *.
      destruct (Hin e ltac:(by left)) as (_ & -> & _), (Hin x ltac:(by right)) as (_ & -> & _). done.
  - apply Forall_fmap, Forall_forall. intros e He. destruct (Hin e He) as (? & Hseq & _). unfold after. cbn. rewrite Hseq. unfold seq_of in *. lia.
  - apply Forall_fmap, Forall_forall. intros e He. destruct (Hin e He) as (_ & _ & _ & Hop & _ & Hsn). by split.
  - apply Forall_fmap, Forall_forall. intros e He. destruct (Hin e He) as (? & Hseq & _). cbn. rewrite Hseq. unfold seq_of in *. lia.
Qed.

Lemma arm_quiet i w d :
  rates w = FaultRates.none → devices w !! i = Some d →
  devices (arm_storage i w) !! i = Some (Device.with_storage (Db.set_verdict Commit) d).
Proof.
  intros Hr Hd. unfold arm_storage. rewrite Hr, storage_quiet. cbn. by rewrite list_lookup_alter_eq, Hd.
Qed.

Definition cursor_at (w : World) (i : nat) : Z :=
  match devices w !! i with Some d => Cursor.get (stored_cursor (stored d) σ) | None => 0 end.

Lemma deliver_batch_quiet q i b bs w d :
  sound q w → room w → rates w = FaultRates.none → q i = b :: bs → devices w !! i = Some d →
  validate_ordering b (Cursor.get (stored_cursor (stored d) σ)) = Ok () →
  cursor_at (deliver_batch i w b) i = Cursor.get (Batch.next_cursor b).
Proof using All.
  intros Hs Hroom Hr Hq Hd Hv. unfold deliver_batch.
  destruct (silent_delivers Henc σ η i q w (arm_storage i w) Hs Hroom (arm_moves σ η (server w) i w)) as [Hs1 Hd1].
  pose proof (arm_quiet i w d Hr Hd) as Hat. set (w1 := arm_storage i w) in *. set (d1 := Device.with_storage _ d) in *.
  pose proof (call_moves i (apply_batch b) w1) as Hm.
  destruct (engine_call i (apply_batch b) w1) as [w2 r]. cbn [fst] in Hm.
  destruct (sound_take Henc σ η q i b bs w1 w2 Hs1 Hq Hm) as [Hs2 Hd2].
  set (what := match r with Some (Ok _) => _ | _ => _ end). destruct (event_sound Henc σ η _ i what w2 Hs2) as [Hs3 Hd3].
  set (w3 := event i what w2) in *. destruct (moves_at _ _ _ _ Hm d1 Hat) as (d2 & Hat2 & ->).
  assert (Hcur : stored_cursor (durable (apply_batch b (Device.engine d1)).1) σ = Batch.next_cursor b).
  { apply (take_batch_commits σ η (server w1) i d1 b).
    - by eapply sound_device.
    - pose proof (sound_owned _ _ _ _ Hs i) as Ho. rewrite Hq in Ho. by apply Forall_cons in Ho as [? _].
    - unfold d1, Device.db, Device.with_storage, Db.set_verdict. cbn. by destruct (storage (Device.engine d)).
    - unfold d1, stored, durable. cbn. by rewrite set_verdict_view. }
  destruct (moves_at _ _ _ _ (maybe_kill_moves σ η (server w3) i w3 (proj1 (sound_world _ _ _ _ Hs3))) _ Hat2) as (d4 & Hat4 & [Hacts _]).
  assert (Hroom3 : room w3).
  { by do 3 (eapply delivers_room; [eassumption|]). }
  destruct Hacts as (_ & _ & Hc4 & _); [by eapply sound_device| |].
  { specialize (Hroom3 i _ Hat2). lia. }
  unfold cursor_at. rewrite Hat4, Hc4, stored_engine, Hcur. done.
Qed.

Lemma cursor_forward q k w w' i : Forall2 (forward σ k) (devices w) (devices w') → sound q w' → cursor_at w i ≤ cursor_at w' i.
Proof using All.
  intros Hd Hs. unfold cursor_at. destruct (devices w !! i) as [d|] eqn:Hi.
  - destruct (Forall2_lookup_l _ _ _ _ _ Hd Hi) as (d' & Hi' & [_ Hc] & _). rewrite Hi'.
    destruct (sound_device _ _ _ _ Hs i d' Hi') as [_ _ _ [[Hwf _] _ _ _ _] _]. unfold stored_cursor in *.
    destruct (v_cursors (stored d) !! σ) as [c|]; [destruct (Hc c eq_refl) as (c' & -> & ?); done|].
    destruct Hwf as [? _]. done.
  - destruct (devices w' !! i) as [d'|] eqn:Hi'; [|done]. destruct (Forall2_lookup_r _ _ _ _ _ Hd Hi') as (d & ? & _). congruence.
Qed.
Lemma cursor_mono q k n w w' i : evolves σ k n w w' → sound q w' → cursor_at w i ≤ cursor_at w' i.
Proof using All. intros [_ _ _ Hd]. by eapply cursor_forward. Qed.

Lemma delivers_rates w w' : delivers σ w w' → rates w' = rates w.
Proof. intros [_ Hf _]. apply Hf. Qed.
Lemma delivers_device w w' i : delivers σ w w' → is_Some (devices w !! i) → is_Some (devices w' !! i).
Proof. intros [_ Hf _]. rewrite !lookup_lt_is_Some. by rewrite (framed_length _ _ Hf). Qed.

(** A batch worth taking at [c] takes the device past [c], if nothing before it has. *)
Definition moves_past (c : Z) (b : Batch.t) : Prop := validate_ordering b c = Ok () ∧ c < Cursor.get (Batch.next_cursor b).

Lemma deliver_batches_quiet c q i bs rest w b :
  sound q w → room w → rates w = FaultRates.none → q i = bs ++ rest → is_Some (devices w !! i) →
  b ∈ bs → moves_past c b → c ≤ cursor_at w i → c < cursor_at (fold_left (deliver_batch i) bs w) i.
Proof using All.
  intros Hs Hroom Hr Hq Hd Hb [Hv Hnext] Hc. revert q w Hs Hroom Hr Hq Hd Hc.
  induction bs as [|b0 bs IH]; intros q w Hs Hroom Hr Hq Hd Hc; [by apply not_elem_of_nil in Hb|]. rewrite fold_left_step.
  destruct (deliver_batch_sound Henc σ η q i b0 (bs ++ rest) w Hs Hroom Hq) as [Hs1 Hd1].
  assert (Hq1 : dequeued q i (bs ++ rest) i = bs ++ rest) by (unfold dequeued; by rewrite decide_True).
  assert (Hroom1 : room (deliver_batch i w b0)) by by eapply delivers_room.
  destruct (deliver_batches Henc σ η _ i bs rest _ Hs1 Hroom1 Hq1) as [Hs2 Hd2].
  pose proof (cursor_mono _ _ _ _ _ i (delivers_evolves _ _ _ Hd1) Hs1) as Hm1.
  pose proof (cursor_mono _ _ _ _ _ i (delivers_evolves _ _ _ Hd2) Hs2) as Hm2.
  destruct (Z.eq_dec (cursor_at w i) c) as [Heq|Hne]; [|lia].
  apply elem_of_cons in Hb as [->|Hb].
  - destruct Hd as [d Hd]. enough (cursor_at (deliver_batch i w b0) i = Cursor.get (Batch.next_cursor b0)) by lia.
    eapply (deliver_batch_quiet q i b0 (bs ++ rest) w d); [done..|]. unfold cursor_at in Heq. rewrite Hd in Heq. by rewrite Heq.
  - eapply IH; [done|exact Hs1|done| |exact Hq1|by eapply delivers_device|lia]. by rewrite (delivers_rates _ _ Hd1).
Qed.

Lemma deliver_all_quiet c f b due rest w :
  sound (λ i, batches_for i (due ++ rest)) w → room w → rates w = FaultRates.none → is_Some (devices w !! InFlight.device f) →
  f ∈ due → b ∈ carried f → moves_past c b → c ≤ cursor_at w (InFlight.device f) →
  c < cursor_at (fold_left deliver due w) (InFlight.device f).
Proof using All.
  intros Hs Hroom Hr Hd Hf Hb Hpast Hc. revert w Hs Hroom Hr Hd Hc. set (i := InFlight.device f) in *.
  induction due as [|f0 due IH]; intros w Hs Hroom Hr Hd Hc; [by apply not_elem_of_nil in Hf|]. rewrite fold_left_step.
  destruct (deliver_sound Henc σ η _ f0 (batches_for (InFlight.device f0) (due ++ rest)) w Hs Hroom) as [Hs1 Hd1].
  { cbn [app]. rewrite batches_for_cons. by rewrite decide_True. }
  assert (Hs1' : sound (λ i, batches_for i (due ++ rest)) (deliver w f0)).
  { eapply sound_queues; [|exact Hs1]. intros j. unfold dequeued. case_decide; [by subst j|].
    cbn [app]. rewrite batches_for_cons. by rewrite decide_False by done. }
  assert (Hroom1 : room (deliver w f0)) by by eapply delivers_room.
  destruct (deliver_all Henc σ η due rest _ Hs1' Hroom1) as [Hs2 Hd2].
  pose proof (cursor_mono _ _ _ _ _ i (delivers_evolves _ _ _ Hd1) Hs1) as Hm1.
  pose proof (cursor_mono _ _ _ _ _ i (delivers_evolves _ _ _ Hd2) Hs2) as Hm2.
  apply elem_of_cons in Hf as [->|Hf].
  - enough (c < cursor_at (deliver w f0) i) by lia. unfold carried in Hb. unfold deliver. fold i.
    destruct (InFlight.response f0) as [[|response|response|]|e] eqn:Hresp; try by apply not_elem_of_nil in Hb.
    eapply (deliver_batches_quiet c _ i _ (batches_for i (due ++ rest))); try done.
    cbn [app]. rewrite batches_for_cons. unfold carried. by rewrite Hresp, decide_True.
  - eapply IH; [done|exact Hs1'|done| |by eapply delivers_device|lia]. by rewrite (delivers_rates _ _ Hd1).
Qed.
End delivering.

(** ** Online *)

Section online.
Context `{Hashes} `{Codec}.

Definition online (d : Device.t) : Prop := SimTransport.online (transport (Device.engine d)) = true.
Definition all_online (w : World) : Prop := ∀ i d, devices w !! i = Some d → online d.
(** A move that does not take a device offline. *)
Definition stays_up (d d' : Device.t) : Prop := online d → online d'.
Abbreviation up_moves := (moves stays_up).

Lemma up_trans i x y z : up_moves i x y → up_moves i y z → up_moves i x z.
Proof. apply moves_trans. intros a b c Hab Hbc Ha. by apply Hbc, Hab. Qed.
Lemma up_stays i w w' : framed w w' → devices w' = devices w → up_moves i w w'.
Proof. intros. by apply stays_moves; [intros d ?|..]. Qed.
Lemma up_device i f w : (∀ d, online d → online (f d)) → up_moves i w (on_device i f w).
Proof. intros Hf. apply on_device_moves. intros d _. exact (Hf d). Qed.

Lemma moves_online i w w' : up_moves i w w' → all_online w → all_online w'.
Proof.
  intros Hm Hon j d' Hj'. destruct (lookup_lt_is_Some_2 (devices w) j) as [d Hj].
  { rewrite <- (framed_length _ _ (moves_frame _ _ _ _ Hm)). by eapply lookup_lt_Some. }
  destruct (decide (j = i)) as [->|Hne].
  - destruct (moves_at _ _ _ _ Hm d Hj) as (d'' & Hj'' & Hup). rewrite Hj' in Hj''. injection Hj'' as <-. apply Hup. by eapply Hon.
  - rewrite (moves_other _ _ _ _ Hm j Hne) in Hj'. by eapply Hon.
Qed.

Lemma restart_up i w : up_moves i w (restart_device i w).
Proof.
  unfold restart_device. destruct (devices (fault i Fault.DeviceRestarted w) !! i) as [d|]; [|by apply up_stays].
  destruct (Rng.next_u64 _) as [r seed].
  eapply up_trans; [by apply (up_stays i w (set_rng r (fault i Fault.DeviceRestarted w)))|]. apply up_device. intros d' _.
  unfold online. cbn. by destruct (Db.cursors (Device.db d) !! World.scope w).
Qed.

Lemma kill_up i w : up_moves i w (maybe_kill i w).
Proof.
  unfold maybe_kill. destruct (devices w !! i) as [d|]; [|by apply up_stays]. destruct (Device.pending_kill d); [|by apply up_stays].
  eapply up_trans; [|apply restart_up]. by apply up_device.
Qed.

Lemma arm_up i w : up_moves i w (arm_storage i w).
Proof. eapply moves_weaken; [|apply arm_armed]. intros d d' (_ & _ & Ht). unfold stays_up, online. by rewrite Ht. Qed.

Lemma call_up {A E} i (m : step SimEngine A E) w :
  (∀ e, transport (m e).1 = transport e) → up_moves i w (engine_call i m w).1.
Proof.
  intros Ht. eapply moves_weaken; [|apply call_moves]. intros d d' ->. unfold stays_up, online. cbn. by rewrite Ht.
Qed.

(** ** Deliveries *)

(** The three steps of taking a response. *)
Lemma taken_up {A E} i (m : step SimEngine A E) what w :
  (∀ e, transport (m e).1 = transport e) →
  up_moves i w (let '(w, r) := engine_call i m (arm_storage i w) in maybe_kill i (event i (what r) w)).
Proof.
  intros Ht. pose proof (call_up i m (arm_storage i w) Ht) as Hc. destruct (engine_call i m (arm_storage i w)) as [w2 r]. cbn [fst] in Hc.
  eapply up_trans; [apply arm_up|]. eapply up_trans; [exact Hc|]. eapply up_trans; [|apply kill_up]. by apply up_stays.
Qed.

Lemma deliver_batches_online i bs w : all_online w → all_online (fold_left (deliver_batch i) bs w).
Proof.
  revert w. induction bs as [|b bs IH]; intros w Hon; [done|]. rewrite fold_left_step. apply IH. eapply moves_online; [|exact Hon].
  unfold deliver_batch. apply (taken_up i (apply_batch b) (λ r, match r with
     | Some (Ok applied) => if AppliedBatch.diverged applied then "applied-diverged" else "applied"
     | _ => "apply-refused" end)). apply apply_batch_transport.
Qed.

Lemma deliver_online w f : all_online w → all_online (deliver w f).
Proof.
  intros Hon. unfold deliver. destruct (InFlight.response f) as [[|response|response|]|e]; try exact Hon.
  - by apply deliver_batches_online.
  - eapply moves_online; [|exact Hon]. apply (taken_up (InFlight.device f) (apply_results response) (λ r, match r with
     | Some (Ok _) => "results-applied" | _ => "results-refused" end)). apply apply_results_transport.
Qed.

Lemma deliver_due_online w : all_online w → all_online (deliver_due w).
Proof.
  intros Hon. unfold deliver_due. set (due := filter _ _). set (w1 := set_in_flight _ w).
  assert (all_online w1) as Hon1 by exact Hon. clearbody due w1. revert w1 Hon1. induction due as [|f due IH]; intros w1 Hon1; [done|].
  rewrite fold_left_step. apply IH. by apply deliver_online.
Qed.
End online.

(** ** A quiet turn *)

Section turning.
Context `{Hashes} `{Codec}.
Variables (σ : ScopeId.t) (η : EntityName.t).

Lemma no_chance w : draw_chance 0 w = (set_rng (rng w) w, false).
Proof. done. Qed.

Lemma flap_up i w : rates w = FaultRates.none → moves stays_up i w (flap_step i w).
Proof.
  intros Hr. unfold flap_step. destruct (devices w !! i) as [d|]; [|by apply up_stays].
  destruct (_ && _); [by apply up_device|]. destruct (_ =? 0); [|by apply up_stays].
  rewrite Hr. change (FaultRates.connectivity_flap FaultRates.none) with 0. rewrite no_chance. by apply up_stays.
Qed.

Lemma send_up i req w : moves stays_up i w (send i req w).
Proof. apply up_device. intros d. unfold online. cbn. by destruct (SimTransport.online _) eqn:E; cbn; rewrite ?E. Qed.

Lemma push_up i w : moves stays_up i w (push_step i w).
Proof.
  unfold push_step. pose proof (call_up i (build_push protocol 100000) w (build_push_transport protocol 100000)) as Hc.
  destruct (engine_call i _ w) as [w1 r]. cbn [fst] in Hc. destruct r as [[[req|]|]|]; try exact Hc.
  case_bool_decide; [exact Hc|]. eapply up_trans; [exact Hc|apply send_up].
Qed.

Lemma online_sends d req :
  online d →
  let d' := Device.with_transport (λ t, (transport_enqueue t req).1) d in online d' ∧ req ∈ requests d'.
Proof.
  unfold online, requests. cbn. intros ->. cbn. split; [done|]. rewrite fmap_app. apply elem_of_app. right. by left.
Qed.

(** An online device's pull is sent, from the cursor it has stored. *)
Lemma pull_quiet s i w d :
  in_world σ η w → devices w !! i = Some d → online d → device_ok σ η s i d →
  ∃ d', devices (pull_step i w) !! i = Some d' ∧ online d' ∧ pull_of σ d' ∈ requests d'.
Proof.
  intros Hw Hd Hon Hok. unfold pull_step. rewrite Hd, (proj1 Hw). pose proof (device_inv _ _ _ _ _ Hok) as Hinv.
  assert (Hsend : ∀ w1 d1, in_world σ η w1 → devices w1 !! i = Some d1 → online d1 → client_inv (Device.engine d1) →
    needs_reload σ (Device.engine d1) = false →
    ∃ d', devices (send i (Pull (pull_request w1 (Device.engine d1))) w1) !! i = Some d' ∧ online d' ∧ pull_of σ d' ∈ requests d').
  { intros w1 d1 Hw1 Hd1 Hon1 Hinv1 Hn1. eexists. cbn [send on_device devices set_devices]. split; [by rewrite list_lookup_alter_eq, Hd1|].
    destruct (online_sends d1 (Pull (pull_request w1 (Device.engine d1))) Hon1) as [Hup Hin]. split; [exact Hup|].
    set (d' := Device.with_transport _ d1) in *. rewrite (pull_request_of σ η w1 d1) in Hin by done. exact Hin. }
  destruct (needs_reload σ (Device.engine d)) eqn:Hn.
  2:{ cbn [negb]. rewrite Hd. by apply Hsend. }
  unfold engine_call. rewrite Hd. pose proof (reload_reads σ (Device.engine d)) as Hread.
  pose proof (reload_scope_transport σ (Device.engine d)) as Ht.
  destruct (reload_scope σ (Device.engine d)) as [e r] eqn:Hr. cbn [fst snd] in *. subst r. cbn [negb].
  assert (devices (on_device i (Device.set_engine e) w) !! i = Some (Device.set_engine e d)) as Hd1
    by (cbn; by rewrite list_lookup_alter_eq, Hd).
  rewrite Hd1. apply Hsend; [done|done|unfold online; cbn; by rewrite Ht|by eapply reload_scope_inv|].
  eapply (needs_reload_false σ); [exact Hr|done|apply Hinv].
Qed.

Lemma turn_quiet i w d :
  in_world σ η w → quiet w = true → rates w = FaultRates.none → devices w !! i = Some d → online d →
  device_ok σ η (server w) i d → Device.commands_authored d < u32_mod →
  moves stays_up i w (device_step i w) ∧
  ∃ d', devices (device_step i w) !! i = Some d' ∧ online d' ∧ pull_of σ d' ∈ requests d'.
Proof.
  intros Hw Hq Hr Hd Hon Hok Hn. unfold device_step.
  pose proof (flap_up i w Hr) as Hup. pose proof (flap_moves σ η (server w) i w) as Hm. set (w1 := flap_step i w) in *.
  pose proof (moves_frame _ _ _ _ Hm) as Hf. rewrite (framed_rates _ _ Hf), Hr.
  change (FaultRates.device_restart FaultRates.none) with 0. rewrite no_chance. set (w2 := set_rng (rng w1) w1).
  replace (quiet w2) with true by (cbn; by rewrite (framed_quiet _ _ Hf)).
  destruct (moves_at _ _ _ _ Hm d Hd) as (d1 & Hd1 & Ha1 & _). destruct (Ha1 Hok ltac:(lia)) as (Hok1 & _ & _ & Hn1).
  pose proof (push_up i w2) as Hup3. pose proof (push_moves σ η (server w) i w2) as Hm3. set (w3 := push_step i w2) in *.
  destruct (moves_at _ _ _ _ Hm3 d1 Hd1) as (d3 & Hd3 & Ha3 & _). destruct (Ha3 Hok1 ltac:(lia)) as (Hok3 & _ & _ & Hn3).
  assert (Hup13 : moves stays_up i w w3) by (eapply up_trans; [exact Hup|]; eapply up_trans; [|exact Hup3]; by apply up_stays).
  destruct (moves_at _ _ _ _ Hup13 d Hd) as (d3' & Hd3' & Hon3). rewrite Hd3 in Hd3'. injection Hd3' as <-.
  assert (Hw3 : in_world σ η w3).
  { eapply framed_world; [apply Hup13|exact Hw]. }
  destruct (pull_quiet (server w) i w3 d3 Hw3 Hd3 (Hon3 Hon) Hok3) as (d4 & Hd4 & Hon4 & Hin). split; [|by exists d4].
  pose proof (pull_moves σ η (server w) i w3 Hw3) as Hm4. split.
  - etransitivity; [apply Hup13|apply Hm4].
  - intros j Hj. rewrite (moves_other _ _ _ _ Hm4 j Hj). by apply Hup13.
  - intros d' Hd'. exists d4. split; [done|]. by intros _.
Qed.
End turning.
