(* ===== verification/WorldArrive.v ===== *)
(** * WorldArrive: with the faults off, every device reaches what the server has shown.

    Two quiet steps are enough for a device to ask, be answered and take the answer; so the
    entries it misses are one fewer, and as many pairs of steps as entries missed bring it to
    the head. *)

From S2P Require Import Prelude Errors Nums Ids Json Wire Integrity Core Registry Migrate Outbox.
From S2P Require Import Storage SimStorage Apply Engine EngineFacts EngineSteps Place Ledger.
From S2P Require Import Server Rng FaultMenu Pressure SimServer SimServerFacts SimReads SimFeed.
From S2P Require Import Invariants InvariantFacts Trace World Deliveries WorldDevices WorldServer WorldSteps.
From S2P Require Import WorldCarry WorldSound WorldPhases WorldClean WorldRuns WorldQuiet.
From stdpp Require Import options.

(** ** What the network leaves *)

Section carrying.
Context `{Hashes} `{Codec}.

(** What is in flight stays in flight, and nobody goes offline. *)
Definition passes (w w' : World) : Prop :=
  (∀ f, f ∈ in_flight w → f ∈ in_flight w') ∧ (all_online w → all_online w').
#[export] Instance passes_preorder : PreOrder passes.
Proof. split; [done|]. intros x y z [Hf Ho] [Hf' Ho']. split; auto. Qed.

Lemma passes_same w w' : (∀ f, f ∈ in_flight w → f ∈ in_flight w') → devices w' = devices w → passes w w'.
Proof. intros Hf Hd. split; [done|]. unfold all_online. by rewrite Hd. Qed.
Lemma passes_still w w' : in_flight w' = in_flight w → devices w' = devices w → passes w w'.
Proof. intros Hf Hd. apply passes_same; [intros f; by rewrite Hf|done]. Qed.
Lemma passes_framed w w' : framed w w' → devices w' = devices w → passes w w'.
Proof. intros Hf Hd. apply passes_still; [apply Hf|done]. Qed.
Lemma passes_device i f w : (∀ d, online d → online (f d)) → passes w (on_device i f w).
Proof. intros Hf. split; [done|]. eapply moves_online. by apply up_device. Qed.
Lemma passes_posted f w : passes w (set_in_flight (λ l, l ++ f) w).
Proof. apply passes_same; [|done]. intros g Hg. cbn. apply elem_of_app. by left. Qed.

Lemma answer_passes i violate req w : passes w (answer i violate req w).1.
Proof.
  unfold answer. destruct req as [req|req|req]; [by apply passes_still|..].
  - destruct violate; [destruct (repeat_last_change _) as [? []]|]; by apply passes_still.
  - destruct (Pressure.accept_count _ _) as [p n], (push_prefix _ _ _ _) as [[s r] pushed].
    destruct violate; [destruct (repeat_last_result pushed) as [? []]|]; by apply passes_still.
Qed.

Lemma post_passes i f response w : passes w (post i f response w).
Proof.
  unfold post. destruct (draw_range_frame (FaultRates.latency_ms (rates w)).1 (FaultRates.latency_ms (rates w)).2 w) as [Hf Hd].
  destruct (draw_range _ _ w) as [w1 lat]. cbn [fst] in *.
  transitivity w1; [by apply passes_framed|]. destruct f as [[]|]; try apply passes_posted; [|by apply passes_still].
  destruct (draw_range_frame 1 500 w1) as [Hf1 Hd1]. destruct (draw_range 1 500 w1) as [w2 more]. cbn [fst] in *.
  transitivity w2; [by apply passes_framed|apply passes_posted].
Qed.

Lemma carry_request_passes i w out : passes w (carry_request i w out).
Proof.
  unfold carry_request. destruct (devices w !! i) as [d|]; [|done]. set (n := Device.requests_sent d + 1).
  set (w1 := on_device i _ w). assert (passes w w1) as H1 by by apply passes_device.
  destruct (decide_response (rng w1) (rates w1) n) as [r f].
  set (w2 := match f with Some f => fault i f (set_rng r w1) | None => set_rng r w1 end).
  assert (passes w w2) as Hp2 by (etransitivity; [exact H1|]; unfold w2; by destruct f).
  case_bool_decide; [done|]. destruct (draw_chance_frame (FaultRates.protocol_violation (rates w2)) w2) as [Hf3 Hd3].
  destruct (draw_chance _ w2) as [w3 violate]. cbn [fst] in *. pose proof (answer_passes i violate out.2 w3) as H4.
  destruct (answer i violate out.2 w3) as [w4 [response|]]; cbn [fst] in H4;
    (transitivity w2; [done|transitivity w3; [by apply passes_framed|]]); [|done].
  transitivity w4; [done|]. apply (post_passes i f).
Qed.

Lemma carry_all_passes i outs w : passes w (fold_left (carry_request i) outs w).
Proof.
  revert w. induction outs as [|out outs IH]; intros w; [done|]. rewrite fold_left_step.
  etransitivity; [apply carry_request_passes|apply IH].
Qed.

Lemma carry_device_passes w i : passes w (carry_device w i).
Proof.
  unfold carry_device. destruct (devices w !! i) as [d|] eqn:Hd; [|done]. unfold SimTransport.drain.
  etransitivity; [|apply carry_all_passes]. split; [done|]. eapply moves_online.
  apply on_device_moves. intros d' Hd'. rewrite Hd in Hd'. injection Hd' as <-. by unfold stays_up, online.
Qed.
Lemma carry_devices_passes ks w : passes w (fold_left carry_device ks w).
Proof.
  revert w. induction ks as [|k ks IH]; intros w; [done|]. rewrite fold_left_step.
  etransitivity; [apply carry_device_passes|apply IH].
Qed.

Lemma release_passes hs w : passes w (fold_left release hs w).
Proof.
  revert w. induction hs as [|h hs IH]; intros w; [done|]. rewrite fold_left_step. etransitivity; [|apply IH].
  unfold release. destruct (draw_range_frame 1 900 w) as [Hf Hd]. destruct (draw_range 1 900 w) as [w1 more]. cbn [fst] in *.
  transitivity w1; [by apply passes_framed|apply passes_posted].
Qed.
Lemma carry_network_passes w : passes w (carry_network w).
Proof.
  unfold carry_network. etransitivity; [apply (carry_devices_passes (seq 0 (length (devices w))))|].
  set (w1 := fold_left _ _ w). etransitivity; [|apply release_passes]. by apply passes_still.
Qed.
End carrying.

(** ** What the server shows *)

Section showing.
Context `{Hashes} `{Codec}.
Variable σ : ScopeId.t.

Lemma visible_head_nonneg s : server_wf s → 0 ≤ visible_head s σ.
Proof.
  intros Hw. destruct (visible_head_spec s σ Hw) as [_ [->|(e & He & <-)]]; [done|].
  pose proof (entries_wf s σ Hw) as Hr. rewrite Forall_forall in Hr. destruct (Hr e He). lia.
Qed.

(** What was shown stays shown. *)
Lemma visible_head_grows s s' : server_wf s → server_wf s' → grows s s' → visible_head s σ ≤ visible_head s' σ.
Proof.
  intros Hw Hw' Hg. destruct (visible_head_spec s σ Hw) as [Hv [->|(e & He & Heq)]]; [by apply visible_head_nonneg|].
  assert (visible_head s σ < next_seq s) as Hlt.
  { pose proof (entries_wf s σ Hw) as Hr. rewrite Forall_forall in Hr. destruct (Hr e He). lia. }
  pose proof (grows_upto s s' σ _ Hg Hlt) as Hu.
  assert (Hall : Forall (λ x, LogEntry.visible x = true) (upto s' σ (visible_head s σ))).
  { eapply shown_visible; [exact Hu|]. apply Forall_forall. intros x [Hle Hx]%list_elem_of_filter. by apply Hv. }
  assert (e ∈ upto s σ (visible_head s σ)) as [i Hi]%list_elem_of_lookup by (apply list_elem_of_filter; split; [lia|done]).
  destruct (Forall2_lookup_l _ _ _ _ _ Hu Hi) as (e' & Hi' & Hsh). destruct (shown_entry _ _ Hsh) as [Hs _].
  apply list_elem_of_lookup_2, list_elem_of_filter in Hi' as [_ He'].
  rewrite <- Heq, <- Hs in Hall |- *. by apply visible_head_reaches.
Qed.
End showing.

(** ** Asking in a quiet world *)

Section asking.
Context `{Hashes} `{Codec} `{!CodecArrays}.
Hypothesis Henc : ∀ c : Change.t, encodable c.
Variables (σ : ScopeId.t) (η : EntityName.t).
Abbreviation sound := (WorldSound.sound σ η).

(** A pull is answered and its answer is due ten milliseconds later. *)
Lemma pull_answered i d w id c :
  devices w !! i = Some d → rates w = FaultRates.none →
  ∃ f budget, f ∈ in_flight (carry_request i w (id, Pull (PullRequest.mk protocol [ScopeCursor.mk σ c] None))) ∧
    InFlight.device f = i ∧ InFlight.deliver_at_ms f = now_ms w + 10 ∧
    carried f = [pull_scope (server w) PULL_LIMIT budget (ScopeCursor.mk σ c)].
Proof.
  intros Hd Hr. unfold carry_request. rewrite Hd. cbn [rates on_device set_devices]. rewrite Hr, response_quiet.
  rewrite bool_decide_eq_false_2 by done.
  set (w1 := set_rng _ _). assert (rates w1 = FaultRates.none) as Hr1 by exact Hr. rewrite Hr1.
  change (FaultRates.protocol_violation FaultRates.none) with 0. rewrite no_chance.
  cbn [answer snd]. set (w2 := set_rng (rng w1) w1). assert (rates w2 = FaultRates.none) as Hr2 by exact Hr. rewrite Hr2.
  eexists (InFlight.mk i (now_ms w + 10) _), _. split; [cbn; apply elem_of_app; right; by left|]. by split_and!.
Qed.

(** The answer to what a device asks. *)
Definition answered (i : nat) (d : Device.t) (s : Server) (t : Z) (f : InFlight.t) : Prop :=
  InFlight.device f = i ∧ InFlight.deliver_at_ms f = t ∧
  ∃ s1 budget, server_ok σ η s1 ∧ seqs_fit s1 ∧ grows s s1 ∧
    carried f = [pull_scope s1 PULL_LIMIT budget (ScopeCursor.mk σ (stored_cursor (stored d) σ))].

Lemma carry_device_answers i d w :
  sound (queue w) w → devices w !! i = Some d → batches_for i (held w) = [] → asks σ d → pull_of σ d ∈ requests d →
  rates w = FaultRates.none → next_seq (server w) + 512 ≤ SEQ_MAX + 1 →
  ∃ f, f ∈ in_flight (carry_device w i) ∧ answered i d (server w) (now_ms w + 10) f.
Proof using All.
  intros Hs Hd Hheld Hask Hin Hr Hroom. unfold carry_device. rewrite Hd. unfold SimTransport.drain.
  set (t := SimTransport.mk [] _ _). set (w1 := on_device i _ w).
  set (d1 := Device.with_transport (λ _, t) d). assert (devices w1 !! i = Some d1) as Hd1 by (cbn; by rewrite list_lookup_alter_eq, Hd).
  assert (Hm : moves (λ a b, b = Device.with_transport (λ _, t) a) i w w1) by by apply on_device_moves.
  destruct (sound_moves σ η _ 0 i (queue w) w w1 (Z.le_refl 0) Hm) as [Hs1 _]; [|exact Hs|].
  { intros a b _ Hok ->. destruct (calm_transport σ η (server w) i (λ _, t) a Hok) as (? & ? & ? & ?).
    split; [by split_and!|]. split; [done|cbn; lia]. }
  destruct Hask as (ps & qs & Houts & Hps & Hqs). rewrite Houts in Hin. apply elem_of_app in Hin as [Hin|Hin].
  { destruct Hps as [->|(req & -> & _)]; [by apply not_elem_of_nil in Hin|]. by apply list_elem_of_singleton in Hin. }
  destruct Hqs as [->|Hqs]; [by apply not_elem_of_nil in Hin|]. rewrite Hqs in Houts.
  unfold requests in Houts. apply fmap_app_inv in Houts as (l1 & l2 & Hp & Hq & ->). symmetry in Hp, Hq.
  destruct l2 as [|[id req] [|? ?]]; [done| |done]. injection Hq as ->. rewrite fold_left_app. cbn [fold_left].
  destruct (carry_requests Henc σ η i d1 w1 l1) as [Hs2 Hc2]; [exact Hs1|done|done| |done|].
  { exists ps, []. rewrite app_nil_r. auto. }
  set (w2 := fold_left _ l1 w1) in *. destruct (carries_at σ η _ _ _ _ Hc2 d1 Hd1) as (d2 & Hd2 & Hv2 & _).
  destruct (carries_settings σ η _ _ _ _ Hc2) as (_ & _ & Hr2 & Hn2 & _). cbn in Hr2, Hn2. rewrite Hr in Hr2.
  destruct (pull_answered i d2 w2 id (stored_cursor (stored d) σ) Hd2 Hr2) as (f & budget & Hf & Hi & Ht & Hb).
  exists f. split; [exact Hf|]. split; [done|]. split; [congruence|]. exists (server w2), budget.
  destruct (carries_served σ η _ _ _ _ Hc2) as (Hok & Hg & Hn). cbn in Hg, Hn. split; [done|]. split; [unfold seqs_fit; lia|done].
Qed.
Lemma network_answers i d w :
  sound (queue w) w → held w = [] → (∀ i d, devices w !! i = Some d → asks σ d) →
  next_seq (server w) + 512 * Z.of_nat (length (devices w)) ≤ SEQ_MAX + 1 →
  rates w = FaultRates.none → devices w !! i = Some d → pull_of σ d ∈ requests d →
  ∃ f, f ∈ in_flight (carry_network w) ∧ answered i d (server w) (now_ms w + 10) f.
Proof using All.
  intros Hs Hheld Hask Hroom Hr Hd Hin. pose proof (lookup_lt_Some _ _ _ Hd) as Hlt.
  destruct (networked_upto Henc σ η w i Hs Hheld Hask ltac:(lia) Hroom) as [Hs1 Hset Hv _ Hdev Hh _].
  set (w1 := fold_left carry_device (seq 0 i) w) in *. destruct Hset as (_ & _ & Hr1 & Hn1 & _). rewrite Hr in Hr1.
  destruct (Hdev i d Hd) as (d' & Hd1 & He). destruct (Nat.ltb_spec i i); [lia|]. subst d'.
  destruct Hv as (Hok & Hg & Hseq).
  destruct (carry_device_answers i d w1) as (f & Hf & Hi & Ht & s1 & budget & Hok1 & Hfit & Hg1 & Hb);
    [done|done|by apply Hh|by eapply Hask|done|done|lia|].
  exists f. split; [|split; [done|split; [congruence|]]; exists s1, budget; split_and!; [done|done|by etransitivity|done]].
  unfold carry_network. replace (length (devices w)) with (i + S (length (devices w) - S i))%nat by lia.
  rewrite seq_app, fold_left_app. cbn [seq Nat.add]. fold w1. rewrite fold_left_step.
  set (w2 := fold_left carry_device _ (carry_device w1 i)). apply release_passes. cbn [in_flight set_held].
  by apply carry_devices_passes.
Qed.

(** The turns of a quiet world leave every device asking. *)
Lemma turns_ask q w k :
  sound q w → idle w → room w → quiet w = true → rates w = FaultRates.none → all_online w →
  (k ≤ length (devices w))%nat →
  let w' := fold_left (λ w i, device_step i w) (seq 0 k) w in
  all_online w' ∧ ∀ i d, (i < k)%nat → devices w' !! i = Some d → pull_of σ d ∈ requests d.
Proof using All.
  intros Hs Hidle Hroom Hq Hr Hon Hk. cbv zeta. induction k as [|k IH]; [split; [done|lia]|]. destruct IH as [IHo IHd]; [lia|].
  rewrite seq_S, fold_left_app. cbn [fold_left Nat.add].
  destruct (turns_upto Henc σ η q w k Hs Hidle Hroom) as (Hs1 & Hf1 & Hd1). set (w1 := fold_left _ (seq 0 k) w) in *.
  destruct (lookup_lt_is_Some_2 (devices w) k) as [d Hdk]; [lia|].
  destruct (Hd1 k d Hdk) as (d' & Hdk' & He). destruct (Nat.ltb_spec k k); [lia|]. subst d'.
  destruct (turn_quiet σ η k w1 d) as (Hup & d' & Hd' & Hon' & Hin).
  - apply (sound_world _ _ _ _ Hs1).
  - by rewrite (framed_quiet _ _ Hf1).
  - by rewrite (framed_rates _ _ Hf1).
  - done.
  - by eapply IHo.
  - by eapply sound_device.
  - specialize (Hroom k d Hdk). lia.
  - split; [by eapply moves_online; [|exact IHo]|]. intros i di Hi Hdi. destruct (decide (i = k)) as [->|Hne]; [congruence|].
    rewrite (moves_other _ _ _ _ Hup i Hne) in Hdi. apply (IHd i); [lia|done].
Qed.

(** ** A quiet step *)

Record calm_world (w : World) : Prop := MkCalmWorld {
  calm_quiet : quiet w = true;
  calm_rates : rates w = FaultRates.none;
  calm_online : all_online w;
}.

Lemma before_turns_calm n w : world_ok σ η (S n) w → calm_world w → calm_world (before_turns w).
Proof using All.
  intros Hok [Hq Hr Hon]. destruct (before_turns_ok Henc σ η n w Hok) as (_ & He & _).
  destruct (evolves_settings _ _ _ _ _ He) as (_ & _ & Hr' & _ & Hq' & _). split; [by rewrite Hq'|by rewrite Hr'|].
  unfold before_turns. set (w2 := set_devices _ _).
  destruct (server_turn_aside σ η w2) as [Hn _]; [apply (ok_sound _ _ _ _ Hok)|]. destruct Hn as (_&_&_&_&_&_&_&Hd&_).
  intros i d. rewrite Hd. cbn. rewrite list_lookup_fmap. intros (d0 & Hd0 & ->)%fmap_Some. by eapply (Hon i d0).
Qed.

(** What a device asked for in its turn is in flight when the deliveries start. *)
Lemma before_network_calm n w :
  world_ok σ η (S n) w → calm_world w →
  calm_world (before_network w) ∧
  ∀ i d, devices (before_network w) !! i = Some d → pull_of σ d ∈ requests d.
Proof using All.
  intros Hok Hcalm. pose proof (before_turns_calm n w Hok Hcalm) as [Hq Hr Hon].
  destruct (before_turns_ok Henc σ η n w Hok) as (Hs & _ & Hidle & Hroom & _). unfold before_network.
  set (w3 := before_turns w) in *.
  destruct (turns_ask _ w3 (length (devices w3)) Hs Hidle Hroom Hq Hr Hon (le_n _)) as [Hon4 Hask].
  destruct (turns_sound Henc σ η _ w3 Hs Hidle Hroom) as (_ & _ & Hf & _). set (w4 := fold_left _ _ w3) in *.
  split; [split; [by rewrite (framed_quiet _ _ Hf)|by rewrite (framed_rates _ _ Hf)|done]|].
  intros i d Hi. apply (Hask i d); [|done]. rewrite <- (framed_length _ _ Hf). by eapply lookup_lt_Some.
Qed.
Lemma step_calm n w : world_ok σ η (S n) w → calm_world w → calm_world (world_step w).
Proof using All.
  intros Hok Hcalm. destruct (world_step_ok Henc σ η n w Hok) as (_ & Hr & Hq & _). pose proof Hcalm as [Hq0 Hr0 _].
  split; [congruence..|]. destruct (before_network_calm n w Hok Hcalm) as [[_ _ Hon] _].
  rewrite world_step_checks. destruct (check_world_frame (before_check w)) as (Hd & _). unfold all_online. rewrite Hd.
  apply deliver_due_online. by apply carry_network_passes.
Qed.

(** What the deliveries of a step do, from the flights they find. *)
Lemma deliver_due_split w5 due waiting :
  in_flight w5 = due ++ waiting →
  Forall (λ f, InFlight.deliver_at_ms f ≤ now_ms w5) due → Forall (λ f, now_ms w5 < InFlight.deliver_at_ms f) waiting →
  deliver_due w5 = fold_left deliver due (set_in_flight (λ _, waiting) w5).
Proof.
  intros Hf Hdue Hwait. unfold deliver_due. rewrite Hf, !filter_app.
  rewrite (filter_all _ due) by done. rewrite (filter_none _ waiting) by (eapply Forall_impl; [exact Hwait|]; simpl; lia).
  rewrite (filter_none _ due) by (eapply Forall_impl; [exact Hdue|]; simpl; lia).
  rewrite (filter_all _ waiting) by (eapply Forall_impl; [exact Hwait|]; simpl; lia). by rewrite app_nil_r.
Qed.

Lemma at_delivery_split w w5 : at_delivery σ η w w5 → ∃ due waiting, in_flight w5 = due ++ waiting ∧
  Forall (λ f, InFlight.deliver_at_ms f ≤ now_ms w5) due ∧ Forall (λ f, now_ms w5 < InFlight.deliver_at_ms f) waiting.
Proof.
  intros [_ _ _ _ _ _ _ (due & next & late & Hf & Hdue & Hnext & Hlate)]. exists due, (next ++ late). split; [done|]. split; [done|].
  unfold step_after, STEP_MS in *. apply Forall_app. split; (eapply Forall_impl; [eassumption|]); simpl; lia.
Qed.

(** What is not due yet is there after the step. *)
Lemma flight_waits n w f :
  world_ok σ η (S n) w → f ∈ in_flight (carry_network (before_network w)) → now_ms w + STEP_MS < InFlight.deliver_at_ms f →
  f ∈ in_flight (world_step w).
Proof using All.
  intros Hok Hf Ht. rewrite world_step_checks. destruct (check_world_frame (before_check w)) as (_ & _ & -> & _).
  pose proof (network_delivers Henc σ η n w Hok) as Hat. unfold before_check. set (w5 := carry_network _) in *.
  destruct (at_delivery_split w w5 Hat) as (due & waiting & Hfl & Hdue & Hwait).
  pose proof Hat as [Hs5 _ _ _ Hroom5 _ Hnow5 _]. rewrite (deliver_due_split w5 due waiting Hfl Hdue Hwait).
  destruct (deliver_all Henc σ η due waiting (set_in_flight (λ _, waiting) w5)) as [_ [_ Hfr _]].
  { rewrite Hfl in Hs5. eapply (sound_stays σ η _ w5); [unfold settings; by split_and!|done|done|done]. }
  { exact Hroom5. }
  rewrite (framed_in_flight _ _ Hfr). cbn [in_flight set_in_flight]. rewrite Hfl in Hf. apply elem_of_app in Hf as [Hf|]; [|done].
  rewrite Forall_forall in Hdue. specialize (Hdue f Hf). lia.
Qed.

(** What is due in a quiet step is taken. *)
Lemma flight_taken n w c f b :
  world_ok σ η (S n) w → calm_world w → f ∈ in_flight w → InFlight.deliver_at_ms f ≤ now_ms w + STEP_MS →
  is_Some (devices w !! InFlight.device f) → b ∈ carried f → moves_past c b → c ≤ cursor_at σ w (InFlight.device f) →
  c < cursor_at σ (world_step w) (InFlight.device f).
Proof using All.
  intros Hok Hcalm Hf Ht Hd Hb Hpast Hc. set (i := InFlight.device f) in *.
  pose proof (network_delivers Henc σ η n w Hok) as Hat.
  assert (f ∈ in_flight (carry_network (before_network w))) as Hf5.
  { apply carry_network_passes. destruct (before_network_ok Henc σ η n w Hok) as (_ & _ & _ & -> & _). done. }
  rewrite world_step_checks. unfold cursor_at. destruct (check_world_frame (before_check w)) as (-> & _). fold (cursor_at σ (before_check w) i).
  unfold before_check. set (w5 := carry_network _) in *.
  destruct (at_delivery_split w w5 Hat) as (due & waiting & Hfl & Hdue & Hwait).
  pose proof Hat as [Hs5 He5 _ _ Hroom5 _ Hnow5 _]. rewrite (deliver_due_split w5 due waiting Hfl Hdue Hwait).
  assert (Hin : f ∈ due).
  { rewrite Hfl in Hf5. apply elem_of_app in Hf5 as [|Hin]; [done|]. rewrite Forall_forall in Hwait. specialize (Hwait f Hin). lia. }
  apply (deliver_all_quiet Henc σ η c f b due waiting); try done.
  - rewrite Hfl in Hs5. eapply (sound_stays σ η _ w5); [unfold settings; by split_and!|done|done|done].
  - destruct (evolves_settings _ _ _ _ _ He5) as (_ & _ & Hr5 & _). cbn. rewrite Hr5. apply Hcalm.
  - cbn. rewrite lookup_lt_is_Some in *. by rewrite <- (Forall2_length _ _ _ (evolves_devices _ _ _ _ _ He5)).
  - change (c ≤ cursor_at σ w5 i). etransitivity; [exact Hc|].
    exact (cursor_mono Henc σ η _ _ _ _ _ i He5 Hs5).
Qed.
(** An answer to a cursor below what was shown then takes a device past it. *)
Lemma answered_past s i d t f :
  server_ok σ η s → device_ok σ η s i d → answered i d s t f →
  Cursor.get (stored_cursor (stored d) σ) < visible_head s σ →
  ∃ b, b ∈ carried f ∧ moves_past (Cursor.get (stored_cursor (stored d) σ)) b.
Proof using All.
  intros Hs [_ _ _ Hst _] (_ & _ & s1 & budget & Hs1 & Hfit & Hg & ->) Hlt. eexists. split; [by left|].
  set (c := stored_cursor (stored d) σ) in *. destruct (standing_grows σ s s1 (stored d) Hg Hst) as [[Hwf Hnext] _ _ _ _].
  fold c in Hwf, Hnext.
  assert (visible_head s σ ≤ visible_head s1 σ) as Hvis by (apply visible_head_grows; [apply Hs|apply Hs1|done]).
  split.
  - eapply (pulled_in_order Henc σ η s1); [done|]. by apply pull_pulled; [apply Hs1|..|apply Hs1| |].
  - apply guarded_pull_moves; [apply Hs1|done|apply Hs1|done|unfold PULL_LIMIT; lia| |lia].
    apply Forall_forall. intros e _. apply Henc.
Qed.

(** No cursor goes back between the turns and the end of the step. *)
Lemma after_turns n w i : world_ok σ η (S n) w → cursor_at σ (before_network w) i ≤ cursor_at σ (world_step w) i.
Proof using All.
  intros Hok. pose proof (network_delivers Henc σ η n w Hok) as Hat. rewrite world_step_checks. unfold cursor_at at 2.
  destruct (check_world_frame (before_check w)) as (-> & _). fold (cursor_at σ (before_check w) i). unfold before_check.
  set (w5 := carry_network _) in *. destruct (at_delivery_split w w5 Hat) as (due & waiting & Hfl & Hdue & Hwait).
  pose proof Hat as [Hs5 _ He5 _ Hroom5 _ _ _]. rewrite (deliver_due_split w5 due waiting Hfl Hdue Hwait).
  destruct (deliver_all Henc σ η due waiting (set_in_flight (λ _, waiting) w5)) as [Hs6 [He6 _ _]].
  { rewrite Hfl in Hs5. eapply (sound_stays σ η _ w5); [unfold settings; by split_and!|done|done|done]. }
  { exact Hroom5. }
  pose proof (cursor_mono Henc σ η _ _ _ _ _ i He5 Hs5) as H5. pose proof (cursor_mono Henc σ η _ _ _ _ _ i He6 Hs6) as H6.
  change (cursor_at σ (set_in_flight _ w5) i) with (cursor_at σ w5 i) in H6. lia.
Qed.

Lemma asked_next n w i :
  world_ok σ η (S n) w → calm_world w → is_Some (devices w !! i) →
  ∃ c f, cursor_at σ w i ≤ c ≤ cursor_at σ (world_step w) i ∧ f ∈ in_flight (world_step w) ∧ InFlight.device f = i ∧
    InFlight.deliver_at_ms f ≤ now_ms (world_step w) + STEP_MS ∧
    (c < visible_head (server w) σ → ∃ b, b ∈ carried f ∧ moves_past c b).
Proof using All.
  intros Hok Hcalm [d Hd]. destruct (before_network_ok Henc σ η n w Hok) as (Hs4 & He4 & Hask & _ & Hh4).
  destruct (before_network_calm n w Hok Hcalm) as [Hcalm4 Hin4]. set (w4 := before_network w) in *.
  destruct (Forall2_lookup_l _ _ _ _ _ (evolves_devices _ _ _ _ _ He4) Hd) as (d4 & Hd4 & _).
  pose proof (Forall2_length _ _ _ (evolves_devices _ _ _ _ _ He4)) as Hlen. cbn in Hlen.
  pose proof (evolves_settings _ _ _ _ _ He4) as (_ & _ & _ & Hn4 & _). cbn in Hn4.
  destruct (network_answers i d4 w4) as (f & Hf & Hans); [done..| | | |by eapply Hin4|].
  { pose proof (evolves_seqs _ _ _ _ _ He4) as Hq. pose proof (ok_seqs _ _ _ _ Hok) as Hr. cbn in Hq. unfold step_entries in Hr. rewrite <- Hlen. lia. }
  { apply Hcalm4. }
  { done. }
  pose proof Hans as (Hi & Ht & _).
  assert (f ∈ in_flight (world_step w)) as Hf'.
  { eapply flight_waits; [done|exact Hf|]. lia. }
  destruct (before_check_stepped Henc σ η n w Hok) as [Hs6 _ _ _ Hn6 He6].
  assert (now_ms (world_step w) = now_ms w + STEP_MS) as Hnow.
  { rewrite world_step_checks. by destruct (check_world_frame (before_check w)) as (_ & _ & _ & _ & -> & _). }
  exists (Cursor.get (stored_cursor (stored d4) σ)), f. split_and!; [| |done|done| |].
  - pose proof (cursor_mono Henc σ η _ _ _ _ _ i He4 Hs4) as Hm. unfold cursor_at at 2 in Hm. by rewrite Hd4 in Hm.
  - rewrite <- (f_equal (λ o, match o with Some d => Cursor.get (stored_cursor (stored d) σ) | None => 0 end) Hd4). by eapply after_turns.
  - rewrite Hnow, Ht, Hn4. unfold STEP_MS. lia.
  - intros Hlt. eapply answered_past; [|eapply sound_device; [exact Hs4|exact Hd4]|exact Hans|].
    + eapply sound_server, Hs4.
    + eapply Z.lt_le_trans; [exact Hlt|]. apply visible_head_grows; [|eapply ok_wf, sound_server, Hs4|apply He4].
      eapply ok_wf, sound_server, (ok_sound _ _ _ _ Hok).
Qed.
(** Two quiet steps bring a device that is behind what is shown nearer to it. *)
Lemma two_steps n w i :
  world_ok σ η (S (S n)) w → calm_world w → is_Some (devices w !! i) → cursor_at σ w i < visible_head (server w) σ →
  cursor_at σ w i < cursor_at σ (world_step (world_step w)) i.
Proof using All.
  intros Hok Hcalm Hi Hlt. destruct (asked_next (S n) w i Hok Hcalm Hi) as (c & f & Hc & Hf & <- & Ht & Hb).
  destruct (world_step_ok Henc σ η (S n) w Hok) as (Hok1 & _ & _ & Hfw).
  pose proof (step_calm (S n) w Hok Hcalm) as Hcalm1. set (w1 := world_step w) in *. clearbody w1.
  destruct (world_step_ok Henc σ η n w1 Hok1) as (Hok2 & _ & _ & Hfw2).
  pose proof (cursor_forward Henc σ η _ _ _ _ (InFlight.device f) Hfw2 (ok_sound _ _ _ _ Hok2)) as Hm.
  destruct (Z.lt_ge_cases c (visible_head (server w) σ)) as [Hbelow|]; [|lia].
  destruct (Hb Hbelow) as (b & Hin & Hpast). eapply Z.le_lt_trans; [apply Hc|].
  eapply (flight_taken n w1 c f b); [done|done|done|done| |done|done|lia].
  rewrite lookup_lt_is_Some in *. by rewrite <- (Forall2_length _ _ _ Hfw).
Qed.
End asking.

(** ** Counting what is missing *)

Lemma length_filter_drop {A} (P Q : A → Prop) `{!∀ x, base.Decision (P x), !∀ x, base.Decision (Q x)} l x :
  (∀ y, Q y → P y) → x ∈ l → P x → ¬ Q x → (length (filter Q l) < length (filter P l))%nat.
Proof.
  intros Hqp Hin Hp Hq. rewrite <- (list_filter_filter_l Q P l) by exact Hqp.
  apply length_filter_lt with x; [apply list_elem_of_filter; by split|exact Hq].
Qed.

Section missing.
Context `{Hashes} `{Codec}.
Variable σ : ScopeId.t.

(** The entries past [c] that the server shows. *)
Definition missing (s : Server) (c : Z) : nat :=
  length (filter (λ e, c < seq_of e ≤ visible_head s σ) (entries s σ)).

Lemma missing_none s c : server_wf s → 0 ≤ c → missing s c = 0%nat → visible_head s σ ≤ c.
Proof.
  intros Hw Hc Hm. destruct (visible_head_spec s σ Hw) as [_ [Hz|(e & He & Heq)]]; [lia|].
  destruct (Z.le_gt_cases (visible_head s σ) c) as [|Hgt]; [done|]. exfalso. apply nil_length_inv in Hm.
  apply (not_elem_of_nil e). rewrite <- Hm. apply list_elem_of_filter. split; [lia|done].
Qed.

(** No more entries than seqs past the cursor. *)
Lemma sorted_seqs es c h :
  StronglySorted seq_lt es → Forall (λ e, c < seq_of e ≤ h) es → Z.of_nat (length es) ≤ Z.max 0 (h - c).
Proof.
  intros Hs. revert c. induction Hs as [|e es _ IH He]; intros c; [cbn; lia|]. intros [Hc Hes]%Forall_cons.
  specialize (IH (seq_of e)). cbn [length]. rewrite Nat2Z.inj_succ. unfold seq_lt in He.
  assert (Forall (λ x, seq_of e < seq_of x ≤ h) es) as Hall.
  { rewrite Forall_forall in *. intros x Hx. specialize (He x Hx). specialize (Hes x Hx). lia. }
  specialize (IH Hall). lia.
Qed.
Lemma missing_bound s c : server_wf s → Z.of_nat (missing s c) ≤ Z.max 0 (head s - c).
Proof.
  intros Hw. apply sorted_seqs; [apply sorted_filter, entries_sorted, Hw|]. apply Forall_forall.
  intros e [Hr He]%list_elem_of_filter. pose proof (entries_wf s σ Hw) as Hall. rewrite Forall_forall in Hall.
  destruct (Hall e He) as [? _]. unfold head. lia.
Qed.

Lemma missing_fewer s s' c c' :
  server_wf s → grows s s' → 0 ≤ c < c' → c < visible_head s σ → (∃ e, e ∈ entries s' σ ∧ seq_of e = c') →
  (missing s c' < missing s c)%nat.
Proof.
  intros Hw Hg Hc Hlt (e & He & Heq). unfold missing.
  assert (∃ x, x ∈ entries s σ ∧ c < seq_of x ≤ visible_head s σ ∧ ¬ c' < seq_of x) as (x & Hx & Hpx & Hqx).
  { destruct (visible_head_spec s σ Hw) as [_ [Hz|(h & Hh & Hseq)]]; [lia|].
    destruct (Z.le_gt_cases (visible_head s σ) c'); [exists h; split_and!; [done|lia..]|].
    assert (visible_head s σ < next_seq s) as Hn.
    { pose proof (entries_wf s σ Hw) as Hr. rewrite Forall_forall in Hr. destruct (Hr h Hh). lia. }
    destruct Hg as [_ Hg]. destruct (Hg σ) as (old & newer & Hnew & Hold & Hlate). rewrite Hnew in He.
    apply elem_of_app in He as [He|He]; [|rewrite Forall_forall in Hlate; specialize (Hlate e He); lia].
    apply list_elem_of_lookup in He as [k Hk]. destruct (Forall2_lookup_r _ _ _ _ _ Hold Hk) as (x & Hx & Hsh).
    destruct (shown_entry _ _ Hsh) as [Hs _]. exists x. split; [by eapply list_elem_of_lookup_2|]. lia. }
  eapply length_filter_drop; [|exact Hx|exact Hpx|]; [intros y Hy; cbn in *; lia|cbn; lia].
Qed.
End missing.

(** ** Arrival *)

Section arriving.
Context `{Hashes} `{Codec} `{!CodecArrays}.
Hypothesis Henc : ∀ c : Change.t, encodable c.
Variables (σ : ScopeId.t) (η : EntityName.t).

(** A cursor is at the start or at an entry. *)
Lemma cursor_placed n w i :
  world_ok σ η n w → 0 ≤ cursor_at σ w i ∧
  (0 < cursor_at σ w i → ∃ e, e ∈ entries (server w) σ ∧ seq_of e = cursor_at σ w i).
Proof using All.
  intros Hok. unfold cursor_at. destruct (devices w !! i) as [d|] eqn:Hi; [|by split; [|lia]].
  destruct (sound_device _ _ _ _ (ok_sound _ _ _ _ Hok) i d Hi) as [_ _ _ [[[Hwf _] _] Hp _ _ _] _]. split; [exact Hwf|].
  intros Hpos. destruct Hp as [Hp|Hp]; [rewrite Hp in Hpos; done|done].
Qed.

Lemma cursor_steps k n w i : world_ok σ η (k + n) w → cursor_at σ w i ≤ cursor_at σ (Nat.iter k world_step w) i.
Proof using All.
  intros Hok. destruct (world_steps_ok Henc σ η k n w Hok) as (Hok' & _ & _ & Hfw).
  exact (cursor_forward Henc σ η _ _ _ _ i Hfw (ok_sound _ _ _ _ Hok')).
Qed.

Lemma calm_steps k n w : world_ok σ η (k + n) w → calm_world w →
  world_ok σ η n (Nat.iter k world_step w) ∧ calm_world (Nat.iter k world_step w).
Proof using All.
  revert n. induction k as [|k IH]; intros n Hw Hc; [done|]. rewrite Nat.iter_succ.
  destruct (IH (S n)) as [Hw' Hc']; [by replace (k + S n)%nat with (S k + n)%nat by lia|done|].
  split; [by apply (world_step_ok Henc)|by eapply (step_calm Henc)].
Qed.

Lemma step_grows n w : world_ok σ η (S n) w → grows (server w) (server (world_step w)).
Proof using All.
  intros Hok. pose proof (before_check_stepped Henc σ η n w Hok) as Hst. rewrite world_step_checks.
  destruct (check_world_frame (before_check w)) as (_ & -> & _).
  exact (evolves_grows _ _ _ _ _ (stepped_evolves _ _ _ _ Hst)).
Qed.

Lemma steps_grow k n w : world_ok σ η (k + n) w → grows (server w) (server (Nat.iter k world_step w)).
Proof using All.
  revert n. induction k as [|k IH]; intros n Hw; [done|]. rewrite Nat.iter_succ.
  assert (world_ok σ η (k + S n) w) as Hw1 by by replace (k + S n)%nat with (S k + n)%nat by lia.
  etransitivity; [by apply (IH (S n))|]. apply (step_grows n). by apply (world_steps_ok Henc σ η k (S n)).
Qed.

(** As many pairs of quiet steps as entries missed. *)
Lemma arrives s k n w i :
  server_wf s → world_ok σ η (2 * k + n) w → calm_world w → grows s (server w) → is_Some (devices w !! i) →
  (missing σ s (cursor_at σ w i) ≤ k)%nat → visible_head s σ ≤ cursor_at σ (Nat.iter (2 * k) world_step w) i.
Proof using All.
  intros Hw. revert w. induction k as [|k IH]; intros w Hok Hcalm Hg Hi Hm.
  { apply missing_none; [done| |cbn in *; lia]. by apply (cursor_placed n w i). }
  destruct (Z.le_gt_cases (visible_head s σ) (cursor_at σ w i)) as [Hle|Hgt].
  { etransitivity; [exact Hle|]. by eapply cursor_steps. }
  replace (2 * S k)%nat with (S (S (2 * k))) in * by lia. rewrite !Nat.iter_succ_r.
  assert (visible_head s σ ≤ visible_head (server w) σ) as Hvis.
  { apply visible_head_grows; [done|eapply ok_wf, sound_server, (ok_sound _ _ _ _ Hok)|done]. }
  pose proof (two_steps Henc σ η (2 * k + n) w i Hok Hcalm Hi ltac:(lia)) as Htwo.
  pose proof (step_calm Henc σ η _ w Hok Hcalm) as Hcalm1. pose proof (step_grows _ w Hok) as Hg1.
  destruct (world_step_ok Henc σ η _ w Hok) as (Hok1 & _ & _ & Hfw1). set (w1 := world_step w) in *. clearbody w1.
  pose proof (step_calm Henc σ η _ w1 Hok1 Hcalm1) as Hcalm2. pose proof (step_grows _ w1 Hok1) as Hg2.
  destruct (world_step_ok Henc σ η _ w1 Hok1) as (Hok2 & _ & _ & Hfw2).
  assert (grows s (server (world_step w1))) as Hgr by (etransitivity; [exact Hg|by etransitivity]).
  set (w2 := world_step w1) in *. clearbody w2. apply IH; [done|done|done| |].
  - rewrite lookup_lt_is_Some in *. by rewrite <- (Forall2_length _ _ _ Hfw2), <- (Forall2_length _ _ _ Hfw1).
  - destruct (cursor_placed _ w i Hok) as [Hpos _]. destruct (cursor_placed _ w2 i Hok2) as [_ Hp].
    enough (missing σ s (cursor_at σ w2 i) < missing σ s (cursor_at σ w i))%nat by lia.
    eapply missing_fewer; [done|exact Hgr|lia|lia|]. apply Hp. lia.
Qed.
End arriving.
