(* ===== verification/WorldQueues.v ===== *)
(** * WorldQueues: what a quiet step does to the queues of commands.

    Whatever is true of a queue and stays true when commands leave it survives a quiet step:
    deliveries only take answered commands out, and the turns and the network store nothing. *)

From S2P Require Import Prelude Errors Nums Ids Json Wire Integrity Core Registry Migrate Outbox.
From S2P Require Import Storage SimStorage Apply Engine EngineFacts EngineSteps Place Ledger.
From S2P Require Import Server Rng FaultMenu Pressure SimServer SimServerFacts SimReads SimFeed.
From S2P Require Import Invariants InvariantFacts Trace World Deliveries WorldDevices WorldServer WorldSteps.
From S2P Require Import WorldCarry WorldSound WorldPhases WorldClean WorldRuns WorldQuiet WorldArrive.
From stdpp Require Import options.

(** A property of every device's queue. *)
Definition queues (P : nat → list OutboxEntry.t → Prop) (w : World) : Prop :=
  ∀ i d, devices w !! i = Some d → P i (v_outbox (stored d)).
(** A property that answers do not break. *)
Definition answerable (P : nat → list OutboxEntry.t → Prop) : Prop :=
  ∀ i l (ids : list CommandId.t), P i l → P i (filter (λ e, OutboxEntry.id e ∉ ids) l).

(** No device has a command to push. *)
Definition dry : World → Prop := queues (λ _ l, l = []).
Lemma dry_answerable : answerable (λ _ l, l = []).
Proof. by intros i l ids ->. Qed.

(** A move that leaves what is stored. *)
Definition keeps_stored (d d' : Device.t) : Prop := stored d' = stored d.
#[export] Instance keeps_stored_preorder : PreOrder keeps_stored.
Proof. split; [by intros d|]. intros a b c. unfold keeps_stored. congruence. Qed.
Abbreviation stored_moves := (moves keeps_stored).

Lemma stored_trans i x y z : stored_moves i x y → stored_moves i y z → stored_moves i x z.
Proof. apply moves_trans. intros a b c. apply transitivity. Qed.
Lemma stored_stays i w w' : framed w w' → devices w' = devices w → stored_moves i w w'.
Proof. by apply stays_moves. Qed.
Lemma stored_device i f w : (∀ d, devices w !! i = Some d → stored (f d) = stored d) → stored_moves i w (on_device i f w).
Proof. intros Hf. apply on_device_moves. exact Hf. Qed.

Section keeping.
Context `{Hashes} `{Codec}.

Lemma restart_stored i w : stored_moves i w (restart_device i w).
Proof.
  unfold restart_device. destruct (devices (fault i Fault.DeviceRestarted w) !! i) as [d|] eqn:Hd; [|by apply stored_stays].
  destruct (Rng.next_u64 _) as [r seed].
  eapply stored_trans; [by apply (stored_stays i w (set_rng r (fault i Fault.DeviceRestarted w)))|]. apply stored_device.
  intros d' Hd'. cbn in Hd, Hd'. rewrite Hd in Hd'. injection Hd' as <-. unfold stored, durable. cbn.
  by destruct (Db.cursors (Device.db d) !! World.scope w).
Qed.
Lemma kill_stored i w : stored_moves i w (maybe_kill i w).
Proof.
  unfold maybe_kill. destruct (devices w !! i) as [d|]; [|by apply stored_stays]. destruct (Device.pending_kill d); [|by apply stored_stays].
  eapply stored_trans; [|apply restart_stored]. by apply stored_device.
Qed.
Lemma arm_stored i w : stored_moves i w (arm_storage i w).
Proof. eapply moves_weaken; [|apply arm_armed]. intros d d' [Hs _]. apply Hs. Qed.

Lemma batch_outbox σ η s i d b :
  device_ok σ η s i d → owned σ η b → v_outbox (durable (apply_batch b (Device.engine d)).1) = v_outbox (stored d).
Proof using All.
  intros Hok Hown. destruct (apply_batch b (Device.engine d)) as [en' r] eqn:Hb. cbn [fst].
  by destruct (take_owned σ η s i d b en' r Hok Hown Hb) as (_ & _ & [->|(_ & _ & _ & ? & _)]).
Qed.

(** A response takes the commands it answers out of the queue, and nothing else. *)
Lemma results_outbox response (e : SimEngine) :
  coherent e → ∃ ids : list CommandId.t, v_outbox (durable (apply_results response e).1) = filter (λ x, OutboxEntry.id x ∉ ids) (v_outbox (durable e)).
Proof using All.
  intros Hc. destruct (apply_results response e) as [e' r] eqn:Hr. cbn [fst].
  destruct (apply_results_view _ _ _ _ Hc Hr) as [_ [->| ->]].
  - exists []. symmetry. apply filter_all, Forall_forall. intros x _. apply not_elem_of_nil.
  - destruct (answering_all (Engine.registry e) (v_outbox (durable e)) (PushResponse.results response)) as (_ & _ & _ & _ & _ & Hall).
    destruct (Hall (durable e)) as (-> & _). rewrite fold_without. by eexists.
Qed.

(** With the storage sound, everything it answers. *)
Lemma results_answered response (e : SimEngine) id :
  coherent e → Db.verdict (storage e) = Commit → id ∈ CommandResult.id <$> PushResponse.results response →
  id ∉ queue_ids (durable (apply_results response e).1).
Proof using All.
  intros Hc Hv Hin. unfold apply_results, st_bind.
  destruct (refresh_outbox_if_suspect e) as [e1 r1] eqn:Hr1. pose proof (refresh_outbox_view _ _ _ Hc Hr1) as (_ & Hd & Hq).
  destruct (refresh_outbox_facts _ _ _ Hr1) as (Hst & _ & _ & _ & _ & _ & _ & _ & _ & _ & Hcase).
  destruct r1 as [[]|]; [|exfalso; destruct Hcase as [(? & ? & _)|(? & _)]; [|done]].
  2:{ revert Hr1. unfold refresh_outbox_if_suspect. by destruct (negb _). }
  specialize (Hq eq_refl). set (q := outbox_queue e1) in *.
  destruct (answering_all (Engine.registry e1) q (PushResponse.results response)) as (_ & _ & Hids & _ & Hnil & Hall).
  set (an := fold_left _ _ _) in *. cbv zeta.
  assert (Hgone : id ∉ OutboxEntry.id <$> filter (λ x, OutboxEntry.id x ∉ (an_resolutions an).*1) q).
  { intros (x & -> & [Hn Hx]%list_elem_of_filter)%list_elem_of_fmap. apply Hn, Hids. split; [|done]. apply list_elem_of_fmap. by exists x. }
  case_bool_decide as Hno.
  - unfold queue_ids. cbn [fst]. rewrite <- Hq. apply Hnil in Hno. rewrite Hno in Hgone. rewrite filter_all in Hgone; [done|].
    apply Forall_forall. intros x _. apply not_elem_of_nil.
  - unfold engine_transact. destruct (commit_transacts (storage e1) (an_ops an)) as (s' & o & Ht); [by rewrite Hst|].
    rewrite Ht. apply transact_ok in Ht as (Hview & _). unfold queue_ids, durable. cbn [fst]. change (storage _) with s' at 1. rewrite Hview.
    destruct (Hall (view (storage e1))) as (-> & _). rewrite fold_without.
    change (view (storage e1)) with (durable e1). by rewrite <- Hq.
Qed.
End keeping.

Section queues.
Context `{Hashes} `{Codec} (P : nat → list OutboxEntry.t → Prop) (HP : answerable P).

Lemma queues_same w w' : devices w' = devices w → queues P w → queues P w'.
Proof. unfold queues. by intros ->. Qed.

Lemma queues_moves (R : Device.t → Device.t → Prop) i w w' :
  moves R i w w' →
  (∀ d d', devices w !! i = Some d → R d d' → P i (v_outbox (stored d)) → P i (v_outbox (stored d'))) → queues P w → queues P w'.
Proof.
  intros Hm HR Hdry j d' Hj'. destruct (lookup_lt_is_Some_2 (devices w) j) as [d Hj].
  { rewrite <- (framed_length _ _ (moves_frame _ _ _ _ Hm)). by eapply lookup_lt_Some. }
  destruct (decide (j = i)) as [->|Hne].
  - destruct (moves_at _ _ _ _ Hm d Hj) as (d'' & Hj'' & Hr). rewrite Hj' in Hj''. injection Hj'' as <-.
    eapply HR; [exact Hj|exact Hr|]. by eapply Hdry.
  - rewrite (moves_other _ _ _ _ Hm j Hne) in Hj'. by eapply Hdry.
Qed.
Lemma queues_stored i w w' : stored_moves i w w' → queues P w → queues P w'.
Proof. intros Hm. apply (queues_moves _ _ _ _ Hm). by intros d d' _ ->. Qed.

(** ** Deliveries *)

Context `{!CodecArrays}.
Hypothesis Henc : ∀ c : Change.t, encodable c.
Variables (σ : ScopeId.t) (η : EntityName.t).
Abbreviation sound := (WorldSound.sound σ η).

Lemma queues_batch q i b bs w : sound q w → room w → q i = b :: bs → queues P w → queues P (deliver_batch i w b).
Proof using All.
  intros Hs Hroom Hq Hdry. unfold deliver_batch.
  destruct (silent_delivers Henc σ η i q w (arm_storage i w) Hs Hroom (arm_moves σ η (server w) i w)) as [Hs1 _].
  pose proof (queues_stored i _ _ (arm_stored i w) Hdry) as Hdry1. set (w1 := arm_storage i w) in *.
  pose proof (call_moves i (apply_batch b) w1) as Hm. destruct (engine_call i (apply_batch b) w1) as [w2 r]. cbn [fst] in Hm.
  assert (queues P w2) as Hdry2.
  { eapply queues_moves; [exact Hm| |exact Hdry1]. intros d d' Hd ->. rewrite stored_engine.
    rewrite (batch_outbox σ η (server w1) i d b); [done|by eapply sound_device|].
    pose proof (sound_owned _ _ _ _ Hs i) as Ho. rewrite Hq in Ho. by apply Forall_cons in Ho as [? _]. }
  eapply queues_stored; [apply kill_stored|]. by eapply queues_same; [|exact Hdry2].
Qed.

Lemma queues_batches q i bs rest w :
  sound q w → room w → q i = bs ++ rest → queues P w → queues P (fold_left (deliver_batch i) bs w).
Proof using All.
  revert q w. induction bs as [|b bs IH]; intros q w Hs Hroom Hq Hdry; [done|]. rewrite fold_left_step.
  destruct (deliver_batch_sound Henc σ η q i b (bs ++ rest) w Hs Hroom Hq) as [Hs1 Hd1].
  apply (IH (dequeued q i (bs ++ rest))); [done|by eapply delivers_room|unfold dequeued; by rewrite decide_True|by eapply queues_batch].
Qed.

Lemma queues_deliver q f rest w :
  sound q w → room w → q (InFlight.device f) = carried f ++ rest → queues P w → queues P (deliver w f).
Proof using All.
  intros Hs Hroom Hq Hdry. unfold deliver. set (i := InFlight.device f) in *. unfold carried in Hq.
  destruct (InFlight.response f) as [[|response|response|]|e]; try exact Hdry.
  - by eapply queues_batches.
  - destruct (silent_delivers Henc σ η i q w (arm_storage i w) Hs Hroom (arm_moves σ η (server w) i w)) as [Hs1 _].
    pose proof (queues_stored i _ _ (arm_stored i w) Hdry) as Hdry1. set (w1 := arm_storage i w) in *.
    pose proof (call_moves i (apply_results response) w1) as Hm.
    destruct (engine_call i (apply_results response) w1) as [w2 r]. cbn [fst] in Hm.
    assert (queues P w2) as Hdry2.
    { eapply queues_moves; [exact Hm| |exact Hdry1]. intros d d' Hd -> Hp. rewrite stored_engine.
      destruct (results_outbox response (Device.engine d)) as [ids ->]; [|by apply HP].
      destruct (sound_device _ _ _ _ Hs1 i d Hd) as [[? _] _ _ _ _]. done. }
    eapply queues_stored; [apply kill_stored|]. by eapply queues_same; [|exact Hdry2].
Qed.

Lemma queues_deliver_all due rest w :
  sound (λ i, batches_for i (due ++ rest)) w → room w → queues P w → queues P (fold_left deliver due w).
Proof using All.
  revert w. induction due as [|f due IH]; intros w Hs Hroom Hdry; [done|]. rewrite fold_left_step.
  assert (Hq : batches_for (InFlight.device f) ((f :: due) ++ rest) = carried f ++ batches_for (InFlight.device f) (due ++ rest)).
  { cbn [app]. rewrite batches_for_cons. by rewrite decide_True. }
  destruct (deliver_sound Henc σ η _ f (batches_for (InFlight.device f) (due ++ rest)) w Hs Hroom Hq) as [Hs1 Hd1].
  apply IH; [|by eapply delivers_room|by eapply (queues_deliver (λ i, batches_for i ((f :: due) ++ rest)))].
  eapply sound_queues; [|exact Hs1]. intros j. unfold dequeued. case_decide; [by subst j|].
  cbn [app]. rewrite batches_for_cons. by rewrite decide_False by done.
Qed.
End queues.

(** ** A turn *)

(** What a device pushes: the commands of the front of its queue, at least one. *)
Definition pushes (l : list OutboxEntry.t) (req : PushRequest.t) : Prop :=
  ∃ dn rest, l = dn ++ rest ∧ dn ≠ [] ∧ PushRequest.commands req = OutboxEntry.command <$> dn.
(** A device that sends pulls and pushes of its own, and that pushes if it has what to push. *)
Definition allowed (good : PushRequest.t → Prop) (r : WireRequest) : Prop :=
  match r with Push req => good req | Pull _ => True | Bootstrap _ => False end.
Definition sends_own (d : Device.t) : Prop := Forall (allowed (pushes (v_outbox (stored d)))) (requests d).
Definition pushing (d : Device.t) : Prop := v_outbox (stored d) ≠ [] → ∃ req, Push req ∈ requests d.

(** Queues the JSON writer writes. *)
Definition written `{Hashes} `{Codec} : World → Prop := queues (λ _ l, Forall (λ e, writable (OutboxEntry.command e)) l).
Lemma written_all `{Hashes} `{Codec} w : (∀ c : Command.t, writable c) → written w.
Proof. intros Hw i d _. apply Forall_forall. intros e _. apply Hw. Qed.
Lemma dry_written `{Hashes} `{Codec} w : dry w → written w.
Proof. intros Hdry i d Hd. rewrite (Hdry i d Hd). constructor. Qed.

Section turning.
Context `{Hashes} `{Codec}.
Variables (σ : ScopeId.t) (η : EntityName.t).

(** A move that neither stores nor sends. *)
Definition still (d d' : Device.t) : Prop := stored d' = stored d ∧ requests d' = requests d.
Lemma still_trans i x y z : moves still i x y → moves still i y z → moves still i x z.
Proof. apply moves_trans. intros a b c [? ?] [? ?]. split; congruence. Qed.
Lemma still_stays i w w' : framed w w' → devices w' = devices w → moves still i w w'.
Proof. by apply stays_moves. Qed.

Lemma flap_still i w : moves still i w (flap_step i w).
Proof.
  unfold flap_step. destruct (devices w !! i) as [d|]; [|by apply still_stays].
  destruct (_ && _); [by apply on_device_moves|]. destruct (_ =? 0); [|by apply still_stays].
  pose proof (draw_chance_frame (FaultRates.connectivity_flap (rates w)) w) as [Hf Hd].
  destruct (draw_chance _ w) as [w1 b]. cbn [fst] in *. destruct b; [|by apply still_stays].
  apply (still_trans i w w1); [by apply still_stays|]. set (f := λ d, Device.with_transport _ _).
  apply (still_trans i w1 (on_device i f w1)); [by apply on_device_moves|by apply still_stays].
Qed.

(** The push a device of the world builds. *)
Lemma push_built s i d en' r :
  device_ok σ η s i d → Forall (λ e, writable (OutboxEntry.command e)) (v_outbox (stored d)) →
  build_push protocol 100000 (Device.engine d) = (en', r) →
  durable en' = stored d ∧ transport en' = transport (Device.engine d) ∧
  match r with
  | Ok (Some req) => pushes (v_outbox (stored d)) req
  | Ok None => v_outbox (stored d) = []
  | Err _ => False
  end.
Proof.
  intros [(Hc & _) (Hreg & Hmig & Hup) Hl _ _] Hwrite Hb. destruct (build_push_view _ _ _ _ _ Hc Hb) as [_ Hv].
  pose proof (build_push_transport protocol 100000 (Device.engine d)) as Ht. rewrite Hb in Ht. split_and!; [exact Hv|exact Ht|].
  pose proof (ledger_targets _ _ _ Hl) as Hall. apply build_push_built in Hb; [|done|done|].
  2:{ change (durable (Device.engine d)) with (stored d). rewrite Hreg, Hmig, (targeted_sendable _ _ _ Hall).
      intros c (e & -> & He)%list_elem_of_fmap. rewrite Forall_forall in Hwrite. by destruct (Hwrite e He). }
  rewrite Hreg, Hmig in Hb. change (durable (Device.engine d)) with (stored d) in Hb.
  rewrite (targeted_sendable _ _ _ Hall) in Hb. destruct r as [[req|]|e]; [|done|by destruct Hb as (se & _ & ?)].
  destruct Hb as (_ & _ & Hq & dn & rest & Hsplit & Hreq & Hne). rewrite Hsplit in Hall. apply Forall_app in Hall as [Hall _].
  rewrite (targeted_sendable _ _ _ Hall) in Hreq. exists dn, rest. split_and!; [done| |done]. intros ->. rewrite Hreq in Hne.
  apply Hne; [|done]. by destruct (v_outbox (stored d)).
Qed.

(** What a push step adds to what a device sends. *)
Lemma push_turn s i w d :
  devices w !! i = Some d → device_ok σ η s i d → Forall (λ e, writable (OutboxEntry.command e)) (v_outbox (stored d)) →
  ∃ d', devices (push_step i w) !! i = Some d' ∧ stored d' = stored d ∧
    (requests d' = requests d ∨ ∃ req, pushes (v_outbox (stored d)) req ∧ requests d' = requests d ++ [Push req]) ∧
    (online d → pushing d').
Proof.
  intros Hd Hok Hwrite. unfold push_step, engine_call. rewrite Hd.
  destruct (build_push protocol 100000 (Device.engine d)) as [e r] eqn:Hb.
  destruct (push_built s i d e r Hok Hwrite Hb) as (Hv & Ht & Hr). set (d1 := Device.set_engine e d).
  set (w1 := on_device i _ w). assert (devices w1 !! i = Some d1) as Hd1 by (cbn; by rewrite list_lookup_alter_eq, Hd).
  assert (requests d1 = requests d ∧ (online d → online d1)) as (Hr1 & Ho1) by (unfold requests, online; cbn; by rewrite Ht).
  assert (Hs1 : stored d1 = stored d) by exact Hv.
  destruct r as [[req|]|]; [|exists d1; split_and!; [done|done|by left|]; unfold pushing; by rewrite Hs1, Hr|done].
  case_bool_decide as Hnil.
  { destruct Hr as (dn & rest & _ & Hdn & Hreq). rewrite Hnil in Hreq. by destruct dn. }
  eexists. split; [cbn [send on_device devices set_devices]; by rewrite list_lookup_alter_eq, Hd1|].
  split; [exact Hs1|]. rewrite <- Hr1. split.
  - destruct (send_requests (Push req) d1) as [Hs|Hs]; [by left|right]. by exists req.
  - intros Hon _. exists req. by apply (online_sends d1 (Push req)), Ho1.
Qed.

(** A pull step stores nothing and sends at most a pull. *)
Definition asks_pull (d d' : Device.t) : Prop :=
  stored d' = stored d ∧ (requests d' = requests d ∨ ∃ p, requests d' = requests d ++ [Pull p]).

Lemma send_pull i p w : moves asks_pull i w (send i (Pull p) w).
Proof.
  apply on_device_moves. intros d _. split; [done|]. destruct (send_requests (Pull p) d); [by left|right; by exists p].
Qed.

Lemma pull_asks i w : moves asks_pull i w (pull_step i w).
Proof.
  assert (Hstay : ∀ x y, framed x y → devices y = devices x → moves asks_pull i x y).
  { intros x y. apply stays_moves. intros d. split; [done|by left]. }
  unfold pull_step. destruct (devices w !! i) as [d|] eqn:Hd; [|by apply Hstay].
  set (readied := if needs_reload _ _ then _ else _).
  assert (Hm : moves still i w readied.1).
  { unfold readied. destruct (needs_reload _ _); [|by apply still_stays]. unfold engine_call. rewrite Hd.
    pose proof (reload_scope_transport (World.scope w) (Device.engine d)) as Ht.
    destruct (reload_scope (World.scope w) (Device.engine d)) as [e r] eqn:Hr. cbn [fst] in *. apply on_device_moves.
    intros d' Hd'. rewrite Hd in Hd'. injection Hd' as <-. destruct (reload_scope_view _ _ _ _ Hr) as [_ Hv].
    split; [by rewrite stored_engine|]. unfold requests. cbn. by rewrite Ht. }
  assert (Hm' : moves asks_pull i w readied.1).
  { eapply moves_weaken; [|exact Hm]. intros a b [? ?]. split; [done|by left]. }
  destruct readied as [w1 ready]. cbn [fst] in *. destruct ready; cbn [negb]; [|done].
  destruct (devices w1 !! i) as [d1|]; [|done]. eapply moves_trans; [|exact Hm|apply send_pull].
  intros a b c [Hs Hr] [Hs' Hr']. split; [congruence|]. by rewrite <- Hr.
Qed.

(** A quiet turn leaves what is stored, and a device sending what it holds. *)
Lemma turn_sends i w d :
  in_world σ η w → quiet w = true → rates w = FaultRates.none → devices w !! i = Some d → online d →
  device_ok σ η (server w) i d → requests d = [] → Device.commands_authored d < u32_mod →
  Forall (λ e, writable (OutboxEntry.command e)) (v_outbox (stored d)) →
  ∃ d', devices (device_step i w) !! i = Some d' ∧ stored d' = stored d ∧ sends_own d' ∧ pushing d'.
Proof.
  intros Hw Hq Hr Hd Hon Hok Hidle Hn Hwrite. unfold device_step.
  pose proof (flap_still i w) as Hs. pose proof (flap_up i w Hr) as Hup. pose proof (flap_moves σ η (server w) i w) as Hm.
  set (w1 := flap_step i w) in *.
  pose proof (moves_frame _ _ _ _ Hm) as Hf. rewrite (framed_rates _ _ Hf), Hr.
  change (FaultRates.device_restart FaultRates.none) with 0. rewrite no_chance. set (w2 := set_rng (rng w1) w1).
  replace (quiet w2) with true by (cbn; by rewrite (framed_quiet _ _ Hf)).
  destruct (moves_at _ _ _ _ Hm d Hd) as (d1 & Hd1 & Ha1 & _). destruct (Ha1 Hok ltac:(lia)) as (Hok1 & _).
  destruct (moves_at _ _ _ _ Hs d Hd) as (d1' & Hd1' & Hs1 & Hr1). rewrite Hd1 in Hd1'. injection Hd1' as <-.
  destruct (moves_at _ _ _ _ Hup d Hd) as (d1' & Hd1' & Hon1). rewrite Hd1 in Hd1'. injection Hd1' as <-.
  destruct (push_turn (server w) i w2 d1 Hd1 Hok1 ltac:(by rewrite Hs1)) as (d3 & Hd3 & Hs3 & Hr3 & Hp3). specialize (Hp3 (Hon1 Hon)).
  destruct (moves_at _ _ _ _ (pull_asks i (push_step i w2)) d3 Hd3) as (d4 & Hd4 & Hs4 & Hr4).
  exists d4. split; [done|]. split; [congruence|]. unfold sends_own, pushing in *. rewrite Hs4.
  assert (Forall (allowed (pushes (v_outbox (stored d3)))) (requests d3)) as Hall.
  { destruct Hr3 as [->|(req & Hreq & ->)]; rewrite Hr1, Hidle; [constructor|]. apply Forall_singleton. by rewrite Hs3. }
  destruct Hr4 as [->|[p ->]]; [done|]. split; [by apply Forall_app_2; [|repeat constructor]|].
  intros Hne. destruct (Hp3 Hne) as (req & ?). exists req. apply elem_of_app. by left.
Qed.
End turning.

(** ** The server *)

(** What any good push keeps of the server, the network keeps. *)
Section serving.
Context `{Hashes} `{Codec} (R : Server → Server → Prop) `{!PreOrder R} (good : PushRequest.t → Prop).
Hypothesis Hgood : ∀ req n s g, good req → R s (push_prefix req n s g).1.1.

Lemma answer_serves i violate r w : allowed good r → R (server w) (server (answer i violate r w).1).
Proof using Type*.
  unfold answer. destruct r as [req|req|req]; [done|..]; intros Hr.
  - destruct violate; [destruct (repeat_last_change _) as [? []]|]; cbn; reflexivity.
  - destruct (Pressure.accept_count _ _) as [p n]. cbn [server rng set_pressure].
    pose proof (Hgood req (Z.to_nat n) (server w) (rng w) Hr) as Hp. destruct (push_prefix _ _ _ _) as [[s g] pushed].
    cbn [fst] in Hp. destruct violate; [destruct (repeat_last_result pushed) as [? []]|]; exact Hp.
Qed.

Lemma post_server i f response w : server (post i f response w) = server w.
Proof.
  unfold post. destruct (draw_range_frame (FaultRates.latency_ms (rates w)).1 (FaultRates.latency_ms (rates w)).2 w) as [Hf _].
  apply framed_server in Hf. destruct (draw_range _ _ w) as [w1 lat]. cbn [fst] in Hf. rewrite <- Hf. destruct f as [[]|]; try done.
  destruct (draw_range_frame 1 500 w1) as [Hf1 _]. apply framed_server in Hf1. by destruct (draw_range 1 500 w1).
Qed.

Lemma carry_request_serves i w out : allowed good out.2 → R (server w) (server (carry_request i w out)).
Proof using Type*.
  intros Hr. unfold carry_request. destruct (devices w !! i) as [d|]; [|reflexivity].
  set (w1 := on_device i _ w). destruct (decide_response _ _ _) as [r f].
  set (w2 := match f with Some f => fault i f (set_rng r w1) | None => set_rng r w1 end).
  assert (server w2 = server w) as <- by (unfold w2; by destruct f). case_bool_decide; [reflexivity|].
  destruct (draw_chance_frame (FaultRates.protocol_violation (rates w2)) w2) as [Hf3 _]. apply framed_server in Hf3.
  destruct (draw_chance _ w2) as [w3 violate]. cbn [fst] in Hf3. rewrite <- Hf3.
  pose proof (answer_serves i violate out.2 w3 Hr) as Ha. destruct (answer i violate out.2 w3) as [w4 [response|]]; [|exact Ha].
  cbn [fst] in Ha. etransitivity; [exact Ha|]. set (resp := match f with Some Fault.Severed => _ | Some Fault.Malformed => _ | _ => response end).
  by rewrite <- (post_server i f resp w4).
Qed.

Lemma carry_requests_serve i outs w :
  Forall (allowed good) outs.*2 → R (server w) (server (fold_left (carry_request i) outs w)).
Proof using Type*.
  revert w. induction outs as [|out outs IH]; intros w Ho; [reflexivity|]. csimpl in Ho. apply Forall_cons in Ho as [Hr Ho].
  rewrite fold_left_step. etransitivity; [by apply carry_request_serves|by apply IH].
Qed.

Lemma carry_device_serves i w d :
  devices w !! i = Some d → Forall (allowed good) (requests d) → R (server w) (server (carry_device w i)).
Proof using Type*.
  intros Hd Ho. unfold carry_device. rewrite Hd. unfold SimTransport.drain. set (w1 := on_device i _ w).
  change (server w) with (server w1). by apply carry_requests_serve.
Qed.

Lemma release_server hs w : server (fold_left release hs w) = server w.
Proof.
  revert w. induction hs as [|h hs IH]; intros w; [done|]. rewrite fold_left_step, IH. unfold release.
  destruct (draw_range_frame 1 900 w) as [Hf _]. apply framed_server in Hf. by destruct (draw_range 1 900 w).
Qed.

Context `{!CodecArrays}.
Hypothesis Henc : ∀ c : Change.t, encodable c.
Variables (σ : ScopeId.t) (η : EntityName.t).

Lemma network_serves w :
  sound σ η (queue w) w → held w = [] → (∀ i d, devices w !! i = Some d → asks σ d) →
  next_seq (server w) + 512 * Z.of_nat (length (devices w)) ≤ SEQ_MAX + 1 →
  (∀ i d, devices w !! i = Some d → Forall (allowed good) (requests d)) →
  R (server w) (server (carry_network w)).
Proof using All.
  intros Hs Hheld Hask Hroom Ho. unfold carry_network. rewrite release_server. cbn.
  assert (Hserver : ∀ k, (k ≤ length (devices w))%nat → R (server w) (server (fold_left carry_device (seq 0 k) w))); [|by apply Hserver].
  induction k as [|k IH]; intros Hk; [reflexivity|]. rewrite seq_S, fold_left_app. cbn [fold_left Nat.add].
  destruct (networked_upto Henc σ η w k Hs Hheld Hask ltac:(lia) Hroom) as [_ _ _ _ Hdev _ _].
  destruct (lookup_lt_is_Some_2 (devices w) k) as [d Hd]; [lia|].
  destruct (Hdev k d Hd) as (d' & Hd' & He). destruct (Nat.ltb_spec k k); [lia|]. subst d'.
  etransitivity; [apply IH; lia|]. by eapply carry_device_serves; [|eapply Ho].
Qed.
End serving.

(** ** A step *)

Section step.
Context `{Hashes} `{Codec} `{!CodecArrays}.
Hypothesis Henc : ∀ c : Change.t, encodable c.
Variables (σ : ScopeId.t) (η : EntityName.t).
Abbreviation sound := (WorldSound.sound σ η).

Lemma turns_send q w k :
  sound q w → idle w → room w → calm_world w → written w → (k ≤ length (devices w))%nat →
  let w' := fold_left (λ w i, device_step i w) (seq 0 k) w in
  ∀ i d', devices w' !! i = Some d' → ∃ d, devices w !! i = Some d ∧ stored d' = stored d ∧
    ((i < k)%nat → sends_own d' ∧ pushing d').
Proof using All.
  intros Hs Hidle Hroom [Hq Hr Hon] Hwrite Hk. cbv zeta. induction k as [|k IH]; [intros i d' Hd'; exists d'; split_and!; [done|done|lia]|].
  specialize (IH ltac:(lia)). rewrite seq_S, fold_left_app. cbn [fold_left Nat.add].
  destruct (turns_upto Henc σ η q w k Hs Hidle Hroom) as (Hs1 & Hf1 & Hd1). set (w1 := fold_left _ (seq 0 k) w) in *.
  destruct (lookup_lt_is_Some_2 (devices w) k) as [d Hdk]; [lia|].
  destruct (Hd1 k d Hdk) as (d' & Hdk' & He). destruct (Nat.ltb_spec k k); [lia|]. subst d'.
  pose proof (device_step_moves σ η (server w1) k w1 (proj1 (sound_world _ _ _ _ Hs1))) as Hm.
  destruct (turn_sends σ η k w1 d) as (d' & Hd' & Hst & Hsend).
  - apply (sound_world _ _ _ _ Hs1).
  - by rewrite (framed_quiet _ _ Hf1).
  - by rewrite (framed_rates _ _ Hf1).
  - done.
  - by eapply Hon.
  - by eapply sound_device.
  - by eapply Hidle.
  - specialize (Hroom k d Hdk). lia.
  - by eapply Hwrite.
  - intros i di Hdi. destruct (decide (i = k)) as [->|Hne].
    + rewrite Hd' in Hdi. injection Hdi as <-. by exists d.
    + rewrite (moves_other _ _ _ _ Hm i Hne) in Hdi. destruct (IH i di Hdi) as (d0 & ? & ? & Hi). exists d0.
      split_and!; [done|done|]. intros Hlt. apply Hi. lia.
Qed.

Lemma server_turn_calm w : quiet w = true → rates w = FaultRates.none → server (server_turn w) = advance_commits (server w).
Proof.
  intros Hq Hr. unfold server_turn. set (w1 := set_server advance_commits w).
  assert (quiet w1 = true) as -> by exact Hq. assert (rates w1 = FaultRates.none) as -> by exact Hr.
  change (FaultRates.server_restart FaultRates.none) with 0. rewrite no_chance. set (w2 := set_rng (rng w1) w1).
  set (w3 := set_pressure _ w2). assert (quiet w3 = true) as Hq3 by exact Hq. rewrite Hq3. cbn [orb]. by rewrite Hq3.
Qed.

(** What the network is handed in a quiet step. *)
Lemma before_network_sends n w :
  world_ok σ η (S n) w → calm_world w → written w →
  server (before_network w) = advance_commits (server w) ∧
  ∀ i d', devices (before_network w) !! i = Some d' →
    ∃ d, devices w !! i = Some d ∧ stored d' = stored d ∧ sends_own d' ∧ pushing d'.
Proof using All.
  intros Hok Hcalm Hwrite. pose proof (before_turns_calm Henc σ η n w Hok Hcalm) as Hcalm3.
  destruct (before_turns_ok Henc σ η n w Hok) as (Hs & _ & Hidle & Hroom & _).
  assert (server (before_turns w) = advance_commits (server w) ∧
    ∀ i d', devices (before_turns w) !! i = Some d' → ∃ d, devices w !! i = Some d ∧ stored d' = stored d) as [Hsv Hd3].
  { destruct Hcalm as [Hq Hr _]. unfold before_turns. set (w2 := set_devices _ _). split; [by rewrite server_turn_calm|].
    destruct (server_turn_aside σ η w2) as [Hn _]; [apply (ok_sound _ _ _ _ Hok)|]. destruct Hn as (_&_&_&_&_&_&_&Hd&_).
    intros i d. rewrite Hd. cbn. rewrite list_lookup_fmap. intros (d0 & Hd0 & ->)%fmap_Some. by exists d0. }
  unfold before_network. set (w3 := before_turns w) in *.
  destruct (turns_sound Henc σ η _ w3 Hs Hidle Hroom) as (_ & _ & Hf & _).
  assert (written w3) as Hwrite3 by (intros i d (d0 & Hd0 & ->)%Hd3; by eapply Hwrite).
  pose proof (turns_send _ w3 (length (devices w3)) Hs Hidle Hroom Hcalm3 Hwrite3 (le_n _)) as Hsend. cbv zeta in Hsend.
  set (w4 := fold_left _ _ w3) in *. split; [by rewrite (framed_server _ _ Hf)|].
  intros i d' Hd'. destruct (Hsend i d' Hd') as (d3 & Hi3 & Hst & Hse). destruct (Hd3 i d3 Hi3) as (d & Hd & Hst').
  exists d. split_and!; [done|congruence|..]; apply Hse; rewrite <- (framed_length _ _ Hf); by eapply lookup_lt_Some.
Qed.

(** The network leaves what is stored. *)
Lemma network_stored w :
  sound (queue w) w → held w = [] → (∀ i d, devices w !! i = Some d → asks σ d) →
  next_seq (server w) + 512 * Z.of_nat (length (devices w)) ≤ SEQ_MAX + 1 →
  ∀ i d', devices (carry_network w) !! i = Some d' → ∃ d, devices w !! i = Some d ∧ stored d' = stored d.
Proof using All.
  intros Hs Hheld Hask Hroom i d'. unfold carry_network.
  pose proof (networked_upto Henc σ η w (length (devices w)) Hs Hheld Hask (le_n _) Hroom) as [_ _ _ Hl1 Hd1 _ _].
  set (w1 := fold_left carry_device _ w) in *.
  destruct (release_all Henc σ η (held w1) (set_held (λ _, []) w1)) as (_ & _ & -> & _). cbn. intros Hd'.
  destruct (lookup_lt_is_Some_2 (devices w) i) as [d Hd]; [rewrite <- Hl1; by eapply lookup_lt_Some|].
  destruct (Hd1 i d Hd) as (d'' & Hd'' & He). rewrite Hd' in Hd''. injection Hd'' as <-. pose proof (lookup_lt_Some _ _ _ Hd).
  destruct (Nat.ltb_spec i (length (devices w))); [|lia]. destruct He as [(? & _) _]. by exists d.
Qed.

(** The last stop of a step: what is due is delivered. *)
Lemma step_deliveries n w :
  world_ok σ η (S n) w → ∃ due waiting w5,
    w5 = carry_network (before_network w) ∧ in_flight w5 = due ++ waiting ∧
    Forall (λ f, InFlight.deliver_at_ms f ≤ now_ms w5) due ∧ Forall (λ f, now_ms w5 < InFlight.deliver_at_ms f) waiting ∧
    sound (λ i, batches_for i (due ++ waiting)) (set_in_flight (λ _, waiting) w5) ∧ room (set_in_flight (λ _, waiting) w5) ∧
    now_ms w5 = now_ms w + STEP_MS ∧ rates w5 = rates w ∧
    before_check w = fold_left deliver due (set_in_flight (λ _, waiting) w5).
Proof using All.
  intros Hok. pose proof (network_delivers Henc σ η n w Hok) as Hat. unfold before_check. set (w5 := carry_network _) in *.
  destruct (at_delivery_split σ η w w5 Hat) as (due & waiting & Hfl & Hdue & Hwait).
  pose proof Hat as [Hs5 He5 _ _ Hroom5 _ Hnow5 _]. exists due, waiting, w5. split_and!; try done.
  - rewrite Hfl in Hs5. eapply (sound_stays σ η _ w5); [unfold settings; by split_and!|done|done|done].
  - by destruct (evolves_settings _ _ _ _ _ He5) as (_ & _ & ? & _).
  - by apply deliver_due_split.
Qed.

Lemma network_room n w :
  world_ok σ η (S n) w →
  let w4 := before_network w in
  sound (queue w4) w4 ∧ held w4 = [] ∧ (∀ i d, devices w4 !! i = Some d → asks σ d) ∧
  next_seq (server w4) + 512 * Z.of_nat (length (devices w4)) ≤ SEQ_MAX + 1.
Proof using All.
  intros Hok. cbv zeta. destruct (before_network_ok Henc σ η n w Hok) as (Hs4 & He4 & Hask & _ & Hh4). split_and!; [done..|].
  pose proof (Forall2_length _ _ _ (evolves_devices _ _ _ _ _ He4)) as Hlen. cbn in Hlen.
  pose proof (evolves_seqs _ _ _ _ _ He4) as Hq. cbn in Hq. pose proof (ok_seqs _ _ _ _ Hok) as Hr. unfold step_entries in Hr.
  rewrite <- Hlen. lia.
Qed.

Lemma step_queues P n w :
  answerable P → world_ok σ η (S n) w → calm_world w → written w → queues P w → queues P (world_step w).
Proof using All.
  intros HP Hok Hcalm Hwrite Hq. destruct (network_room n w Hok) as (Hs4 & Hh4 & Hask & Hroom4).
  destruct (before_network_sends n w Hok Hcalm Hwrite) as [_ Hd4].
  pose proof (network_stored _ Hs4 Hh4 Hask Hroom4) as Hd5.
  destruct (step_deliveries n w Hok) as (due & waiting & w5 & -> & _ & _ & _ & Hs5 & Hroom5 & _ & _ & Hbc).
  rewrite world_step_checks. destruct (check_world_frame (before_check w)) as (Hd & _). eapply queues_same; [exact Hd|]. rewrite Hbc.
  apply (queues_deliver_all P HP Henc σ η due waiting); [done|done|]. intros i d' Hi. cbn in Hi.
  destruct (Hd5 i d' Hi) as (d4 & Hi4 & ->). destruct (Hd4 i d4 Hi4) as (d0 & Hi0 & -> & _). by eapply Hq.
Qed.

(** The server of a quiet step: its commits, then what good pushes do. *)
Lemma step_serves R `{!PreOrder R} good n w :
  (∀ req k s g, good req → R s (push_prefix req k s g).1.1) →
  world_ok σ η (S n) w → calm_world w → written w → queues (λ _ l, ∀ req, pushes l req → good req) w →
  R (advance_commits (server w)) (server (world_step w)).
Proof using All.
  intros HR Hok Hcalm Hwrite Hq. destruct (network_room n w Hok) as (Hs4 & Hh4 & Hask & Hroom4).
  destruct (before_network_sends n w Hok Hcalm Hwrite) as [<- Hd4].
  destruct (step_deliveries n w Hok) as (due & waiting & w5 & -> & _ & _ & _ & Hs5 & Hroom5 & _ & _ & Hbc).
  destruct (deliver_all Henc σ η due waiting _ Hs5 Hroom5) as [_ [_ Hfr _]]. rewrite <- Hbc in Hfr.
  rewrite world_step_checks. destruct (check_world_frame (before_check w)) as (_ & -> & _). rewrite (framed_server _ _ Hfr). cbn.
  apply (network_serves R good HR Henc σ η); [done..|]. intros i d Hi. destruct (Hd4 i d Hi) as (d0 & Hi0 & Hst & Hsend & _).
  eapply Forall_impl; [exact Hsend|]. rewrite Hst.
  intros [req|req|req]; [done|done|]. by apply (Hq i d0).
Qed.
End step.
