(* ===== verification/WorldDrain.v ===== *)
(** * WorldDrain: with the faults off, every outbox empties and the world falls asleep.

    Two quiet steps are enough for a device to push, be answered and take the answer; the server
    always takes at least one command of a push, so a queue is at least one shorter. Once the
    queues have drained, which takes no more entries than commands were queued, four more steps
    commit what was written, and the server never moves again. *)

From S2P Require Import Prelude Errors Nums Ids Json Wire Integrity Core Registry Migrate Outbox.
From S2P Require Import Storage SimStorage Apply Engine EngineFacts EngineSteps Place Ledger.
From S2P Require Import Server Dedupe Rng FaultMenu Pressure SimServer SimServerFacts SimReads SimFeed SimCommands.
From S2P Require Import Invariants InvariantFacts Trace World Deliveries WorldDevices WorldServer WorldSteps.
From S2P Require Import WorldCarry WorldSound WorldPhases WorldClean WorldRuns WorldQuiet WorldArrive WorldQueues.
From stdpp Require Import options.

(** ** What a push is answered *)

Section answering.
Context `{Hashes} `{Codec}.
Hypothesis Hwrite : ∀ c : Command.t, writable c.

Lemma apply_command_own c s rng :
  records_own s → CommandResult.id (apply_command c s rng).2 = Command.id c ∧ records_own (apply_command c s rng).1.1.
Proof using Hwrite.
  destruct (Hwrite c) as [_ [cs Hcs]]. destruct (apply_command c s rng) as [[s' g] r] eqn:Ha. by apply (apply_command_facts _ _ _ _ _ _ _ Hcs Ha).
Qed.

Lemma push_results_ids cs s rng : records_own s → CommandResult.id <$> (push_results cs s rng).2 = Command.id <$> cs.
Proof using Hwrite.
  revert s rng. induction cs as [|c cs IH]; intros s rng Hs; [done|]. cbn [push_results].
  destruct (apply_command_own c s rng Hs) as [Hid Hs1]. destruct (apply_command c s rng) as [[s1 g1] r]. cbn [fst snd] in *.
  specialize (IH s1 g1 Hs1). destruct (push_results cs s1 g1) as [[s2 g2] rs]. csimpl in *. by rewrite Hid, IH.
Qed.

(** A loaded server or not, at least one of the commands offered is taken. *)
Lemma accept_some p offered : 0 < offered → 0 < (Pressure.accept_count p offered).2.
Proof.
  intros Ho. unfold Pressure.accept_count. destruct (Z.eqb_spec offered 0); [lia|]. destruct (Pressure.load p); cbn; lia.
Qed.

(** A flight that answers commands of the front of a queue. *)
Definition answers_front (l : list OutboxEntry.t) (f : InFlight.t) : Prop :=
  ∃ response dn rest, InFlight.response f = Ok (PushResp response) ∧ l = dn ++ rest ∧ dn ≠ [] ∧
    CommandResult.id <$> PushResponse.results response = OutboxEntry.id <$> dn.

Lemma push_answered i d w id l req :
  devices w !! i = Some d → rates w = FaultRates.none → records_own (server w) → pushes l req →
  ∃ f, f ∈ in_flight (carry_request i w (id, Push req)) ∧
    InFlight.device f = i ∧ InFlight.deliver_at_ms f = now_ms w + 10 ∧ answers_front l f.
Proof using Hwrite.
  intros Hd Hr Hs (dn & rest & -> & Hne & Hreq). unfold carry_request. rewrite Hd. cbn [rates on_device set_devices]. rewrite Hr, response_quiet.
  rewrite bool_decide_eq_false_2 by done.
  set (w1 := set_rng _ _). assert (rates w1 = FaultRates.none) as Hr1 by exact Hr. rewrite Hr1.
  change (FaultRates.protocol_violation FaultRates.none) with 0. rewrite no_chance. cbn [answer snd]. set (w2 := set_rng (rng w1) w1).
  pose proof (accept_some (pressure w2) (Z.of_nat (length (PushRequest.commands req)))) as Hsome.
  destruct (Pressure.accept_count _ _) as [p n]. cbn [snd] in Hsome.
  assert (0 < n) as Hn by (apply Hsome; rewrite Hreq, length_fmap; destruct dn; [done|cbn; lia]).
  unfold push_prefix. cbn [server rng set_pressure].
  pose proof (push_results_ids (take (Z.to_nat n) (PushRequest.commands req)) (server w2) (rng w2) Hs) as Hids.
  destruct (push_results _ _ _) as [[s g] rs]. cbn [snd] in Hids. set (w3 := set_rng g _).
  assert (rates w3 = FaultRates.none) as Hr3 by exact Hr. rewrite Hr3.
  eexists (InFlight.mk i (now_ms w + 10) _). split; [cbn; apply elem_of_app; right; by left|]. split_and!; [done..|].
  eexists _, (take (Z.to_nat n) dn), (drop (Z.to_nat n) dn ++ rest). split; [done|]. split; [by rewrite app_assoc, take_drop|].
  split; [destruct dn; [done|]; by destruct (Z.to_nat n) eqn:?; [lia|]|].
  cbn [PushResponse.results]. rewrite Hids, Hreq, fmap_take, <- list_fmap_compose, <- fmap_take. done.
Qed.
End answering.

(** ** A command's way *)

Section draining.
Context `{Hashes} `{Codec} `{!CodecArrays}.
Hypothesis Henc : ∀ c : Change.t, encodable c.
Hypothesis Hwrite : ∀ c : Command.t, writable c.
Variables (σ : ScopeId.t) (η : EntityName.t).
Abbreviation sound := (WorldSound.sound σ η).

(** The first request a device hands over is its push. *)
Lemma carry_device_pushes i d w :
  devices w !! i = Some d → asks σ d → sends_own d → pushing d → v_outbox (stored d) ≠ [] →
  records_own (server w) → rates w = FaultRates.none →
  ∃ f, f ∈ in_flight (carry_device w i) ∧
    InFlight.device f = i ∧ InFlight.deliver_at_ms f = now_ms w + 10 ∧ answers_front (v_outbox (stored d)) f.
Proof using Hwrite.
  intros Hd Hask Hown Hpush Hne Hs Hr. unfold carry_device. rewrite Hd. unfold SimTransport.drain.
  set (t := SimTransport.mk [] _ _). set (w1 := on_device i _ w).
  assert (devices w1 !! i = Some (Device.with_transport (λ _, t) d)) as Hd1 by (cbn; by rewrite list_lookup_alter_eq, Hd).
  destruct (Hpush Hne) as [req Hin]. destruct Hask as (ps & qs & Houts & Hps & Hqs).
  assert (∃ req', ps = [Push req']) as [req' ->].
  { destruct Hps as [->|(req' & -> & _)]; [|by eexists]. rewrite Houts in Hin.
    destruct Hqs as [->| ->]; [by apply not_elem_of_nil in Hin|by apply list_elem_of_singleton in Hin]. }
  unfold sends_own in Hown. rewrite Houts in Hown. apply Forall_cons in Hown as [Hp _].
  unfold requests in Houts. destruct (SimTransport.pending _) as [|[id r] outs]; [done|]. injection Houts as -> _.
  rewrite fold_left_step.
  destruct (push_answered Hwrite i _ w1 id (v_outbox (stored d)) req' Hd1 Hr Hs Hp) as (f & Hf & Hi & Ht & Ha).
  exists f. split; [|done]. by apply carry_all_passes.
Qed.

Lemma network_pushes n i d w :
  world_ok σ η (S n) w → calm_world w → devices w !! i = Some d → v_outbox (stored d) ≠ [] →
  ∃ f, f ∈ in_flight (carry_network (before_network w)) ∧
    InFlight.device f = i ∧ InFlight.deliver_at_ms f = now_ms w + STEP_MS + 10 ∧ answers_front (v_outbox (stored d)) f.
Proof using All.
  intros Hok Hcalm Hd Hne. destruct (network_room Henc σ η n w Hok) as (Hs4 & Hh4 & Hask & Hroom4).
  destruct (before_network_ok Henc σ η n w Hok) as (_ & He4 & _). pose proof (evolves_settings _ _ _ _ _ He4) as (_ & _ & Hr4 & Hn4 & _).
  destruct (before_network_sends Henc σ η n w Hok Hcalm (written_all w Hwrite)) as [_ Hsends]. set (w4 := before_network w) in *.
  destruct (Forall2_lookup_l _ _ _ _ _ (evolves_devices _ _ _ _ _ He4) Hd) as (d4 & Hd4 & _).
  destruct (Hsends i d4 Hd4) as (d0 & Hd0 & Hst & Hown & Hpush). rewrite Hd in Hd0. injection Hd0 as <-. rewrite <- Hst in Hne |- *.
  cbn in Hr4, Hn4. rewrite (calm_rates _ Hcalm) in Hr4. pose proof (lookup_lt_Some _ _ _ Hd4) as Hlt.
  destruct (networked_upto Henc σ η w4 i Hs4 Hh4 Hask ltac:(lia) Hroom4) as [Hs1 Hset _ _ Hdev _ _].
  unfold carry_network. replace (length (devices w4)) with (i + S (length (devices w4) - S i))%nat by lia.
  rewrite seq_app, fold_left_app. cbn [seq Nat.add]. rewrite fold_left_step. set (w1 := fold_left carry_device (seq 0 i) w4) in *.
  destruct Hset as (_ & _ & Hr1 & Hn1 & _). destruct (Hdev i d4 Hd4) as (d' & Hd1 & He). destruct (Nat.ltb_spec i i); [lia|]. subst d'.
  destruct (carry_device_pushes i d4 w1 Hd1) as (f & Hf & Hi & Ht & Ha);
    [by eapply Hask|done|done|done|by eapply ok_records, sound_server|congruence|].
  exists f. split; [|split; [done|split; [rewrite Ht, Hn1, Hn4; done|done]]].
  apply release_passes. cbn [in_flight set_held]. by apply carry_devices_passes.
Qed.

(** Taking an answer due takes its commands out of the queue, for good. *)
Definition without_id (i : nat) (id : CommandId.t) (j : nat) (l : list OutboxEntry.t) : Prop := j = i → id ∉ OutboxEntry.id <$> l.
Lemma without_answerable i id : answerable (without_id i id).
Proof.
  intros j l ids Hl ->. specialize (Hl eq_refl). intros (x & -> & [_ Hx]%list_elem_of_filter)%list_elem_of_fmap.
  apply Hl. apply list_elem_of_fmap. by exists x.
Qed.

Lemma deliver_answers q f w id response :
  sound q w → room w → rates w = FaultRates.none →
  InFlight.response f = Ok (PushResp response) → id ∈ CommandResult.id <$> PushResponse.results response →
  queues (without_id (InFlight.device f) id) (deliver w f).
Proof using All.
  intros Hs Hroom Hr Hf Hid. unfold deliver. rewrite Hf. set (i := InFlight.device f) in *.
  destruct (silent_delivers Henc σ η i q w (arm_storage i w) Hs Hroom (arm_moves σ η (server w) i w)) as [Hs1 _].
  assert (Harm : ∀ d, devices w !! i = Some d → devices (arm_storage i w) !! i = Some (Device.with_storage (Db.set_verdict Commit) d))
    by (intros d; by apply arm_quiet).
  pose proof (moves_frame _ _ _ _ (arm_stored i w)) as Hf1. apply framed_length in Hf1.
  set (w1 := arm_storage i w) in *. pose proof (call_moves i (apply_results response) w1) as Hm.
  destruct (engine_call i (apply_results response) w1) as [w2 r]. cbn [fst] in Hm.
  assert (queues (without_id i id) w2) as Hq2.
  { intros j d2 Hd2 ->. pose proof (framed_length _ _ (moves_frame _ _ _ _ Hm)) as Hl2.
    destruct (lookup_lt_is_Some_2 (devices w) i) as [d Hd]; [rewrite <- Hf1, <- Hl2; by eapply lookup_lt_Some|].
    specialize (Harm d Hd). destruct (moves_at _ _ _ _ Hm _ Harm) as (d2' & Hd2' & ->). rewrite Hd2 in Hd2'. injection Hd2' as ->.
    rewrite stored_engine. apply results_answered; [|by cbn; destruct (storage (Device.engine d))|done].
    destruct (sound_device _ _ _ _ Hs1 i _ Harm) as [[? _] _ _ _ _]. done. }
  eapply queues_stored; [apply kill_stored|]. by eapply queues_same; [|exact Hq2].
Qed.

Lemma deliver_all_answers f id response due rest w :
  sound (λ i, batches_for i (due ++ rest)) w → room w → rates w = FaultRates.none →
  f ∈ due → InFlight.response f = Ok (PushResp response) → id ∈ CommandResult.id <$> PushResponse.results response →
  queues (without_id (InFlight.device f) id) (fold_left deliver due w).
Proof using All.
  intros Hs Hroom Hr Hf Hresp Hid. revert w Hs Hroom Hr.
  induction due as [|f0 due IH]; intros w Hs Hroom Hr; [by apply not_elem_of_nil in Hf|]. rewrite fold_left_step.
  destruct (deliver_sound Henc σ η _ f0 (batches_for (InFlight.device f0) (due ++ rest)) w Hs Hroom) as [Hs1 Hd1].
  { cbn [app]. rewrite batches_for_cons. by rewrite decide_True. }
  assert (Hs1' : sound (λ i, batches_for i (due ++ rest)) (deliver w f0)).
  { eapply sound_queues; [|exact Hs1]. intros j. unfold dequeued. case_decide; [by subst j|].
    cbn [app]. rewrite batches_for_cons. by rewrite decide_False by done. }
  assert (Hroom1 : room (deliver w f0)) by by eapply delivers_room.
  apply elem_of_cons in Hf as [->|Hf].
  - apply (queues_deliver_all _ (without_answerable _ _) Henc σ η due rest); [done..|].
    by apply (deliver_answers (λ i, batches_for i ((f0 :: due) ++ rest)) f0 w id response).
  - apply IH; [done..|]. by rewrite (delivers_rates _ _ _ Hd1).
Qed.

(** An answer in flight at the start of a quiet step, and due in it. *)
Lemma flight_answers n w f id response :
  world_ok σ η (S n) w → calm_world w → f ∈ in_flight w → InFlight.deliver_at_ms f ≤ now_ms w + STEP_MS →
  InFlight.response f = Ok (PushResp response) → id ∈ CommandResult.id <$> PushResponse.results response →
  queues (without_id (InFlight.device f) id) (world_step w).
Proof using All.
  intros Hok Hcalm Hf Ht Hresp Hid.
  destruct (step_deliveries Henc σ η n w Hok) as (due & waiting & w5 & Hw5 & Hfl & Hdue & Hwait & Hs5 & Hroom5 & Hnow & Hr5 & Hbc).
  assert (f ∈ due) as Hin.
  { assert (f ∈ in_flight w5) as Hf5.
    { rewrite Hw5. apply carry_network_passes. destruct (before_network_ok Henc σ η n w Hok) as (_ & _ & _ & -> & _). done. }
    rewrite Hfl in Hf5. apply elem_of_app in Hf5 as [|Hin]; [done|]. rewrite Forall_forall in Hwait. specialize (Hwait f Hin). lia. }
  rewrite world_step_checks. destruct (check_world_frame (before_check w)) as (Hd & _). eapply queues_same; [exact Hd|]. rewrite Hbc.
  eapply deliver_all_answers; [done|done| |done|done|done]. cbn. rewrite Hr5. apply Hcalm.
Qed.

(** Queues only lose commands. *)
Definition part_of (i : nat) (l0 : list OutboxEntry.t) (j : nat) (l : list OutboxEntry.t) : Prop := j = i → l `sublist_of` l0.
Lemma part_answerable i l0 : answerable (part_of i l0).
Proof. intros j l ids Hl Hj. etransitivity; [apply sublist_filter|by apply Hl]. Qed.

Definition outbox_at (w : World) (i : nat) : list OutboxEntry.t :=
  match devices w !! i with Some d => v_outbox (stored d) | None => [] end.
Lemma outbox_part w i : queues (part_of i (outbox_at w i)) w.
Proof. intros j d Hd ->. unfold outbox_at. by rewrite Hd. Qed.
Lemma part_outbox w i l : queues (part_of i l) w → outbox_at w i `sublist_of` l.
Proof. intros Hq. unfold outbox_at. destruct (devices w !! i) as [d|] eqn:Hd; [by apply (Hq i d Hd)|apply sublist_nil_l]. Qed.

Lemma step_parts n w i l :
  world_ok σ η (S n) w → calm_world w → outbox_at w i `sublist_of` l → outbox_at (world_step w) i `sublist_of` l.
Proof using All.
  intros Hok Hcalm Hl. etransitivity; [|exact Hl]. apply part_outbox.
  apply (step_queues Henc σ η _ n); [apply part_answerable|done|done|by apply written_all|apply outbox_part].
Qed.

Lemma sublist_full {A} (l l0 : list A) : l `sublist_of` l0 → (length l0 ≤ length l)%nat → l = l0.
Proof.
  induction 1 as [|x l l0 _ IH|x l l0 Hs _]; cbn; intros Hl; [done|by rewrite IH by lia|]. apply sublist_length in Hs. lia.
Qed.
Lemma sublist_shorter (l l0 : list OutboxEntry.t) id :
  l `sublist_of` l0 → id ∈ OutboxEntry.id <$> l0 → id ∉ OutboxEntry.id <$> l → (length l < length l0)%nat.
Proof.
  intros Hl Hin Hout. destruct (Nat.lt_ge_cases (length l) (length l0)) as [|Hge]; [done|].
  by rewrite (sublist_full _ _ Hl Hge) in Hout.
Qed.

(** Two quiet steps make a queue shorter. *)
Lemma two_steps_shorter n w i :
  world_ok σ η (S (S n)) w → calm_world w → outbox_at w i ≠ [] →
  (length (outbox_at (world_step (world_step w)) i) < length (outbox_at w i))%nat.
Proof using All.
  intros Hok Hcalm Hne. destruct (devices w !! i) as [d|] eqn:Hd; [|by unfold outbox_at in Hne; rewrite Hd in Hne].
  assert (outbox_at w i = v_outbox (stored d)) as Ho by (unfold outbox_at; by rewrite Hd). rewrite Ho in Hne.
  destruct (network_pushes (S n) i d w Hok Hcalm Hd Hne) as (f & Hf & <- & Ht & response & dn & rest & Hresp & Hsplit & Hdn & Hids).
  assert (f ∈ in_flight (world_step w)) as Hf1 by (eapply (flight_waits Henc σ η (S n)); [done|done|unfold STEP_MS in *; lia]).
  destruct dn as [|x dn]; [done|]. assert (OutboxEntry.id x ∈ CommandResult.id <$> PushResponse.results response) as Hx by (rewrite Hids; by left).
  pose proof (step_calm Henc σ η (S n) w Hok Hcalm) as Hcalm1. destruct (world_step_ok Henc σ η (S n) w Hok) as (Hok1 & _).
  assert (now_ms (world_step w) = now_ms w + STEP_MS) as Hnow.
  { destruct (before_check_stepped Henc σ η (S n) w Hok) as [_ _ _ _ Hn6 _]. rewrite world_step_checks.
    by destruct (check_world_frame (before_check w)) as (_ & _ & _ & _ & -> & _). }
  pose proof (flight_answers n (world_step w) f _ response Hok1 Hcalm1 Hf1 ltac:(unfold STEP_MS in *; lia) Hresp Hx) as Hgone.
  apply sublist_shorter with (OutboxEntry.id x).
  - eapply step_parts; [done|done|]. by eapply step_parts.
  - rewrite Ho, Hsplit. by left.
  - unfold outbox_at. destruct (devices (world_step (world_step w)) !! _) as [d2|] eqn:Hd2; [by eapply Hgone|apply not_elem_of_nil].
Qed.

(** As many pairs of quiet steps as commands queued. *)
Lemma drains k n w i :
  world_ok σ η (2 * k + n) w → calm_world w → (length (outbox_at w i) ≤ k)%nat →
  outbox_at (Nat.iter (2 * k) world_step w) i = [].
Proof using All.
  revert w. induction k as [|k IH]; intros w Hok Hcalm Hlen; [by apply nil_length_inv; cbn in *; lia|].
  replace (2 * S k)%nat with (S (S (2 * k))) in * by lia. rewrite !Nat.iter_succ_r.
  pose proof (step_calm Henc σ η _ w Hok Hcalm) as Hcalm1. destruct (world_step_ok Henc σ η _ w Hok) as (Hok1 & _).
  pose proof (step_calm Henc σ η _ _ Hok1 Hcalm1) as Hcalm2. destruct (world_step_ok Henc σ η _ _ Hok1) as (Hok2 & _).
  apply IH; [done|done|]. destruct (decide (outbox_at w i = [])) as [Hnil|Hne].
  - assert (outbox_at (world_step (world_step w)) i `sublist_of` []) as ->%sublist_nil_r; [|cbn; lia].
    eapply step_parts; [done|done|]. eapply step_parts; [done|done|]. by rewrite Hnil.
  - pose proof (two_steps_shorter (2 * k + n) w i Hok Hcalm Hne). lia.
Qed.
End draining.

(** ** What the server may still write *)

Section spending.
Context `{Hashes} `{Codec}.
Hypothesis Hwrite : ∀ c : Command.t, writable c.
Variable ids : list CommandId.t.

(** The next seq there will be once every command of [ids] is answered, at most. *)
Definition unanswered (s : Server) : list CommandId.t := filter (λ id, dedupe s !! id = None) ids.
Definition spent (s : Server) : Z := next_seq s + Z.of_nat (length (unanswered s)).
Definition spends (s s' : Server) : Prop := records_own s → records_own s' ∧ spent s' ≤ spent s.
#[export] Instance spends_preorder : PreOrder spends.
Proof.
  split; [by intros s|]. intros x y z Hxy Hyz Hx. destruct (Hxy Hx) as [Hy ?]. destruct (Hyz Hy). split; [done|lia].
Qed.
Lemma spends_same s s' : next_seq s' = next_seq s → dedupe s' = dedupe s → spends s s'.
Proof. intros Hn Hd. unfold spends, spent, unanswered, records_own. rewrite Hn, Hd. by split. Qed.

Lemma apply_fresh_next entity scope c s rng : next_seq (apply_fresh entity scope c s rng).1.1 ≤ next_seq s + 1.
Proof.
  unfold apply_fresh. destruct (Rng.below rng 100) as [rng' roll]. destruct (roll <? 80); [|destruct (roll <? 90); cbn; lia].
  unfold append, push_entry, index_entry, record_version. simpl. destruct (0 <? hold_next s); simpl; lia.
Qed.
(** Only a command without an answer may be given a seq. *)
Lemma apply_command_next c s rng :
  next_seq (apply_command c s rng).1.1 ≤ next_seq s + (match dedupe s !! Command.id c with Some _ => 0 | None => 1 end).
Proof using Hwrite.
  destruct (Hwrite c) as [_ [cs Hcs]]. unfold apply_command, decide_replay. rewrite Hcs. cbn [map_err res_bind unwrap_or].
  destruct (dedupe s !! Command.id c) as [d|]; cbn [fmap option_fmap option_map].
  - destruct (negb _); cbn; lia.
  - destruct (command_targets s !! _) as [[e sc]|]; [|cbn; lia]. pose proof (apply_fresh_next e sc c s rng) as Hn.
    destruct (apply_fresh e sc c s rng) as [[s1 g1] r1]. exact Hn.
Qed.

Lemma apply_command_spends c s rng : Command.id c ∈ ids → spends s (apply_command c s rng).1.1.
Proof using Hwrite.
  intros Hin Hrec. split; [by apply (apply_command_own Hwrite)|]. pose proof (apply_command_next c s rng) as Hn.
  destruct (Hwrite c) as [_ [cs Hcs]]. destruct (apply_command c s rng) as [[s' g] r] eqn:Ha. cbn [fst] in *.
  destruct (apply_command_facts _ _ _ _ _ _ _ Hcs Ha) as ((cs' & _ & Hown) & Hother & _). unfold spent.
  assert (Hsub : ∀ id, dedupe s' !! id = None → dedupe s !! id = None).
  { intros id Hid. rewrite <- Hother; [done|]. intros ->. congruence. }
  assert (unanswered s' = filter (λ id, dedupe s' !! id = None) (unanswered s)) as Heq.
  { unfold unanswered. symmetry. by apply list_filter_filter_l. }
  destruct (dedupe s !! Command.id c) as [d|] eqn:Hd.
  - pose proof (length_filter (λ id, dedupe s' !! id = None) (unanswered s)). rewrite <- Heq in *. lia.
  - enough (length (unanswered s') < length (unanswered s))%nat by lia. rewrite Heq.
    apply length_filter_lt with (Command.id c); [by apply list_elem_of_filter|congruence].
Qed.

Lemma push_spends req n s g : Forall (λ c, Command.id c ∈ ids) (PushRequest.commands req) → spends s (push_prefix req n s g).1.1.
Proof using Hwrite.
  intros Hall. apply (Forall_take _ n) in Hall. unfold push_prefix. revert Hall. generalize (take n (PushRequest.commands req)) as cs. intros cs Hall.
  enough (spends s (push_results cs s g).1.1) as Hs by (by destruct (push_results cs s g) as [[s' g'] rs]).
  revert s g. induction Hall as [|c cs Hc _ IH]; intros s g; [done|]. cbn [push_results].
  pose proof (apply_command_spends c s g Hc) as Hs. destruct (apply_command c s g) as [[s1 g1] r]. cbn [fst] in Hs.
  specialize (IH s1 g1). destruct (push_results cs s1 g1) as [[s2 g2] rs]. cbn [fst] in *. by etransitivity.
Qed.
End spending.

(** ** Falling asleep

    With nothing to push a quiet server only commits; and when nothing is left to commit it
    never moves. *)

Section asleep.
Context `{Hashes} `{Codec} `{!CodecArrays}.
Hypothesis Henc : ∀ c : Change.t, encodable c.
Variables (σ : ScopeId.t) (η : EntityName.t).

Lemma dry_pushes_none w : dry w → queues (λ _ l, ∀ req, pushes l req → False) w.
Proof. intros Hdry i d Hd req (dn & rest & Hl & Hne & _). rewrite (Hdry i d Hd) in Hl. by destruct dn. Qed.

Lemma step_dry n w :
  world_ok σ η (S n) w → calm_world w → dry w →
  dry (world_step w) ∧ server (world_step w) = advance_commits (server w).
Proof using All.
  intros Hok Hcalm Hdry. pose proof (dry_written w Hdry) as Hwrite. split.
  - apply (step_queues Henc σ η _ n); [apply dry_answerable|done..].
  - symmetry. apply (step_serves Henc σ η eq (λ _, False) n); [done|done|done|done|by apply dry_pushes_none].
Qed.

Record asleep (w : World) : Prop := MkAsleep {
  asleep_calm : calm_world w;
  asleep_settled : in_flight_writes (server w) = 0%nat;
  asleep_dry : dry w;
}.

Lemma advance_settled s : in_flight_writes s = 0%nat → advance_commits s = s.
Proof.
  unfold in_flight_writes, advance_commits. intros Hnil%nil_length_inv. rewrite Hnil. cbn. destruct s; cbn in *. by subst.
Qed.

Lemma step_asleep n w : world_ok σ η (S n) w → asleep w → asleep (world_step w) ∧ server (world_step w) = server w.
Proof using All.
  intros Hok [Hcalm Hfl Hdry]. destruct (step_dry n w Hok Hcalm Hdry) as [Hdry' Hs]. rewrite advance_settled in Hs by done.
  split; [|done]. split; [by apply (step_calm Henc σ η n)|by rewrite Hs|done].
Qed.

Lemma asleep_steps k n w : world_ok σ η (k + n) w → asleep w →
  asleep (Nat.iter k world_step w) ∧ server (Nat.iter k world_step w) = server w.
Proof using All.
  revert n. induction k as [|k IH]; intros n Hw Ha; [done|]. rewrite Nat.iter_succ.
  assert (world_ok σ η (k + S n) w) as Hw1 by by replace (k + S n)%nat with (S k + n)%nat by lia.
  destruct (IH (S n) Hw1 Ha) as [Ha' Hs]. destruct (world_steps_ok Henc σ η k (S n) w Hw1) as (Hw' & _).
  destruct (step_asleep n _ Hw' Ha') as [? ->]. done.
Qed.
End asleep.

Section falling.
Context `{Hashes} `{Codec} `{!CodecArrays}.
Hypothesis Henc : ∀ c : Change.t, encodable c.
Variables (σ : ScopeId.t) (η : EntityName.t).

(** Every command queued on any device. *)
Definition backlog (w : World) : list OutboxEntry.t := flat_map (λ d, v_outbox (stored d)) (devices w).

Lemma backlog_device w i d : devices w !! i = Some d → ∃ before after, backlog w = before ++ v_outbox (stored d) ++ after.
Proof.
  unfold backlog. intros (l1 & l2 & ->)%list_elem_of_lookup_2%list_elem_of_split. rewrite flat_map_app. by eexists _, _.
Qed.

Lemma dry_steps k n w :
  world_ok σ η (k + n) w → calm_world w → dry w →
  dry (Nat.iter k world_step w) ∧ server (Nat.iter k world_step w) = Nat.iter k advance_commits (server w).
Proof using All.
  revert n. induction k as [|k IH]; intros n Hw Hc Hdry; [done|]. rewrite !Nat.iter_succ.
  assert (world_ok σ η (k + S n) w) as Hw1 by by replace (k + S n)%nat with (S k + n)%nat by lia.
  destruct (IH (S n) Hw1 Hc Hdry) as [Hdry' <-]. destruct (calm_steps Henc σ η k (S n) w Hw1 Hc) as [Hw' Hc'].
  by apply (step_dry Henc σ η n).
Qed.

(** Four quiet steps commit whatever a dry world has written. *)
Lemma dry_falls n w :
  world_ok σ η (4 + n) w → calm_world w → dry w →
  asleep (Nat.iter 4 world_step w) ∧ next_seq (server (Nat.iter 4 world_step w)) = next_seq (server w).
Proof using All.
  intros Hok Hc Hdry. destruct (dry_steps 4 n w Hok Hc Hdry) as [Hdry' Hs]. destruct (calm_steps Henc σ η 4 n w Hok Hc) as [Hok' Hc'].
  pose proof (sound_server _ _ _ _ (ok_sound _ _ _ _ Hok)) as Hsv. split; [split; [done| |done]|].
  - rewrite Hs. unfold in_flight_writes. rewrite commits_drain; [done|apply (ok_waits _ _ _ Hsv)|].
    eapply Forall_impl; [exact (wf_flight _ (ok_wf _ _ _ Hsv))|]. by intros x [_ ?].
  - rewrite Hs. generalize 4%nat as k. induction k as [|k IH]; [done|]. rewrite Nat.iter_succ.
    by destruct (advance_commits_facts (Nat.iter k advance_commits (server w))) as (_ & _ & _ & _ & _ & -> & _).
Qed.

Hypothesis Hwrite : ∀ c : Command.t, writable c.

(** What quiet steps write, they write for commands that were queued. *)
Lemma spends_steps ids k n w :
  world_ok σ η (k + n) w → calm_world w → queues (λ _ l, Forall (λ e, OutboxEntry.id e ∈ ids) l) w →
  spends ids (server w) (server (Nat.iter k world_step w)).
Proof using All.
  revert n. set (P := λ (_ : nat) l, Forall (λ e, OutboxEntry.id e ∈ ids) l). intros n Hw Hc Hq.
  assert (answerable P) as HP by (intros i l ids' Hl; unfold P in *; rewrite Forall_forall in *; intros e [_ He]%list_elem_of_filter; auto).
  enough (queues P (Nat.iter k world_step w) ∧ spends ids (server w) (server (Nat.iter k world_step w))) by tauto.
  revert n Hw. induction k as [|k IH]; intros n Hw; [by split|]. rewrite !Nat.iter_succ.
  assert (world_ok σ η (k + S n) w) as Hw1 by by replace (k + S n)%nat with (S k + n)%nat by lia.
  destruct (IH (S n) Hw1) as [Hq' Hsp]. destruct (calm_steps Henc σ η k (S n) w Hw1 Hc) as [Hw' Hc'].
  set (w1 := Nat.iter k world_step w) in *. clearbody w1. split.
  - apply (step_queues Henc σ η P n); [done|done|done|by apply written_all|done].
  - etransitivity; [exact Hsp|]. transitivity (advance_commits (server w1)).
    + destruct (advance_commits_facts (server w1)) as (_ & _ & _ & _ & _ & Hn & _). apply spends_same; [done|].
      unfold advance_commits. by destruct (fold_left _ _ _).
    + apply (step_serves Henc σ η (spends ids) (λ req, Forall (λ c, Command.id c ∈ ids) (PushRequest.commands req)) n);
        [intros; by apply push_spends|done|done|by apply written_all|].
      intros i d Hd req (dn & rest & Hl & _ & ->). specialize (Hq' i d Hd). unfold P in Hq'. rewrite Hl in Hq'.
      apply Forall_app in Hq' as [Hdn _]. by apply Forall_fmap.
Qed.

(** Two quiet steps for each command queued, and four more: nothing is left to do, and no more
    entries were written than commands were queued. *)
Lemma falls_asleep m n w :
  m = (4 + 2 * length (backlog w))%nat → world_ok σ η (m + n) w → calm_world w →
  asleep (Nat.iter m world_step w) ∧
  next_seq (server w) ≤ next_seq (server (Nat.iter m world_step w)) ≤ next_seq (server w) + Z.of_nat (length (backlog w)).
Proof using All.
  set (k := length (backlog w)). intros -> Hok Hc. rewrite Nat.iter_add.
  assert (world_ok σ η (2 * k + (4 + n)) w) as Hok1 by by replace (2 * k + (4 + n))%nat with (4 + 2 * k + n)%nat by lia.
  destruct (calm_steps Henc σ η (2 * k) (4 + n) w Hok1 Hc) as [Hok' Hc'].
  set (ids := OutboxEntry.id <$> backlog w).
  assert (spends ids (server w) (server (Nat.iter (2 * k) world_step w))) as Hsp.
  { eapply spends_steps; [exact Hok1|done|]. intros i d Hd. destruct (backlog_device w i d Hd) as (l1 & l2 & Hl).
    apply Forall_forall. intros e He. apply list_elem_of_fmap. exists e. split; [done|]. rewrite Hl, !elem_of_app. auto. }
  assert (dry (Nat.iter (2 * k) world_step w)) as Hdry.
  { intros i d' Hd'. destruct (world_steps_ok Henc σ η (2 * k) (4 + n) w Hok1) as (_ & _ & _ & Hfw).
    destruct (Forall2_lookup_r _ _ _ _ _ Hfw Hd') as (d & Hd & _). destruct (backlog_device w i d Hd) as (l1 & l2 & Hl).
    pose proof (drains Henc Hwrite σ η k (4 + n) w i Hok1 Hc) as Ho. unfold outbox_at in Ho. rewrite Hd, Hd' in Ho.
    apply Ho. unfold k. rewrite Hl, !length_app. lia. }
  pose proof (steps_grow Henc σ η (2 * k) (4 + n) w Hok1) as [Hg _].
  destruct Hsp as [_ Hsp]; [apply (ok_records _ _ _ (sound_server _ _ _ _ (ok_sound _ _ _ _ Hok)))|].
  set (w1 := Nat.iter (2 * k) world_step w) in *. clearbody w1.
  destruct (dry_falls n w1 Hok' Hc' Hdry) as [Ha ->]. split; [done|]. split; [done|].
  assert (length (unanswered ids (server w)) ≤ k)%nat as Hk.
  { etransitivity; [apply length_filter|]. unfold ids. by rewrite length_fmap. }
  unfold spent in Hsp. lia.
Qed.
End falling.
