(* ===== verification/Concrete.v ===== *)
(** * Concrete: instances of the third-party interfaces and sample data.

    Theorems that rely on the JSON writer or on the hash functions take them as parameters.
    This file gives each parameter a concrete function that satisfies its laws, and a small
    population of scopes, rows and commands, so that every such theorem is applied to
    something. *)

From S2P Require Import Prelude Errors Nums Ids Json Wire Integrity Core Registry Migrate.
From S2P Require Import Outbox Storage SimStorage Apply Engine EngineFacts Ledger.
From S2P Require Import Server Database Log Replica.
From stdpp Require Import options.

(** ** A compact JSON writer (strings are written without escapes) *)

Definition quoted (s : string) : bytes := 34 :: as_bytes s ++ [34].
Definition number_bytes (n : Number) : bytes :=
  match n with
  | PosInt n => as_bytes (show n)
  | NegInt n => 45 :: as_bytes (show (- n))
  | Float _ => [48; 46; 48]
  end.
Fixpoint compact (v : Value) : bytes :=
  match v with
  | VNull => as_bytes "null"
  | VBool b => as_bytes (if b then "true" else "false")
  | VNumber n => number_bytes n
  | VString s => quoted s
  | VArray items => array_bytes (map compact items)
  | VObject m => 123 :: join_commas (map (λ kv, quoted kv.1 ++ 58 :: compact kv.2) m) ++ [125]
  end.

#[export] Instance compact_codec : Codec := { json_write v := Ok [compact v] }.

Lemma compact_to_vec v : json_to_vec v = Ok (compact v).
Proof. unfold json_to_vec. simpl. by rewrite app_nil_r. Qed.

#[export] Instance compact_arrays : CodecArrays.
Proof.
  split. intros items encs He. rewrite compact_to_vec. simpl. repeat f_equal.
  apply res_mapM_ok in He. induction He as [|x e items encs Hx _ IH]; [done|].
  simpl. rewrite IH. rewrite compact_to_vec in Hx. congruence.
Qed.

(** ** A polynomial hash *)

Definition poly_hash (l : bytes) : Z := fold_left (λ acc b, (acc * 257 + b + 1) mod u128_mod) l 7.
#[export] Instance poly_hashes : Hashes := {
  xxh3_128 l := poly_hash l;
  blake3_hash l := be_bytes 16 (poly_hash l) ++ be_bytes 16 (poly_hash (0 :: l));
}.

Lemma poly_hash_range l : 0 ≤ poly_hash l < u128_mod.
Proof.
  unfold poly_hash. assert (0 ≤ 7 < u128_mod) as H by done. revert H. generalize 7 as acc.
  induction l as [|b l IH]; intros acc Hacc; simpl; [done|]. apply IH, Z.mod_pos_bound. done.
Qed.

#[export] Instance poly_laws : HashLaws.
Proof.
  split; intros l.
  - apply poly_hash_range.
  - by cbn [blake3_hash poly_hashes]; rewrite length_app, !length_be_bytes.
  - cbn [blake3_hash poly_hashes]. apply Forall_app. by split; apply be_bytes_range.
Qed.

(** ** A small population *)

Definition scope_a : ScopeId.t := ScopeId.mk "user:a".
Definition scope_b : ScopeId.t := ScopeId.mk "inst:b".
Definition note : EntityName.t := EntityName.mk "note".
Definition grade : EntityName.t := EntityName.mk "grade".
Definition event : EntityName.t := EntityName.mk "event".
Definition row1 : EntityId.t := EntityId.mk "r1".
Definition row2 : EntityId.t := EntityId.mk "r2".
Definition v1 : SchemaVersion.t := SchemaVersion.mk 1.
Definition v2 : SchemaVersion.t := SchemaVersion.mk 2.
Definition doc (n : Z) : Value := VObject [("n", VNumber (PosInt n))].
Definition snap (n : Z) : Snapshot := MkDocument (doc n).
Definition pay (n : Z) : Payload := MkDocument (doc n).

Definition upsert (seq : Z) (e : EntityName.t) (i : EntityId.t) (version : Z) : Change.t :=
  Change.mk (Seq.mk seq) e i Upsert (Some (snap seq)) (RowVersion.mk version) v1.
Definition tombstone (seq : Z) (e : EntityName.t) (i : EntityId.t) (version : Z) : Change.t :=
  Change.mk (Seq.mk seq) e i Delete None (RowVersion.mk version) v1.

Definition demo_registry : Registry :=
  register_command (CommandName.mk "save_note") note
    (register_command (CommandName.mk "set_grade") grade
      (register_entity (EntityRegistration.mk note scope_a OwnerDraft v1)
        (register_entity (EntityRegistration.mk grade scope_b ServerAuthoritative v1)
          (register_entity (EntityRegistration.mk event scope_a AppendOnly v1) Registry_new)))).

Definition id_of (n : Z) : CommandId.t :=
  CommandId.mk [0; 0; 0; 0; 0; 0; 112; 0; 128; 0; 0; 0; 0; 0; 0; n].
Definition hex0 : HexString.t := hex_u128 0.
Definition save_note (n : Z) : Command.t :=
  Command.mk (id_of n) (CommandName.mk "save_note") scope_a (pay n) 0 hex0.
Definition set_grade (n : Z) : Command.t :=
  Command.mk (id_of n) (CommandName.mk "set_grade") scope_b (pay n) 0 hex0.
Definition queued (n : Z) : OutboxEntry.t := OutboxEntry.mk (save_note n) v1.

(** An engine over a storage, with the sample registry and no migrations. *)
Abbreviation demo_engine := (Engine () () Db.t () SimCompressor.t).
Definition engine_over (db : Db.t) : demo_engine :=
  set_registry (λ _, demo_registry) (new () () db () (SimCompressor.with_ratio 1)).
Definition fresh : demo_engine := engine_over Db.new.

Definition batch_of (cs : list Change.t) (next : Z) (more : bool) (digest : HexString.t) : Batch.t :=
  Batch.mk scope_a cs (Cursor.mk next) more hex0 digest.

(** The digest a server holding the given rows of [scope_a] reports. *)
Definition server_digest (rows : list (EntityName.t * EntityId.t * Z)) : HexString.t :=
  ScopeDigest.to_hex (ScopeDigest.from_rows ((λ '(e, i, v), (e, i, RowVersion.mk v)) <$> rows)).

Lemma demo_registry_wf : registry_wf demo_registry.
Proof. repeat apply register_command_wf. repeat apply register_entity_wf. apply Registry_new_wf. Qed.

(** ** A server log *)

Definition log_row (seq : Z) (id op : string) : ChangeRow.t :=
  ChangeRow.mk seq "note" id op (if String.eqb op "upsert" then Some (doc seq) else None) seq 1.
(** A scope whose numbering has gaps: its neighbours wrote the rest. *)
Definition sample_rows : list ChangeRow.t :=
  [log_row 2 "r1" "upsert"; log_row 5 "r2" "upsert"; log_row 9 "r1" "delete"; log_row 11 "r3" "upsert"].
Definition sample_tables : Tables :=
  MkTables ((LogRow.mk "user:a" <$> sample_rows) ++ [LogRow.mk "inst:b" (log_row 3 "x" "upsert")])
    11 true ∅ ∅ (Some 11).

Lemma sample_sound : log_sound (log_of sample_tables "user:a").
Proof.
  split.
  - apply (bool_decide_unpack _). vm_compute. exact I.
  - vm_compute log_of. repeat (constructor; [eexists; split; [vm_compute; reflexivity|]; eexists; vm_compute; reflexivity|]).
    constructor.
Qed.

(** The compact writer writes every change. *)
Lemma encodable_all (x : Change.t) : encodable x.
Proof. eexists. unfold to_vec. by rewrite compact_to_vec. Qed.
Lemma writable_all (c : Command.t) : writable c.
Proof. split; eexists; unfold payload_checksum, to_vec; by rewrite compact_to_vec. Qed.
