(* ===== verification/EngineClaims.v ===== *)
(** * EngineClaims: the properties of the client engine, with concrete witnesses. *)

From S2P Require Import Prelude Errors Nums Ids Json Wire Integrity Core Registry Migrate.
From S2P Require Import Outbox Storage SimStorage Apply Engine EngineFacts EngineSteps.
From S2P Require Import Place PushFacts Concrete.
From stdpp Require Import options.

(** ** Lemmas for the properties *)

Section lemmas.
Context {C E S T ZC : Type} `{!Storage S} `{!StorageLaws S} `{!Compressor ZC} `{Hashes} `{Codec}.
Abbreviation engine := (Engine C E S T ZC).
Implicit Types (en : engine).

(** The position a batch must leave: its cursor, and the digest of the rows it leaves. *)
Definition position_after en b : ScopeState.t :=
  ScopeState.restored (Batch.next_cursor b)
    (map_digest (held en (Batch.scope b) (rows_effect (Batch.changes b) (versions_of (durable en))))).

(** A batch is applied only if it goes on from where the device stands. *)
Lemma applied_goes_on b compare rebuilding en en' o :
  Batch.scope b ∉ suspect en → apply_changes b compare rebuilding en = (en', Ok o) →
  Forall (after (Cursor.get (cursor_of en (Batch.scope b)))) (Batch.changes b).
Proof.
  intros Hns Ha. destruct (apply_changes_cases _ _ _ _ _ _ Hns Ha) as [(e & ? & _)|(sg & q & Hv & _)]; [done|].
  apply apply_ordering_ok in Hv as (_ & Hafter & _). unfold cursor_of, engine_scope_state.
  by destruct (scopes en !! Batch.scope b).
Qed.

(** The same from a digest that was off: it stays as far off. *)
Definition position_drifted en b : ScopeState.t :=
  ScopeState.restored (Batch.next_cursor b) (digest_plus
    (map_digest (held en (Batch.scope b) (rows_effect (Batch.changes b) (versions_of (durable en)))))
    (drift_of en (Batch.scope b))).

Lemma position_trusted en b :
  client_inv en → Batch.scope b ∉ suspect en → position_drifted en b = position_after en b.
Proof.
  intros (Hc & Hd & _) Hs. unfold position_drifted, position_after. rewrite trusted_drift by done. f_equal.
  by apply digest_plus_same; [apply map_digest_wf|].
Qed.

Lemma apply_changes_ok b compare rebuilding en en' o :
  coherent en → Batch.scope b ∉ suspect en → fits en (Batch.scope b) (Batch.changes b) →
  apply_changes b compare rebuilding en = (en', Ok o) →
  StronglySorted seq_lt (Batch.changes b) ∧
  scopes en' !! Batch.scope b = Some (position_drifted en b) ∧
  v_cursors (durable en') = <[Batch.scope b := Batch.next_cursor b]> (v_cursors (durable en)) ∧
  versions_of (durable en') =
    rows_effect (legible (registry en) (migrations en) (Batch.changes b)) (versions_of (durable en)) ∧
  v_outbox (durable en') = v_outbox (durable en) ∧ v_resolved (durable en') = v_resolved (durable en) ∧
  AppliedBatch.changes o = length (Batch.changes b) ∧
  AppliedBatch.diverged o =
    compare && negb (bool_decide (ScopeDigest.to_hex (ScopeState.digest (position_drifted en b)) = Batch.digest b)) ∧
  (registry en' = registry en ∧ migrations en' = migrations en ∧ suspect en' = suspect en) ∧
  health en' = verdict_health (Batch.scope b) (scope_health (Batch.scope b) en) compare
                 (AppliedBatch.diverged o) rebuilding (health en) ∧
  (∀ s, s ≠ Batch.scope b → v_divergences (durable en') !! s = v_divergences (durable en) !! s) ∧
  v_divergences (durable en') =
    v_divergences (apply_ops (verdict_ops (Batch.scope b) (scope_health (Batch.scope b) en) compare
      (AppliedBatch.diverged o) rebuilding) (durable en)).
Proof using Type*.
  intros Hc Hns Hfit Ha.
  destruct (apply_changes_cases _ _ _ _ _ _ Hns Ha) as [(e & ? & _)|(sg & q & Hv & Hstage & Hrun)]; [done|].
  apply apply_ordering_ok in Hv as (Hsort & _ & Hwf & _).
  pose proof (batch_drifts _ _ _ _ Hc Hns Hfit Hwf Hstage) as Hdig.
  destruct (batch_written _ _ _ _ Hc Hns Hwf Hstage) as (Hrow & Hrows).
  cbv zeta in Hrun. destruct Hrun as [(s' & se & _ & ? & _)|(s' & o' & Ht & Ho & Hs)]; [done|].
  injection Ho as ->. destruct Hs as (<- & Hsc & _ & Hrg & Hmg & Hsu & _ & Hh & _).
  apply transact_ok in Ht as [Ht _].
  set (div := batch_diverged b sg compare) in *.
  destruct (batch_view b sg (scope_health (Batch.scope b) en) compare div rebuilding (durable en) Hrow)
    as (Hv' & Hcur & Hdg & Hob & Hre & _ & Hdv).
  unfold durable in *. rewrite Ht, Hsc. unfold position_drifted, durable. rewrite <- Hdig.
  split_and!; try done.
  - by rewrite lookup_insert_eq.
  - by rewrite Hv'.
  - rewrite apply_ops_app. cbn [AppliedBatch.diverged]. fold div. unfold batch_ops.
    destruct (row_ops_position (sg_ops sg) (view (storage en)) Hrow) as (_ & _ & _ & _ & _ & Hp).
    unfold verdict_ops. rewrite !apply_ops_app.
    destruct (counted _ _ _), (healed_now _ _ _); cbn; by rewrite Hp.
Qed.

(** *** Changes the app cannot read *)

(** Where two tables agree before some changes they agree after them; and where a change is made. *)
Lemma rows_effect_agree cs m m' k :
  m !! k = m' !! k ∨ (∃ c, c ∈ cs ∧ change_key c = k) → rows_effect cs m !! k = rows_effect cs m' !! k.
Proof.
  revert m m'. induction cs as [|c cs IH]; intros m m' Hk; [by destruct Hk as [?|(c & ?%not_elem_of_nil & _)]|].
  cbn [rows_effect fold_left]. apply IH. rewrite !row_effect_lookup.
  destruct (decide (k = change_key c)) as [->|Hne]; [by left|]. destruct Hk as [|(c' & [->|Hin]%elem_of_cons & Hc')]; [by left|done|].
  right. by exists c'.
Qed.

(** Leaving out the changes the app cannot read changes only the rows they are of. *)
Lemma legible_agree rg ms cs m m' k :
  m !! k = m' !! k →
  rows_effect (legible rg ms cs) m !! k = rows_effect cs m' !! k ∨
  ∃ c, c ∈ cs ∧ is_ok (migrated_change rg ms c) = false ∧ change_key c = k.
Proof.
  revert m m'. induction cs as [|c cs IH]; intros m m' Hk; [by left|]. unfold legible. rewrite filter_cons.
  destruct (is_ok (migrated_change rg ms c)) eqn:Hok; cbn [rows_effect fold_left].
  - rewrite decide_True by done. destruct (IH (row_effect m c) (row_effect m' c)) as [Heq|(c' & ? & ? & ?)];
      [by rewrite !row_effect_lookup, Hk|left; exact Heq|right; exists c'; split_and!; [by right|done..]].
  - rewrite decide_False by done. destruct (decide (k = change_key c)) as [->|Hne].
    + right. exists c. split_and!; [by left|done..].
    + destruct (IH m (row_effect m' c)) as [Heq|(c' & ? & ? & ?)]; [by rewrite row_effect_lookup, decide_False|left; exact Heq|].
      right. exists c'. split_and!; [by right|done..].
Qed.

(** Changes that rewrite every row an earlier batch lost bring the rows back to what they should be. *)
Lemma rewritten_rows rg ms cs1 cs2 m :
  (∀ c, c ∈ cs1 → is_ok (migrated_change rg ms c) = true ∨ ∃ c', c' ∈ cs2 ∧ change_key c' = change_key c) →
  rows_effect cs2 (rows_effect (legible rg ms cs1) m) = rows_effect (cs1 ++ cs2) m.
Proof.
  intros Hcov. unfold rows_effect at 3. rewrite fold_left_app. apply map_eq. intros k. apply rows_effect_agree.
  destruct (legible_agree rg ms cs1 m m k eq_refl) as [Heq|(c & Hin & Hno & <-)]; [by left|right].
  destruct (Hcov c Hin) as [Hok|(c' & ? & ?)]; [congruence|]. by exists c'.
Qed.

Lemma to_hex_inj d d' :
  ScopeDigest.wf d → ScopeDigest.wf d' → ScopeDigest.to_hex d = ScopeDigest.to_hex d' → d = d'.
Proof.
  intros Hd Hd' Heq. pose proof (to_hex_parse Cursor.START d Hd) as H1.
  rewrite Heq, (to_hex_parse Cursor.START d' Hd') in H1. by injection H1.
Qed.

(** A digest is off by what separates it from the digest of the rows. *)
Lemma drift_none d d' :
  ScopeDigest.wf d → ScopeDigest.wf d' → (ScopeDigest.raw d - ScopeDigest.raw d') mod u128_mod = 0 ↔ d = d'.
Proof.
  intros Hd Hd'. rewrite <- (digest_plus_same d') by done. by rewrite digest_plus_diff.
Qed.
End lemmas.

(** ** The incremental digest *)

Section digest_claim.
Context {C E S T ZC : Type} `{!Storage S} `{!StorageLaws S} `{!Compressor ZC} `{Hashes} `{Codec}.

(** C3: Over any run of changes the app understands, restarts included, and whatever fails and
    whatever was committed and then reported as failed, the digest kept incrementally in memory
    for a scope the engine trusts is the digest computed from scratch over the rows stored for
    that scope, and the digest stored beside the cursor is too, if both were so at the start. A
    change is understood when its entity is one the app files under the scope and its schema one
    it can read; a restart, when the version started files the stored rows where they were. After a change
    it cannot read, which is quarantined, the digest counts a row that is not stored, and C33
    says what comes of it. *)
Theorem digest_tracks_rows (en0 en : Engine C E S T ZC) scope :
  client_inv en0 → rtc (client_step understood) en0 en → scope ∉ suspect en →
  ScopeState.digest (default ScopeState.NEW (scopes en !! scope)) =
    map_digest (held en scope (versions_of (durable en))) ∧
  (∀ c, v_cursors (durable en) !! scope = Some c →
     v_digests (durable en) !! scope =
       Some (ScopeDigest.to_hex (map_digest (held en scope (versions_of (durable en)))))).
Proof using Type*.
  intros Hinv Hrun Hs. destruct (client_run_inv _ _ Hrun Hinv) as (Hc & Hd & Hw).
  split; [by apply trusted_digest|]. intros c Hcur. specialize (Hd scope). unfold scope_ok in Hd. cbv zeta in Hd.
  by rewrite Hcur in Hd.
Qed.

(** C19: A batch applied to a trusted scope of a sound engine ([client_inv]), of changes to entities the app files under it, is
    applied exactly, whether or not the app can read all of them: its changes strictly increase
    and all lie past the cursor where the device stood, the rows stored afterwards are the old rows with the changes the app can read made to them
    in order, the cursor that commits with them is the batch's, the outbox is not touched, and
    the digest is that of the old rows with all the changes made to them, read or not:
    divergence is reported exactly when this is the last batch of the walk and that digest is
    not the server's. When the app can read them all, these are the rows stored. *)
Theorem apply_batch_exact (en en' : Engine C E S T ZC) b o :
  client_inv en → Batch.scope b ∉ suspect en → fits en (Batch.scope b) (Batch.changes b) →
  apply_batch b en = (en', Ok o) →
  let old := versions_of (durable en) in
  StronglySorted seq_lt (Batch.changes b) ∧
  Forall (after (Cursor.get (cursor_of en (Batch.scope b)))) (Batch.changes b) ∧
  versions_of (durable en') = rows_effect (legible (registry en) (migrations en) (Batch.changes b)) old ∧
  v_cursors (durable en') = <[Batch.scope b := Batch.next_cursor b]> (v_cursors (durable en)) ∧
  scopes en' !! Batch.scope b = Some (position_after en b) ∧
  v_outbox (durable en') = v_outbox (durable en) ∧
  (AppliedBatch.diverged o = true ↔
     Batch.has_more b = false ∧
     ScopeDigest.to_hex (map_digest (held en (Batch.scope b) (rows_effect (Batch.changes b) old))) ≠ Batch.digest b) ∧
  (readable en (Batch.changes b) → versions_of (durable en') = rows_effect (Batch.changes b) old).
Proof using Type*.
  intros Hinv Hs Hfit Ha old.
  destruct (apply_changes_ok _ _ _ _ _ _ (proj1 Hinv) Hs Hfit Ha)
    as (Hsort & Hsc & Hcur & Hrows & Hob & _ & _ & Hdiv & _).
  rewrite position_trusted in * by done. split_and!; try done.
  - by eapply applied_goes_on.
  - by rewrite Hdiv, andb_true_iff, !negb_true_iff, bool_decide_eq_false.
  - intros Hread. by rewrite Hrows, legible_all.
Qed.

(** C28: A refused batch changes nothing. If [apply_batch] fails on a trusted scope, whatever the
    batch holds, either the engine is exactly as it was and storage was never written, or the
    transaction itself failed: then storage holds all of the batch or none of it (of its rows,
    those of the changes the app can read), no cursor, digest or queue in memory moved, and the
    scope and the outbox are marked for reloading. *)
Theorem apply_refusal_total (en en' : Engine C E S T ZC) b e :
  client_inv en → Batch.scope b ∉ suspect en → apply_batch b en = (en', Err e) →
  en' = en ∨
  ((durable en' = durable en ∨
    (versions_of (durable en') =
       rows_effect (legible (registry en) (migrations en) (Batch.changes b)) (versions_of (durable en)) ∧
     v_cursors (durable en') = <[Batch.scope b := Batch.next_cursor b]> (v_cursors (durable en)) ∧
     v_outbox (durable en') = v_outbox (durable en))) ∧
   (∃ se, e = ApplyError.Storage se) ∧
   scopes en' = scopes en ∧ outbox_queue en' = outbox_queue en ∧ health en' = health en ∧
   effects en' = effects en ∧ suspect en' = {[Batch.scope b]} ∪ suspect en ∧ outbox_suspect en' = true).
Proof using Type*.
  intros (Hc & _ & _) Hs Ha. destruct (apply_changes_cases _ _ _ _ _ _ Hs Ha)
    as [(e' & He & ->)|(sg & q & Hv & Hstage & Hrun)]; [by left|].
  apply apply_ordering_ok in Hv as (_ & _ & Hwf & _).
  destruct (batch_written _ _ _ _ Hc Hs Hwf Hstage) as (Hrow & Hrows).
  cbv zeta in Hrun. destruct Hrun as [(s' & se & Ht & [= ->] & ->)|(? & ? & _ & ? & _)]; [|done].
  right. split_and!; try done; [|by eexists]. unfold durable in *. cbn.
  destruct (transact_err _ _ _ _ Ht) as [->|Heq]; [by left|right].
  match type of Heq with _ = apply_ops (_ ++ verdict_ops _ ?h ?c ?dv ?rb) _ =>
    destruct (batch_view b sg h c dv rb (view (storage en)) Hrow) as (Hver & Hcur & _ & Hob & _) end.
  by rewrite Heq, Hver, Hrows.
Qed.


(** C33: A quarantined row makes its scope diverge when it becomes readable again. An honest
    server sends a device that trusts the scope two batches of changes to entities the app files
    under it, and both are applied. The app cannot read some rows of the first, which
    are quarantined: the digest counts them at the version that could not be read, and no row is
    stored. The second rewrites all of those in a schema the app reads, and ends the walk with
    the digest of exactly the rows sent. The device then holds exactly those rows, and yet
    reports a divergence, unless the digest of what it held after the first batch is, by chance,
    that of what it should have held: where the first batch is one row the device did not have,
    unless that row hashes to zero. *)
Theorem quarantined_row_diverges (en en1 en2 : Engine C E S T ZC) b1 b2 o1 o2 :
  client_inv en → Batch.scope b1 ∉ suspect en → Batch.scope b2 = Batch.scope b1 →
  fits en (Batch.scope b1) (Batch.changes b1 ++ Batch.changes b2) → readable en (Batch.changes b2) →
  (∀ c, c ∈ Batch.changes b1 → is_ok (migrated_change (registry en) (migrations en) c) = true ∨
     ∃ c', c' ∈ Batch.changes b2 ∧ change_key c' = change_key c) →
  apply_batch b1 en = (en1, Ok o1) → apply_batch b2 en1 = (en2, Ok o2) → Batch.has_more b2 = false →
  let old := versions_of (durable en) in
  let stored := rows_effect (legible (registry en) (migrations en) (Batch.changes b1)) old in
  let sent := rows_effect (Batch.changes b1 ++ Batch.changes b2) old in
  let digest_of rows := map_digest (held en (Batch.scope b1) rows) in
  Batch.digest b2 = ScopeDigest.to_hex (digest_of sent) →
  versions_of (durable en1) = stored ∧ versions_of (durable en2) = sent ∧
  (AppliedBatch.diverged o2 = true ↔ digest_of stored ≠ digest_of (rows_effect (Batch.changes b1) old)) ∧
  (∀ c, Batch.changes b1 = [c] → is_ok (migrated_change (registry en) (migrations en) c) = false →
     Change.op c = Upsert → old !! change_key c = None →
     (AppliedBatch.diverged o2 = true ↔
        row_hash (Change.entity c) (Change.entity_id c) (Change.row_version c) mod u128_mod ≠ 0)).
Proof using Type*.
  intros Hinv Hs Hsc [Hfit1 Hfit2]%Forall_app Hread Hcov Ha1 Ha2 Hlast old stored sent digest_of Hdig.
  pose proof (proj1 Hinv) as Hc. pose proof (apply_changes_coherent _ _ _ _ _ _ Hc Ha1) as Hc1.
  destruct (apply_changes_ok _ _ _ _ _ _ Hc Hs Hfit1 Ha1) as (_ & Hp1 & _ & Hv1 & _ & _ & _ & _ & (Hrg & Hmg & Hsu) & _).
  rewrite position_trusted in Hp1 by done.
  assert (fits en1 (Batch.scope b2) (Batch.changes b2)) as Hfit2' by (unfold fits; by rewrite Hrg, Hsc).
  assert (Batch.scope b2 ∉ suspect en1) as Hs1 by (by rewrite Hsc, Hsu).
  destruct (apply_changes_ok _ _ _ _ _ _ Hc1 Hs1 Hfit2' Ha2) as (_ & _ & _ & Hv2 & _ & _ & _ & Hdv & _).
  rewrite Hv1, Hrg, Hmg, (legible_all _ _ (Batch.changes b2)), rewritten_rows in Hv2 by done.
  assert (Hiff : AppliedBatch.diverged o2 = true ↔ digest_of stored ≠ digest_of (rows_effect (Batch.changes b1) old)).
  { rewrite Hdv, Hlast, andb_true_iff, !negb_true_iff, bool_decide_eq_false, Hdig. unfold position_drifted, drift_of, kept_digest.
    rewrite Hsc, Hp1, Hv1, rewritten_rows by done. unfold held. rewrite Hrg. cbn [default from_option id position_after ScopeState.digest].
    fold (held en (Batch.scope b1) sent) (digest_of sent). fold stored. fold (held en (Batch.scope b1) stored) (digest_of stored).
    fold (digest_of (rows_effect (Batch.changes b1) old)).
    assert (∀ rows, ScopeDigest.wf (digest_of rows)) as Hwf by (intros rows; apply map_digest_wf).
    assert (Hpl : digest_plus (digest_of sent) (ScopeDigest.raw (digest_of (rows_effect (Batch.changes b1) old)) - ScopeDigest.raw (digest_of stored))
        = digest_of sent ↔ digest_of (rows_effect (Batch.changes b1) old) = digest_of stored).
    { rewrite digest_plus_same by done. by apply drift_none. }
    split.
    - intros [_ Hne] Heq. apply Hne. f_equal. by apply Hpl.
    - intros Hne. split; [done|]. intros Heq. apply Hne. symmetry. apply Hpl. apply to_hex_inj; [apply wrapping_range|done|exact Heq]. }
  split_and!; [done|done|exact Hiff|]. intros c Hb Hno Hop Hold. rewrite Hiff. unfold digest_of, stored, held. rewrite Hb.
  unfold legible. rewrite filter_cons, decide_False by (by rewrite Hno). cbn [rows_effect fold_left filter list_filter].
  unfold row_effect. rewrite Hop.
  assert (Change.entity c ∈ scope_entities (registry en) (Batch.scope b1)) as He by (rewrite Hb in Hfit1; by apply Forall_inv in Hfit1).
  rewrite restrict_insert, map_digest_insert_fresh by (try done; by rewrite restrict_lookup).
  assert (∀ d, d ≠ ScopeDigest.add d (Change.entity c) (Change.entity_id c) (Change.row_version c) ↔
    digest_plus d (row_hash (Change.entity c) (Change.entity_id c) (Change.row_version c)) ≠ d) as Hadd
    by (intros d; split; intros Hne Heq; apply Hne; symmetry; exact Heq).
  rewrite Hadd. apply not_iff_compat, digest_plus_same, map_digest_wf.
Qed.
End digest_claim.

(** ** Lemmas: health *)

Section health_lemmas.
Context {C E S T ZC : Type} `{!Storage S} `{!Compressor ZC} `{Hashes} `{Codec}.
Abbreviation engine := (Engine C E S T ZC).
Implicit Types (en : engine).

(** An apply that succeeds reloaded its scope first, and the rest ran on the result. *)
Lemma apply_changes_reloaded b compare rebuilding en en' o :
  apply_changes b compare rebuilding en = (en', Ok o) →
  ∃ en1, refresh_if_suspect (Batch.scope b) en = (en1, Ok ()) ∧ health en1 = health en ∧
    storage en1 = storage en ∧ (Batch.scope b ∉ suspect en1) ∧
    apply_changes b compare rebuilding en1 = (en', Ok o).
Proof.
  intros Ha. assert (∃ en1 r1, refresh_if_suspect (Batch.scope b) en = (en1, r1)) as (en1 & r1 & Hr).
  { destruct (refresh_if_suspect (Batch.scope b) en). by eauto. }
  assert (Hf : health en1 = health en ∧ storage en1 = storage en ∧
      (r1 = Ok () → Batch.scope b ∉ suspect en1)).
  { unfold refresh_if_suspect in Hr. case_bool_decide; cbn [negb] in Hr; [|by injection Hr as <- <-].
    destruct (scope_state _ _) as [[st|]|]; injection Hr as <- <-; split_and!; try done; cbn; set_solver. }
  destruct Hf as (Hh & Hst & Hns). unfold apply_changes, apply_committed, st_bind in Ha. rewrite Hr in Ha.
  destruct r1 as [[]|]; [|done]. exists en1. split_and!; auto.
  unfold apply_changes, apply_committed, st_bind, refresh_if_suspect at 1. rewrite bool_decide_eq_false_2 by auto. exact Ha.
Qed.

Lemma apply_changes_health b compare rebuilding en en' o :
  apply_changes b compare rebuilding en = (en', Ok o) →
  scope_health (Batch.scope b) en' =
    next_health (scope_health (Batch.scope b) en) compare (AppliedBatch.diverged o) rebuilding ∧
  (∀ s, s ≠ Batch.scope b → scope_health s en' = scope_health s en).
Proof.
  intros Ha. destruct (apply_changes_reloaded _ _ _ _ _ _ Ha) as (en1 & _ & Hh & _ & Hns & Ha1).
  destruct (apply_changes_cases _ _ _ _ _ _ Hns Ha1) as [(e & ? & _)|(sg & q & _ & _ & Hrun)]; [done|].
  cbv zeta in Hrun. destruct Hrun as [(s' & se & _ & ? & _)|(s' & o' & _ & Ho & Hs)]; [done|].
  injection Ho as ->. destruct Hs as (_ & _ & _ & _ & _ & _ & _ & Hhe & _).
  assert (Hh' : ∀ s, scope_health s en' = if decide (s = Batch.scope b)
    then next_health (scope_health (Batch.scope b) en) compare (batch_diverged b sg compare) rebuilding
    else scope_health s en).
  { intros s. unfold scope_health. rewrite Hhe, verdict_health_lookup by done. unfold scope_health. by rewrite Hh. }
  split; [by rewrite Hh', decide_True|]. intros s Hs'. by rewrite Hh', decide_False.
Qed.

(** Batches applied in turn to one scope, and how many of them were counted as divergences. *)
Inductive health_run (scope : ScopeId.t) : Z → engine → engine → Prop :=
| hr_refl en : health_run scope 0 en en
| hr_step n en en1 en2 b compare rebuilding o :
    health_run scope n en en1 → Batch.scope b = scope →
    apply_changes b compare rebuilding en1 = (en2, Ok o) →
    health_run scope
      (if counted (scope_health scope en1) (AppliedBatch.diverged o) rebuilding then n + 1 else n) en en2.
End health_lemmas.

(** ** Divergence *)

Section health_claim.
Context {C E S T ZC : Type} `{!Storage S} `{!Compressor ZC} `{Hashes} `{Codec}.

(** C29: Escalation counts divergences of a trusted or just rebuilt scope and nothing else.
    Starting from a healthy scope, after any sequence of batches applied to it the number
    of attempts recorded is the number of counted divergences; it never exceeds three, and
    the scope is given up on exactly at the third. *)
Theorem escalation_counts (scope : ScopeId.t) n (en en' : Engine C E S T ZC) :
  scope_health scope en = Healthy → health_run scope n en en' →
  attempts (scope_health scope en') = n ∧ 0 ≤ n ≤ MAX_HEAL_ATTEMPTS ∧
  (n = MAX_HEAL_ATTEMPTS ↔ scope_health scope en' = Unhealable n).
Proof.
  intros Hstart Hrun.
  cut (attempts (scope_health scope en') = n ∧ 0 ≤ n ≤ MAX_HEAL_ATTEMPTS ∧
       match scope_health scope en' with
       | Unhealable _ => n = MAX_HEAL_ATTEMPTS | _ => n < MAX_HEAL_ATTEMPTS end).
  { intros (Ha & Hb & Hm). split_and!; try done; try lia. split.
    - intros ->. destruct (scope_health scope en'); simpl in *; subst; try lia. done.
    - intros Heq. by rewrite Heq in Hm. }
  induction Hrun as [en|n en en1 en2 b compare rebuilding o Hrun IH Hsc Ha].
  { rewrite Hstart. unfold MAX_HEAL_ATTEMPTS. simpl. lia. }
  subst scope.
  destruct (IH Hstart) as (Hat & Hb & Hm). clear IH Hrun.
  destruct (apply_changes_health _ _ _ _ _ _ Ha) as [-> _].
  unfold next_health, counted, healed_now, tainted_at, u32_saturating_add, u32_max.
  unfold MAX_HEAL_ATTEMPTS in *. rewrite Hat.
  destruct (scope_health _ en1) as [|a|a|a]; simpl in *; subst;
    destruct (AppliedBatch.diverged o), compare, rebuilding; simpl;
    rewrite ?Z.min_r by lia; ztests; simpl; lia.
Qed.
End health_claim.

Section record_claim.
Context {C E S T ZC : Type} `{!Storage S} `{!StorageLaws S} `{!Compressor ZC} `{Hashes} `{Codec}.

(** Memory trusts a scope as much as its durable record says. *)
Definition health_agrees (en : Engine C E S T ZC) scope : Prop :=
  health en !! scope = record_health (v_divergences (durable en) !! scope).

(** The divergence count is durable: it commits in the transaction that found the
    divergence or the heal. If the record and memory agreed before a batch was applied they
    agree after it, so a restart that restores the record with [restore_scope_health]
    trusts the scope exactly as much as the session that wrote it. *)
Theorem health_survives_restart (en en' restarted : Engine C E S T ZC) b compare rebuilding o a healed :
  client_inv en → Batch.scope b ∉ suspect en → fits en (Batch.scope b) (Batch.changes b) →
  0 ≤ attempts (scope_health (Batch.scope b) en) → health_agrees en (Batch.scope b) →
  apply_changes b compare rebuilding en = (en', Ok o) →
  health_agrees en' (Batch.scope b) ∧
  (v_divergences (durable en') !! Batch.scope b = Some (a, healed) →
     health (restore_scope_health (Batch.scope b) a healed restarted) !! Batch.scope b =
       health en' !! Batch.scope b).
Proof using Type*.
  intros Hinv Hs Hfit Hpos Hag Ha. unfold health_agrees in *.
  destruct (apply_changes_ok _ _ _ _ _ _ (proj1 Hinv) Hs Hfit Ha)
    as (_ & _ & _ & _ & _ & _ & _ & _ & _ & Hh & _ & Hdv).
  cut (health en' !! Batch.scope b = record_health (v_divergences (durable en') !! Batch.scope b)).
  { intros Heq. split; [done|]. intros Hrec. rewrite Heq, Hrec. unfold restore_scope_health, record_health.
    destruct (Z.eqb_spec a 0); cbn; [by rewrite lookup_delete_eq|]. by rewrite lookup_insert_eq. }
  rewrite Hh, Hdv. set (h := scope_health (Batch.scope b) en) in *.
  unfold verdict_health, verdict_ops. destruct (counted h _ _) eqn:Hcnt.
  - assert (Hno : healed_now h compare (AppliedBatch.diverged o) = false).
    { unfold counted, healed_now in *. destruct (AppliedBatch.diverged o); [|done]. by destruct compare. }
    rewrite Hno. cbn. rewrite !lookup_insert_eq. unfold tainted_at. simpl.
    assert (1 ≤ u32_saturating_add (attempts h) 1) by (unfold u32_saturating_add, u32_max; lia).
    by destruct (Z.eqb_spec (u32_saturating_add (attempts h) 1) 0); [lia|].
  - destruct (healed_now h compare _) eqn:Hheal; cbn; [|done]. rewrite !lookup_insert_eq. simpl.
    destruct (Z.eqb_spec (attempts h) 0) as [Hz|]; [|done]. exfalso.
    unfold healed_now in Hheal. apply andb_true_iff in Hheal as [_ Hneeds].
    unfold h, scope_health in *. rewrite Hag in *.
    destruct (v_divergences (durable en) !! Batch.scope b) as [[a' he]|]; [|done]. simpl in *.
    destruct (Z.eqb_spec a' 0); [done|]. simpl in *. destruct he; [done|].
    destruct (MAX_HEAL_ATTEMPTS <=? a'); simpl in *; lia || done.
Qed.

(** Starting a rebuild touches one scope and no writes. After [begin_rebootstrap] no
    row of the scope's entities is stored, every other row is, the scope restarts from the
    beginning with the empty digest, the other scopes keep their positions, and the outbox,
    the recorded outcomes and the recovered drafts are all still there. *)
Theorem rebootstrap_is_scoped (en en' : Engine C E S T ZC) scope :
  client_inv en → begin_rebootstrap scope en = (en', Ok ()) →
  (∀ e i, v_rows (durable en') !! (e, i) =
     if decide (e ∈ scope_entities (registry en) scope) then None else v_rows (durable en) !! (e, i)) ∧
  scopes en' !! scope = Some ScopeState.NEW ∧
  view_scope (durable en') scope =
    Some (StoredScope.mk Cursor.START (ScopeDigest.to_hex ScopeDigest.EMPTY)) ∧
  (∀ s, s ≠ scope → view_scope (durable en') s = view_scope (durable en) s ∧
                    scopes en' !! s = scopes en !! s) ∧
  v_outbox (durable en') = v_outbox (durable en) ∧ outbox_queue en' = outbox_queue en ∧
  v_resolved (durable en') = v_resolved (durable en) ∧
  v_recovered (durable en') = v_recovered (durable en).
Proof using Type*.
  intros (_ & _ & Hw) Hb. unfold begin_rebootstrap, engine_transact in Hb.
  set (ops := [ClearScope _ _; _; _]) in Hb. destruct (transact (storage en) ops) as [s' [o|e]] eqn:Ht; [|done].
  injection Hb as <-. apply transact_ok in Ht as [Ht _]. unfold durable. cbn. rewrite Ht. clear Ht. split_and!; try done.
  - intros e i. cbn. rewrite map_lookup_filter. simpl. case_decide as He.
    + destruct (v_rows _ !! _); [|done]. simpl. rewrite option_guard_False; [done|].
      intros Hn. by apply Hn, cleared_entities.
    + destruct (v_rows _ !! _); [|done]. simpl. rewrite option_guard_True; [done|].
      by rewrite cleared_entities.
  - by rewrite lookup_insert_eq.
  - unfold view_scope. cbn. by rewrite !lookup_insert_eq.
  - intros s Hs. unfold view_scope. cbn. by rewrite !lookup_insert_ne, !lookup_delete_ne.
Qed.
End record_claim.

(** ** The outbox *)

Section outbox_claim.
Context {C E S T ZC : Type} `{!Storage S} `{!StorageLaws S} `{!Compressor ZC} `{Hashes} `{Codec}.
Abbreviation engine := (Engine C E S T ZC).
Implicit Types (en : engine).

(** Every call on the engine reaches storage through at most one transaction, in which no
    command is resolved but those of [ids]. *)
Definition one_transaction (ids : list CommandId.t) en en' : Prop :=
  storage en' = storage en ∨
  ∃ ops r, transact (storage en) ops = (storage en', r) ∧
    ∀ id res, ResolveCommand id res ∈ ops → id ∈ ids.

Lemma refresh_storage scope en en' r : refresh_if_suspect scope en = (en', r) → storage en' = storage en.
Proof.
  unfold refresh_if_suspect. destruct (negb _); [by intros [= <- <-]|].
  by destruct (scope_state _ _) as [[?|]|]; intros [= <- <-].
Qed.

Lemma refresh_outbox_storage en en' r : refresh_outbox_if_suspect en = (en', r) → storage en' = storage en.
Proof.
  unfold refresh_outbox_if_suspect. destruct (negb _); [by intros [= <- <-]|].
  by destruct (Storage.outbox _); intros [= <- <-].
Qed.

Lemma stage_all_row_ops (s : S) reg ms cs sg q sg' q' :
  stage_all s reg ms cs (sg, q) = Ok (sg', q') →
  ∃ ops, sg_ops sg' = sg_ops sg ++ ops ∧ Forall (λ op, is_row_op op = true) ops.
Proof using Type*.
  revert sg q. induction cs as [|c cs IH]; intros sg q Hst.
  - injection Hst as <- <-. exists []. by rewrite app_nil_r.
  - cbn [stage_all] in Hst. destruct (stage_one _ _ _ _ _) as [[sg1 q1]|] eqn:Hone; simpl in Hst; [|done].
    destruct (IH _ _ Hst) as (ops & -> & Hops).
    assert (∃ op, sg_ops sg1 = sg_ops sg ++ [op] ∧ is_row_op op = true) as (op & -> & Hop).
    { unfold stage_one in Hone. destruct (migrated_change _ _ _) as [[c'|]|e].
      1,2: destruct (stage_change _ _ _ _) eqn:Hc; simpl in Hone; [|done]; injection Hone as <- <-;
        by eapply stage_change_row_op.
      destruct (stage_quarantine _ _ _ _) eqn:Hc; simpl in Hone; [|done]. injection Hone as <- <-.
      unfold stage_quarantine in Hc. destruct (current_version _ _ _ _); simpl in Hc; [|done].
      destruct (Change.snapshot c); [|done]. injection Hc as <-. by eexists. }
    exists (op :: ops). rewrite <- app_assoc. split; [done|by constructor].
Qed.

Lemma apply_changes_tx b c rb en en' r : apply_changes b c rb en = (en', r) → one_transaction [] en en'.
Proof using Type*.
  unfold apply_changes, apply_committed, st_bind. destruct (refresh_if_suspect _ _) as [en1 [[]|]] eqn:Hr;
    apply refresh_storage in Hr; [|intros [= <- <-]; by left].
  destruct (res_bind _ _) as [[sg q]|e] eqn:Hst; [|intros [= <- <-]; by left].
  assert (Hsg : Forall (λ op, is_row_op op = true) (sg_ops sg)).
  { unfold res_bind in Hst. destruct (validate_ordering _ _); [|done].
    by apply stage_all_row_ops in Hst as (ops & -> & ?). }
  assert (Hno : ∀ escalated (heals : bool) id res, ResolveCommand id res ∈ ((sg_ops sg ++
      [SetCursor (Batch.scope b) (Batch.next_cursor b);
       SetScopeDigest (Batch.scope b) (ScopeDigest.to_hex (sg_digest sg))]) ++
      match escalated with Some a => [RecordDivergence (Batch.scope b) a false] | None => [] end) ++
      (if heals then [RecordDivergence (Batch.scope b) (attempts (scope_health (Batch.scope b) en1)) true] else []) →
      id ∈ @nil CommandId.t).
  { intros esc heals id res Hin. exfalso. rewrite !elem_of_app in Hin.
    rewrite Forall_forall in Hsg. destruct Hin as [[[Hin|Hin]|Hin]|Hin];
      [by specialize (Hsg _ Hin)|set_solver|destruct esc; set_solver|destruct heals; set_solver]. }
  unfold engine_transact. rewrite Hr. destruct (transact _ _) as [s' [o|e]] eqn:Ht;
    intros [= <- <-]; right; eexists _, _; (split; [|by apply Hno]); [|exact Ht].
  rewrite Ht. f_equal. symmetry. clear.
  set (en2 := set_scopes _ _).
  assert (Hq : ∀ e0 : engine, storage (fold_left (λ en '(e, i, sv, reason), emit (Emit (RowQuarantined e i sv reason)) en) q e0)
    = storage e0).
  { induction q as [|[[[??]?]?] q IH]; intros e0; [done|]. cbn [fold_left]. by rewrite IH. }
  match goal with |- context [if ?cnt then Some _ else None] => destruct cnt end.
  - unfold taint. destruct (MAX_HEAL_ATTEMPTS <=? _); cbn; by rewrite Hq.
  - destruct (_ && _ && _); cbn; by rewrite Hq.
Qed.

(** Answering resolves only what the response names. *)
Lemma answering_resolves reg q rs id res :
  ResolveCommand id res ∈ an_ops (fold_left (answer_one reg q) rs (MkAnswering [] [] 0 ∅)) →
  id ∈ (CommandResult.id <$> rs).
Proof.
  induction rs as [|r rs IH] using rev_ind; [by intros ?%not_elem_of_nil|].
  rewrite fold_left_app, fmap_app, elem_of_app. cbn [fold_left]. unfold answer_one at 1.
  destruct (find _ q) as [entry|]; [|by intros ?%IH; left].
  case_bool_decide; [by intros ?%IH; left|]. destruct (resolve reg entry r) as [drafts re] eqn:Hr.
  cbn [an_ops]. rewrite !elem_of_app. intros [Hin|[Hin|Hin]]; [by left; apply IH| |].
  - exfalso. unfold resolve in Hr. destruct (CommandResult.status r); simplify_eq/=; try set_solver.
    destruct (target_of _ _); [|set_solver]. case_bool_decide; set_solver.
  - right. apply list_elem_of_singleton in Hin. injection Hin as -> _. simpl. by apply list_elem_of_singleton.
Qed.

Lemma apply_results_tx response en en' r :
  apply_results response en = (en', r) →
  one_transaction (CommandResult.id <$> PushResponse.results response) en en'.
Proof using Type*.
  intros Ha. unfold apply_results, st_bind in Ha. destruct (refresh_outbox_if_suspect en) as [en1 [[]|]] eqn:Hr;
    apply refresh_outbox_storage in Hr; [|injection Ha as <- <-; by left]. cbv zeta in Ha.
  case_bool_decide; [injection Ha as <- <-; by left|]. unfold engine_transact in Ha. rewrite Hr in Ha.
  destruct (transact _ _) as [s' [o|e]] eqn:Ht; injection Ha as <- <-; right; do 2 eexists;
    (split; [exact Ht|]); intros id res; apply answering_resolves.
Qed.

(** A call that answers nothing resolves nothing. *)
Lemma client_step_tx R en en' :
  client_step R en en' →
  one_transaction [] en en' ∨
  ∃ response r, apply_results response en = (en', r) ∧
    one_transaction (CommandResult.id <$> PushResponse.results response) en en'.
Proof using Type*.
  assert (Hheld : ∀ (l : list (CommandId.t * SchemaVersion.t * string)) (e0 : engine),
    storage (fold_left (λ en '(id, sv, reason), emit (Emit (CommandHeld id sv reason)) en) l e0) = storage e0).
  { induction l as [|[[??]?] l IH]; intros e0; [done|]. cbn [fold_left]. by rewrite IH. }
  destruct 1 as [en b en' r _ Ha|en p en' r _ Ha|en scope en' r Ha|en scope en' r Ha|en scope en' r Ha
    |en entry en' r Ha|en protocol budget en' r Ha|en response en' r Ha|en env|en|en|en c e t z reg ms _];
    [left|left|left|left|left|left|left|right; exists response, r; split; [done|by eapply apply_results_tx]|left..];
    try (by left); try (by eapply apply_changes_tx); unfold one_transaction.
  - unfold begin_rebootstrap, engine_transact in Ha. destruct (transact _ _) as [s' [o|e]] eqn:Ht;
      injection Ha as <- <-; right; do 2 eexists; (split; [exact Ht|]); set_solver.
  - unfold clear_scope_health, engine_transact in Ha. destruct (transact _ _) as [s' [o|e]] eqn:Ht;
      injection Ha as <- <-; right; do 2 eexists; (split; [exact Ht|]); set_solver.
  - left. unfold reload_scope, st_bind in Ha. destruct (refresh_if_suspect _ _) as [en1 [[]|]] eqn:Hr;
      apply refresh_storage in Hr; [|by injection Ha as <- <-].
    destruct (refresh_outbox_if_suspect en1) as [en2 r2] eqn:Hr2. apply refresh_outbox_storage in Hr2.
    injection Ha as <- <-. congruence.
  - unfold enqueue, engine_transact in Ha. destruct (check_command _ _); [|injection Ha as <- <-; by left].
    destruct (transact _ _) as [s' [o|e]] eqn:Ht; injection Ha as <- <-; right; do 2 eexists;
      (split; [exact Ht|]); set_solver.
  - left. unfold build_push, st_bind in Ha. destruct (refresh_outbox_if_suspect en) as [en1 [[]|]] eqn:Hr;
      apply refresh_outbox_storage in Hr; [|by injection Ha as <- <-].
    do 2 (case_bool_decide; [by injection Ha as <- <-|]).
    destruct (build_loop _ _ _ _ _ _ _ _) as [[[chosen buf] hd]|]; injection Ha as <- <-; [|done].
    by rewrite Hheld.
  - left. unfold next_effect. by destruct (effects en).
  - left. by apply restarted_fields.
Qed.

(** A transaction that resolves only [ids] loses nothing else, whatever storage does with it. *)
Lemma one_transaction_keeps ids en en' entry :
  one_transaction ids en en' → entry ∈ v_outbox (durable en) →
  entry ∈ v_outbox (durable en') ∨
  (OutboxEntry.id entry ∈ ids ∧ ∃ r, (OutboxEntry.id entry, r) ∈ v_resolved (durable en')).
Proof using Type*.
  unfold durable. intros [->|(ops & r & Ht & Hids)] Hin; [by left|].
  eapply (transact_durable _ _ _ _ (λ v, entry ∈ v_outbox v ∨
    (OutboxEntry.id entry ∈ ids ∧ ∃ r, (OutboxEntry.id entry, r) ∈ v_resolved v))); [exact Ht|by left|].
  destruct (decide (OutboxEntry.id entry ∈ ids)) as [Hid|Hid].
  - destruct (apply_ops_no_loss ops (view (storage en)) entry Hin); [by left|by right].
  - left. apply apply_ops_unresolved; [done|]. intros res Hres. by apply Hid, (Hids _ res).
Qed.

Lemma one_transaction_resolved ids en en' x :
  one_transaction ids en en' → x ∈ v_resolved (durable en) → x ∈ v_resolved (durable en').
Proof using Type*.
  unfold durable. intros [->|(ops & r & Ht & _)] Hin; [done|].
  eapply (transact_durable _ _ _ _ (λ v, x ∈ v_resolved v)); [exact Ht|done|]. by apply apply_ops_resolved_mono.
Qed.

(** C5: A queued write is never silently dropped. Over any run of the client, whatever batches it
    is sent, unreadable and unregistered rows included, with any failures, lost acknowledgements
    and restarts, by this version of the app or another, a command that was in the durable outbox is either
    still there, or it has a recorded outcome and some response in that very run carried an
    answer to it: nothing but an answer removes a command. *)
Theorem outbox_never_drops en en' entry :
  rtc (client_step anything) en en' → entry ∈ v_outbox (durable en) →
  entry ∈ v_outbox (durable en') ∨
  ((∃ r, (OutboxEntry.id entry, r) ∈ v_resolved (durable en')) ∧
   ∃ en1 en2 response o, rtc (client_step anything) en en1 ∧ apply_results response en1 = (en2, o) ∧
     rtc (client_step anything) en2 en' ∧
     OutboxEntry.id entry ∈ (CommandResult.id <$> PushResponse.results response)).
Proof using Type*.
  intros Hrun Hin. revert en' Hrun. apply rtc_ind_r; [by left|]. intros en1 en2 Hrun Hstep IH.
  destruct IH as [Hq|[[r Hr] (e1 & e2 & response & o & Hpre & Ha & Hpost & Hid)]].
  - destruct (client_step_tx _ _ _ Hstep) as [Ht|(response & o & Ha & Ht)];
      destruct (one_transaction_keeps _ _ _ _ Ht Hq) as [?|[Hid Hres]]; [by left|set_solver|by left|right].
    split; [done|]. by exists en1, en2, response, o.
  - right. split.
    + exists r. destruct (client_step_tx _ _ _ Hstep) as [Ht|(? & ? & _ & Ht)]; by eapply one_transaction_resolved.
    + exists e1, e2, response, o. split_and!; try done. by eapply rtc_r.
Qed.
End outbox_claim.
