(* ===== verification/OutboxClaims.v ===== *)
(** * OutboxClaims: the properties of the client's outbox — queueing, pushing and
    recording answers. *)

From S2P Require Import Prelude Errors Nums Ids Json Wire Integrity Core Registry Migrate.
From S2P Require Import Outbox Storage SimStorage Apply Engine EngineFacts EngineSteps.
From S2P Require Import Place PushFacts Ledger Concrete.
From stdpp Require Import options.

(** ** Lemmas: which answer counts *)

Section first_answer.
Implicit Types (reg : Registry) (q : list OutboxEntry.t).

(** Each recorded outcome is the verdict of the first result that named the command, and
    the drafts that verdict saves are in the transaction. *)
Definition first_answers reg q (rs : list CommandResult.t) (an : Answering) : Prop :=
  ∀ id res, (id, res) ∈ an_resolutions an →
    ∃ pre r post e, rs = pre ++ r :: post ∧ (id ∉ (CommandResult.id <$> pre)) ∧
      CommandResult.id r = id ∧ e ∈ q ∧ OutboxEntry.id e = id ∧
      (resolve reg e r).2 = res ∧ ∀ op, op ∈ (resolve reg e r).1 → op ∈ an_ops an.

Lemma first_answers_weaken reg q rs r an an' :
  first_answers reg q rs an → an_resolutions an' = an_resolutions an →
  (∀ op, op ∈ an_ops an → op ∈ an_ops an') → first_answers reg q (rs ++ [r]) an'.
Proof.
  intros Hf Hres Hops id res Hin. rewrite Hres in Hin.
  destruct (Hf _ _ Hin) as (pre & r0 & post & e & -> & ? & ? & ? & ? & ? & ?).
  exists pre, r0, (post ++ [r]), e. rewrite <- app_assoc. split_and!; naive_solver.
Qed.

Lemma first_answers_all reg q rs :
  first_answers reg q rs (fold_left (answer_one reg q) rs (MkAnswering [] [] 0 ∅)).
Proof.
  induction rs as [|r rs IH] using rev_ind; [intros id res; set_solver|].
  rewrite fold_left_app. cbn [fold_left].
  destruct (answering_all reg q rs) as (_ & Hans & Hids & _).
  set (an := fold_left _ _ _) in *. unfold answer_one.
  destruct (find _ q) as [e|] eqn:Hf; [|by eapply first_answers_weaken].
  apply find_id_some in Hf as [He Hid]. case_bool_decide as Ha; [by eapply first_answers_weaken|].
  destruct (resolve reg e r) as [drafts res] eqn:Hr. intros id res' Hin. cbn [an_resolutions] in Hin.
  apply elem_of_app in Hin as [Hin|Hin%list_elem_of_singleton].
  - destruct (IH _ _ Hin) as (pre & r0 & post & e0 & -> & ? & ? & ? & ? & ? & ?).
    exists pre, r0, (post ++ [r]), e0. rewrite <- app_assoc. cbn. set_solver.
  - injection Hin as -> ->. exists rs, r, [], e. rewrite Hr. split_and!; try done.
    + intros Hpre. rewrite Hans, Hids in Ha. apply Ha. split; [|done].
      apply list_elem_of_fmap. by exists e.
    + intros op Hop. cbn. set_solver.
Qed.
End first_answer.

Section claims.
Context {C E S T ZC : Type} `{!Storage S} `{!StorageLaws S} `{!Compressor ZC} `{Hashes} `{Codec}.
Abbreviation engine := (Engine C E S T ZC).
Implicit Types (en : engine).

(** What a push response leaves of a queue. *)
Definition unanswered (ids : list CommandId.t) (q : list OutboxEntry.t) : list OutboxEntry.t :=
  filter (λ e, OutboxEntry.id e ∉ ids) q.

Lemma apply_results_run response en en' o :
  outbox_suspect en = false → apply_results response en = (en', Ok o) →
  let an := fold_left (answer_one (registry en) (outbox_queue en)) (PushResponse.results response)
              (MkAnswering [] [] 0 ∅) in
  o = Resolved.mk (an_resolutions an) (an_unknown an) ∧
  outbox_queue en' = unanswered (fst <$> an_resolutions an) (outbox_queue en) ∧
  outbox_suspect en' = false ∧ registry en' = registry en ∧
  durable en' = apply_ops (an_ops an) (durable en).
Proof using Type*.
  intros Hs Ha. unfold apply_results, st_bind, refresh_outbox_if_suspect in Ha. rewrite Hs in Ha.
  cbn [negb] in Ha. cbv zeta in *.
  destruct (answering_all (registry en) (outbox_queue en) (PushResponse.results response))
    as (_ & _ & _ & _ & Hnil & _). set (an := fold_left _ _ _) in *.
  case_bool_decide as Hops.
  - injection Ha as <- <-. rewrite Hops. apply Hnil in Hops as Hres. rewrite Hres. split_and!; try done.
    symmetry. apply filter_all, Forall_forall. intros e _. set_solver.
  - unfold engine_transact in Ha. destruct (transact _ _) as [s' [o'|e]] eqn:Ht; [|done].
    injection Ha as <- <-. apply transact_ok in Ht as [Ht _]. split_and!; try done. cbn. apply fold_without.
Qed.

(** C26: Answers are applied exactly once each, the first one counting. When
    [apply_results] succeeds on an engine that trusts its outbox, every command that was queued and named in the response has
    exactly one outcome recorded, durably, and it is the verdict of the first result naming
    it; the queue keeps, in order, exactly the commands the response did not answer, in
    memory and in storage; and every other result is counted as unknown. *)
Theorem apply_results_exact response en en' o :
  client_inv en → outbox_suspect en = false → apply_results response en = (en', Ok o) →
  let ids := fst <$> Resolved.resolutions o in
  NoDup ids ∧
  (∀ id, id ∈ ids ↔ id ∈ (OutboxEntry.id <$> outbox_queue en) ∧
                    id ∈ (CommandResult.id <$> PushResponse.results response)) ∧
  (∀ id res, (id, res) ∈ Resolved.resolutions o →
     ∃ pre r post e, PushResponse.results response = pre ++ r :: post ∧
       (id ∉ (CommandResult.id <$> pre)) ∧ CommandResult.id r = id ∧ e ∈ outbox_queue en ∧
       OutboxEntry.id e = id ∧ (resolve (registry en) e r).2 = res) ∧
  v_resolved (durable en') = v_resolved (durable en) ++ Resolved.resolutions o ∧
  outbox_queue en' = unanswered ids (outbox_queue en) ∧
  v_outbox (durable en') = unanswered ids (v_outbox (durable en)) ∧
  (Resolved.unknown o + length (Resolved.resolutions o))%nat = length (PushResponse.results response).
Proof using Type*.
  intros _ Hs Ha. destruct (apply_results_run _ _ _ _ Hs Ha) as (-> & Hq & _ & _ & Hd).
  destruct (answering_all (registry en) (outbox_queue en) (PushResponse.results response))
    as (Hnd & _ & Hids & Hcnt & _ & Hv).
  pose proof (first_answers_all (registry en) (outbox_queue en) (PushResponse.results response)) as Hfirst.
  set (an := fold_left _ _ _) in *. cbn [Resolved.resolutions Resolved.unknown]. cbv zeta.
  destruct (Hv (durable en)) as (Hvo & Hvr & _). rewrite Hd, Hvr, Hvo. split_and!; try done.
  - intros id res Hin. destruct (Hfirst _ _ Hin) as (pre & r & post & e & ? & ? & ? & ? & ? & ? & _).
    by exists pre, r, post, e.
  - apply fold_without.
Qed.

(** Replays are harmless. Applying a response that was already applied records
    nothing, changes no queue, writes nothing, and counts every result as unknown. *)
Theorem apply_results_idempotent response en en1 en2 o1 o2 :
  outbox_suspect en = false → apply_results response en = (en1, Ok o1) →
  apply_results response en1 = (en2, Ok o2) →
  Resolved.resolutions o2 = [] ∧ Resolved.unknown o2 = length (PushResponse.results response) ∧
  outbox_queue en2 = outbox_queue en1 ∧ durable en2 = durable en1.
Proof using Type*.
  intros Hs H1 H2. destruct (apply_results_run _ _ _ _ Hs H1) as (_ & Hq1 & Hs1 & _ & _).
  destruct (apply_results_run _ _ _ _ Hs1 H2) as (-> & Hq2 & _ & _ & Hd2).
  destruct (answering_all (registry en1) (outbox_queue en1) (PushResponse.results response))
    as (_ & _ & Hids2 & Hcnt & Hnil & _).
  destruct (answering_all (registry en) (outbox_queue en) (PushResponse.results response))
    as (_ & _ & Hids1 & _).
  set (an1 := fold_left (answer_one (registry en) _) _ _) in *.
  set (an2 := fold_left (answer_one (registry en1) _) _ _) in *.
  assert (Hres : an_resolutions an2 = []).
  { destruct (an_resolutions an2) as [|[id r] l] eqn:Er; [done|]. exfalso.
    destruct (proj1 (Hids2 id)) as [Hin Hrs]; [by left|].
    rewrite Hq1 in Hin. apply list_elem_of_fmap in Hin as (e & -> & He).
    unfold unanswered in He. apply list_elem_of_filter in He as [Hn He]. apply Hn, Hids1.
    split; [|done]. apply list_elem_of_fmap. by exists e. }
  cbn. rewrite Hres in *. split_and!; [done|simpl in Hcnt; lia| |].
  - rewrite Hq2. apply filter_all, Forall_forall. intros e _. simpl. set_solver.
  - rewrite Hd2. destruct (an_ops an2) eqn:Eo; [done|]. destruct Hnil as [_ Hnil]. by discriminate Hnil.
Qed.





End claims.

(** ** Pushing *)

Section push_claims.
Context {C E S T ZC : Type} `{!Storage S} `{!StorageLaws S} `{!Compressor ZC} `{Hashes} `{Codec}.
Abbreviation engine := (Engine C E S T ZC).
Implicit Types (en : engine).

Lemma build_push_run protocol budget en en' o :
  outbox_suspect en = false → build_push protocol budget en = (en', Ok o) →
  (o = None ∧ en' = en ∧ (is_Some (upgrade_required en) ∨ outbox_queue en = [])) ∨
  (upgrade_required en = None ∧ outbox_queue en ≠ [] ∧ ∃ chosen buf held,
    build_loop (registry en) (migrations en) (compressor en) budget (outbox_queue en) [] (array_bytes []) []
      = Ok (chosen, buf, held) ∧
    o = Some (PushRequest.mk protocol chosen) ∧ en' = set_effects (λ l, l ++ held_effects held) en).
Proof.
  intros Hs Hb. unfold build_push, st_bind, refresh_outbox_if_suspect in Hb. rewrite Hs in Hb.
  cbn [negb] in Hb. case_bool_decide as Hu; [injection Hb as <- <-; naive_solver|].
  case_bool_decide as Hq; [injection Hb as <- <-; naive_solver|].
  change [91; 93] with (array_bytes []) in Hb.
  destruct (build_loop _ _ _ _ _ _ _ _) as [[[chosen buf] held]|e] eqn:Hl; [|done].
  rewrite fold_held in Hb. injection Hb as <- <-. right.
  split_and!; [by apply eq_None_not_Some|done|by eexists _, _, _].
Qed.

(** The queue a push works from: the one in memory, or storage's when memory is not trusted. *)
Definition queue_read en : list OutboxEntry.t :=
  if outbox_suspect en then v_outbox (durable en) else outbox_queue en.

(** A push first reads the queue again if it has to; the rest runs on the result. *)
Lemma build_push_reads protocol budget en en' req :
  build_push protocol budget en = (en', Ok (Some req)) →
  ∃ en1, outbox_suspect en1 = false ∧ outbox_queue en1 = queue_read en ∧ storage en1 = storage en ∧
    registry en1 = registry en ∧ migrations en1 = migrations en ∧ compressor en1 = compressor en ∧
    effects en1 = effects en ∧ build_push protocol budget en1 = (en', Ok (Some req)).
Proof.
  unfold queue_read. destruct (outbox_suspect en) eqn:Hs; [|by exists en].
  intros Hb. unfold build_push, st_bind in Hb. destruct (refresh_outbox_if_suspect en) as [en1 r1] eqn:Hre.
  destruct r1 as [[]|]; [|done]. unfold refresh_outbox_if_suspect in Hre. rewrite Hs in Hre. cbn [negb] in Hre.
  destruct (Storage.outbox (storage en)) as [stored|] eqn:Hst; [|done]. apply outbox_ok in Hst.
  injection Hre as <-. exists (set_outbox_suspect false (set_queue (λ _, stored) en)). by split_and!.
Qed.

(** C30: A push request takes from the front of the queue, in order, as much as the limits allow.
    The queue is the one in memory, or the one in storage when memory is not trusted. The
    request carries the commands of its first entries, in queue order; an entry that cannot be
    brought to this app's schema is passed over and reported, and those behind it still go. It
    has at most 256 commands; either a single one, or within both the 1 MB limit and the
    compressed budget; it ends only because the queue is exhausted, the count limit is reached,
    or the next command would not fit. The queue keeps every entry, and storage does not
    change. *)
Theorem push_fills_to_limits protocol budget en en' req :
  build_push protocol budget en = (en', Ok (Some req)) →
  ∃ dn rest encs,
    queue_read en = dn ++ rest ∧
    PushRequest.commands req = sendable (registry en) (migrations en) dn ∧
    encodes (PushRequest.commands req) encs ∧
    (length (PushRequest.commands req) ≤ COMMANDS_MAX_COUNT)%nat ∧
    ((length (PushRequest.commands req) ≤ 1)%nat ∨ within (compressor en) budget encs) ∧
    stops (registry en) (migrations en) (compressor en) budget (PushRequest.commands req) encs rest ∧
    effects en' = effects en ++ held_effects (held_reports (registry en) (migrations en) dn) ∧
    outbox_queue en' = queue_read en ∧ storage en' = storage en.
Proof using Type*.
  intros (en1 & Hs & <- & <- & <- & <- & <- & <- & Hb)%build_push_reads.
  destruct (build_push_run _ _ _ _ _ Hs Hb) as [(? & _)|(_ & _ & chosen & buf & held & Hl & Ho & ->)];
    [done|]. injection Ho as ->. cbn [PushRequest.commands].
  apply (build_loop_ok _ _ _ _ _ _ []) in Hl as (dn & rest & encs & Hq & -> & -> & Henc & _ & Hmax & Hw & Hst);
    [|constructor|unfold COMMANDS_MAX_COUNT; simpl; lia|left; simpl; lia].
  exists dn, rest, encs. by split_and!.
Qed.

(** The server accepts what the client builds. A request with more than one command
    passes the server's own [PushRequest::validate]; and whenever some queued command can
    be sent, the request is not empty, so nothing wedges the outbox. *)
Theorem push_accepted_and_progress `{!CodecArrays} protocol budget en en' req :
  outbox_suspect en = false → build_push protocol budget en = (en', Ok (Some req)) →
  ((1 < length (PushRequest.commands req))%nat → PushRequest.validate req = Ok ()) ∧
  (sendable (registry en) (migrations en) (outbox_queue en) ≠ [] → PushRequest.commands req ≠ []).
Proof.
  intros Hs Hb. destruct (build_push_run _ _ _ _ _ Hs Hb) as [(? & _)|(_ & _ & chosen & buf & held & Hl & Ho & ->)];
    [done|]. injection Ho as ->. cbn [PushRequest.commands].
  apply (build_loop_ok _ _ _ _ _ _ []) in Hl as (dn & rest & encs & Hq & -> & _ & Henc & _ & Hmax & Hw & Hst);
    [|constructor|unfold COMMANDS_MAX_COUNT; simpl; lia|left; simpl; lia].
  rewrite app_nil_l in *. split.
  - intros Hlen. destruct Hw as [Hw|[Hw _]]; [lia|]. unfold PushRequest.validate. cbn [PushRequest.commands].
    destruct (Nat.ltb_spec COMMANDS_MAX_COUNT (length (sendable (registry en) (migrations en) dn))); [lia|].
    rewrite encoded_len_to_vec. unfold to_vec. rewrite (encodes_array _ _ Henc). cbn [map_err res_bind].
    by destruct (N.ltb_spec COMMANDS_MAX_TOTAL_BYTES (N.of_nat (length (array_bytes encs)))); [lia|].
  - rewrite Hq. by eapply stops_progress.
Qed.

(** A forced upgrade stops pushes and loses nothing. After [on_upgrade_required] the
    outbox is what it was, the prompt says how many commands wait, a push builds no request
    and changes nothing, and once [upgrade_completed] is called a push from the same queue
    proceeds exactly as it would have without the refusal. *)
Theorem upgrade_keeps_outbox envelope protocol budget en :
  outbox_suspect en = false → upgrade_required en = None →
  let en1 := on_upgrade_required envelope en in
  outbox_queue en1 = outbox_queue en ∧ storage en1 = storage en ∧
  effects en1 = effects en ++ [Emit (UpgradeRequired (ForcedUpgrade.min_protocol envelope)
    (ForcedUpgrade.current_protocol envelope) (ForcedUpgrade.reason envelope) (length (outbox_queue en)))] ∧
  build_push protocol budget en1 = (en1, Ok None) ∧
  (build_push protocol budget (upgrade_completed en1)).2 = (build_push protocol budget en).2.
Proof.
  intros Hs Hu. destruct en; cbn in Hs, Hu; subst. cbv zeta.
  unfold build_push, st_bind, refresh_outbox_if_suspect. cbn.
  split_and!; try done. case_bool_decide; [done|]. by destruct (build_loop _ _ _ _ _ _ _ _) as [[[??]?]|].
Qed.
End push_claims.

Section enqueue_claims.
Context {C E S T ZC : Type} `{!Storage S} `{!StorageLaws S} `{!Compressor ZC} `{Hashes} `{Codec}.
Implicit Types (en : Engine C E S T ZC).

(** A command is accepted only if the registry lets it through, and is durable before
    it is accepted. A command whose target is undeclared or server-authoritative is refused
    with nothing changed; a success means the entry is the last of the queue in storage and
    in memory; a storage failure leaves the queue in memory as it was. *)
Theorem enqueue_durable entry en en' r :
  enqueue entry en = (en', r) →
  match r with
  | Ok _ =>
      (∃ e class, target_of (registry en) (Command.name (OutboxEntry.command entry)) = Some e ∧
         class_of (registry en) e = Some class ∧ class ≠ ServerAuthoritative) ∧
      v_outbox (durable en') = v_outbox (durable en) ++ [entry] ∧
      outbox_queue en' = outbox_queue en ++ [entry]
  | Err (OutboxError.Registry _) => en' = en
  | Err (OutboxError.Storage _) => outbox_queue en' = outbox_queue en ∧ outbox_suspect en' = true
  | Err OutboxError.Encoding => False
  end ∧
  (∀ e, target_of (registry en) (Command.name (OutboxEntry.command entry)) = Some e →
     class_of (registry en) e = Some ServerAuthoritative →
     r = Err (OutboxError.Registry (RegistryError.ServerAuthoritative e))).
Proof using Type*.
  intros Hr. unfold enqueue, engine_transact in Hr.
  destruct (check_command (registry en) (OutboxEntry.command entry)) as [e|er] eqn:Hc.
  - apply check_command_ok in Hc as (Ht & class & Hcl & Hne).
    split; [|intros e' ??; congruence].
    destruct (transact _ _) as [s' [o|se]] eqn:Htx; injection Hr as <- <-; [|done].
    apply transact_ok in Htx as [Hv _]. unfold durable. cbn. rewrite Hv. cbn.
    split_and!; try done; [by eauto|]. by destruct entry.
  - injection Hr as <- <-. split; [done|]. intros e Ht Hcl. do 2 f_equal.
    unfold target_of, class_of in *. unfold check_command in Hc. rewrite Ht in Hc. simpl in Hc.
    destruct (reg_entities (registry en) !! e) as [reg|]; simpl in *; [|done].
    injection Hcl as Hcl. rewrite Hcl in Hc. simpl in Hc. by injection Hc as <-.
Qed.
End enqueue_claims.
