(* ===== verification/Exchange.v ===== *)
(** * Exchange: a client that pushes until nothing it can send is left.

    The server runs one request at a time on a sound connection, and the host's own
    transaction lands while it is being asked: [host_writes] is what it does to the other
    tables. *)

From S2P Require Import Prelude Errors Nums Ids Json Wire Integrity Core Registry Migrate.
From S2P Require Import Outbox Storage Apply Engine EngineFacts EngineSteps Place PushFacts Ledger.
From S2P Require Import Server Database Dedupe Race Fleet OutboxClaims.
From stdpp Require Import options.

(** Leaving out an element [f] keeps makes what [f] keeps shorter. *)
Lemma omap_filter_lt {A B} (f : A → option B) (P : A → Prop) `{∀ x, base.Decision (P x)} (l : list A) x y :
  x ∈ l → f x = Some y → ¬ P x → (length (omap f (filter P l)) < length (omap f l))%nat.
Proof.
  assert (Hle : ∀ k : list A, (length (omap f (filter P k)) ≤ length (omap f k))%nat).
  { intros k. apply sublist_length. induction k as [|a k IH]; [done|]. rewrite filter_cons.
    case_decide; cbn [omap list_omap]; destruct (f a); by repeat constructor. }
  intros Hx Hf Hn. induction Hx as [x l|x z l Hx IH]; rewrite filter_cons.
  - rewrite decide_False by done. cbn [omap list_omap]. rewrite Hf. pose proof (Hle l) as Hl. cbn. unfold omap in *. lia.
  - specialize (IH Hf Hn). case_decide; cbn [omap list_omap]; destruct (f z); cbn; unfold omap in *; lia.
Qed.

Section exchange.
Context {C E S T ZC H : Type} `{!Storage S} `{!StorageLaws S} `{!Compressor ZC} `{!Host H} `{Hashes} `{Codec}.
Context (host_writes : H → Command.t → Tables → Tables) (rg : Registry) (ms : Migrations).
Abbreviation engine := (Engine C E S T ZC).
Implicit Types (en : engine) (t : Tables) (h : H) (c : Command.t) (e : OutboxEntry.t).

(** ** Definitions *)

(** A run of [forward] from arrival to answer. *)
Definition attend t h c : Tables * H * Session :=
  match advance Works t h (Classifying c) with
  | (t, h, Asking c) =>
      let '(t, h', s) := advance Works t h (Asking c) in
      advance Works (host_writes h c t) h' s
  | other => other
  end.

(** The commands of a request, one after the other, and what the runs tell. *)
Fixpoint attend_all t h (cs : list Command.t) : Tables * H * list CommandResult.t :=
  match cs with
  | [] => (t, h, [])
  | c :: cs =>
      let '(t, h, s) := attend t h c in
      let '(t, h, rs) := attend_all t h cs in
      (t, h, option_list (told s) ++ rs)
  end.

(** [Err None] is the rounds running out. *)
Fixpoint push_until (fuel : nat) (protocol : ProtocolVersion.t) (budget : N) en t h
    : engine * Tables * H * result () (option OutboxError.t) :=
  match fuel with
  | O => (en, t, h, Err None)
  | Datatypes.S fuel =>
      match build_push protocol budget en with
      | (en, Err e) => (en, t, h, Err (Some e))
      | (en, Ok None) => (en, t, h, Ok ())
      | (en, Ok (Some req)) =>
          if bool_decide (PushRequest.commands req = []) then (en, t, h, Ok ()) else
          let '(t, h, rs) := attend_all t h (PushRequest.commands req) in
          match apply_results (PushResponse.mk protocol rs) en with
          | (en, Err e) => (en, t, h, Err (Some e))
          | (en, Ok _) => push_until fuel protocol budget en t h
          end
      end
  end.

(** A host that always decides, whose transaction leaves the results alone and puts the change
    it reports in the log. *)
Record obliging : Prop := MkObliging {
  obliging_answers : ∀ h c, ∃ h' o, host_apply h c = (h', Ok o) ∧ outcome_wf o;
  obliging_results : ∀ h c t, sync_command_results (host_writes h c t) = sync_command_results t;
  obliging_logs : ∀ h c h' z t, host_apply h c = (h', Ok (HostOutcome.Applied z)) →
    ∃ l, l ∈ sync_changes (host_writes h c t) ∧ ChangeRow.seq (LogRow.row l) = Seq.get z;
}.

(** ** One request *)

Section attending.
Context (Hob : obliging) (au : list (nat * OutboxEntry.t)) (Hnd : NoDup (keys au)).

Lemma obliging_honest : host_honest (H:=H).
Proof using Type*.
  intros h c h' o Ho. destruct (obliging_answers Hob h c) as (h1 & o1 & Ho1 & Hw). by rewrite Ho in Ho1; simplify_eq.
Qed.

Lemma outcome_row c cs o : outcome_wf o → ∃ row, result_row c cs (outcome_result c o) = Ok row.
Proof using Type*.
  intros Hw. unfold result_row. destruct o as [z|q|]; simpl; try by eexists. unfold outcome_wf, Seq.wf, SEQ_MAX in Hw.
  destruct (Z.ltb_spec i64_max (Seq.get z)); [unfold i64_max in *; lia|]. simpl. by eexists.
Qed.

Lemma payload_checksum_length (p : Payload) cs : payload_checksum p = Ok cs → String.length (HexString.as_str cs) = 32%nat.
Proof using Type*.
  unfold payload_checksum, payload_checksum_bytes. destruct (to_vec p) as [b|]; cbn [res_bind]; [|done].
  intros [= <-]. apply hex_u128_new.
Qed.

(** The constraints of the table hold of a verdict whose change is in the log. *)
Lemma outcome_row_ok t c cs o row :
  payload_checksum (Command.payload c) = Ok cs → result_row c cs (outcome_result c o) = Ok row →
  (∀ z, o = HostOutcome.Applied z → ∃ l, l ∈ sync_changes t ∧ ChangeRow.seq (LogRow.row l) = Seq.get z) →
  result_row_ok t row = true.
Proof using Type*.
  intros Hcs Hrow Hlog. apply payload_checksum_length in Hcs. unfold result_row in Hrow.
  destruct o as [z|q|]; simpl in Hrow; [destruct (i64_max <? _); [done|]|..]; injection Hrow as <-;
    unfold result_row_ok, result_row_checks, result_row_refers; simpl; rewrite Hcs; simpl; [|done..].
  destruct (Hlog z eq_refl) as (l & Hl & Hz). apply existsb_exists. exists l. split; [by apply list_elem_of_In|by apply Z.eqb_eq].
Qed.

Lemma arrival_fine sn vs t c : c ∈ sn → session_fine au sn vs t (Classifying c).
Proof using Type*. intros Hc. split; try done. by left. Qed.

(** A run on a sound connection goes: classify; then, for a new id, ask, and record. *)
Lemma classifying_moves sn vs t h c cs :
  (∀ c, c ∈ sn → owned au c) → rows_fine au sn vs t → c ∈ sn → payload_checksum (Command.payload c) = Ok cs →
  (∃ f r, advance Works t h (Classifying c) = (t, h, Finished c (Ok f)) ∧ Forwarded.result f = Some r) ∨
  sync_command_results t !! key c = None ∧ advance Works t h (Classifying c) = (t, h, Asking c).
Proof using Type*.
  intros Hown Hrows Hk Hcs. pose proof (classify_healthy c t) as Hc. rewrite (classify_next c t []) in Hc.
  simpl in Hc. unfold advance. destruct (classify c (MkClient t [Works])) as [cl d] eqn:Hcl.
  apply classify_tables in Hcl. simpl in Hcl. injection Hc as _ Hd. rewrite Hcl. subst d.
  destruct (judge c (sync_command_results t !! key c)) as [[|r|x y]|e] eqn:Hj; [right|left; by do 2 eexists..|exfalso].
  - split; [|done]. destruct (_ !! key c) as [row|] eqn:Hrow; [|done]. exfalso. unfold judge, decide_replay in Hj.
    destruct (read_result _ row); simpl in Hj; [|done]. rewrite Hcs in Hj. simpl in Hj. by destruct (negb _).
  - destruct (_ !! key c) as [row|] eqn:Hrow; unfold judge, decide_replay in Hj; simpl in Hj; [|by rewrite Hcs in Hj].
    destruct (owned_entry _ _ (Hown c Hk)) as (i & e' & Hin & Hid & Hke). pose proof Hrow as Hrow0. rewrite Hke in Hrow0.
    destruct (Hrows _ _ _ Hin Hrow0) as (c' & r & _ & Hid' & _ & row' & cs' & Hrow' & Hr & _).
    unfold key in Hrow, Hrow'. rewrite Hid', <- Hid, Hrow in Hrow'. injection Hrow' as <-. rewrite Hid', <- Hid in Hr. rewrite Hr in Hj. simpl in Hj.
    rewrite Hcs in Hj. simpl in Hj. by destruct (negb _).
Qed.

Lemma inserting_moves t h c cs row r :
  payload_checksum (Command.payload c) = Ok cs → result_row c cs r = Ok row → result_row_ok t row = true →
  sync_command_results t !! key c = None →
  advance Works t h (Inserting c r) =
    (set_results (<[key c := row]>) t, h, Finished c (Ok (Forwarded.Decided r))).
Proof using Type*.
  intros Hcs Hrow Hok Hn. unfold advance, record_insert, st_bind, st_lift. rewrite Hcs. simpl. rewrite Hrow.
  apply andb_true_iff in Hok as [Hck Hfk]. unfold sql, insert_result. simpl. rewrite Hck. simpl.
  unfold key in Hn. by rewrite Hn, Hfk.
Qed.

(** One of the fleet's commands is told a result. *)
Lemma attend_tells sn vs t h c :
  (∀ c, c ∈ sn → owned au c) → rows_fine au sn vs t → c ∈ sn → writable c →
  ∃ t' h' s r vs', attend t h c = (t', h', s) ∧ told s = Some r ∧ CommandResult.id r = Command.id c ∧
    rows_fine au sn vs' t'.
Proof using Type*.
  intros Hown Hrows Hk (_ & cs & Hcs). pose proof (arrival_fine sn vs t c Hk) as Hs. pose proof obliging_honest as Hh.
  unfold attend. destruct (classifying_moves sn vs t h c cs Hown Hrows Hk Hcs) as [(f & r & Ha & Hf)|[Hn Ha]]; rewrite Ha.
  - destruct (advance_fine _ _ _ _ _ _ _ _ _ _ Hh Hnd Hown Hrows Hs Ha) as (_ & Hrows' & [_ _ Htold _ _]).
    do 5 eexists. split_and!; [done|exact Hf|by apply (Htold r)|exact Hrows'].
  - destruct (advance_fine _ _ _ _ _ _ _ _ _ _ Hh Hnd Hown Hrows Hs Ha) as (_ & Hrows1 & Hs1).
    destruct (obliging_answers Hob h c) as (h' & o & Ho & Hw). destruct (outcome_row c cs o Hw) as [row Hrow].
    assert (Hb : advance Works t h (Asking c) = (t, h', Inserting c (outcome_result c o))) by (simpl; by rewrite Ho).
    rewrite Hb. destruct (advance_fine _ _ _ _ _ _ _ _ _ _ Hh Hnd Hown Hrows1 Hs1 Hb) as (_ & Hrows2 & Hs2).
    pose proof (obliging_results Hob h c t) as Hsame. 
    eapply rows_later in Hrows2; [|reflexivity|reflexivity|exact Hsame].
    eapply session_later in Hs2; [|exact Hown|reflexivity|reflexivity|by rewrite Hsame].
    assert (Hc : advance Works (host_writes h c t) h' (Inserting c (outcome_result c o)) =
      (set_results (<[key c := row]>) (host_writes h c t), h', Finished c (Ok (Forwarded.Decided (outcome_result c o))))).
    { apply inserting_moves with (cs := cs); [done|done| |by rewrite Hsame].
      eapply outcome_row_ok; [done|done|]. intros z ->. by eapply obliging_logs. }
    rewrite Hc. destruct (advance_fine _ _ _ _ _ _ _ _ _ _ Hh Hnd Hown Hrows2 Hs2 Hc) as (_ & Hrows3 & [_ _ Htold _ _]).
    do 5 eexists. split_and!; [done|done|by apply (Htold (outcome_result c o))|exact Hrows3].
Qed.

(** And so are all the commands of a request. *)
Lemma attend_all_tells sn cs : ∀ vs t h,
  (∀ c, c ∈ sn → owned au c) → rows_fine au sn vs t → (∀ c, c ∈ cs → c ∈ sn ∧ writable c) →
  ∃ t' h' rs vs', attend_all t h cs = (t', h', rs) ∧ CommandResult.id <$> rs = Command.id <$> cs ∧
    rows_fine au sn vs' t'.
Proof using Type*.
  induction cs as [|c cs IH]; intros vs t h Hown Hrows Hcs; cbn [attend_all]; [by exists t, h, [], vs|].
  destruct (Hcs c) as [Hk Hw]; [by left|].
  destruct (attend_tells sn vs t h c Hown Hrows Hk Hw) as (t1 & h1 & s & r & vs1 & -> & Htold & Hid & Hrows1).
  destruct (IH vs1 t1 h1 Hown Hrows1) as (t2 & h2 & rs & vs2 & -> & Hids & Hrows2); [intros c' Hc'; apply Hcs; by right|].
  exists t2, h2, (r :: rs), vs2. rewrite Htold. split_and!; [done| |done]. cbn. by rewrite Hid, Hids.
Qed.
End attending.

(** ** One round *)

Lemma apply_results_storage response en en' err :
  apply_results response en = (en', Err err) → ∃ se, err = OutboxError.Storage se.
Proof using Type*.
  unfold apply_results, st_bind. destruct (refresh_outbox_if_suspect en) as [en1 r1] eqn:Hr1. destruct r1 as [[]|e1].
  - cbv zeta. case_bool_decide; [done|]. destruct (engine_transact _ _) as [en2 []]; [done|]. intros [= _ <-]. by eexists.
  - intros [= _ <-]. unfold refresh_outbox_if_suspect in Hr1. destruct (negb _); [done|].
    destruct (Storage.outbox _) as [|se]; [done|]. injection Hr1 as _ <-. by exists se.
Qed.

(** The answers to the commands [cs] take those out of the queue and nothing else. *)
Lemma answers_settle response en en' o cs :
  coherent en → outbox_suspect en = false → CommandResult.id <$> PushResponse.results response = Command.id <$> cs →
  apply_results response en = (en', Ok o) →
  ∃ ids, (∀ id, id ∈ ids ↔ id ∈ queue_ids (durable en) ∧ id ∈ Command.id <$> cs) ∧
    v_outbox (durable en') = unanswered ids (v_outbox (durable en)) ∧ progress (durable en) (durable en').
Proof using Type*.
  intros [_ Hq] Hs Hids Ha. specialize (Hq Hs). destruct (apply_results_run _ _ _ _ Hs Ha) as (_ & _ & _ & _ & Hd).
  rewrite Hq in Hd.
  destruct (answering_all (registry en) (v_outbox (durable en)) (PushResponse.results response)) as (_ & _ & Hin & _ & _ & Hv).
  destruct (Hv (durable en)) as (Hvo & Hvr & _). rewrite <- Hd, fold_without in Hvo. rewrite <- Hd in Hvr.
  set (an := fold_left _ _ _) in *. rewrite Hids in Hin. exists ((an_resolutions an).*1). split; [exact Hin|]. split; [exact Hvo|].
  split; [by eexists|]. intros id Hid. destruct (decide (id ∈ (an_resolutions an).*1)) as [Hr|Hr].
  - right. unfold answered_ids. rewrite Hvr, fmap_app, elem_of_app. by right.
  - left. unfold queue_ids in *. rewrite Hvo. apply list_elem_of_fmap in Hid as (e & -> & He).
    apply list_elem_of_fmap. exists e. split; [done|]. by apply list_elem_of_filter.
Qed.

(** ** The rounds *)

Section rounds.
Context (Hob : obliging) (au : list (nat * OutboxEntry.t)) (Hnd : NoDup (keys au)) (i : nat).

(** A client of the fleet that may push, all of whose commands the JSON writer writes. *)
Record seated en : Prop := MkSeated {
  seated_inv : coherent en;
  seated_registry : registry en = rg;
  seated_migrations : migrations en = ms;
  seated_queue : ∀ e, e ∈ v_outbox (durable en) → (i, e) ∈ au;
  seated_upgrade : upgrade_required en = None;
  seated_writable : ∀ c, c ∈ sendable rg ms (v_outbox (durable en)) → writable c;
}.

Lemma seated_moves en en' :
  coherent en' → same_setup en en' → upgrade_required en' = None →
  (∀ e, e ∈ v_outbox (durable en') → e ∈ v_outbox (durable en)) → seated en → seated en'.
Proof using Type*.
  intros Hinv [Hrg Hmg] Hu Hsub []. split; [done|by rewrite Hrg|by rewrite Hmg|auto|done|].
  intros c (e & He & Hs)%list_elem_of_omap. apply seated_writable0. apply list_elem_of_omap. exists e. auto.
Qed.

Lemma sendable_owned en c : seated en → c ∈ sendable rg ms (v_outbox (durable en)) → owned au c.
Proof using Type*. intros [] (e & He & Hs)%list_elem_of_omap. exists i, e, rg, ms. auto. Qed.

(** One round: the queue loses at least one command that can be sent. *)
Lemma round_settles en en' rs o protocol dn rest :
  seated en → outbox_suspect en = false → v_outbox (durable en) = dn ++ rest → sendable rg ms dn ≠ [] →
  CommandResult.id <$> rs = Command.id <$> sendable rg ms dn →
  apply_results (PushResponse.mk protocol rs) en = (en', Ok o) →
  seated en' ∧ progress (durable en) (durable en') ∧
  (∀ e, e ∈ v_outbox (durable en') → e ∈ v_outbox (durable en)) ∧
  (length (sendable rg ms (v_outbox (durable en'))) < length (sendable rg ms (v_outbox (durable en))))%nat.
Proof using Type*.
  intros Hse Hs Hsplit Hne Hids Ha. pose proof (seated_inv _ Hse) as Hc.
  destruct (answers_settle (PushResponse.mk protocol rs) _ _ _ (sendable rg ms dn) Hc Hs Hids Ha) as (ids & Hin & Hq & Hp).
  assert (Hsub : ∀ e, e ∈ v_outbox (durable en') → e ∈ v_outbox (durable en)).
  { intros e. rewrite Hq. by intros [_ ?]%list_elem_of_filter. }
  split; [|split_and!; [done|done|]].
  - eapply seated_moves; [by eapply apply_results_coherent|..|done|exact Hse].
    + by destruct (apply_results_view _ _ _ _ Hc Ha) as [? _].
    + rewrite (apply_results_upgrade _ _ _ _ Ha). by apply seated_upgrade.
  - destruct (sendable rg ms dn) as [|c cs] eqn:Hdn; [done|].
    assert (c ∈ sendable rg ms dn) as (e & He & Hsent)%list_elem_of_omap by (rewrite Hdn; by left).
    assert (He' : e ∈ v_outbox (durable en)) by (rewrite Hsplit; apply elem_of_app; by left).
    rewrite Hq. unfold unanswered, sendable. apply omap_filter_lt with (x := e) (y := c); [done|done|].
    intros Hn. apply Hn, Hin. split; [apply list_elem_of_fmap; by exists e|]. apply list_elem_of_fmap. exists c.
    split; [by rewrite (sent_as_id _ _ _ _ Hsent)|by left].
Qed.

Lemma push_until_ends fuel protocol budget : ∀ sn en t h vs en' t' h' r,
  seated en → (∀ c, c ∈ sn → owned au c) → rows_fine au sn vs t → (length (sendable rg ms (v_outbox (durable en))) < fuel)%nat →
  push_until fuel protocol budget en t h = (en', t', h', r) →
  (r = Ok () ∧ sendable rg ms (v_outbox (durable en')) = [] ∧ progress (durable en) (durable en') ∧
   ∀ e, e ∈ v_outbox (durable en') → e ∈ v_outbox (durable en)) ∨
  ∃ se, r = Err (Some (OutboxError.Storage se)).
Proof using Type*.
  induction fuel as [|fuel IH]; intros sn en t h vs en' t' h' r Hse Hown Hrows Hlen Hp; [lia|]. cbn [push_until] in Hp.
  pose proof Hse as [Hc Hrg Hmg Hq Hu Hw].
  destruct (build_push protocol budget en) as [en1 o] eqn:Hb.
  pose proof (build_push_view _ _ _ _ _ Hc Hb) as [Hs1 Hv1]. pose proof (build_push_coherent _ _ _ _ _ Hc Hb) as Hinv1.
  apply build_push_built in Hb; [|done|done|rewrite Hrg, Hmg; intros c Hin; by destruct (Hw c Hin)].
  rewrite Hrg, Hmg in Hb. destruct o as [[req|]|e]; [|injection Hp as <- <- <- <-; left; rewrite Hv1, Hb; by split_and!|
    injection Hp as <- <- <- <-; destruct Hb as (se & -> & _); right; by exists se].
  destruct Hb as (Hs & Hu1 & _ & dn & rest & Hsplit & Hreq & Hne).
  case_bool_decide as Hnil.
  { injection Hp as <- <- <- <-. left. rewrite Hv1. split_and!; try done.
    destruct (sendable rg ms (v_outbox (durable en))) eqn:Hsd; [done|]. by destruct Hne. }
  assert (Hse1 : seated en1) by (eapply seated_moves; [done|done|done|by rewrite Hv1|exact Hse]).
  rewrite <- Hv1 in Hsplit. rewrite Hreq in Hp, Hnil.
  assert (Hall : ∀ c, c ∈ sendable rg ms dn → c ∈ sendable rg ms (v_outbox (durable en1))).
  { intros c Hin. rewrite Hsplit. unfold sendable. rewrite omap_app. apply elem_of_app. by left. }
  assert (Hown1 : ∀ c, c ∈ sn ++ sendable rg ms dn → owned au c).
  { intros c [?|Hin%Hall]%elem_of_app; [by apply Hown|by eapply sendable_owned]. }
  eapply (rows_later _ _ (sn ++ sendable rg ms dn)) in Hrows; [|by apply list_subseteq_app_l|reflexivity|reflexivity].
  destruct (attend_all_tells Hob au Hnd _ (sendable rg ms dn) vs t h Hown1 Hrows) as (t1 & h1 & rs & vs1 & Hat & Hids & Hrows1).
  { intros c Hin. split; [apply elem_of_app; by right|by apply (seated_writable _ Hse1), Hall]. }
  rewrite Hat in Hp. destruct (apply_results _ en1) as [en2 [o|e]] eqn:Ha.
  - destruct (round_settles _ _ _ _ _ _ _ Hse1 Hs Hsplit Hnil Hids Ha) as (Hse2 & Hpr & Hsub & Hlt).
    rewrite Hv1 in Hpr, Hsub, Hlt.
    destruct (IH _ en2 t1 h1 vs1 en' t' h' r Hse2 Hown1 Hrows1 ltac:(lia) Hp) as [(-> & Hnone & Hpr' & Hsub')|Herr]; [left|by right].
    split_and!; [done|done|by etrans|auto].
  - injection Hp as <- <- <- <-. right. apply apply_results_storage in Ha as [se ->]. by exists se.
Qed.
End rounds.
End exchange.
