(* ===== verification/ClientWitnesses.v ===== *)
(** * ClientWitnesses: each property of the client applied to a concrete engine, storage and
    input, and concrete runs of the behaviours worth recording. *)

From S2P Require Import Prelude Errors Nums Ids Json Wire Integrity Core Registry Migrate.
From S2P Require Import Outbox Storage SimStorage Apply Engine EngineFacts EngineSteps.
From S2P Require Import PushFacts Concrete EngineClaims OutboxClaims.
From stdpp Require Import options.

(** ** Sample runs *)

Lemma run_eq {A B} (p : A * B) r : p.2 = r → p = (p.1, r).
Proof. destruct p. by intros <-. Qed.

(** The run named [en'] is the one the theorem speaks of. *)
Ltac run_now en := unfold en; apply run_eq; vm_compute; reflexivity.
Ltac decide_now := apply (bool_decide_unpack _); vm_compute; exact I.

Definition good_batch : Batch.t :=
  batch_of [upsert 1 note row1 1; upsert 2 event row2 1; upsert 3 note row1 2; tombstone 4 event row2 1]
    5 false (server_digest [(note, row1, 2)]).
Definition stale_batch : Batch.t := batch_of [upsert 1 note row2 1] 1 false hex0.
Definition wrong_batch : Batch.t := batch_of [upsert 6 note row2 1] 6 false hex0.

Definition after_good : demo_engine := (apply_batch good_batch fresh).1.
(** The same storage, with a fault armed for its next transaction. *)
Definition armed (w : StorageVerdict) (en : demo_engine) : demo_engine :=
  set_storage (Db.set_verdict w (storage en)) en.
Definition refused : demo_engine := (apply_batch good_batch (armed FailBeforeCommit fresh)).1.

Definition with_two : demo_engine := (enqueue (queued 2) (enqueue (queued 1) fresh).1).1.
Definition result_of (n : Z) (s : Status) : CommandResult.t :=
  CommandResult.mk (id_of n) s None None.
Definition answers : PushResponse.t := PushResponse.mk (ProtocolVersion.mk 1)
  [result_of 2 Wire.Superseded; result_of 2 Wire.Applied; result_of 9 Wire.Applied].
Definition after_answers : demo_engine := (apply_results answers with_two).1.
Definition envelope1 : ForcedUpgrade.t :=
  ForcedUpgrade.mk (ProtocolVersion.mk 2) (ProtocolVersion.mk 3) (Reason.mk "old").

Lemma fresh_inv : client_inv fresh.
Proof. refine (new_inv _ _ _ _ _ _ _ demo_registry_wf _). reflexivity. Qed.
Lemma armed_inv w : client_inv (armed w fresh).
Proof.
  destruct fresh_inv as ((Hc & Ho) & Hd & Hw). split; [split; [exact Hc|exact Ho]|split; [exact Hd|exact Hw]].
Qed.

(** ** Witnesses *)

Definition reopened : demo_engine := restarted () () () (SimCompressor.with_ratio 1) demo_registry Migrations_new after_good.

Lemma digest_tracks_rows_witness :
  ScopeState.digest (default ScopeState.NEW (scopes reopened !! scope_a)) =
    map_digest (held reopened scope_a (versions_of (durable reopened))) ∧
  (∀ c, v_cursors (durable reopened) !! scope_a = Some c →
     v_digests (durable reopened) !! scope_a =
       Some (ScopeDigest.to_hex (map_digest (held reopened scope_a (versions_of (durable reopened)))))).
Proof.
  apply (digest_tracks_rows fresh reopened scope_a).
  - exact fresh_inv.
  - eapply rtc_l; [|apply rtc_once, step_restart; split; [exact demo_registry_wf|done]].
    apply (step_batch understood fresh good_batch after_good (apply_batch good_batch fresh).2);
      [split; decide_now|]. unfold after_good. by destruct (apply_batch good_batch fresh).
  - decide_now.
Defined.

Lemma apply_batch_exact_witness :
  v_cursors (durable after_good) = <[scope_a := Cursor.mk 5]> ∅ ∧
  versions_of (durable after_good) = rows_effect (Batch.changes good_batch) ∅ ∧
  scopes after_good !! scope_a = Some (position_after fresh good_batch).
Proof.
  destruct (apply_batch_exact fresh after_good good_batch (AppliedBatch.mk 4 false))
    as (_ & _ & _ & Hc & Hs & _ & _ & Hv);
    [exact fresh_inv|decide_now|decide_now|run_now after_good|].
  split_and!; [exact Hc|apply Hv; decide_now|exact Hs].
Defined.

Lemma apply_refusal_total_witness :
  refused = armed FailBeforeCommit fresh ∨
  (scopes refused = scopes fresh ∧ outbox_suspect refused = true).
Proof.
  destruct (apply_refusal_total (armed FailBeforeCommit fresh) refused good_batch
    (ApplyError.Storage (Transient "simulated failure before commit"))) as [H|H];
    [apply armed_inv|decide_now|run_now refused|by left|].
  right. destruct H as (_ & _ & H1 & _ & _ & _ & _ & H2). split; [exact H1|exact H2].
Defined.


Lemma escalation_counts_witness :
  attempts (scope_health scope_a (apply_batch wrong_batch fresh).1) = 1.
Proof.
  pose proof (hr_step scope_a 0 fresh fresh (apply_batch wrong_batch fresh).1 wrong_batch true false
    (AppliedBatch.mk 1 true) (hr_refl scope_a fresh) eq_refl (run_eq _ _ ltac:(compute_now))) as Hrun.
  change (health_run scope_a 1 fresh (apply_batch wrong_batch fresh).1) in Hrun.
  apply (escalation_counts scope_a 1 fresh (apply_batch wrong_batch fresh).1); [compute_now|exact Hrun].
Defined.

Lemma health_survives_restart_witness :
  health (restore_scope_health scope_a 1 false fresh) !! scope_a =
    health (apply_batch wrong_batch fresh).1 !! scope_a.
Proof.
  destruct (health_survives_restart fresh (apply_batch wrong_batch fresh).1 fresh wrong_batch true false
    (AppliedBatch.mk 1 true) 1 false) as [_ H];
    [exact fresh_inv|decide_now|decide_now|vm_compute; discriminate|compute_now|apply run_eq; compute_now|].
  apply H. compute_now.
Defined.

Lemma rebootstrap_is_scoped_witness :
  v_rows (durable (begin_rebootstrap scope_a after_good).1) !! (note, row1) = None ∧
  v_outbox (durable (begin_rebootstrap scope_a after_good).1) = v_outbox (durable after_good).
Proof.
  destruct (rebootstrap_is_scoped after_good (begin_rebootstrap scope_a after_good).1 scope_a)
    as (H1 & _ & _ & _ & H2 & _).
  - eapply client_step_inv; [|exact fresh_inv].
    apply (step_batch understood fresh good_batch after_good (apply_batch good_batch fresh).2);
      [split; decide_now|]. unfold after_good. by destruct (apply_batch good_batch fresh).
  - apply run_eq; compute_now.
  - split; [|exact H2]. rewrite H1. apply decide_True. decide_now.
Defined.

(** The app of a device reads schema 2 of its notes, and knows no migration to it. *)
Definition v2_registry : Registry :=
  register_entity (EntityRegistration.mk note scope_a OwnerDraft v2) Registry_new.
Definition v2_device : demo_engine := set_registry (λ _, v2_registry) (new () () Db.new () (SimCompressor.with_ratio 1)).
(** A row in schema 1, then the same row rewritten in schema 2. *)
Definition old_batch : Batch.t := batch_of [upsert 1 note row1 1] 1 false (server_digest [(note, row1, 1)]).
Definition new_batch : Batch.t :=
  batch_of [Change.mk (Seq.mk 2) note row1 Upsert (Some (snap 2)) (RowVersion.mk 2) v2] 2 false
    (server_digest [(note, row1, 2)]).
Definition quarantining : demo_engine := (apply_batch old_batch v2_device).1.
Definition mended : demo_engine := (apply_batch new_batch quarantining).1.

(** The device is reopened by an app that cannot read the row it is then sent, and answered. *)
Definition reopened_v2 : demo_engine := restarted () () () (SimCompressor.with_ratio 1) v2_registry Migrations_new with_two.
Definition quarantined_v2 : demo_engine := (apply_batch old_batch reopened_v2).1.
Definition answered_v2 : demo_engine := (apply_results answers quarantined_v2).1.

Lemma outbox_never_drops_witness :
  v_quarantine (durable quarantined_v2) ≠ [] ∧ v_outbox (durable answered_v2) = [queued 1] ∧
  (queued 2 ∈ v_outbox (durable answered_v2) ∨
  ((∃ r, (OutboxEntry.id (queued 2), r) ∈ v_resolved (durable answered_v2)) ∧
   ∃ en1 en2 response o, rtc (client_step anything) with_two en1 ∧ apply_results response en1 = (en2, o) ∧
     rtc (client_step anything) en2 answered_v2 ∧
     OutboxEntry.id (queued 2) ∈ (CommandResult.id <$> PushResponse.results response))).
Proof.
  split; [vm_compute; discriminate|]. split; [vm_compute; reflexivity|].
  apply (outbox_never_drops with_two answered_v2 (queued 2)).
  - eapply rtc_l; [by apply (step_restart anything _ () () () (SimCompressor.with_ratio 1) v2_registry Migrations_new)|].
    eapply rtc_l; [apply (step_batch anything _ old_batch quarantined_v2 (apply_batch old_batch reopened_v2).2 I), surjective_pairing|].
    apply rtc_once. apply (step_results anything _ answers _ (apply_results answers quarantined_v2).2), surjective_pairing.
  - right. left.
Defined.

Lemma apply_results_exact_witness :
  v_resolved (durable after_answers) = [(id_of 2, Resolution.Superseded)] ∧
  outbox_queue after_answers = unanswered [id_of 2] (outbox_queue with_two).
Proof.
  destruct (apply_results_exact answers with_two after_answers
    (Resolved.mk [(id_of 2, Resolution.Superseded)] 2)) as (_ & _ & _ & H1 & H2 & _);
    [|compute_now|apply run_eq; compute_now|split; [exact H1|exact H2]].
  eapply client_step_inv; [eapply step_enqueue, run_eq; reflexivity|].
  eapply client_step_inv; [eapply step_enqueue, run_eq; reflexivity|]. exact fresh_inv.
Defined.

Lemma apply_results_idempotent_witness :
  Resolved.unknown (Resolved.mk [] 3) = 3%nat ∧
  outbox_queue (apply_results answers after_answers).1 = outbox_queue after_answers.
Proof.
  destruct (apply_results_idempotent answers with_two after_answers (apply_results answers after_answers).1
    (Resolved.mk [(id_of 2, Resolution.Superseded)] 2) (Resolved.mk [] 3)) as (_ & H1 & H2 & _);
    [compute_now|apply run_eq; compute_now|apply run_eq; compute_now|split; [exact H1|exact H2]].
Defined.


Definition push2 : demo_engine * result (option PushRequest.t) OutboxError.t :=
  build_push (ProtocolVersion.mk 1) 1000 with_two.

(** The same push from an engine that does not trust its queue. *)
Definition distrustful : demo_engine := set_outbox_suspect true (set_queue (λ _, []) with_two).

Lemma push_fills_to_limits_witness :
  ∃ dn rest encs, v_outbox (durable with_two) = dn ++ rest ∧
    [save_note 1; save_note 2] = sendable demo_registry Migrations_new dn ∧
    encodes [save_note 1; save_note 2] encs.
Proof.
  destruct (push_fills_to_limits (ProtocolVersion.mk 1) 1000 distrustful (build_push (ProtocolVersion.mk 1) 1000 distrustful).1
    (PushRequest.mk (ProtocolVersion.mk 1) [save_note 1; save_note 2])) as (dn & rest & encs & H1 & H2 & H3 & _);
    [apply run_eq; compute_now|]. exists dn, rest, encs. split_and!; [exact H1|exact H2|exact H3].
Defined.

Lemma push_accepted_and_progress_witness :
  PushRequest.validate (PushRequest.mk (ProtocolVersion.mk 1) [save_note 1; save_note 2]) = Ok ().
Proof.
  apply (push_accepted_and_progress (ProtocolVersion.mk 1) 1000 with_two push2.1
    (PushRequest.mk (ProtocolVersion.mk 1) [save_note 1; save_note 2]));
    [compute_now|apply run_eq; compute_now|simpl; lia].
Defined.

Lemma upgrade_keeps_outbox_witness :
  build_push (ProtocolVersion.mk 1) 1000 (on_upgrade_required envelope1 with_two) =
    (on_upgrade_required envelope1 with_two, Ok None).
Proof.
  apply (upgrade_keeps_outbox envelope1 (ProtocolVersion.mk 1) 1000 with_two); compute_now.
Defined.

Lemma enqueue_durable_witness :
  v_outbox (durable (enqueue (queued 1) fresh).1) = [queued 1].
Proof.
  destruct (enqueue_durable (queued 1) fresh (enqueue (queued 1) fresh).1 (Ok ())) as [(_ & H & _) _];
    [apply run_eq; compute_now|exact H].
Defined.

(** ** A behaviour worth recording *)



Lemma v2_inv : client_inv v2_device.
Proof.
  exact (new_inv () () Db.new () (SimCompressor.with_ratio 1) v2_registry Migrations_new
    (register_entity_wf _ _ Registry_new_wf) eq_refl).
Qed.

Lemma quarantined_row_diverges_witness :
  (apply_batch new_batch quarantining).2 = Ok (AppliedBatch.mk 1 true) ∧
  versions_of (durable quarantining) = ∅ ∧ versions_of (durable mended) = {[(note, row1) := RowVersion.mk 2]} ∧
  row_hash note row1 (RowVersion.mk 1) mod u128_mod ≠ 0.
Proof.
  destruct (quarantined_row_diverges v2_device quarantining mended old_batch new_batch (AppliedBatch.mk 1 false)
    (AppliedBatch.mk 1 true)) as (H1 & H2 & _ & H3);
    [exact v2_inv|decide_now|reflexivity|decide_now|decide_now| |run_now quarantining|run_now mended|reflexivity|vm_compute; reflexivity|].
  - intros c [->|?%not_elem_of_nil]%elem_of_cons; [right|done]. eexists. split; [by left|reflexivity].
  - split; [vm_compute; reflexivity|]. split; [rewrite H1; vm_compute; reflexivity|]. split; [rewrite H2; vm_compute; reflexivity|].
    apply (H3 (upsert 1 note row1 1) eq_refl); reflexivity.
Defined.

