(* ===== verification/ProtocolClaims.v ===== *)
(** * ProtocolClaims: the properties of the wire protocol, the registry and the migrations,
    each with a concrete witness. *)

From S2P Require Import Prelude Errors Nums Ids Json Wire Integrity Core Registry Migrate.
From S2P Require Import Outbox Storage Apply Concrete.
From stdpp Require Import options.

(** ** Identifiers *)

(** C38: Command ids round-trip. A string parses to an id exactly when it is that id's own
    printed form and the id is a version-7 UUID, so every id has one spelling. *)
Theorem uuid_roundtrip s x :
  CommandId.parse s = Ok x ↔ CommandId.to_string x = s ∧ CommandId.wf x.
Proof.
  split; [apply uuid_print_parse|]. intros [<- Hw]. by apply uuid_parse_print.
Qed.

(** ** Hexadecimal and the digest *)

(** Every 128-bit value prints as 32 lowercase hexadecimal characters the wire type
    accepts, and reads back as itself, so two digests never share a spelling. *)
Theorem hex_roundtrip v :
  0 ≤ v < u128_mod →
  HexString.new (HexString.as_str (hex_u128 v)) = Ok (hex_u128 v) ∧
  u128_from_str_radix_16 (HexString.as_str (hex_u128 v)) = Some v.
Proof.
  intros Hv. split; [|by apply from_str_radix_hex].
  destruct (hex_u128_new v) as (_ & _ & Hwf). unfold HexString.new. apply HexString_new_named_ok.
  by destruct (hex_u128 v).
Qed.

Lemma hex_roundtrip_witness :
  u128_from_str_radix_16 (HexString.as_str (hex_u128 255)) = Some 255.
Proof. apply (hex_roundtrip 255). split; [discriminate|reflexivity]. Defined.

(** One change to the set of live rows, as the digest sees it. *)
Inductive row_event : Type :=
| Put (e : EntityName.t) (i : EntityId.t) (v : RowVersion.t)
| Drop (e : EntityName.t) (i : EntityId.t).

Definition event_rows (m : LiveRows) (ev : row_event) : LiveRows :=
  match ev with
  | Put e i v => <[(e, i) := v]> m
  | Drop e i => delete (e, i) m
  end.
Definition event_digest `{Hashes} (m : LiveRows) (d : ScopeDigest.t) (ev : row_event) : ScopeDigest.t :=
  match ev with
  | Put e i v =>
      match m !! (e, i) with
      | Some old => ScopeDigest.update d e i old v
      | None => ScopeDigest.add d e i v
      end
  | Drop e i => match m !! (e, i) with Some old => ScopeDigest.remove d e i old | None => d end
  end.

(** The digest is incremental and order-independent. Adding, updating and removing
    rows one by one, in any order of events, always yields the digest computed from scratch
    over the rows that are left, in whatever order they are listed. *)
Theorem digest_incremental `{Hashes} (evs : list row_event) rows :
  let '(m, d) := fold_left (λ '(m, d) ev, (event_rows m ev, event_digest m d ev)) evs
                   (∅, ScopeDigest.EMPTY) in
  rows ≡ₚ ((λ '(e, i, v), (e, i, v)) <$> map_to_list m) → ScopeDigest.from_rows rows = d.
Proof.
  assert (Hinv : ∀ evs (m : LiveRows) d, d = map_digest m →
    let '(m', d') := fold_left (λ '(m, d) ev, (event_rows m ev, event_digest m d ev)) evs (m, d) in
    d' = map_digest m').
  { clear. induction evs as [|ev evs IH]; intros m d ->; [done|]. cbn [fold_left]. apply IH.
    destruct ev as [e i v|e i]; simpl; destruct (m !! (e, i)) as [old|] eqn:Hm.
    - by rewrite (map_digest_update _ e i old).
    - by rewrite map_digest_insert_fresh.
    - by rewrite (map_digest_delete _ e i old).
    - by rewrite delete_id. }
  specialize (Hinv evs ∅ ScopeDigest.EMPTY (eq_sym map_digest_empty)).
  destruct (fold_left _ _ _) as [m d]. intros Hp. rewrite Hinv. by apply from_rows_perm.
Qed.

(** Two different rows never share hash input: the length prefixes keep entity, id and
    version apart. *)
Theorem row_bytes_injective e i v e' i' v' :
  EntityName.wf e → EntityName.wf e' → EntityId.wf i → EntityId.wf i' →
  RowVersion.wf v → RowVersion.wf v' → row_bytes e i v = row_bytes e' i' v' →
  e = e' ∧ i = i' ∧ v = v'.
Proof. apply row_bytes_inj. Qed.

Lemma row_bytes_injective_witness : note = note ∧ row1 = row1 ∧ RowVersion.mk 3 = RowVersion.mk 3.
Proof.
  apply (row_bytes_injective note row1 (RowVersion.mk 3) note row1 (RowVersion.mk 3));
    [| | | |split; vm_compute; discriminate|split; vm_compute; discriminate|reflexivity];
    (split; [vm_compute; lia|repeat constructor]).
Defined.

(** A duplicated row is never mistaken for an absent one. Adding a row that is already
    counted gives back a digest equal to the one before only if the row's hash is 0 or
    exactly 2^127, the two fixed points of doubling. *)
Theorem duplicate_never_cancels `{HashLaws} d e i v :
  ScopeDigest.wf d → ScopeDigest.add (ScopeDigest.add d e i v) e i v = d →
  row_hash e i v = 0 ∨ row_hash e i v = 2 ^ 127.
Proof. apply digest_no_cancel. Qed.

(** A hash for which the hypothesis can hold. *)
Lemma duplicate_never_cancels_witness :
  let H := Build_Hashes (λ _, 0) (λ _, be_bytes 32 0) in row_hash note row1 (RowVersion.mk 1) = 0 ∨
    row_hash note row1 (RowVersion.mk 1) = 2 ^ 127.
Proof.
  set (H := Build_Hashes (λ _, 0) (λ _, be_bytes 32 0)). cbv zeta.
  refine (@duplicate_never_cancels H _ ScopeDigest.EMPTY note row1 (RowVersion.mk 1) _ _).
  - split; intros l; [split; [discriminate|reflexivity]|reflexivity|apply be_bytes_range].
  - split; [discriminate|reflexivity].
  - reflexivity.
Defined.

(** ** Documents and decoding *)

(** A host document is accepted exactly when it is an object, contains no float at any
    depth, and its canonical encoding fits; an accepted document is the value unchanged. *)
Theorem document_accepts_exactly `{Codec} {MAX FIELD} v (d : Document MAX FIELD) :
  Document_new v = Ok d ↔
  d = MkDocument v ∧ is_object v = true ∧ float_free v ∧
  ∃ enc, json_to_vec v = Ok enc ∧ (N.of_nat (length enc) ≤ MAX)%N.
Proof. apply Document_new_ok. Qed.

(** A bounded list decodes at most its limit. Within the limit every element is
    decoded and the first error wins; over it the elements past the limit are never
    decoded, only the first of them is skipped, and the answer is the size error unless an
    element within the limit (or the skip) fails first. *)
Theorem bounded_decoding {raw T E} (decode : raw → result T E) skip too_many room (l : list raw) :
  visit_seq decode skip too_many room l =
    match drop room l with
    | [] => res_mapM decode l
    | x :: _ => try? res_mapM decode (take room l) then try? skip x then Err too_many
    end.
Proof.
  destruct (drop room l) as [|x rest] eqn:Hd.
  - apply visit_seq_le. by apply drop_nil_inv.
  - rewrite <- (take_drop room l) at 1. rewrite Hd. apply visit_seq_over.
    apply length_take_le. assert (drop room l ≠ []) as Hne by (by rewrite Hd).
    destruct (decide (room ≤ length l)%nat) as [|Hgt]; [done|]. destruct Hne. apply drop_ge. lia.
Qed.

(** C39: Decoding binds the rules between fields. A decoded change carries a snapshot
    exactly when it is an upsert; a decoded batch is strictly ordered throughout; a decoded
    rejection carries a reason; a decoded push has at most 256 commands and at most 1 MB of
    canonical encoding; a decoded pull names at most 64 scopes. In each case the value is
    the decoded fields, unchanged, and nothing that satisfies the rule is refused. *)
Theorem decoding_binds_rules `{Codec} :
  (∀ seq e i op snap rv sv c, Change_try_from seq e i op snap rv sv = Ok c ↔
     c = Change.mk seq e i op snap rv sv ∧ change_wf c) ∧
  (∀ sc cs nc more ck dg b, Batch_try_from sc cs nc more ck dg = Ok b ↔
     b = Batch.mk sc cs nc more ck dg ∧ StronglySorted seq_lt (Batch.changes b)) ∧
  (∀ id st re sq r, CommandResult_try_from id st re sq = Ok r ↔
     r = CommandResult.mk id st re sq ∧
     (CommandResult.status r = Rejected → is_Some (CommandResult.reason r))) ∧
  (∀ p cs r, PushRequest_try_from p cs = Ok r ↔
     r = PushRequest.mk p cs ∧ (length cs ≤ 256)%nat ∧
     ∃ enc, to_vec cs = Ok enc ∧ (N.of_nat (length enc) ≤ 1048576)%N) ∧
  (∀ p ss lb r, PullRequest_try_from p ss lb = Ok r ↔
     r = PullRequest.mk p ss lb ∧ (length ss ≤ 64)%nat).
Proof.
  split_and!; intros *.
  - unfold Change_try_from. rewrite try_from_ok, Change_validate_ok. naive_solver.
  - unfold Batch_try_from. rewrite try_from_ok, validate_ordering_ok. naive_solver.
  - unfold CommandResult_try_from. rewrite try_from_ok, CommandResult_validate_ok. naive_solver.
  - unfold PushRequest_try_from. rewrite try_from_ok. apply and_iff_compat_l.
    unfold PushRequest.validate. cbn [PushRequest.commands]. rewrite encoded_len_to_vec.
    unfold COMMANDS_MAX_COUNT, COMMANDS_MAX_TOTAL_BYTES. change (1024 * 1024)%N with 1048576%N.
    destruct (Nat.ltb_spec 256 (length cs)); [split; [done|lia]|].
    destruct (to_vec cs) as [enc|e]; cbn [res_bind]; [|split; [done|naive_solver]].
    destruct (N.ltb_spec 1048576 (N.of_nat (length enc))); split; try done.
    + intros (_ & enc' & [= <-] & ?). lia.
    + intros _. split; [lia|]. by exists enc.
  - unfold PullRequest_try_from. rewrite try_from_ok. apply and_iff_compat_l.
    unfold PullRequest.validate, SCOPES_MAX_COUNT. cbn [PullRequest.scopes].
    destruct (Nat.ltb_spec 64 (length ss)); split; done || lia.
Qed.

(** ** Migrations *)

(** C37: Migration composes. Going from one schema version to another through any version
    in between succeeds with a document exactly when going directly does, and with the same
    document: there is one path, so the two cannot disagree. *)
Theorem migration_composes m e v w from mid to :
  SchemaVersion.get from ≤ SchemaVersion.get mid ≤ SchemaVersion.get to →
  migrate_value m e v from to = Ok w ↔
  ∃ u, migrate_value m e v from mid = Ok u ∧ migrate_value m e u mid to = Ok w.
Proof.
  intros [H1 H2]. rewrite migrate_value_loop by lia.
  rewrite (versions_app _ (SchemaVersion.get mid)) by lia. rewrite migrate_loop_app.
  setoid_rewrite migrate_value_loop; [|lia..]. split.
  - intros Hr. destruct (migrate_loop _ _ _ (versions (SchemaVersion.get from) _) _) as [u|] eqn:Hu;
      simpl in Hr; [|done]. exists u. split; [|done]. by eapply migrate_loop_target.
  - intros (u & Hu & Hw). eapply migrate_loop_target in Hu. by rewrite Hu.
Qed.

Definition bump (v : Value) : result Value string :=
  match v with VObject m => Ok (VObject (("k", VNull) :: m)) | _ => Err "not an object" end.
Definition two_steps : Migrations := Migrate.register (Migrate.register Migrations_new note v1 bump) note v2 bump.

Lemma migration_composes_witness :
  ∃ u, migrate_value two_steps note (doc 1) v1 v2 = Ok u ∧
       migrate_value two_steps note u v2 (SchemaVersion.mk 3) =
         Ok (VObject [("k", VNull); ("k", VNull); ("n", VNumber (PosInt 1))]).
Proof.
  apply (migration_composes two_steps note (doc 1) _ v1 v2 (SchemaVersion.mk 3)); [simpl; lia|].
  vm_compute. reflexivity.
Defined.

(** A plan tells the truth. It accepts exactly the journeys whose every step is
    registered; when it refuses a forward journey it names the first missing step; a
    journey it accepts can only fail inside one of the host's own steps; and going backward
    is refused by both the plan and the migration. *)
Theorem plan_is_faithful m e v from to :
  (plan m e from to = Ok () ↔
     SchemaVersion.get from ≤ SchemaVersion.get to ∧
     ∀ n, SchemaVersion.get from ≤ n < SchemaVersion.get to → is_Some (steps m !! (e, n))) ∧
  (∀ e' at_ target, plan m e from to = Err (MigrationError.NoPath e' at_ target) →
     e' = e ∧ target = SchemaVersion.get to ∧ SchemaVersion.get from ≤ at_ < SchemaVersion.get to ∧
     steps m !! (e, at_) = None ∧
     ∀ n, SchemaVersion.get from ≤ n < at_ → is_Some (steps m !! (e, n))) ∧
  (plan m e from to = Ok () →
     (∃ w, migrate_value m e v from to = Ok w) ∨
     (∃ n reason, SchemaVersion.get from ≤ n < SchemaVersion.get to ∧
        migrate_value m e v from to = Err (MigrationError.Failed e n (n + 1) reason))) ∧
  (SchemaVersion.get to < SchemaVersion.get from →
     plan m e from to = Err (MigrationError.Backward (SchemaVersion.get from) (SchemaVersion.get to)) ∧
     migrate_value m e v from to =
       Err (MigrationError.Backward (SchemaVersion.get from) (SchemaVersion.get to))).
Proof.
  set (a := SchemaVersion.get from). set (b := SchemaVersion.get to).
  assert (Hfwd : a ≤ b → plan m e from to = plan_loop m e b (versions a b)).
  { intros Hle. unfold plan. fold a b. cbv zeta. by destruct (Z.ltb_spec b a); [lia|]. }
  assert (Hback : b < a → plan m e from to = Err (MigrationError.Backward a b)).
  { intros Hlt. unfold plan. fold a b. cbv zeta. by destruct (Z.ltb_spec b a); [|lia]. }
  split_and!.
  - destruct (Z.le_gt_cases a b) as [Hle|Hgt].
    + rewrite (Hfwd Hle), plan_loop_ok, Forall_forall. setoid_rewrite elem_of_versions. naive_solver.
    + rewrite (Hback Hgt). split; [done|lia].
  - intros e' at_ target Hp. destruct (Z.le_gt_cases a b) as [Hle|Hgt]; [|by rewrite (Hback Hgt) in Hp].
    rewrite (Hfwd Hle) in Hp. apply plan_loop_err in Hp as (l1 & x & l2 & Heq & Hx & Hl1 & [= -> -> ->]).
    assert (Hin : x ∈ versions a b) by (rewrite Heq; set_solver). apply elem_of_versions in Hin.
    split_and!; try done; try lia. intros n Hn.
    rewrite (versions_app a x b) in Heq by lia. rewrite (versions_cons x b) in Heq by lia.
    assert (l1 = versions a x) as ->.
    { eapply (f_equal (take (length (versions a x)))) in Heq as Heq'.
      rewrite take_app_length in Heq'.
      assert (Hnl : x ∉ l1) by (intros Hin'; rewrite Forall_forall in Hl1; destruct (Hl1 _ Hin'); congruence).
      assert (Hnv : x ∉ versions a x) by (rewrite elem_of_versions; lia).
      clear -Heq Hnl Hnv. revert l1 Heq Hnl. induction (versions a x) as [|y l IH]; intros [|z l1] Heq Hnl;
        simplify_eq/=; [done|set_solver|set_solver|]. f_equal. apply IH; set_solver. }
    rewrite Forall_forall in Hl1. apply Hl1. by rewrite elem_of_versions.
  - intros Hp. destruct (Z.le_gt_cases a b) as [Hle|Hgt]; [|by rewrite (Hback Hgt) in Hp].
    rewrite (Hfwd Hle) in Hp. rewrite migrate_value_loop by done. fold a b.
    destruct (migrate_loop_plan m e b (versions a b) v Hp) as [Hok|(n & reason & Hn & Herr)]; [by left|right].
    exists n, reason. rewrite elem_of_versions in Hn. by split.
  - intros Hlt. split; [by apply Hback|]. unfold migrate_value. fold a b. cbv zeta.
    by destruct (Z.ltb_spec b a); [|lia].
Qed.

(** ** The registry *)

(** The registry refuses by default. A command passes exactly when its name is
    declared, the entity it writes is declared, and that entity is not server-authoritative;
    otherwise the error says which of the three failed. *)
Theorem registry_decides r c :
  check_command r c =
    match target_of r (Command.name c) with
    | None => Err (RegistryError.UnknownCommand (Command.name c))
    | Some e =>
        match class_of r e with
        | None => Err (RegistryError.UnknownEntity e)
        | Some ServerAuthoritative => Err (RegistryError.ServerAuthoritative e)
        | Some _ => Ok e
        end
    end.
Proof.
  unfold check_command, target_of, class_of, ok_or. destruct (reg_commands r !! _) as [e|]; simpl; [|done].
  destruct (reg_entities r !! e) as [reg|]; simpl; [|done].
  by destruct (EntityRegistration.conflict_class reg).
Qed.
