(* ===== verification/DedupeClaims.v ===== *)
(** * DedupeClaims: what forwarding a command promises, alone and in a race. *)

From S2P Require Import Prelude Errors Nums Ids Json Wire Integrity Core Server Database.
From S2P Require Import Dedupe Race Concrete.
From stdpp Require Import options.

Section claims.
Context {H : Type} `{!Host H} `{Hashes} `{Codec}.

Lemma judge_recorded t command cs2 r :
  (∃ row, sync_command_results t !! key command = Some row ∧
     read_result (Command.id command) row = Ok r ∧ ResultRow.payload_checksum row = HexString.as_str cs2) →
  ∀ cs, payload_checksum (Command.payload command) = Ok cs →
  judge command (sync_command_results t !! key command) =
    Ok (if bool_decide (cs2 = cs) then Replay r else Mutated (HexString.as_str cs2) (HexString.as_str cs)).
Proof using Type*.
  intros (row & Hrow & Hr & Hc) cs Hcs. unfold judge. rewrite Hrow. simpl. rewrite Hr. simpl.
  unfold decide_replay. rewrite Hcs. simpl. rewrite Hc.
  destruct (String.eqb_spec (HexString.as_str cs2) (HexString.as_str cs)) as [E|E]; simpl;
    case_bool_decide; subst; try done. destruct cs, cs2; simpl in *; congruence.
Qed.

(** A command a lone run decided is in the table, under its own body. *)
Lemma forward_recorded command c h c' h' r :
  host_honest (H:=H) → forward command (c, h) = ((c', h'), Ok (Forwarded.Decided r)) →
  recorded_as (tables c') command r.
Proof using Type*.
  intros Hh Hf. destruct c as [t0 fs]. pose proof (run_alone_ok 4 fs t0 h (Classifying command) Hh I) as Hok.
  rewrite forward_runs, Hf in Hok. apply Hok.
Qed.

(** A healthy or faulty connection, the first statement of a forward settles a recorded id. *)
Lemma forward_settled t fs h command2 cs cs2 r :
  (∃ row, sync_command_results t !! key command2 = Some row ∧
     read_result (Command.id command2) row = Ok r ∧ ResultRow.payload_checksum row = HexString.as_str cs) →
  payload_checksum (Command.payload command2) = Ok cs2 →
  ∃ answer, forward command2 (MkClient t fs, h) = ((MkClient t (tl fs), h), answer) ∧
    (answer = Ok (if bool_decide (cs = cs2) then Forwarded.Replayed r else Forwarded.Mutated (mutated_result command2)) ∨
     hd Works fs ≠ Works ∧ ∃ d, answer = Err (ServerError.Database d)).
Proof using Type*.
  intros Hrow Hcs2. pose proof (judge_recorded t command2 cs r Hrow cs2 Hcs2) as Hj.
  unfold forward, on_client, st_bind. rewrite classify_next.
  destruct fs as [|[|d|d] fs]; cbn [hd tl].
  1-2: change (classify command2 (MkClient t [Works])) with (classify command2 (MkClient t [])); rewrite classify_healthy, Hj;
    case_bool_decide; eexists; (split; [reflexivity|by left]).
  all: eexists; (split; [reflexivity|right]); split; [done|by eexists].
Qed.

(** C24: A decided command stays decided. Take a server to which any number of requests come,
    whose runs of [forward] interleave in any way and meet any faults; once one of them has
    told its client the host's verdict on a command, and whatever the server does after that, a
    forward of the same id, if its payload can be encoded, on any connection never asks the host
    and never writes: with a body of the same payload checksum it is answered with the very
    result told the first time, with any other body it is refused, so the table cannot launder a
    tampered command; or its one query fails on the connection, and it ends with that error. *)
Theorem decided_is_forever (w0 w1 w2 : World H) s command r fs command2 cs cs2 :
  host_honest (H:=H) → arriving w0 → race w0 w1 → s ∈ sessions w1 →
  session_command s = command → verdict s = Some (Command.id command, r) → race w1 w2 →
  Command.id command2 = Command.id command →
  payload_checksum (Command.payload command) = Ok cs → payload_checksum (Command.payload command2) = Ok cs2 →
  ∃ answer, forward command2 (MkClient (shared w2) fs, host w2) = ((MkClient (shared w2) (tl fs), host w2), answer) ∧
    (answer = Ok (if bool_decide (cs = cs2) then Forwarded.Replayed r else Forwarded.Mutated (mutated_result command2)) ∨
     hd Works fs ≠ Works ∧ ∃ d, answer = Err (ServerError.Database d)).
Proof using Type*.
  intros Hh Ha H01 Hs Hsc Hv H12 Hid Hcs Hcs2.
  destruct (race_keeps w0 w1 Hh H01 (arriving_ok w0 Ha)) as (_ & Hok & _).
  destruct (race_keeps w1 w2 Hh H12 Hok) as (Hsub & _ & _). rewrite Forall_forall in Hok.
  destruct (verdict_recorded _ _ _ _ (Hok _ Hs) Hv) as [_ Hrec]. rewrite Hsc in Hrec.
  apply (recorded_as_mono _ _ _ _ Hsub) in Hrec as (row & cs' & Hrow & Hr & Hcs' & Hc).
  rewrite Hcs in Hcs'. injection Hcs' as <-. apply forward_settled; [|done].
  exists row. unfold key in *. by rewrite Hid.
Qed.

(** C6: In a race every client hears one story. Whatever the interleaving of any number of
    concurrent requests and whatever faults their connections meet, requests for the same id
    that are told the host's verdict are told the same one, they carried bodies of the same
    payload checksum, and no result once recorded is ever changed. *)
Theorem race_agreement (w w' : World H) s1 s2 id r1 r2 :
  host_honest (H:=H) → arriving w → race w w' →
  s1 ∈ sessions w' → s2 ∈ sessions w' →
  verdict s1 = Some (id, r1) → verdict s2 = Some (id, r2) →
  r1 = r2 ∧
  payload_checksum (Command.payload (session_command s1)) =
    payload_checksum (Command.payload (session_command s2)) ∧
  sync_command_results (shared w) ⊆ sync_command_results (shared w').
Proof using Type*.
  intros Hh Ha Hr Hin1 Hin2 Hv1 Hv2.
  destruct (race_keeps w w' Hh Hr (arriving_ok w Ha)) as (Hsub & Hok & _).
  rewrite Forall_forall in Hok.
  destruct (verdict_recorded _ _ _ _ (Hok _ Hin1) Hv1) as [Hid1 Hr1].
  destruct (verdict_recorded _ _ _ _ (Hok _ Hin2) Hv2) as [Hid2 Hr2].
  destruct (recorded_as_unique _ _ _ _ _ (eq_trans Hid1 (eq_sym Hid2)) Hr1 Hr2). by split_and!.
Qed.

(** A forward run on a sound connection takes the branch the table dictates. A known id
    is answered from its row; an unknown one is put to the host exactly once, and its verdict
    is recorded and returned; when the host cannot answer nothing at all is written, so the
    next attempt asks the host again. *)
Theorem forward_exact t h command cs :
  payload_checksum (Command.payload command) = Ok cs →
  forward command (MkClient t [], h) =
    match sync_command_results t !! key command with
    | Some row =>
        ((MkClient t [], h),
         let? r := read_result (Command.id command) row in
         Ok (if String.eqb (ResultRow.payload_checksum row) (HexString.as_str cs)
             then Forwarded.Replayed r else Forwarded.Mutated (mutated_result command)))
    | None =>
        let '(h', answer) := host_apply h command in
        match answer with
        | Err error => ((MkClient t [], h'), Ok (Forwarded.Unresolved error))
        | Ok outcome =>
            let r := outcome_result command outcome in
            match result_row command cs r with
            | Err e => ((MkClient t [], h'), Err e)
            | Ok row =>
                if result_row_ok t row then
                  ((MkClient (set_results (<[key command := row]>) t) [], h'), Ok (Forwarded.Decided r))
                else ((MkClient t [], h'), Err (ServerError.Database "constraint violation"))
            end
        end
    end.
Proof using Type*.
  intros Hcs. unfold forward, on_client, ask_host, st_bind, st_ret. rewrite classify_healthy.
  unfold judge. destruct (_ !! _) as [row|] eqn:Hrow; simpl.
  - destruct (read_result _ row) as [r|e]; simpl; [|done]. unfold decide_replay. rewrite Hcs. simpl.
    by destruct (String.eqb _ _).
  - unfold decide_replay. rewrite Hcs. simpl. destruct (host_apply h command) as [h' [o|e]]; [|done].
    unfold record, record_insert, st_bind, st_lift, st_ret. rewrite Hcs. simpl.
    destruct (result_row _ _ _) as [row|e]; simpl; [|done].
    unfold sql, insert_result, result_row_ok. simpl. unfold key in Hrow. rewrite Hrow.
    destruct (result_row_checks row), (result_row_refers t row); simpl; done.
Qed.
End claims.

(** ** A concrete server: a host that applies everything and counts what it was asked *)

#[export] Instance counting_host : Host nat := {
  host_apply n _ := (S n, Ok (HostOutcome.Applied (Seq.mk 1)));
}.
(** A host that never answers. *)
Record Mute := MkMute { asked : nat }.
#[export] Instance mute_host : Host Mute := {
  host_apply m _ := (MkMute (S (asked m)), Err HostError.Timeout);
}.

Lemma counting_honest : host_honest (H:=nat).
Proof. intros h c h' o [= _ <-]. simpl. unfold Seq.wf, SEQ_MIN, SEQ_MAX, i64_max. simpl. lia. Qed.

Definition demo_tables : Tables :=
  MkTables [LogRow.mk "user:a" (ChangeRow.mk 1 "note" "r1" "upsert" (Some (doc 1)) 1 1)] 1 true ∅ ∅ None.
Definition two_requests : World nat :=
  MkWorld demo_tables 0%nat [Classifying (save_note 1); Classifying (save_note 1)].

(** The schedule: both classify, both ask, the first records, the second loses and rereads. *)
Fixpoint follow (schedule : list nat) (w : World nat) : World nat :=
  match schedule with
  | [] => w
  | i :: rest =>
      match sessions w !! i with
      | Some s => let '(t, h, s') := advance Works (shared w) (host w) s in
                  follow rest (MkWorld t h (<[i := s']> (sessions w)))
      | None => w
      end
  end.

Lemma follow_race schedule w : race w (follow schedule w).
Proof.
  revert w. induction schedule as [|i rest IH]; intros w; simpl; [done|].
  destruct (sessions w !! i) as [s|] eqn:Hs; [|done].
  destruct (advance Works (shared w) (host w) s) as [[t h] s'] eqn:Ha.
  eapply rtc_l; [|apply IH]. by eapply race_session.
Qed.

Definition after_race : World nat := follow [0; 1; 0; 1; 0; 1; 1]%nat two_requests.
Definition decided_note : CommandResult.t :=
  CommandResult.mk (id_of 1) Wire.Applied None (Some (Seq.mk 1)).

Lemma race_agreement_witness :
  (∃ s1 s2, sessions after_race = [s1; s2] ∧ verdict s1 = Some (id_of 1, decided_note) ∧
     verdict s2 = Some (id_of 1, decided_note)) ∧
  decided_note = decided_note ∧
  payload_checksum (Command.payload (save_note 1)) = payload_checksum (Command.payload (save_note 1)) ∧
  sync_command_results demo_tables ⊆ sync_command_results (shared after_race).
Proof.
  split.
  - do 2 eexists. split; [vm_compute; reflexivity|by split].
  - set (s := Finished (save_note 1) (Ok (Forwarded.Decided decided_note))).
    apply (race_agreement two_requests after_race s s (id_of 1)).
    + exact counting_honest.
    + repeat constructor; eauto.
    + apply follow_race.
    + apply (list_elem_of_lookup_2 _ 0). vm_compute. reflexivity.
    + apply (list_elem_of_lookup_2 _ 0). vm_compute. reflexivity.
    + reflexivity.
    + reflexivity.
Defined.

Definition first_forward := forward (save_note 1) (MkClient demo_tables [], 0%nat).
Definition checksum_of (n : Z) : HexString.t := payload_checksum_bytes (compact (doc n)).

Lemma race_told : Finished (save_note 1) (Ok (Forwarded.Decided decided_note)) ∈ sessions after_race.
Proof. apply (list_elem_of_lookup_2 _ 0). vm_compute. reflexivity. Qed.

Lemma decided_is_forever_witness :
  (∃ answer, forward (Command.mk (id_of 1) (CommandName.mk "set_grade") scope_b (pay 2) 7 hex0)
      (MkClient (shared after_race) [], host after_race) = ((MkClient (shared after_race) [], host after_race), answer) ∧
     (answer = Ok (Forwarded.Mutated (CommandResult.mk (id_of 1) Wire.Rejected (Some mutated_reason) None)) ∨
      Works ≠ Works ∧ ∃ d, answer = Err (ServerError.Database d))) ∧
  (∃ answer, forward (save_note 1) (MkClient (shared after_race) [Works], host after_race) =
       ((MkClient (shared after_race) [], host after_race), answer) ∧
     (answer = Ok (Forwarded.Replayed decided_note) ∨ Works ≠ Works ∧ ∃ d, answer = Err (ServerError.Database d))).
Proof.
  assert (arriving two_requests) as Ha by (repeat constructor; eauto).
  split.
  - exact (decided_is_forever two_requests after_race after_race _ (save_note 1) decided_note [] 
      (Command.mk (id_of 1) (CommandName.mk "set_grade") scope_b (pay 2) 7 hex0) (checksum_of 1) (checksum_of 2)
      counting_honest Ha (follow_race _ _) race_told eq_refl eq_refl (rtc_refl _ _) eq_refl
      ltac:(vm_compute; reflexivity) ltac:(vm_compute; reflexivity)).
  - exact (decided_is_forever two_requests after_race after_race _ (save_note 1) decided_note [Works] 
      (save_note 1) (checksum_of 1) (checksum_of 1)
      counting_honest Ha (follow_race _ _) race_told eq_refl eq_refl (rtc_refl _ _) eq_refl
      ltac:(vm_compute; reflexivity) ltac:(vm_compute; reflexivity)).
Defined.

Lemma forward_exact_witness :
  forward (save_note 1) (MkClient demo_tables [], 0%nat) =
    (first_forward.1, Ok (Forwarded.Decided decided_note)).
Proof.
  rewrite (forward_exact demo_tables 0%nat (save_note 1) (checksum_of 1)) by (vm_compute; reflexivity).
  vm_compute; reflexivity.
Defined.

(** ** Two behaviours worth recording *)

(** Two requests racing with one id both reach the host. The insert decides whose verdict
    is recorded and both clients are told it, but by then [host.apply] has run twice for one
    command: the database arbitrates the answer, not the application. *)
Theorem race_asks_twice :
  ∃ w, race two_requests w ∧ host w = 2%nat ∧
    verdict <$> sessions w = [Some (id_of 1, decided_note); Some (id_of 1, decided_note)].
Proof. exists after_race. split; [apply follow_race|]. split; vm_compute; reflexivity. Qed.

(** After a host failure the retry asks again. A timeout leaves no row, so a retry that
    arrives when the host can answer puts the same command to it a second time; nothing of
    the first attempt is found. *)
Theorem unresolved_asks_again t m command c' m' e cs :
  payload_checksum (Command.payload command) = Ok cs →
  forward command (MkClient t [], m) = ((c', m'), Ok (Forwarded.Unresolved e)) →
  tables c' = t ∧ asked m' = S (asked m) ∧
  (forward command (c', m')).1.2 = MkMute (S (S (asked m))) ∧
  (forward command (c', m')).2 = Ok (Forwarded.Unresolved HostError.Timeout).
Proof.
  intros Hcs. rewrite (forward_exact t m command cs Hcs).
  destruct (sync_command_results t !! key command) as [row|] eqn:Hrow; simpl.
  - destruct (read_result _ row); simpl; [|done]. by case_match.
  - intros [= <- <- <-]. rewrite (forward_exact t _ command cs Hcs), Hrow. by simpl.
Qed.

Lemma unresolved_asks_again_witness :
  (forward (save_note 1) (MkClient demo_tables [], MkMute 1)).1.2 = MkMute 2.
Proof.
  refine (proj1 (proj2 (proj2 (unresolved_asks_again demo_tables (MkMute 0) (save_note 1)
    (MkClient demo_tables []) (MkMute 1) HostError.Timeout (checksum_of 1) _ _)))).
  - vm_compute; reflexivity.
  - vm_compute; reflexivity.
Defined.
