(* ===== verification/FleetClaims.v ===== *)
(** * FleetClaims: what clients are told is what the host decided, and how an upgrade breaks it. *)

From S2P Require Import Prelude Errors Nums Ids Json Wire Integrity Core Registry Migrate.
From S2P Require Import Outbox Storage SimStorage Apply Engine EngineFacts EngineSteps Place PushFacts Ledger.
From S2P Require Import Server Database Dedupe Race Fleet Exchange Concrete ClientWitnesses DedupeClaims.
From stdpp Require Import options.

Section claims.
Context {C E S T ZC H : Type} `{!Storage S} `{!StorageLaws S} `{!Compressor ZC} `{!Host H} `{Hashes} `{Codec}.

(** C7: What a client is told is what the host decided. Any number of clients author, queue and
    push commands, and are upgraded in between; storage fails and loses acknowledgements;
    pushes arrive any number of times or never, their runs of [forward] interleave and meet any
    faults, their answers reach anyone, again and again, in any order. Each outcome a client
    keeps is of a command it authored, and is what the verdict the host gave on a body sent for
    it, the one the server recorded, reads as; with one exception, that the command was sent
    with two bodies, one of them is on record, and the other was refused. *)
Theorem clients_hear_the_host upgrades (f0 f : Fleet C E S T ZC H) i en id res :
  host_honest (H:=H) → founded f0 → rtc (fleet_step upgrades) f0 f →
  clients f !! i = Some en → (id, res) ∈ v_resolved (durable en) →
  ∃ e c r, (i, e) ∈ authored f ∧ OutboxEntry.id e = id ∧
    c ∈ sent f ∧ Command.id c = id ∧ (c, r) ∈ verdicts f ∧ recorded_as (shared (server f)) c r ∧
    (res = reading r ∨
     ∃ c', c' ∈ sent f ∧ Command.id c' = id ∧
       payload_checksum (Command.payload c) ≠ payload_checksum (Command.payload c') ∧
       res = Resolution.DeadLettered mutated_reason).
Proof using Type*.
  intros Hh Hf Hrun Hi Hres. destruct (fleet_run_ok upgrades f0 f Hh Hf Hrun) as [_ _ _ _ Hcl].
  destruct (Hcl _ _ Hi) as [_ _ Hheard]. destruct (Hheard _ _ Hres) as (e & Hin & Hid & Hcase). exists e.
  destruct Hcase as [(c & r & (? & ? & ? & ?) & ->)|(c & Hc & Hidc & (c' & r' & (? & Hid' & ? & ?) & Hne) & ->)].
  - exists c, r. split_and!; try done. by left.
  - rewrite Hidc in Hid'. exists c', r'. split_and!; try done. right. by exists c.
Qed.

(** C8: A client that keeps its version is never refused its own command. In any such run where
    no client is upgraded, whatever version each of them has, the same or another, no request
    that carries the id of a command the fleet authored is answered as a reuse of the id, however
    often and in whatever order it is sent again. *)
Theorem fleet_never_refused (f0 f : Fleet C E S T ZC H) i e s :
  host_honest (H:=H) → founded f0 → rtc (fleet_step False) f0 f →
  (i, e) ∈ authored f → s ∈ sessions (server f) → key (session_command s) = key (OutboxEntry.command e) →
  turned_away s = false.
Proof using Type*.
  intros Hh Hf Hrun Hin Hs Hk. destruct (fleet_run_ok False f0 f Hh Hf Hrun) as [Hnd _ _ Hss _].
  destruct (founded_versions f0 Hf) as (rg & ms & Hone).
  destruct (fixed_versions_run rg ms f0 f Hh (founded_ok f0 Hf) Hone Hrun) as [_ Hsent].
  destruct (Hss s Hs) as [_ [Hw|Hw] _ _ Hturn]; [|destruct Hw; rewrite Hk; by eapply authored_key].
  destruct (turned_away s) eqn:Ht; [exfalso|done].
  destruct (Hturn eq_refl Hw) as [(c' & r' & (Hc' & Hid & _ & _) & Hne) _]. apply Hne. do 2 f_equal.
  destruct (Hsent _ Hc') as (j' & e' & Hin' & Hs'), (Hsent _ Hw) as (j & e1 & Hin1 & Hs1).
  destruct (authored_one (authored f) _ _ _ _ Hnd Hin' Hin1) as [-> <-]; [|congruence].
  unfold key. f_equal. pose proof (sent_as_id _ _ _ _ Hs'). pose proof (sent_as_id _ _ _ _ Hs1). unfold OutboxEntry.id in *. congruence.
Qed.

(** C9: A client that keeps pushing is answered. From wherever such a run has left it, upgraded
    or not, if no forced upgrade is pending, the JSON writer writes the commands it can send, and
    from then on the host decides what it is asked and the connections are sound, the client has
    every command it can send answered after at most one push more than there are such commands,
    whatever its byte budget: none is left in its queue and each has an outcome. Then only its
    own storage can stop it. (While a forced upgrade is pending [build_push] sends nothing.) *)
Theorem pushes_get_through upgrades host_writes (f0 f : Fleet C E S T ZC H) i en protocol budget en' t' h' r :
  obliging host_writes → founded f0 → rtc (fleet_step upgrades) f0 f → clients f !! i = Some en →
  upgrade_required en = None →
  let can_send v := sendable (registry en) (migrations en) (v_outbox v) in
  (∀ c, c ∈ can_send (durable en) → writable c) →
  push_until host_writes (1 + length (can_send (durable en))) protocol budget en
    (shared (server f)) (host (server f)) = (en', t', h', r) →
  (r = Ok () ∧ can_send (durable en') = [] ∧
   ∀ e c, e ∈ v_outbox (durable en) → sent_as (registry en) (migrations en) e = Some c →
     OutboxEntry.id e ∈ answered_ids (durable en')) ∨
  ∃ se, r = Err (Some (OutboxError.Storage se)).
Proof using Type*.
  intros Hob Hf Hrun Hi Hu can_send Hw Hp. unfold can_send in *. pose proof (obliging_honest host_writes Hob) as Hh.
  destruct (fleet_run_ok upgrades f0 f Hh Hf Hrun) as [Hnd Hsent Hrows _ Hcl]. destruct (Hcl _ _ Hi) as [Hinv Hq _].
  assert (Hse : seated (registry en) (migrations en) (authored f) i en) by done.
  eapply (push_until_ends host_writes _ _ Hob (authored f) Hnd i) in Hp; [|exact Hse|exact Hsent|exact Hrows|lia].
  destruct Hp as [(-> & Hnone & [_ Hpr] & Hsub)|Herr]; [left|by right]. split; [done|]. split; [done|].
  intros e c He Hs. destruct (Hpr (OutboxEntry.id e)) as [Hin|?]; [apply list_elem_of_fmap; by exists e| |done]. exfalso.
  apply list_elem_of_fmap in Hin as (e' & Hid & He').
  destruct (authored_one (authored f) i i e e' Hnd (Hq _ He) (Hq _ (Hsub _ He'))) as [_ <-].
  { unfold key. f_equal. exact Hid. }
  assert (Hc : c ∈ sendable (registry en) (migrations en) (v_outbox (durable en'))) by (apply list_elem_of_omap; by exists e).
  rewrite Hnone in Hc. by apply not_elem_of_nil in Hc.
Qed.
End claims.

Section upgrade.
Context {H : Type} `{!Host H} `{Hashes} `{Codec}.

(** C35: An upgrade turns a decided command into a refused one. The server decides a command and
    its answer is lost; before the retry the app is upgraded, and the queued payload is
    migrated to another one. The retry carries the same id with another body, so it is taken
    for a reuse of the id: it is refused whatever the record says, and the client dead-letters
    a command the host decided, applied ones included. *)
Theorem upgraded_retry_refused rg ms entry c h c' h' r t h2 retry cs cs2 :
  host_honest (H:=H) →
  forward (OutboxEntry.command entry) (c, h) = ((c', h'), Ok (Forwarded.Decided r)) →
  sync_command_results (tables c') ⊆ sync_command_results t →
  sent_as rg ms entry = Some retry →
  payload_checksum (Command.payload (OutboxEntry.command entry)) = Ok cs →
  payload_checksum (Command.payload retry) = Ok cs2 → cs ≠ cs2 →
  let refusal := mutated_result retry in
  forward retry (MkClient t [], h2) = ((MkClient t [], h2), Ok (Forwarded.Mutated refusal)) ∧
  answer_one rg [entry] (MkAnswering [] [] 0 ∅) refusal =
    MkAnswering [ResolveCommand (OutboxEntry.id entry) (Resolution.DeadLettered mutated_reason)]
      [(OutboxEntry.id entry, Resolution.DeadLettered mutated_reason)] 0 {[OutboxEntry.id entry]}.
Proof using Type*.
  intros Hh Hf Hsub Hse Hcs Hcs2 Hne refusal. pose proof (sent_as_id _ _ _ _ Hse) as Hid. split.
  - assert (recorded_as t (OutboxEntry.command entry) r) as (row & cs' & Hrow & Hr & Hcs' & Hc).
    { eapply recorded_as_mono; [exact Hsub|]. by eapply forward_recorded. }
    rewrite Hcs in Hcs'. injection Hcs' as <-. unfold forward, on_client, st_bind. rewrite classify_healthy.
    rewrite (judge_recorded t retry cs r) with (cs := cs2); [by rewrite bool_decide_eq_false_2| |done].
    exists row. unfold key, OutboxEntry.id in *. by rewrite Hid.
  - unfold answer_one, refusal. cbn [CommandResult.id mutated_result find]. rewrite Hid, bool_decide_eq_true_2 by done.
    rewrite bool_decide_eq_false_2 by set_solver. cbn. by rewrite union_empty_r_L.
Qed.
End upgrade.

(** ** A concrete fleet: one client, one command, one retry *)

Abbreviation demo_fleet := (Fleet () () Db.t () SimCompressor.t nat).
Definition day_one : demo_fleet := MkFleet (MkWorld demo_tables 0%nat []) [fresh] [] [] [].

(** Moves, as functions of the fleet. *)
Definition authors (e : OutboxEntry.t) (f : demo_fleet) : demo_fleet :=
  MkFleet (server f) (<[0%nat := (enqueue e (default fresh (clients f !! 0%nat))).1]> (clients f))
    (authored f ++ [(0%nat, e)]) (sent f) (verdicts f).
Definition pushes (f : demo_fleet) : demo_fleet :=
  let '(en, o) := build_push (ProtocolVersion.mk 1) 100000 (default fresh (clients f !! 0%nat)) in
  MkFleet (server f) (<[0%nat := en]> (clients f)) (authored f)
    (sent f ++ match o with Ok (Some req) => PushRequest.commands req | _ => [] end) (verdicts f).
Definition moves (i : nat) (f : demo_fleet) : demo_fleet :=
  match sessions (server f) !! i with
  | Some s =>
      let '(t, h, s') := advance Works (shared (server f)) (host (server f)) s in
      MkFleet (MkWorld t h (<[i := s']> (sessions (server f)))) (clients f) (authored f) (sent f)
        (verdicts f ++ new_verdict s s')
  | None => f
  end.

Lemma moves_step i f : rtc (fleet_step False) f (moves i f).
Proof.
  unfold moves. destruct (sessions (server f) !! i) as [s|] eqn:Hs; [|done].
  destruct (advance _ _ _ s) as [[t h] s'] eqn:Ha. eapply rtc_once, fleet_forward; [exact Hs|exact Ha].
Qed.
Lemma pushes_step f en : clients f !! 0%nat = Some en → rtc (fleet_step False) f (pushes f).
Proof.
  intros Hen. unfold pushes. rewrite Hen. simpl. destruct (build_push _ _ _) as [en' o] eqn:Hb.
  eapply rtc_once, fleet_push; [exact Hen|exact Hb].
Qed.

Lemma answers_step upgrades (f : demo_fleet) en response :
  clients f !! 0%nat = Some en →
  (∀ r, r ∈ PushResponse.results response → ∃ s, s ∈ sessions (server f) ∧ told s = Some r) →
  fleet_step upgrades f (with_client 0 (apply_results response en).1 f).
Proof. intros Hen Hr. eapply fleet_answer; [exact Hen|exact Hr|apply surjective_pairing]. Qed.

(** Queued, pushed, arrived twice; the first arrival is decided, the second finds the record. *)
Definition pushed_day : demo_fleet := pushes (authors (queued 1) day_one).
Definition arrived_day : demo_fleet := with_request (save_note 1) (with_request (save_note 1) pushed_day).
Definition decided_day : demo_fleet := moves 1 (moves 0 (moves 0 (moves 0 arrived_day))).
Definition told_twice : PushResponse.t := PushResponse.mk (ProtocolVersion.mk 1) [decided_note; decided_note].
Definition answered_day : demo_fleet :=
  with_client 0 (apply_results told_twice (default fresh (clients decided_day !! 0%nat))).1 decided_day.

Lemma day_one_founded : founded day_one.
Proof.
  split; try done. intros i en Hi. apply list_lookup_singleton_Some in Hi as [_ <-]. by split_and!; [apply fresh_inv|..].
Qed.
Lemma decided_reached : rtc (fleet_step False) day_one decided_day.
Proof.
  unfold decided_day. do 4 (etrans; [|apply moves_step]). etrans; [apply rtc_once|].
  { eapply fleet_author with (i := 0%nat) (e := queued 1) (en := fresh); [reflexivity| |apply surjective_pairing].
    split_and!; [by apply not_elem_of_nil|vm_compute; reflexivity|]. by intros s ?%not_elem_of_nil. }
  etrans; [eapply (pushes_step (authors (queued 1) day_one)); vm_compute; reflexivity|]. fold pushed_day.
  assert (save_note 1 ∈ sent pushed_day) as Hin.
  { apply (list_elem_of_lookup_2 _ 0). vm_compute. reflexivity. }
  eapply rtc_l; [by eapply fleet_arrive|]. eapply rtc_once. by apply fleet_arrive.
Qed.

Lemma told_decided r : r ∈ PushResponse.results told_twice → ∃ s, s ∈ sessions (server decided_day) ∧ told s = Some r.
Proof.
  intros Hr. exists (Finished (save_note 1) (Ok (Forwarded.Decided decided_note))). split.
  - apply (list_elem_of_lookup_2 _ 0). vm_compute. reflexivity.
  - by apply list_elem_of_In in Hr as [<-|[<-|[]]].
Qed.

Lemma answered_reached : rtc (fleet_step False) day_one answered_day.
Proof.
  etrans; [exact decided_reached|]. apply rtc_once. destruct (clients decided_day !! 0%nat) as [en|] eqn:Hen; [|by vm_compute in Hen].
  unfold answered_day. rewrite Hen. simpl default. apply answers_step; [exact Hen|exact told_decided].
Qed.

Lemma clients_hear_the_host_witness :
  v_resolved (durable (default fresh (clients answered_day !! 0%nat))) = [(id_of 1, Resolution.Applied (Some (Seq.mk 1)))] ∧
  ∃ e c r, (0%nat, e) ∈ authored answered_day ∧ OutboxEntry.id e = id_of 1 ∧
    c ∈ sent answered_day ∧ Command.id c = id_of 1 ∧ (c, r) ∈ verdicts answered_day ∧
    recorded_as (shared (server answered_day)) c r ∧
    (Resolution.Applied (Some (Seq.mk 1)) = reading r ∨
     ∃ c', c' ∈ sent answered_day ∧ Command.id c' = id_of 1 ∧
       payload_checksum (Command.payload c) ≠ payload_checksum (Command.payload c') ∧
       Resolution.Applied (Some (Seq.mk 1)) = Resolution.DeadLettered mutated_reason).
Proof.
  split; [vm_compute; reflexivity|]. destruct (clients answered_day !! 0%nat) as [en|] eqn:Hen; [|by vm_compute in Hen].
  assert (v_resolved (durable en) = [(id_of 1, Resolution.Applied (Some (Seq.mk 1)))]) as Hv.
  { vm_compute in Hen. injection Hen as <-. vm_compute; reflexivity. }
  apply (clients_hear_the_host False day_one answered_day 0%nat en (id_of 1)).
  - exact counting_honest.
  - exact day_one_founded.
  - exact answered_reached.
  - exact Hen.
  - rewrite Hv. by left.
Defined.

Lemma fleet_never_refused_witness :
  sessions (server answered_day) = [Finished (save_note 1) (Ok (Forwarded.Decided decided_note));
    Finished (save_note 1) (Ok (Forwarded.Replayed decided_note))] ∧
  turned_away (Finished (save_note 1) (Ok (Forwarded.Replayed decided_note))) = false.
Proof.
  split; [vm_compute; reflexivity|].
  apply (fleet_never_refused day_one answered_day 0%nat (queued 1)).
  - exact counting_honest.
  - exact day_one_founded.
  - exact answered_reached.
  - apply (list_elem_of_lookup_2 _ 0). vm_compute. reflexivity.
  - apply (list_elem_of_lookup_2 _ 1). vm_compute. reflexivity.
  - reflexivity.
Defined.

(** The app reads schema 2 of its notes, which have another shape. *)
Definition upgraded_registry : Registry :=
  register_command (CommandName.mk "save_note") note
    (register_entity (EntityRegistration.mk note scope_a OwnerDraft v2) Registry_new).
Definition upgraded_migrations : Migrations :=
  register Migrations_new note v1 (λ v, Ok (VObject [("note", v)])).
Definition retried_note : Command.t := default (save_note 1) (sent_as upgraded_registry upgraded_migrations (queued 1)).

Lemma upgraded_retry_refused_witness :
  (forward (save_note 1) (MkClient demo_tables [], 0%nat)).2 = Ok (Forwarded.Decided decided_note) ∧
  CommandResult.status decided_note = Wire.Applied ∧
  forward retried_note (MkClient (tables first_forward.1.1) [], 1%nat) =
    ((MkClient (tables first_forward.1.1) [], 1%nat), Ok (Forwarded.Mutated (mutated_result retried_note))).
Proof.
  split; [vm_compute; reflexivity|]. split; [reflexivity|].
  assert (first_forward = ((first_forward.1.1, first_forward.1.2), Ok (Forwarded.Decided decided_note)))
    as Hf by (vm_compute; reflexivity).
  eapply (upgraded_retry_refused upgraded_registry upgraded_migrations (queued 1) _ _ _ _ decided_note).
  - exact counting_honest.
  - exact Hf.
  - done.
  - vm_compute; reflexivity.
  - vm_compute; reflexivity.
  - vm_compute; reflexivity.
  - vm_compute. discriminate.
Defined.

(** The host's transaction puts its change in the log. *)
Definition logs_change (h : nat) (c : Command.t) (t : Tables) : Tables :=
  set_changes (λ l, l ++ [LogRow.mk "user:a" (log_row 1 "r1" "upsert")]) t.

Lemma counting_obliging : obliging logs_change.
Proof.
  split.
  - intros h c. do 2 eexists. split; [done|]. simpl. unfold Seq.wf, SEQ_MIN, SEQ_MAX, i64_max. simpl. lia.
  - done.
  - intros h c h' z t [= _ <-]. eexists. split; [apply elem_of_app; right; by left|done].
Qed.

(** Two commands queued, and requests of one command each. *)
Definition busy_day : demo_fleet := authors (queued 2) (authors (queued 1) day_one).
Definition busy_client : demo_engine := default fresh (clients busy_day !! 0%nat).
Definition pushed_out := push_until logs_change 3 (ProtocolVersion.mk 1) 1 busy_client demo_tables 0%nat.

Lemma authors_step e f en :
  clients f !! 0%nat = Some en → unused f (key (OutboxEntry.command e)) → rtc (fleet_step False) f (authors e f).
Proof.
  intros Hen Hu. unfold authors. rewrite Hen. simpl default. eapply rtc_once, fleet_author; [exact Hen|exact Hu|apply surjective_pairing].
Qed.

Lemma busy_reached : rtc (fleet_step False) day_one busy_day.
Proof.
  etrans; eapply authors_step; [vm_compute; reflexivity| |vm_compute; reflexivity|].
  - split_and!; [by apply not_elem_of_nil|vm_compute; reflexivity|]. by intros s ?%not_elem_of_nil.
  - split_and!; [apply (bool_decide_unpack _); vm_compute; exact I|vm_compute; reflexivity|]. by intros s ?%not_elem_of_nil.
Qed.

Lemma pushes_get_through_witness :
  sendable demo_registry Migrations_new (v_outbox (durable busy_client)) = [save_note 1; save_note 2] ∧
  pushed_out.1.2 = 2%nat ∧ pushed_out.2 = Ok () ∧
  ∀ e c, e ∈ v_outbox (durable busy_client) → sent_as demo_registry Migrations_new e = Some c →
    OutboxEntry.id e ∈ answered_ids (durable pushed_out.1.1.1).
Proof.
  assert (Hq : sendable demo_registry Migrations_new (v_outbox (durable busy_client)) = [save_note 1; save_note 2])
    by (vm_compute; reflexivity).
  assert (Hr : pushed_out.2 = Ok ()) by (vm_compute; reflexivity).
  split; [exact Hq|]. split; [vm_compute; reflexivity|]. split; [exact Hr|].
  destruct (pushes_get_through False logs_change day_one busy_day 0%nat busy_client
    (ProtocolVersion.mk 1) 1 pushed_out.1.1.1 pushed_out.1.1.2 pushed_out.1.2 (Ok ())) as [(_ & _ & Hall)|(se & Hse)].
  - exact counting_obliging.
  - exact day_one_founded.
  - exact busy_reached.
  - unfold busy_client. destruct (clients busy_day !! 0%nat) as [en|] eqn:Hen; [done|by vm_compute in Hen].
  - vm_compute. reflexivity.
  - change (registry busy_client) with demo_registry. change (migrations busy_client) with Migrations_new.
    rewrite Hq. intros c Hc. apply list_elem_of_In in Hc as [<-|[<-|[]]]; split; eexists; vm_compute; reflexivity.
  - change (registry busy_client) with demo_registry. change (migrations busy_client) with Migrations_new.
    rewrite Hq, <- Hr. repeat rewrite <- surjective_pairing. reflexivity.
  - exact Hall.
  - discriminate Hse.
Defined.

(** ** The exception happens *)

Definition upgraded (en : demo_engine) : demo_engine :=
  set_migrations (λ _, upgraded_migrations) (set_registry (λ _, upgraded_registry) en).
Definition client_of (f : demo_fleet) : demo_engine := default fresh (clients f !! 0%nat).

(** Decided, the answers lost; then an upgrade, and a retry, whose answer arrives. *)
Definition upgraded_day : demo_fleet := with_client 0 (upgraded (client_of decided_day)) decided_day.
Definition retried_day : demo_fleet := moves 2 (with_request retried_note (pushes upgraded_day)).
Definition refused_day : demo_fleet :=
  with_client 0 (apply_results (PushResponse.mk (ProtocolVersion.mk 1) [mutated_result retried_note]) (client_of retried_day)).1
    retried_day.

Lemma fleet_step_allows (f f' : demo_fleet) : fleet_step False f f' → fleet_step True f f'.
Proof. intros Hs. destruct Hs as [????????|????????|??|??|????????|??|???????|????[]|????]; econstructor; eassumption. Qed.

Lemma decided_client : clients decided_day !! 0%nat = Some (client_of decided_day).
Proof. unfold client_of. destruct (clients decided_day !! 0%nat) eqn:Hen; [done|by vm_compute in Hen]. Qed.

Lemma upgraded_coherent : coherent (upgraded (client_of decided_day)).
Proof.
  destruct (fleet_run_ok False day_one decided_day counting_honest day_one_founded decided_reached) as [_ _ _ _ Hcl].
  by destruct (Hcl _ _ decided_client) as [Hc _ _].
Qed.

Lemma retried_client : clients retried_day !! 0%nat = Some (client_of retried_day).
Proof. unfold client_of. destruct (clients retried_day !! 0%nat) eqn:Hen; [done|by vm_compute in Hen]. Qed.

Lemma retried_reached : rtc (fleet_step True) day_one retried_day.
Proof.
  assert (Hup : ∀ f f' : demo_fleet, rtc (fleet_step False) f f' → rtc (fleet_step True) f f').
  { intros f f' Hr. eapply rtc_subrel; [exact fleet_step_allows|exact Hr]. }
  unfold retried_day. transitivity (with_request retried_note (pushes upgraded_day)); [|apply Hup, moves_step].
  transitivity (pushes upgraded_day).
  2: { apply rtc_once, fleet_arrive. apply (list_elem_of_lookup_2 _ 1). vm_compute. reflexivity. }
  transitivity upgraded_day; [|apply Hup; eapply (pushes_step upgraded_day); vm_compute; reflexivity].
  transitivity decided_day; [apply Hup, decided_reached|]. apply rtc_once.
  exact (fleet_upgrade True decided_day 0%nat _ _ I decided_client upgraded_coherent eq_refl).
Qed.

Lemma retried_tells r : r ∈ [mutated_result retried_note] → ∃ s, s ∈ sessions (server retried_day) ∧ told s = Some r.
Proof.
  intros ->%list_elem_of_singleton. exists (Finished retried_note (Ok (Forwarded.Mutated (mutated_result retried_note)))).
  split; [|reflexivity]. apply (list_elem_of_lookup_2 _ 2). vm_compute. reflexivity.
Qed.

(** A run with one upgrade in it, at the end of which the server holds the command as applied
    and the client as dead. *)
Theorem upgrade_dead_letters :
  rtc (fleet_step True) day_one refused_day ∧
  v_resolved (durable (client_of refused_day)) = [(id_of 1, Resolution.DeadLettered mutated_reason)] ∧
  recorded_as (shared (server refused_day)) (save_note 1) decided_note ∧
  CommandResult.status decided_note = Wire.Applied.
Proof.
  split; [|split; [vm_compute; reflexivity|split; [|reflexivity]]].
  - transitivity retried_day; [exact retried_reached|]. apply rtc_once. unfold refused_day.
    apply answers_step; [exact retried_client|exact retried_tells].
  - eexists _, _. split_and!; vm_compute; reflexivity.
Qed.
