(* ===== verification/Sync.v ===== *)
(** * Sync: a device and an honest server, joined.

    The server's log of one scope is served by [Replica.serve] and [Replica.serve_bootstrap]
    and applied by the engine. A world is the tables, the watermark the server answers under,
    and the device. What a device holds is related to the log through a [replica]. *)

From S2P Require Import Prelude Errors Nums Ids Json Wire Integrity Core Registry Migrate.
From S2P Require Import Outbox Storage Apply Engine EngineFacts EngineSteps Place.
From S2P Require Import Server Database Log Replica.
From stdpp Require Import options.

(** ** Rows of the log and rows of the device *)

(** The device holds, for each row of the replica, its version. *)
Definition version_of (r : ChangeRow.t) : RowVersion.t := RowVersion.mk (ChangeRow.row_version r).
Definition mirrors (m : replica) (held : LiveRows) : Prop :=
  ∀ e i, held !! (e, i) = version_of <$> m !! (EntityName.as_str e, EntityId.as_str i).

Definition decodes `{Codec} (r : ChangeRow.t) (c : Change.t) : Prop := ChangeRow.into_change r = Ok c.

Section decoding.
Context `{Codec}.

Lemma decodes_fields r c :
  decodes r c →
  row_key r = (EntityName.as_str (Change.entity c), EntityId.as_str (Change.entity_id c)) ∧
  Change.row_version c = version_of r ∧
  Change.op c = (if String.eqb (ChangeRow.op r) "delete" then Delete else Upsert) ∧ change_wf c.
Proof.
  unfold decodes, ChangeRow.into_change, EntityName.new, EntityId.new. intros Hc. res_simpl.
  repeat match goal with
  | H : bounded_string_new _ _ _ _ _ _ = Ok _ |- _ => apply bounded_string_new_ok in H as [-> _]
  | H : RowVersion.new _ = Ok _ |- _ => apply RowVersion_new_ok in H as [-> _]
  | H : ChangeRow.to_u64 _ _ = Ok _ |- _ => unfold ChangeRow.to_u64 in H; destruct (_ <? _); simplify_eq
  end.
  unfold change_wf, version_of. simpl.
  match goal with H : (if String.eqb _ "upsert" then _ else _) = Ok _ |- _ => rename H into Hop end.
  destruct (String.eqb_spec (ChangeRow.op r) "upsert") as [E|]; simplify_eq.
  - rewrite E in *. destruct (ChangeRow.snapshot r); res_simpl. split_and!; naive_solver.
  - destruct (String.eqb_spec (ChangeRow.op r) "delete") as [E|]; simplify_eq.
    rewrite E in *. destruct (ChangeRow.snapshot r); res_simpl. split_and!; try done.
Qed.

Lemma decodes_sorted rows cs :
  Forall2 decodes rows cs → StronglySorted row_seq_lt rows → StronglySorted seq_lt cs.
Proof.
  induction 1 as [|r c rows cs Hc Hcs IH]; intros Hs; [constructor|].
  apply StronglySorted_inv in Hs as [Hs Hr]. constructor; [by apply IH|].
  apply into_change_seq in Hc as [Hc _]. rewrite Forall_forall in Hr. apply Forall_forall. intros c' Hc'.
  apply list_elem_of_lookup_1 in Hc' as [i Hi]. eapply Forall2_lookup_r in Hcs as (r' & Hr' & Hd); [|exact Hi].
  apply into_change_seq in Hd as [Hd _]. apply list_elem_of_lookup_2 in Hr'.
  specialize (Hr r' Hr'). unfold row_seq_lt, seq_lt in *. lia.
Qed.

Lemma decodes_each rows cs (P : Z → Prop) :
  Forall2 decodes rows cs → (∀ r, r ∈ rows → P (ChangeRow.seq r)) →
  Forall (λ c, P (Seq.get (Change.seq c))) cs.
Proof.
  induction 1 as [|r c rows cs Hc _ IH]; intros HP; [constructor|]. constructor.
  - apply into_change_seq in Hc as [-> _]. apply HP. left.
  - apply IH. intros r' Hr'. apply HP. by right.
Qed.

Lemma decodes_wf rows cs : Forall2 decodes rows cs → Forall change_wf cs.
Proof. induction 1 as [|r c rows cs Hc _ IH]; constructor; [by apply decodes_fields in Hc as (_ & _ & _ & ?)|done]. Qed.

(** Applying a decoded change to the device is applying its row to the replica. *)
Lemma mirrors_step m held r c :
  mirrors m held → decodes r c → mirrors (apply_row m r) (row_effect held c).
Proof.
  intros Hm (Hk & Hv & Hop & _)%decodes_fields e i. rewrite apply_row_lookup. unfold row_effect, live.
  assert (Hkey : row_key r = (EntityName.as_str e, EntityId.as_str i) ↔
      (e, i) = (Change.entity c, Change.entity_id c)).
  { rewrite Hk. split; [|by intros [= <- <-]].
    destruct e, i, (Change.entity c), (Change.entity_id c). simpl. congruence. }
  rewrite Hop, Hv. destruct (decide ((e, i) = (Change.entity c, Change.entity_id c))) as [E|E].
  - rewrite decide_True by (by apply Hkey). rewrite E.
    destruct (String.eqb _ _); [apply lookup_delete_eq|apply lookup_insert_eq].
  - rewrite decide_False by (by rewrite Hkey). rewrite <- Hm.
    destruct (String.eqb _ _); [apply lookup_delete_ne|apply lookup_insert_ne]; congruence.
Qed.

Lemma mirrors_run rows cs m held :
  Forall2 decodes rows cs → mirrors m held → mirrors (replay rows m) (rows_effect cs held).
Proof.
  intros Hcs. revert m held. induction Hcs as [|r c rows cs Hc _ IH]; intros m held Hm; [done|].
  cbn [replay rows_effect fold_left]. apply IH. by apply mirrors_step.
Qed.

Lemma mirrors_eq m held held' : mirrors m held → mirrors m held' → held = held'.
Proof. intros H1 H2. apply map_eq. intros [e i]. by rewrite H1, H2. Qed.

Lemma mirrors_empty : mirrors ∅ ∅.
Proof. intros e i. rewrite lookup_empty. symmetry. apply fmap_None, lookup_empty. Qed.
End decoding.

(** ** Worlds *)

Section sync.
Context {C E S T ZC ZS : Type} `{!Storage S} `{!StorageLaws S} `{!Compressor ZC} `{!Compressor ZS}.
Context `{Hashes} `{Codec} `{!CodecArrays}.
Context (scope : ScopeId.t) (reg : Registry) (ms : Migrations).
Abbreviation engine := (Engine C E S T ZC).

Record World : Type := MkWorld { server : Tables; horizon : Z; device : engine }.
Implicit Types (wd : World) (en : engine).

Definition scope_log (t : Tables) : list ChangeRow.t := log_of t (ScopeId.as_str scope).

(** A log the app understands: every row of it decodes and encodes, belongs to an entity the app
    files under the scope, and is of a schema the app can read. It is a condition on the server's
    data and the app's version together: a row the app cannot read is quarantined, its scope then
    diverges in spite of an honest server ([quarantined_row_diverges]), and nothing below holds. *)
Definition log_understood (log : list ChangeRow.t) : Prop :=
  log_sound log ∧
  Forall (λ r, ∀ c, decodes r c → Change.entity c ∈ scope_entities reg scope ∧
                    is_ok (migrated_change reg ms c) = true) log.

(** The rows the log says a scope holds under a watermark, and the digest of them. *)
Definition server_rows (log : list ChangeRow.t) (w : Z) : result LiveRows ServerError.t :=
  let? cs := res_mapM ChangeRow.into_change (window log 0 w) in Ok (rows_effect cs ∅).
Definition honest wd (digest : HexString.t) : Prop :=
  ∃ rows, server_rows (scope_log (server wd)) (horizon wd) = Ok rows ∧
    digest = ScopeDigest.to_hex (map_digest rows).

(** What the server may answer the device's next request with: any page ceiling, any byte
    budget, any compressor. *)
Definition answers_pull wd (b : Batch.t) : Prop :=
  ∃ limit budget (compressor : ZS) digest, 1 ≤ limit ∧ honest wd digest ∧
    serve (server wd) scope (cursor_of (device wd) scope) limit (horizon wd) budget compressor digest = Ok b.
Definition answers_bootstrap wd (p : BootstrapResponse.t) : Prop :=
  ∃ protocol limit budget (compressor : ZS) digest, 1 ≤ limit ∧ honest wd digest ∧
    serve_bootstrap protocol (server wd) scope (cursor_of (device wd) scope) limit (horizon wd)
      budget compressor digest = Ok p.

(** What goes on while an answer is on its way: the server commits above its watermark and
    raises it; the device does anything that leaves the scope alone. *)
Inductive drift_step : World → World → Prop :=
| drift_commit t w en t' w' :
    w ≤ w' ≤ i64_max → log_understood (scope_log t') →
    (∀ r, ChangeRow.seq r ≤ w → (r ∈ scope_log t ↔ r ∈ scope_log t')) →
    drift_step (MkWorld t w en) (MkWorld t' w' en)
| drift_side wd en' :
    side_step scope (device wd) en' → drift_step wd (MkWorld (server wd) (horizon wd) en').
Definition drifts : World → World → Prop := rtc drift_step.

(** An answer was made for the device at [wd0] and reaches it at [wd]. *)
Definition pulled wd0 wd (b : Batch.t) : Prop :=
  needs_reload scope (device wd0) = false ∧ answers_pull wd0 b ∧ drifts wd0 wd.
Definition bootstrapped wd0 wd (p : BootstrapResponse.t) : Prop :=
  needs_reload scope (device wd0) = false ∧ answers_bootstrap wd0 p ∧ drifts wd0 wd.

(** Besides, the device asks and, some time later, has the answer applied, whatever the storage
    does with it; or it rebuilds the scope. An answer that is lost is no step. *)
Inductive sync_step : World → World → Prop :=
| sync_drift wd wd' : drift_step wd wd' → sync_step wd wd'
| sync_pull wd0 wd b en' r :
    pulled wd0 wd b → apply_batch b (device wd) = (en', r) →
    sync_step wd0 (MkWorld (server wd) (horizon wd) en')
| sync_bootstrap wd0 wd p en' r :
    bootstrapped wd0 wd p → apply_bootstrap p (device wd) = (en', r) →
    sync_step wd0 (MkWorld (server wd) (horizon wd) en')
| sync_rebuild wd en' r :
    begin_rebootstrap scope (device wd) = (en', r) → sync_step wd (MkWorld (server wd) (horizon wd) en').

(** A device that has nothing of the scope yet. *)
Definition begins wd : Prop :=
  client_inv (device wd) ∧ registry (device wd) = reg ∧ migrations (device wd) = ms ∧
  v_cursors (durable (device wd)) !! scope = None ∧ health (device wd) !! scope = None ∧
  log_understood (scope_log (server wd)) ∧ 0 ≤ horizon wd ≤ i64_max.

(** A device just after it cleared the scope, whatever rows, digest and position it had there
    before and however little it trusted them; [h] is that trust. *)
Definition rebuilding (h : ScopeHealth) wd : Prop :=
  ∃ en, sound_elsewhere scope en ∧ registry en = reg ∧ migrations en = ms ∧ scope_health scope en = h ∧
    begin_rebootstrap scope en = (device wd, Ok ()) ∧
    log_understood (scope_log (server wd)) ∧ 0 ≤ horizon wd ≤ i64_max.

(** Where a run may start: with the trust the device then has in the scope. *)
Definition starts (h : ScopeHealth) wd : Prop := begins wd ∧ h = Healthy ∨ rebuilding h wd.

(** ** The invariant *)

Definition in_sync (h : ScopeHealth) wd : Prop :=
  client_inv (device wd) ∧ registry (device wd) = reg ∧ migrations (device wd) = ms ∧
  log_understood (scope_log (server wd)) ∧ 0 ≤ horizon wd ≤ i64_max ∧
  scope_health scope (device wd) = h ∧
  ∃ m, joined (scope_log (server wd)) (horizon wd)
         (Cursor.get (stored_cursor (durable (device wd)) scope)) m ∧
       mirrors m (held_rows (device wd) scope).

Lemma log_understood_seqs log : log_understood log → distinct_seqs log ∧ Forall (λ r, 1 ≤ ChangeRow.seq r) log.
Proof using Type*.
  intros [Hs _]. split; [by destruct Hs|]. apply Forall_forall. intros r Hr. by eapply log_sound_seq.
Qed.

Lemma joined_start log w : log_understood log → 0 ≤ w → joined log w 0 ∅.
Proof using Type*.
  intros [Hd Hp]%log_understood_seqs Hw. by eapply follows_joined, follows_start.
Qed.

Lemma begins_in_sync wd : begins wd → in_sync Healthy wd.
Proof using Type*.
  intros (Hinv & Hr & Hm & Hc & Hh & Hlog & Hw). split_and!; try done; try lia.
  { unfold scope_health. by rewrite Hh. }
  exists ∅. unfold stored_cursor. rewrite Hc. split; [apply joined_start; [done|lia]|].
  destruct Hinv as (_ & Hd & _). specialize (Hd scope). unfold scope_ok in Hd. cbv zeta in Hd. rewrite Hc in Hd.
  unfold held_rows, held. rewrite Hd. apply mirrors_empty.
Qed.

Lemma rebuilding_in_sync h wd : rebuilding h wd → in_sync h wd.
Proof using Type*.
  intros (en & Hs & Hr & Hm & Hh & Hb & Hlog & Hw). pose proof (begin_rebootstrap_restores _ _ _ Hs Hb) as Hinv.
  apply begin_rebootstrap_place in Hb as [_ [[_ ?]|[Hr' Hm' Hrows Hcur Hh']]]; [done| |by destruct Hs as (_ & _ & ?)].
  unfold in_sync. split_and!; try done; try congruence; try lia. exists ∅. rewrite Hcur, Hrows.
  split; [apply joined_start; [done|lia]|apply mirrors_empty].
Qed.

Lemma starts_in_sync h wd : starts h wd → in_sync h wd.
Proof using Type*. intros [[Hb ->]|Hb]; [by apply begins_in_sync|by apply rebuilding_in_sync]. Qed.

Lemma in_sync_same_place h wd en' :
  in_sync h wd → client_inv en' → same_place scope (device wd) en' →
  in_sync h (MkWorld (server wd) (horizon wd) en').
Proof using Type*.
  intros (_ & Hr & Hm & Hlog & Hw & Hh & m & Hj & Hmir) Hinv [Srg Smg Srows Scur Shealth].
  split_and!; try done; simpl; try congruence; try lia. exists m. by rewrite Srows, Scur.
Qed.

(** While an answer is on its way the device stays where it asked, and the log changes only
    above the watermark the answer was made under. *)
Lemma drift_in_sync h wd0 wd :
  drifts wd0 wd → in_sync h wd0 →
  in_sync h wd ∧ same_place scope (device wd0) (device wd) ∧ horizon wd0 ≤ horizon wd ∧
  (∀ r, ChangeRow.seq r ≤ horizon wd0 → (r ∈ scope_log (server wd0) ↔ r ∈ scope_log (server wd))).
Proof using Type*.
  induction 1 as [wd|wd0 wd1 wd Hstep _ IH]; intros Hin; [by split_and!|].
  assert (Hone : in_sync h wd1 ∧ same_place scope (device wd0) (device wd1) ∧ horizon wd0 ≤ horizon wd1 ∧
    (∀ r, ChangeRow.seq r ≤ horizon wd0 → (r ∈ scope_log (server wd0) ↔ r ∈ scope_log (server wd1)))).
  { destruct Hstep as [t w en t' w' Hw Hlog Hsame|wd0 en' Hside]; cbn [device server horizon] in *.
    - split; [|split_and!; [done|lia|done]].
      destruct Hin as (Hinv & Hr & Hm & _ & ? & Hh & m & Hj & Hmir). unfold in_sync.
      cbn [device server horizon] in *. split_and!; try done; try lia. exists m. split; [|done]. eapply joined_grow; [exact Hj|lia|exact Hsame].
    - pose proof Hin as (Hinv & _). apply side_step_place in Hside as [Hinv' Hsame]; [|done].
      split; [by apply in_sync_same_place|]. by split_and!. }
  destruct Hone as (Hin1 & Hs1 & Hw1 & Hl1). destruct (IH Hin1) as (Hin' & Hs' & Hw' & Hl').
  split_and!; [done|by etrans|lia|]. intros r Hr. rewrite Hl1 by done. apply Hl'. lia.
Qed.

(** ** Answers *)

(** What a final page does to the trust in the scope. *)
Definition heal (h : ScopeHealth) : ScopeHealth :=
  match h with Tainted n => Healed n | _ => h end.
Definition heals (h h' : ScopeHealth) : Prop := h' = h ∨ h' = heal h.

#[export] Instance heals_preorder : PreOrder heals.
Proof. split; [by left|]. intros h1 h2 h3 [-> | ->] [-> | ->]; unfold heals; auto. right. by destruct h1. Qed.

(** What both kinds of answer are: a page of the rows after the device's cursor. *)
Definition page_answer wd (b : Batch.t) : Prop :=
  let log := scope_log (server wd) in
  let c := Cursor.get (stored_cursor (durable (device wd)) scope) in
  ∃ W rows rest, (W = window log c (horizon wd) ∨ W = compacted log c (horizon wd)) ∧ W = rows ++ rest ∧
    Forall2 decodes rows (Batch.changes b) ∧ Batch.scope b = scope ∧ honest wd (Batch.digest b) ∧
    Batch.next_cursor b = Cursor.mk (next_of rows c) ∧ (if Batch.has_more b then rows ≠ [] else rest = []).

(** A bootstrap response as the batch the engine applies. *)
Definition batch_of_response (p : BootstrapResponse.t) : Batch.t :=
  Batch.mk (BootstrapResponse.scope p) (BootstrapResponse.changes p) (BootstrapResponse.next_cursor p)
    (BootstrapResponse.has_more p) (BootstrapResponse.checksum p) (BootstrapResponse.digest p).

Lemma in_sync_cursor h wd :
  in_sync h wd → needs_reload scope (device wd) = false →
  cursor_of (device wd) scope = stored_cursor (durable (device wd)) scope ∧
  Cursor.get (stored_cursor (durable (device wd)) scope) ≤ i64_max.
Proof using Type*.
  intros ((Hc & _) & _ & _ & _ & Hw & _ & m & (_ & _ & _ & Hle) & _) Hs%bool_decide_eq_false.
  split; [by apply trusted_cursor|lia].
Qed.

Lemma pull_page h wd b :
  in_sync h wd → needs_reload scope (device wd) = false → answers_pull wd b → page_answer wd b.
Proof using Type*.
  intros Hin Hs (limit & budget & zs & digest & Hlim & Hhon & Hb).
  destruct (in_sync_cursor _ _ Hin Hs) as [Hcur Hle]. rewrite Hcur in Hb.
  destruct Hin as (_ & _ & _ & [Hlog _] & _).
  destruct (serve_ok (server wd) scope _ limit (horizon wd) budget zs digest Hlog Hlim Hle)
    as (b' & rows & rest & Hb' & HW & Hd & Hsc & Hdg & Hn & Hm).
  rewrite Hb in Hb'. injection Hb' as <-. exists (rows ++ rest), rows, rest.
  rewrite Hdg. split_and!; try done. by left.
Qed.

Lemma bootstrap_page h wd p :
  in_sync h wd → needs_reload scope (device wd) = false → answers_bootstrap wd p →
  page_answer wd (batch_of_response p).
Proof using Type*.
  intros Hin Hs (protocol & limit & budget & zs & digest & Hlim & Hhon & Hb).
  destruct (in_sync_cursor _ _ Hin Hs) as [Hcur Hle]. rewrite Hcur in Hb.
  destruct Hin as (_ & _ & _ & [Hlog _] & _).
  destruct (serve_bootstrap_ok protocol (server wd) scope _ limit (horizon wd) budget zs digest Hlog Hlim Hle)
    as (b' & rows & rest & Hb' & HW & Hd & Hsc & Hdg & Hn & Hm).
  rewrite Hb in Hb'. injection Hb' as ->. exists (rows ++ rest), rows, rest.
  unfold batch_of_response. cbn. rewrite Hdg. split_and!; try done. by right.
Qed.

(** Pages of either kind keep the replica joined, and the last one brings it to the head. *)
Lemma page_joined log w c m W rows rest :
  log_understood log → joined log w c m → W = window log c w ∨ W = compacted log c w → W = rows ++ rest →
  joined log w (next_of rows c) (replay rows m) ∧
  (rest = [] → replay rows m = replay (window log 0 w) ∅) ∧ (∀ r, r ∈ rows → r ∈ log).
Proof using Type*.
  intros [Hd Hp]%log_understood_seqs Hj HW Hsplit.
  assert (Hrows : rows = take (length rows) W) by (by rewrite Hsplit, take_app_length).
  assert (Hall : rest = [] → rows = W) by (intros ->; by rewrite Hsplit, app_nil_r).
  assert (Hin : ∀ r, r ∈ rows → r ∈ W) by (intros r; rewrite Hsplit; set_solver).
  destruct HW as [HW|HW].
  - split_and!; [rewrite Hrows, HW; by apply window_page| |].
    + intros Hr%Hall. rewrite Hr, HW. by apply window_caught_up.
    + intros r Hr%Hin. rewrite HW in Hr. by apply elem_of_window in Hr as [? _].
  - split_and!; [rewrite Hrows, HW; by apply compacted_page| |].
    + intros Hr%Hall. rewrite Hr, HW. by apply compacted_caught_up.
    + intros r Hr%Hin. rewrite HW in Hr. by apply elem_of_compacted in Hr as ((? & _) & _).
Qed.

Lemma page_sorted log w c W rows rest :
  log_understood log → W = window log c w ∨ W = compacted log c w → W = rows ++ rest →
  StronglySorted row_seq_lt rows ∧ (∀ r, r ∈ rows → c < ChangeRow.seq r).
Proof using Type*.
  intros [Hd _]%log_understood_seqs HW Hsplit.
  assert (Hin : ∀ r, r ∈ rows → r ∈ W) by (intros r; rewrite Hsplit; set_solver).
  assert (Hs : StronglySorted row_seq_lt W).
  { destruct HW as [->| ->]; [by apply window_sorted|].
    apply order_strict. unfold distinct_latest. by repeat apply distinct_filter. }
  split; [rewrite Hsplit in Hs; by apply StronglySorted_app_1_l in Hs|].
  intros r Hr%Hin. destruct HW as [->| ->]; [apply elem_of_window in Hr; lia|].
  by apply elem_of_compacted in Hr as (_ & ? & _).
Qed.

Lemma page_fits log rows cs en :
  log_understood log → registry en = reg → migrations en = ms → (∀ r, r ∈ rows → r ∈ log) →
  Forall2 decodes rows cs → fits en scope cs ∧ readable en cs.
Proof using Type*.
  intros [_ Hlog] Hr Hm Hin Hcs. unfold fits, readable. rewrite Hr, Hm. rewrite Forall_forall in Hlog.
  split; apply Forall_forall; intros c [i Hc]%list_elem_of_lookup_1;
    eapply Forall2_lookup_r in Hcs as (r & Hr' & Hd); try exact Hc;
    apply list_elem_of_lookup_2 in Hr'; by eapply Hlog; eauto.
Qed.

(** The engine finds nothing wrong with the order of an honest answer, however late. *)
Lemma page_ordered h wd0 wd b :
  in_sync h wd0 → drifts wd0 wd → page_answer wd0 b →
  validate_ordering b (Cursor.get (stored_cursor (durable (device wd)) scope)) = Ok () ∧
  Forall change_wf (Batch.changes b) ∧ readable (device wd) (Batch.changes b).
Proof using Type*.
  intros Hin Hdr (W & rows & rest & HW & Hsplit & Hcs & Hsc & _ & Hnext & _).
  destruct (drift_in_sync _ _ _ Hdr Hin) as ((_ & Hr & Hm & _) & [_ _ _ Hcur _] & _).
  pose proof Hin as (_ & _ & _ & Hlog & _ & _ & m & Hj & _). rewrite Hcur.
  destruct (page_sorted _ _ _ _ _ _ Hlog HW Hsplit) as [Hsort Hlow].
  destruct (page_joined _ _ _ _ _ _ _ Hlog Hj HW Hsplit) as (_ & _ & Hsub).
  pose proof (decodes_wf _ _ Hcs) as Hwf.
  split_and!; [|done|by eapply page_fits]. apply apply_ordering_ok. split_and!; [|..|done|].
  - by eapply decodes_sorted.
  - by eapply (decodes_each _ _ (λ n, _ < n)).
  - rewrite Hnext. cbn [Cursor.get]. eapply (decodes_each _ _ (λ n, n ≤ _)); [exact Hcs|].
    intros r Hr'. by apply next_of_max.
Qed.

Lemma mirrors_server_rows log w rows held :
  server_rows log w = Ok rows → mirrors (replay (window log 0 w) ∅) held → held = rows.
Proof using Type*.
  unfold server_rows. intros Hs Hm. destruct (res_mapM _ _) as [cs|] eqn:Hcs; simpl in Hs; [|done].
  injection Hs as <-. apply res_mapM_ok in Hcs. eapply mirrors_eq; [exact Hm|].
  apply mirrors_run; [exact Hcs|apply mirrors_empty].
Qed.

(** An honest answer keeps the device in step with the log, and never looks like divergence,
    though the log has grown since. *)
Lemma answer_in_sync h wd0 wd b rebuilding en' r :
  in_sync h wd0 → drifts wd0 wd → page_answer wd0 b →
  apply_changes b (negb (Batch.has_more b)) rebuilding (device wd) = (en', r) →
  in_sync (match r with Ok _ => if Batch.has_more b then h else heal h | Err _ => h end)
    (MkWorld (server wd) (horizon wd) en') ∧
  ∀ o, r = Ok o → AppliedBatch.diverged o = false ∧
    stored_cursor (durable en') scope = Batch.next_cursor b ∧
    (Batch.has_more b = false → server_rows (scope_log (server wd0)) (horizon wd0) = Ok (held_rows en' scope)).
Proof using Type*.
  intros Hin0 Hdr (W & rows & rest & HW & Hsplit & Hcs & Hsc & (D & HD & Hdig) & Hnext & Hmore) Ha.
  destruct (drift_in_sync _ _ _ Hdr Hin0) as (Hin & [_ _ Hheld Hcur0 _] & Hww & Hgrow).
  pose proof Hin0 as (_ & _ & _ & Hlog0 & _ & _ & m & Hj & Hmir). rewrite <- Hheld in Hmir.
  pose proof Hin as (Hinv & Hr & Hm & Hlog & Hw & Hh & _).
  destruct (page_joined _ _ _ _ _ _ _ Hlog0 Hj HW Hsplit) as (Hj' & Hhead & Hsub).
  destruct (page_fits _ _ _ _ Hlog0 Hr Hm Hsub Hcs) as [Hfit Hread].
  rewrite <- Hsc in Hfit. pose proof (apply_changes_inv _ _ _ _ _ _ Hinv Hfit Hread Ha) as Hinv'.
  apply apply_changes_answered in Ha as (Hr' & Hm' & _ & Hcase); [|done..]. rewrite Hsc in Hcase.
  destruct Hcase as [[Hsame Herr]|(Hrows & Hcur & Hres)].
  { destruct r; [done|]. split; [by apply in_sync_same_place|done]. }
  rewrite Hsc in Hrows, Hcur, Hres.
  pose proof (mirrors_run _ _ _ _ Hcs Hmir) as Hmir'. rewrite <- Hrows in Hmir'.
  assert (Hlast : Batch.has_more b = false → held_rows en' scope = D).
  { intros Hb. rewrite Hb in Hmore. eapply mirrors_server_rows; [exact HD|]. by rewrite <- Hhead. }
  assert (Hdiv : ∀ o, r = Ok o → AppliedBatch.diverged o = false).
  { intros o ->. destruct Hres as [-> _]. destruct (Batch.has_more b) eqn:Hb; [done|].
    rewrite andb_true_l, negb_false_iff, Hlast, Hdig by done. by apply bool_decide_eq_true_2. }
  split; [|intros o Ho; split_and!; [by apply Hdiv|done|intros Hb; by rewrite Hlast]].
  unfold in_sync. cbn [device server horizon]. split_and!; try done; try congruence; try lia.
  - destruct r as [o|e]; [destruct Hres as [_ Hres]|by rewrite Hres].
    rewrite Hres, Hh, Hdiv by done. unfold next_health, counted, healed_now, heal.
    by destruct (Batch.has_more b), h.
  - exists (replay rows m). rewrite Hcur, Hnext. split; [by eapply joined_grow|done].
Qed.

(** And refuses it only when the storage fails or an append-only row would change. *)
Lemma answer_refused h wd0 wd b rebuilding en' e :
  in_sync h wd0 → drifts wd0 wd → needs_reload scope (device wd) = false → page_answer wd0 b →
  apply_changes b (negb (Batch.has_more b)) rebuilding (device wd) = (en', Err e) → staging_refusal e.
Proof using Type*.
  intros Hin Hdr Hs Hb Ha. destruct (page_ordered _ _ _ _ Hin Hdr Hb) as (Hv & Hwf & Hread).
  destruct (drift_in_sync _ _ _ Hdr Hin) as (Hin' & _).
  destruct (in_sync_cursor _ _ Hin' Hs) as [Hcur _]. apply bool_decide_eq_false in Hs.
  pose proof Hb as (_ & _ & _ & _ & _ & _ & Hsc & _).
  eapply apply_trusted_err; [..|exact Ha]; rewrite ?Hsc; rewrite ?Hcur; done.
Qed.

Lemma sync_step_in_sync h wd wd' : sync_step wd wd' → in_sync h wd → ∃ h', heals h h' ∧ in_sync h' wd'.
Proof using Type*.
  intros Hstep Hin. destruct Hstep as [wd wd' Hd|wd0 wd b en' r (Hs & Hb & Hd) Ha|wd0 wd p en' r (Hs & Hb & Hd) Ha|wd en' r Ha].
  - exists h. split; [done|]. by apply (drift_in_sync h wd wd'); [apply rtc_once|].
  - eexists. split; [|by eapply answer_in_sync; [done|exact Hd|by eapply pull_page|exact Ha]].
    destruct r; [destruct (Batch.has_more b)|]; unfold heals; auto.
  - eexists. split; [|by eapply (answer_in_sync h _ _ (batch_of_response p)); [done|exact Hd|by eapply bootstrap_page|exact Ha]].
    destruct r; [destruct (Batch.has_more _)|]; unfold heals; auto.
  - exists h. split; [done|]. pose proof Hin as (Hinv & Hr & Hm & Hlog & Hw & Hh & _).
    pose proof (begin_rebootstrap_inv _ _ _ _ Hinv Ha) as Hinv'.
    apply begin_rebootstrap_place in Ha as [_ [[Hsame _]|[Hr' Hm' Hrows Hcur Hh']]]; [| |by destruct Hinv as (_ & _ & ?)].
    { by apply in_sync_same_place. }
    unfold in_sync. cbn [device server horizon]. split_and!; try done; try congruence; try lia.
    exists ∅. rewrite Hcur, Hrows.
    split; [apply joined_start; [done|lia]|apply mirrors_empty].
Qed.

(** A run only ever heals. *)
Lemma sync_run_in_sync wd wd' h : rtc sync_step wd wd' → in_sync h wd → ∃ h', heals h h' ∧ in_sync h' wd'.
Proof using Type*.
  intros Hrun. revert h. induction Hrun as [wd|wd wd1 wd' Hstep _ IH]; intros h Hin; [by exists h|].
  destruct (sync_step_in_sync _ _ _ Hstep Hin) as (h1 & Hh & Hin1). destruct (IH _ Hin1) as (h' & Hh' & Hin').
  exists h'. split; [by etrans|done].
Qed.

(** ** Catching up *)

(** A device that pulls, applies, and pulls again while [has_more], the server standing still.
    [Err None] is the server failing to answer or the pulls running out. *)
Fixpoint pull_until (fuel : nat) (t : Tables) (w limit : Z) (budget : N) (compressor : ZS)
    (digest : HexString.t) en : engine * result () (option ApplyError.t) :=
  match fuel with
  | O => (en, Err None)
  | Datatypes.S fuel =>
      match serve t scope (cursor_of en scope) limit w budget compressor digest with
      | Err _ => (en, Err None)
      | Ok b =>
          match apply_batch b en with
          | (en, Err e) => (en, Err (Some e))
          | (en, Ok _) =>
              if Batch.has_more b then pull_until fuel t w limit budget compressor digest en else (en, Ok ())
          end
      end
  end.

(** The same walk over bootstrap pages: what fills a scope that was cleared. *)
Fixpoint bootstrap_until (fuel : nat) (protocol : ProtocolVersion.t) (t : Tables) (w limit : Z) (budget : N)
    (compressor : ZS) (digest : HexString.t) en : engine * result () (option ApplyError.t) :=
  match fuel with
  | O => (en, Err None)
  | Datatypes.S fuel =>
      match serve_bootstrap protocol t scope (cursor_of en scope) limit w budget compressor digest with
      | Err _ => (en, Err None)
      | Ok p =>
          match apply_bootstrap p en with
          | (en, Err e) => (en, Err (Some e))
          | (en, Ok _) =>
              if BootstrapResponse.has_more p
              then bootstrap_until fuel protocol t w limit budget compressor digest en else (en, Ok ())
          end
      end
  end.

Lemma apply_trusted_suspect b compare rebuilding en en' o :
  Batch.scope b ∉ suspect en → apply_changes b compare rebuilding en = (en', Ok o) → suspect en' = suspect en.
Proof.
  intros Hs Ha. destruct (apply_changes_cases _ _ _ _ _ _ Hs Ha) as [(? & ? & _)|(sg & q & _ & _ & Hrun)]; [done|].
  cbv zeta in Hrun. destruct Hrun as [(? & ? & _ & ? & _)|(? & ? & _ & _ & Hst)]; [done|].
  by destruct Hst as (_ & _ & _ & _ & _ & ? & _).
Qed.

(** The changes a device still lacks. *)
Definition missing (t : Tables) (w : Z) en : list ChangeRow.t :=
  window (scope_log t) (Cursor.get (stored_cursor (durable en) scope)) w.

(** One page of either kind, applied where it was asked for: it is the last and brings
    everything, or it leaves fewer changes to fetch. *)
Lemma page_progress h t w en b rebuilding en' r :
  in_sync h (MkWorld t w en) → needs_reload scope en = false → page_answer (MkWorld t w en) b →
  apply_changes b (negb (Batch.has_more b)) rebuilding en = (en', r) →
  match r with
  | Err e => staging_refusal e
  | Ok _ =>
      if Batch.has_more b
      then in_sync h (MkWorld t w en') ∧ needs_reload scope en' = false ∧
           (length (missing t w en') < length (missing t w en))%nat
      else server_rows (scope_log t) w = Ok (held_rows en' scope) ∧ scope_health scope en' = heal h
  end.
Proof using Type*.
  intros Hin Hs Hpage Ha. destruct r as [o|e].
  2: { by eapply (answer_refused h (MkWorld t w en) (MkWorld t w en)). }
  destruct (answer_in_sync h (MkWorld t w en) (MkWorld t w en) b rebuilding en' (Ok o) Hin (rtc_refl _ _) Hpage Ha)
    as [Hin' Ho]. destruct (Ho o eq_refl) as (_ & Hc & Hend). cbn [server horizon device] in *.
  destruct (Batch.has_more b) eqn:Hmore; [|split; [by apply Hend|by destruct Hin' as (_ & _ & _ & _ & _ & ? & _)]].
  pose proof Hin as (_ & _ & _ & Hlog & _). destruct (log_understood_seqs _ Hlog) as [Hd _].
  destruct Hpage as (W & rows & rest & HW & Hsplit & _ & Hsc & _ & Hnext & Hne).
  rewrite Hmore in Hne. cbn [server horizon device] in *. split; [done|]. split.
  - apply bool_decide_eq_false. apply bool_decide_eq_false in Hs.
    erewrite apply_trusted_suspect; [exact Hs| |exact Ha]. by rewrite Hsc.
  - destruct (exists_last Hne) as (rows' & x & ->). unfold next_of in Hnext. rewrite last_snoc in Hnext.
    unfold missing. rewrite Hc, Hnext. cbn [Cursor.get].
    assert (Hx : x ∈ window (scope_log t) (Cursor.get (stored_cursor (durable en) scope)) w).
    { assert (x ∈ W) as Hx by (rewrite Hsplit; set_solver). destruct HW as [->| ->]; [done|].
      apply elem_of_compacted in Hx as ((? & ? & _) & ? & _). apply elem_of_window. split; [done|lia]. }
    apply list_elem_of_split in Hx as (l1 & l2 & Hx). rewrite (window_next _ _ _ _ _ _ Hd Hx), Hx, length_app.
    simpl. lia.
Qed.

(** What each walk can end with: everything the server holds, or a refusal. *)
Definition walk_ends h t w en' (r : result () (option ApplyError.t)) : Prop :=
  (r = Ok () ∧ server_rows (scope_log t) w = Ok (held_rows en' scope) ∧ scope_health scope en' = heal h) ∨
  ∃ e, r = Err (Some e) ∧ staging_refusal e.

Lemma pull_until_ends h fuel t w limit budget compressor digest en en' r :
  in_sync h (MkWorld t w en) → needs_reload scope en = false → 1 ≤ limit → honest (MkWorld t w en) digest →
  (length (missing t w en) < fuel)%nat →
  pull_until fuel t w limit budget compressor digest en = (en', r) → walk_ends h t w en' r.
Proof using Type*.
  intros Hin Hs Hlim Hhon. revert en Hin Hs Hhon.
  induction fuel as [|fuel IH]; intros en Hin Hs Hhon Hlen; [lia|]. cbn [pull_until].
  destruct (in_sync_cursor _ _ Hin Hs) as [Hcur Hle]. pose proof Hin as (_ & _ & _ & [Hlog _] & _).
  cbn [device server] in *. rewrite Hcur.
  destruct (serve_ok t scope _ limit w budget compressor digest Hlog Hlim Hle) as (b & _ & _ & Hb & _). rewrite Hb.
  assert (Hpage : page_answer (MkWorld t w en) b).
  { eapply pull_page; [done|done|]. exists limit, budget, compressor, digest. cbn. by rewrite Hcur. }
  destruct (apply_batch b en) as [en1 r1] eqn:Ha. pose proof (page_progress _ _ _ _ _ _ _ _ Hin Hs Hpage Ha) as Hp.
  destruct r1 as [o|e]; [|intros [= <- <-]; right; eauto].
  destruct (Batch.has_more b); [|intros [= <- <-]; left; auto].
  destruct Hp as (Hin1 & Hs1 & Hlt). apply IH; try done. lia.
Qed.

Lemma bootstrap_until_ends h fuel protocol t w limit budget compressor digest en en' r :
  in_sync h (MkWorld t w en) → needs_reload scope en = false → 1 ≤ limit → honest (MkWorld t w en) digest →
  (length (missing t w en) < fuel)%nat →
  bootstrap_until fuel protocol t w limit budget compressor digest en = (en', r) → walk_ends h t w en' r.
Proof using Type*.
  intros Hin Hs Hlim Hhon. revert en Hin Hs Hhon.
  induction fuel as [|fuel IH]; intros en Hin Hs Hhon Hlen; [lia|]. cbn [bootstrap_until].
  destruct (in_sync_cursor _ _ Hin Hs) as [Hcur Hle]. pose proof Hin as (_ & _ & _ & [Hlog _] & _).
  cbn [device server] in *. rewrite Hcur.
  destruct (serve_bootstrap_ok protocol t scope _ limit w budget compressor digest Hlog Hlim Hle) as (b & _ & _ & Hb & _).
  rewrite Hb. set (p := BootstrapResponse.mk _ _ _ _ _ _ _) in *.
  assert (Hpage : page_answer (MkWorld t w en) (batch_of_response p)).
  { eapply bootstrap_page; [done|done|]. exists protocol, limit, budget, compressor, digest. cbn. by rewrite Hcur. }
  destruct (apply_bootstrap p en) as [en1 r1] eqn:Ha. pose proof (page_progress _ _ _ _ _ _ _ _ Hin Hs Hpage Ha) as Hp.
  destruct r1 as [o|e]; [|intros [= <- <-]; right; eauto]. cbn [Batch.has_more batch_of_response] in Hp.
  destruct (BootstrapResponse.has_more p); [|intros [= <- <-]; left; auto].
  destruct Hp as (Hin1 & Hs1 & Hlt). apply IH; try done. lia.
Qed.
End sync.
