(* ===== verification/SyncClaims.v ===== *)
(** * SyncClaims: a device that syncs with an honest server converges, with a concrete run. *)

From S2P Require Import Prelude Errors Nums Ids Json Wire Integrity Core Registry Migrate.
From S2P Require Import Outbox Storage SimStorage Apply Engine EngineFacts EngineSteps Place.
From S2P Require Import Server Database Log Replica Sync Concrete ClientWitnesses.
From stdpp Require Import options.

Section claims.
Context {C E S T ZC ZS : Type} `{!Storage S} `{!StorageLaws S} `{!Compressor ZC} `{!Compressor ZS}.
Context `{Hashes} `{Codec} `{!CodecArrays}.
Context (scope : ScopeId.t) (reg : Registry) (ms : Migrations).
Abbreviation world := (World (C := C) (E := E) (S := S) (T := T) (ZC := ZC)).

(** C1: A device that syncs with an honest server never diverges, heals, and converges, as long as
    the app understands the server's log: every row of it, at every moment, is of an entity the
    app files under the scope and in a schema it can read. The device starts with nothing of the
    scope, or has just cleared it to rebuild it, whatever it held there. The server commits above
    its watermark and raises it; the device, while it trusts the scope, asks and is answered, one
    request at a time, with pull or bootstrap pages of any size, late, after more commits and after
    it pushed commands or synced other scopes it understands; answers are lost; storage fails, or
    commits and loses the acknowledgement. Then no page applied is reported as diverged and the
    scope loses no trust; the last page of a walk leaves exactly the rows the log held under the
    watermark when it was made, and a tainted scope healed; a page is refused only because storage
    failed or an append-only row would change. *)
Theorem honest_sync_converges h (wd0 asking wd : world) b en' r :
  starts scope reg ms h wd0 → rtc (sync_step (ZS := ZS) scope reg ms) wd0 asking →
  needs_reload scope (device wd) = false →
  (pulled (ZS := ZS) scope reg ms asking wd b ∧ apply_batch b (device wd) = (en', r) ∨
   ∃ p, bootstrapped (ZS := ZS) scope reg ms asking wd p ∧ b = batch_of_response p ∧
        apply_bootstrap p (device wd) = (en', r)) →
  heals h (scope_health scope (device wd)) ∧
  match r with
  | Ok o => AppliedBatch.diverged o = false ∧ stored_cursor (durable en') scope = Batch.next_cursor b ∧
      (Batch.has_more b = false →
       server_rows (scope_log scope (server asking)) (horizon asking) = Ok (held_rows en' scope) ∧
       scope_health scope en' = heal h)
  | Err e => staging_refusal e
  end.
Proof using Type*.
  intros Hb Hrun Hs Hans. apply starts_in_sync in Hb.
  destruct (sync_run_in_sync scope reg ms _ _ _ Hrun Hb) as (h1 & Hh & Hin).
  assert (∃ rebuilding, page_answer scope asking b ∧ drifts scope reg ms asking wd ∧
    apply_changes b (negb (Batch.has_more b)) rebuilding (device wd) = (en', r)) as (rebuilding & Hpage & Hd & Ha).
  { destruct Hans as [[(Hs0 & Hans & Hd) Ha]|(p & (Hs0 & Hans & Hd) & -> & Ha)].
    - exists false. split; [by eapply (pull_page scope reg ms)|by split].
    - exists true. split; [by eapply (bootstrap_page scope reg ms)|by split]. }
  split; [by destruct (drift_in_sync scope reg ms _ _ _ Hd Hin) as ((_ & _ & _ & _ & _ & -> & _) & _)|].
  destruct (answer_in_sync scope reg ms _ _ _ _ _ _ _ Hin Hd Hpage Ha) as [Hin' Ho].
  destruct r as [o|e]; [|exact (answer_refused scope reg ms h1 asking wd b rebuilding en' e Hin Hd Hs Hpage Ha)].
  destruct (Ho o eq_refl) as (Hdv & Hc & Hend). split_and!; [done|done|]. intros Hlast.
  split; [by apply Hend|]. rewrite Hlast in Hin'. destruct Hin' as (_ & _ & _ & _ & _ & Hh' & _).
  cbn [device] in Hh'. rewrite Hh'.
  by destruct Hh as [-> | ->], h.
Qed.

Lemma run_walk_ends h h1 (t : Tables) w en' r :
  heals h h1 → walk_ends (C := C) (E := E) (T := T) (ZC := ZC) scope h1 t w en' r →
  walk_ends (S := S) scope h t w en' r.
Proof using Type*.
  intros Hh [(-> & Hrows & Hheal)|Herr]; [left|by right]. split_and!; [done|done|]. rewrite Hheal.
  by destruct Hh as [-> | ->], h.
Qed.

(** C11: A device that keeps pulling catches up. From wherever such a run has left it, over a log
    the app understands (every row of an entity it files under the scope, in a schema it can
    read) and with the scope trusted, if the server then stands still and its digest is that of
    its rows, the device has everything after at most one pull
    more than there are changes it lacks: the pulls end, with the rows the log holds under the
    watermark, or with a refusal by the storage or of an append-only row. *)
Theorem pulls_catch_up h (wd0 : world) t w en limit budget (compressor : ZS) digest en' r :
  starts scope reg ms h wd0 → rtc (sync_step (ZS := ZS) scope reg ms) wd0 (MkWorld t w en) →
  needs_reload scope en = false → 1 ≤ limit → honest scope (MkWorld t w en) digest →
  pull_until scope (1 + length (missing scope t w en)) t w limit budget compressor digest en = (en', r) →
  (r = Ok () ∧ server_rows (scope_log scope t) w = Ok (held_rows en' scope) ∧ scope_health scope en' = heal h) ∨
  ∃ e, r = Err (Some e) ∧ staging_refusal e.
Proof using Type*.
  intros Hb Hrun Hs Hlim Hhon Hp. apply starts_in_sync in Hb.
  destruct (sync_run_in_sync scope reg ms _ _ _ Hrun Hb) as (h1 & Hh & Hin).
  eapply run_walk_ends; [exact Hh|]. eapply (pull_until_ends scope reg ms h1); try done. lia.
Qed.

(** C12: A scope that diverged heals, if the app understands the server's log: every row is of an
    entity it files under the scope, in a schema it can read. Take a device whose copy of the
    scope may be anything: rows the server never sent, rows missing, a digest that is not that of
    the rows, a position past the log; and however often it has diverged. Once a rebuild of the
    scope has begun, and from wherever any run has left it since with the scope trusted, fetching
    bootstrap pages from a server that then stands still ends:
    after at most one page more than there are changes it lacks the device holds exactly the rows
    the log holds under the watermark, none of the old ones among them, and a tainted scope is
    trusted again, with its count of divergences kept; or a page is refused by the storage or for
    an append-only row. *)
Theorem rebuild_heals h (wd0 : world) protocol t w en limit budget (compressor : ZS) digest en' r :
  rebuilding scope reg ms h wd0 → rtc (sync_step (ZS := ZS) scope reg ms) wd0 (MkWorld t w en) →
  needs_reload scope en = false → 1 ≤ limit → honest scope (MkWorld t w en) digest →
  bootstrap_until scope (1 + length (missing scope t w en)) protocol t w limit budget compressor digest en
    = (en', r) →
  (r = Ok () ∧ server_rows (scope_log scope t) w = Ok (held_rows en' scope) ∧ scope_health scope en' = heal h) ∨
  ∃ e, r = Err (Some e) ∧ staging_refusal e.
Proof using Type*.
  intros Hb Hrun Hs Hlim Hhon Hp. apply (rebuilding_in_sync scope reg ms) in Hb.
  destruct (sync_run_in_sync scope reg ms _ _ _ Hrun Hb) as (h1 & Hh & Hin).
  eapply run_walk_ends; [exact Hh|]. eapply (bootstrap_until_ends scope reg ms h1); try done. lia.
Qed.
End claims.

(** ** A concrete run *)

Ltac decide_now := apply (bool_decide_unpack _); vm_compute; exact I.

Abbreviation demo_world := (World (C := ()) (E := ()) (S := Db.t) (T := ()) (ZC := SimCompressor.t)).
Abbreviation demo_step := (sync_step (C := ()) (E := ()) (S := Db.t) (T := ()) (ZC := SimCompressor.t)
  (ZS := SimCompressor.t) scope_a demo_registry Migrations_new).

(** The server has two rows; the device pulls one; the server commits two changes more, one of
    them the deletion of the row the device holds; the device pulls the rest. *)
Definition early_tables : Tables := MkTables (LogRow.mk "user:a" <$> take 2 sample_rows) 5 true ∅ ∅ (Some 5).
Definition early_digest : HexString.t := server_digest [(note, row1, 2); (note, row2, 5)].
Definition late_digest : HexString.t := server_digest [(note, row2, 5); (note, EntityId.mk "r3", 11)].
Definition page_at (t : Tables) (c limit w : Z) (digest : HexString.t) : Batch.t :=
  unwrap_or (serve t scope_a (Cursor.mk c) limit w 1000 (SimCompressor.with_ratio 1) digest) (batch_of [] 0 false hex0).
Definition at_start : demo_world := MkWorld early_tables 5 fresh.
Definition one_row : demo_engine := (apply_batch (page_at early_tables 0 1 5 early_digest) fresh).1.
Definition midway : demo_world := MkWorld sample_tables 11 one_row.

Lemma rows_ok t :
  log_sound (scope_log scope_a t) → scope_log scope_a t = sample_rows ∨ scope_log scope_a t = take 2 sample_rows →
  log_understood scope_a demo_registry Migrations_new (scope_log scope_a t).
Proof.
  intros Hs Ht. split; [done|].
  assert (Hall : Forall (λ r, ∀ c, decodes r c → Change.entity c ∈ scope_entities demo_registry scope_a ∧
    is_ok (migrated_change demo_registry Migrations_new c) = true) sample_rows).
  { repeat (constructor; [intros c Hc; vm_compute in Hc; injection Hc as <-; split; [decide_now|compute_now]|]).
    constructor. }
  destruct Ht as [-> | ->]; [done|]. by apply Forall_take.
Qed.

Lemma early_ok : log_understood scope_a demo_registry Migrations_new (scope_log scope_a early_tables).
Proof.
  apply rows_ok; [|right; compute_now]. split; [decide_now|].
  vm_compute scope_log. repeat (constructor; [eexists; split; [compute_now|]; eexists; compute_now|]). constructor.
Qed.
Lemma late_ok : log_understood scope_a demo_registry Migrations_new (scope_log scope_a sample_tables).
Proof. apply rows_ok; [exact sample_sound|left; compute_now]. Qed.

Lemma at_start_begins : starts scope_a demo_registry Migrations_new Healthy at_start.
Proof.
  left. split; [|done]. split_and!; [exact (new_inv () () Db.new () (SimCompressor.with_ratio 1) demo_registry Migrations_new
    demo_registry_wf eq_refl)|compute_now|compute_now|compute_now|compute_now|exact early_ok|done|done].
Qed.

Lemma honest_now (wd : demo_world) digest :
  (let? rows := server_rows (scope_log scope_a (server wd)) (horizon wd) in
   Ok (ScopeDigest.to_hex (map_digest rows))) = Ok digest → honest scope_a wd digest.
Proof. unfold honest. destruct (server_rows _ _) as [rows|]; [|done]. intros [= <-]. by exists rows. Qed.

Lemma first_served : answers_pull (ZS := SimCompressor.t) scope_a at_start (page_at early_tables 0 1 5 early_digest).
Proof.
  exists 1, 1000%N, (SimCompressor.with_ratio 1), early_digest. split_and!; [lia|apply honest_now; compute_now|compute_now].
Qed.

(** The server commits while a device is at [en]. *)
Lemma early_to_late en : drift_step (C := ()) (E := ()) (T := ()) (ZC := SimCompressor.t)
  scope_a demo_registry Migrations_new (MkWorld early_tables 5 en) (MkWorld sample_tables 11 en).
Proof.
  apply drift_commit; [done|exact late_ok|].
  intros r Hr. vm_compute scope_log. rewrite !elem_of_cons. split; [naive_solver|].
  intros [->|[->|[->|[->|Hn]]]]; [by left|by right; left|simpl in Hr; lia|simpl in Hr; lia|].
  by apply not_elem_of_nil in Hn.
Qed.

Lemma midway_reached : rtc demo_step at_start midway.
Proof.
  eapply rtc_l; [|apply rtc_once, sync_drift, early_to_late].
  eapply (sync_pull _ _ _ at_start at_start (page_at early_tables 0 1 5 early_digest) one_row
    (apply_batch (page_at early_tables 0 1 5 early_digest) fresh).2); [|apply surjective_pairing].
  split; [compute_now|]. split; [exact first_served|]. done.
Qed.

(** The rest of what the server held is served at [early_world] and arrives at [midway], when
    the server has committed two changes more. *)
Definition early_world : demo_world := MkWorld early_tables 5 one_row.
Definition late_page : Batch.t := page_at early_tables 2 9 5 early_digest.
Definition early_device : demo_engine := (apply_batch late_page one_row).1.

Lemma early_reached : rtc demo_step at_start early_world.
Proof.
  apply rtc_once. eapply (sync_pull _ _ _ at_start at_start (page_at early_tables 0 1 5 early_digest) one_row
    (apply_batch (page_at early_tables 0 1 5 early_digest) fresh).2); [|apply surjective_pairing].
  split; [compute_now|]. split; [exact first_served|]. done.
Qed.

Lemma honest_sync_converges_witness :
  (apply_batch late_page one_row).2 = Ok (AppliedBatch.mk 1 false) ∧
  scope_health scope_a one_row = Healthy ∧
  server_rows (scope_log scope_a early_tables) 5 = Ok (held_rows early_device scope_a).
Proof.
  split; [compute_now|].
  destruct (honest_sync_converges (ZS := SimCompressor.t) scope_a demo_registry Migrations_new Healthy at_start early_world
    midway late_page early_device (Ok (AppliedBatch.mk 1 false)) at_start_begins early_reached) as (Hh & _ & _ & Hr).
  - compute_now.
  - left. split; [|etransitivity; [apply surjective_pairing|]; apply f_equal; compute_now].
    split; [compute_now|]. split; [|apply rtc_once, early_to_late].
    exists 9, 1000%N, (SimCompressor.with_ratio 1), early_digest.
    split_and!; [lia|apply honest_now; compute_now|compute_now].
  - split; [by destruct Hh as [Hh|Hh]; etrans; try exact Hh|]. by apply Hr; compute_now.
Defined.

Lemma pulls_catch_up_witness :
  let run := pull_until scope_a 4 sample_tables 11 1 1000 (SimCompressor.with_ratio 1) late_digest one_row in
  run.2 = Ok () ∧ server_rows (scope_log scope_a sample_tables) 11 = Ok (held_rows run.1 scope_a).
Proof.
  intros run. assert (Hr : run.2 = Ok ()) by compute_now. split; [exact Hr|].
  destruct (pulls_catch_up scope_a demo_registry Migrations_new Healthy at_start sample_tables 11 one_row 1 1000
    (SimCompressor.with_ratio 1) late_digest run.1 (Ok ()) at_start_begins midway_reached) as [(_ & H & _)|(e & He & _)].
  - compute_now.
  - lia.
  - apply honest_now. compute_now.
  - rewrite <- Hr. apply surjective_pairing.
  - exact H.
  - discriminate He.
Defined.

(** ** A scope that heals *)

(** The device [mended] holds the right row and a digest that says otherwise; its scope is
    tainted. The server holds that row and another, in the schema the device reads. *)
Definition v2_log : list ChangeRow.t :=
  [ChangeRow.mk 2 "note" "r1" "upsert" (Some (doc 2)) 2 2; ChangeRow.mk 3 "note" "r2" "upsert" (Some (doc 3)) 3 2].
Definition v2_tables : Tables := MkTables (LogRow.mk "user:a" <$> v2_log) 3 true ∅ ∅ (Some 3).
Definition v2_digest : HexString.t := server_digest [(note, row1, 2); (note, row2, 3)].
Definition clearing : demo_engine := (begin_rebootstrap scope_a mended).1.
Definition rebuild_world : demo_world := MkWorld v2_tables 3 clearing.

Lemma singleton_elsewhere {A} `{Countable K} (m : gmap K A) k x k' : m = {[k := x]} → k' ≠ k → m !! k' = None.
Proof. intros -> Hk. apply lookup_singleton_ne. congruence. Qed.

Lemma mended_elsewhere : sound_elsewhere scope_a mended.
Proof.
  split; [|split; [intros _; compute_now|]].
  2: { assert (registry mended = v2_registry) as -> by compute_now. apply register_entity_wf, Registry_new_wf. }
  intros sc Hsc.
  assert (Hc : v_cursors (durable mended) !! sc = None) by (apply (singleton_elsewhere _ scope_a (Cursor.mk 2)); [compute_now|done]).
  split; [intros _|]; unfold view_scope, scope_ok; rewrite Hc.
  - apply (singleton_elsewhere _ scope_a (default ScopeState.NEW (scopes mended !! scope_a))); [compute_now|done].
  - cbv zeta. assert (versions_of (durable mended) = {[(note, row1) := RowVersion.mk 2]}) as -> by compute_now.
    assert (registry mended = v2_registry) as -> by compute_now.
    unfold restrict. rewrite map_filter_singleton, decide_False; [done|]. intros Hin. apply Hsc.
    apply elem_of_scope_entities in Hin as (r & Hr & <-). by injection Hr as <-.
Qed.

Lemma clearing_begins : rebuilding scope_a v2_registry Migrations_new (Tainted 1) rebuild_world.
Proof.
  exists mended. split; [exact mended_elsewhere|]. do 3 (split; [compute_now|]).
  split; [etransitivity; [apply surjective_pairing|]; apply f_equal; compute_now|]. split; [|done].
  split; [split; [decide_now|]|].
  - vm_compute scope_log. repeat (constructor; [eexists; split; [compute_now|]; eexists; compute_now|]). constructor.
  - repeat (constructor; [intros c Hc; vm_compute in Hc; injection Hc as <-; split; [decide_now|compute_now]|]).
    constructor.
Qed.

Lemma rebuild_heals_witness :
  let run := bootstrap_until scope_a 3 (ProtocolVersion.mk 1) v2_tables 3 1 1000 (SimCompressor.with_ratio 1) v2_digest clearing in
  run.2 = Ok () ∧ server_rows (scope_log scope_a v2_tables) 3 = Ok (held_rows run.1 scope_a) ∧
  scope_health scope_a run.1 = Healed 1.
Proof.
  intros run. assert (Hr : run.2 = Ok ()) by compute_now. split; [exact Hr|].
  destruct (rebuild_heals scope_a v2_registry Migrations_new (Tainted 1) rebuild_world (ProtocolVersion.mk 1) v2_tables 3
    clearing 1 1000 (SimCompressor.with_ratio 1) v2_digest run.1 (Ok ()) clearing_begins (rtc_refl _ _))
    as [(_ & Hrows & Hheal)|(e & He & _)].
  - compute_now.
  - lia.
  - apply honest_now. compute_now.
  - rewrite <- Hr. apply surjective_pairing.
  - split; [exact Hrows|exact Hheal].
  - discriminate He.
Defined.
