(* ===== verification/LogClaims.v ===== *)
(** * LogClaims: paging the change log loses nothing, repeats nothing, and a bootstrap joins
    it where a replay would be. *)

From S2P Require Import Prelude Errors Nums Ids Json Wire Integrity Core Storage Server.
From S2P Require Import Database Log Replica.
From stdpp Require Import options.

(** ** Claims *)

Section claims.
Context {ZC : Type} `{!Compressor ZC} `{Hashes} `{Codec} `{!CodecArrays}.

(** C23: Draining a scope delivers every change exactly once and in order. A device that
    pulls from [cursor], moves to each batch's [next_cursor] and pulls again while [has_more]
    is set finishes, and what it was sent is the rows of the scope above its cursor and under
    the watermark, each once, in [seq] order, whatever the page ceiling, the byte budget and
    the compressor, and whatever gaps other scopes leave in the numbering. *)
Theorem drain_delivers_all t scope cursor limit watermark budget compressor digest :
  log_sound (log_of t (ScopeId.as_str scope)) → 1 ≤ limit → Cursor.get cursor ≤ i64_max →
  let rows := window (log_of t (ScopeId.as_str scope)) (Cursor.get cursor) watermark in
  ∃ cs, drain (S (length rows)) t scope cursor limit watermark budget compressor digest = Ok cs ∧
    Forall2 (λ r c, ChangeRow.into_change r = Ok c) rows cs ∧ StronglySorted row_seq_lt rows ∧
    ∀ r, r ∈ rows ↔ r ∈ log_of t (ScopeId.as_str scope) ∧ Cursor.get cursor < ChangeRow.seq r ≤ watermark.
Proof using Type*.
  intros Hlog Hlim Hc rows.
  destruct (drain_from (S (length rows)) t scope cursor limit watermark budget compressor digest)
    as (cs & Hrun & Hcs); try done; [unfold rows; lia|].
  exists cs. split_and!; try done; [|intros r; apply elem_of_window]. apply window_sorted, Hlog.
Qed.

(** C32: A filled batch is the longest prefix the budget allows, and never empty when there is
    something to send. It carries a prefix of the candidates; more than one change only when
    all of them fit the budget; the first one left out would not have fitted; its cursor is
    its last change's, its checksum is of exactly the bytes sent, and [has_more] holds exactly
    when something was left out here or beyond the page. *)
Theorem fill_batch_exact scope cursor cands more budget (compressor : ZC) digest :
  Forall encodable cands → Forall (λ c, Seq.wf (Change.seq c)) cands →
  ∃ dn rest encs b, fill_batch scope cursor cands more budget compressor digest = Ok b ∧
    cands = dn ++ rest ∧ Batch.changes b = dn ∧
    change_encs dn encs ∧ Batch.checksum b = checksum_bytes (array_bytes encs) ∧
    (Batch.has_more b = true ↔ rest ≠ [] ∨ more = true) ∧
    Batch.next_cursor b = match last dn with Some c => Cursor.mk (Seq.get (Change.seq c)) | None => cursor end ∧
    (cands ≠ [] → dn ≠ []) ∧ ((length dn ≤ 1)%nat ∨ fits_budget compressor budget encs) ∧
    (∀ c rest', rest = c :: rest' → ∃ enc, to_vec c = Ok enc ∧ ¬ fits_budget compressor budget (encs ++ [enc])).
Proof using Type*.
  intros Hall Hwf.
  destruct (fill_batch_ok scope cursor cands more budget compressor digest Hall Hwf)
    as (dn & rest & encs & b & Hb & Hc & Hch & _ & _ & Hcs & He & Hmore & Hn & Hp & Hf & Hs).
  exists dn, rest, encs, b. split_and!; try done. rewrite Hmore, orb_true_iff, bool_decide_eq_true. done.
Qed.
End claims.

(** C18: A bootstrap joins the log exactly where a replay would be. Take a device that starts
    empty and is served bootstrap pages and pull pages of any size, in any order, while the
    log grows and rows it was already given are changed or deleted between pages. Pulling the
    rest of the log from the cursor it reached leaves it with the same rows as replaying the
    whole log from the start; in particular no deleted row survives and none is missing. *)
Theorem bootstrap_joins_log log w c m :
  follows log w c m → replay (window log c w) m = replay (window log 0 w) ∅.
Proof. intros (Hd & Hp & Hj)%follows_joined. by apply window_caught_up. Qed.
