(* ===== verification/WatermarkClaims.v ===== *)
(** * WatermarkClaims: what a watermark guarantees to a puller, and the two ways of calling
    the code under which it does not. *)

From S2P Require Import Prelude Errors Nums Ids Json Wire Integrity Core Server Database Log.
From S2P Require Import Watermark Concrete.
From stdpp Require Import options.

(** C10: Nothing ever appears under a watermark. Let any number of writers that keep the
    documented contract (the transaction that inserts holds [lock_for_write]) begin, insert,
    commit and roll back in any order with any number of readers, each on a connection of its
    own and meeting any faults. Once some reader's [safe_watermark] has answered [v], the rows
    at or below [v] are final: whatever happens later, none is added and none is lost, so a
    cursor moved up to [v] has skipped nothing. *)
Theorem watermark_hides_nothing s0 s1 s2 i k v :
  starting s0 → rtc (site_step true) s0 s1 → readers s1 !! i = Some (k, RDone (Ok v)) →
  rtc (site_step true) s1 s2 →
  ∀ l, ChangeRow.seq (LogRow.row l) ≤ v →
    (l ∈ sync_changes (committed (pg s1)) ↔ l ∈ sync_changes (committed (pg s2))).
Proof.
  intros Hstart Hrun1 Hi Hrun2 l Hl.
  destruct (site_run_sound _ _ (starting_inv _ Hstart) Hrun1) as [Hinv1 _].
  pose proof (Forall_lookup_1 _ _ _ _ (proj2 (proj2 Hinv1)) Hi) as [_ Hv]. simpl in Hv.
  destruct (site_run_sound _ _ Hinv1 Hrun2) as [_ [_ (added & Hadd & Hhigh)]].
  rewrite Hadd, elem_of_app. split; [by left|]. intros [?|Hin]; [done|].
  specialize (Hhigh v l Hv Hin). lia.
Qed.

(** C31: A reader always finishes, and says exactly what the lock lets it know. Whatever its
    statements meet, [safe_watermark] answers within its seven awaits, so a writer holding a
    long transaction never blocks it. When every statement works: if no other transaction
    holds the lock it records and answers the greater of the recorded watermark and the last
    [seq] handed out; otherwise it answers the recorded watermark and changes nothing. *)
Theorem safe_watermark_exact fs k p :
  (∃ a, (safe_watermark fs k p).2 = RDone a) ∧
  (txs p !! k = None →
   let t := committed p in
   let known := default 0 (sync_watermark t) in
   let excluded := if is_called t then last_value t else 0 in
   let v := match sync_watermark t with Some m => Z.max m excluded | None => excluded end in
   safe_watermark [] k p =
     if exclusive_free k p then
       (MkPg (MkTables (sync_changes t) (last_value t) (is_called t) (sync_command_results t)
                (sync_scope_blocks t) (Some v)) (txs p), RDone (Ok v))
     else (p, RDone (Ok known))).
Proof.
  split; [by apply run_reader_done|]. intros Hk t known excluded v.
  assert (Hfree : exclusive_free k (MkPg (committed p) (<[k := empty_tx]> (txs p))) = exclusive_free k p).
  { unfold exclusive_free. apply bool_decide_ext. simpl. rewrite map_Forall_insert by done. naive_solver. }
  unfold safe_watermark. cbn [run_reader hd tl advance_reader]. unfold begin_tx. rewrite Hk.
  unfold lock_exclusive. rewrite Hfree. cbn [txs committed]. rewrite lookup_insert_eq. cbn [uncommitted empty_tx writer_lock new_mark].
  destruct (exclusive_free k p) eqn:Hf.
  - cbn [advance_reader]. unfold upsert_watermark, mark_seen. cbn [txs committed].
    rewrite !lookup_insert_eq. cbn [mbind option_bind new_mark uncommitted writer_lock reader_lock].
    cbn [advance_reader]. unfold commit_tx, publish. cbn [txs committed]. rewrite lookup_insert_eq.
    cbn [new_mark uncommitted]. rewrite app_nil_r, !insert_insert_eq, delete_insert_id by done.
    unfold v, known, excluded, t. by destruct (sync_watermark (committed p)).
  - cbn [advance_reader]. unfold abort_tx. cbn [txs committed]. rewrite lookup_insert_eq.
    cbn [advance_reader]. unfold commit_tx, rollback_tx, publish, mark_seen. cbn [txs committed].
    rewrite !lookup_insert_eq. cbn [new_mark uncommitted empty_tx committed txs].
    rewrite app_nil_r, !insert_insert_eq, !delete_insert_id, delete_id by done.
    rewrite Hk. simpl. by destruct p as [[] ?].
Qed.

(** ** Two ways around the lock *)

Definition empty_tables : Tables := MkTables [] 1 false ∅ ∅ (Some 0).
Definition idle : Pg := MkPg empty_tables ∅.
Definition write (n : Z) : NewChange.t :=
  NewChange.mk "user:a" "note" "r1" "upsert" (Some (doc n)) n 1.
Definition row_at (n : Z) : LogRow.t := NewChange.at_seq n (write n).

(** A schedule, and the run it is. *)
Inductive Move : Type :=
| Begins (k : nat)
| Locks (k : nat)
| Inserts (k : nat) (c : NewChange.t)
| Commits (k : nat)
| Moves (i : nat).

Definition move (contract : bool) (m : Move) (s : Site) : option Site :=
  let own k := bool_decide (k ∉ (readers s).*1) in
  match m with
  | Begins k => if own k then Some (MkSite (begin_tx k (pg s)) (readers s)) else None
  | Locks k =>
      if own k then p ← lock_for_write k (pg s); Some (MkSite p (readers s)) else None
  | Inserts k c =>
      let locked := match txs (pg s) !! k with Some tx => writer_lock tx | None => false end in
      if own k && (negb contract || locked) then
        Some (MkSite (insert_change k c (pg s)).1 (readers s)) else None
  | Commits k => if own k then Some (MkSite (commit_tx k (pg s)) (readers s)) else None
  | Moves i =>
      '(k, r) ← readers s !! i;
      let '(p, r') := advance_reader Works k (pg s) r in Some (MkSite p (<[i := (k, r')]> (readers s)))
  end.

Fixpoint play (contract : bool) (ms : list Move) (s : Site) : Site :=
  match ms with
  | [] => s
  | m :: ms => match move contract m s with Some s' => play contract ms s' | None => s end
  end.

Lemma move_step contract m s s' : move contract m s = Some s' → site_step contract s s'.
Proof.
  destruct m as [k|k|k c|k|i]; simpl; intros Hm.
  - case_bool_decide; simplify_eq. by apply host_begins.
  - case_bool_decide; [|done]. destruct (lock_for_write k (pg s)) eqn:Hl; simplify_eq/=. by eapply host_locks.
  - destruct (bool_decide _ && _) eqn:Hg; [|done]. apply andb_true_iff in Hg as [Hk%bool_decide_eq_true Hg].
    destruct (insert_change k c (pg s)) as [p r] eqn:Hi. simplify_eq/=. eapply host_inserts; [done| |done].
    intros ->. simpl in Hg. destruct (txs (pg s) !! k) as [tx|]; [by exists tx|done].
  - case_bool_decide; simplify_eq. by apply host_commits.
  - destruct (readers s !! i) as [[k r]|] eqn:Hi; simpl in Hm; [|done].
    destruct (advance_reader Works k (pg s) r) as [p r'] eqn:Ha. simplify_eq. by eapply reader_moves.
Qed.

Lemma play_run contract ms s : rtc (site_step contract) s (play contract ms s).
Proof.
  revert s. induction ms as [|m ms IH]; intros s; simpl; [done|].
  destruct (move contract m s) as [s'|] eqn:Hm; [|done]. eapply rtc_l; [by eapply move_step|apply IH].
Qed.

(** What a pull of [user:a] from the start sees. *)
Definition seen (v : Z) (s : Site) : list Z :=
  ChangeRow.seq <$> window (log_of (committed (pg s)) "user:a") 0 v.

Definition two_readers (k1 k2 : nat) : Site := MkSite idle [(k1, RBegin); (k2, RBegin)].

(** Two requests share connection 0, as every request of credsyncd shares the one client. *)
Definition shared_before : Site :=
  play true [Moves 0; Moves 0; Moves 0; Moves 1; Moves 1; Moves 1; Moves 0; Moves 0;
             Begins 1; Locks 1; Inserts 1 (write 1); Begins 2; Locks 2; Inserts 2 (write 2); Commits 2;
             Moves 1; Moves 1] (two_readers 0 0).
Definition shared_after : Site := play true [Commits 1] shared_before.

(** A schedule in which requests that share a connection skip a change. [safe_watermark] brackets its
    work with BEGIN and COMMIT on the client it is given, so when two requests run on one
    connection the first's COMMIT ends the transaction, and releases the lock, that the second
    is relying on. Here both hosts keep the contract, and still the second reader answers 2
    and is shown change 2 while change 1 is in flight; change 1 then commits below the cursor
    the device has moved to. *)
Example shared_connection_skips :
  rtc (site_step true) (two_readers 0 0) shared_before ∧
  readers shared_before !! 1%nat = Some (0%nat, RDone (Ok 2)) ∧ seen 2 shared_before = [2] ∧
  rtc (site_step true) shared_before shared_after ∧ seen 2 shared_after = [1; 2].
Proof.
  split; [apply play_run|]. split; [vm_compute; reflexivity|]. split; [vm_compute; reflexivity|].
  split; [apply play_run|]. vm_compute; reflexivity.
Qed.

(** [append_change] called with no transaction open: its lock is gone before its INSERT. *)
Definition autocommit_before : Site :=
  play false [Locks 1; Inserts 1 (write 1); Locks 2; Inserts 2 (write 2); Commits 2;
              Moves 0; Moves 0; Moves 0; Moves 0; Moves 0] (two_readers 0 7).
Definition autocommit_after : Site := play false [Commits 1] autocommit_before.

(** [append_change] outside a transaction is not protected. Its lock is transaction
    scoped, so with no transaction open it is released when the locking statement ends and the
    INSERT that follows holds nothing. A reader can then answer 2 while change 1 is in flight,
    exactly the race the lock is there to close. *)
Theorem append_without_transaction_skips :
  append_change 1 (write 1) idle =
    Some (insert_change 1 (write 1) idle) ∧
  (∀ tx, txs (insert_change 1 (write 1) idle).1 !! 1%nat = Some tx → writer_lock tx = false) ∧
  rtc (site_step false) (two_readers 0 7) autocommit_before ∧
  readers autocommit_before !! 0%nat = Some (0%nat, RDone (Ok 2)) ∧ seen 2 autocommit_before = [2] ∧
  rtc (site_step false) autocommit_before autocommit_after ∧ seen 2 autocommit_after = [1; 2].
Proof.
  split; [reflexivity|]. split; [by vm_compute; intros tx [= <-]|]. split; [apply play_run|].
  split; [vm_compute; reflexivity|]. split; [vm_compute; reflexivity|].
  split; [apply play_run|]. vm_compute; reflexivity.
Qed.

(** ** Witnesses *)

Definition quiet_before : Site :=
  play true [Begins 1; Locks 1; Inserts 1 (write 1); Commits 1;
             Moves 0; Moves 0; Moves 0; Moves 0; Moves 0] (two_readers 0 7).
Definition quiet_after : Site := play true [Begins 1; Locks 1; Inserts 1 (write 2); Commits 1] quiet_before.

Lemma watermark_hides_nothing_witness :
  readers quiet_before !! 0%nat = Some (0%nat, RDone (Ok 1)) ∧ seen 9 quiet_after = [1; 2] ∧
  (row_at 1 ∈ sync_changes (committed (pg quiet_before)) ↔ row_at 1 ∈ sync_changes (committed (pg quiet_after))).
Proof.
  split; [vm_compute; reflexivity|]. split; [vm_compute; reflexivity|].
  apply (watermark_hides_nothing (two_readers 0 7) quiet_before quiet_after 0 0 1).
  - split; [done|]. split; [by apply (bool_decide_unpack _)|]. split; [by repeat constructor|].
    split; [by vm_compute|]. by intros v [= <-].
  - apply play_run.
  - vm_compute; reflexivity.
  - apply play_run.
  - by vm_compute.
Defined.

Lemma safe_watermark_exact_witness :
  safe_watermark [] 3 (pg quiet_after) =
    (MkPg (MkTables (sync_changes (committed (pg quiet_after))) 2 true ∅ ∅ (Some 2)) ∅, RDone (Ok 2)).
Proof.
  rewrite (proj2 (safe_watermark_exact [] 3 (pg quiet_after))) by (vm_compute; reflexivity).
  vm_compute; reflexivity.
Defined.
