(* ===== verification/DaemonClaims.v ===== *)
(** * DaemonClaims: who is served, and what a refusal gives away. *)

From S2P Require Import Prelude Errors Nums Ids Json Wire Integrity Core Server Database Log.
From S2P Require Import Watermark WatermarkClaims Auth Daemon Concrete.
From stdpp Require Import options.

Section claims.
Context `{Jwt Algorithm Key} `{Codec}.
Context {HeaderValue : Type} (to_str : HeaderValue → option string).

Lemma on_client_tables {A E} (m : step Client A E) c c' r :
  on_client m c = (c', r) →
  ∃ fs, m (MkClient (committed (db c)) (next_faults c)) = (MkClient (committed (db c')) fs, r) ∧
    number c' = number c ∧ txs (db c') = txs (db c).
Proof using Type*.
  unfold on_client. destruct (m _) as [cl r1]. intros [= <- <-]. exists (faults cl). by destruct cl.
Qed.

Lemma authorize_ok v auth scope c c' claims :
  authorize to_str v auth scope c = (c', Ok claims) →
  ∃ token, bearer to_str auth = Ok token ∧ Verifier.verify v token = Ok claims ∧
    scope ∈ Claims.scopes claims ∧
    sync_scope_blocks (committed (db c)) !! ScopeId.as_str scope = None ∧
    committed (db c') = committed (db c).
Proof using Type*.
  unfold authorize, st_bind, st_lift, st_ret.
  destruct (bearer to_str auth) as [token|e]; [|done]. destruct (Verifier.verify v token) as [cl|e] eqn:Hv; [|done].
  unfold Claims.authorize. destruct (Claims.claims_scope cl scope) eqn:Hs; [|done].
  destruct (on_client (check scope) c) as [c1 [[]|e]] eqn:Hc; [|done]. intros [= -> ->].
  apply on_client_tables in Hc as (fs & Hc & _ & _). apply check_ok in Hc as [Hb Ht]. simpl in *.
  exists token. split_and!; try done. by apply claims_scope_ok.
Qed.

Lemma page_rows scope cursor limit w (c c' : Client) (p : Page.t) :
  changes_after_watermark scope cursor limit w c = (c', Ok p) →
  ∃ rows, Forall2 (λ r ch, ChangeRow.into_change r = Ok ch) rows (Page.changes p) ∧
    Forall (λ r, r ∈ log_of (tables c') (ScopeId.as_str scope) ∧ cursor < ChangeRow.seq r ≤ w) rows.
Proof using Type*.
  unfold changes_after_watermark, st_bind, st_lift. destruct (i64_max <? cursor); [done|].
  destruct (sql _ c) as [c1 [rows|e]] eqn:Hs; [|done]. apply sql_ok in Hs.
  unfold select_changes, query in Hs. injection Hs as Ht Hr.
  unfold page_of. destruct (res_mapM _ _) as [cs|e] eqn:Hm; simpl; intros [= <- <-]; rewrite <- Ht.
  apply res_mapM_ok in Hm. eexists. split; [exact Hm|]. apply Forall_forall. intros r Hin.
  apply elem_of_take in Hin as (i & Hi & _). apply list_elem_of_lookup_2 in Hi. rewrite <- Hr in Hi.
  apply elem_of_take in Hi as (j & Hj & _). apply list_elem_of_lookup_2 in Hj. by apply elem_of_window in Hj.
Qed.

Lemma local_checks v auth scope c c' r :
  authorize to_str v auth scope c = (c', r) →
  (c' = c ∧ ∃ e, r = Err e ∧ (AuthError.is_expired e = true → ∃ token, bearer to_str auth = Ok token ∧ Verifier.verify v token = Err e)) ∨
  (committed (db c') = committed (db c) ∧ txs (db c') = txs (db c) ∧
   (∃ token claims, bearer to_str auth = Ok token ∧ Verifier.verify v token = Ok claims ∧ scope ∈ Claims.scopes claims) ∧
   ((∃ claims, r = Ok claims) ∨ r = Err (AuthError.ScopeBlocked (ScopeId.as_str scope)))).
Proof using Type*.
  unfold authorize, st_bind, st_lift, st_ret.
  destruct (bearer to_str auth) as [token|e] eqn:Hb.
  2:{ intros [= <- <-]. left. split; [done|]. exists e. split; [done|]. intros He. exfalso. revert Hb He.
      unfold bearer. destruct auth as [h|]; simpl; [|by intros [= <-]]. destruct (to_str h); simpl; [|by intros [= <-]].
      destruct (split_once _ ≫= _); simpl; [|by intros [= <-]].
      repeat (case_match; simpl; [by intros [= <-]|]). done. }
  destruct (Verifier.verify v token) as [cl|e] eqn:Hv; [|intros [= <- <-]; left; split; [done|]; by exists e; eauto].
  unfold Claims.authorize. destruct (Claims.claims_scope cl scope) eqn:Hs;
    [|intros [= <- <-]; left; split; [done|]; eexists; by split].
  destruct (on_client (check scope) c) as [c1 r1] eqn:Hc.
  pose proof Hc as Hc0. apply on_client_tables in Hc as (fs & Hc & _ & Ht). apply check_tables in Hc as Htab.
  apply claims_scope_ok in Hs. intros Hr. right.
  assert (c' = c1) as -> by (destruct r1; by simplify_eq). split_and!; [done|done|by exists token, cl|].
  unfold check in Hc. destruct (standing scope _) as [c2 [[|]|]]; injection Hc as _ <-; simplify_eq; [left|right..]; eauto.
Qed.

(** Only the granted are served. When [pull] answers with changes, the request carried a
    bearer token whose header named the one pinned algorithm and which the decoder accepted
    under this server's key, that algorithm alone, and a mandatory [exp]; the requested scope
    is one of the token's scopes, letter for letter; the blocklist was read and had no row for
    it; and every change in the answer is a row of that scope and no other, above the cursor
    asked for, whatever the client sent. *)
Theorem pull_serves_only_the_granted key alg leeway auth params c c' changes more :
  pull to_str (Verifier.new key alg leeway) auth params c = (c', Changes changes more) →
  ∃ scope token raw, ScopeId.new (PullParams.scope params) = Ok scope ∧ bearer to_str auth = Ok token ∧
    decode_header token = Ok alg ∧
    decode token key (Validation.mk alg [alg] leeway ["exp"] true false) = Ok raw ∧
    PullParams.scope params ∈ RawClaims.scopes raw ∧
    sync_scope_blocks (committed (db c)) !! PullParams.scope params = None ∧
    ∃ rows, Forall2 (λ r ch, ChangeRow.into_change r = Ok ch) rows changes ∧
      Forall (λ r, r ∈ log_of (committed (db c')) (PullParams.scope params) ∧
                   PullParams.cursor params < ChangeRow.seq r) rows.
Proof using Type*.
  unfold pull. destruct (ScopeId.new (PullParams.scope params)) as [scope|e] eqn:Hsc; [|done].
  destruct (authorize _ _ _ _ c) as [c1 [claims|e]] eqn:Ha; [|done].
  apply authorize_ok in Ha as (token & Hb & Hv & Hin & Hblk & Hc1).
  destruct (changes_after scope _ 500 c1) as [c2 [page|e]] eqn:Hp; [|done]. intros [= <- <- <-].
  apply verify_ok in Hv as (raw & Hh & Hd & _ & Hall & _).
  assert (Hname : ∀ s sc, ScopeId.new s = Ok sc → ScopeId.as_str sc = s).
  { intros s sc Hs. by apply bounded_string_new_ok in Hs as [-> _]. }
  exists scope, token, raw. split_and!; try done.
  - rewrite <- (Hname _ _ Hsc).
    apply list_elem_of_lookup_1 in Hin as [i Hi]. destruct (Forall2_lookup_r _ _ _ _ _ Hall Hi) as (s & Hs & Hn).
    rewrite (Hname _ _ Hn). by eapply list_elem_of_lookup_2.
  - by rewrite <- (Hname _ _ Hsc).
  - unfold changes_after, st_bind in Hp. destruct (watermark c1) as [c3 [w|e]]; [|done].
    apply on_client_tables in Hp as (fs & Hp & _). apply page_rows in Hp as (rows & H2 & Hrows).
    exists rows. split; [done|]. rewrite <- (Hname _ _ Hsc). eapply Forall_impl; [exact Hrows|]. simpl. naive_solver.
Qed.

(** A refusal says one of two things and costs nothing. Every refusal carries one of two
    fixed answers, and the expiry answer only when the decoder reported expiry; the database is
    never changed; until the scope, the bearer header, the token and its claims have all
    passed, no statement is even run; and when they have, a refusal means the scope is blocked
    or its standing could not be read. *)
Theorem pull_refusal_is_opaque (v : Verifier.t Algorithm Key) auth params c c' status msg :
  pull to_str v auth params c = (c', Refused status msg) →
  ((status = 403 ∧ msg = "Not authorized for this scope.") ∨
   (status = 401 ∧ msg = "This session has expired. Please sign in again." ∧
    ∃ token, bearer to_str auth = Ok token ∧ Verifier.verify v token = Err AuthError.Expired)) ∧
  committed (db c') = committed (db c) ∧ txs (db c') = txs (db c) ∧
  (c' = c ∨
   ∃ scope token claims, ScopeId.new (PullParams.scope params) = Ok scope ∧ bearer to_str auth = Ok token ∧
     Verifier.verify v token = Ok claims ∧ scope ∈ Claims.scopes claims ∧ status = 403).
Proof using Type*.
  unfold pull. destruct (ScopeId.new (PullParams.scope params)) as [scope|e] eqn:Hsc.
  2:{ intros [= <- <- <-]. split_and!; try done; by left. }
  destruct (authorize _ _ _ _ c) as [c1 r] eqn:Ha. apply local_checks in Ha. destruct r as [claims|e].
  { destruct (changes_after scope _ 500 c1) as [c2 [page|e]]; done. }
  intros [= <- <- <-]. destruct Ha as [[-> (e' & [= <-] & Hexp)]|(Hc & Ht & (token & claims & ? & ? & ?) & Hr)].
  - split_and!; try done; [|by left]. destruct e; simpl; try by left. right. split_and!; try done. by apply Hexp.
  - destruct Hr as [[? ?]|[= ->]]; [done|]. split_and!; try done; [by left|]. right.
    by exists scope, token, claims.
Qed.
End claims.
