(* ===== verification/ServerWitnesses.v ===== *)
(** * ServerWitnesses: each property of the server applied to a concrete log, token and
    request. *)

From S2P Require Import Prelude Errors Nums Ids Json Wire Integrity Core Storage SimStorage.
From S2P Require Import Server Database Log Replica LogClaims Watermark WatermarkClaims Auth Daemon.
From S2P Require Import DaemonClaims Concrete.
From stdpp Require Import options.


(** ** The log *)

Definition sample_window : list ChangeRow.t := window (log_of sample_tables "user:a") 0 11.

Lemma drain_delivers_all_witness :
  ∃ cs, drain 5 sample_tables scope_a Cursor.START 2 11 60 (SimCompressor.with_ratio 1) hex0 = Ok cs ∧
    length cs = 4%nat.
Proof.
  destruct (drain_delivers_all sample_tables scope_a Cursor.START 2 11 60 (SimCompressor.with_ratio 1) hex0)
    as (cs & Hrun & Hcs & _).
  - exact sample_sound.
  - lia.
  - done.
  - exists cs. split; [exact Hrun|]. apply Forall2_length in Hcs. rewrite <- Hcs. compute_now.
Defined.

Definition two_changes : list Change.t := [upsert 2 note row1 1; upsert 5 note row2 1].

Lemma fill_batch_exact_witness :
  ∃ dn rest encs b, fill_batch scope_a Cursor.START two_changes false 40 (SimCompressor.with_ratio 1) hex0 = Ok b ∧
    two_changes = dn ++ rest ∧ Batch.changes b = dn ∧ change_encs dn encs ∧
    Batch.checksum b = checksum_bytes (array_bytes encs) ∧
    (Batch.has_more b = true ↔ rest ≠ [] ∨ false = true) ∧
    Batch.next_cursor b =
      match last dn with Some c => Cursor.mk (Seq.get (Change.seq c)) | None => Cursor.START end ∧
    (two_changes ≠ [] → dn ≠ []) ∧
    ((length dn ≤ 1)%nat ∨ fits_budget (SimCompressor.with_ratio 1) 40 encs) ∧
    (∀ c rest', rest = c :: rest' →
       ∃ enc, to_vec c = Ok enc ∧ ¬ fits_budget (SimCompressor.with_ratio 1) 40 (encs ++ [enc])).
Proof.
  apply (fill_batch_exact scope_a Cursor.START two_changes false 40 (SimCompressor.with_ratio 1) hex0).
  - repeat constructor; eexists; compute_now.
  - repeat (constructor; [vm_compute; split; discriminate|]). constructor.
Defined.

(** A device bootstraps one row, the row it holds is deleted, and it bootstraps on. *)
Definition first_rows : list ChangeRow.t := [log_row 2 "r1" "upsert"; log_row 5 "r2" "upsert"].
Definition page1 : list ChangeRow.t := take 1 (compacted first_rows 0 5).
Definition page2 : list ChangeRow.t := take 1 (compacted sample_rows (next_of page1 0) 11).

Lemma bootstrap_joins_log_witness :
  (ChangeRow.seq <$> page1) = [2] ∧ (ChangeRow.seq <$> page2) = [5] ∧
  replay (window sample_rows (next_of page2 (next_of page1 0)) 11) (replay page2 (replay page1 ∅)) =
    replay (window sample_rows 0 11) ∅.
Proof.
  split; [compute_now|]. split; [compute_now|].
  apply (bootstrap_joins_log sample_rows 11 (next_of page2 (next_of page1 0)) (replay page2 (replay page1 ∅))).
  apply follows_bootstrap. apply (follows_grow first_rows 5).
  - apply follows_bootstrap. apply follows_start; [|by repeat constructor|lia].
    apply (bool_decide_unpack _). vm_compute. exact I.
  - apply (bool_decide_unpack _). vm_compute. exact I.
  - by repeat constructor.
  - lia.
  - intros r Hr. unfold first_rows, sample_rows. rewrite !elem_of_cons. split; [naive_solver|].
    intros [->|[->|[->|[->|Hn]]]]; [by left|by right; left|simpl in Hr; lia|simpl in Hr; lia|].
    by apply not_elem_of_nil in Hn.
Defined.

(** ** Tokens *)

Inductive Alg : Type := HS256 | RS256 | AlgNone.
#[export] Instance Alg_eq_dec : EqDecision Alg.
Proof. solve_decision. Defined.

(** A decoder that knows two tokens, one of them expired. *)
#[export] Instance two_tokens : Jwt Alg string := {
  alg_debug a := match a with HS256 => "HS256" | RS256 => "RS256" | AlgNone => "none" end;
  decode_header token := if String.eqb token "forged" then Ok AlgNone else Ok HS256;
  decode token key v :=
    if String.eqb token "good" then Ok (RawClaims.mk ["user:a"] 100 None)
    else if String.eqb token "old" then Err ExpiredSignature
    else Err InvalidSignature;
}.

Definition verifier : Verifier.t Alg string := Verifier.new "secret" HS256 60.
Definition server : Connection := MkConnection (MkPg sample_tables ∅) 0 [].
Definition ask (token scope : string) : Connection * Response :=
  pull Some verifier (Some ("Bearer " +:+ token)) (PullParams.mk scope 4) server.

Lemma pull_serves_only_the_granted_witness :
  ∃ scope token raw, ScopeId.new "user:a" = Ok scope ∧ bearer Some (Some "Bearer good") = Ok token ∧
    decode_header token = Ok HS256 ∧
    decode token "secret" (Validation.mk HS256 [HS256] 60 ["exp"] true false) = Ok raw ∧
    "user:a" ∈ RawClaims.scopes raw ∧ sync_scope_blocks sample_tables !! "user:a" = None ∧
    ∃ rows, Forall2 (λ r ch, ChangeRow.into_change r = Ok ch) rows
        (match (ask "good" "user:a").2 with Changes cs _ => cs | _ => [] end) ∧
      Forall (λ r, r ∈ log_of (committed (db (ask "good" "user:a").1)) "user:a" ∧ 4 < ChangeRow.seq r) rows.
Proof.
  apply (pull_serves_only_the_granted Some "secret" HS256 60 (Some "Bearer good") (PullParams.mk "user:a" 4)
    server (ask "good" "user:a").1 _ false).
  compute_now.
Defined.

Lemma pull_refusal_is_opaque_witness :
  (ask "forged" "user:a").2 = Refused 403 "Not authorized for this scope." ∧
  (ask "good" "inst:b").2 = Refused 403 "Not authorized for this scope." ∧
  committed (db (ask "old" "user:a").1) = committed (db server).
Proof.
  split; [compute_now|]. split; [compute_now|].
  refine (proj1 (proj2 (pull_refusal_is_opaque Some verifier (Some "Bearer old") (PullParams.mk "user:a" 4) server
    (ask "old" "user:a").1 401 "This session has expired. Please sign in again." _))).
  compute_now.
Defined.
