(* ===== verification/StartupClaims.v ===== *)
(** * StartupClaims: what a server that has started guards, and what it takes to start. *)

From S2P Require Import Prelude Errors Nums Ids Json Wire Integrity Core Server Schema Database Log.
From S2P Require Import Watermark Auth Daemon DaemonClaims Startup Concrete ServerWitnesses.
From stdpp Require Import options.

Section claims.
Context `{Jwt Algorithm Key} `{Codec}.
Context {HeaderValue : Type} (to_str : HeaderValue → option string).
Context (HS256 : Algorithm) (from_secret : list Z → Key).

Lemma main_ok var o events state :
  main HS256 from_secret var o = (events, Ok state) →
  ∃ url secret bind client session, config var = Ok (url, as_bytes secret, bind) ∧
    var "CREDSYNC_TOKEN_SECRET" = Ok secret ∧ (32 ≤ String.length secret)%nat ∧
    connect o url = Ok client ∧ migrate (pg_env client) (pg_session client) = (session, Ok ()) ∧
    listen o bind = Ok () ∧ state_db state = pg_connection client session ∧
    state_verifier state = Verifier.new (from_secret (as_bytes secret)) HS256 60.
Proof using Type*.
  unfold main. destruct (config var) as [[[url secret] bind]|e] eqn:Hc; [|done].
  pose proof (config_ok _ _ _ _ Hc) as (_ & (s & Hs & -> & Hl) & _).
  destruct (connect o url) as [client|] eqn:Hco; [|done].
  destruct (migrate _ _) as [session [[]|]] eqn:Hm; [|done].
  destruct (listen o bind) as [[]|] eqn:Hb; [|done]. intros [= _ <-].
  exists url, s, bind, client, session. by split_and!.
Qed.

(** C25: A running server serves only the granted. When a server has started and any of its
    routes answers with changes, the signing secret was configured and has at least 32 bytes,
    and the three scripts of the schema were applied before the port was opened; the request
    carried a bearer token whose header names HS256 and which the decoder accepted under that
    secret, that algorithm alone, one minute of leeway and a mandatory [exp]; the requested
    scope is one of the token's scopes, letter for letter; the blocklist was read and had no
    row for it; and every change in the answer is a row of that scope and no other, above the
    cursor asked for. *)
Theorem started_server_guards var o events state path handler req c c' changes more :
  main HS256 from_secret var o = (events, Ok state) →
  (path, handler) ∈ app to_str state → handler req c = (c', Answer (Changes changes more)) →
  ∃ secret url client session before scope token raw,
    var "CREDSYNC_TOKEN_SECRET" = Ok secret ∧ (32 ≤ String.length secret)%nat ∧
    connect o url = Ok client ∧ migrate (pg_env client) (pg_session client) = (session, Ok ()) ∧
    applied session = applied (pg_session client) ++ before ++ all_scripts ∧
    state_db state = pg_connection client session ∧
    ScopeId.new (PullParams.scope (query req)) = Ok scope ∧ bearer to_str (authorization req) = Ok token ∧
    decode_header token = Ok HS256 ∧
    decode token (from_secret (as_bytes secret)) (Validation.mk HS256 [HS256] 60 ["exp"] true false) = Ok raw ∧
    PullParams.scope (query req) ∈ RawClaims.scopes raw ∧
    sync_scope_blocks (committed (db c)) !! PullParams.scope (query req) = None ∧
    ∃ rows, Forall2 (λ r ch, ChangeRow.into_change r = Ok ch) rows changes ∧
      Forall (λ r, r ∈ log_of (committed (db c')) (PullParams.scope (query req)) ∧
                   PullParams.cursor (query req) < ChangeRow.seq r) rows.
Proof using Type*.
  intros Hmain Hroute Hreq.
  apply main_ok in Hmain as (url & secret & bind & client & session & _ & Hs & Hl & Hco & Hm & _ & Hdb & Hv).
  pose proof Hm as Happ. apply migrate_from_facts in Happ as (_ & _ & _ & Happ & _); [|done].
  destruct (Happ eq_refl) as [before Hb]. unfold app in Hroute. rewrite !elem_of_cons in Hroute.
  destruct Hroute as [[= -> ->]|[[= -> ->]|?%not_elem_of_nil]]; [done| |done].
  unfold get_pull in Hreq. destruct (pull _ _ _ _ c) as [c1 r] eqn:Hp. injection Hreq as -> ->. rewrite Hv in Hp.
  apply pull_serves_only_the_granted in Hp as (scope & token & raw & Hrest).
  exists secret, url, client, session, before, scope, token, raw. do 6 (split; [done|]). exact Hrest.
Qed.

(** Without a complete configuration nothing is touched: no connection is attempted, and the
    one line printed names the variable at fault. *)
Theorem incomplete_config_touches_nothing var o :
  (∀ url secret bind, config var ≠ Ok (url, secret, bind)) →
  ∃ e, main HS256 from_secret var o = ([Eprintln ("credsyncd: " +:+ e)], Err e) ∧
    ((e = "CREDSYNC_DATABASE_URL is not set" ∧ ∃ why, var "CREDSYNC_DATABASE_URL" = Err why) ∨
     (e = "CREDSYNC_TOKEN_SECRET is not set" ∧ ∃ why, var "CREDSYNC_TOKEN_SECRET" = Err why) ∨
     (e = "CREDSYNC_TOKEN_SECRET must be at least 32 bytes" ∧
      ∃ s, var "CREDSYNC_TOKEN_SECRET" = Ok s ∧ (String.length s < 32)%nat)).
Proof using Type*.
  intros Hno. unfold main. destruct (config var) as [[[url secret] bind]|e] eqn:Hc; [by destruct (Hno url secret bind)|].
  exists e. split; [done|]. clear Hno. unfold config in Hc.
  destruct (var "CREDSYNC_DATABASE_URL") as [u|why]; simpl in Hc; [|injection Hc as <-; left; eauto].
  destruct (var "CREDSYNC_TOKEN_SECRET") as [s|why]; simpl in Hc; [|injection Hc as <-; right; left; eauto].
  destruct (Nat.ltb_spec (String.length s) 32); [injection Hc as <-; right; right; eauto|done].
Qed.
End claims.

(** ** A server that starts *)

Definition environment (name : string) : result string VarError :=
  if String.eqb name "CREDSYNC_DATABASE_URL" then Ok "postgres://localhost/credsync"
  else if String.eqb name "CREDSYNC_TOKEN_SECRET" then Ok "0123456789abcdef0123456789abcdef"
  else Err NotPresent.
Definition machine : Outside := MkOutside
  (λ _, Ok (MkPgClient (MkEnv (λ _ _, Succeeds) (λ _, true)) (MkSession None 0 [] 0 0) (λ _, server)))
  (λ _, Ok ()).
Definition secret_text (bs : list Z) : string := if (length bs <? 32)%nat then "" else "secret".
Definition running : AppState Alg string :=
  MkAppState server (Verifier.new "secret" HS256 60).

Lemma started_server_guards_witness :
  (main HS256 secret_text environment machine).1 =
    [Connects "postgres://localhost/credsync"; Migrates; Binds "127.0.0.1:8080"; Eprintln "credsyncd listening on 127.0.0.1:8080"] ∧
  ∃ secret url client session before scope token raw,
    environment "CREDSYNC_TOKEN_SECRET" = Ok secret ∧ (32 ≤ String.length secret)%nat ∧
    connect machine url = Ok client ∧ migrate (pg_env client) (pg_session client) = (session, Ok ()) ∧
    applied session = applied (pg_session client) ++ before ++ all_scripts ∧
    state_db running = pg_connection client session ∧
    ScopeId.new "user:a" = Ok scope ∧ bearer Some (Some "Bearer good") = Ok token ∧
    decode_header token = Ok HS256 ∧
    decode token (secret_text (as_bytes secret)) (Validation.mk HS256 [HS256] 60 ["exp"] true false) = Ok raw ∧
    "user:a" ∈ RawClaims.scopes raw ∧ sync_scope_blocks sample_tables !! "user:a" = None ∧
    ∃ rows, Forall2 (λ r ch, ChangeRow.into_change r = Ok ch) rows
        (match (ask "good" "user:a").2 with Changes cs _ => cs | _ => [] end) ∧
      Forall (λ r, r ∈ log_of (committed (db (ask "good" "user:a").1)) "user:a" ∧ 4 < ChangeRow.seq r) rows.
Proof.
  split; [compute_now|].
  apply (started_server_guards Some HS256 secret_text environment machine
    (main HS256 secret_text environment machine).1 running "/v1/pull" (get_pull Some running)
    (MkRequest (Some "Bearer good") (PullParams.mk "user:a" 4)) server _ _ false).
  - compute_now.
  - by right; left.
  - compute_now.
Defined.
