(* ===== verification/SchemaClaims.v ===== *)
(** * SchemaClaims: the schema migration ends, cleans up after itself, and outlasts a
    neighbour that holds its lock. *)

From S2P Require Import Prelude Errors Server Schema Concrete.
From stdpp Require Import options.

(** C40: A migration is bounded and clean. Against any database, faults included, [migrate]
    issues at most seventy statements and sleeps at most 5.5 s; it applies scripts and never
    takes one back; when it answers success the last three scripts it applied are the three of
    the schema, in order. It never gives up a hold on the migration lock it did not take, and
    leaves at most one behind an attempt, ten in all; it leaves none where every unlock it sends
    takes effect and a try-lock reported as failed did not take the lock. And on a database that
    works, where the lock is held elsewhere for fewer than ten attempts, it succeeds. *)
Theorem migration_bounded env s s' r :
  migrate env s = (s', r) →
  (issued s' ≤ issued s + 70)%nat ∧ slept_ms s ≤ slept_ms s' ≤ slept_ms s + 5500 ∧
  (∃ some, applied s' = applied s ++ some) ∧
  (r = Ok () → ∃ some, applied s' = applied s ++ some ++ all_scripts) ∧
  (held s ≤ held s' ≤ held s + 10)%nat ∧ (lock_settles env → held s' = held s) ∧
  ((∀ n st, outcome env n st = Succeeds) →
   (∃ k, (k < 10)%nat ∧ lock_free env (issued s + 3 * k + 1) = true) → r = Ok ()).
Proof.
  intros Hm. pose proof Hm as Hw. unfold migrate in Hm. apply migrate_from_facts in Hm as (Hi & Hs & Hp & Hd & Hr & Hh); [|done].
  change MIGRATION_ATTEMPTS with 10%nat in *. split_and!; try done; try lia.
  intros Hok (k & Hk & Hf). unfold migrate in Hw. pose proof (migrate_from_waits env MIGRATION_ATTEMPTS 0 None s k Hok Hk Hf) as Hq.
  by rewrite Hw in Hq.
Qed.

(** The lock is held by another server for the first two attempts. *)
Definition contended_twice : Env := MkEnv (λ _ _, Succeeds) (λ n, (6 <? n)%nat).
Definition fresh : Session := MkSession None 0 [] 0 0.
Definition contended_run : Session := (migrate contended_twice fresh).1.

Lemma migration_bounded_witness :
  slept_ms contended_run = 300 ∧ issued contended_run = 13%nat ∧ applied contended_run = all_scripts ∧
  lock_timeout contended_run = None ∧ held contended_run = 0%nat ∧
  (migrate contended_twice fresh).2 = Ok ().
Proof.
  split; [compute_now|]. split; [compute_now|]. split; [compute_now|]. split; [compute_now|].
  destruct (migration_bounded contended_twice fresh contended_run (Ok ())) as (_ & _ & _ & _ & _ & Hh & _); [compute_now|].
  split; [|compute_now]. rewrite Hh; [done|]. intros n e. by split.
Defined.
