(* ===== verification/RngClaims.v ===== *)
(** * RngClaims: the simulator's generator ends, stays in range and is unbiased; the faults it
    decides cost it the same draws whatever they turn out to be. *)

From S2P Require Import Prelude Rng FaultMenu Pressure.
From stdpp Require Import options.

(** Rejection sampling ends and is fair. From any state and for any non-zero bound of 32
    bits, [below] answers within one period (2^64 draws): it discards exactly the draws under
    the threshold that come first, answers the first other draw modulo the bound, and leaves
    the generator just past that draw; the answer is below the bound; and every answer has the
    same number of accepted words behind it, 2^32 / n, so none is favoured. *)
Theorem below_fair rng n :
  RngFacts.wf rng → 0 < n < u32_mod →
  (∃ k, Z.of_nat k < u64_mod ∧
    let draw j := Rng.permute (Nat.iter j Rng.advance (Rng.state rng)) in
    (∀ j, (j < k)%nat → draw j < Rng.threshold n) ∧ Rng.threshold n ≤ draw k ∧
    Rng.below rng n = (Rng.mk (Nat.iter (S k) Rng.advance (Rng.state rng)) (Rng.seed rng), draw k mod n)) ∧
  0 ≤ (Rng.below rng n).2 < n ∧
  (∀ r, 0 ≤ r < n → ∃ first, ∀ v,
    (Rng.threshold n ≤ v < u32_mod ∧ v mod n = r) ↔ ∃ i, 0 ≤ i < u32_mod / n ∧ v = first + n * i).
Proof.
  intros Hw Hn. split_and!.
  - by apply RngFacts.below_draws.
  - by apply RngFacts.below_range.
  - by apply RngFacts.below_range.
  - intros r Hr. by apply RngFacts.accepted_even.
Qed.

(** From seed 1 the first draw for this bound is rejected: the answer is the second. *)
Definition rejecting_bound : Z := 2 ^ 31 + 1.
Definition seed_one : Rng.t := Rng.new 1.

Lemma below_fair_witness :
  RngFacts.wf seed_one ∧ 0 < rejecting_bound < u32_mod ∧ 0 ≤ (Rng.below seed_one rejecting_bound).2 < rejecting_bound.
Proof.
  split; [apply RngFacts.new_wf|]. split; [by vm_compute|].
  apply (below_fair seed_one rejecting_bound); [apply RngFacts.new_wf|by vm_compute].
Defined.

(** What moves a server's load. *)
Inductive pressure_step : Pressure.t → Pressure.t → Prop :=
| step_overload p rng : RngFacts.wf rng → pressure_step p (Pressure.overload p rng).1
| step_tick p : pressure_step p (Pressure.tick p)
| step_accept p offered : 0 ≤ offered → pressure_step p (Pressure.accept_count p offered).1.

(** A loaded server slows down and never stops. Through any sequence of overloads and
    ticks from a fresh server: the byte budget stays between its floor and the normal budget,
    a push that offers anything has at least one command looked at and never more than it
    offered, the commands not looked at are counted one for one, nothing divides by zero, and
    an episode is over after thirty ticks. *)
Theorem pressure_never_stops p offered :
  rtc pressure_step Pressure.new p → 0 < offered →
  MIN_BUDGET_BYTES ≤ Pressure.budget_bytes p ≤ SIM_BUDGET_BYTES ∧
  1 ≤ (Pressure.accept_count p offered).2 ≤ offered ∧
  Pressure.deferred_commands (Pressure.accept_count p offered).1 + (Pressure.accept_count p offered).2 =
    Pressure.deferred_commands p + offered ∧
  Pressure.severity p ≠ 0 ∧
  Pressure.load (Nat.iter 30 Pressure.tick p) = Normal.
Proof.
  intros Hr Ho. assert (PressureFacts.wf p) as Hw.
  { revert p Hr. apply rtc_ind_r; [apply PressureFacts.pressure_new_wf|]. intros p q _ Hs Hw. destruct Hs.
    - by apply PressureFacts.overload_wf.
    - by apply PressureFacts.tick_wf.
    - by apply PressureFacts.accept_wf. }
  split; [by apply PressureFacts.budget_range|]. split; [by apply PressureFacts.accept_range|].
  split; [by apply PressureFacts.accept_range|]. split; [destruct Hw; lia|]. by apply PressureFacts.tick_ends.
Qed.

Definition overloaded : Pressure.t := (Pressure.overload Pressure.new (Rng.new 1)).1.

Lemma pressure_never_stops_witness :
  Pressure.is_shedding overloaded = true ∧
  MIN_BUDGET_BYTES ≤ Pressure.budget_bytes overloaded ≤ SIM_BUDGET_BYTES ∧
  1 ≤ (Pressure.accept_count overloaded 50).2 ≤ 50.
Proof.
  split; [compute_now|].
  destruct (pressure_never_stops overloaded 50) as (Hb & Ha & _); [|done|by split].
  apply rtc_once. apply step_overload. apply RngFacts.new_wf.
Defined.
