(* ===== verification/SimClaims.v ===== *)
(** * SimClaims: the simulated server loses nothing, settles, and answers a command once. *)

From S2P Require Import Prelude Errors Nums Ids Json Wire Integrity Storage Apply.
From S2P Require Import Server Dedupe Rng SimServer SimServerFacts SimReads SimFeed SimCommands Concrete.
From stdpp Require Import options.

(** ** Settling *)

Section settle.
Context `{Hashes} `{Codec}.

Lemma commits_stand k scope s c m :
  stands scope (MkFeed s c m) → stands scope (MkFeed (Nat.iter k advance_commits s) c m).
Proof using All.
  intros Hst. apply (feed_run_stands scope (MkFeed s c m)); [|done]. induction k as [|k IH]; [done|].
  rewrite Nat.iter_succ. eapply rtc_r; [done|]. apply feed_serves; [apply step_commits|..];
    pose proof (feed_run_stands scope _ _ IH Hst) as [Hw Hfit Hg _ _ _]; simpl in *;
    destruct (advance_commits_facts (Nat.iter k advance_commits s)) as (_ & _ & _ & _ & _ & Hn & _).
  - rewrite <- Hg. unfold advance_commits. by destruct (fold_left _ _ _).
  - unfold seqs_fit. by rewrite Hn.
Qed.

Definition pull_again (limit : nat) (budget : N) (scope : ScopeId.t) (f : Feed) : Feed :=
  take_batch (feed_server f) limit budget scope (feed_cursor f) (feed_rows f).

Lemma pulls_drain `{!CodecArrays} n limit budget scope f :
  (∀ c : Change.t, encodable c) → (0 < limit)%nat → stands scope f → in_flight (feed_server f) = [] →
  (length (filter (λ e, (Cursor.get (feed_cursor f) < seq_of e)%Z) (entries (feed_server f) scope)) ≤ n)%nat →
  let f' := Nat.iter n (pull_again limit budget scope) f in
  feed_server f' = feed_server f ∧ stands scope f' ∧
  upto (feed_server f) scope (Cursor.get (feed_cursor f')) = entries (feed_server f) scope.
Proof.
  intros Henc Hlim. revert f. induction n as [|n IH]; intros f Hst Hf Hn; cbv zeta.
  - split_and!; [done|done|]. destruct Hst as [Hw _ _ _ _ _]. apply filter_all. apply Forall_forall. intros e He.
    destruct (Z.le_gt_cases (seq_of e) (Cursor.get (feed_cursor f))); [done|].
    apply Nat.le_0_r, nil_length_inv in Hn. assert (e ∈ ([] : list LogEntry.t)) as Hin by (rewrite <- Hn; by apply list_elem_of_filter).
    by apply not_elem_of_nil in Hin.
  - rewrite Nat.iter_succ_r. destruct f as [s c m]. cbn [feed_server feed_cursor feed_rows] in *.
    pose proof (pull_stands scope s limit budget c m Hst) as Hst'.
    destruct (IH (pull_again limit budget scope (MkFeed s c m)) Hst' Hf) as (G1 & G2 & G3); [|by split_and!].
    cbn. destruct Hst as [Hw Hfit Hg [Hc Hlt] _ _]. cbn [feed_server feed_cursor feed_rows] in *.
    set (c' := Batch.next_cursor _). pose proof (settled_visible s scope Hw Hf) as Hall. rewrite Forall_forall in Hall.
    destruct (filter (λ e, Cursor.get c < seq_of e) (entries s scope)) as [|x rest] eqn:E.
    + assert (Cursor.get c ≤ Cursor.get c') as Hle by apply (guarded_pull s limit budget scope c Hw Hfit Hg Hc).
      rewrite filter_none; [simpl; lia|]. apply Forall_forall. intros e He Hlt'.
      assert (e ∈ ([] : list LogEntry.t)) as Hin by (rewrite <- E; apply list_elem_of_filter; split; [lia|done]).
      by apply not_elem_of_nil in Hin.
    + assert (x ∈ filter (λ e, Cursor.get c < seq_of e) (entries s scope)) as [Hx Hxin]%list_elem_of_filter by (rewrite E; by left).
      assert (Cursor.get c < Cursor.get c') as Hmove.
      { apply guarded_pull_moves; auto; [by apply Forall_forall; auto|]. specialize (Hall x Hxin). simpl in Hall. lia. }
      destruct (guarded_pull s limit budget scope c Hw Hfit Hg Hc) as (_ & _ & _ & _ & [Heq|(y & Hy & Hyc)]);
        fold c' in Heq || fold c' in Hyc; [rewrite Heq in Hmove; lia|].
      assert (filter (λ e, Cursor.get c' < seq_of e) (entries s scope) = filter (λ e, Cursor.get c' < seq_of e) (x :: rest)) as ->.
      { rewrite <- E, list_filter_filter. apply list_filter_iff. intros e. lia. }
      enough (length (filter (λ e, (Cursor.get c' < seq_of e)%Z) (x :: rest)) < length (x :: rest))%nat by (simpl in *; lia).
      apply (length_filter_lt _ _ y); [|lia]. rewrite <- E. apply list_elem_of_filter. split; [lia|done].
Qed.
End settle.

(** ** Claims *)

(** C4: Nothing is skipped. A device that starts empty and takes batches from the simulated
    server, of any size and at any moment, while the server takes commands, writes and deletes
    rows, holds transactions open and commits them out of order, always holds exactly what the
    log says at its cursor, and no write under its cursor is still uncommitted, as long as the
    commit-order guard is on. Where nothing was deleted that is what [row_version_at] answers
    row by row, and a device at the visible head agrees with the server's digest. *)
Theorem guarded_pulls_lose_nothing `{Hashes} `{Codec} scope s c m :
  rtc (feed_step scope) (MkFeed new Cursor.START ∅) (MkFeed s c m) →
  m = replayed (upto s scope (Cursor.get c)) ∧
  Forall (λ e, LogEntry.visible e = true) (upto s scope (Cursor.get c)) ∧
  (no_deletes (upto s scope (Cursor.get c)) →
   (∀ e i, row_version_at s scope e i (Cursor.get c) = m !! (e, i)) ∧
   (Cursor.get c = visible_head s scope → digest s scope = map_digest m)).
Proof.
  intros Hr. apply feed_run_stands in Hr as [Hw _ _ _ Hclean Hrows]; [|apply stands_start]. simpl in *.
  split_and!; [done..|]. intros Hd. rewrite Hrows, (replayed_counted _ Hd). split.
  - intros e i. by apply row_version_at_spec.
  - intros Heq. rewrite digest_spec by done. by rewrite Heq.
Qed.

(** C21: A quiet server is drained. From wherever a device and the simulated server stand, once
    writes stop, as many commit turns as the longest wait leave no write in flight, and then as
    many pulls as the scope has entries leave the device holding everything the log says,
    whatever the page limit, if it is not zero, and the byte limit. (The codec encodes every
    change.) *)
Theorem quiet_server_drains `{Hashes} `{Codec} `{!CodecArrays} scope s c m k limit budget :
  rtc (feed_step scope) (MkFeed new Cursor.START ∅) (MkFeed s c m) →
  (∀ x : Change.t, encodable x) → (0 < limit)%nat →
  Forall (λ w : nat * Z, w.2 ≤ Z.of_nat k) (in_flight s) →
  let quiet := Nat.iter k advance_commits s in
  let done := Nat.iter (length (entries quiet scope)) (pull_again limit budget scope) (MkFeed quiet c m) in
  in_flight quiet = [] ∧ feed_server done = quiet ∧ feed_rows done = replayed (entries quiet scope) ∧
  LogEntry.change <$> entries quiet scope = LogEntry.change <$> entries s scope.
Proof.
  intros Hr Henc Hlim Hk. cbv zeta. apply feed_run_stands in Hr; [|apply stands_start].
  pose proof (stands_wf _ _ Hr) as Hw. simpl in Hw.
  assert (in_flight (Nat.iter k advance_commits s) = []) as Hq.
  { apply commits_drain; [done|]. eapply Forall_impl; [exact (wf_flight s Hw)|]. by intros w [_ ?]. }
  pose proof (commits_stand k scope s c m Hr) as Hst.
  destruct (pulls_drain (length (entries (Nat.iter k advance_commits s) scope)) limit budget scope
    (MkFeed (Nat.iter k advance_commits s) c m) Henc Hlim Hst Hq (length_filter _ _)) as (Hs & Hst' & Hu).
  split_and!; [done|done| |].
  - rewrite (stands_rows _ _ Hst'), Hs. by rewrite Hu.
  - clear -Hw. induction k as [|k IH]; [done|]. rewrite Nat.iter_succ, <- IH. apply shown_changes, shown_entries;
      apply (advance_commits_facts (Nat.iter k advance_commits s)).
Qed.

(** A bootstrap is a replay. The compaction a bootstrap chooses its page from, one change
    per row and tombstones only for a device that holds something, brings a device that holds
    what the log says at [after] to what the log says at the visible head; from zero it builds
    that from nothing. *)
Theorem bootstrap_compacts scope s after :
  server_wf s → commit_order_guard s = true → 0 ≤ after ≤ visible_head s scope →
  rows_effect (bootstrap_candidates s scope after) (replayed (upto s scope after)) =
    replayed (upto s scope (visible_head s scope)) ∧
  NoDup (change_key <$> bootstrap_candidates s scope after) ∧
  (after = 0 → rows_effect (bootstrap_candidates s scope 0) ∅ = replayed (upto s scope (visible_head s scope))).
Proof.
  intros Hw Hg Ha. split_and!; [by apply compaction_joins|by apply candidates_distinct|]. intros ->.
  rewrite <- (compaction_joins s scope Hw Hg 0 Ha). by rewrite upto_below.
Qed.

(** A push is answered once. The first [n] commands of a push are answered, in order, each
    under its own id, and the rest leave no trace in the server's records; sending the same
    push again, whatever the generator has become, changes nothing on the server, draws
    nothing, and gets the same answers. *)
Theorem sim_push_once `{Hashes} `{Codec} req n s rng s' rng' resp :
  Forall (λ c, is_ok (payload_checksum (Command.payload c)) = true) (PushRequest.commands req) →
  NoDup (Command.id <$> PushRequest.commands req) → records_own s →
  push_prefix req n s rng = (s', rng', resp) →
  CommandResult.id <$> PushResponse.results resp = Command.id <$> take n (PushRequest.commands req) ∧
  Forall (λ c, has_answered s' (Command.id c) = true) (take n (PushRequest.commands req)) ∧
  (∀ id, id ∉ Command.id <$> take n (PushRequest.commands req) → dedupe s' !! id = dedupe s !! id) ∧
  ∀ rng2, push_prefix req n s' rng2 = (s', rng2, resp).
Proof.
  intros Hcs Hnd Ho. unfold push_prefix. destruct (push_results _ s rng) as [[s1 rng1] rs] eqn:Hp. intros [= <- <- <-].
  assert (Hndt : NoDup (Command.id <$> take n (PushRequest.commands req))).
  { rewrite <- (take_drop n (PushRequest.commands req)), fmap_app in Hnd. by apply NoDup_app in Hnd as [? _]. }
  destruct (push_results_facts _ _ _ _ _ _ (Forall_take _ n _ Hcs) Hndt Hp) as (Hall & Hother & Hids).
  split_and!; [by apply Hids| |done|].
  - apply Forall_forall. intros c Hc. apply list_elem_of_lookup_1 in Hc as [i Hi].
    destruct (Forall2_lookup_l _ _ _ _ _ Hall Hi) as (r & _ & cs & _ & Hd). unfold has_answered. by rewrite Hd, bool_decide_eq_true.
  - intros rng2. by rewrite (push_results_replay _ _ _ _ Hall).
Qed.

(** ** Witnesses *)

(** Two writes of one scope, the first held open for two turns, so the second is committed
    before it. *)
Definition write_r1 (s : Server) : Server := external_change_to scope_a note "r1" s.
Definition write_r2 (s : Server) : Server := external_change_to scope_a note "r2" s.
Definition out_of_order : Server := write_r2 (write_r1 (hold_next_write 2 new)).
Definition committed : Server := advance_commits (advance_commits out_of_order).
Definition empty_device : Feed := MkFeed new Cursor.START ∅.

Lemma serves_written scope c m s s' :
  server_step s s' → commit_order_guard s' = true → seqs_fit s' → rtc (feed_step scope) (MkFeed s c m) (MkFeed s' c m).
Proof. intros. by apply rtc_once, feed_serves. Qed.

Lemma out_of_order_reached : rtc (feed_step scope_a) empty_device (MkFeed out_of_order Cursor.START ∅).
Proof.
  transitivity (MkFeed (hold_next_write 2 new) Cursor.START ∅); [by apply serves_written; [apply step_hold|..]|].
  transitivity (MkFeed (write_r1 (hold_next_write 2 new)) Cursor.START ∅); [by apply serves_written; [apply step_change_to|..]|].
  by apply serves_written; [apply step_change_to|..].
Qed.

Definition fed : Feed := take_batch committed 10 1000 scope_a Cursor.START ∅.
Lemma fed_reached : rtc (feed_step scope_a) empty_device (MkFeed committed (feed_cursor fed) (feed_rows fed)).
Proof.
  transitivity (MkFeed out_of_order Cursor.START ∅); [apply out_of_order_reached|].
  transitivity (MkFeed (advance_commits out_of_order) Cursor.START ∅); [by apply serves_written; [apply step_commits|..]|].
  transitivity (MkFeed committed Cursor.START ∅); [by apply serves_written; [apply step_commits|..]|].
  apply rtc_once. apply (feed_pulls scope_a committed 10 1000 Cursor.START ∅).
Qed.

(** While the first write is open a guarded pull hands over nothing; once it commits, both. *)
Lemma guarded_pulls_lose_nothing_witness :
  feed_cursor (take_batch out_of_order 10 1000 scope_a Cursor.START ∅) = Cursor.START ∧
  feed_cursor fed = Cursor.mk 2 ∧ size (feed_rows fed) = 2%nat ∧ digest committed scope_a = map_digest (feed_rows fed).
Proof.
  split; [compute_now|]. split; [compute_now|]. split; [compute_now|].
  destruct (guarded_pulls_lose_nothing scope_a committed (feed_cursor fed) (feed_rows fed) fed_reached) as (_ & _ & Hd).
  apply Hd; [|compute_now]. unfold no_deletes. vm_compute. by repeat constructor.
Defined.

Lemma waits_two : Forall (λ w : nat * Z, w.2 ≤ Z.of_nat 2) (in_flight out_of_order).
Proof. vm_compute. by repeat constructor. Qed.

Lemma quiet_server_drains_witness :
  let quiet := Nat.iter 2 advance_commits out_of_order in
  feed_rows (Nat.iter (length (entries quiet scope_a)) (pull_again 1 1 scope_a) (MkFeed quiet Cursor.START ∅)) =
    replayed (entries quiet scope_a) ∧ length (entries quiet scope_a) = 2%nat.
Proof.
  cbv zeta. split; [|compute_now].
  exact (proj1 (proj2 (proj2 (quiet_server_drains scope_a out_of_order Cursor.START ∅ 2 1 1 out_of_order_reached
    encodable_all Nat.lt_0_1 waits_two)))).
Defined.

(** The row is written, written again and deleted, and another is written. *)
Definition rewritten : Server := write_r2 (external_delete scope_a note "r1" (write_r1 (write_r1 new))).
Lemma rewritten_wf : server_wf rewritten.
Proof. do 2 apply external_change_to_wf || apply external_delete_wf. do 2 apply external_change_to_wf. apply new_server_wf. Qed.

Lemma bootstrap_compacts_witness :
  Change.seq <$> bootstrap_candidates rewritten scope_a 0 = [Seq.mk 4] ∧
  Change.seq <$> bootstrap_candidates rewritten scope_a 2 = [Seq.mk 3; Seq.mk 4] ∧
  rows_effect (bootstrap_candidates rewritten scope_a 2) (replayed (upto rewritten scope_a 2)) =
    replayed (upto rewritten scope_a (visible_head rewritten scope_a)).
Proof.
  split; [compute_now|]. split; [compute_now|].
  apply bootstrap_compacts; [apply rewritten_wf|compute_now|by vm_compute].
Defined.

Definition classroom : Server := register_command "save_note" note scope_a new.
Definition homework : PushRequest.t := PushRequest.mk (ProtocolVersion.mk 1) [save_note 1; save_note 2; save_note 3].

Lemma sim_push_once_witness :
  let '(s, rng, resp) := push_prefix homework 2 classroom (Rng.new 7) in
  CommandResult.id <$> PushResponse.results resp = [id_of 1; id_of 2] ∧ has_answered s (id_of 3) = false ∧
  push_prefix homework 2 s (Rng.new 8) = (s, Rng.new 8, resp).
Proof.
  destruct (push_prefix homework 2 classroom (Rng.new 7)) as [[s rng] resp] eqn:Hp.
  destruct (sim_push_once homework 2 classroom (Rng.new 7) s rng resp) as (Hids & _ & Hother & Hagain);
    [vm_compute; by repeat constructor|apply (bool_decide_unpack _); by vm_compute|done|done|].
  split; [exact Hids|]. split; [|apply Hagain]. unfold has_answered. rewrite Hother; [done|].
  apply (bool_decide_unpack _). by vm_compute.
Defined.

(** ** Where the simulated server does less than it says *)

(** A run in which a device without the guard skips a change for good. The second write is committed
    before the first; an unguarded pull hands it over and moves the cursor past the first,
    and when the first commits no pull from there will ever offer it. *)
Theorem unguarded_pull_skips :
  let open := set_commit_order_guard false out_of_order in
  let f := take_batch open 10 1000 scope_a Cursor.START ∅ in
  let later := advance_commits (advance_commits open) in
  let g := take_batch later 10 1000 scope_a (feed_cursor f) (feed_rows f) in
  feed_cursor g = Cursor.mk 2 ∧ visible_head later scope_a = 2 ∧ in_flight later = [] ∧
  row_version_at later scope_a note row1 2 = Some (RowVersion.mk 1) ∧ feed_rows g !! (note, row1) = None.
Proof. split_and!; compute_now. Qed.

(** A deleted row is still counted. After a write and a delete of one row, a device that
    applied both holds nothing, and [digest], [rows_at] and [row_version_at] still count the
    row at the version of its tombstone: the digest the server reports is not the digest of
    the rows its own log leaves. *)
Theorem deleted_row_still_counted :
  let s := external_delete scope_a note "r1" (write_r1 new) in
  replayed (entries s scope_a) = ∅ ∧ rows s !! scope_a = Some ∅ ∧
  rows_at s scope_a (visible_head s scope_a) = [(note, row1, RowVersion.mk 2)] ∧
  digest s scope_a ≠ map_digest (replayed (entries s scope_a)).
Proof. split_and!; [compute_now..|]. intros Heq. apply (f_equal ScopeDigest.raw) in Heq. revert Heq. vm_compute. discriminate. Qed.

(** A run in which a mutated replay overwrites the verdict. A command is applied and its outcome recorded;
    the same id with another body is refused, and the refusal takes the record's place; the
    original command, sent again, is now refused as a mutation although it was applied. The
    real server keeps the first record ([DedupeClaims.decided_is_forever]). *)
Theorem sim_mutation_overwrites :
  let original := save_note 1 in
  let tampered := Command.mk (id_of 1) (CommandName.mk "save_note") scope_a (pay 9) 0 hex0 in
  let '(s1, rng1, a1) := apply_command original classroom (Rng.new 7) in
  let '(s2, rng2, a2) := apply_command tampered s1 rng1 in
  let '(s3, rng3, a3) := apply_command original s2 rng2 in
  CommandResult.status a1 = Applied ∧ CommandResult.status a2 = Rejected ∧
  CommandResult.status a3 = Rejected ∧ CommandResult.reason a3 = Some mutated_reason.
Proof. vm_compute. by split_and!. Qed.
