(* ===== verification/InvariantClaims.v ===== *)
(** * InvariantClaims: the simulator's checkers raise no false alarm and miss nothing they
    claim to see. *)

From S2P Require Import Prelude Errors Nums Ids Json Wire Integrity Core Registry Outbox Storage SimStorage.
From S2P Require Import Apply Rng Server SimServer SimServerFacts SimReads SimFeed Invariants InvariantFacts.
From S2P Require Import Concrete SimClaims.
From stdpp Require Import options.

(** ** Two looks, however far apart *)

Lemma looks_ok_trans scope a b c : looks_ok scope a b → looks_ok scope b c → looks_ok scope a c.
Proof.
  intros (C1 & V1 & Q1) (C2 & V2 & Q2). split_and!.
  - intros x Hx. destruct (C1 x Hx) as (y & Hy & ?), (C2 y Hy) as (z & Hz & ?). exists z. split; [done|lia].
  - by etransitivity.
  - assert (resolved_ids b ⊆ resolved_ids c) by (intros id; rewrite <- !verdicts_dom; apply subseteq_dom, V2). set_solver.
Qed.

Lemma watch_ok_later scope prevs looks i db k t dbs db' :
  watch_ok scope prevs looks → prevs !! i = Some db → looks !! k = Some (t, dbs) → dbs !! i = Some db' →
  step_ok scope db db'.
Proof.
  revert prevs db k. induction looks as [|[t0 dbs0] looks IH]; intros prevs db k; cbn [watch_ok]; [done|].
  intros [Hf Hw] Hi Hk Hd. destruct (Forall2_lookup_l _ _ _ _ _ Hf Hi) as (x & Hx & Hlook & Hlooks).
  destruct k as [|k]; simpl in Hk; [injection Hk as -> ->; rewrite Hd in Hx; injection Hx as ->; by split|].
  destruct (IH dbs0 x k Hw Hx Hk Hd) as [H1 H2]. split; [done|]. by eapply looks_ok_trans.
Qed.

Lemma watch_ok_between scope prevs looks j k i t dbs db t' dbs' db' :
  watch_ok scope prevs looks → (j < k)%nat → looks !! j = Some (t, dbs) → dbs !! i = Some db →
  looks !! k = Some (t', dbs') → dbs' !! i = Some db' → step_ok scope db db'.
Proof.
  revert prevs j k. induction looks as [|[t0 dbs0] looks IH]; intros prevs j k; cbn [watch_ok]; [done|].
  intros [_ Hw] Hjk Hj Hi Hk Hi'. destruct k as [|k]; [lia|]. simpl in Hk. destruct j as [|j]; simpl in Hj.
  - injection Hj as -> ->. by eapply watch_ok_later.
  - eapply (IH dbs0 j k); [done|lia|done..].
Qed.

(** ** Claims *)

(** C17: The checkers of state are exact. On any log the server can have, the three checks made
    after every step, applied state, durable effects and cursor bounds, are silent exactly when
    every device that has a cursor holds precisely the versions the server counts at that
    cursor, no row more and none less, and the cursor is not past the log. *)
Theorem state_checkers_exact at_ms dbs s scope inv :
  server_wf s → holds inv = true →
  (holds (check_applied_state at_ms dbs s scope (check_durable_effects at_ms dbs s scope
     (check_cursor_bounds at_ms dbs s scope inv))) = true ↔
   ∀ i db c, dbs !! i = Some db → Db.cursors db !! scope = Some c →
     Cursor.get c ≤ head s ∧ stored_versions db = counted (upto s scope (Cursor.get c))).
Proof.
  intros Hw Hh. unfold check_applied_state, check_durable_effects, check_cursor_bounds. rewrite !check_each_holds. split.
  - intros [[[_ Hb] Hd] Ha] i db c Hi Hc. split; [by eapply (cursor_bounds_ok at_ms); eauto|].
    apply (state_checks_exact at_ms s scope i); [done..|]. by split; [apply Ha|apply Hd].
  - intros Hall. split_and!; [done|..]; intros i db Hi.
    + apply cursor_bounds_ok. intros c Hc. by eapply Hall.
    + unfold device_durable_effects. destruct (Db.cursors db !! scope) as [c|] eqn:Hc; [|done]. pose proof (proj2 (Hall i db c Hi Hc)) as Hv.
      apply (state_checks_exact at_ms s scope i) in Hv as [_ Hv]; [|done..]. unfold device_durable_effects in Hv. by rewrite Hc in Hv.
    + unfold device_applied_state. destruct (Db.cursors db !! scope) as [c|] eqn:Hc; [|done]. pose proof (proj2 (Hall i db c Hi Hc)) as Hv.
      apply (state_checks_exact at_ms s scope i) in Hv as [Hv _]; [|done..]. unfold device_applied_state in Hv. by rewrite Hc in Hv.
Qed.

(** C22: A clean run loses nothing. A run of the per-step checks over the same devices, begun
    with empty databases, ends without a violation exactly when at every check no command was
    resolved twice or both queued and resolved, and from each check to the next no cursor went
    back or vanished, no verdict changed or vanished, and every queued command was still
    queued or had an outcome; and then the same holds between any two checks of the run,
    however far apart. *)
Theorem clean_run_exact scope n looks :
  Forall (λ l, length l.2 = n ∧ Forall (cursor_natural scope) l.2) looks →
  (holds (watch scope looks Invariants_new) = true ↔ watch_ok scope (replicate n Db.new) looks) ∧
  (holds (watch scope looks Invariants_new) = true →
   ∀ j k i t dbs db t' dbs' db', (j < k)%nat → looks !! j = Some (t, dbs) → dbs !! i = Some db →
     looks !! k = Some (t', dbs') → dbs' !! i = Some db' →
     look_ok db' ∧ cursor_advances scope db db' ∧ verdicts db ⊆ verdicts db' ∧
     queued_ids db ⊆ queued_ids db' ∪ resolved_ids db').
Proof.
  intros Hl. assert (Hiff : holds (watch scope looks Invariants_new) = true ↔ watch_ok scope (replicate n Db.new) looks).
  { apply watch_holds; [by rewrite length_replicate| |done]. intros j db [-> _]%lookup_replicate. apply remembers_start. }
  split; [exact Hiff|]. intros Hh%Hiff j k i t dbs db t' dbs' db' Hjk Hj Hi Hk Hi'.
  destruct (watch_ok_between _ _ _ _ _ _ _ _ _ _ _ _ Hh Hjk Hj Hi Hk Hi') as [H1 (H2 & H3 & H4)]. by split_and!.
Qed.

(** The checkers of a settled world are exact. Convergence is silent exactly when each
    device with a digest has reached the head of the log with the server's digest, and a
    device without one has an empty log to thank; policy is silent exactly when every
    recovered draft is of an owner-draft entity and every superseded command left one. *)
Theorem settled_checkers_exact `{Hashes} at_ms dbs s scope registry inv :
  holds inv = true →
  (holds (check_policy at_ms dbs registry (check_convergence at_ms dbs s scope inv)) = true ↔
   ∀ i db, dbs !! i = Some db →
     match Db.digests db !! scope with
     | None => head s ≤ 0
     | Some d => d = ScopeDigest.to_hex (digest s scope) ∧
         head s ≤ (match Db.cursors db !! scope with Some c => Cursor.get c | None => 0 end)
     end ∧
     (∀ id e p, (id, e, p) ∈ Db.recovered db → class_of registry e = Some OwnerDraft) ∧
     (∀ id, (id, Resolution.Superseded) ∈ Db.resolved db → id ∈ recovered_ids db)).
Proof.
  intros Hh. unfold check_policy, check_convergence. rewrite !check_each_holds.
  assert (Hconv : ∀ i db, device_convergence at_ms s scope i db = [] ↔
    match Db.digests db !! scope with
    | None => head s ≤ 0
    | Some d => d = ScopeDigest.to_hex (digest s scope) ∧
        head s ≤ (match Db.cursors db !! scope with Some c => Cursor.get c | None => 0 end)
    end).
  { intros i db. unfold device_convergence. destruct (Db.digests db !! scope) as [d|].
    - destruct (Z.ltb_spec (match Db.cursors db !! scope with Some c => Cursor.get c | None => 0 end) (head s)).
      + split; [done|]. intros [_ ?]. lia.
      + destruct (decide (d = ScopeDigest.to_hex (digest s scope))).
        * by rewrite bool_decide_eq_false_2 by tauto.
        * rewrite bool_decide_eq_true_2 by done. by split; [|intros [? _]].
    - destruct (Z.ltb_spec 0 (head s)); [split; [done|lia]|by split]. }
  assert (Hpol : ∀ i db, device_policy at_ms registry i db = [] ↔
    (∀ id e p, (id, e, p) ∈ Db.recovered db → class_of registry e = Some OwnerDraft) ∧
    (∀ id, (id, Resolution.Superseded) ∈ Db.resolved db → id ∈ recovered_ids db)).
  { intros i db. unfold device_policy. rewrite app_nil, !flat_map_nil. f_equiv; split.
    - intros Hall id e p Hin. specialize (Hall _ Hin). simpl in Hall. by destruct (class_of registry e) as [[]|].
    - intros Hall [[id e] p] Hin. by rewrite (Hall id e p Hin).
    - intros Hall id Hin. specialize (Hall _ Hin). cbn beta iota in Hall.
      rewrite (bool_decide_eq_true_2 (Resolution.Superseded = Resolution.Superseded)) in Hall by done. simpl in Hall.
      destruct (decide (id ∈ recovered_ids db)); [done|]. rewrite bool_decide_eq_true_2 in Hall by done. discriminate Hall.
    - intros Hall [id r] Hin. destruct (bool_decide (r = Resolution.Superseded)) eqn:Hr; [|done].
      apply bool_decide_eq_true in Hr as ->. rewrite bool_decide_eq_false_2; [done|]. intros Hn. by apply Hn, Hall. }
  split.
  - intros [[_ H1] H2] i db Hi. split; [by apply (Hconv i), H1|by apply (Hpol i), H2].
  - intros Hall. split_and!; [done|..]; intros i db Hi; [apply Hconv|apply Hpol]; by apply (Hall i).
Qed.

(** ** Witnesses *)

(** A device that holds what the drained server says, and one that lost a row. *)
Definition stored (seq : Z) : StoredRow.t := StoredRow.mk (snap seq) (RowVersion.mk seq) v1.
Definition device_db (rows : gmap RowKey StoredRow.t) (cursor : Z) : Db.t :=
  Db.mk rows {[scope_a := Cursor.mk cursor]} {[scope_a := ScopeDigest.to_hex (map_digest (StoredRow.row_version <$> rows))]}
    [] [] [] Commit 0 [] ∅ ∅.
Definition caught_up_db : Db.t := device_db {[(note, row1) := stored 1; (note, row2) := stored 2]} 2.
Definition lossy_db : Db.t := device_db {[(note, row1) := stored 1]} 2.

Lemma committed_wf : server_wf committed.
Proof. do 2 apply advance_commits_wf. do 2 apply external_change_to_wf. by apply (server_wf_ext new); [apply new_server_wf|..]. Qed.

Lemma state_checkers_exact_witness :
  holds (check_applied_state 0 [lossy_db] committed scope_a (check_durable_effects 0 [lossy_db] committed scope_a
    (check_cursor_bounds 0 [lossy_db] committed scope_a Invariants_new))) = false ∧
  Cursor.get (Cursor.mk 2) ≤ head committed ∧
  stored_versions caught_up_db = counted (upto committed scope_a (Cursor.get (Cursor.mk 2))).
Proof.
  split; [compute_now|].
  apply (state_checkers_exact 0 [caught_up_db] committed scope_a Invariants_new committed_wf eq_refl) with (i := 0%nat);
    [compute_now|done|compute_now].
Defined.

(** A command queued at the first look and gone without a trace at the third. *)
Definition quiet_db (queue : list (Command.t * SchemaVersion.t)) (outcomes : list (CommandId.t * Resolution.t)) : Db.t :=
  Db.mk ∅ ∅ ∅ queue outcomes [] Commit 0 [] ∅ ∅.
Definition queued_look : Z * list Db.t := (0, [quiet_db [(save_note 1, v1)] []]).
Definition answered_look : Z * list Db.t := (60000, [quiet_db [] [(id_of 1, Resolution.Applied None)]]).
Definition lost_look : Z * list Db.t := (120000, [quiet_db [] []]).

Lemma clean_run_exact_witness :
  holds (watch scope_a [queued_look; answered_look; lost_look] Invariants_new) = false ∧
  watch_ok scope_a (replicate 1 Db.new) [queued_look; answered_look].
Proof.
  split; [compute_now|]. apply (clean_run_exact scope_a 1 [queued_look; answered_look]); [|compute_now].
  repeat constructor; intros c; done.
Defined.

Lemma settled_checkers_exact_witness :
  holds (check_policy 0 [lossy_db] demo_registry (check_convergence 0 [lossy_db] committed scope_a Invariants_new)) = false ∧
  head committed ≤ 2.
Proof.
  split; [compute_now|].
  assert (holds (check_policy 0 [caught_up_db] demo_registry (check_convergence 0 [caught_up_db] committed scope_a Invariants_new)) = true)
    as Hh by compute_now.
  pose proof (proj1 (settled_checkers_exact 0 [caught_up_db] committed scope_a demo_registry Invariants_new eq_refl) Hh 0%nat caught_up_db eq_refl)
    as [Hc _]. exact (proj2 Hc).
Defined.
