(* ===== verification/SweepClaims.v ===== *)
(** * SweepClaims: a batch spread over workers is the batch run seed by seed, and a flag that is
    present is never defaulted. *)

From S2P Require Import Prelude Ids Integrity Json Wire Rng FaultMenu Invariants Trace World Sweep.
From S2P Require Import Concrete.
From stdpp Require Import options.

(** ** Wrapping sums *)

Lemma wrap_i64_add_l a b : wrap_i64 (wrap_i64 a + b) = wrap_i64 (a + b).
Proof.
  unfold wrap_i64, wrap_u64, as_i64, u64_mod.
  replace ((if a mod 2 ^ 64 <? 2 ^ 63 then a mod 2 ^ 64 else a mod 2 ^ 64 - 2 ^ 64) + b) with
    (a mod 2 ^ 64 + b + (if a mod 2 ^ 64 <? 2 ^ 63 then 0 else -1) * 2 ^ 64) by (case_match; lia).
  by rewrite Z_mod_plus_full, Zplus_mod_idemp_l.
Qed.
Lemma wrap_i64_add_r a b : wrap_i64 (a + wrap_i64 b) = wrap_i64 (a + b).
Proof. by rewrite Z.add_comm, wrap_i64_add_l, Z.add_comm. Qed.

Lemma add_faults_empty f : add_faults f ∅ = f.
Proof. apply map_eq. intros k. unfold add_faults. rewrite lookup_union_with, lookup_empty. by destruct (f !! k). Qed.
Lemma add_faults_assoc f g h : add_faults (add_faults f g) h = add_faults f (add_faults g h).
Proof.
  apply map_eq. intros k. unfold add_faults. rewrite !lookup_union_with.
  destruct (f !! k), (g !! k), (h !! k); cbn; try done.
  unfold wrap_u64. by rewrite Zplus_mod_idemp_l, Zplus_mod_idemp_r, Z.add_assoc.
Qed.

(** ** Stripes *)

Lemma div_ceil_covers seeds jobs : 0 < jobs → seeds ≤ jobs * div_ceil seeds jobs.
Proof.
  intros Hj. unfold div_ceil. pose proof (Z.div_mod seeds jobs ltac:(lia)). pose proof (Z.mod_pos_bound seeds jobs Hj).
  destruct (Z.eqb_spec (seeds mod jobs) 0); lia.
Qed.

Definition range_of (s : Z * Z) : list Z := seqZ s.1 (s.2 - s.1).

Lemma stripes_from_cover n k from seeds width :
  0 ≤ from → 0 ≤ k → 0 < width → 0 ≤ seeds → from + seeds ≤ u64_max →
  seeds ≤ (k + Z.of_nat n) * width →
  concat (range_of <$> stripes_from n k from seeds width) = seqZ (from + k * width) (seeds - k * width).
Proof.
  revert k. induction n as [|n IH]; intros k Hf Hk Hw Hs Hm Hc; cbn [stripes_from].
  { rewrite seqZ_nil by lia. done. }
  set (lo := u64_saturating_add _ (u64_saturating_mul _ _)). set (hi := Z.min _ _).
  assert (k * width < seeds → lo = from + k * width ∧ hi = Z.min (from + seeds) (lo + width) ∧ lo < hi) as Hlo.
  { intros ?. subst lo hi. unfold u64_saturating_add, u64_saturating_mul. nia. }
  assert (seeds ≤ k * width → hi ≤ lo) as Hhi.
  { intros ?. subst lo hi. unfold u64_saturating_add, u64_saturating_mul. nia. }
  destruct (Z.leb_spec hi lo); [rewrite seqZ_nil by lia; done|].
  destruct Hlo as (Hlo & Hhi' & _); [lia|].
  cbn [fmap list_fmap concat]. rewrite IH by nia. unfold range_of. cbn [fst snd].
  destruct (Z.le_gt_cases (lo + width) (from + seeds)) as [Hle|Hgt].
  - replace (seeds - k * width) with ((hi - lo) + (seeds - (k + 1) * width)) by lia.
    rewrite seqZ_app by nia. f_equal; [by f_equal|f_equal; lia].
  - rewrite (seqZ_nil (from + (k + 1) * width)) by nia. rewrite app_nil_r. f_equal; lia.
Qed.

Lemma stripes_cover from seeds jobs :
  0 ≤ from → 0 ≤ seeds → 0 < jobs → from + seeds ≤ u64_max →
  concat (range_of <$> stripes from seeds jobs) = seqZ from seeds.
Proof.
  intros. unfold stripes. pose proof (div_ceil_covers seeds jobs ltac:(lia)).
  rewrite stripes_from_cover by nia. f_equal; lia.
Qed.

Lemma seqZ_increasing m n : StronglySorted Z.lt (seqZ m n).
Proof.
  destruct (Z.le_gt_cases n 0) as [?|Hn]; [rewrite seqZ_nil by lia; constructor|].
  replace n with (Z.of_nat (Z.to_nat n)) by lia. generalize (Z.to_nat n). clear. intros n. revert m.
  induction n as [|n IH]; intros m; [constructor|]. rewrite Nat2Z.inj_succ, seqZ_cons, Z.pred_succ by lia.
  constructor; [apply IH|]. apply Forall_forall. intros x Hx%elem_of_seqZ. lia.
Qed.

Section sweep.
Context `{Hashes} `{Codec}.

#[local] Opaque run_seed holds.

Abbreviation runs := (λ seed, run_seed seed FaultRates.default Trace.counting).
Abbreviation panics := (λ seed, runs seed = None).

Lemma stripe_panics l t s : stripe_loop l t s = None → ∃ seed, seed ∈ l ∧ panics seed.
Proof.
  revert t s. induction l as [|x l IH]; intros t s; cbn [stripe_loop]; [done|].
  destruct (run_seed x _ _) as [w|] eqn:Hx; cbn [mbind option_bind]; [|intros _; exists x; split; [left|done]].
  destruct (holds (invariants w)); [|done]. intros Hl. destruct (IH _ _ Hl) as (y & ? & ?). exists y. split; [by right|done].
Qed.

(** What a stripe adds to what was counted before it. *)
Lemma stripe_shift l t s :
  stripe_loop l t (wrap_i64 s) =
    (λ st, MkStripe (wrap_i64 (s + simulated_ms st)) (add_faults t (faults st)) (failure st)) <$> stripe_loop l ∅ 0.
Proof.
  assert (∀ l t s t' s', stripe_loop l (add_faults t t') (wrap_i64 (s + s')) =
    (λ st, MkStripe (wrap_i64 (s + simulated_ms st)) (add_faults t (faults st)) (failure st)) <$> stripe_loop l t' (wrap_i64 s'))
    as Hg.
  { clear. induction l as [|x l IH]; intros t s t' s'; cbn [stripe_loop].
    - cbn. by rewrite wrap_i64_add_r.
    - destruct (run_seed x _ _) as [w|]; cbn [mbind option_bind fmap option_fmap option_map]; [|done].
      rewrite !wrap_i64_add_l, add_faults_assoc, <- Z.add_assoc.
      destruct (holds (invariants w)); [apply IH|]. cbn. by rewrite wrap_i64_add_r. }
  specialize (Hg l t s ∅ 0). by rewrite add_faults_empty, Z.add_0_r in Hg.
Qed.

Lemma stripe_app a b t s :
  stripe_loop (a ++ b) t s =
    st ← stripe_loop a t s;
    match failure st with None => stripe_loop b (faults st) (simulated_ms st) | Some _ => Some st end.
Proof.
  revert t s. induction a as [|x a IH]; intros t s; cbn; [done|].
  destruct (run_seed x _ _) as [w|]; cbn [mbind option_bind fmap option_fmap option_map]; [|done]. by destruct (holds (invariants w)); [apply IH|].
Qed.

Lemma stripe_failure_in l t s st f : stripe_loop l t s = Some st → failure st = Some f → f.1 ∈ l.
Proof.
  revert t s. induction l as [|x l IH]; intros t s; cbn [stripe_loop]; [by intros [= <-]|].
  destruct (run_seed x _ _) as [w|]; cbn [mbind option_bind fmap option_fmap option_map]; [|done].
  destruct (holds (invariants w)); [intros Hl Hf; right; by eapply IH|].
  intros [= <-] [= <-]. left.
Qed.

Lemma join_kept cs acc total f :
  join_stripes ((λ c, stripe_loop c ∅ 0) <$> cs) acc = Some total →
  failure acc = Some f → Forall (λ x, f.1 < x) (concat cs) → failure total = Some f.
Proof.
  revert acc. induction cs as [|c cs IH]; intros acc; cbn; [by intros [= <-]|].
  destruct (stripe_loop c ∅ 0) as [st|] eqn:Hc; cbn; [|done].
  intros Hj Hf [Hall ?]%Forall_app. apply (IH _ Hj); [|done]. cbn. rewrite Hf.
  destruct (failure st) as [g|] eqn:Hg; [|done]. cbn.
  pose proof (stripe_failure_in _ _ _ _ _ Hc Hg) as Hin. rewrite Forall_forall in Hall.
  destruct (Z.ltb_spec g.1 f.1); [|done]. specialize (Hall _ Hin). lia.
Qed.

Lemma join_sequential cs acc total s :
  StronglySorted Z.lt (concat cs) → failure acc = None → simulated_ms acc = wrap_i64 s →
  join_stripes ((λ c, stripe_loop c ∅ 0) <$> cs) acc = Some total →
  ∃ ref, stripe_loop (concat cs) (faults acc) (simulated_ms acc) = Some ref ∧
    failure total = failure ref ∧ (failure ref = None → total = ref).
Proof.
  revert acc s. induction cs as [|c cs IH]; intros acc s Hs Hf Hw; cbn.
  { intros [= <-]. eexists; split; [done|]. split; [done|]. intros _. destruct acc; cbn in *; by subst. }
  destruct (stripe_loop c ∅ 0) as [st|] eqn:Hc; cbn; [|done]. intros Hj.
  rewrite Hf in Hj. cbn in Hj. rewrite stripe_app, Hw, stripe_shift, Hc. cbn.
  cbn in Hs. apply StronglySorted_app in Hs as (Hlt & _ & Hs).
  destruct (failure st) as [f|] eqn:Hfs.
  - eexists; split; [done|]. cbn. split; [|done].
    eapply join_kept; [done|done|]. rewrite Forall_forall. intros x Hx.
    apply Hlt; [by eapply stripe_failure_in|done].
  - destruct (IH (MkStripe (wrap_i64 (simulated_ms acc + simulated_ms st)) (add_faults (faults acc) (faults st)) None)
      (s + simulated_ms st) Hs eq_refl ltac:(cbn; by rewrite Hw, wrap_i64_add_l) Hj) as (ref & Href & ? & ?).
    cbn in Href. rewrite Hw, wrap_i64_add_l in Href. eauto.
Qed.

Lemma join_panics cs acc :
  join_stripes ((λ c, stripe_loop c ∅ 0) <$> cs) acc = None → ∃ seed, seed ∈ concat cs ∧ panics seed.
Proof.
  revert acc. induction cs as [|c cs IH]; intros acc; cbn; [done|].
  destruct (stripe_loop c ∅ 0) as [st|] eqn:Hc; cbn.
  - intros Hj. destruct (IH _ Hj) as (y & ? & ?). exists y. split; [apply elem_of_app; by right|done].
  - intros _. destruct (stripe_panics _ _ _ Hc) as (y & ? & ?). exists y. split; [apply elem_of_app; by left|done].
Qed.

(** A seed whose run broke an invariant. *)
Definition failing (seed : Z) : bool :=
  match run_seed seed FaultRates.default Trace.counting with Some w => negb (holds (invariants w)) | None => false end.

Lemma failing_run seed w : runs seed = Some w → failing seed = negb (holds (invariants w)).
Proof. unfold failing. by intros ->. Qed.
#[local] Opaque failing.

Lemma stripe_first l t s st :
  stripe_loop l t s = Some st →
  match List.find failing l with
  | Some seed => ∃ w, runs seed = Some w ∧ failure st = Some (seed, violations (invariants w))
  | None => failure st = None
  end.
Proof.
  revert t s. induction l as [|x l IH]; intros t s; cbn [stripe_loop List.find]; [by intros [= <-]|].
  destruct (run_seed x _ _) as [w|] eqn:Hx; cbn [mbind option_bind]; [|discriminate].
  rewrite (failing_run _ _ Hx). destruct (holds (invariants w)) eqn:Hh.
  - intros Hl. exact (IH _ _ Hl).
  - intros [= <-]. exists w. split; [exact Hx|reflexivity].
Qed.

Lemma batch_joined took from seeds jobs :
  0 ≤ from → 0 ≤ seeds → 0 < jobs → from + seeds ≤ u64_max →
  (∃ seed, seed ∈ seqZ from seeds ∧ panics seed) ∨
  ∃ ref, stripe_loop (seqZ from seeds) ∅ 0 = Some ref ∧
    run_batch took from seeds jobs =
      match failure ref with
      | Some (seed, vs) =>
          (Out (show (u64_saturating_sub seed from) +:+ "/" +:+ show seeds +:+ " seeds green, then:") :: report seed vs,
           FAILURE)
      | None => (green_report took from seeds (simulated_ms ref) (faults ref), SUCCESS)
      end.
Proof.
  intros Hf Hs Hj Hm. pose proof (stripes_cover from seeds jobs Hf Hs Hj Hm) as Hcov.
  unfold run_batch.
  replace ((λ '(lo, hi), run_stripe lo hi) <$> stripes from seeds jobs) with
    ((λ c, stripe_loop c ∅ 0) <$> (range_of <$> stripes from seeds jobs))
    by (rewrite <- list_fmap_compose; apply list_fmap_ext; by intros ? [? ?]).
  destruct (join_stripes _ _) as [total|] eqn:Hjoin.
  - right. apply (join_sequential _ _ _ 0) in Hjoin as (ref & Href & Hfail & Heq); [|rewrite Hcov; apply seqZ_increasing|done..].
    rewrite Hcov in Href. exists ref. split; [done|]. rewrite Hfail.
    destruct (failure ref) as [[? ?]|]; [done|]. by rewrite Heq.
  - left. apply join_panics in Hjoin as (y & ? & ?). rewrite Hcov in *. eauto.
Qed.

(** C27: spreading a batch over workers changes nothing but the time it takes: whatever the number
    of jobs, the lines printed and the exit code are those of one worker running the seeds in
    order; every seed of the range is given to exactly one stripe, which stops at its first failure; and the batch fails exactly when
    some seed broke an invariant, naming the lowest such seed and how many seeds are below it.
    The other case is a seed whose run panics. *)
Theorem batch_is_sequential took from seeds jobs :
  0 ≤ from → 0 ≤ seeds → 0 < jobs → from + seeds ≤ u64_max →
  concat (range_of <$> stripes from seeds jobs) = seqZ from seeds ∧
  ((∃ seed, seed ∈ seqZ from seeds ∧ run_seed seed FaultRates.default Trace.counting = None) ∨
   run_batch took from seeds jobs = run_batch took from seeds 1 ∧
   match List.find failing (seqZ from seeds) with
   | Some seed => ∃ w,
       run_seed seed FaultRates.default Trace.counting = Some w ∧
       run_batch took from seeds jobs =
         (Out (show (seed - from) +:+ "/" +:+ show seeds +:+ " seeds green, then:")
            :: report seed (violations (invariants w)), FAILURE)
   | None => (run_batch took from seeds jobs).2 = SUCCESS
   end).
Proof.
  intros Hf Hs Hj Hm. split; [by apply stripes_cover|].
  destruct (batch_joined took from seeds jobs Hf Hs Hj Hm) as [?|(ref & Href & Hb)]; [by left|].
  destruct (batch_joined took from seeds 1 Hf Hs ltac:(lia) Hm) as [?|(ref' & Href' & Hb')]; [by left|].
  right. rewrite Href in Href'. injection Href' as <-. split; [congruence|].
  pose proof (stripe_first _ _ _ _ Href) as Hfirst. rewrite Hb.
  destruct (List.find _ _) as [seed|] eqn:Hi; [|by rewrite Hfirst].
  destruct Hfirst as (w & Hw & ->). exists w. split; [exact Hw|].
  apply List.find_some in Hi as [Hi%list_elem_of_In%elem_of_seqZ _].
  unfold u64_saturating_sub. rewrite Z.max_r by lia. reflexivity.
Qed.
End sweep.

(** ** Arguments *)

Lemma radix_loop_bounds radix acc l n : 0 ≤ acc ≤ u64_max → 0 < radix → radix_loop radix acc l = Some n → 0 ≤ n ≤ u64_max.
Proof.
  revert acc. induction l as [|b l IH]; intros acc Ha Hr; cbn; [by intros [= <-]|].
  destruct (hex_value b) as [d|] eqn:Hd; cbn; [|done]. destruct (radix <=? d); [done|].
  destruct (Z.leb_spec (acc * radix + d) u64_max); [|done].
  apply IH; [|done]. assert (0 ≤ d); [|nia]. unfold hex_value in Hd. repeat case_match; simplify_eq/=; lia.
Qed.
Lemma u64_from_str_radix_bounds s radix n : 0 < radix → u64_from_str_radix s radix = Some n → 0 ≤ n ≤ u64_max.
Proof.
  unfold u64_from_str_radix. intros Hr. destruct (as_bytes s) as [|b r]; [done|].
  destruct (b =? 43); [destruct r; [done|]|]; apply radix_loop_bounds; try done; unfold u64_max; lia.
Qed.

Lemma read_option_ok args flag dflt parse v :
  read_option args flag dflt parse = Ok v →
  if decide (flag ∈ args) then ∃ raw, flag_value args flag = Some raw ∧ parse raw = Some v else v = dflt.
Proof.
  unfold read_option. destruct (decide (flag ∈ args)); [rewrite bool_decide_true by done|rewrite bool_decide_false by done].
  - destruct (flag_value args flag) as [raw|]; [|done]. destruct (parse raw) eqn:?; [|done]. intros [= <-]. eauto.
  - by intros [= <-].
Qed.

Lemma positive_ok v n : (m ← parse_u64 v; if 0 <? m then Some m else None) = Some n → parse_u64 v = Some n ∧ 0 < n.
Proof. destruct (parse_u64 v) as [m|]; cbn; [|done]. destruct (Z.ltb_spec 0 m); [|done]. by intros [= <-]. Qed.

(** a batch starts only on a complete and valid command line: it has at least one seed and one
    worker and ends within the seed space, and each number is either the value its flag carries,
    or the default when the flag does not appear at all. A flag that appears is never defaulted. *)
Theorem batch_flags_exact cores args from seeds jobs :
  0 < cores →
  main_action cores args = RunBatch from seeds jobs →
  0 < seeds ∧ 0 < jobs ∧ 0 ≤ from ∧ from + seeds ≤ u64_max ∧
  (if decide ("--seeds" ∈ args) then ∃ raw, flag_value args "--seeds" = Some raw ∧ parse_u64 raw = Some seeds else seeds = 1000) ∧
  (if decide ("--from" ∈ args) then ∃ raw, flag_value args "--from" = Some raw ∧ parse_seed raw = Some from else from = 0) ∧
  (if decide ("--jobs" ∈ args) then ∃ raw, flag_value args "--jobs" = Some raw ∧ parse_u64 raw = Some jobs else jobs = cores).
Proof.
  intros Hc. unfold main_action. destruct (_ || _); [done|].
  destruct (parse_seed <$> _) as [[?|]|]; [done..|].
  destruct (read_option args "--seeds" _ _) as [s|] eqn:Hs; [|done]. cbn [res_bind].
  destruct (read_option args "--from" _ _) as [f|] eqn:Hf; [|done]. cbn [res_bind].
  destruct (read_option args "--jobs" _ _) as [j|] eqn:Hj; [|done]. cbn [res_bind].
  unfold u64_checked_add. destruct (Z.leb_spec (f + s) u64_max); [|done]. intros [= <- <- <-].
  apply read_option_ok in Hs, Hf, Hj.
  assert (0 ≤ f).
  { destruct (decide ("--from" ∈ args)); [|lia]. destruct Hf as (raw & _ & Hp). unfold parse_seed, parse_u64 in Hp.
    destruct (strip_prefix _ _); apply u64_from_str_radix_bounds in Hp; lia. }
  destruct (decide ("--seeds" ∈ args)); [destruct Hs as (? & ? & [? ?]%positive_ok)|];
    (destruct (decide ("--jobs" ∈ args)); [destruct Hj as (? & ? & [? ?]%positive_ok)|]); subst;
    (split_and!; [lia..| | |]); eauto.
Qed.

(** A [--seed] with nothing after it runs the default batch, where the other flags are refused. *)
Theorem trailing_seed_runs_a_batch cores :
  main_action cores ["--seed"] = RunBatch 0 1000 cores ∧
  main_action cores ["--seeds"] = Refused (ExpectsValue "--seeds").
Proof. done. Qed.

Lemma batch_is_sequential_witness :
  stripes 5 10 4 = [(5, 8); (8, 11); (11, 14); (14, 15)] ∧
  concat (range_of <$> stripes 5 10 4) = seqZ 5 10.
Proof. split; [reflexivity|]. exact (proj1 (batch_is_sequential "" 5 10 4 ltac:(lia) ltac:(lia) ltac:(lia) ltac:(compute; discriminate))). Defined.

Lemma batch_flags_exact_witness :
  main_action 8 ["--from"; "0x4f21a9c3"; "--jobs"; "3"] = RunBatch 1327606211 1000 3 ∧ 0 < 1000 ∧ 1327606211 + 1000 ≤ u64_max.
Proof.
  assert (main_action 8 ["--from"; "0x4f21a9c3"; "--jobs"; "3"] = RunBatch 1327606211 1000 3) as Hm by compute_now.
  destruct (batch_flags_exact 8 _ _ _ _ ltac:(lia) Hm) as (? & _ & _ & ? & _). done.
Defined.
