(* ===== verification/WorldClaims.v ===== *)
(** * WorldClaims: what every run of the simulator shows, whatever its seed.

    A simulated world has two to four devices on the client's own engine, the in-memory server
    and a network that drops, repeats, delays and corrupts responses, storage that fails,
    commits and lies about it, kills and restarts. No schedule of those faults makes a checker
    complain; after the world is quieted, only a device that has not caught up can. *)

From S2P Require Import Prelude Errors Nums Ids Json Wire Integrity Core Registry Migrate Outbox.
From S2P Require Import Storage SimStorage Apply Engine EngineFacts EngineSteps Place Ledger.
From S2P Require Import Server Rng FaultMenu Pressure SimServer SimServerFacts SimReads SimFeed.
From S2P Require Import Invariants InvariantFacts Trace World Deliveries WorldDevices WorldServer WorldSteps.
From S2P Require Import WorldCarry WorldSound WorldPhases WorldClean WorldRuns Sweep Concrete.
From stdpp Require Import options.

Section claims.
Context `{Hashes} `{Codec} `{!CodecArrays}.
Hypothesis Henc : ∀ c : Change.t, encodable c.

Lemma issued_apart i j m n id :
  (i < 256)%nat → (j < 256)%nat → m < u32_mod → n < u32_mod → issued i m id → issued j n id → i = j.
Proof using All.
  intros Hi Hj Hm Hn (k & Hk & ->) (k' & Hk' & Heq). apply command_id_inj in Heq as [Heq _]; [|lia..].
  rewrite !Z.mod_small in Heq by lia. lia.
Qed.

Lemma world_ok_apart σ η n w i j di dj id :
  (length (devices w) ≤ 4)%nat → world_ok σ η n w → devices w !! i = Some di → devices w !! j = Some dj →
  (id ∈ queued_ids (Device.db di) ∨ id ∈ resolved_ids (Device.db di)) →
  (id ∈ queued_ids (Device.db dj) ∨ id ∈ resolved_ids (Device.db dj)) → i = j.
Proof using All.
  intros Hlen Hok Hi Hj Hin Hjn.
  pose proof (ok_authored _ _ _ _ Hok) as Hauth. rewrite Forall_forall in Hauth.
  assert (Hb : ∀ x dx, devices w !! x = Some dx → (x < 256)%nat ∧ Device.commands_authored dx < u32_mod).
  { intros x dx Hx. pose proof (lookup_lt_Some _ _ _ Hx). specialize (Hauth dx (list_elem_of_lookup_2 _ _ _ Hx)). lia. }
  assert (Hissued : ∀ x dx, devices w !! x = Some dx → (id ∈ queued_ids (Device.db dx) ∨ id ∈ resolved_ids (Device.db dx)) →
    issued x (Device.commands_authored dx) id).
  { intros x dx Hx Hids. rewrite queued_ids_view, resolved_ids_view in Hids.
    eapply ledger_issued; [|exact Hids]. eapply device_ledger, sound_device; [apply Hok|exact Hx]. }
  destruct (Hb i di Hi), (Hb j dj Hj). eapply issued_apart; [..|by apply Hissued|by apply Hissued]; done.
Qed.
End claims.

(** C2: The simulated world is clean, whatever its seed. Run any number of steps from any seed,
    under any distribution of the faults whose latencies end within a step (while the count of
    steps fits the devices' 32-bit counters, and the codec encodes every change): dropped, doubled,
    held, severed and corrupted responses, broken protocol rules, storage that fails or lies,
    kills and restarts, load, and writes committed out of order. No check at any step has found
    a violation; every device holds exactly the versions the server counts at its cursor; no
    command of a device is both queued and answered or answered twice; and no command is held
    by two devices. *)
Theorem worlds_stay_clean `{Hashes} `{Codec} `{!CodecArrays} seed rates trace n :
  (∀ c : Change.t, encodable c) → rates_ok rates → Z.of_nat n + 1 < u32_mod →
  let w := Nat.iter n world_step (World_new seed rates trace) in
  holds (invariants w) = true ∧
  (∀ i d, devices w !! i = Some d →
    stored_versions (Device.db d) =
      counted (upto (server w) (World.scope w) (cursor_of_db (World.scope w) (Device.db d))) ∧
    look_ok (Device.db d)) ∧
  ∀ i j di dj id, devices w !! i = Some di → devices w !! j = Some dj → i ≠ j →
    id ∉ (queued_ids (Device.db di) ∪ resolved_ids (Device.db di)) ∩
         (queued_ids (Device.db dj) ∪ resolved_ids (Device.db dj)).
Proof.
  intros Henc Hr Hn. cbv zeta. pose proof (World_new_ok n seed rates trace Hr Hn) as Hok.
  destruct (World_new_fields seed rates trace) as (_ & _ & Hlen).
  destruct (world_steps_ok Henc start_scope start_entity n 0 (World_new seed rates trace)) as (Hok' & _ & _ & Hfw); [by rewrite Nat.add_0_r|].
  apply Forall2_length in Hfw. set (w := Nat.iter n _ _) in *. rewrite Hfw in Hlen.
  pose proof (ok_sound _ _ _ _ Hok') as Hs. pose proof (proj1 (proj1 (sound_world _ _ _ _ Hs))) as Hsc. split_and!.
  - apply holds_spec, (ok_clean _ _ _ _ Hok').
  - intros i d Hi. pose proof (sound_device _ _ _ _ Hs i d Hi) as [_ _ Hl Hst _]. split; [|by eapply look_ok_ledger].
    rewrite Hsc. transitivity (versions_of (stored d)); [done|]. rewrite (standing_rows _ _ _ Hst).
    rewrite replayed_counted by (eapply entries_upserts, sound_server, Hs). f_equal. unfold cursor_of_db, stored_cursor.
    change (v_cursors (stored d)) with (Db.cursors (Device.db d)). by destruct (Db.cursors (Device.db d) !! start_scope).
  - intros i j di dj id Hi Hj Hij. rewrite elem_of_intersection, !elem_of_union. intros [Hx Hy]. apply Hij.
    by eapply (world_ok_apart Henc).
Qed.

Lemma convergence_named `{Hashes} at_ms s scope i db :
  Forall (λ v, Violation.invariant v = "convergence") (device_convergence at_ms s scope i db).
Proof.
  unfold device_convergence. destruct (Db.digests db !! scope); repeat case_match; repeat constructor.
Qed.

(** A device holds exactly the versions the server's log counts, and the digest the server gives. *)
Definition level `{Hashes} (w : World) (d : Device.t) : Prop :=
  stored_versions (Device.db d) = counted (entries (server w) (World.scope w)) ∧
  Db.digests (Device.db d) !! World.scope w = Some (ScopeDigest.to_hex (digest (server w) (World.scope w))).

(** The verdict on a quieted world. *)
Definition judged `{Hashes} (hostile : FaultRates.t) (q : World) : World :=
  let q := set_quiet false (set_rates hostile q) in
  let dbs := databases q in
  let q := set_invariants (check_convergence (now_ms q) dbs (server q) (World.scope q)) q in
  set_invariants (check_policy (now_ms q) dbs (World.registry q)) q.

Lemma judged_exact `{Hashes} `{Codec} `{!CodecArrays} σ η n hostile q :
  world_ok σ η n q → in_flight_writes (server q) = 0%nat →
  let w := judged hostile q in
  Forall (λ v, Violation.invariant v = "convergence") (violations (invariants w)) ∧
  (0 < head (server w) →
   (holds (invariants w) = true ↔
      ∀ i d, devices w !! i = Some d → head (server w) ≤ cursor_of_db (World.scope w) (Device.db d)) ∧
   ∀ i d, devices w !! i = Some d → head (server w) ≤ cursor_of_db (World.scope w) (Device.db d) →
     level w d).
Proof.
  intros Hq Hfl. pose proof (ok_sound _ _ _ _ Hq) as Hs. pose proof (clean_holds _ _ (ok_clean _ _ _ _ Hq)) as Hv.
  destruct (sound_world _ _ _ _ Hs) as [[Hsc _] Hreg]. unfold judged.
  cbv zeta. cbn [devices server invariants World.scope World.registry now_ms set_quiet set_rates set_invariants databases].
  unfold databases, level. cbn [devices server World.scope set_quiet set_rates set_invariants]. rewrite Hsc, Hreg. set (dbs := Device.db <$> devices q).
  assert (Hpolicy : ∀ i db, dbs !! i = Some db → device_policy (now_ms q) (reg σ η) i db = []).
  { intros i db Hi. unfold dbs in Hi. rewrite list_lookup_fmap in Hi. apply fmap_Some in Hi as (d & Hi & ->).
    eapply policy_silent, device_ledger, sound_device; [exact Hs|exact Hi]. }
  set (inv1 := check_convergence _ _ _ _ (invariants q)).
  assert (Hv2 : violations (check_policy (now_ms q) dbs (reg σ η) inv1) = violations inv1).
  { unfold check_policy, check_each, for_each_db. rewrite check_each_from.
    replace (concat _) with (@nil Violation.t); [by rewrite app_nil_r|]. symmetry. apply concat_nil. intros x [i Hx]%list_elem_of_lookup.
    rewrite list_lookup_imap in Hx. apply fmap_Some in Hx as (db & Hi & ->). by apply Hpolicy. }
  split.
  - rewrite Hv2. unfold inv1, check_convergence, check_each, for_each_db. rewrite check_each_from, Hv. cbn [app].
    apply Forall_concat, Forall_forall. intros x [i Hx]%list_elem_of_lookup. rewrite list_lookup_imap in Hx.
    apply fmap_Some in Hx as (db & _ & ->). apply convergence_named.
  - intros Hhead. split; [|intros i d Hi Hle; destruct (head_has_cursor σ _ d Hhead Hle) as (c & Hc & Hge);
      eapply at_head_exact; [by eapply sound_server|by eapply sound_device|done..]].
    rewrite holds_spec, Hv2, <- holds_spec. unfold inv1, check_convergence. rewrite check_each_holds. split.
    + intros [_ Hall] i d Hi. eapply convergence_behind; [by eapply sound_server|by eapply sound_device|done|done|].
      apply (Hall i). unfold dbs. by rewrite list_lookup_fmap, Hi.
    + intros Hall. split; [by apply holds_spec|]. intros i db Hi. unfold dbs in Hi. rewrite list_lookup_fmap in Hi.
      apply fmap_Some in Hi as (d & Hi & ->). eapply convergence_behind; [by eapply sound_server|by eapply sound_device|done|done|].
      by eapply Hall.
Qed.

Lemma settle_judged `{Hashes} `{Codec} w :
  settle w = if negb (in_flight_writes (server (quieted w)) =? 0)%nat then None else Some (judged (rates w) (quieted w)).
Proof. rewrite settle_unfold. reflexivity. Qed.

Lemma quieted_ok `{Hashes} `{Codec} `{!CodecArrays} (Henc : ∀ c : Change.t, encodable c) σ η w :
  world_ok σ η 600 w → world_ok σ η 0 (quieted w).
Proof.
  intros Hw. unfold quieted. apply (world_steps_ok Henc σ η SETTLE_STEPS 0). apply (world_ok_online Henc); [done|].
  by apply world_ok_rates.
Qed.

(** C13: A run fails only when a device has not caught up. Take any number of hostile steps, of a
    world whose fault latencies end within a step, and then quiet it: the world is still clean;
    and unless a write of the server is still in flight, which is the assertion of [settle], the
    run records no violation but of convergence. If the server's log is not empty, the verdict of
    the run is exactly whether every device has reached the head of the log; and each device that
    has, whether or not the others have, holds exactly the versions the log counts, under the
    server's digest. *)
Theorem runs_judge_arrival `{Hashes} `{Codec} `{!CodecArrays} seed rates trace n :
  (∀ c : Change.t, encodable c) → rates_ok rates → Z.of_nat n + 602 < u32_mod →
  let w0 := Nat.iter n world_step (World_new seed rates trace) in
  holds (invariants (quieted w0)) = true ∧
  match run n (World_new seed rates trace) with
  | None => (0 < in_flight_writes (server (quieted w0)))%nat
  | Some w =>
      Forall (λ v, Violation.invariant v = "convergence") (violations (invariants w)) ∧
      (0 < head (server w) →
       (holds (invariants w) = true ↔
          ∀ i d, devices w !! i = Some d → head (server w) ≤ cursor_of_db (World.scope w) (Device.db d)) ∧
       ∀ i d, devices w !! i = Some d → head (server w) ≤ cursor_of_db (World.scope w) (Device.db d) →
         level w d)
  end.
Proof.
  intros Henc Hr Hn. cbv zeta. unfold run. set (w0 := Nat.iter n _ _).
  assert (world_ok start_scope start_entity 600 w0) as H0ok.
  { apply (world_steps_ok Henc start_scope start_entity n). apply World_new_ok; [done|]. lia. }
  apply (quieted_ok Henc) in H0ok. generalize dependent w0. intros w0 Hq. rewrite settle_judged.
  split; [apply holds_spec, (clean_holds _ _ (ok_clean _ _ _ _ Hq))|].
  destruct (in_flight_writes (server (quieted w0)) =? 0)%nat eqn:Hfl; cbn [negb].
  - apply Nat.eqb_eq in Hfl. by eapply judged_exact.
  - apply Nat.eqb_neq in Hfl. lia.
Qed.

(** No response overtakes another. Between steps nothing is held back, and what is in flight is
    in two runs, the first due by the next step and the second only after it; so each step
    delivers a prefix of the list, in the order the answers joined it. A response the reorder
    fault holds back joins before the answer to the next request does. *)
Theorem responses_keep_order `{Hashes} `{Codec} `{!CodecArrays} seed rates trace n :
  (∀ c : Change.t, encodable c) → rates_ok rates → Z.of_nat n + 1 < u32_mod →
  let w := Nat.iter n world_step (World_new seed rates trace) in
  held w = [] ∧ ∃ due waiting, in_flight w = due ++ waiting ∧
    Forall (λ f, InFlight.deliver_at_ms f ≤ now_ms w + STEP_MS) due ∧
    Forall (λ f, now_ms w + STEP_MS < InFlight.deliver_at_ms f ≤ now_ms w + 2 * STEP_MS) waiting.
Proof.
  intros Henc Hr Hn. cbv zeta. pose proof (World_new_ok n seed rates trace Hr Hn) as Hok.
  destruct (world_steps_ok Henc start_scope start_entity n 0 (World_new seed rates trace)) as (Hok' & _); [by rewrite Nat.add_0_r|].
  split; [apply Hok'|]. exact (ok_flights _ _ _ _ Hok').
Qed.

(** ** Witnesses *)

Lemma default_rates_ok : rates_ok FaultRates.default.
Proof. unfold rates_ok, STEP_MS. cbn. lia. Qed.

(** Eight steps of a world of four devices, each of which has a row by then. *)
Definition eight_steps : World := Nat.iter 8 world_step (World_new 12 FaultRates.default Trace.counting).

Lemma worlds_stay_clean_witness :
  head (server eight_steps) = 2 ∧ (λ d, size (Db.rows (Device.db d))) <$> devices eight_steps = [1; 1; 1; 1]%nat ∧
  holds (invariants eight_steps) = true.
Proof.
  split_and!; [compute_now..|].
  destruct (worlds_stay_clean 12 FaultRates.default Trace.counting 8 encodable_all default_rates_ok ltac:(done)) as [Hh _].
  unfold eight_steps. exact Hh.
Defined.

Lemma runs_judge_arrival_witness :
  rates eight_steps = FaultRates.default ∧ 0 < head (server eight_steps) ∧ holds (invariants (quieted eight_steps)) = true.
Proof.
  split_and!; [compute_now..|].
  destruct (runs_judge_arrival 12 FaultRates.default Trace.counting 8 encodable_all default_rates_ok ltac:(done)) as [Hh _].
  unfold eight_steps. exact Hh.
Defined.

(** ** What the latency bound keeps out of sight *)

(** No faults at all, but answers may take minutes. *)
Definition slow_network : FaultRates.t :=
  FaultRates.mk 0 0 0 0 0 0 0 0 0 0 0 0 0 0 (20, 300000).

(** A run that a slow network rewinds. With every fault off and answers that may take five
    minutes, an empty answer asked for at the start arrives after one that moved the device,
    and the client takes it ([empty_batch_rewinds]): its cursor goes back from 1 to 0 under rows
    it still holds, and the checkers say so. The simulator's own latencies are within the bound
    [worlds_stay_clean] asks for. *)
Example slow_network_rewinds :
  let w := Nat.iter 6 world_step (World_new 10 slow_network Trace.counting) in
  ¬ rates_ok slow_network ∧ rates_ok FaultRates.default ∧
  (λ v, (Violation.invariant v, Violation.detail v)) <$> violations (invariants w) =
    [("cursor-monotonicity", "cursor moved backwards, 1 -> 0");
     ("applied-state", "reflections/row:3 is stored at version 1 but no change at or below the cursor 0 ever created it")].
Proof.
  split_and!; [unfold rates_ok, STEP_MS; cbn; lia|apply default_rates_ok|compute_now].
Qed.
