(* ===== verification/ArrivalClaims.v ===== *)
(** * ArrivalClaims: once the faults stop, every device arrives.

    [worlds_stay_clean] says nothing bad happens; here the good thing does. A pair of quiet
    steps hands over at least one of the entries a device misses and answers at least one of
    the commands it has queued; so as many pairs as there are of either are enough, and a run
    whose devices miss and have queued no more than the settling steps can handle passes. *)

From S2P Require Import Prelude Errors Nums Ids Json Wire Integrity Core Registry Migrate Outbox.
From S2P Require Import Storage SimStorage Apply Engine EngineFacts EngineSteps Place Ledger.
From S2P Require Import Server Rng FaultMenu Pressure SimServer SimServerFacts SimReads SimFeed.
From S2P Require Import Invariants InvariantFacts Trace World Deliveries WorldDevices WorldServer WorldSteps.
From S2P Require Import WorldCarry WorldSound WorldPhases WorldClean WorldRuns WorldQuiet WorldArrive WorldQueues.
From S2P Require Import WorldDrain WorldClaims Concrete.
From stdpp Require Import options.

(** The world [settle] steps: no fault, everyone online. *)
Definition hushed (w : World) : World :=
  set_devices (fmap (Device.with_transport (set_online true))) (set_quiet true (set_rates FaultRates.none w)).

Section arrival.
Context `{Hashes} `{Codec} `{!CodecArrays}.
Hypothesis Henc : ∀ c : Change.t, encodable c.
Variables (σ : ScopeId.t) (η : EntityName.t).

Lemma hushed_ok n w : world_ok σ η n w → world_ok σ η n (hushed w) ∧ calm_world (hushed w).
Proof using All.
  intros Hw. split; [apply (world_ok_online Henc); [done|by apply world_ok_rates]|].
  split; [done|done|]. intros i d. cbn. rewrite list_lookup_fmap. by intros (d0 & _ & ->)%fmap_Some.
Qed.

Lemma stored_outbox d : v_outbox (stored d) = (λ '(c, s), OutboxEntry.mk c s) <$> Db.outbox (Device.db d).
Proof. unfold stored, durable, Device.db. by destruct (storage (Device.engine d)). Qed.

Lemma cursor_at_db w i d : devices w !! i = Some d → cursor_at σ w i = cursor_of_db σ (Device.db d).
Proof.
  intros Hd. unfold cursor_at, cursor_of_db, stored_cursor. rewrite Hd.
  change (v_cursors (stored d)) with (Db.cursors (Device.db d)). by destruct (Db.cursors (Device.db d) !! σ).
Qed.

Lemma cursor_bound n w i d : world_ok σ η n w → devices w !! i = Some d → cursor_of_db σ (Device.db d) ≤ head (server w).
Proof using All.
  intros Hok Hd. rewrite <- (cursor_at_db w i d Hd). unfold cursor_at. rewrite Hd.
  destruct (sound_device _ _ _ _ (ok_sound _ _ _ _ Hok) i d Hd) as [_ _ _ [[_ Hnext] _ _ _ _] _]. unfold head. lia.
Qed.

(** A server with nothing uncommitted shows its whole log. *)
Lemma settled_head s : server_ok σ η s → in_flight_writes s = 0%nat → head s ≤ visible_head s σ.
Proof.
  intros Hs Hnil%nil_length_inv. destruct (ok_head _ _ _ Hs) as [->|(e & He & <-)]; [apply visible_head_nonneg, Hs|].
  pose proof (settled_visible s σ (ok_wf _ _ _ Hs) Hnil) as Hv. rewrite Forall_forall in Hv. by apply Hv.
Qed.

(** [arrives], with the steps left over. *)
Lemma arrives_within k r w i :
  world_ok σ η r w → calm_world w → is_Some (devices w !! i) → (2 * k ≤ r)%nat →
  (missing σ (server w) (cursor_at σ w i) ≤ k)%nat →
  visible_head (server w) σ ≤ cursor_at σ (Nat.iter r world_step w) i.
Proof using All.
  intros Hok Hcalm Hi Hk Hm. replace r with (2 * k + (r - 2 * k))%nat in Hok by lia.
  replace r with ((r - 2 * k) + 2 * k)%nat by lia. rewrite Nat.iter_add.
  pose proof (arrives Henc σ η (server w) k (r - 2 * k) w i) as Ha.
  destruct (calm_steps Henc σ η (2 * k) (r - 2 * k) w Hok Hcalm) as [Hok' _]. etransitivity.
  - apply Ha; [|done|done|done|done|done]. eapply ok_wf, sound_server, (ok_sound _ _ _ _ Hok).
  - apply (cursor_steps Henc σ η (r - 2 * k) 0). by rewrite Nat.add_0_r.
Qed.
(** A calm world with nothing to push and nothing uncommitted, [r] steps on. *)
Lemma drained_settles r w :
  world_ok σ η r w → calm_world w → in_flight_writes (server w) = 0%nat →
  (∀ i d, devices w !! i = Some d → Db.outbox (Device.db d) = [] ∧
     (2 * missing σ (server w) (cursor_of_db σ (Device.db d)) ≤ r)%nat) →
  let q := Nat.iter r world_step w in
  world_ok σ η 0 q ∧ server q = server w ∧
  ∀ i d, devices q !! i = Some d → head (server w) ≤ cursor_of_db σ (Device.db d) ∧ Db.outbox (Device.db d) = [].
Proof using All.
  intros Hok Hcalm Hfl Hdev. cbv zeta.
  assert (Hasleep : asleep w).
  { split; [done..|]. intros i d Hd. rewrite stored_outbox. destruct (Hdev i d Hd) as [-> _]. done. }
  assert (world_ok σ η (r + 0) w) as Hok0 by by rewrite Nat.add_0_r.
  destruct (asleep_steps Henc σ η r 0 w Hok0 Hasleep) as [[_ _ Hdry] Hsv].
  destruct (world_steps_ok Henc σ η r 0 w Hok0) as (Hokq & _ & _ & Hfw). split; [done|]. split; [done|].
  intros i d' Hd'. split.
  2:{ specialize (Hdry i d' Hd'). rewrite stored_outbox in Hdry. by apply fmap_nil_inv in Hdry. }
  rewrite <- (cursor_at_db _ i d' Hd'). destruct (Forall2_lookup_r _ _ _ _ _ Hfw Hd') as (d & Hd & _).
  etransitivity; [apply settled_head; [apply (ok_sound _ _ _ _ Hok)|done]|].
  destruct (Hdev i d Hd) as [_ Hm]. rewrite <- (cursor_at_db w i d Hd) in Hm.
  eapply arrives_within; [done|done|by eexists| |exact (le_n _)]. lia.
Qed.
End arrival.

(** C16: Quiet devices arrive. (Fault latencies end within a step, and the codec encodes every
    change.) After any number of hostile steps, and any number [m] of quiet ones
    after those, take what the server then shows. A device that misses [k] of those entries
    has them all within [2 k] further quiet steps, whatever else the server writes meanwhile
    and whatever the devices still push. *)
Theorem quiet_devices_arrive `{Hashes} `{Codec} `{!CodecArrays} seed rates trace n m k i d :
  (∀ c : Change.t, encodable c) → rates_ok rates → Z.of_nat (n + m + 2 * k) + 2 < u32_mod →
  let w := Nat.iter m world_step (hushed (Nat.iter n world_step (World_new seed rates trace))) in
  let w' := Nat.iter (2 * k) world_step w in
  devices w !! i = Some d →
  (missing (World.scope w) (server w) (cursor_of_db (World.scope w) (Device.db d)) ≤ k)%nat →
  ∃ d', devices w' !! i = Some d' ∧
    visible_head (server w) (World.scope w) ≤ cursor_of_db (World.scope w) (Device.db d').
Proof.
  intros Henc Hr Hn. cbv zeta.
  assert (world_ok start_scope start_entity (m + (2 * k + 0)) (Nat.iter n world_step (World_new seed rates trace))) as H0ok.
  { apply (world_steps_ok Henc start_scope start_entity n). apply World_new_ok; [done|]. lia. }
  set (w0 := Nat.iter n _ _) in *. clearbody w0.
  destruct (hushed_ok Henc start_scope start_entity _ w0 H0ok) as [Hok Hcalm].
  destruct (calm_steps Henc start_scope start_entity m (2 * k + 0) _ Hok Hcalm) as [Hok' Hcalm'].
  set (w := Nat.iter m _ _) in *. clearbody w. destruct (sound_world _ _ _ _ (ok_sound _ _ _ _ Hok')) as [[Hsc _] _]. rewrite Hsc.
  intros Hd Hm. rewrite <- (cursor_at_db start_scope w i d Hd) in Hm.
  rewrite Nat.add_0_r in Hok'.
  pose proof (arrives_within Henc start_scope start_entity k (2 * k) w i Hok' Hcalm' ltac:(by eexists) (le_n _) Hm) as Ha.
  destruct (world_steps_ok Henc start_scope start_entity (2 * k) 0 w) as (_ & _ & _ & Hfw); [by rewrite Nat.add_0_r|].
  destruct (Forall2_lookup_l _ _ _ _ _ Hfw Hd) as (d' & Hd' & _). exists d'. split; [exact Hd'|].
  by rewrite <- (cursor_at_db start_scope _ i d' Hd').
Qed.

(** A run that drains passes. Suppose that [m] of the settling steps after a hostile run,
    every outbox is empty, the server has a log and none of it uncommitted, and every device
    misses at most half as many entries as settling steps are left. Then the server never
    writes again, the assertion of [settle] holds, every device reaches the head of the log with
    nothing queued,
    and the run's verdict is that every invariant held. *)
Theorem drained_runs_pass `{Hashes} `{Codec} `{!CodecArrays} seed rates trace n m :
  (∀ c : Change.t, encodable c) → rates_ok rates → Z.of_nat n + 602 < u32_mod → (m ≤ SETTLE_STEPS)%nat →
  let w := Nat.iter m world_step (hushed (Nat.iter n world_step (World_new seed rates trace))) in
  0 < head (server w) → in_flight_writes (server w) = 0%nat →
  (∀ i d, devices w !! i = Some d → Db.outbox (Device.db d) = [] ∧
     (2 * missing (World.scope w) (server w) (cursor_of_db (World.scope w) (Device.db d)) ≤ SETTLE_STEPS - m)%nat) →
  ∃ w', run n (World_new seed rates trace) = Some w' ∧ holds (invariants w') = true ∧ server w' = server w ∧
    ∀ i d, devices w' !! i = Some d →
      head (server w') ≤ cursor_of_db (World.scope w') (Device.db d) ∧ Db.outbox (Device.db d) = [].
Proof.
  intros Henc Hr Hn Hsteps. cbv zeta. set (r := (SETTLE_STEPS - m)%nat).
  assert (world_ok start_scope start_entity (m + r) (Nat.iter n world_step (World_new seed rates trace))) as H0ok.
  { apply (world_steps_ok Henc start_scope start_entity n). apply World_new_ok; [done|].
    replace (m + r)%nat with SETTLE_STEPS by (unfold r; lia). rewrite Nat2Z.inj_add. change (Z.of_nat SETTLE_STEPS) with 600. lia. }
  unfold run. set (w0 := Nat.iter n _ _) in *. clearbody w0.
  destruct (hushed_ok Henc start_scope start_entity _ w0 H0ok) as [Hok Hcalm].
  destruct (calm_steps Henc start_scope start_entity m r _ Hok Hcalm) as [Hok' Hcalm'].
  set (w := Nat.iter m _ _) in *. intros Hhead Hfl Hdev.
  assert (quieted w0 = Nat.iter r world_step w) as Hq.
  { unfold quieted, w. rewrite <- Nat.iter_add. by replace (r + m)%nat with SETTLE_STEPS by (unfold r; lia). }
  clearbody w. destruct (sound_world _ _ _ _ (ok_sound _ _ _ _ Hok')) as [[Hsc _] _]. rewrite Hsc in Hdev.
  destruct (drained_settles Henc start_scope start_entity r w Hok' Hcalm' Hfl Hdev) as (Hokq & Hsv & Hall).
  rewrite settle_judged, Hq. set (q := Nat.iter r world_step w) in *. clearbody q.
  rewrite Hsv, Hfl. cbn [Nat.eqb negb]. eexists. split; [reflexivity|].
  assert (in_flight_writes (server q) = 0%nat) as Hflq by by rewrite Hsv.
  destruct (judged_exact start_scope start_entity 0 (World.rates w0) q Hokq Hflq) as [_ Hverdict].
  destruct (sound_world _ _ _ _ (ok_sound _ _ _ _ Hokq)) as [[Hscq _] _].
  set (j := judged _ q) in *. assert (server j = server q ∧ devices j = devices q ∧ World.scope j = World.scope q) as (Hsj & Hdj & Hscj) by done.
  rewrite Hsj, Hdj, Hscj, Hscq, Hsv in *. split; [apply Hverdict; [done|intros i d Hd; by apply (Hall i d)]|]. by split.
Qed.

(** Every command queued on any device. *)
Definition queued (w : World) : nat := length (flat_map (λ d, Db.outbox (Device.db d)) (devices w)).

Lemma queued_backlog w : length (backlog w) = queued w.
Proof.
  unfold backlog, queued. induction (devices w) as [|d ds IH]; [done|]. cbn [flat_map].
  by rewrite !length_app, IH, stored_outbox, length_fmap.
Qed.

Lemma queued_hushed w : queued (hushed w) = queued w.
Proof. unfold queued. cbn. induction (devices w) as [|d ds IH]; [done|]. csimpl. by rewrite !length_app, IH. Qed.

(** Where a device is once its world has fallen asleep. *)
Lemma asleep_place `{Hashes} `{Codec} `{!CodecArrays} σ η m r w i d' :
  (∀ c : Change.t, encodable c) → (∀ c : Command.t, writable c) → m = (4 + 2 * queued w)%nat →
  world_ok σ η (m + r) w → calm_world w → devices (Nat.iter m world_step w) !! i = Some d' →
  Db.outbox (Device.db d') = [] ∧ ∃ d, devices w !! i = Some d ∧
    Z.of_nat (missing σ (server (Nat.iter m world_step w)) (cursor_of_db σ (Device.db d'))) ≤
      Z.max 0 (head (server w) + Z.of_nat (queued w) - cursor_of_db σ (Device.db d)).
Proof.
  intros Henc Hwrite Hm Hok Hcalm Hd'. rewrite <- queued_backlog in *.
  destruct (falls_asleep Henc σ η Hwrite m r w Hm Hok Hcalm) as [[_ _ Hdry] Hseq].
  destruct (world_steps_ok Henc σ η m r w Hok) as (Hok' & _ & _ & Hfw).
  pose proof (cursor_forward Henc σ η _ _ _ _ i Hfw (ok_sound _ _ _ _ Hok')) as Hc.
  set (w' := Nat.iter m world_step w) in *. clearbody w'.
  destruct (Forall2_lookup_r _ _ _ _ _ Hfw Hd') as (d & Hd & _). rewrite (cursor_at_db σ w i d Hd), (cursor_at_db σ w' i d' Hd') in Hc.
  specialize (Hdry i d' Hd'). rewrite stored_outbox in Hdry. split; [by apply fmap_nil_inv in Hdry|]. exists d. split; [done|].
  pose proof (missing_bound σ _ (cursor_of_db σ (Device.db d')) (ok_wf _ _ _ (sound_server _ _ _ _ (ok_sound _ _ _ _ Hok')))) as Hmiss.
  unfold head in *. clear -Hmiss Hc Hseq. lia.
Qed.

(** With few enough commands queued and entries missed, a world falls asleep in half the time. *)
Lemma asleep_in_time `{Hashes} `{Codec} `{!CodecArrays} σ η steps w :
  (∀ c : Change.t, encodable c) → (∀ c : Command.t, writable c) → world_ok σ η steps w → steps = 600%nat →
  (∀ i d, devices w !! i = Some d →
     2 * Z.of_nat (queued w) + (head (server w) - cursor_of_db (World.scope w) (Device.db d)) + 2 ≤ 300) →
  ∃ m, (m ≤ steps)%nat ∧
    let w' := Nat.iter m world_step (hushed w) in
    in_flight_writes (server w') = 0%nat ∧
    head (server w) ≤ head (server w') ≤ head (server w) + Z.of_nat (queued w) ∧
    ∀ i d, devices w' !! i = Some d → Db.outbox (Device.db d) = [] ∧
      (2 * missing (World.scope w') (server w') (cursor_of_db (World.scope w') (Device.db d)) ≤ steps - m)%nat.
Proof.
  intros Henc Hwrite Hok Hsteps Hbound. destruct (sound_world _ _ _ _ (ok_sound _ _ _ _ Hok)) as [[Hsc _] _]. rewrite Hsc in Hbound.
  assert (4 + 2 * queued w ≤ steps)%nat as Hm.
  { destruct (devices w) as [|d ds] eqn:Hds; [unfold queued; rewrite Hds; cbn; lia|].
    assert (devices w !! 0%nat = Some d) as H0d by by rewrite Hds. specialize (Hbound 0%nat d eq_refl).
    pose proof (cursor_bound Henc σ η steps w 0 d Hok H0d). lia. }
  destruct (hushed_ok Henc σ η _ w Hok) as [Hok0 Hcalm0].
  pose proof (queued_hushed w) as Hq. assert (server (hushed w) = server w) as Hs by done.
  assert (∀ i d, devices (hushed w) !! i = Some d → ∃ d0, devices w !! i = Some d0 ∧ Device.db d = Device.db d0) as Hdev.
  { intros i d. cbn. rewrite list_lookup_fmap. intros (d0 & ? & ->)%fmap_Some. by exists d0. }
  set (h := hushed w) in *. clearbody h. rewrite <- Hq, <- Hs in *. remember (4 + 2 * queued h)%nat as m eqn:Hmk. exists m. split; [exact Hm|].
  assert (world_ok σ η (m + (steps - m)) h) as Hok1 by by replace (m + (steps - m))%nat with steps by lia.
  destruct (world_steps_ok Henc σ η m _ h Hok1) as (Hokm & _).
  destruct (sound_world _ _ _ _ (ok_sound _ _ _ _ Hokm)) as [[Hscm _] _].
  destruct (falls_asleep Henc σ η Hwrite m (steps - m) h) as [[_ Hfl _] Hseq]; [by rewrite queued_backlog|done|done|].
  pose proof (λ i d, asleep_place σ η m (steps - m) h i d Henc Hwrite Hmk Hok1 Hcalm0) as Hplace. cbv zeta. rewrite Hscm.
  rewrite queued_backlog in Hseq.
  set (w' := Nat.iter m world_step h) in *. clearbody w'. split; [exact Hfl|]. split; [unfold head; lia|].
  intros i d' Hd'. destruct (Hplace i d' Hd') as (Hnil & d & Hd & Hmiss). split; [exact Hnil|].
  destruct (Hdev i d Hd) as (d0 & Hd0 & Hdb). specialize (Hbound i d0 Hd0). rewrite Hdb in Hmiss. lia.
Qed.

(** C15: Quiet outboxes drain. (Fault latencies end within a step, and the codec encodes every
    change and command.) After any number of hostile steps and any number [m] of quiet
    ones, a device with at most [k] commands queued has none queued [2 k] quiet steps later, and
    every one of those commands has its outcome kept on the device, whatever the load the server
    is under. *)
Theorem quiet_outboxes_drain `{Hashes} `{Codec} `{!CodecArrays} seed rates trace n m k i d :
  (∀ c : Change.t, encodable c) → (∀ c : Command.t, writable c) → rates_ok rates → Z.of_nat (n + m + 2 * k) + 2 < u32_mod →
  let w := Nat.iter m world_step (hushed (Nat.iter n world_step (World_new seed rates trace))) in
  let w' := Nat.iter (2 * k) world_step w in
  devices w !! i = Some d → (length (Db.outbox (Device.db d)) ≤ k)%nat →
  ∃ d', devices w' !! i = Some d' ∧ Db.outbox (Device.db d') = [] ∧
    ∀ c, c ∈ Db.outbox (Device.db d) → Command.id c.1 ∈ (Db.resolved (Device.db d')).*1.
Proof.
  intros Henc Hwrite Hr Hn. cbv zeta.
  assert (world_ok start_scope start_entity (m + (2 * k + 0)) (Nat.iter n world_step (World_new seed rates trace))) as H0ok.
  { apply (world_steps_ok Henc start_scope start_entity n). apply World_new_ok; [done|]. lia. }
  set (w0 := Nat.iter n _ _) in *. clearbody w0.
  destruct (hushed_ok Henc start_scope start_entity _ w0 H0ok) as [Hok Hcalm].
  destruct (calm_steps Henc start_scope start_entity m (2 * k + 0) _ Hok Hcalm) as [Hok' Hcalm'].
  set (w := Nat.iter m _ _) in *. clearbody w. intros Hd Hk.
  destruct (world_steps_ok Henc start_scope start_entity (2 * k) 0 w Hok') as (_ & _ & _ & Hfw).
  destruct (Forall2_lookup_l _ _ _ _ _ Hfw Hd) as (d' & Hd' & [[[_ Hprog] _] _]). exists d'. split; [exact Hd'|].
  pose proof (drains Henc Hwrite start_scope start_entity k 0 w i Hok' Hcalm') as Hnil. unfold outbox_at in Hnil.
  rewrite Hd, Hd', !stored_outbox, length_fmap in Hnil. specialize (Hnil Hk). split; [by apply fmap_nil_inv in Hnil|].
  intros c Hc. destruct (Hprog (Command.id c.1)) as [Hq|Ha].
  - unfold queue_ids. rewrite stored_outbox. apply list_elem_of_fmap. exists (OutboxEntry.mk c.1 c.2). split; [done|].
    apply list_elem_of_fmap. exists c. by destruct c.
  - unfold queue_ids in Hq. rewrite stored_outbox, Hnil in Hq. by apply not_elem_of_nil in Hq.
  - exact Ha.
Qed.

(** C14: Settled runs pass. (Fault latencies end within a step, as the simulator's own do, and the
    codec encodes every change and command.) Take a run whose faults stop with [t] commands queued in all. If every
    device's cursor is less than [298 - 2 t] behind the head of the log, which is not empty, then
    the settling steps are enough: no write is left in flight, so [settle] does not panic; every
    device ends at the head of the log with nothing queued; at most [t] entries were added; and
    the run's verdict is that every invariant held. *)
Theorem settled_runs_pass `{Hashes} `{Codec} `{!CodecArrays} seed rates trace n :
  (∀ c : Change.t, encodable c) → (∀ c : Command.t, writable c) → rates_ok rates → Z.of_nat n + 602 < u32_mod →
  let w := Nat.iter n world_step (World_new seed rates trace) in
  0 < head (server w) →
  (∀ i d, devices w !! i = Some d →
     2 * Z.of_nat (queued w) + (head (server w) - cursor_of_db (World.scope w) (Device.db d)) + 2 ≤ 300) →
  ∃ w', run n (World_new seed rates trace) = Some w' ∧ holds (invariants w') = true ∧
    head (server w) ≤ head (server w') ≤ head (server w) + Z.of_nat (queued w) ∧
    ∀ i d, devices w' !! i = Some d →
      head (server w') ≤ cursor_of_db (World.scope w') (Device.db d) ∧ Db.outbox (Device.db d) = [].
Proof.
  intros Henc Hwrite Hr Hn w Hhead Hbound.
  assert (world_ok start_scope start_entity SETTLE_STEPS w) as Hok.
  { apply (world_steps_ok Henc start_scope start_entity n). apply World_new_ok; [done|]. rewrite Nat2Z.inj_add.
    change (Z.of_nat SETTLE_STEPS) with 600. lia. }
  destruct (asleep_in_time start_scope start_entity SETTLE_STEPS w Henc Hwrite Hok eq_refl Hbound) as (m & Hm & Hfl & Hseq & Hplace).
  destruct (drained_runs_pass seed rates trace n m) as (w' & Hrun & Hholds & Hsv & Hall);
    [exact Henc|exact Hr|exact Hn|exact Hm| |exact Hfl|exact Hplace|].
  - fold w. clear -Hhead Hseq. lia.
  - exists w'. split; [exact Hrun|]. split; [exact Hholds|]. split; [rewrite Hsv; exact Hseq|exact Hall].
Qed.

(** ** Witnesses *)

(** Where a device stands: its queue, its cursor, and what it misses. *)
Definition place_of (w : World) (d : Device.t) : nat * Z * nat :=
  let c := cursor_of_db (World.scope w) (Device.db d) in
  (length (Db.outbox (Device.db d)), c, missing (World.scope w) (server w) c).
Definition places (w : World) : list (nat * Z * nat) := place_of w <$> devices w.

Lemma places_at w i d : devices w !! i = Some d → places w !! i = Some (place_of w d).
Proof. intros Hd. unfold places. by rewrite list_lookup_fmap, Hd. Qed.

Lemma quiet_devices_arrive_witness :
  let w := Nat.iter 0 world_step (hushed (Nat.iter 8 world_step (World_new 12 FaultRates.default Trace.counting))) in
  places w = [(0%nat, 1, 1%nat); (0%nat, 1, 1%nat); (1%nat, 1, 1%nat); (0%nat, 1, 1%nat)] ∧
  visible_head (server w) (World.scope w) = 2 ∧
  ∀ i d, devices w !! i = Some d →
    ∃ d', devices (Nat.iter (2 * 1) world_step w) !! i = Some d' ∧
      visible_head (server w) (World.scope w) ≤ cursor_of_db (World.scope w) (Device.db d').
Proof.
  intros w. assert (places w = [(0%nat, 1, 1%nat); (0%nat, 1, 1%nat); (1%nat, 1, 1%nat); (0%nat, 1, 1%nat)]) as Hp
    by (unfold w; compute_now).
  split; [exact Hp|]. split; [unfold w; compute_now|]. intros i d Hd.
  apply (quiet_devices_arrive 12 FaultRates.default Trace.counting 8 0 1 i d encodable_all default_rates_ok ltac:(done) Hd).
  fold w. apply places_at in Hd. rewrite Hp in Hd. clearbody w. unfold place_of in Hd.
  do 4 (destruct i as [|i]; [by injection Hd as _ _ <-|]). done.
Defined.

(** Eight steps of another world of four devices: one has the row, three do not, and no command
    is waiting. *)
Lemma drained_runs_pass_witness :
  let w := Nat.iter 0 world_step (hushed (Nat.iter 8 world_step (World_new 2 FaultRates.default Trace.counting))) in
  places w = [(0%nat, 1, 0%nat); (0%nat, 0, 1%nat); (0%nat, 0, 1%nat); (0%nat, 0, 1%nat)] ∧
  ∃ w', run 8 (World_new 2 FaultRates.default Trace.counting) = Some w' ∧ holds (invariants w') = true ∧
    server w' = server w ∧ ∀ i d, devices w' !! i = Some d →
      head (server w') ≤ cursor_of_db (World.scope w') (Device.db d) ∧ Db.outbox (Device.db d) = [].
Proof.
  intros w. assert (places w = [(0%nat, 1, 0%nat); (0%nat, 0, 1%nat); (0%nat, 0, 1%nat); (0%nat, 0, 1%nat)]) as Hp
    by (unfold w; compute_now).
  assert (head (server w) = 1 ∧ in_flight_writes (server w) = 0%nat) as [Hh Hf] by (unfold w; split; compute_now).
  split; [exact Hp|].
  apply (drained_runs_pass 2 FaultRates.default Trace.counting 8 0 encodable_all default_rates_ok ltac:(done) ltac:(apply le_0_n));
    fold w; clearbody w; [by rewrite Hh|exact Hf|].
  intros i d Hd. apply places_at in Hd. rewrite Hp in Hd.
  destruct (place_of w d) as [[a c] k] eqn:Hpl.
  assert (a = 0%nat ∧ (k ≤ 1)%nat) as [-> Hk] by (do 4 (destruct i as [|i]; [injection Hd as <- _ <-; lia|]); done).
  unfold place_of in Hpl. injection Hpl as Hnil _ Hmiss. apply nil_length_inv in Hnil. split; [done|].
  rewrite Hmiss. change (SETTLE_STEPS - 0)%nat with 600%nat. lia.
Defined.

(** The world of [quiet_devices_arrive_witness]: one of its four devices has a command queued, and
    all four miss an entry. *)
Lemma quiet_outboxes_drain_witness :
  let w := Nat.iter 0 world_step (hushed (Nat.iter 8 world_step (World_new 12 FaultRates.default Trace.counting))) in
  (fst ∘ fst <$> places w) = [0; 0; 1; 0]%nat ∧
  ∀ i d, devices w !! i = Some d →
    ∃ d', devices (Nat.iter (2 * 1) world_step w) !! i = Some d' ∧ Db.outbox (Device.db d') = [] ∧
      ∀ c, c ∈ Db.outbox (Device.db d) → Command.id c.1 ∈ (Db.resolved (Device.db d')).*1.
Proof.
  intros w. assert ((fst ∘ fst <$> places w) = [0; 0; 1; 0]%nat) as Hp by (unfold w; compute_now).
  split; [exact Hp|]. intros i d Hd.
  apply (quiet_outboxes_drain 12 FaultRates.default Trace.counting 8 0 1 i d encodable_all writable_all default_rates_ok ltac:(done) Hd).
  fold w. apply places_at in Hd. assert ((fst ∘ fst <$> places w) !! i = Some (length (Db.outbox (Device.db d)))) as Hl
    by by rewrite list_lookup_fmap, Hd.
  rewrite Hp in Hl. clearbody w. do 4 (destruct i as [|i]; [injection Hl as <-; lia|]). done.
Defined.

Lemma settled_runs_pass_witness :
  let w := Nat.iter 8 world_step (World_new 12 FaultRates.default Trace.counting) in
  queued w = 1%nat ∧ head (server w) = 2 ∧ places w = [(0%nat, 1, 1%nat); (0%nat, 1, 1%nat); (1%nat, 1, 1%nat); (0%nat, 1, 1%nat)] ∧
  ∃ w', run 8 (World_new 12 FaultRates.default Trace.counting) = Some w' ∧ holds (invariants w') = true ∧
    head (server w) ≤ head (server w') ≤ head (server w) + Z.of_nat (queued w) ∧
    ∀ i d, devices w' !! i = Some d →
      head (server w') ≤ cursor_of_db (World.scope w') (Device.db d) ∧ Db.outbox (Device.db d) = [].
Proof.
  intros w. assert (queued w = 1%nat ∧ head (server w) = 2) as [Hq Hh] by (unfold w; split; compute_now).
  assert (places w = [(0%nat, 1, 1%nat); (0%nat, 1, 1%nat); (1%nat, 1, 1%nat); (0%nat, 1, 1%nat)]) as Hp by (unfold w; compute_now).
  split; [exact Hq|]. split; [exact Hh|]. split; [exact Hp|].
  apply (settled_runs_pass 12 FaultRates.default Trace.counting 8 encodable_all writable_all default_rates_ok ltac:(done));
    fold w; clearbody w; [by rewrite Hh|].
  intros i d Hd. rewrite Hq, Hh. apply places_at in Hd. rewrite Hp in Hd. destruct (place_of w d) as [[a c] k] eqn:Hpl.
  assert (c = 1) as -> by (do 4 (destruct i as [|i]; [injection Hd as _ <- _; lia|]); done).
  unfold place_of in Hpl. injection Hpl as _ Hc _. rewrite Hc. lia.
Defined.
